(* ===== verification/_CoqProject ===== *)
-Q . S2P
Prelude.v
Vv.v
Decide.v
Metadata.v
Conflict.v
ConflictProofs.v
State.v
Oplog.v
OplogProofs.v
StoreProps.v
Marks.v
StreamProps.v
StoreWitness.v
Admin.v
Membership.v
MembershipProofs.v
GossipMesh.v
Suppress.v
Join.v
Merkle.v
MerkleProofs.v
ReconcileProps.v
Chunk.v
Proto.v
Fs.v
Apply.v
ApplyProofs.v
ApplyLive.v
Peer.v
Fetch.v
Engine.v
EngineProofs.v
EngineLive.v
EngineWitness.v
Reconcile.v
ReconcileWire.v
Replica.v
ReplicaProofs.v
Session.v
SessionProofs.v
SubscriberProofs.v
SessionWitness.v
Ingest.v
Scanner.v
ScannerProofs.v
CasDisk.v
CasDiskProofs.v
IngestProofs.v
LocalProofs.v
LocalWitness.v
CasDiskWitness.v
Float.v
Qos.v
QosProofs.v
Config.v
ConfigProofs.v
ConfigWitness.v
Policy.v
PolicyProofs.v
PolicyWitness.v
Links.v
LinksProofs.v
LinksWitness.v
Watch.v
WatchProofs.v
WatchStart.v
Stats.v
Control.v
ControlProofs.v
ControlWitness.v
Serve.v
ServeProofs.v
Cli.v
CliProofs.v
CliWitness.v
Boot.v
BootProofs.v
BootWitness.v
Health.v
HealthDocProofs.v
