(* ===== verification/Prelude.v ===== *)
(** * Replicore: a verification library for the replication engine

    Replicore keeps a directory tree in sync between the nodes of a mesh.
    Each node has a share on disk, an SQLite database owned by one store
    thread, a content-addressed chunk store and QUIC links to its peers.
    Local changes become operations in the log and stream to the peers; each
    peer decides on every operation by comparing version vectors, applies it,
    ignores it, or resolves the conflict into a winner and conflict copies.
    A Merkle tree over the index lets two nodes repair whatever the streams
    missed. Who the peers are is itself replicated state: a roster of entries
    signed by an administrator, spread by gossip.

    ** The parts and the files that model them

    - [Prelude] (this file): the result monad, machine integers, byte arrays,
      Rust's [Ord] as a class with laws, sorted iteration of a [BTreeMap],
      the BLAKE3 parameter, the loop that waits for a notification, the
      library's tactics.
    - [Vv], Module [VersionVector]: src/src/vv.rs. A vector is a finite map
      from node ids to 64-bit counters; one definition per method.
    - [Decide]: src/src/decide.rs.
    - [Metadata], Module [Meta]: the metadata snapshot of
      src/src/metadata.rs, its hash and its naming hash. Bincode is a class
      of functions with decode-after-encode laws.
    - [Conflict], Modules [Version] and [Resolve]: src/src/conflict.rs;
      [ConflictProofs] has its theorems.
    - [State], Module [State]: src/src/state.rs. The database is the record
      [Conn] of tables of raw columns; [Scan] is the order in which an
      unordered query yields rows.
    - [Oplog], Module [Oplog] and [store_step]: src/src/oplog.rs. Every
      command of the store thread is a transaction on [Conn];
      [OplogProofs], [StoreProps], [StreamProps] and [StoreWitness] hold the
      invariants, the contracts and the concrete runs.
    - [Admin] and [Membership], Modules [Roster], [Membership], [Gossip]:
      src/src/admin.rs, src/src/membership.rs, src/src/gossip.rs.
      Ed25519 is a class; file-system outcomes are arguments.
      [MembershipProofs] has the theorems. [GossipMesh], Module
      [GossipDriver]: the driver of src/src/net.rs that exchanges rosters, over
      a mesh with lost and cut exchanges.
    - [Suppress]: src/src/suppress.rs, the clock an argument.
    - [Join], Module [JoinTracker]: src/src/join.rs, each handler split into
      its locked update and its later write to the store.
    - [Merkle], Module [MerkleTree]: the tree, paging and descent of
      src/src/merkle.rs, and the paged listing of src/src/net.rs
      ([QuicReconcile::children] and its server side). [MerkleProofs] shows
      what [build] builds, [ReconcileProps] what a session finds.
    - [Chunk], Module [Cas]: src/src/chunk.rs over a map of chunk files; the
      chunker is a parameter that cuts a file into pieces. [CasDisk], Module
      [CasDisk]: the same store as a directory of files over [Fs], with its
      staging, sweep and statistics; [CasDiskProofs], [CasDiskWitness].
    - [Proto]: the control frames and the framing of src/src/proto.rs over a
      parameter codec.
    - [Fs]: the kernel's file tree (paths, links, attributes, and whether a
      file's bytes were flushed) and the system calls the code uses, in a
      small monad with failing, torn and interrupted calls as inputs;
      [power_loss] is what a loss of power does to the tree.
    - [Apply], Modules [MetaIo] and [Apply]: capture and application of
      metadata (src/src/metadata.rs) and src/src/apply.rs over [Fs];
      [ApplyProofs] has the safety theorems, [ApplyLive] what happens when
      nothing fails.
    - [Peer]: the registries of peers and connections and the reconnection
      delay of src/src/peer.rs. [Fetch]: src/src/fetch.rs and the serving
      side of chunks and manifests in src/src/net.rs; a connection is what
      its far end answers.
    - [Engine], Module [Engine]: the handling of a pushed operation and of a
      differing leaf (src/src/net.rs, src/src/merkle.rs) in a monad whose
      state is the store, the host and the connections, and whose awaits are
      [Turn]s of all the other tasks; [EngineProofs], [EngineLive] and
      [EngineWitness]. [Marks]: what every command does to the applied set
      and the cursors.
    - [Reconcile], Module [Reconcile]: the frames of an anti-entropy session,
      its responder, the puller's side of the stream and the session
      [reconcile_with]; [ReconcileWire] has its theorem.
    - [Replica], Module [Replica]: src/src/replica.rs, the whole receive path
      over the real store with the share as a map; [ReplicaProofs].
    - [Session], Modules [Responder] and [Subscriber]: the operation streams
      of src/src/net.rs, both ends: the hand-shake, the responder's two tasks
      with the pause gate, the subscriber with its anti-entropy session
      ([Reconcile.reconcile_with]) and the hand-over to the live stream;
      [SessionProofs], [SubscriberProofs], [SessionWitness].
    - [Ingest] and [Scanner]: src/src/ingest.rs and src/src/scanner.rs in the
      engine's monad; [IngestProofs], [ScannerProofs], [LocalProofs],
      [LocalWitness].
    - [Watch]: the buffers and the dispatch of src/src/watch.rs;
      [WatchProofs]. [WatchStart]: the probing of its tiers, its read loops
      and its descriptors.
    - [Float], [Qos]: binary64 arithmetic and the buckets, lanes and schedule
      of src/src/qos.rs as interleaved steps; [QosProofs].
    - [Config], Modules [ConfigCheck] and [Config]: src/src/config.rs and the
      reload of src/src/net.rs, with the TOML parser and the address and
      number texts as parameters; [ConfigProofs], [ConfigWitness].
    - [Policy], Module [Policy]: the pause gate, the free-space guard, the
      prober and the schedule tick of src/src/net.rs, tasks over shared
      flags; [PolicyProofs], [PolicyWitness].
    - [Links], Module [Mesh]: certificate pinning, registration, dial loops
      and the supervisor of src/src/net.rs, interleaved with the swaps of the
      effective membership; [LinksProofs], [LinksWitness].
    - [Control], Module [Control]: the control socket of src/src/control.rs
      and the views of src/src/net.rs over the daemon's state; a resync runs
      the anti-entropy sessions on the daemon's store and share, with what
      each meets ([SessionInput]) an input, and one that does not come back
      ends it;
      [ControlProofs], [ControlWitness]. [Stats]: the counters of
      src/src/stats.rs.
    - [Cli], Modules [Cli] and [AdminKey]: src/src/bin/replicorectl.rs as a
      program that asks the daemon and prints, and the key file of
      src/src/admin.rs; [CliProofs], [CliWitness].
    - [Serve], Modules [Tls], [Serving] and [Streams]: the admission of
      connections by pinned certificates, the slots of a connection's streams
      and the handling of one stream (src/src/net.rs, src/src/gossip.rs);
      [ServeProofs].
    - [Boot]: src/src/main.rs, its commands and the order of the start, over
      [Fs]; [BootProofs], [BootWitness].
    - [Health], Module [Health]: the requests of src/src/health.rs, cut into
      segments anyhow; Module [HealthDoc]: its two documents, which
      [HealthDocProofs] reads back.

    ** How they interact

    The store thread is the one shared object: [Engine], [Session], [Ingest]
    and [Scanner] send it commands and other tasks' commands may run at every
    await. [Engine] calls [Fetch] (chunks), [Apply] (the share) and
    [Suppress] (so that [Ingest] does not see its own writes). [Session]
    calls [Reconcile] before it subscribes and [Engine] for each operation;
    [Reconcile] calls the descent of [Merkle] and hands each leaf to [Engine]. [Membership] feeds [Links],
    [Config] feeds [Membership] and [Policy], [Control] drives all of them and
    is itself driven by [Cli]. [Serve] answers the streams of [Fetch],
    [Reconcile] and [GossipMesh] from the daemon's state; [Boot] sweeps the
    share and the content store before it starts the tasks.

    ** What the theorems show

    - Store: over any run of commands rows only move forward in causal order,
      nothing the code wrote is ever reported corrupt, the local stream has
      no gaps, and a remote operation has exactly its contract's effect.
    - Receiving: whatever the other tasks do meanwhile, an operation that is
      acknowledged is durably handled; a pushed write lands on a quiet node
      with its bytes; a write or delete that fails permanently is
      quarantined; repair makes the disk match the index again.
    - Streams: the responder pushes exactly its log in order, nothing while it
      stands at the gate of a paused node and everything once it is let
      through; acknowledgements never pass the pushed frontier; and no
      operation is skipped over a session, however it ends.
    - Anti-entropy: equal roots mean equal leaves (for paths that are not
      also directories); a whole session over the stream is the leaf handler
      run once on exactly the leaves that differ.
    - The simulated node: in every reachable state the file system holds
      exactly the live rows of the index.
    - Conflicts: the resolution depends only on the recorded history, keeps
      every losing content and is the same on every node.
    - Local changes: a rescan makes the index agree with the disk; a stable
      write is logged with its content; a delete is logged only after a last
      look. The watcher arms the best tier the kernel takes and closes what
      it opened; its buffers are parsed in bounds whatever they hold, and
      every well-formed event reaches ingest.
    - Share and content: publication is atomic under failing, torn and
      interrupted system calls and loses no bytes with the power, captured
      metadata is reproduced verbatim, a
      chunked file assembles back to itself, fetched chunks are what their
      hashes say, manifests are bounded. A stored chunk is durable and what
      its name says under any later inserts, reads, sweeps, crashes and losses
      of power; the store on disk refines the map of chunks; a restart removes
      the regular files a crash left staged and nothing else.
    - Membership and links: rosters converge whatever order, repetition or
      forgery; disk is the commit point; one gossip exchange converges a
      pair, and a change spreads along every chain of exchanges that went
      through; exactly the members are admitted; the connections of a removed
      member are severed; over the control socket membership moves only by the
      administrator's signature or a reload of the configuration file, and a
      member command of the command line takes effect or changes nothing; of
      the socket's commands only a resync moves the index and the share.
    - Serving: a connection's streams stay within its slots and none is
      forgotten but one at the hand-over; a stream moves nothing but the
      roster and the counters of what it sent.
    - Policy: bulk transfers yield as long as no priority call is dropped, the
      guard admits above the reserve, a reload of the hot settings is as a
      restart, accepted configurations are
      well formed and keep the state outside the share.
    - Join: the lifecycle is a function of the history of events. Framing: a
      receiver hands out exactly the frames that arrived whole. Health: the
      answer depends on the request's bytes, not on their segmentation; the
      status document reads back as what it reports, and every metric is
      registered. Start: the checks and sweeps come before any task, and
      a generated administrator key is its owner's alone.

    Theorems whose names describe a defect ([second_connection_unattributed],
    [handover_drops_stream], [handover_doubles_slots], [parse_bps_wraps],
    [gen_cert_keeps_old_mode], [stats_counts_staged],
    [fleeting_member_keeps_connection],
    [rotated_member_keeps_connection], [status_all_omits_unconnected],
    [socket_path_file_removed], [dropped_priority_starves_bulk],
    [bulk_misses_notification], [operator_pause_auto_resumed],
    [resumed_guard_spins], [guard_pause_sticks], [push_misses_resume],
    [claimed_resume_inflates_ack], [early_ack_drops_link],
    [stat_error_tombstones_file], [early_rename_goes_unseen],
    [reload_moves_roster_path], [diff_leaves_out_settings],
    [reload_back_reports_nothing], [load_accepts_state_in_share],
    [default_paths_replace_extension], [reserve_percent_truncated],
    [quarantined_rename_loses_source], [sourceless_rename_stops_the_stream],
    [lying_manifest_sticks], [restore_gives_files_to_root],
    [bad_manifest_is_swallowed], [known_identity_is_acknowledged],
    [link_escapes_share], [stale_xattr_stays], [safe_dest_aliases],
    [eof_inside_length_is_closed], [shadowed_tombstone_invisible],
    [clashing_rows_order_dependent],
    [reload_during_merge_keeps_old_key_entries], [next_epoch_wraps],
    [fsync_dir_failure_leaves_disk_ahead], [reoffered_winner_is_superseded],
    [reordered_persist_forgets_active], [unreachable_alone_is_syncing],
    [copy_mode_order_dependent], [special_loser_not_copied],
    [scope_is_not_signed], [staged_link_survives_sweep],
    [shadowed_tombstone_not_pulled]) are concrete runs, or statements about
    every run, that mark where code and comments part.

    ** Bounds and fuel

    [MAX_COPY_DEPTH] and [RESOLVE_ROUNDS] are the code's own bounds. The
    ancestor loop of [build] runs on the length of the path, which every turn
    shortens. The descent has fuel for one listing per remote directory and
    is proved to finish within it. The paged listing has fuel for its byte
    budget at 34 bytes a turn ([LISTING_FUEL]), which is proved enough against
    any responder; the pages of a manifest are bounded by
    [max_manifest_chunks]. The scanner's walk has one turn per node of the
    file tree ([Scanner.fuel_for]); the loops over a kernel buffer have one
    turn per byte, and running out is shown impossible together with the
    bounds; reading a health request has one turn per byte of its
    buffer, and the reader of its document one per character. The sweeps and
    statistics of the chunk store have one turn per node of the tree. Counters
    and sequence numbers are integers with their 64-bit wrap-around written
    out.

    ** Not modelled

    The settings of the QUIC endpoint, the reading of PEM files and the
    hand-shake itself in src/src/net.rs (its outcome by the two verifiers is);
    the generation of keys and certificates; the waits of the loops that only
    sleep (the scanner's and the periodic reconcile's timers), and the pause
    gate, the permits and the free-space guard where they hold up a transfer
    inside [Engine] (their own behaviour is in [Policy]); a loss of power that
    takes back directory entries or attributes; the text of the
    Prometheus exposition; logging; the test modules. SQLite, BLAKE3, SHA-256,
    Ed25519, bincode, FastCDC, TOML, hexadecimal and the kernel are parameters
    or explicit inputs. *)

From stdpp Require Export base list gmap strings sorting.
From Stdlib Require Export ZArith Lia.
From Stdlib Require Export Strings.Byte.

Open Scope Z_scope.

(** ** Fallible computations: Rust's [Result] *)

Inductive result (E A : Type) : Type :=
| Ok (a : A)
| Err (e : E).
Arguments Ok {E A} a.
Arguments Err {E A} e.

#[export] Instance result_eq_dec {E A} `{!EqDecision E, !EqDecision A} : EqDecision (result E A).
Proof. solve_decision. Defined.

#[export] Instance result_ret {E} : MRet (result E) := λ A, Ok.
#[export] Instance result_bind {E} : MBind (result E) := λ A B f m,
  match m with Ok a => f a | Err e => Err e end.
#[export] Instance result_fmap {E} : FMap (result E) := λ A B f m,
  match m with Ok a => Ok (f a) | Err e => Err e end.

(** [Option::ok_or] *)
Definition ok_or {E A} (e : E) (o : option A) : result E A :=
  match o with Some a => Ok a | None => Err e end.

(** [Option<Result<_>>::transpose] after a [map]: run a fallible function
    under an option. *)
Definition traverse_opt {E A B} (f : A → result E B) (o : option A)
  : result E (option B) :=
  match o with None => Ok None | Some a => b ← f a; Ok (Some b) end.

(** Collect a fallible map over a list, stopping at the first error (the
    [for row in rows { out.push(f(row)?) }] loops). *)
Fixpoint traverse_list {E A B} (f : A → result E B) (l : list A)
  : result E (list B) :=
  match l with
  | [] => Ok []
  | a :: l => b ← f a; bs ← traverse_list f l; Ok (b :: bs)
  end.

Lemma bind_ok {E A B} (m : result E A) (f : A → result E B) b :
  (m ≫= f) = Ok b ↔ ∃ a, m = Ok a ∧ f a = Ok b.
Proof.
  destruct m as [a|e]; simpl; split.
  - by exists a.
  - by intros (? & [= <-] & ?).
  - done.
  - by intros (? & ? & ?).
Qed.

Lemma Forall2_elem_l {A B} (P : A → B → Prop) l k x :
  Forall2 P l k → x ∈ l → ∃ y, y ∈ k ∧ P x y.
Proof.
  induction 1 as [|a b l k Hab _ IH]; [by intros ?%not_elem_of_nil|].
  intros [->|(y & ? & ?)%IH]%elem_of_cons; eexists; (split; [|done]); [by left|by right].
Qed.
Lemma Forall2_elem_r {A B} (P : A → B → Prop) l k y :
  Forall2 P l k → y ∈ k → ∃ x, x ∈ l ∧ P x y.
Proof.
  induction 1 as [|a b l k Hab _ IH]; [by intros ?%not_elem_of_nil|].
  intros [->|(x & ? & ?)%IH]%elem_of_cons; eexists; (split; [|done]); [by left|by right].
Qed.

Lemma traverse_list_ok {E A B} (f : A → result E B) l bs :
  traverse_list f l = Ok bs ↔ Forall2 (λ a b, f a = Ok b) l bs.
Proof.
  revert bs. induction l as [|a l IH]; intros bs; simpl.
  - split; [intros [= <-]; constructor|by inversion 1].
  - split.
    + intros (b & Hb & (bs' & Hbs & [= <-])%bind_ok)%bind_ok.
      constructor; [done|]. by apply IH.
    + inversion 1 as [|? b ? bs' Hb Hbs]; subst. rewrite Hb. simpl.
      apply IH in Hbs. by rewrite Hbs.
Qed.

(** ** Machine integers

    A [u64], [u32] or [i64] value is a [Z] in the range of its type; the
    arithmetic and the [as] casts of the source are written out with their
    wrap-around. *)

Definition u64_modulus : Z := 2 ^ 64.
Definition u32_modulus : Z := 2 ^ 32.
Definition in_u64 (z : Z) : Prop := 0 ≤ z < u64_modulus.
Definition in_u32 (z : Z) : Prop := 0 ≤ z < u32_modulus.
Definition in_i64 (z : Z) : Prop := - 2 ^ 63 ≤ z < 2 ^ 63.

(** Release-profile [+] on [u64]: wraps. *)
Definition u64_add (a b : Z) : Z := (a + b) `mod` u64_modulus.

(** [x as i64] from an unsigned 64-bit (or narrower) value. *)
Definition as_i64 (z : Z) : Z :=
  let w := z `mod` u64_modulus in
  if bool_decide (w < 2 ^ 63) then w else w - u64_modulus.
(** Release-profile [+] on [i64]: wraps. *)
Definition i64_add (a b : Z) : Z := as_i64 (a + b).
(** [x as u64] and [x as u32] from an [i64]. *)
Definition as_u64 (z : Z) : Z := z `mod` u64_modulus.
Definition as_u32 (z : Z) : Z := z `mod` u32_modulus.

Lemma as_u64_i64 z : in_u64 z → as_u64 (as_i64 z) = z.
Proof.
  unfold in_u64, as_u64, as_i64, u64_modulus. intros Hz.
  rewrite (Z.mod_small z) by lia. case_bool_decide.
  - by rewrite Z.mod_small by lia.
  - replace (z - 2 ^ 64) with (z + (-1) * 2 ^ 64) by lia.
    rewrite Z.mod_add by lia. by rewrite Z.mod_small by lia.
Qed.

Lemma as_u32_i64 z : in_u32 z → as_u32 (as_i64 z) = z.
Proof.
  unfold in_u32, as_u32, as_i64, u64_modulus, u32_modulus. intros Hz.
  rewrite (Z.mod_small z (2 ^ 64)) by lia.
  rewrite bool_decide_true by lia. by rewrite Z.mod_small by lia.
Qed.

Lemma u64_add_small a b : in_u64 a → 0 ≤ b → a + b < u64_modulus → u64_add a b = a + b.
Proof. unfold in_u64, u64_add. intros. rewrite Z.mod_small; lia. Qed.

Lemma as_i64_small z : in_i64 z → as_i64 z = z.
Proof.
  unfold in_i64, as_i64, u64_modulus. intros Hz. destruct (decide (0 ≤ z)).
  - rewrite Z.mod_small by lia. rewrite bool_decide_true by lia. done.
  - rewrite <-(Z.mod_add z 1) by lia. rewrite Z.mod_small by lia.
    rewrite bool_decide_false by lia. lia.
Qed.

(** ** Bytes and fixed-size byte arrays *)

#[export] Instance byte_eq_dec : EqDecision byte := Byte.byte_eq_dec.
#[export] Program Instance byte_countable : Countable byte :=
  inj_countable Byte.to_N Byte.of_N _.
Next Obligation. intros b. apply Byte.of_to_N. Qed.
#[export] Instance byte_inhabited : Inhabited byte := populate x00.

Definition byte_val (b : byte) : Z := Z.of_N (Byte.to_N b).

(** The low eight bits of an integer as a byte ([x as u8]). *)
Definition byte_of_Z (z : Z) : byte :=
  match Byte.of_N (Z.to_N (z `mod` 256)) with Some b => b | None => x00 end.

Lemma byte_val_bound b : 0 ≤ byte_val b < 256.
Proof. unfold byte_val. pose proof (Byte.to_N_bounded b). lia. Qed.

Lemma byte_val_inj b c : byte_val b = byte_val c → b = c.
Proof.
  unfold byte_val. intros H%N2Z.inj.
  pose proof (Byte.of_to_N b). pose proof (Byte.of_to_N c). congruence.
Qed.

Lemma byte_val_of_Z z : byte_val (byte_of_Z z) = z `mod` 256.
Proof.
  unfold byte_val, byte_of_Z.
  pose proof (Z.mod_pos_bound z 256 ltac:(lia)) as Hb.
  destruct (Byte.of_N (Z.to_N (z `mod` 256))) as [b|] eqn:Hof.
  - apply Byte.to_of_N in Hof. rewrite Hof. lia.
  - apply Byte.of_N_None_iff in Hof. lia.
Qed.

(** [[u8; n]]: a byte list whose length is [n]. The length proof is boolean,
    so it is unique and equality is equality of the contents. *)
Record barray (n : nat) : Type := BArray {
  ba_list : list byte;
  ba_len : Is_true (Nat.eqb (length ba_list) n);
}.
Arguments BArray {n} _ _.
Arguments ba_list {n} _.
Arguments ba_len {n} _.

Lemma ba_length {n} (b : barray n) : length (ba_list b) = n.
Proof. destruct b as [l H]. by apply Nat.eqb_eq, Is_true_true. Qed.

Lemma ba_eq {n} (a b : barray n) : ba_list a = ba_list b → a = b.
Proof.
  destruct a as [l p], b as [l' q]. simpl. intros <-. f_equal.
  by destruct (Nat.eqb (length l) n), p, q.
Qed.

#[export] Instance barray_eq_dec n : EqDecision (barray n).
Proof.
  refine (λ a b, cast_if (decide (ba_list a = ba_list b))).
  - by apply ba_eq.
  - by intros ->.
Defined.

(** [try_into::<[u8; n]>()]: succeeds exactly on a slice of the right length. *)
Definition array_of_list (n : nat) (l : list byte) : option (barray n) :=
  match decide (Is_true (Nat.eqb (length l) n)) with
  | left p => Some (BArray l p)
  | right _ => None
  end.

Lemma array_of_list_ba {n} (b : barray n) : array_of_list n (ba_list b) = Some b.
Proof.
  unfold array_of_list. destruct (decide _) as [p|np].
  - f_equal. by apply ba_eq.
  - destruct np. apply ba_len.
Qed.

Lemma array_of_list_spec {n} l :
  (length l ≠ n → array_of_list n l = None) ∧
  (length l = n → ∃ b, array_of_list n l = Some b ∧ ba_list b = l).
Proof.
  unfold array_of_list. split; intros Hl; destruct (decide _) as [p|np].
  - exfalso. by apply Is_true_eq_true, Nat.eqb_eq in p.
  - done.
  - by eexists.
  - destruct np. by apply Is_true_true, Nat.eqb_eq.
Qed.

#[export] Program Instance barray_countable n : Countable (barray n) :=
  inj_countable ba_list (array_of_list n) _.
Next Obligation. intros n b. apply array_of_list_ba. Qed.

(** The first [n] bytes of a slice as an array ([copy_from_slice] of a prefix);
    padded with zeros when the slice is shorter, which no caller relies on. *)
Program Definition to_array (n : nat) (l : list byte) : barray n :=
  BArray (resize n x00 l) _.
Next Obligation. intros n l. by apply Is_true_true, Nat.eqb_eq, length_resize. Qed.

(** [[b; n]] *)
Definition fill (n : nat) (b : byte) : barray n := to_array n (replicate n b).
Definition zeros (n : nat) : barray n := fill n x00.

(** Big-endian and little-endian encodings of fixed width ([to_be_bytes],
    [to_le_bytes]). *)
Fixpoint le_bytes (n : nat) (z : Z) : list byte :=
  match n with
  | O => []
  | S n => byte_of_Z z :: le_bytes n (z `div` 256)
  end.
Definition be_bytes (n : nat) (z : Z) : list byte := reverse (le_bytes n z).

(** The unsigned value of a little-endian byte string ([from_le_bytes]). *)
Fixpoint le_val (l : list byte) : Z :=
  match l with
  | [] => 0
  | b :: l => byte_val b + 256 * le_val l
  end.
Definition be_val (l : list byte) : Z := le_val (reverse l).

Lemma length_le_bytes n z : length (le_bytes n z) = n.
Proof. revert z. induction n; intros z; simpl; auto. Qed.
Lemma length_be_bytes n z : length (be_bytes n z) = n.
Proof. unfold be_bytes. by rewrite length_reverse, length_le_bytes. Qed.

Lemma le_val_bytes n z : 0 ≤ z < 256 ^ Z.of_nat n → le_val (le_bytes n z) = z.
Proof.
  revert z. induction n as [|n IH]; intros z Hz; simpl.
  - change (256 ^ Z.of_nat 0) with 1 in Hz. lia.
  - rewrite Nat2Z.inj_succ, Z.pow_succ_r in Hz by lia.
    rewrite byte_val_of_Z, IH.
    + pose proof (Z.div_mod z 256 ltac:(lia)). lia.
    + split; [apply Z.div_pos; lia|]. apply Z.div_lt_upper_bound; lia.
Qed.

Lemma be_val_bytes n z : 0 ≤ z < 256 ^ Z.of_nat n → be_val (be_bytes n z) = z.
Proof. intros. unfold be_val, be_bytes. rewrite reverse_involutive. by apply le_val_bytes. Qed.

(** The bytes of a string ([str::as_bytes]). *)
Definition str_bytes (s : string) : list byte := String.list_byte_of_string s.

Lemma str_bytes_inj s t : str_bytes s = str_bytes t → s = t.
Proof.
  intros H%(f_equal String.string_of_list_byte). unfold str_bytes in H.
  by rewrite !String.string_of_list_byte_of_string in H.
Qed.

Lemma string_length_app s t : String.length (s +:+ t) = (String.length s + String.length t)%nat.
Proof. induction s as [|c s IH]; simpl; [done|]. by rewrite IH. Qed.

(** ** Rust's [Ord]

    [cmp] is the total comparison a type derives; [OrdLaws] is what the
    standard library documents of it. *)

Class Ord (A : Type) := cmp : A → A → comparison.
#[export] Hint Mode Ord ! : typeclass_instances.

Class OrdLaws (A : Type) `{!Ord A} : Prop := {
  cmp_eq_iff (x y : A) : cmp x y = Eq ↔ x = y;
  cmp_flip (x y : A) : cmp y x = CompOpp (cmp x y);
  cmp_lt_trans (x y z : A) : cmp x y = Lt → cmp y z = Lt → cmp x z = Lt;
}.

Definition ord_le {A} `{!Ord A} (x y : A) : Prop := cmp x y ≠ Gt.
Definition ord_lt {A} `{!Ord A} (x y : A) : Prop := cmp x y = Lt.
Definition ord_leb {A} `{!Ord A} (x y : A) : bool :=
  match cmp x y with Gt => false | _ => true end.

#[export] Instance ord_le_dec {A} `{!Ord A} (x y : A) : Decision (ord_le x y).
Proof. unfold ord_le. destruct (cmp x y); (left; done) || (right; auto). Defined.

(** [Ord::max] *)
Definition ord_max {A} `{!Ord A} (x y : A) : A :=
  match cmp x y with Gt => x | _ => y end.

(** [Iterator::max] *)
Definition iter_max {A} `{!Ord A} (l : list A) : option A :=
  foldl (λ acc x, match acc with None => Some x | Some m => Some (ord_max m x) end)
    None l.

Section ord_facts.
Context {A : Type} `{!Ord A, !OrdLaws A}.
Implicit Types x y z : A.

Lemma cmp_refl x : cmp x x = Eq.
Proof. by apply cmp_eq_iff. Qed.

Lemma ord_leb_le x y : ord_leb x y = true ↔ ord_le x y.
Proof. unfold ord_leb, ord_le. destruct (cmp x y); naive_solver. Qed.

Lemma ord_le_alt x y : ord_le x y ↔ x = y ∨ ord_lt x y.
Proof.
  unfold ord_le, ord_lt. rewrite <-cmp_eq_iff. destruct (cmp x y); naive_solver.
Qed.

Lemma ord_lt_irrefl x : ¬ ord_lt x x.
Proof. unfold ord_lt. by rewrite cmp_refl. Qed.

Lemma ord_lt_asym x y : ord_lt x y → ¬ ord_lt y x.
Proof. intros H1 H2. destruct (ord_lt_irrefl x). by apply (cmp_lt_trans x y x). Qed.

#[export] Instance ord_le_refl : Reflexive (ord_le (A := A)).
Proof. intros x. unfold ord_le. by rewrite cmp_refl. Qed.

#[export] Instance ord_le_trans : Transitive (ord_le (A := A)).
Proof.
  intros x y z [->|H1]%ord_le_alt [->|H2]%ord_le_alt; apply ord_le_alt;
    [by left|by right..|right]. by apply (cmp_lt_trans x y z).
Qed.

#[export] Instance ord_le_antisym : AntiSymm (=) (ord_le (A := A)).
Proof.
  intros x y [->|H1]%ord_le_alt [Heq|H2]%ord_le_alt; [done..|].
  by destruct (ord_lt_asym x y).
Qed.

#[export] Instance ord_le_total : Total (ord_le (A := A)).
Proof.
  intros x y. unfold ord_le. rewrite (cmp_flip x y).
  destruct (cmp x y); simpl; auto.
Qed.

Lemma not_ord_le x y : ¬ ord_le x y ↔ ord_lt y x.
Proof.
  unfold ord_le, ord_lt. rewrite (cmp_flip x y). destruct (cmp x y); naive_solver.
Qed.

Lemma ord_lt_le x y : ord_lt x y → ord_le x y.
Proof. intros. apply ord_le_alt. by right. Qed.

Lemma ord_le_lt_trans x y z : ord_le x y → ord_lt y z → ord_lt x z.
Proof. intros [->|?]%ord_le_alt ?; [done|]. by apply (cmp_lt_trans x y z). Qed.

Lemma ord_max_le_l x y : ord_le x (ord_max x y).
Proof. unfold ord_max, ord_le. destruct (cmp x y) eqn:E; rewrite ?cmp_refl; congruence. Qed.

Lemma ord_max_le_r x y : ord_le y (ord_max x y).
Proof.
  unfold ord_max, ord_le. destruct (cmp x y) eqn:E; rewrite ?cmp_refl; try done.
  by rewrite (cmp_flip x y), E.
Qed.

Lemma ord_max_cases x y : ord_max x y = x ∨ ord_max x y = y.
Proof. unfold ord_max. destruct (cmp x y); auto. Qed.

Lemma iter_max_spec (l : list A) m :
  iter_max l = Some m ↔ m ∈ l ∧ ∀ x, x ∈ l → ord_le x m.
Proof.
  assert (Hgen : ∀ (l : list A) a, ∃ n,
    foldl (λ acc x, match acc with None => Some x | Some m => Some (ord_max m x) end)
      (Some a) l = Some n ∧ n ∈ a :: l ∧ ∀ x, x ∈ a :: l → ord_le x n).
  { clear l. induction l as [|b l IH]; intros a; simpl.
    - exists a. split_and!; [done|set_solver|]. intros x Hx.
      apply list_elem_of_singleton in Hx as ->. reflexivity.
    - destruct (IH (ord_max a b)) as (n & -> & Hin & Hub).
      exists n. split_and!; [done| |].
      + apply elem_of_cons in Hin as [->|Hin]; [|set_solver].
        destruct (ord_max_cases a b) as [->| ->]; set_solver.
      + intros x [->|[->|Hx]%elem_of_cons]%elem_of_cons.
        * etrans; [apply (ord_max_le_l _ b)|]. apply Hub. set_solver.
        * etrans; [apply (ord_max_le_r a)|]. apply Hub. set_solver.
        * apply Hub. set_solver. }
  destruct l as [|a l]; unfold iter_max; simpl.
  - split; [done|]. intros [Hm _]. by apply not_elem_of_nil in Hm.
  - destruct (Hgen l a) as (n & -> & Hin & Hub). split.
    + by intros [= <-].
    + intros [Hm Hall]. f_equal. apply (anti_symm ord_le); auto.
Qed.

Lemma iter_max_none (l : list A) : iter_max l = None ↔ l = [].
Proof.
  split; [|by intros ->]. destruct l as [|a l]; [done|]. unfold iter_max. simpl.
  assert (∀ l (x : A), foldl (λ acc x, match acc with None => Some x
    | Some m => Some (ord_max m x) end) (Some x) l ≠ None) as Hne.
  { clear. induction l as [|b l IH]; intros x; simpl; auto. }
  intros H. by destruct (Hne l a).
Qed.

(** The maximum depends on the elements only, not on their order or
    multiplicity. *)
Lemma iter_max_ext (l l' : list A) : (∀ x, x ∈ l ↔ x ∈ l') → iter_max l = iter_max l'.
Proof.
  intros Hext. destruct (iter_max l) as [m|] eqn:Hm.
  - symmetry. apply iter_max_spec in Hm as [Hin Hub]. apply iter_max_spec.
    split; [by apply Hext|]. intros x Hx. by apply Hub, Hext.
  - symmetry. apply iter_max_none in Hm as ->. apply iter_max_none.
    destruct l' as [|a l']; [done|]. exfalso.
    apply (not_elem_of_nil a), Hext. set_solver.
Qed.
End ord_facts.

(** *** Instances *)

#[export] Instance Z_ord : Ord Z := Z.compare.
#[export] Instance Z_ord_laws : OrdLaws Z.
Proof.
  split; unfold cmp, Z_ord.
  - apply Z.compare_eq_iff.
  - intros x y. apply Z.compare_antisym.
  - intros x y z. rewrite !Z.compare_lt_iff. lia.
Qed.

#[export] Instance bool_ord : Ord bool := Bool.compare.
#[export] Instance bool_ord_laws : OrdLaws bool.
Proof.
  split; [intros [] []|intros [] []|intros [] [] []]; simpl; try done;
    split; intros [=].
Qed.

#[export] Instance byte_ord : Ord byte := λ a b, Z.compare (byte_val a) (byte_val b).
#[export] Instance byte_ord_laws : OrdLaws byte.
Proof.
  split; unfold cmp, byte_ord.
  - intros x y. rewrite Z.compare_eq_iff. split; [apply byte_val_inj|by intros ->].
  - intros x y. apply Z.compare_antisym.
  - intros x y z. rewrite !Z.compare_lt_iff. lia.
Qed.

(** Slices, vectors and strings compare lexicographically. *)
Fixpoint list_cmp {A} `{!Ord A} (l k : list A) : comparison :=
  match l, k with
  | [], [] => Eq
  | [], _ :: _ => Lt
  | _ :: _, [] => Gt
  | x :: l, y :: k => match cmp x y with Eq => list_cmp l k | c => c end
  end.
#[export] Instance list_ord {A} `{!Ord A} : Ord (list A) := list_cmp.
#[export] Instance list_ord_laws {A} `{!Ord A, !OrdLaws A} : OrdLaws (list A).
Proof.
  split; unfold cmp, list_ord.
  - induction x as [|x l IH]; intros [|y k]; simpl; try naive_solver.
    destruct (cmp x y) eqn:E.
    + apply cmp_eq_iff in E as ->. rewrite IH. naive_solver.
    + split; [done|]. intros [= -> ->]. by rewrite cmp_refl in E.
    + split; [done|]. intros [= -> ->]. by rewrite cmp_refl in E.
  - induction x as [|x l IH]; intros [|y k]; simpl; try done.
    rewrite (cmp_flip x y). destruct (cmp x y); simpl; auto.
  - induction x as [|x l IH]; intros [|y k] [|z j]; simpl; try done.
    destruct (cmp x y) eqn:E1; [apply cmp_eq_iff in E1 as ->| |done].
    + destruct (cmp y z) eqn:E2; [|done..]. apply IH.
    + destruct (cmp y z) eqn:E2; [apply cmp_eq_iff in E2 as ->| |done].
      * by rewrite E1.
      * by rewrite (cmp_lt_trans x y z).
Qed.

(** Comparing through an injective projection. *)
Lemma ord_laws_via {A B} `{!Ord B, !OrdLaws B} (f : A → B) (HA : Ord A)
  (Hcmp : ∀ x y, @cmp A HA x y = cmp (f x) (f y)) (Hinj : ∀ x y, f x = f y → x = y) :
  @OrdLaws A HA.
Proof.
  split; intros x y.
  - rewrite Hcmp, cmp_eq_iff. split; [apply Hinj|by intros ->].
  - rewrite !Hcmp. apply cmp_flip.
  - intros z. rewrite !Hcmp. apply cmp_lt_trans.
Qed.

#[export] Instance barray_ord n : Ord (barray n) := λ a b, cmp (ba_list a) (ba_list b).
#[export] Instance barray_ord_laws n : OrdLaws (barray n).
Proof. by apply (ord_laws_via ba_list); [|apply ba_eq]. Qed.

#[export] Instance string_ord : Ord string := λ s t, cmp (str_bytes s) (str_bytes t).
#[export] Instance string_ord_laws : OrdLaws string.
Proof. by apply (ord_laws_via str_bytes); [|apply str_bytes_inj]. Qed.

(** Tuples compare lexicographically, [None] is below every [Some]. *)
#[export] Instance prod_ord {A B} `{!Ord A, !Ord B} : Ord (A * B) := λ p q,
  match cmp p.1 q.1 with Eq => cmp p.2 q.2 | c => c end.

Lemma prod_cmp {A B} `{!Ord A, !Ord B} (x1 y1 : A) (x2 y2 : B) :
  cmp (x1, x2) (y1, y2) = match cmp x1 y1 with Eq => cmp x2 y2 | c => c end.
Proof. done. Qed.

#[export] Instance prod_ord_laws {A B} `{!Ord A, !OrdLaws A, !Ord B, !OrdLaws B} :
  OrdLaws (A * B).
Proof.
  split; intros [x1 x2] [y1 y2].
  - rewrite prod_cmp. destruct (cmp x1 y1) eqn:E.
    + apply cmp_eq_iff in E as ->. rewrite cmp_eq_iff. naive_solver.
    + split; [done|]. intros [= -> ->]. by rewrite cmp_refl in E.
    + split; [done|]. intros [= -> ->]. by rewrite cmp_refl in E.
  - rewrite !prod_cmp, (cmp_flip x1 y1). destruct (cmp x1 y1); simpl; auto using cmp_flip.
  - intros [z1 z2]. rewrite !prod_cmp. destruct (cmp x1 y1) eqn:E1; [| |done].
    + apply cmp_eq_iff in E1 as ->. destruct (cmp y1 z1) eqn:E2; [|done..].
      apply cmp_lt_trans.
    + intros _. destruct (cmp y1 z1) eqn:E2; [apply cmp_eq_iff in E2 as ->| |done].
      * by rewrite E1.
      * by rewrite (cmp_lt_trans x1 y1 z1).
Qed.

#[export] Instance option_ord {A} `{!Ord A} : Ord (option A) := λ x y,
  match x, y with
  | None, None => Eq
  | None, Some _ => Lt
  | Some _, None => Gt
  | Some a, Some b => cmp a b
  end.
Lemma option_cmp_Some {A} `{!Ord A} (a b : A) : cmp (Some a) (Some b) = cmp a b.
Proof. done. Qed.

#[export] Instance option_ord_laws {A} `{!Ord A, !OrdLaws A} : OrdLaws (option A).
Proof.
  split.
  - intros [x|] [y|]; rewrite ?option_cmp_Some, ?cmp_eq_iff; try naive_solver;
      by split; intros [=].
  - intros [x|] [y|]; try done. apply (cmp_flip x y).
  - intros [x|] [y|] [z|]; try done. apply (cmp_lt_trans x y z).
Qed.

(** ** Lists *)

Lemma filter_all {A} (P : A → Prop) `{!∀ x, Decision (P x)} l : Forall P l → filter P l = l.
Proof. induction 1; [done|]. rewrite filter_cons_True by done. by f_equal. Qed.

(** ** Stable sorting ([slice::sort_by_key]) and ordered maps ([BTreeMap]) *)

Section sorting.
Context {A : Type} (leb : A → A → bool).

Fixpoint insert_by (x : A) (l : list A) : list A :=
  match l with
  | [] => [x]
  | y :: l => if leb x y then x :: y :: l else y :: insert_by x l
  end.

(** Elements are inserted from the right, each before the equal ones, so equal
    elements keep their order: the sort is stable. *)
Definition sort_by (l : list A) : list A := foldr insert_by [] l.

Lemma insert_by_perm x l : insert_by x l ≡ₚ x :: l.
Proof.
  induction l as [|y l IH]; simpl; [done|]. destruct (leb x y); [done|].
  rewrite IH. apply Permutation_swap.
Qed.

(** Sorting a sorted list changes nothing. *)
Lemma sort_by_id l : StronglySorted (λ x y, leb x y = true) l → sort_by l = l.
Proof.
  induction 1 as [|x l Hl IH Hx]; simpl; [done|]. rewrite IH.
  destruct l as [|y l]; simpl; [done|]. apply Forall_cons in Hx as [-> _]. done.
Qed.

Lemma sort_by_perm l : sort_by l ≡ₚ l.
Proof. induction l as [|x l IH]; simpl; [done|]. by rewrite insert_by_perm, IH. Qed.

Lemma elem_of_sort_by x l : x ∈ sort_by l ↔ x ∈ l.
Proof. by rewrite sort_by_perm. Qed.

Context (leb_total : ∀ x y, leb x y = false → leb y x = true).
Context (leb_trans : ∀ x y z, leb x y = true → leb y z = true → leb x z = true).
Let R x y := leb x y = true.

Lemma insert_by_sorted x l : StronglySorted R l → StronglySorted R (insert_by x l).
Proof using leb_total leb_trans.
  induction 1 as [|y l Hl IH Hy]; simpl; [repeat constructor|].
  destruct (leb x y) eqn:E.
  - constructor; [by constructor|]. constructor; [done|].
    eapply Forall_impl; [apply Hy|]. intros z Hz. by apply (leb_trans x y z).
  - constructor; [done|]. rewrite insert_by_perm. constructor; [|done].
    by apply leb_total.
Qed.

Lemma sort_by_sorted l : StronglySorted R (sort_by l).
Proof using leb_total leb_trans.
  induction l as [|x l IH]; simpl; [constructor|]. by apply insert_by_sorted.
Qed.
End sorting.

Lemma strongly_sorted_impl {A} (R R' : relation A) (l : list A) :
  (∀ x y, R x y → R' x y) → StronglySorted R l → StronglySorted R' l.
Proof.
  intros HR. induction 1; constructor; [done|]. eapply Forall_impl; eauto.
Qed.

(** Under a total order sorting depends only on the elements. *)
Lemma sort_by_perm_eq {A} `{!Ord A, !OrdLaws A} (l k : list A) :
  l ≡ₚ k → sort_by ord_leb l = sort_by ord_leb k.
Proof.
  intros Hp.
  assert (Htot : ∀ x y : A, ord_leb x y = false → ord_leb y x = true).
  { intros x y Hf. apply ord_leb_le, ord_lt_le, not_ord_le. rewrite <- ord_leb_le. by rewrite Hf. }
  assert (Htr : ∀ x y z : A, ord_leb x y = true → ord_leb y z = true → ord_leb x z = true).
  { intros x y z H1%ord_leb_le H2%ord_leb_le. apply ord_leb_le.
    apply ord_le_alt in H1 as [->|H1]; [done|]. apply ord_le_alt in H2 as [->|H2]; [by apply ord_lt_le|].
    apply ord_lt_le. by apply (cmp_lt_trans x y z). }
  assert (AntiSymm (=) (λ x y : A, ord_leb x y = true)).
  { intros x y H1%ord_leb_le H2%ord_leb_le. apply ord_le_alt in H1 as [?|H1]; [done|].
    by apply not_ord_le in H1. }
  apply (StronglySorted_unique (λ x y, ord_leb x y = true)); [by apply sort_by_sorted..|].
  by rewrite !sort_by_perm.
Qed.

(** [BTreeMap::iter]: the entries in ascending key order. *)
Definition key_leb {K V} `{!Ord K} (p q : K * V) : bool := ord_leb p.1 q.1.
Definition btree_iter {K V} `{!Ord K, Countable K} (m : gmap K V) : list (K * V) :=
  sort_by key_leb (map_to_list m).
Definition btree_keys {K V} `{!Ord K, Countable K} (m : gmap K V) : list K :=
  (btree_iter m).*1.
Definition btree_values {K V} `{!Ord K, Countable K} (m : gmap K V) : list V :=
  (btree_iter m).*2.

Section btree.
Context {K V : Type} `{!Ord K, Countable K}.
Implicit Types (m : gmap K V) (k : K) (v : V).

Lemma btree_iter_perm m : btree_iter m ≡ₚ map_to_list m.
Proof. apply sort_by_perm. Qed.

Lemma elem_of_btree_iter m k v : (k, v) ∈ btree_iter m ↔ m !! k = Some v.
Proof. rewrite btree_iter_perm. apply elem_of_map_to_list. Qed.

Lemma elem_of_btree_keys m k : k ∈ btree_keys m ↔ is_Some (m !! k).
Proof.
  unfold btree_keys. rewrite list_elem_of_fmap. split.
  - intros ([k' v] & -> & Hkv). exists v. by apply elem_of_btree_iter.
  - intros [v Hv]. exists (k, v). split; [done|]. by apply elem_of_btree_iter.
Qed.

Lemma elem_of_btree_values m v : v ∈ btree_values m ↔ ∃ k, m !! k = Some v.
Proof.
  unfold btree_values. rewrite list_elem_of_fmap. split.
  - intros ([k v'] & -> & Hkv). exists k. by apply elem_of_btree_iter.
  - intros [k Hk]. exists (k, v). split; [done|]. by apply elem_of_btree_iter.
Qed.

Lemma NoDup_btree_keys m : NoDup (btree_keys m).
Proof.
  unfold btree_keys. rewrite btree_iter_perm. apply NoDup_fst_map_to_list.
Qed.

Lemma list_to_map_btree_iter m : list_to_map (btree_iter m) = m.
Proof.
  etrans; [|apply list_to_map_to_list]. apply list_to_map_proper.
  - rewrite btree_iter_perm. apply NoDup_fst_map_to_list.
  - apply btree_iter_perm.
Qed.

Lemma btree_iter_empty : btree_iter (∅ : gmap K V) = [].
Proof. unfold btree_iter. by rewrite map_to_list_empty. Qed.
End btree.

Section btree_sorted.
Context {K V : Type} `{!Ord K, !OrdLaws K, Countable K}.
Implicit Types (m : gmap K V).

Lemma btree_iter_sorted m : StronglySorted (λ p q, ord_le p.1 q.1) (btree_iter m).
Proof.
  eapply (strongly_sorted_impl (λ p q, key_leb p q = true)).
  - intros p q. apply ord_leb_le.
  - apply sort_by_sorted; unfold key_leb; intros *.
    + intros E. apply ord_leb_le. destruct (total ord_le x.1 y.1) as [Hle|]; [|done].
      apply ord_leb_le in Hle. congruence.
    + rewrite !ord_leb_le. by intros; etrans.
Qed.

(** The iteration order is determined by the key order alone. *)
Lemma btree_iter_unique m (l : list (K * V)) :
  StronglySorted (λ p q, ord_le p.1 q.1) l → l ≡ₚ map_to_list m → btree_iter m = l.
Proof.
  intros Hs Hp. apply (StronglySorted_unique_strong (λ p q, ord_le p.1 q.1)).
  - intros [k v] [k' v'] Hx Hy. simpl. intros Hle1 Hle2.
    assert (k = k') as -> by by apply (anti_symm ord_le).
    rewrite Hp, <-btree_iter_perm in Hy. apply elem_of_btree_iter in Hx, Hy. congruence.
  - apply btree_iter_sorted.
  - done.
  - by rewrite btree_iter_perm, Hp.
Qed.
End btree_sorted.

(** ** The hash function

    BLAKE3 is a third-party crate: the development is parametric in it.
    Theorems that need it to separate the inputs it is applied to say so with
    [hash_inj_on]. *)

Abbreviation hash32 := (barray 32).
Class Blake3 := blake3 : list byte → hash32.

Definition hash_inj_on {A} `{!Blake3} (enc : A → list byte) (P : A → Prop) : Prop :=
  ∀ x y, P x → P y → blake3 (enc x) = blake3 (enc y) → enc x = enc y.

(** A concrete stand-in used by the examples: the first 32 bytes, padded. *)
Definition toy_blake3 : Blake3 := to_array 32.

(** ** I/O errors *)

(** The kinds of [std::io::Error] the code tells apart. *)
Inductive IoKind : Type :=
| NotFound
| AlreadyExists
| IsADirectory
| NotADirectory
| DirectoryNotEmpty
| PermissionDenied
| UnexpectedEof
| InvalidInput
| InvalidData
| OtherIo.

#[export] Instance io_kind_eq_dec : EqDecision IoKind.
Proof. solve_decision. Defined.

(** ** Automation *)

Create HintDb replicore.
#[export] Hint Resolve ord_max_le_l ord_max_le_r cmp_refl ba_length : replicore.
#[export] Hint Resolve ord_lt_le : replicore.

(** Case analysis on the scrutinee of the first [match] in the goal or in a
    hypothesis, remembering the equation. *)
Ltac case_goal :=
  match goal with
  | |- context [match ?x with _ => _ end] => destruct x eqn:?
  end.
Ltac case_in H :=
  match type of H with
  | context [match ?x with _ => _ end] => destruct x eqn:?
  end.
(** Split a computation in the [result] monad that is known to succeed. *)
Ltac inv_ok H :=
  let a := fresh "a" in let E := fresh "E" in
  apply bind_ok in H as (a & E & H).
(** Prove a decidable proposition by evaluating its decision procedure. *)
Ltac vm_decide := apply (bool_decide_unpack _); vm_compute; exact I.

(** ** Waiting on a notification *)

(** A loop that tests a condition and then awaits the next notification:
    about to test, blocked but not listening yet, listening since a given
    number of notifications. *)
Inductive WaitPc : Type :=
| WCheck
| WSeen
| WParked (since : nat).

(** [None]: the loop is left. *)
Definition wait_step (blocked : bool) (notified : nat) (pc : WaitPc) : option WaitPc :=
  match pc with
  | WCheck => if blocked then Some WSeen else None
  | WSeen => Some (WParked notified)
  | WParked since => if bool_decide (since = notified) then Some (WParked since) else Some WCheck
  end.
