(* ===== verification/Vv.v ===== *)
(** * Version vectors (src/src/vv.rs)

    [Module VersionVector] models the per-file version vector: its
    constructors, [increment], [merge], [compare] and [from_iter], with the
    counters kept at 64 bits. The theorems relate them to the pointwise
    (causal) order: [compare] decides it, [merge] is its least upper bound,
    [increment] moves strictly up, and [from_iter] builds the canonical
    vector. *)

From S2P Require Import Prelude.

(** [NodeId = [u8; 16]] *)
Abbreviation NodeId := (barray 16).

(** [Ord3] *)
Inductive Ord3 : Type :=
| Dominates
| Dominated
| Equal
| Concurrent.

#[export] Instance Ord3_eq_dec : EqDecision Ord3.
Proof. solve_decision. Defined.

(** [VersionVector(BTreeMap<NodeId, u64>)] *)
Abbreviation VV := (gmap NodeId Z).

Module VersionVector.

Definition new : VV := ∅.

Definition get (v : VV) (node : NodeId) : Z := default 0 (v !! node).

(** Insert a zero when absent, then add one in place. *)
Definition increment (v : VV) (node : NodeId) : VV :=
  <[node := u64_add (default 0 (v !! node)) 1]> v.

(** One iteration of [merge]: insert a zero when absent, then raise. *)
Definition merge_entry (v : VV) (e : NodeId * Z) : VV :=
  let mine := default 0 (v !! e.1) in
  <[e.1 := if bool_decide (mine < e.2) then e.2 else mine]> v.

Definition merge (self other : VV) : VV :=
  foldl merge_entry self (btree_iter other).

(** The final [match] of [compare]. *)
Definition verdict (self_gt other_gt : bool) : Ord3 :=
  match self_gt, other_gt with
  | true, true => Concurrent
  | true, false => Dominates
  | false, true => Dominated
  | false, false => Equal
  end.

(** The loop of [compare], over the chained keys, with its early exit. *)
Fixpoint compare_loop (self other : VV) (nodes : list NodeId)
    (self_gt other_gt : bool) : Ord3 :=
  match nodes with
  | [] => verdict self_gt other_gt
  | node :: nodes =>
      let a := get self node in
      let b := get other node in
      let self_gt' := if bool_decide (b < a) then true else self_gt in
      let other_gt' :=
        if bool_decide (b < a) then other_gt
        else if bool_decide (a < b) then true else other_gt in
      if self_gt' && other_gt' then Concurrent
      else compare_loop self other nodes self_gt' other_gt'
  end.

Definition compare (self other : VV) : Ord3 :=
  compare_loop self other (btree_keys self ++ btree_keys other) false false.

Definition dominates (self other : VV) : bool :=
  bool_decide (compare self other = Dominates).

Definition is_empty (v : VV) : bool := bool_decide (size v = 0%nat).

(** [iter]: components in key order. *)
Definition iter (v : VV) : list (NodeId * Z) := btree_iter v.

(** One iteration of [from_iter]: zero counters are dropped. *)
Definition from_iter_step (m : VV) (e : NodeId * Z) : VV :=
  if bool_decide (0 < e.2) then
    let cur := default 0 (m !! e.1) in
    <[e.1 := if bool_decide (cur < e.2) then e.2 else cur]> m
  else m.

Definition from_iter (l : list (NodeId * Z)) : VV := foldl from_iter_step ∅ l.

(** ** The causal order *)

(** The representation invariant the module documents: no stored zero (and
    every counter fits its type). *)
Definition wf (v : VV) : Prop := map_Forall (λ _ c, 0 < c < u64_modulus) v.

Definition le (a b : VV) : Prop := ∀ n, get a n ≤ get b n.
Definition lt (a b : VV) : Prop := le a b ∧ ¬ le b a.
Definition concurrent (a b : VV) : Prop := ¬ le a b ∧ ¬ le b a.

#[export] Instance wf_dec v : Decision (wf v).
Proof. unfold wf. apply _. Defined.

#[export] Instance le_preorder : PreOrder le.
Proof. split; [intros a n; lia|]. intros a b c Hab Hbc n. specialize (Hab n). specialize (Hbc n). lia. Qed.

Lemma get_lookup v n c : v !! n = Some c → get v n = c.
Proof. unfold get. by intros ->. Qed.

Lemma get_none v n : v !! n = None → get v n = 0.
Proof. unfold get. by intros ->. Qed.

Lemma get_new n : get new n = 0.
Proof. by apply get_none, lookup_empty. Qed.

Lemma get_insert v n m c : get (<[n := c]> v) m = if decide (n = m) then c else get v m.
Proof. unfold get. rewrite lookup_insert. by destruct (decide _). Qed.

Lemma wf_empty : wf ∅.
Proof. apply map_Forall_empty. Qed.

Lemma wf_insert v n c : wf v → 0 < c < u64_modulus → wf (<[n := c]> v).
Proof. intros. by apply map_Forall_insert_2. Qed.

Lemma wf_get v n : wf v → 0 ≤ get v n < u64_modulus.
Proof.
  intros Hwf. unfold get. destruct (v !! n) as [c|] eqn:Hn; simpl.
  - specialize (Hwf n c Hn). simpl in Hwf. lia.
  - done.
Qed.

Lemma wf_lookup_pos v n : wf v → is_Some (v !! n) ↔ 0 < get v n.
Proof.
  intros Hwf. unfold get. destruct (v !! n) as [c|] eqn:Hn; simpl.
  - specialize (Hwf n c Hn). simpl in Hwf. split; [lia|eauto].
  - split; [by intros []|lia].
Qed.

(** Canonicity: on well-formed vectors causal equality is equality. *)
Lemma ext a b : wf a → wf b → (∀ n, get a n = get b n) → a = b.
Proof.
  intros Ha Hb Heq. apply map_eq. intros n. specialize (Heq n).
  destruct (a !! n) as [c|] eqn:Hn, (b !! n) as [d|] eqn:Hm; try done.
  - rewrite (get_lookup _ _ _ Hn), (get_lookup _ _ _ Hm) in Heq. congruence.
  - rewrite (get_lookup _ _ _ Hn), (get_none _ _ Hm) in Heq.
    specialize (Ha n c Hn). simpl in Ha. lia.
  - rewrite (get_none _ _ Hn), (get_lookup _ _ _ Hm) in Heq.
    specialize (Hb n d Hm). simpl in Hb. lia.
Qed.

Lemma le_antisym a b : wf a → wf b → le a b → le b a → a = b.
Proof.
  intros Ha Hb H1 H2. apply ext; [done..|]. intros n. specialize (H1 n). specialize (H2 n). lia.
Qed.

(** *** [merge] *)

Lemma get_merge_entry v e n :
  0 ≤ e.2 → (∀ m, 0 ≤ get v m) →
  get (merge_entry v e) n = if decide (e.1 = n) then Z.max (get v n) e.2 else get v n.
Proof.
  intros He Hv. unfold merge_entry. rewrite get_insert. destruct (decide _) as [<-|]; [|done].
  fold (get v e.1). case_bool_decide; lia.
Qed.

Lemma wf_merge_entry v e : wf v → 0 < e.2 < u64_modulus → wf (merge_entry v e).
Proof.
  intros Hv He. unfold merge_entry. apply wf_insert; [done|].
  pose proof (wf_get v e.1 Hv) as Hg. unfold get in Hg. case_bool_decide; lia.
Qed.

Definition pos_entries (l : list (NodeId * Z)) : Prop := Forall (λ e, 0 < e.2 < u64_modulus) l.

Lemma pos_entries_iter v : wf v → pos_entries (btree_iter v).
Proof.
  intros Hv. apply Forall_forall. intros [n c] Hin.
  apply elem_of_btree_iter in Hin. by apply (Hv n c).
Qed.

Lemma merge_foldl_spec l v :
  wf v → pos_entries l →
  wf (foldl merge_entry v l) ∧
  le v (foldl merge_entry v l) ∧
  (∀ n c, (n, c) ∈ l → c ≤ get (foldl merge_entry v l) n) ∧
  (∀ n, get (foldl merge_entry v l) n = get v n ∨
        ∃ c, (n, c) ∈ l ∧ get (foldl merge_entry v l) n = c).
Proof.
  revert v. induction l as [|e l IH]; intros v Hv Hl; simpl.
  { split_and!; [done|done| |by left]. intros n c Hin. by apply not_elem_of_nil in Hin. }
  apply Forall_cons in Hl as [He Hl].
  destruct (IH (merge_entry v e)) as (Hwf & Hle & Hub & Hatt); [by apply wf_merge_entry|done|].
  assert (Hg : ∀ n, get (merge_entry v e) n =
    if decide (e.1 = n) then Z.max (get v n) e.2 else get v n).
  { intros n. apply get_merge_entry; [lia|]. intros m. by apply wf_get. }
  split_and!.
  - done.
  - intros n. specialize (Hle n). rewrite Hg in Hle. destruct (decide _); lia.
  - intros n c [<-|Hin]%elem_of_cons; [|by apply Hub].
    specialize (Hle n). rewrite Hg in Hle. simpl in Hle. by destruct (decide (n = n)); [lia|].
  - intros n. destruct (Hatt n) as [Heq|(c & Hin & Heq)].
    + rewrite Heq, Hg. destruct (decide (e.1 = n)) as [<-|]; [|by left].
      destruct (Z.max_spec (get v e.1) e.2) as [[_ ->]|[_ ->]]; [right|by left].
      exists e.2. split; [|done]. destruct e. set_solver.
    + right. exists c. split; [set_solver|done].
Qed.

Lemma merge_wf a b : wf a → wf b → wf (merge a b).
Proof. intros Ha Hb. by apply merge_foldl_spec; [|apply pos_entries_iter]. Qed.

(** [merge] is the componentwise maximum. *)
Lemma get_merge a b n : wf a → wf b → get (merge a b) n = Z.max (get a n) (get b n).
Proof.
  intros Ha Hb.
  destruct (merge_foldl_spec (btree_iter b) a) as (_ & Hle & Hub & Hatt);
    [done|by apply pos_entries_iter|].
  fold (merge a b) in *. specialize (Hle n).
  assert (get b n ≤ get (merge a b) n).
  { destruct (b !! n) as [c|] eqn:Hn.
    - rewrite (get_lookup _ _ _ Hn). apply Hub. by apply elem_of_btree_iter.
    - rewrite (get_none _ _ Hn). by apply wf_get, merge_wf. }
  destruct (Hatt n) as [Heq|(c & Hin & Heq)]; [lia|].
  apply elem_of_btree_iter, get_lookup in Hin. lia.
Qed.

Lemma merge_le_l a b : wf a → wf b → le a (merge a b).
Proof. intros ?? n. rewrite get_merge by done. lia. Qed.
Lemma merge_le_r a b : wf a → wf b → le b (merge a b).
Proof. intros ?? n. rewrite get_merge by done. lia. Qed.
Lemma merge_lub a b c : wf a → wf b → le a c → le b c → le (merge a b) c.
Proof.
  intros ?? H1 H2 n. rewrite get_merge by done.
  specialize (H1 n). specialize (H2 n). lia.
Qed.
Lemma merge_empty_r a : merge a ∅ = a.
Proof. unfold merge. by rewrite btree_iter_empty. Qed.
Lemma merge_absorb a b : wf a → wf b → le b a → merge a b = a.
Proof.
  intros Ha Hb Hle. apply ext; [by apply merge_wf|done|]. intros n.
  rewrite get_merge by done. specialize (Hle n). lia.
Qed.
Lemma merge_comm a b : wf a → wf b → merge a b = merge b a.
Proof.
  intros. apply ext; [by apply merge_wf..|]. intros n. rewrite !get_merge by done. lia.
Qed.
Lemma merge_assoc a b c : wf a → wf b → wf c → merge a (merge b c) = merge (merge a b) c.
Proof.
  intros. apply ext; [by repeat apply merge_wf..|]. intros n.
  rewrite !get_merge by eauto using merge_wf. lia.
Qed.

(** *** [compare] *)

Lemma get_outside a b n : n ∉ btree_keys a ++ btree_keys b → get a n = 0 ∧ get b n = 0.
Proof.
  rewrite elem_of_app, !elem_of_btree_keys. intros Hnin.
  destruct (a !! n) eqn:E1, (b !! n) eqn:E2; [destruct Hnin; eauto..|].
  by rewrite !get_none.
Qed.

#[export] Instance le_dec a b : Decision (le a b).
Proof.
  refine (cast_if (decide (Forall (λ n, get a n ≤ get b n) (btree_keys a ++ btree_keys b)))).
  - intros n. destruct (decide (n ∈ btree_keys a ++ btree_keys b)) as [Hin|Hnin].
    + by apply (proj1 (Forall_forall _ _) f).
    + apply get_outside in Hnin. lia.
  - intros Hle. apply n, Forall_forall. intros m _. apply Hle.
Defined.

(** The early exit is sound: the loop answers from the two disjunctions over
    all the keys. *)
Lemma compare_loop_verdict a b nodes sg og :
  (sg && og) = false →
  compare_loop a b nodes sg og =
    verdict (sg || existsb (λ n, bool_decide (get b n < get a n)) nodes)
            (og || existsb (λ n, bool_decide (get a n < get b n)) nodes).
Proof.
  revert sg og. induction nodes as [|n nodes IH]; intros sg og Hso; simpl.
  { by rewrite !orb_false_r. }
  repeat case_bool_decide; simpl; try lia.
  - rewrite orb_true_r. destruct og; simpl; [done|]. by rewrite IH.
  - rewrite andb_true_r, orb_true_r. destruct sg; simpl; [done|]. by rewrite IH.
  - rewrite Hso. by apply IH.
Qed.

Lemma existsb_not_le a b nodes :
  (∀ n, n ∉ nodes → get a n ≤ get b n) →
  existsb (λ n, bool_decide (get b n < get a n)) nodes = bool_decide (¬ le a b).
Proof.
  intros Hout. apply eq_bool_prop_intro. rewrite bool_decide_spec, Is_true_true, existsb_exists.
  split.
  - intros (n & _ & Hlt%bool_decide_eq_true) Hle. specialize (Hle n). lia.
  - intros Hnle. destruct (decide (Exists (λ n, get b n < get a n) nodes)) as [Hex|Hne].
    + apply Exists_exists in Hex as (n & Hin & Hlt). exists n.
      split; [by apply list_elem_of_In|by apply bool_decide_eq_true].
    + destruct Hnle. intros n. destruct (decide (n ∈ nodes)) as [Hin|]; [|by apply Hout].
      rewrite <-Forall_Exists_neg, Forall_forall in Hne. specialize (Hne n Hin). simpl in Hne. lia.
Qed.

Lemma compare_verdict a b :
  compare a b = verdict (bool_decide (¬ le a b)) (bool_decide (¬ le b a)).
Proof.
  unfold compare. rewrite compare_loop_verdict by done. simpl. f_equal.
  - apply existsb_not_le. intros n Hn%get_outside. lia.
  - apply existsb_not_le. intros n Hn%get_outside. lia.
Qed.

Lemma compare_cases a b :
  match compare a b with
  | Dominates => lt b a
  | Dominated => lt a b
  | Equal => le a b ∧ le b a
  | Concurrent => concurrent a b
  end.
Proof.
  rewrite compare_verdict. unfold lt, concurrent.
  repeat case_bool_decide; simpl; split; try done; by apply dec_stable.
Qed.

Lemma compare_dominates a b : compare a b = Dominates ↔ lt b a.
Proof.
  pose proof (compare_cases a b). unfold lt, concurrent in *.
  destruct (compare a b); split; try done; naive_solver.
Qed.
Lemma compare_dominated a b : compare a b = Dominated ↔ lt a b.
Proof.
  pose proof (compare_cases a b). unfold lt, concurrent in *.
  destruct (compare a b); split; try done; naive_solver.
Qed.
Lemma compare_equal a b : compare a b = Equal ↔ le a b ∧ le b a.
Proof.
  pose proof (compare_cases a b). unfold lt, concurrent in *.
  destruct (compare a b); split; try done; naive_solver.
Qed.
Lemma compare_concurrent a b : compare a b = Concurrent ↔ concurrent a b.
Proof.
  pose proof (compare_cases a b). unfold lt, concurrent in *.
  destruct (compare a b); split; try done; naive_solver.
Qed.

Ltac vv_order := unfold lt, concurrent in *; naive_solver.

Lemma compare_flip a b :
  compare b a = match compare a b with
                | Dominates => Dominated | Dominated => Dominates
                | Equal => Equal | Concurrent => Concurrent
                end.
Proof. rewrite !compare_verdict. by repeat case_bool_decide. Qed.

Lemma lt_trans a b c : lt a b → lt b c → lt a c.
Proof. intros [H1 H2] [H3 H4]. split; [by etrans|]. intros H5. apply H4. by etrans. Qed.
Lemma lt_le_trans a b c : lt a b → le b c → lt a c.
Proof. intros [H1 H2] H3. split; [by etrans|]. intros H5. apply H2. by etrans. Qed.
Lemma le_lt_trans a b c : le a b → lt b c → lt a c.
Proof. intros H1 [H2 H3]. split; [by etrans|]. intros H5. apply H3. by etrans. Qed.
Lemma lt_irrefl a : ¬ lt a a.
Proof. intros [H1 H2]. done. Qed.

(** *** [increment] *)

Lemma get_increment v n m :
  wf v → get v n + 1 < u64_modulus →
  get (increment v n) m = if decide (n = m) then get v m + 1 else get v m.
Proof.
  intros Hv Hlt. unfold increment. rewrite get_insert. fold (get v n).
  destruct (decide _) as [<-|]; [|done].
  pose proof (wf_get v n Hv). rewrite u64_add_small; unfold in_u64; lia.
Qed.

Lemma increment_wf v n : wf v → get v n + 1 < u64_modulus → wf (increment v n).
Proof.
  intros Hv Hlt. unfold increment. fold (get v n). pose proof (wf_get v n Hv).
  apply wf_insert; [done|]. rewrite u64_add_small; unfold in_u64; lia.
Qed.

Lemma increment_lt v n : wf v → get v n + 1 < u64_modulus → lt v (increment v n).
Proof.
  intros Hv Hlt. split.
  - intros m. rewrite get_increment by done. destruct (decide _); lia.
  - intros Hle. specialize (Hle n). rewrite get_increment in Hle by done.
    destruct (decide (n = n)); [lia|done].
Qed.

(** *** [from_iter] *)

Lemma from_iter_foldl_spec l m :
  wf m → Forall (λ e, 0 ≤ e.2 < u64_modulus) l →
  wf (foldl from_iter_step m l) ∧
  foldl from_iter_step m l = foldl merge_entry m (filter (λ e, 0 < e.2) l).
Proof.
  revert m. induction l as [|e l IH]; intros m Hm Hl; simpl; [done|].
  apply Forall_cons in Hl as [He Hl]. rewrite filter_cons.
  unfold from_iter_step at 2 4. case_bool_decide as Hpos; simpl.
  - rewrite decide_True by done. simpl. apply (IH (merge_entry m e)); [|done].
    apply wf_merge_entry; [done|lia].
  - rewrite decide_False by done. by apply IH.
Qed.

End VersionVector.

#[export] Hint Resolve VersionVector.merge_wf VersionVector.wf_empty
  VersionVector.merge_le_l VersionVector.merge_le_r VersionVector.increment_wf : replicore.

(** ** Properties *)

Section properties.
Import VersionVector.

(** [compare] decides the causal order. Its four answers are exactly: the
    first vector strictly above the second in the pointwise order of the
    counters, strictly below, pointwise equal, and incomparable; swapping the
    arguments swaps the two strict answers, so no two nodes can disagree about
    a pair of vectors. *)
Theorem compare_decides_causality (a b : VV) :
  (compare a b = Dominates ↔ (∀ n, get b n ≤ get a n) ∧ ∃ n, get b n < get a n) ∧
  (compare a b = Dominated ↔ (∀ n, get a n ≤ get b n) ∧ ∃ n, get a n < get b n) ∧
  (compare a b = Equal ↔ ∀ n, get a n = get b n) ∧
  (compare a b = Concurrent ↔ (∃ n, get b n < get a n) ∧ ∃ n, get a n < get b n) ∧
  (compare b a = Dominates ↔ compare a b = Dominated).
Proof.
  assert (Hw : ∀ x y, ¬ le x y ↔ ∃ n, get y n < get x n).
  { intros x y. split; [|intros (n & Hn) Hle; specialize (Hle n); lia].
    intros Hn. pose proof (existsb_not_le x y (btree_keys x ++ btree_keys y)) as He.
    rewrite bool_decide_true in He by done.
    destruct (proj1 (existsb_exists _ _) (He ltac:(intros n Hout%get_outside; lia)))
      as (n & _ & Hlt%bool_decide_eq_true). by exists n. }
  rewrite compare_dominates, compare_dominated, compare_equal, compare_concurrent,
    compare_dominates. unfold lt, concurrent. rewrite !Hw. split_and!; try done.
  - split; [|intros Heq; split; intros n; rewrite Heq; lia].
    intros [H1 H2] n. specialize (H1 n). specialize (H2 n). lia.
Qed.

(** [merge] is the join of the causal order. On well-formed vectors the
    result is well formed, is the componentwise maximum, is above both
    arguments and below every common upper bound, and the operation is
    commutative, associative and idempotent as an equality of the stored
    maps. *)
Theorem merge_is_join (a b c : VV) :
  wf a → wf b → wf c →
  wf (merge a b) ∧
  (∀ n, get (merge a b) n = Z.max (get a n) (get b n)) ∧
  (le a c → le b c → le (merge a b) c) ∧
  merge a b = merge b a ∧
  merge a (merge b c) = merge (merge a b) c ∧
  merge a a = a.
Proof.
  intros Ha Hb Hc. split_and!.
  - by apply merge_wf.
  - intros n. by apply get_merge.
  - by apply merge_lub.
  - by apply merge_comm.
  - by apply merge_assoc.
  - by apply merge_absorb.
Qed.

(** A local write moves a file strictly forward. While the node's counter
    is below the 64-bit maximum, [increment] keeps the vector well formed,
    adds one to exactly that component, and the result dominates the
    predecessor; at the maximum the release-profile addition wraps the
    component to a stored zero, which leaves the documented invariant and the
    result is strictly below its predecessor. *)
Theorem increment_strictly_dominates (v : VV) (node : NodeId) :
  wf v →
  (get v node + 1 < u64_modulus →
     wf (increment v node) ∧
     get (increment v node) node = get v node + 1 ∧
     (∀ m, m ≠ node → get (increment v node) m = get v m) ∧
     compare (increment v node) v = Dominates) ∧
  (get v node + 1 = u64_modulus →
     ¬ wf (increment v node) ∧ compare (increment v node) v = Dominated).
Proof.
  intros Hv. split.
  - intros Hlt. split_and!.
    + by apply increment_wf.
    + rewrite get_increment by done. by rewrite decide_True.
    + intros m Hm. rewrite get_increment by done. by rewrite decide_False.
    + by apply compare_dominates, increment_lt.
  - intros Heq.
    assert (Hz : u64_add (get v node) 1 = 0).
    { unfold u64_add. rewrite Heq. by apply Z.mod_same. }
    split.
    + intros Hwf. specialize (Hwf node). unfold increment in Hwf. fold (get v node) in Hwf.
      rewrite Hz, lookup_insert_eq in Hwf. specialize (Hwf _ eq_refl). simpl in Hwf. lia.
    + apply compare_dominated. unfold increment. fold (get v node). rewrite Hz. split.
      * intros m. rewrite get_insert. destruct (decide _); [|done]. subst. by apply wf_get.
      * intros Hle. specialize (Hle node). rewrite get_insert, decide_True in Hle by done.
        unfold u64_modulus in Heq. lia.
Qed.

(** [from_iter] builds the canonical vector of any sequence of counters:
    it is well formed (zeros dropped), each component is the maximum of the
    counters listed for it and zero, and permuting or duplicating the source
    gives the same map. *)
Theorem from_iter_canonical (l l' : list (NodeId * Z)) :
  Forall (λ e, 0 ≤ e.2 < u64_modulus) l →
  wf (from_iter l) ∧
  (∀ n c, (n, c) ∈ l → c ≤ get (from_iter l) n) ∧
  (∀ n, get (from_iter l) n = 0 ∨ (n, get (from_iter l) n) ∈ l) ∧
  ((∀ e, e ∈ l ↔ e ∈ l') → from_iter l' = from_iter l).
Proof.
  assert (Hspec : ∀ k, Forall (λ e, 0 ≤ e.2 < u64_modulus) k →
    wf (from_iter k) ∧ (∀ n c, (n, c) ∈ k → c ≤ get (from_iter k) n) ∧
    (∀ n, get (from_iter k) n = 0 ∨ (n, get (from_iter k) n) ∈ k)).
  { intros k Hk. destruct (from_iter_foldl_spec k ∅ wf_empty Hk) as [Hwf Heq].
    fold (from_iter k) in Hwf, Heq.
    assert (Hp : pos_entries (filter (λ e : NodeId * Z, 0 < e.2) k)).
    { apply Forall_forall. intros e [Hp Hin]%list_elem_of_filter.
      rewrite Forall_forall in Hk. specialize (Hk e Hin). simpl in *. lia. }
    destruct (merge_foldl_spec _ ∅ wf_empty Hp) as (_ & _ & Hub & Hatt).
    rewrite <-Heq in Hub, Hatt. split_and!; [done| |].
    - intros n c Hin. destruct (decide (0 < c)) as [Hc|Hc].
      + apply Hub. by apply list_elem_of_filter.
      + pose proof (wf_get _ n Hwf). lia.
    - intros n. destruct (Hatt n) as [->|(c & Hin & ->)]; [by left|right].
      by apply list_elem_of_filter in Hin as [_ ?]. }
  intros Hl. destruct (Hspec l Hl) as (Hwf & Hub & Hatt). split_and!; [done..|].
  intros Hext. assert (Hl' : Forall (λ e, 0 ≤ e.2 < u64_modulus) l').
  { apply Forall_forall. intros e He%Hext. by apply (proj1 (Forall_forall _ _) Hl). }
  destruct (Hspec l' Hl') as (Hwf' & Hub' & Hatt').
  apply ext; [done..|]. intros n. pose proof (wf_get _ n Hwf). pose proof (wf_get _ n Hwf').
  apply Z.le_antisymm.
  - destruct (Hatt' n) as [->|Hin]; [lia|]. by apply Hub, Hext.
  - destruct (Hatt n) as [->|Hin]; [lia|]. by apply Hub', Hext.
Qed.

Definition node_a : NodeId := fill 16 x0a.
Definition node_b : NodeId := fill 16 x0b.

(** A vector that has seen two writes of [node_a] and one of [node_b]. *)
Definition ex_ab : VV := {[ node_a := 2; node_b := 1 ]}.
Definition ex_b3 : VV := {[ node_b := 3 ]}.

Lemma merge_is_join_witness :
  merge ex_ab ex_b3 = {[ node_a := 2; node_b := 3 ]} ∧
  merge ex_ab ex_b3 = merge ex_b3 ex_ab.
Proof.
  split; [vm_decide|].
  apply (merge_is_join ex_ab ex_b3 ex_ab); vm_decide.
Defined.

Lemma increment_strictly_dominates_witness :
  compare (increment ex_ab node_b) ex_ab = Dominates.
Proof.
  apply (increment_strictly_dominates ex_ab node_b).
  - vm_decide.
  - vm_decide.
Defined.

Lemma from_iter_canonical_witness :
  from_iter [(node_b, 0); (node_a, 2); (node_b, 1); (node_a, 1)] =
  from_iter [(node_a, 1); (node_b, 1); (node_a, 2); (node_b, 0)].
Proof.
  apply (from_iter_canonical
    [(node_a, 1); (node_b, 1); (node_a, 2); (node_b, 0)]
    [(node_b, 0); (node_a, 2); (node_b, 1); (node_a, 1)]).
  - vm_decide.
  - set_solver.
Defined.
End properties.

