(* ===== verification/Decide.v ===== *)
(** * The apply/ignore/concurrent decision (src/src/decide.rs) *)

From S2P Require Import Prelude Vv.
Import VersionVector.

(** Local materialized state of a path, as read from the [files] index. *)
Record LocalFile : Type := mkLocalFile {
  lf_vv : VV;
  lf_tombstone : bool;
  lf_content_hash : option hash32;
  lf_mode : Z;
}.

Module Decision.
Inductive t : Type :=
| Apply
| Ignore
| Concurrent
| Quarantined.
End Decision.
Abbreviation Decision := Decision.t.

#[export] Instance decision_eq_dec : EqDecision Decision.
Proof. solve_decision. Defined.

Definition decide_op (local : option LocalFile) (remote_vv : VV) : Decision :=
  match local with
  | None => Decision.Apply
  | Some l =>
      match compare remote_vv (lf_vv l) with
      | Dominates => Decision.Apply
      | Dominated | Equal => Decision.Ignore
      | Concurrent => Decision.Concurrent
      end
  end.

(** What the decision means for the vectors; used by every client. *)
Lemma decide_apply l r : decide_op (Some l) r = Decision.Apply ↔ lt (lf_vv l) r.
Proof. rewrite <-compare_dominates. simpl. destruct (compare _ _); split; congruence. Qed.
Lemma decide_ignore l r : decide_op (Some l) r = Decision.Ignore ↔ le r (lf_vv l).
Proof.
  pose proof (compare_cases r (lf_vv l)) as H. simpl. unfold lt, concurrent in H.
  destruct (compare _ _); split; try done; naive_solver.
Qed.
Lemma decide_concurrent l r :
  decide_op (Some l) r = Decision.Concurrent ↔ concurrent r (lf_vv l).
Proof. rewrite <-compare_concurrent. simpl. destruct (compare _ _); split; congruence. Qed.
Lemma decide_not_quarantined lo r : decide_op lo r ≠ Decision.Quarantined.
Proof. destruct lo as [l|]; simpl; [|done]. by destruct (compare _ _). Qed.

(** The decision is a function of the two vectors alone and partitions
    them. A never-seen path applies; otherwise [Apply] is exactly "the remote
    causally follows the row", [Ignore] exactly "the row already covers the
    remote" and [Concurrent] exactly "neither", [Quarantined] is never
    returned, and neither the tombstone flag, the content hash nor the mode of
    the row can change the answer: a stale write cannot resurrect a deleted
    path and a write that saw the delete does. *)
Theorem decide_partition (l : LocalFile) (r : VV) :
  decide_op None r = Decision.Apply ∧
  (decide_op (Some l) r = Decision.Apply ↔ le (lf_vv l) r ∧ ¬ le r (lf_vv l)) ∧
  (decide_op (Some l) r = Decision.Ignore ↔ le r (lf_vv l)) ∧
  (decide_op (Some l) r = Decision.Concurrent ↔ ¬ le r (lf_vv l) ∧ ¬ le (lf_vv l) r) ∧
  decide_op (Some l) r ≠ Decision.Quarantined ∧
  (∀ tomb hash mode,
     decide_op (Some (mkLocalFile (lf_vv l) tomb hash mode)) r = decide_op (Some l) r).
Proof.
  split_and!.
  - done.
  - apply decide_apply.
  - apply decide_ignore.
  - apply decide_concurrent.
  - apply decide_not_quarantined.
  - done.
Qed.
