(* ===== verification/Metadata.v ===== *)
(** * Canonical metadata (src/src/metadata.rs)

    The [Meta] snapshot that rides every write, its canonical hash and the
    hash of its stable subset that names conflict copies. The theorem shows
    that the bytes hashed for a copy name determine the stable subset and
    depend on nothing else. *)

From S2P Require Import Prelude Vv.

Module FileKind.
Inductive t : Type :=
| Regular
| Symlink
| Fifo
| CharDev
| BlockDev.
End FileKind.
Abbreviation FileKind := FileKind.t.

#[export] Instance file_kind_eq_dec : EqDecision FileKind.
Proof. solve_decision. Defined.

Record Meta : Type := mkMeta {
  m_kind : FileKind;
  m_mode : Z;
  m_uid : Z;
  m_gid : Z;
  m_mtime_s : Z;
  m_mtime_ns : Z;
  m_symlink_target : option (list byte);
  m_rdev : Z;
  m_xattrs : list (list byte * list byte);
}.

#[export] Instance meta_eq_dec : EqDecision Meta.
Proof. solve_decision. Defined.

(** [bincode] is a third-party crate: its encodings of the two types the store
    and the hashes use are parameters; [BincodeLaws] is its documented
    round trip. *)
Class Bincode := {
  ser_vv : VV → list byte;
  de_vv : list byte → option VV;
  ser_meta : Meta → list byte;
  de_meta : list byte → option Meta;
}.

(** The values the Rust fields can hold. *)
Definition meta_typed (m : Meta) : Prop :=
  in_u32 (m_mode m) ∧ in_u32 (m_uid m) ∧ in_u32 (m_gid m) ∧
  in_i64 (m_mtime_s m) ∧ in_u32 (m_mtime_ns m) ∧ in_u64 (m_rdev m).

Class BincodeLaws `{!Bincode} : Prop := {
  de_ser_vv v : VersionVector.wf v → de_vv (ser_vv v) = Some v;
  de_ser_meta m : meta_typed m → de_meta (ser_meta m) = Some m;
}.

(** A concrete stand-in used by the examples: the bits of the values'
    countable codes, one per byte. *)
Fixpoint pos_bytes (p : positive) : list byte :=
  match p with
  | xH => []
  | xO p => x00 :: pos_bytes p
  | xI p => x01 :: pos_bytes p
  end.
Fixpoint bytes_pos (l : list byte) : positive :=
  match l with
  | [] => xH
  | b :: l => if decide (b = x01) then xI (bytes_pos l) else xO (bytes_pos l)
  end.
Lemma bytes_pos_bytes p : bytes_pos (pos_bytes p) = p.
Proof. induction p as [p IH|p IH|]; simpl; by rewrite ?IH. Qed.

#[export] Instance file_kind_countable : Countable FileKind.
Proof.
  apply (inj_countable' (λ k, match k with FileKind.Regular => 0 | FileKind.Symlink => 1
    | FileKind.Fifo => 2 | FileKind.CharDev => 3 | FileKind.BlockDev => 4 end)%nat
    (λ n, match n with 0 => FileKind.Regular | 1 => FileKind.Symlink
    | 2 => FileKind.Fifo | 3 => FileKind.CharDev | _ => FileKind.BlockDev end)%nat).
  by intros [].
Defined.
#[export] Instance meta_countable : Countable Meta.
Proof.
  apply (inj_countable'
    (λ m, (m_kind m, m_mode m, m_uid m, m_gid m, m_mtime_s m, m_mtime_ns m,
           m_symlink_target m, m_rdev m, m_xattrs m))
    (λ '(a, b, c, d, e, f, g, h, i), mkMeta a b c d e f g h i)).
  by intros [].
Defined.

Definition toy_bincode : Bincode := {|
  ser_vv v := pos_bytes (encode (map_to_list v));
  de_vv l := list_to_map <$> decode (bytes_pos l);
  ser_meta m := pos_bytes (encode m);
  de_meta l := decode (bytes_pos l);
|}.
Lemma toy_bincode_laws : @BincodeLaws toy_bincode.
Proof.
  split; simpl; intros x _; rewrite bytes_pos_bytes, decode_encode; [|done].
  simpl. by rewrite list_to_map_to_list.
Qed.

(** [META_NONE] *)
Definition META_NONE : hash32 := zeros 32.

Module Meta.
Section with_hash.
Context `{!Blake3}.

(** [Meta::hash_of] *)
Definition hash_of `{!Bincode} (meta : option Meta) : hash32 :=
  match meta with
  | None => META_NONE
  | Some m => blake3 (ser_meta m)
  end.

(** The explicit kind discriminant of [naming_hash]. *)
Definition kind_byte (k : FileKind) : byte :=
  match k with
  | FileKind.Regular => x00
  | FileKind.Symlink => x01
  | FileKind.Fifo => x02
  | FileKind.CharDev => x03
  | FileKind.BlockDev => x04
  end.

(** [(len as u64).to_le_bytes()] followed by the bytes. *)
Definition len_prefixed (l : list byte) : list byte :=
  le_bytes 8 (Z.of_nat (length l)) ++ l.

Definition target_bytes (t : option (list byte)) : list byte :=
  match t with
  | Some t => x01 :: len_prefixed t
  | None => [x00]
  end.

Definition xattr_bytes (kv : list byte * list byte) : list byte :=
  len_prefixed kv.1 ++ len_prefixed kv.2.

(** [xattrs.sort()] *)
Definition sorted_xattrs (m : Meta) : list (list byte * list byte) :=
  sort_by ord_leb (m_xattrs m).

(** The bytes fed to the hasher, in order. *)
Definition naming_bytes (m : Meta) : list byte :=
  [kind_byte (m_kind m)]
  ++ le_bytes 4 (m_mode m)
  ++ le_bytes 8 (m_rdev m)
  ++ target_bytes (m_symlink_target m)
  ++ le_bytes 8 (Z.of_nat (length (sorted_xattrs m)))
  ++ concat (xattr_bytes <$> sorted_xattrs m).

(** [Meta::naming_hash] *)
Definition naming_hash (meta : option Meta) : hash32 :=
  match meta with
  | None => META_NONE
  | Some m => blake3 (naming_bytes m)
  end.
End with_hash.

(** ** The stable subset and its encoding *)

(** The fields of the snapshot that name a copy. *)
Definition naming_subset (m : Meta) :=
  (m_kind m, m_mode m, m_rdev m, m_symlink_target m, sorted_xattrs m).

(** Values fit the widths of the Rust types: [u32], [u64], and vectors whose
    length fits 64 bits. *)
Definition meta_wf (m : Meta) : Prop :=
  in_u32 (m_mode m) ∧ in_u64 (m_rdev m) ∧
  match m_symlink_target m with
  | Some t => Z.of_nat (length t) < u64_modulus | None => True end ∧
  Z.of_nat (length (m_xattrs m)) < u64_modulus ∧
  Forall (λ kv, Z.of_nat (length kv.1) < u64_modulus ∧
                Z.of_nat (length kv.2) < u64_modulus) (m_xattrs m).

Lemma app_eq_len {A} (l1 l2 k1 k2 : list A) :
  length l1 = length k1 → l1 ++ l2 = k1 ++ k2 → l1 = k1 ∧ l2 = k2.
Proof. intros. by apply app_inj_1. Qed.

Lemma le_bytes_inj n x y :
  0 ≤ x < 256 ^ Z.of_nat n → 0 ≤ y < 256 ^ Z.of_nat n →
  le_bytes n x = le_bytes n y → x = y.
Proof. intros Hx Hy Heq. rewrite <-(le_val_bytes n x), <-(le_val_bytes n y) by done. by rewrite Heq. Qed.

Lemma len_prefixed_app l k r s :
  Z.of_nat (length l) < u64_modulus → Z.of_nat (length k) < u64_modulus →
  len_prefixed l ++ r = len_prefixed k ++ s → l = k ∧ r = s.
Proof.
  unfold len_prefixed, u64_modulus. intros Hl Hk Heq. rewrite <-!(assoc_L (++)) in Heq.
  apply app_eq_len in Heq as [Hlen Heq]; [|by rewrite !length_le_bytes].
  apply le_bytes_inj in Hlen; [|simpl; lia..]. apply app_eq_len in Heq; [done|lia].
Qed.

Lemma xattrs_concat_inj l k :
  Forall (λ kv, Z.of_nat (length kv.1) < u64_modulus ∧ Z.of_nat (length kv.2) < u64_modulus) l →
  Forall (λ kv, Z.of_nat (length kv.1) < u64_modulus ∧ Z.of_nat (length kv.2) < u64_modulus) k →
  length l = length k →
  concat (xattr_bytes <$> l) = concat (xattr_bytes <$> k) → l = k.
Proof.
  revert k. induction l as [|[a b] l IH]; intros [|[c d] k]; try done.
  intros [Hl1 Hl]%Forall_cons [Hk1 Hk]%Forall_cons Hlen Heq. simpl in *.
  change (xattr_bytes (a, b)) with (len_prefixed a ++ len_prefixed b) in Heq.
  change (xattr_bytes (c, d)) with (len_prefixed c ++ len_prefixed d) in Heq. rewrite <-!(assoc_L (++)) in Heq.
  apply len_prefixed_app in Heq as [<- Heq]; [|lia..].
  apply len_prefixed_app in Heq as [<- Heq]; [|lia..].
  f_equal. apply IH; [done..|lia|done].
Qed.

Lemma sorted_xattrs_length m : length (sorted_xattrs m) = length (m_xattrs m).
Proof. apply Permutation_length, sort_by_perm. Qed.

Lemma target_bytes_app t u r s :
  match t with Some t => Z.of_nat (length t) < u64_modulus | None => True end →
  match u with Some u => Z.of_nat (length u) < u64_modulus | None => True end →
  target_bytes t ++ r = target_bytes u ++ s → t = u ∧ r = s.
Proof.
  intros Ht Hu Heq. destruct t as [t|], u as [u|]; [|discriminate..|].
  - apply (f_equal tail) in Heq. change (len_prefixed t ++ r = len_prefixed u ++ s) in Heq. by apply len_prefixed_app in Heq as [<- <-].
  - by injection Heq as ->.
Qed.

Lemma naming_bytes_inj m m' :
  meta_wf m → meta_wf m' → naming_bytes m = naming_bytes m' →
  naming_subset m = naming_subset m'.
Proof.
  intros (Hm1 & Hm2 & Hm3 & Hm4 & Hm5) (Hn1 & Hn2 & Hn3 & Hn4 & Hn5) Heq.
  unfold naming_bytes in Heq. unfold in_u32, in_u64, u32_modulus, u64_modulus in *.
  apply app_eq_len in Heq as [Hk Heq]; [|done].
  apply app_eq_len in Heq as [Hmo Heq]; [|by rewrite !length_le_bytes].
  apply app_eq_len in Heq as [Hrd Heq]; [|by rewrite !length_le_bytes].
  apply target_bytes_app in Heq as [Ht Heq]; [|done..].
  apply app_eq_len in Heq as [Hlen Heq]; [|by rewrite !length_le_bytes].
  rewrite !sorted_xattrs_length in Hlen.
  apply le_bytes_inj in Hmo; [|simpl; lia..]. apply le_bytes_inj in Hrd; [|simpl; lia..].
  apply le_bytes_inj in Hlen; [|simpl; lia..].
  assert (Hx : sorted_xattrs m = sorted_xattrs m').
  { apply xattrs_concat_inj; [by unfold sorted_xattrs; rewrite sort_by_perm..| |done].
    rewrite !sorted_xattrs_length. lia. }
  unfold naming_subset. rewrite Hmo, Hrd, Ht, Hx. do 4 f_equal.
  by destruct (m_kind m), (m_kind m').
Qed.
End Meta.

(** Conflict-copy naming covers exactly the durable metadata. The bytes
    hashed for a copy name agree on two snapshots if and only if the snapshots
    agree on kind, permission bits, device number, symlink target and the
    sorted extended attributes; ownership and modification time never enter,
    and no field boundary is ambiguous. *)
Theorem naming_bytes_stable_subset (m m' : Meta) :
  Meta.meta_wf m → Meta.meta_wf m' →
  Meta.naming_bytes m = Meta.naming_bytes m' ↔
  Meta.naming_subset m = Meta.naming_subset m'.
Proof.
  intros Hm Hm'. split; [by apply Meta.naming_bytes_inj|].
  unfold Meta.naming_subset, Meta.naming_bytes. by intros [= -> -> -> -> ->].
Qed.

Definition ex_meta (mode mtime : Z) : Meta :=
  mkMeta FileKind.Regular mode 0 0 mtime 0 None 0 [([x61], [x01; x02])].

Lemma naming_bytes_stable_subset_witness :
  Meta.naming_bytes (ex_meta 420 7) = Meta.naming_bytes (ex_meta 420 9) ∧
  Meta.naming_bytes (ex_meta 420 7) ≠ Meta.naming_bytes (ex_meta 384 7).
Proof.
  split.
  - apply naming_bytes_stable_subset; [unfold Meta.meta_wf, in_u32, in_u64; vm_decide..|done].
  - intros H. apply naming_bytes_stable_subset in H;
      [done|unfold Meta.meta_wf, in_u32, in_u64; vm_decide..].
Defined.
