(* ===== verification/Conflict.v ===== *)
(** * Conflict resolution, the pure half (src/src/conflict.rs)

    Candidate versions of a path are reduced to the maximal antichain of their
    version vectors; the largest key wins and every losing content is planned
    as a conflict copy at a name derived from its content and durable
    metadata. [Module Version] models the candidate and its key, [Module
    Resolve] the reduction and the plan. *)

From Stdlib Require Import Ascii.
From S2P Require Import Prelude Vv Metadata.
Import VersionVector.

Abbreviation uuid16 := (barray 16).

(** [state::FileRow]: one row of the index. *)
Record FileRow : Type := mkFileRow {
  fr_path : string;
  fr_content_hash : option hash32;
  fr_mode : Z;
  fr_size : Z;
  fr_tombstone : bool;
  fr_vv : VV;
  fr_uuid : option uuid16;
  fr_meta : option Meta;
}.

#[export] Instance file_row_eq_dec : EqDecision FileRow.
Proof. solve_decision. Defined.

(** [conflict::Version]: one candidate in a resolution. *)
Record Version : Type := mkVersion {
  v_tombstone : bool;
  v_content_hash : option hash32;
  v_meta_hash : hash32;
  v_meta : option Meta;
  v_mode : Z;
  v_size : Z;
  v_vv : VV;
  v_uuid : option uuid16;
}.

#[export] Instance version_eq_dec : EqDecision Version.
Proof. solve_decision. Defined.

(** [conflict::PlannedRow] *)
Record PlannedRow : Type := mkPlannedRow {
  pr_path : string;
  pr_content_hash : option hash32;
  pr_mode : Z;
  pr_size : Z;
  pr_tombstone : bool;
  pr_vv : VV;
  pr_uuid : option uuid16;
  pr_meta : option Meta;
}.

#[export] Instance planned_row_eq_dec : EqDecision PlannedRow.
Proof. solve_decision. Defined.

(** The [hex] crate is third-party: [hex::encode] is a parameter. *)
Class Hex := hex_encode : list byte → string.

(** A concrete stand-in used by the examples: lower-case hexadecimal. *)
Definition hex_digit (n : Z) : Ascii.ascii :=
  Ascii.ascii_of_nat (Z.to_nat (if bool_decide (n < 10) then 48 + n else 87 + n)).
Fixpoint toy_hex (l : list byte) : string :=
  match l with
  | [] => ""
  | b :: l => String (hex_digit (byte_val b `div` 16))
                (String (hex_digit (byte_val b `mod` 16)) (toy_hex l))
  end.

Definition COPY_MARKER : string := ".sync-conflict-".
Definition MAX_COPY_DEPTH : nat := 4.

Module Version.

(** [Version::key]: kind rank, content hash, metadata hash. *)
Definition key (v : Version) : Z * hash32 * hash32 :=
  ((if v_tombstone v then 0 else 1),
   default (zeros 32) (v_content_hash v),
   v_meta_hash v).

(** [Version::from_row] *)
Definition from_row `{!Blake3, !Bincode} (row : FileRow) : Version := {|
  v_tombstone := fr_tombstone row;
  v_content_hash := fr_content_hash row;
  v_meta_hash := Meta.hash_of (fr_meta row);
  v_meta := fr_meta row;
  v_mode := fr_mode row;
  v_size := fr_size row;
  v_vv := fr_vv row;
  v_uuid := fr_uuid row;
|}.
End Version.

(** Larger key first: [sort_by_key(|v| Reverse(v.key()))]. *)
Definition key_desc (v w : Version) : bool := ord_leb (Version.key w) (Version.key v).

Module Resolve.
Import Version.

(** The inner [while] loop of [antichain] for candidate [c]: whether [c]
    survives, and the kept list after the removals made so far. *)
Fixpoint scan_keep (c : Version) (keep : list Version) : bool * list Version :=
  match keep with
  | [] => (true, [])
  | k :: keep' =>
      match compare (v_vv c) (v_vv k) with
      | Dominated | Equal => (false, k :: keep')
      | Dominates => scan_keep c keep'
      | Concurrent => let '(s, ks) := scan_keep c keep' in (s, k :: ks)
      end
  end.

Definition antichain_step (keep : list Version) (c : Version) : list Version :=
  let '(survives, ks) := scan_keep c keep in
  if survives then ks ++ [c] else ks.

Definition maximal (candidates : list Version) : list Version :=
  foldl antichain_step [] candidates.

Definition antichain (candidates : list Version) : list Version :=
  sort_by key_desc (maximal candidates).

Section with_externals.
Context `{!Blake3, !Hex}.

(** [str::rfind] for a one-byte pattern: the index of the last occurrence. *)
Fixpoint rfind (c : Ascii.ascii) (s : string) : option nat :=
  match s with
  | EmptyString => None
  | String a s =>
      match rfind c s with
      | Some i => Some (S i)
      | None => if decide (a = c) then Some O else None
      end
  end.

Definition str_prefix (i : nat) (s : string) : string := String.substring 0 i s.
Definition str_suffix (i : nat) (s : string) : string :=
  String.substring i (String.length s - i) s.

Definition copy_tag (loser_hash loser_meta : hash32) : string :=
  hex_encode (take 8 (ba_list (blake3 (ba_list loser_hash ++ ba_list loser_meta)))).

Definition copy_path_for (path : string) (loser_hash loser_meta : hash32) : string :=
  let hex16 := copy_tag loser_hash loser_meta in
  let '(dir, name) :=
    match rfind "/"%char path with
    | Some i => (str_prefix (S i) path, str_suffix (S i) path)
    | None => ("", path)
    end in
  match rfind "."%char name with
  | Some (S i) =>
      dir +:+ str_prefix (S i) name +:+ COPY_MARKER +:+ hex16 +:+ "." +:+ str_suffix (S (S i)) name
  | _ => dir +:+ name +:+ COPY_MARKER +:+ hex16
  end.

Definition copy_origin (copy_path : string) : NodeId :=
  to_array 16 (ba_list (blake3 (str_bytes "replicore-conflict" ++ str_bytes copy_path))).

Definition copy_vv (copy_path : string) : VV := from_iter [(copy_origin copy_path, 1)].

(** The row a copy without a live collision commits. *)
Definition copy_row (cp : string) (content : Version) : PlannedRow := {|
  pr_path := cp;
  pr_content_hash := v_content_hash content;
  pr_mode := v_mode content;
  pr_size := v_size content;
  pr_tombstone := false;
  pr_vv := copy_vv cp;
  pr_uuid := Some (copy_origin cp);
  pr_meta := v_meta content;
|}.

(** The copy as a candidate against a file that occupies its name. *)
Definition as_copy (cp : string) (content : Version) : Version := {|
  v_tombstone := false;
  v_content_hash := v_content_hash content;
  v_meta_hash := v_meta_hash content;
  v_meta := v_meta content;
  v_mode := v_mode content;
  v_size := v_size content;
  v_vv := copy_vv cp;
  v_uuid := Some (copy_origin cp);
|}.

Definition nested_row (cp : string) (existing w l : Version) : PlannedRow :=
  let keys_tie := bool_decide (key w = key l) in
  {| pr_path := cp;
     pr_content_hash := v_content_hash w;
     pr_mode := if keys_tie then Z.max (v_mode w) (v_mode l) else v_mode w;
     pr_size := v_size w;
     pr_tombstone := false;
     pr_vv := merge (v_vv existing) (copy_vv cp);
     pr_uuid := if keys_tie then ord_max (v_uuid w) (v_uuid l)
                else match v_uuid w with Some u => Some u | None => Some (copy_origin cp) end;
     pr_meta := v_meta w |}.

Section plan.
Context {E : Type} (lookup : string → result E (option Version)).

(** The copy chain ([while let Some((cp, content)) = link.take()]); [hops] is
    how many links may still be followed before [MAX_COPY_DEPTH] is
    exceeded. *)
Fixpoint copy_chain (hops : nat) (rows : list PlannedRow) (cp : string) (content : Version)
  : result E (option (list PlannedRow)) :=
  match hops with
  | O => Ok None
  | S hops =>
      if existsb (λ r, bool_decide (pr_path r = cp)) rows then Ok (Some rows)
      else
        found ← lookup cp;
        match found with
        | None => Ok (Some (rows ++ [copy_row cp content]))
        | Some existing =>
            match compare (copy_vv cp) (v_vv existing) with
            | Dominates => Ok (Some (rows ++ [copy_row cp content]))
            | Equal | Dominated => Ok (Some rows)
            | Concurrent =>
                match antichain [existing; as_copy cp content] with
                | w :: l :: _ =>
                    let rows' := rows ++ [nested_row cp existing w l] in
                    match v_content_hash l with
                    | Some lh =>
                        if bool_decide (key l = key w) then Ok (Some rows')
                        else copy_chain hops rows'
                               (copy_path_for cp lh (Meta.naming_hash (v_meta l))) l
                    | None => Ok (Some rows')
                    end
                (* [nested[1]] exists: the pair is concurrent ([nested_pair]) *)
                | _ => Ok (Some rows)
                end
            end
        end
  end.

(** [for loser in maximal.iter().skip(1)] *)
Fixpoint plan_copies (path : string) (wkey : Z * hash32 * hash32)
    (rows : list PlannedRow) (losers : list Version) : result E (option (list PlannedRow)) :=
  match losers with
  | [] => Ok (Some rows)
  | loser :: losers =>
      match v_content_hash loser with
      | None => plan_copies path wkey rows losers
      | Some hash =>
          if bool_decide (key loser = wkey) then plan_copies path wkey rows losers
          else
            r ← copy_chain MAX_COPY_DEPTH rows
                  (copy_path_for path hash (Meta.naming_hash (v_meta loser))) loser;
            match r with
            | None => Ok None
            | Some rows => plan_copies path wkey rows losers
            end
      end
  end.

(** The members of the antichain that tie with the winner. *)
Definition equal_key (maximal : list Version) (winner : Version) : list Version :=
  filter (λ m, key m = key winner) maximal.

Definition join_vvs (candidates : list Version) : VV :=
  foldl (λ vv c, merge vv (v_vv c)) new candidates.

Definition winner_row (path : string) (candidates maximal : list Version)
    (winner : Version) : PlannedRow := {|
  pr_path := path;
  pr_content_hash := v_content_hash winner;
  pr_mode := if v_tombstone winner then 0
             else default (v_mode winner)
                    (iter_max (v_mode <$> equal_key maximal winner));
  pr_size := if v_tombstone winner then 0 else v_size winner;
  pr_tombstone := v_tombstone winner;
  pr_vv := join_vvs candidates;
  pr_uuid := match iter_max (omap v_uuid (equal_key maximal winner)) with
             | Some u => Some u
             | None => v_uuid winner
             end;
  pr_meta := if v_tombstone winner then None else v_meta winner;
|}.

(** [conflict::plan_candidates] *)
Definition plan_candidates (path : string) (candidates : list Version)
  : result E (option (list PlannedRow)) :=
  match antichain candidates with
  | [] => Ok None
  | winner :: losers =>
      plan_copies path (key winner)
        [winner_row path candidates (winner :: losers) winner] losers
  end.
End plan.
End with_externals.
End Resolve.

Arguments Resolve.copy_chain : simpl never.
