(* ===== verification/ConflictProofs.v ===== *)
(** * Conflict resolution: the theorems

    Everything the committing transaction and the other nodes rely on: the
    reduction keeps exactly the causally maximal candidates, the plan is a
    function of the candidate set, a superseded candidate cannot influence it,
    the winner's vector absorbs every contender, and every losing content gets
    its copy. *)

From S2P Require Import Prelude Vv Metadata Conflict.
Import VersionVector Version Resolve.

(** ** The antichain *)

Definition vle (v w : Version) : Prop := le (v_vv v) (v_vv w).
Definition vlt (v w : Version) : Prop := lt (v_vv v) (v_vv w).
Definition vconc (v w : Version) : Prop := concurrent (v_vv v) (v_vv w).

#[export] Instance vle_preorder : PreOrder vle.
Proof. split; [intros v; unfold vle; reflexivity|]. intros u v w. unfold vle. apply transitivity. Qed.

Lemma vconc_sym v w : vconc v w → vconc w v.
Proof. unfold vconc, concurrent. naive_solver. Qed.

Lemma scan_keep_survives c K ks :
  scan_keep c K = (true, ks) →
  (∀ k, k ∈ K → vlt k c ∨ vconc c k) ∧ (∀ k, k ∈ ks ↔ k ∈ K ∧ vconc c k) ∧
  (StronglySorted vconc K → StronglySorted vconc ks).
Proof.
  revert ks. induction K as [|k K IH]; intros ks; simpl.
  { intros [= <-]. split_and!; [|split|done].
    - intros k Hk. by apply not_elem_of_nil in Hk.
    - intros Hk. by apply not_elem_of_nil in Hk.
    - intros [Hk _]. by apply not_elem_of_nil in Hk. }
  pose proof (compare_cases (v_vv c) (v_vv k)) as Hc.
  destruct (compare (v_vv c) (v_vv k)); [|done..|].
  - intros Hs. destruct (IH ks Hs) as (H1 & H2 & H3). split_and!.
    + intros k' [->|Hk']%elem_of_cons; [by left|by apply H1].
    + intros k'. rewrite H2, elem_of_cons. split; [naive_solver|].
      intros [[->|Hk'] Hcc]; [|done]. exfalso. unfold vconc, concurrent, lt in *. naive_solver.
    + intros [_ Hss]%StronglySorted_cons. by apply H3.
  - destruct (scan_keep c K) as [s ks0] eqn:Hs. intros [= -> <-].
    destruct (IH ks0 eq_refl) as (H1 & H2 & H3). split_and!.
    + intros k' [->|Hk']%elem_of_cons; [by right|by apply H1].
    + intros k'. rewrite !elem_of_cons, H2. naive_solver.
    + intros [Hf Hss]%StronglySorted_cons. apply StronglySorted_cons. split; [|by apply H3].
      rewrite Forall_forall in Hf |- *. intros k' Hk'. by apply Hf, H2.
Qed.

Lemma scan_keep_dropped c K ks :
  scan_keep c K = (false, ks) →
  (∃ k, k ∈ K ∧ vle c k) ∧ (StronglySorted vconc K → ks = K).
Proof.
  revert ks. induction K as [|k K IH]; intros ks; simpl; [done|].
  pose proof (compare_cases (v_vv c) (v_vv k)) as Hc.
  destruct (compare (v_vv c) (v_vv k)).
  - intros Hs. destruct (IH ks Hs) as [(k' & Hk' & Hle) Heq]. split.
    + exists k'. split; [by right|done].
    + intros [Hf Hss]%StronglySorted_cons. rewrite Forall_forall in Hf.
      specialize (Hf k' Hk'). destruct Hf as [Hnle _]. destruct Hnle.
      transitivity (v_vv c); [apply Hc|apply Hle].
  - intros [= <-]. split; [|done]. exists k. split; [by left|apply Hc].
  - intros [= <-]. split; [|done]. exists k. split; [by left|apply Hc].
  - destruct (scan_keep c K) as [s ks0] eqn:Hs. intros [= -> <-].
    destruct (IH ks0 eq_refl) as [(k' & Hk' & Hle) Heq]. split.
    + exists k'. split; [by right|done].
    + intros [Hf Hss]%StronglySorted_cons. by rewrite Heq.
Qed.

(** What [antichain] maintains after having read [seen]. *)
Record keeps (seen K : list Version) : Prop := {
  keeps_sub : ∀ k, k ∈ K → k ∈ seen;
  keeps_cover : ∀ c, c ∈ seen → ∃ k, k ∈ K ∧ vle c k;
  keeps_anti : StronglySorted vconc K;
}.

Lemma keeps_step seen K c : keeps seen K → keeps (seen ++ [c]) (antichain_step K c).
Proof.
  intros [Hsub Hcov Hanti]. unfold antichain_step.
  destruct (scan_keep c K) as [[] ks] eqn:Hs.
  - apply scan_keep_survives in Hs as (H1 & H2 & H3). split.
    + intros k. rewrite !elem_of_app, !list_elem_of_singleton, H2.
      intros [[Hk _]| ->]; [left; by apply Hsub|by right].
    + intros c' [Hc'| ->%list_elem_of_singleton]%elem_of_app.
      * destruct (Hcov c' Hc') as (k & Hk & Hle). destruct (H1 k Hk) as [Hlt|Hconc].
        -- exists c. split; [set_solver|]. etrans; [apply Hle|apply Hlt].
        -- exists k. split; [|done]. rewrite elem_of_app. left. by apply H2.
      * exists c. split; [set_solver|done].
    + apply StronglySorted_app_2; [|by apply H3|repeat constructor].
      intros x1 x2 Hx1 ->%list_elem_of_singleton. apply vconc_sym. by apply H2.
  - apply scan_keep_dropped in Hs as [(k & Hk & Hle) Heq]. rewrite (Heq Hanti). split.
    + intros k' Hk'. apply elem_of_app. left. by apply Hsub.
    + intros c' [Hc'| ->%list_elem_of_singleton]%elem_of_app; [by apply Hcov|eauto].
    + done.
Qed.

Lemma keeps_maximal cs : keeps cs (maximal cs).
Proof.
  unfold maximal.
  assert (∀ seen K, keeps seen K → keeps (seen ++ cs) (foldl antichain_step K cs)) as Hgen.
  { induction cs as [|c cs IH]; intros seen K HK; simpl; [by rewrite app_nil_r|].
    rewrite (cons_middle c seen cs), (assoc_L (++)). by apply IH, keeps_step. }
  apply (Hgen [] []). split; [done| |constructor].
  intros c Hc. by apply not_elem_of_nil in Hc.
Qed.

Lemma elem_of_antichain v cs : v ∈ antichain cs ↔ v ∈ maximal cs.
Proof. apply elem_of_sort_by. Qed.

Lemma vconc_irrefl v : ¬ vconc v v.
Proof. intros [H _]. by apply H. Qed.

Lemma anti_pair K v w : StronglySorted vconc K → v ∈ K → w ∈ K → v = w ∨ vconc v w.
Proof.
  induction 1 as [|k K HK IH Hf]; intros Hv Hw; [by apply not_elem_of_nil in Hv|].
  rewrite Forall_forall in Hf.
  apply elem_of_cons in Hv as [->|Hv]; apply elem_of_cons in Hw as [->|Hw]; auto.
  right. by apply vconc_sym, Hf.
Qed.

Lemma NoDup_maximal cs : NoDup (maximal cs).
Proof.
  pose proof (keeps_anti _ _ (keeps_maximal cs)) as H.
  induction H as [|k K HK IH Hf]; constructor; [|done].
  intros Hk. rewrite Forall_forall in Hf. by apply (vconc_irrefl k), Hf.
Qed.

(** The causally maximal candidates: no other candidate dominates them. *)
Definition mx (cs : list Version) (v : Version) : Prop :=
  v ∈ cs ∧ ∀ c, c ∈ cs → ¬ vlt v c.

Lemma maximal_mx cs v : v ∈ maximal cs → mx cs v.
Proof.
  intros Hv. destruct (keeps_maximal cs) as [Hsub Hcov Hanti].
  split; [by apply Hsub|]. intros c Hc Hlt. destruct (Hcov c Hc) as (k & Hk & Hle).
  assert (vlt v k) as Hvk by (by eapply lt_le_trans).
  destruct (anti_pair _ v k Hanti Hv Hk) as [->|Hconc].
  - by apply (lt_irrefl (v_vv k)).
  - destruct Hconc as [Hn _]. apply Hn, Hvk.
Qed.

(** Candidates with the same causal history are the same version. *)
Definition coherent (cs : list Version) : Prop :=
  ∀ v w, v ∈ cs → w ∈ cs → vle v w → vle w v → v = w.

Lemma mx_maximal cs v : coherent cs → mx cs v → v ∈ maximal cs.
Proof.
  intros Hcoh [Hv Hmax]. destruct (keeps_maximal cs) as [Hsub Hcov Hanti].
  destruct (Hcov v Hv) as (k & Hk & Hle).
  destruct (decide (le (v_vv k) (v_vv v))) as [Hle'|Hn].
  - by rewrite (Hcoh v k) by auto.
  - destruct (Hmax k); [by apply Hsub|]. by split.
Qed.

Lemma antichain_sorted cs :
  StronglySorted (λ v w, ord_le (key w) (key v)) (antichain cs).
Proof.
  eapply (strongly_sorted_impl (λ v w, key_desc v w = true)).
  - intros v w Hk. by apply ord_leb_le.
  - apply sort_by_sorted; unfold key_desc; intros *.
    + intros E. apply ord_leb_le. destruct (total ord_le (key y) (key x)) as [Hle|]; [|done].
      apply ord_leb_le in Hle. congruence.
    + rewrite !ord_leb_le. by intros; etrans.
Qed.

Lemma antichain_perm cs : antichain cs ≡ₚ maximal cs.
Proof. apply sort_by_perm. Qed.

Lemma antichain_head_max cs w ls v :
  antichain cs = w :: ls → v ∈ maximal cs → ord_le (key v) (key w).
Proof.
  intros Heq Hv. apply elem_of_antichain in Hv. rewrite Heq in Hv.
  pose proof (antichain_sorted cs) as Hs. rewrite Heq in Hs.
  apply StronglySorted_cons in Hs as [Hf _]. rewrite Forall_forall in Hf.
  apply elem_of_cons in Hv as [->|Hv]; [reflexivity|by apply Hf].
Qed.

Lemma antichain_nil cs : antichain cs = [] ↔ cs = [].
Proof.
  split; [|by intros ->]. intros Heq. destruct cs as [|c cs]; [done|exfalso].
  destruct (keeps_cover _ _ (keeps_maximal (c :: cs)) c) as (k & Hk & _); [by left|].
  apply elem_of_antichain in Hk. rewrite Heq in Hk. by apply not_elem_of_nil in Hk.
Qed.

(** A concurrent pair stays a pair, larger key first. *)
Lemma nested_pair e c : vconc e c →
  antichain [e; c] = if key_desc e c then [e; c] else [c; e].
Proof.
  intros Hec. unfold antichain, maximal. simpl. unfold antichain_step. simpl.
  rewrite (proj2 (compare_concurrent _ _)); [|by apply vconc_sym].
  simpl. by destruct (key_desc e c).
Qed.

(** ** The join of the candidates' vectors *)

Lemma join_vvs_spec cs :
  Forall (λ c, wf (v_vv c)) cs →
  wf (join_vvs cs) ∧ (∀ c, c ∈ cs → le (v_vv c) (join_vvs cs)) ∧
  (∀ u, wf u → (∀ c, c ∈ cs → le (v_vv c) u) → le (join_vvs cs) u).
Proof.
  unfold join_vvs.
  assert (Hgen : ∀ a, wf a → Forall (λ c, wf (v_vv c)) cs →
    let j := foldl (λ vv c, merge vv (v_vv c)) a cs in
    wf j ∧ le a j ∧ (∀ c, c ∈ cs → le (v_vv c) j) ∧
    (∀ u, wf u → le a u → (∀ c, c ∈ cs → le (v_vv c) u) → le j u)).
  { simpl. induction cs as [|c cs IH]; intros a Ha Hcs; simpl.
    - split_and!; [done|done| |auto]. intros c Hc. by apply not_elem_of_nil in Hc.
    - apply Forall_cons in Hcs as [Hc Hcs].
      destruct (IH (merge a (v_vv c))) as (H1 & H2 & H3 & H4); [by apply merge_wf|done|].
      split_and!; [done| | |].
      + etrans; [|apply H2]. by apply merge_le_l.
      + intros c' [->|Hc']%elem_of_cons; [|by apply H3].
        etrans; [|apply H2]. by apply merge_le_r.
      + intros u Hu Hau Hub. apply H4; [done| |].
        * apply merge_lub; [done..|]. apply Hub. by left.
        * intros c' Hc'. apply Hub. by right. }
  intros Hcs. destruct (Hgen new wf_empty Hcs) as (H1 & H2 & H3 & H4).
  split_and!; [done..|]. intros u Hu Hub. apply H4; [done| |done].
  intros n. rewrite get_new. by apply wf_get.
Qed.

Lemma join_vvs_cover cs cs' :
  Forall (λ c, wf (v_vv c)) cs → Forall (λ c, wf (v_vv c)) cs' →
  (∀ c, c ∈ cs → ∃ d, d ∈ cs' ∧ vle c d) → le (join_vvs cs) (join_vvs cs').
Proof.
  intros Hcs Hcs' Hcov. destruct (join_vvs_spec cs' Hcs') as (H1 & H2 & _).
  apply (proj2 (proj2 (join_vvs_spec cs Hcs))); [done|].
  intros c Hc. destruct (Hcov c Hc) as (d & Hd & Hle). etrans; [apply Hle|by apply H2].
Qed.

(** ** What the plan depends on *)

(** A loser influences the plan only through its key and the fields its copy
    row stores; its vector and identity are replaced by synthetic ones. *)
Definition erase (v : Version) : Version :=
  mkVersion (v_tombstone v) (v_content_hash v) (v_meta_hash v) (v_meta v)
    (v_mode v) (v_size v) ∅ None.

(** Versions with equal keys carry the same content and metadata (hash
    equality standing for equality), up to the permission bits. *)
Definition agree (cs : list Version) : Prop :=
  ∀ v w, v ∈ cs → w ∈ cs → key v = key w →
  v_content_hash v = v_content_hash w ∧ v_size v = v_size w ∧ v_meta v = v_meta w.
Definition agree_mode (cs : list Version) : Prop :=
  ∀ v w, v ∈ cs → w ∈ cs → key v = key w → v_mode v = v_mode w.

Lemma key_tombstone v w : key v = key w → v_tombstone v = v_tombstone w.
Proof. unfold key. intros [= H _ _]. by destruct (v_tombstone v), (v_tombstone w). Qed.
Lemma key_meta_hash v w : key v = key w → v_meta_hash v = v_meta_hash w.
Proof. unfold key. by intros [= _ _ ->]. Qed.

Lemma agree_erase cs v w :
  agree cs → agree_mode cs → v ∈ cs → w ∈ cs → key v = key w → erase v = erase w.
Proof.
  intros Ha Hm Hv Hw Hk. destruct (Ha v w Hv Hw Hk) as (Hc & Hs & Hmeta).
  unfold erase. rewrite (key_tombstone v w Hk), (key_meta_hash v w Hk), Hc, Hs, Hmeta.
  by rewrite (Hm v w).
Qed.

Section plan_facts.
Context `{!Blake3, !Hex} {E : Type} (lookup : string → result E (option Version)).

Lemma copy_chain_erase n rows cp v :
  copy_chain lookup n rows cp (erase v) = copy_chain lookup n rows cp v.
Proof. by destruct n. Qed.

Lemma plan_copies_erase path k rows ls :
  plan_copies lookup path k rows (erase <$> ls) = plan_copies lookup path k rows ls.
Proof.
  revert rows. induction ls as [|v ls IH]; intros rows; simpl; [done|].
  change (key (erase v)) with (key v). destruct (v_content_hash v); [|done].
  destruct (bool_decide _); [done|]. rewrite copy_chain_erase.
  change (v_meta (erase v)) with (v_meta v).
  destruct (copy_chain _ _ _ _ _) as [[rows'|]|]; simpl; auto.
Qed.

(** The winner row is determined by the tie class of the winner and the join
    of the candidates. *)
Lemma winner_row_ext path cs cs' M M' w w' :
  M ≡ₚ M' → w ∈ M → w' ∈ M' → key w = key w' →
  v_content_hash w = v_content_hash w' ∧ v_size w = v_size w' ∧ v_meta w = v_meta w' →
  join_vvs cs = join_vvs cs' →
  winner_row path cs M w = winner_row path cs' M' w'.
Proof.
  intros HM Hw Hw' Hk (Hc & Hs & Hmeta) Hj. unfold winner_row.
  rewrite (key_tombstone w w' Hk), Hc, Hs, Hmeta, Hj.
  assert (Heq : equal_key M w ≡ₚ equal_key M' w').
  { unfold equal_key. rewrite <-Hk. by rewrite HM. }
  assert (Hin : w ∈ equal_key M w) by (by apply list_elem_of_filter).
  assert (Hin' : w' ∈ equal_key M' w') by (by apply list_elem_of_filter).
  assert (Hmode : iter_max (v_mode <$> equal_key M w) = iter_max (v_mode <$> equal_key M' w')).
  { apply iter_max_ext. intros x. by rewrite Heq. }
  assert (Huuid : iter_max (omap v_uuid (equal_key M w)) = iter_max (omap v_uuid (equal_key M' w'))).
  { apply iter_max_ext. intros x. by rewrite Heq. }
  rewrite Hmode, Huuid. f_equal.
  - destruct (iter_max (v_mode <$> equal_key M' w')) eqn:Hn; [done|].
    apply iter_max_none, fmap_nil_inv in Hn. rewrite Hn in Hin'. by apply not_elem_of_nil in Hin'.
  - destruct (iter_max (omap v_uuid (equal_key M' w'))) eqn:Hn; [done|].
    assert (∀ K x, x ∈ K → iter_max (omap v_uuid K) = None → v_uuid x = None) as Hnone.
    { intros K x Hx Hmax. apply iter_max_none in Hmax. destruct (v_uuid x) as [u|] eqn:Hu; [|done].
      assert (u ∈ omap v_uuid K) as Hu' by (apply list_elem_of_omap; eauto).
      rewrite Hmax in Hu'. by apply not_elem_of_nil in Hu'. }
    rewrite (Hnone _ _ Hin' Hn). by rewrite (Hnone _ _ Hin) by congruence.
Qed.

(** The plan is determined by the causally maximal candidates. *)
Section ext.
Context (cs cs' : list Version).
Context (Hwf : Forall (λ c, wf (v_vv c)) (cs ++ cs')) (Hcoh : coherent (cs ++ cs')).
Context (Hagree : agree (cs ++ cs')) (Hmx : ∀ v, mx cs v ↔ mx cs' v).

Lemma ext_maximal_perm : maximal cs ≡ₚ maximal cs'.
Proof using Hcoh Hmx.
  assert (Hl : coherent cs) by (intros v w ??; apply Hcoh; apply elem_of_app; by left).
  assert (Hr : coherent cs') by (intros v w ??; apply Hcoh; apply elem_of_app; by right).
  apply NoDup_Permutation; [apply NoDup_maximal..|]. intros v.
  split; intros Hv%maximal_mx%Hmx; by apply mx_maximal.
Qed.

Lemma ext_join : join_vvs cs = join_vvs cs'.
Proof using Hwf Hcoh Hmx.
  apply Forall_app in Hwf as [Hw Hw'].
  assert (Hcov : ∀ ds ds', maximal ds ≡ₚ maximal ds' →
    ∀ c, c ∈ ds → ∃ d, d ∈ ds' ∧ vle c d).
  { intros ds ds' Hp c Hc. destruct (keeps_cover _ _ (keeps_maximal ds) c Hc) as (k & Hk & Hle).
    exists k. split; [|done]. rewrite Hp in Hk. by apply (keeps_sub _ _ (keeps_maximal ds')). }
  apply le_antisym; [by apply join_vvs_spec..| |]; apply join_vvs_cover; try done; apply Hcov;
    [|symmetry]; apply ext_maximal_perm.
Qed.

Lemma elem_antichain_l v : v ∈ antichain cs → v ∈ cs ++ cs'.
Proof using.
  intros Hv%elem_of_antichain. apply elem_of_app. left.
  by apply (keeps_sub _ _ (keeps_maximal cs)).
Qed.
Lemma elem_antichain_r v : v ∈ antichain cs' → v ∈ cs ++ cs'.
Proof using.
  intros Hv%elem_of_antichain. apply elem_of_app. right.
  by apply (keeps_sub _ _ (keeps_maximal cs')).
Qed.

Lemma ext_antichain_perm : antichain cs ≡ₚ antichain cs'.
Proof using Hcoh Hmx. rewrite !antichain_perm. apply ext_maximal_perm. Qed.

Lemma ext_head_key w ls w' ls' :
  antichain cs = w :: ls → antichain cs' = w' :: ls' → key w = key w'.
Proof using Hcoh Hmx.
  intros H1 H2. pose proof ext_maximal_perm as Hp.
  assert (w ∈ maximal cs) by (apply elem_of_antichain; rewrite H1; by left).
  assert (w' ∈ maximal cs') by (apply elem_of_antichain; rewrite H2; by left).
  apply (anti_symm ord_le).
  - apply (antichain_head_max cs' _ ls'); [done|]. by rewrite <-Hp.
  - apply (antichain_head_max cs _ ls); [done|]. by rewrite Hp.
Qed.

Lemma ext_winner_row path w ls w' ls' :
  antichain cs = w :: ls → antichain cs' = w' :: ls' →
  winner_row path cs (w :: ls) w = winner_row path cs' (w' :: ls') w'.
Proof using Hwf Hcoh Hagree Hmx.
  intros H1 H2. apply winner_row_ext.
  - rewrite <-H1, <-H2. apply ext_antichain_perm.
  - by left.
  - by left.
  - by eapply ext_head_key.
  - apply Hagree.
    + apply elem_antichain_l. rewrite H1. by left.
    + apply elem_antichain_r. rewrite H2. by left.
    + by eapply ext_head_key.
  - apply ext_join.
Qed.

Lemma ext_erased (Hmode : agree_mode (cs ++ cs')) :
  erase <$> antichain cs = erase <$> antichain cs'.
Proof using Hcoh Hagree Hmx.
  apply (StronglySorted_unique_strong (λ v w, ord_le (key w) (key v))).
  - intros x y (v & -> & Hv)%list_elem_of_fmap (w & -> & Hw)%list_elem_of_fmap.
    change (key (erase v)) with (key v). change (key (erase w)) with (key w). intros H1 H2.
    apply (agree_erase (cs ++ cs')); [done..| | |by apply (anti_symm ord_le)].
    + by apply elem_antichain_l.
    + by apply elem_antichain_r.
  - by eapply StronglySorted_fmap, antichain_sorted.
  - by eapply StronglySorted_fmap, antichain_sorted.
  - by rewrite ext_antichain_perm.
Qed.

Lemma ext_plan path (Hmode : agree_mode (cs ++ cs')) :
  plan_candidates lookup path cs = plan_candidates lookup path cs'.
Proof using Hwf Hcoh Hagree Hmx.
  unfold plan_candidates. pose proof (ext_erased Hmode) as Her.
  destruct (antichain cs) as [|w ls] eqn:H1, (antichain cs') as [|w' ls'] eqn:H2;
    [done|discriminate Her..|].
  rewrite (ext_winner_row path w ls w' ls') by done. rewrite (ext_head_key w ls w' ls') by done.
  rewrite !fmap_cons in Her. apply (f_equal tail) in Her. simpl in Her.
  by rewrite <-(plan_copies_erase _ _ _ ls), Her, plan_copies_erase.
Qed.
End ext.
End plan_facts.

(** ** Names of conflict copies *)

Lemma str_app_nil_r s : s +:+ "" = s.
Proof. induction s as [|a s IH]; [done|]. change (String a (s +:+ "") = String a s). by rewrite IH. Qed.
Lemma str_app_assoc s t u : (s +:+ t) +:+ u = s +:+ t +:+ u.
Proof.
  induction s as [|a s IH]; [done|].
  change (String a ((s +:+ t) +:+ u) = String a (s +:+ t +:+ u)). by rewrite IH.
Qed.
Lemma string_app_cancel_r s t u : s +:+ u = t +:+ u → s = t.
Proof.
  revert t. induction s as [|a s IH]; intros [|b t] Heq; [done|exfalso..|].
  - apply (f_equal String.length) in Heq. rewrite !string_length_app in Heq. simpl in Heq. lia.
  - apply (f_equal String.length) in Heq. rewrite !string_length_app in Heq. simpl in Heq. lia.
  - injection Heq as -> Heq. f_equal. by apply IH.
Qed.

Lemma str_suffix_0 s : str_suffix 0 s = s.
Proof.
  unfold str_suffix. rewrite Nat.sub_0_r. induction s as [|a s IH]; simpl; [done|]. by rewrite IH.
Qed.

(** The last occurrence splits the string at that byte. *)
Lemma rfind_split c s i :
  rfind c s = Some i → s = str_prefix i s +:+ String c (str_suffix (S i) s).
Proof.
  revert i. induction s as [|a s IH]; intros i; simpl; [done|].
  destruct (rfind c s) as [j|] eqn:Hj.
  - intros [= <-]. specialize (IH j eq_refl). rewrite IH at 1. done.
  - destruct (decide (a = c)) as [->|]; [|done]. intros [= <-].
    change (String c s = String c (str_suffix 0 s)). by rewrite str_suffix_0.
Qed.

Section naming.
Context `{!Blake3, !Hex}.

(** A copy name is the original name with the marker and the content tag
    inserted before the extension. *)
Lemma copy_path_shape path : ∃ p s, path = p +:+ s ∧
  ∀ h m, copy_path_for path h m = p +:+ COPY_MARKER +:+ copy_tag h m +:+ s.
Proof.
  unfold copy_path_for.
  set (dn := match rfind _ path with Some i => _ | None => _ end).
  assert (Hdn : path = dn.1 +:+ dn.2).
  { subst dn. destruct (rfind _ path) as [i|] eqn:Hi; [|done]. simpl.
    apply rfind_split in Hi.
    assert (Hpre : ∀ c i s, s = str_prefix i s +:+ String c (str_suffix (S i) s) →
      s = str_prefix (S i) s +:+ str_suffix (S i) s).
    { clear. intros c i s. revert i. induction s as [|a s IH]; intros i Hs; [by destruct i|].
      destruct i as [|i].
      - change (String a s = String a (str_prefix 0 s +:+ str_suffix 0 s)).
        rewrite str_suffix_0. by destruct s.
      - injection Hs as Hs. change (String a s = String a (str_prefix (S i) s +:+ str_suffix (S i) s)).
        f_equal. by apply IH. }
    by eapply Hpre. }
  destruct dn as [dir name]. simpl in Hdn. subst path.
  destruct (rfind _ name) as [[|i]|] eqn:Hi.
  - exists (dir +:+ name), "". split; [by rewrite str_app_nil_r|].
    intros h m. by rewrite str_app_nil_r, str_app_assoc.
  - apply rfind_split in Hi.
    exists (dir +:+ str_prefix (S i) name), ("." +:+ str_suffix (S (S i)) name).
    split; [rewrite Hi at 1; by rewrite str_app_assoc|].
    intros h m. by rewrite !str_app_assoc.
  - exists (dir +:+ name), "". split; [by rewrite str_app_nil_r|].
    intros h m. by rewrite str_app_nil_r, str_app_assoc.
Qed.

Lemma copy_path_tag_inj path h m h' m' :
  copy_path_for path h m = copy_path_for path h' m' → copy_tag h m = copy_tag h' m'.
Proof.
  destruct (copy_path_shape path) as (p & s & _ & Hshape). rewrite !Hshape.
  intros Heq%(inj _)%(inj _). by apply string_app_cancel_r in Heq.
Qed.

Lemma copy_path_ne path h m : copy_path_for path h m ≠ path.
Proof.
  destruct (copy_path_shape path) as (p & s & Hp & Hshape). rewrite Hshape.
  intros Heq%(f_equal String.length). rewrite Hp, !string_length_app in Heq.
  simpl in Heq. lia.
Qed.
End naming.

(** ** Shape of the plan *)

Section plan_shape.
Context `{!Blake3, !Hex} {E : Type} (lookup : string → result E (option Version)).

(** A row the resolution leaves standing at a copy name: the copy was derived
    before, or a user edited it since. *)
Definition stands (cp : string) : Prop :=
  ∃ e, lookup cp = Ok (Some e) ∧ le (copy_vv cp) (v_vv e).

Lemma existsb_path (rows : list PlannedRow) cp :
  existsb (λ r, bool_decide (pr_path r = cp)) rows = true ↔ cp ∈ pr_path <$> rows.
Proof.
  rewrite existsb_exists, list_elem_of_fmap. setoid_rewrite <-list_elem_of_In.
  setoid_rewrite bool_decide_eq_true. naive_solver.
Qed.

Lemma planned_snoc_nodup (rs : list PlannedRow) r :
  pr_path r ∉ pr_path <$> rs → NoDup (pr_path <$> rs) → NoDup (pr_path <$> rs ++ [r]).
Proof.
  intros Hr Hrs. rewrite fmap_app. apply NoDup_app. split_and!; [done| |apply NoDup_singleton].
  by intros x Hx ->%list_elem_of_singleton.
Qed.
Lemma planned_snoc_in (rs : list PlannedRow) r : pr_path r ∈ pr_path <$> rs ++ [r].
Proof. rewrite fmap_app, elem_of_app. right. by left. Qed.

Lemma copy_chain_some n rows cp v rows' :
  copy_chain lookup n rows cp v = Ok (Some rows') →
  ∃ extra, rows' = rows ++ extra ∧
    (NoDup (pr_path <$> rows) → NoDup (pr_path <$> rows')) ∧
    (cp ∈ pr_path <$> rows' ∨ stands cp).
Proof.
  revert rows cp v. induction n as [|n IH]; intros rows cp v; [done|].
  unfold copy_chain; fold (copy_chain lookup).
  destruct (existsb _ rows) eqn:Hex.
  { intros [= <-]. exists []. rewrite app_nil_r. split_and!; [done..|].
    left. by apply existsb_path. }
  assert (Hnin : cp ∉ pr_path <$> rows) by (rewrite <-existsb_path; congruence).
  destruct (lookup cp) as [[e|]|] eqn:Hl; simpl; [| |done].
  - pose proof (compare_cases (copy_vv cp) (v_vv e)) as Hc. destruct (compare _ _) eqn:Hcmp.
    + intros [= <-]. exists [copy_row cp v]. split_and!; [done|by apply planned_snoc_nodup|].
      left. apply (planned_snoc_in _ (copy_row cp v)).
    + intros [= <-]. exists []. rewrite app_nil_r. split_and!; [done..|].
      right. exists e. split; [done|apply Hc].
    + intros [= <-]. exists []. rewrite app_nil_r. split_and!; [done..|].
      right. exists e. split; [done|apply Hc].
    + rewrite nested_pair by by apply vconc_sym.
      assert (Hgo : ∀ w l, (match v_content_hash l with
        | Some lh => if bool_decide (key l = key w) then Ok (Some (rows ++ [nested_row cp e w l]))
                     else copy_chain lookup n (rows ++ [nested_row cp e w l])
                            (copy_path_for cp lh (Meta.naming_hash (v_meta l))) l
        | None => Ok (Some (rows ++ [nested_row cp e w l])) end) = Ok (Some rows') →
        ∃ extra, rows' = rows ++ extra ∧ (NoDup (pr_path <$> rows) → NoDup (pr_path <$> rows')) ∧
          (cp ∈ pr_path <$> rows' ∨ stands cp)).
      { intros w l Hres.
        assert (Hbase : rows' = rows ++ [nested_row cp e w l] ∨ ∃ cp' v',
          copy_chain lookup n (rows ++ [nested_row cp e w l]) cp' v' = Ok (Some rows')).
        { destruct (v_content_hash l); [destruct (bool_decide _)|]; [|by eauto|];
            left; congruence. }
        destruct Hbase as [->|(cp' & v' & Hrec)].
        - eexists. split_and!; [done|by apply planned_snoc_nodup|]. left. apply (planned_snoc_in _ (nested_row cp e w l)).
        - apply IH in Hrec as (extra & -> & Hnd & _). eexists (_ :: extra). split_and!.
          + by rewrite <-(assoc_L (++)).
          + intros Hrows. by apply Hnd, planned_snoc_nodup.
          + left. rewrite fmap_app, elem_of_app. left. apply (planned_snoc_in _ (nested_row cp e w l)). }
      destruct (key_desc _ _); apply Hgo.
  - intros [= <-]. exists [copy_row cp v]. split_and!; [done|by apply planned_snoc_nodup|].
    left. apply (planned_snoc_in _ (copy_row cp v)).
Qed.

(** The name of a loser's copy. *)
Definition copy_name (path : string) (h : hash32) (v : Version) : string :=
  copy_path_for path h (Meta.naming_hash (v_meta v)).

Lemma plan_copies_some path k rows ls rows' :
  plan_copies lookup path k rows ls = Ok (Some rows') →
  ∃ extra, rows' = rows ++ extra ∧
    (NoDup (pr_path <$> rows) → NoDup (pr_path <$> rows')) ∧
    ∀ v h, v ∈ ls → v_content_hash v = Some h → key v ≠ k →
      copy_name path h v ∈ pr_path <$> rows' ∨ stands (copy_name path h v).
Proof.
  revert rows. induction ls as [|v ls IH]; intros rows; simpl.
  { intros [= <-]. exists []. rewrite app_nil_r. split_and!; [done..|].
    intros v h Hv. by apply not_elem_of_nil in Hv. }
  destruct (v_content_hash v) as [h|] eqn:Hh; [destruct (bool_decide _) eqn:Hk|].
  - intros (extra & -> & Hnd & Hls)%IH. exists extra. split_and!; [done..|].
    apply bool_decide_eq_true in Hk.
    intros v' h' [->|Hv']%elem_of_cons Hh' Hk'; [done|by apply Hls].
  - destruct (copy_chain _ _ _ _ _) as [[rows1|]|] eqn:Hcc; simpl; [|done..].
    apply copy_chain_some in Hcc as (extra & -> & Hnd & Hcp).
    intros (extra' & -> & Hnd' & Hls)%IH. exists (extra ++ extra').
    split_and!; [by rewrite (assoc_L (++))|by auto|].
    intros v' h' [->|Hv']%elem_of_cons Hh' Hk'; [|by apply Hls].
    assert (h' = h) as -> by congruence. destruct Hcp as [Hcp|Hcp]; [left|by right].
    rewrite fmap_app, elem_of_app. by left.
  - intros (extra & -> & Hnd & Hls)%IH. exists extra. split_and!; [done..|].
    intros v' h' [->|Hv']%elem_of_cons Hh' Hk'; [congruence|by apply Hls].
Qed.

Lemma copy_chain_fresh n rows cp v :
  lookup cp = Ok None →
  copy_chain lookup (S n) rows cp v =
    Ok (Some (if existsb (λ r, bool_decide (pr_path r = cp)) rows then rows
              else rows ++ [copy_row cp v])).
Proof. intros Hl. unfold copy_chain. rewrite Hl. by destruct (existsb _ _). Qed.

(** With no file at the copy names, every loser adds exactly its own row
    unless the name is planned already. *)
Lemma plan_copies_fresh path k rows ls :
  (∀ p, lookup p = Ok None) →
  ∃ extra, plan_copies lookup path k rows ls = Ok (Some (rows ++ extra)) ∧
    ∀ r, r ∈ extra → ∃ v h, v ∈ ls ∧ v_content_hash v = Some h ∧ key v ≠ k ∧
      r = copy_row (copy_name path h v) v.
Proof.
  intros Hfresh. revert rows. induction ls as [|v ls IH]; intros rows; simpl.
  { exists []. rewrite app_nil_r. split; [done|]. intros r Hr. by apply not_elem_of_nil in Hr. }
  assert (Hskip : ∃ extra, plan_copies lookup path k rows ls = Ok (Some (rows ++ extra)) ∧
    ∀ r, r ∈ extra → ∃ v' h, v' ∈ v :: ls ∧ v_content_hash v' = Some h ∧ key v' ≠ k ∧
      r = copy_row (copy_name path h v') v').
  { destruct (IH rows) as (extra & -> & Hr). exists extra. split; [done|].
    intros r (v' & h & ? & ?)%Hr. exists v', h. split; [by right|done]. }
  destruct (v_content_hash v) as [h|] eqn:Hh; [|done].
  case_bool_decide as Hk; [done|].
  fold (copy_name path h v). change MAX_COPY_DEPTH with 4%nat.
  rewrite copy_chain_fresh by done. simpl. destruct (existsb _ rows); [done|].
  destruct (IH (rows ++ [copy_row (copy_name path h v) v])) as (extra & -> & Hr).
  exists (copy_row (copy_name path h v) v :: extra).
  split; [by rewrite <-(assoc_L (++))|]. intros r [->|Hr']%elem_of_cons.
  - exists v, h. split_and!; [by left|done..].
  - apply Hr in Hr' as (v' & h' & ? & ?). exists v', h'. split; [by right|done].
Qed.
End plan_shape.

Lemma plan_candidates_inv `{!Blake3, !Hex} {E} (lookup : string → result E (option Version))
    path cs rows :
  plan_candidates lookup path cs = Ok (Some rows) →
  ∃ w ls extra, antichain cs = w :: ls ∧ rows = winner_row path cs (w :: ls) w :: extra ∧
    plan_copies lookup path (key w) [winner_row path cs (w :: ls) w] ls = Ok (Some rows) ∧
    NoDup (pr_path <$> rows).
Proof.
  unfold plan_candidates. destruct (antichain cs) as [|w ls] eqn:Ha; [done|].
  intros Hplan. pose proof (plan_copies_some _ _ _ _ _ _ Hplan) as (extra & -> & Hnd & _).
  exists w, ls, extra. split_and!; [done..|]. apply Hnd. apply NoDup_singleton.
Qed.

(** ** Planned rows advance the index *)

Definition meta_opt_typed (o : option Meta) : Prop :=
  match o with Some m => meta_typed m | None => True end.

(** The values a [Version] or [PlannedRow] can hold. *)
Definition version_typed (v : Version) : Prop :=
  in_u32 (v_mode v) ∧ in_u64 (v_size v) ∧ wf (v_vv v) ∧ meta_opt_typed (v_meta v).
Definition planned_typed (r : PlannedRow) : Prop :=
  in_u32 (pr_mode r) ∧ in_u64 (pr_size r) ∧ wf (pr_vv r) ∧ meta_opt_typed (pr_meta r).

Section advances.
Context `{!Blake3, !Hex} {E : Type} (lookup : string → result E (option Version)).
Context (Htyped : ∀ p e, lookup p = Ok (Some e) → version_typed e).

(** A planned row strictly supersedes what the index holds at its path. *)
Definition advances (r : PlannedRow) : Prop :=
  ∀ e, lookup (pr_path r) = Ok (Some e) → lt (v_vv e) (pr_vv r).
Definition row_ok (r : PlannedRow) : Prop := planned_typed r ∧ advances r.

Lemma copy_vv_wf cp : wf (copy_vv cp).
Proof using.
  unfold copy_vv, from_iter. apply from_iter_foldl_spec; [apply wf_empty|].
  apply Forall_singleton. by unfold u64_modulus.
Qed.

Lemma copy_row_typed cp v : version_typed v → planned_typed (copy_row cp v).
Proof using. intros (? & ? & _ & ?). split_and!; try done. apply copy_vv_wf. Qed.

Lemma as_copy_typed cp v : version_typed v → version_typed (as_copy cp v).
Proof using. intros (? & ? & _ & ?). split_and!; try done. apply copy_vv_wf. Qed.

Lemma nested_row_typed cp e w l :
  version_typed e → version_typed w → version_typed l → planned_typed (nested_row cp e w l).
Proof using.
  intros (_ & _ & He & _) (Hwm & Hws & _ & Hwmeta) (Hlm & _ & _ & _).
  unfold nested_row. split_and!; simpl; [|done| |done].
  - case_bool_decide; [|done]. unfold in_u32 in *. lia.
  - apply merge_wf; [done|apply copy_vv_wf].
Qed.

Lemma merge_conc_lt a b : wf a → wf b → concurrent b a → lt a (merge a b).
Proof using.
  intros Ha Hb [Hba _]. split; [by apply merge_le_l|]. intros Hle. apply Hba.
  etrans; [by apply (merge_le_r a b)|done].
Qed.

Lemma copy_chain_advances n rows cp v rows' :
  version_typed v → Forall row_ok rows →
  copy_chain lookup n rows cp v = Ok (Some rows') → Forall row_ok rows'.
Proof using Htyped.
  revert rows cp v. induction n as [|n IH]; intros rows cp v Hv Hrows; [done|].
  unfold copy_chain; fold (copy_chain lookup).
  destruct (existsb _ rows); [congruence|].
  destruct (lookup cp) as [[e|]|] eqn:Hl; simpl; [| |done].
  2:{ intros [= <-]. apply Forall_app. split; [done|]. apply Forall_singleton.
      split; [by apply copy_row_typed|]. intros e. simpl. congruence. }
  pose proof (Htyped _ _ Hl) as He.
  pose proof (compare_cases (copy_vv cp) (v_vv e)) as Hc. destruct (compare _ _); [| congruence..|].
  { intros [= <-]. apply Forall_app. split; [done|]. apply Forall_singleton.
    split; [by apply copy_row_typed|]. intros e'. simpl. intros He'.
    assert (e' = e) as -> by congruence. apply Hc. }
  rewrite nested_pair by by apply vconc_sym.
  assert (Hgo : ∀ w l, version_typed w → version_typed l →
    (match v_content_hash l with
     | Some lh => if bool_decide (key l = key w) then Ok (Some (rows ++ [nested_row cp e w l]))
                  else copy_chain lookup n (rows ++ [nested_row cp e w l])
                         (copy_path_for cp lh (Meta.naming_hash (v_meta l))) l
     | None => Ok (Some (rows ++ [nested_row cp e w l])) end) = Ok (Some rows') →
    Forall row_ok rows').
  { intros w l Hw Hlt. assert (Hok : Forall row_ok (rows ++ [nested_row cp e w l])).
    { apply Forall_app. split; [done|]. apply Forall_singleton.
      split; [by apply nested_row_typed|]. intros e'. simpl. intros He'.
      assert (e' = e) as -> by congruence. apply merge_conc_lt; [apply He|apply copy_vv_wf|apply Hc]. }
    destruct (v_content_hash l); [destruct (bool_decide _)|]; [congruence| |congruence].
    by apply IH. }
  destruct (key_desc _ _); apply Hgo; auto using as_copy_typed.
Qed.

Lemma plan_copies_advances path k rows ls rows' :
  Forall version_typed ls → Forall row_ok rows →
  plan_copies lookup path k rows ls = Ok (Some rows') → Forall row_ok rows'.
Proof using Htyped.
  intros Hls. revert rows. induction Hls as [|v ls Hv Hls IH]; intros rows Hrows; simpl.
  { congruence. }
  destruct (v_content_hash v); [destruct (bool_decide _)|]; [by apply IH| |by apply IH].
  destruct (copy_chain _ _ _ _ _) as [[rows1|]|] eqn:Hcc; simpl; [|done..].
  apply IH. by eapply copy_chain_advances.
Qed.

Lemma iter_max_elem (l : list Z) d : default d (iter_max l) = d ∨ default d (iter_max l) ∈ l.
Proof using.
  destruct (iter_max l) as [m|] eqn:Hm; [right|by left]. by apply iter_max_spec in Hm as [? _].
Qed.

Lemma winner_row_typed path cs M w :
  Forall version_typed cs → Forall version_typed M → w ∈ M →
  planned_typed (winner_row path cs M w).
Proof using.
  rewrite !Forall_forall. intros Hcs HM Hw. destruct (HM w Hw) as (Hm & Hs & _ & Hmeta).
  unfold winner_row. split_and!; simpl.
  - destruct (v_tombstone w); [by unfold in_u32, u32_modulus|].
    destruct (iter_max_elem (v_mode <$> equal_key M w) (v_mode w)) as [->|Hin]; [done|].
    apply list_elem_of_fmap in Hin as (v & -> & [_ Hv]%list_elem_of_filter). by apply HM.
  - by destruct (v_tombstone w).
  - apply join_vvs_spec, Forall_forall. intros c Hc. by apply Hcs.
  - by destruct (v_tombstone w).
Qed.

(** All planned rows but the winner's advance; the winner does when the index
    row at the path is strictly below the join of the candidates. *)
Lemma plan_candidates_advances path cs rows :
  Forall version_typed cs →
  (∀ e, lookup path = Ok (Some e) → lt (v_vv e) (join_vvs cs)) →
  plan_candidates lookup path cs = Ok (Some rows) → Forall row_ok rows.
Proof using Htyped.
  intros Hcs Hpath (w & ls & extra & Ha & -> & Hplan & _)%plan_candidates_inv.
  assert (HM : Forall version_typed (w :: ls)).
  { rewrite Forall_forall in Hcs |- *. intros v. rewrite <-Ha, elem_of_antichain.
    intros Hv. apply Hcs. by apply (keeps_sub _ _ (keeps_maximal cs)). }
  eapply plan_copies_advances; [|apply Forall_singleton|exact Hplan].
  - by apply Forall_cons in HM as [_ ?].
  - split; [apply winner_row_typed; [done..|by left]|]. intros e. simpl. apply Hpath.
Qed.
End advances.

Section plan_total.
Context `{!Blake3, !Hex} {E : Type} (lookup : string → result E (option Version)).
Context (Htotal : ∀ p, ∃ o, lookup p = Ok o).

Lemma copy_chain_total n rows cp v : ∃ o, copy_chain lookup n rows cp v = Ok o.
Proof using Htotal.
  revert rows cp v. induction n as [|n IH]; intros rows cp v; [by eexists|].
  unfold copy_chain; fold (copy_chain lookup). destruct (existsb _ rows); [eauto|].
  destruct (Htotal cp) as [[e|] ->]; simpl; [|eauto].
  destruct (compare _ _); [eauto..|].
  destruct (antichain _) as [|w [|l ?]]; [eauto..|].
  destruct (v_content_hash l); [destruct (bool_decide _)|]; eauto.
Qed.

Lemma plan_candidates_total path cs : ∃ o, plan_candidates lookup path cs = Ok o.
Proof using Htotal.
  unfold plan_candidates. destruct (antichain cs) as [|w ls]; [eauto|].
  generalize [winner_row path cs (w :: ls) w]. generalize (key w). clear w.
  induction ls as [|v ls IH]; intros k rows; simpl; [eauto|].
  destruct (v_content_hash v); [destruct (bool_decide _)|]; [auto| |auto].
  edestruct copy_chain_total as [[rows'|] ->]; simpl; eauto.
Qed.
End plan_total.

(** ** Main properties *)

Lemma mx_set_ext cs cs' : (∀ v, v ∈ cs ↔ v ∈ cs') → ∀ v, mx cs v ↔ mx cs' v.
Proof. intros Hset v. unfold mx. setoid_rewrite Hset. done. Qed.

Lemma mx_superseded d c cs : c ∈ cs → vlt d c → ∀ v, mx (d :: cs) v ↔ mx cs v.
Proof.
  intros Hc Hdc v. unfold mx. split.
  - intros [[->|Hv]%elem_of_cons Hmax].
    + destruct (Hmax c); [by right|done].
    + split; [done|]. intros c' Hc'. apply Hmax. by right.
  - intros [Hv Hmax]. split; [by right|]. intros c' [->|Hc']%elem_of_cons; [|by apply Hmax].
    intros Hlt. apply (Hmax c Hc). by eapply lt_trans.
Qed.

(** What holds of a set of versions one path can have: well-formed vectors,
    one version per causal history, one content and snapshot per key. *)
Record candidates_ok (cs : list Version) : Prop := {
  cok_wf : Forall (λ c, wf (v_vv c)) cs;
  cok_coherent : coherent cs;
  cok_agree : agree cs;
}.

Lemma candidates_ok_sub cs cs' :
  (∀ v, v ∈ cs' → v ∈ cs) → candidates_ok cs → candidates_ok cs'.
Proof.
  intros Hsub [Hwf Hcoh Hag]. rewrite Forall_forall in Hwf. split.
  - apply Forall_forall. auto.
  - intros v w ??. apply Hcoh; auto.
  - intros v w ??. apply Hag; auto.
Qed.

Lemma agree_mode_sub cs cs' : (∀ v, v ∈ cs' → v ∈ cs) → agree_mode cs → agree_mode cs'.
Proof. intros Hsub Hm v w ??. apply Hm; auto. Qed.

Lemma plan_ext `{!Blake3, !Hex} {E} (lookup : string → result E (option Version)) path cs cs' :
  candidates_ok (cs ++ cs') → agree_mode (cs ++ cs') → (∀ v, mx cs v ↔ mx cs' v) →
  plan_candidates lookup path cs = plan_candidates lookup path cs'.
Proof. intros [Hwf Hcoh Hag] Hm Hmx. by apply ext_plan. Qed.

Lemma tombstone_key_le v w : ord_le (key v) (key w) → v_tombstone w = true → v_tombstone v = true.
Proof.
  destruct v as [[] ???????], w as [[] ???????]; try done.
Qed.

(** The reduction keeps exactly the candidates no other candidate
    causally supersedes, each once, largest key first, pairwise concurrent. *)
Theorem antichain_exact (cs : list Version) :
  coherent cs →
  (∀ v, v ∈ antichain cs ↔ mx cs v) ∧
  NoDup (antichain cs) ∧
  (∀ v w, v ∈ antichain cs → w ∈ antichain cs → v = w ∨ vconc v w) ∧
  StronglySorted (λ v w, ord_le (key w) (key v)) (antichain cs).
Proof.
  intros Hcoh. split_and!.
  - intros v. rewrite elem_of_antichain. split; [apply maximal_mx|by apply mx_maximal].
  - rewrite antichain_perm. apply NoDup_maximal.
  - intros v w. rewrite !elem_of_antichain. apply anti_pair, (keeps_anti cs), keeps_maximal.
  - apply antichain_sorted.
Qed.

Section plan_properties.
Context `{!Blake3, !Hex} {E : Type} (lookup : string → result E (option Version)).

(** Confluence. The plan is a function of the candidate set: two nodes
    that list the same versions in different orders, with repetitions or
    without, plan the same rows at the same paths with the same vectors. *)
Theorem plan_confluent (path : string) (cs cs' : list Version) :
  candidates_ok cs → agree_mode cs → (∀ v, v ∈ cs ↔ v ∈ cs') →
  plan_candidates lookup path cs = plan_candidates lookup path cs'.
Proof.
  intros Hok Hm Hset. assert (Hsub : ∀ v, v ∈ cs ++ cs' → v ∈ cs).
  { intros v. rewrite elem_of_app, <-Hset. tauto. }
  apply plan_ext; [by eapply candidates_ok_sub|by eapply agree_mode_sub|by apply mx_set_ext].
Qed.

(** A superseded candidate has no influence. Adding a version that some
    candidate already dominates changes no planned row, so a node that still
    holds an old version resolves as one that dropped it. *)
Theorem plan_superseded_irrelevant (path : string) (d c : Version) (cs : list Version) :
  candidates_ok (d :: cs) → agree_mode (d :: cs) → c ∈ cs → vlt d c →
  plan_candidates lookup path (d :: cs) = plan_candidates lookup path cs.
Proof.
  intros Hok Hm Hc Hdc. assert (Hsub : ∀ v, v ∈ (d :: cs) ++ cs → v ∈ d :: cs).
  { intros v. rewrite elem_of_app, elem_of_cons. tauto. }
  apply plan_ext; [by eapply candidates_ok_sub|by eapply agree_mode_sub|].
  by eapply mx_superseded.
Qed.

(** The winner row. Of the causally maximal candidates the row planned
    at the path has the largest key; it is a deletion only if every maximal
    candidate is one (a modification beats a concurrent delete); its vector
    is the least upper bound of all candidates, so it dominates every
    contender but those that already equal it. *)
Theorem plan_winner_correct (path : string) (cs : list Version) r rows :
  Forall (λ c, wf (v_vv c)) cs →
  plan_candidates lookup path cs = Ok (Some (r :: rows)) →
  (∃ w, mx cs w ∧ (∀ v, v ∈ maximal cs → ord_le (key v) (key w)) ∧
     pr_content_hash r = v_content_hash w ∧ pr_tombstone r = v_tombstone w) ∧
  pr_path r = path ∧
  (pr_tombstone r = true ↔ ∀ v, v ∈ maximal cs → v_tombstone v = true) ∧
  wf (pr_vv r) ∧ (∀ c, c ∈ cs → le (v_vv c) (pr_vv r)) ∧
  (∀ u, wf u → (∀ c, c ∈ cs → le (v_vv c) u) → le (pr_vv r) u).
Proof.
  intros Hwf (w & ls & extra & Ha & [= -> _] & _)%plan_candidates_inv.
  assert (Hw : w ∈ maximal cs) by (apply elem_of_antichain; rewrite Ha; by left).
  destruct (join_vvs_spec cs Hwf) as (Hj1 & Hj2 & Hj3). split_and!; [|done| |done..].
  - exists w. split_and!; [by apply maximal_mx| |done..].
    intros v Hv. by eapply antichain_head_max.
  - simpl. split; [|by auto]. intros Ht v Hv.
    eapply tombstone_key_le; [|exact Ht]. by eapply antichain_head_max.
Qed.

(** The copy tag separates the contents of the candidates: the truncated
    digest of (content, durable metadata) does not collide on them. *)
Definition tags_separate (cs : list Version) : Prop :=
  ∀ v w h h', v ∈ cs → w ∈ cs → v_content_hash v = Some h → v_content_hash w = Some h' →
  copy_tag h (Meta.naming_hash (v_meta v)) = copy_tag h' (Meta.naming_hash (v_meta w)) →
  h = h' ∧ Meta.naming_hash (v_meta v) = Meta.naming_hash (v_meta w).

(** C28: No content is silently lost. When no file occupies the derived
    names, resolution succeeds and every losing content that differs from the
    winner is committed live at its own conflict-copy path, with its content
    and its durable metadata; all planned paths are distinct. *)
Theorem plan_no_silent_loss (path : string) (cs : list Version) :
  cs ≠ [] → tags_separate cs → (∀ p, lookup p = Ok None) →
  ∃ w r rows, plan_candidates lookup path cs = Ok (Some (r :: rows)) ∧
    pr_path r = path ∧ pr_content_hash r = v_content_hash w ∧ w ∈ cs ∧
    NoDup (pr_path <$> r :: rows) ∧
    ∀ v h, v ∈ maximal cs → v_content_hash v = Some h → key v ≠ key w →
      ∃ c, c ∈ rows ∧ pr_path c = copy_name path h v ∧
        pr_content_hash c = Some h ∧ pr_tombstone c = false ∧
        Meta.naming_hash (pr_meta c) = Meta.naming_hash (v_meta v).
Proof.
  intros Hne Hsep Hfresh. destruct (antichain cs) as [|w ls] eqn:Ha.
  { by apply (proj1 (antichain_nil cs)) in Ha. }
  assert (Hcs : ∀ v, v ∈ w :: ls → v ∈ cs).
  { intros v. rewrite <-Ha, elem_of_antichain. apply (keeps_sub _ _ (keeps_maximal cs)). }
  destruct (plan_copies_fresh lookup path (key w) [winner_row path cs (w :: ls) w] ls Hfresh)
    as (extra & Hplan & Hextra).
  pose proof (plan_copies_some _ _ _ _ _ _ Hplan) as (extra' & Heq & Hnd & Hnames).
  exists w, (winner_row path cs (w :: ls) w), extra. split_and!.
  - unfold plan_candidates. by rewrite Ha.
  - done.
  - done.
  - apply Hcs. by left.
  - apply Hnd, NoDup_singleton.
  - intros v h Hv Hh Hk. apply elem_of_antichain in Hv. rewrite Ha in Hv.
    assert (Hvl : v ∈ ls) by (apply elem_of_cons in Hv as [->|]; done).
    destruct (Hnames v h Hvl Hh Hk) as [Hin|(e & He & _)]; [|by rewrite Hfresh in He].
    apply list_elem_of_fmap in Hin as (c & Hpath & [->|Hc]%elem_of_cons).
    { by destruct (copy_path_ne path h (Meta.naming_hash (v_meta v))). }
    exists c. destruct (Hextra c Hc) as (v' & h' & Hv' & Hh' & _ & ->). simpl in *.
    apply copy_path_tag_inj in Hpath.
    destruct (Hsep v v' h h') as [<- Hnm]; [by apply Hcs; right..|done|done|done|].
    split_and!; [done|by unfold copy_name; rewrite Hnm|done..].
Qed.

(** Whatever occupies the derived names, a resolution that completes
    plans distinct paths and leaves, for every losing content, a row at its
    conflict-copy path: planned now, or standing there from an earlier
    derivation. *)
Theorem plan_copies_named (path : string) (cs : list Version) r rows :
  plan_candidates lookup path cs = Ok (Some (r :: rows)) →
  pr_path r = path ∧ NoDup (pr_path <$> r :: rows) ∧
  ∃ w, w ∈ maximal cs ∧ pr_content_hash r = v_content_hash w ∧
    ∀ v h, v ∈ maximal cs → v_content_hash v = Some h → key v ≠ key w →
      copy_name path h v ∈ pr_path <$> rows ∨ stands lookup (copy_name path h v).
Proof.
  intros (w & ls & extra & Ha & [= -> ->] & Hplan & Hnd)%plan_candidates_inv.
  pose proof (plan_copies_some _ _ _ _ _ _ Hplan) as (extra' & _ & _ & Hnames).
  split_and!; [done..|]. exists w. split_and!.
  - apply elem_of_antichain. rewrite Ha. by left.
  - done.
  - intros v h Hv Hh Hk. apply elem_of_antichain in Hv. rewrite Ha in Hv.
    assert (Hvl : v ∈ ls) by (apply elem_of_cons in Hv as [->|]; done).
    destruct (Hnames v h Hvl Hh Hk) as [Hin|?]; [|by right]. left.
    rewrite fmap_cons, elem_of_cons in Hin. destruct Hin as [Hin|]; [|done].
    by destruct (copy_path_ne path h (Meta.naming_hash (v_meta v))).
Qed.
End plan_properties.

(** ** Witnesses *)

Lemma pairwise_elem {A} (P : A → A → Prop) (l : list A) :
  Forall (λ v, Forall (P v) l) l → ∀ v w, v ∈ l → w ∈ l → P v w.
Proof.
  rewrite Forall_forall. intros H v w Hv Hw. specialize (H v Hv).
  rewrite Forall_forall in H. by apply H.
Qed.

#[local] Instance vle_dec v w : Decision (vle v w).
Proof. unfold vle. apply _. Defined.
#[local] Instance wf_dec u : Decision (wf u).
Proof. unfold wf. apply _. Defined.

Ltac check_pairwise :=
  match goal with
  | |- candidates_ok _ => split; [vm_decide|check_pairwise..]
  | |- coherent ?l => refine (pairwise_elem _ l _); vm_decide
  | |- agree ?l => refine (pairwise_elem _ l _); vm_decide
  | |- agree_mode ?l => refine (pairwise_elem _ l _); vm_decide
  end.

Module Ex.
#[export] Existing Instance toy_blake3.
#[export] Instance ex_hex : Hex := toy_hex.

Definition h1 : hash32 := fill 32 x01.
Definition h2 : hash32 := fill 32 x02.
Definition meta_h : hash32 := fill 32 x09.

(** Two concurrent edits, an older version both have seen, and a delete. *)
Definition edit_a : Version :=
  mkVersion false (Some h1) meta_h (Some (ex_meta 420 7)) 420 5 {[ node_a := 2 ]} None.
Definition edit_b : Version :=
  mkVersion false (Some h2) meta_h (Some (ex_meta 420 9)) 420 6 {[ node_a := 1; node_b := 1 ]} None.
Definition base_v : Version :=
  mkVersion false (Some h1) (fill 32 x08) (Some (ex_meta 384 1)) 384 4 {[ node_a := 1 ]} None.
Definition gone_b : Version :=
  mkVersion true None META_NONE None 0 0 {[ node_b := 2 ]} None.

Definition no_file (p : string) : result unit (option Version) := Ok None.
End Ex.
Import Ex.

Lemma antichain_exact_witness :
  edit_a ∈ antichain [base_v; edit_b; edit_a] ∧ base_v ∉ antichain [base_v; edit_b; edit_a].
Proof.
  assert (Hcoh : coherent [base_v; edit_b; edit_a]) by check_pairwise.
  destruct (antichain_exact _ Hcoh) as (Hmx & _). rewrite !Hmx. split.
  - apply Hmx. vm_decide.
  - intros [_ Hmax]. apply (Hmax edit_a); [set_solver|]. split; vm_decide.
Defined.

Lemma plan_confluent_witness :
  plan_candidates no_file "d/f.txt" [edit_a; base_v; edit_b] =
  plan_candidates no_file "d/f.txt" [edit_b; edit_a; base_v; edit_a].
Proof. apply plan_confluent; [check_pairwise..|set_solver]. Defined.

Lemma plan_superseded_irrelevant_witness :
  plan_candidates no_file "d/f.txt" [base_v; edit_a; edit_b] =
  plan_candidates no_file "d/f.txt" [edit_a; edit_b].
Proof.
  apply (plan_superseded_irrelevant _ _ _ edit_a); [check_pairwise..|set_solver|].
  split; vm_decide.
Defined.

Definition ex_plan : list PlannedRow :=
  match plan_candidates no_file "d/f.txt" [gone_b; edit_a; edit_b] with
  | Ok (Some rows) => rows
  | _ => []
  end.
Definition ex_winner : PlannedRow := default (copy_row "" edit_a) (head ex_plan).

Lemma plan_winner_correct_witness :
  pr_tombstone ex_winner = false ∧ le (v_vv gone_b) (pr_vv ex_winner) ∧
  le (v_vv edit_a) (pr_vv ex_winner).
Proof.
  destruct (plan_winner_correct no_file "d/f.txt" [gone_b; edit_a; edit_b]
    ex_winner (tail ex_plan)) as (_ & _ & _ & _ & Hub & _); [vm_decide|vm_decide|].
  split; [vm_decide|]. split; apply Hub; set_solver.
Defined.

Lemma plan_no_silent_loss_witness :
  ∃ rows, plan_candidates no_file "d/f.txt" [edit_a; edit_b] = Ok (Some rows) ∧
  NoDup (pr_path <$> rows).
Proof.
  destruct (plan_no_silent_loss no_file "d/f.txt" [edit_a; edit_b])
    as (w & r & rows & Hplan & _ & _ & _ & Hnd & _).
  - done.
  - intros v w h h' Hv Hw Hh Hh' Htag.
    apply elem_of_cons in Hv as [->| ->%list_elem_of_singleton];
    apply elem_of_cons in Hw as [->| ->%list_elem_of_singleton];
      injection Hh as <-; injection Hh' as <-; split; try done; vm_compute in Htag; discriminate.
  - done.
  - exists (r :: rows). exact (conj Hplan Hnd).
Defined.

Lemma plan_copies_named_witness :
  copy_name "d/f.txt" h1 edit_a ∈ pr_path <$> tail ex_plan.
Proof.
  destruct (plan_copies_named no_file "d/f.txt" [gone_b; edit_a; edit_b]
    ex_winner (tail ex_plan)) as (_ & _ & w & Hw & Hwc & Hnames); [vm_decide|].
  destruct (Hnames edit_a h1) as [Hin|(e & He & _)]; [| | |done|discriminate He].
  - vm_decide.
  - done.
  - intros Hk%(f_equal (λ k, k.1.2)). simpl in Hk.
    assert (v_content_hash w = Some h2) as Hw2 by (rewrite <-Hwc; vm_decide).
    rewrite Hw2 in Hk. revert Hk. vm_decide.
Defined.

(** ** What the plan does not normalise *)

(** Two losers without metadata snapshot that tie on the key but carry
    different permission bits: the copy takes the bits of whichever is listed
    first, so the plan of one and the same candidate set depends on its
    order (the winner row, by contrast, takes the maximum). *)
Definition loser (mode : Z) (n : NodeId) : Version :=
  mkVersion false (Some h1) META_NONE None mode 5 {[ n := 1 ]} None.
Definition winner_c : Version :=
  mkVersion false (Some h2) META_NONE None 420 5 {[ fill 16 x0c := 1 ]} None.

Theorem copy_mode_order_dependent :
  plan_candidates no_file "f" [winner_c; loser 420 node_a; loser 384 node_b] ≠
  plan_candidates no_file "f" [winner_c; loser 384 node_b; loser 420 node_a].
Proof. vm_decide. Qed.

(** A live losing version without content hash (a FIFO, socket or device
    node) is planned no conflict copy. *)
Definition fifo_v : Version :=
  mkVersion false None meta_h (Some (mkMeta FileKind.Fifo 420 0 0 0 0 None 0 [])) 420 0
    {[ node_a := 1 ]} None.

Theorem special_loser_not_copied :
  fifo_v ∈ antichain [fifo_v; winner_c] ∧ v_tombstone fifo_v = false ∧
  key fifo_v ≠ key winner_c ∧
  plan_candidates no_file "f" [fifo_v; winner_c] =
    Ok (Some [winner_row "f" [fifo_v; winner_c] [winner_c; fifo_v] winner_c]).
Proof. vm_decide. Qed.
