(* ===== verification/State.v ===== *)
(** * The materialized index (src/src/state.rs)

    The SQLite database as the store thread sees it: tables of raw columns
    (blobs, 64-bit integers), and the row-level operations over [files] and
    the manifest tables. Every read goes through the decoders, so a row is
    what its blobs decode to; the theorems show that rows written by this
    code read back unchanged and that a partially persisted manifest is
    reported absent and repaired by persisting it again. *)

From S2P Require Import Prelude Vv Decide Metadata Conflict ConflictProofs.
Import VersionVector.

Module StoreError.
Inductive t : Type :=
| Sqlite
| VvCodec
| Corrupt (what : string)
| Gone.
End StoreError.
Abbreviation StoreError := StoreError.t.

#[export] Instance store_error_eq_dec : EqDecision StoreError.
Proof. solve_decision. Defined.

Abbreviation blob := (list byte).

(** A row of [files], column by column; the key column [path] is the map's
    key. *)
Record FilesCols : Type := mkFilesCols {
  fc_content_hash : option blob;
  fc_mode : Z;
  fc_size : Z;
  fc_vv : blob;
  fc_tombstone : Z;
  fc_uuid : option blob;
  fc_meta : option blob;
}.

#[export] Instance files_cols_eq_dec : EqDecision FilesCols.
Proof. solve_decision. Defined.

(** A row of [oplog] without the rowid: rows are kept in [seq] order. *)
Record OplogCols : Type := mkOplogCols {
  oc_op_id : blob;
  oc_origin : blob;
  oc_origin_seq : Z;
  oc_op_type : Z;
  oc_path : string;
  oc_path_old : option string;
  oc_uuid : option blob;
  oc_mode : Z;
  oc_size : Z;
  oc_content_hash : option blob;
  oc_vv : blob;
  oc_meta : option blob;
}.

#[export] Instance oplog_cols_eq_dec : EqDecision OplogCols.
Proof. solve_decision. Defined.

(** A row of [peer_cursors]. *)
Record CursorCols : Type := mkCursorCols {
  cc_recv_cursor : Z;
  cc_last_acked_seq : Z;
}.

#[export] Instance cursor_cols_eq_dec : EqDecision CursorCols.
Proof. solve_decision. Defined.

(** A row of the legacy [peers] table. *)
Record PeersCols : Type := mkPeersCols {
  pc_last_sent_seq : Z;
  pc_last_acked_seq : Z;
  pc_recv_cursor : Z;
}.

#[export] Instance peers_cols_eq_dec : EqDecision PeersCols.
Proof. solve_decision. Defined.

(** The database: one field per table of [Store::open]'s schema. *)
Record Conn : Type := mkConn {
  t_oplog : list OplogCols;
  t_files : gmap string FilesCols;
  t_peers : gmap blob PeersCols;
  t_applied : gset blob;
  t_manifests : gmap blob Z;
  t_manifest_chunks : gmap (blob * Z) (blob * Z);
  t_peer_cursors : gmap (blob * blob) CursorCols;
  t_meta : gmap string string;
}.

#[export] Instance conn_eq_dec : EqDecision Conn.
Proof. solve_decision. Defined.

Definition set_files (f : gmap string FilesCols → gmap string FilesCols) (c : Conn) : Conn :=
  mkConn (t_oplog c) (f (t_files c)) (t_peers c) (t_applied c) (t_manifests c)
    (t_manifest_chunks c) (t_peer_cursors c) (t_meta c).
Definition set_manifests (m : gmap blob Z) (k : gmap (blob * Z) (blob * Z)) (c : Conn) : Conn :=
  mkConn (t_oplog c) (t_files c) (t_peers c) (t_applied c) m k (t_peer_cursors c) (t_meta c).

(** SQLite returns the rows of a [SELECT] without [ORDER BY] in an order of
    its own: some permutation of the table. *)
Class Scan := scan : gmap string FilesCols → list (string * FilesCols).
Class ScanLaws `{!Scan} : Prop := scan_perm m : scan m ≡ₚ map_to_list m.

Definition path_scan : Scan := btree_iter.

(** [state::LiveFile] *)
Record LiveFile : Type := mkLiveFile {
  lv_path : string;
  lv_content_hash : option hash32;
  lv_mode : Z;
  lv_size : Z;
}.

(** [proto::ChunkEntry] and [chunk::Manifest] *)
Record ChunkEntry : Type := mkChunkEntry { ce_hash : hash32; ce_len : Z }.
Record Manifest : Type := mkManifest {
  mf_content_hash : hash32;
  mf_chunks : list ChunkEntry;
}.

#[export] Instance chunk_entry_eq_dec : EqDecision ChunkEntry.
Proof. solve_decision. Defined.
#[export] Instance manifest_eq_dec : EqDecision Manifest.
Proof. solve_decision. Defined.

Module State.
Section with_externals.
Context `{!Blake3, !Bincode}.

(** [bincode::serialize] of these types into a [Vec] has no failing case. *)
Definition encode_vv (vv : VV) : result StoreError blob := Ok (ser_vv vv).
Definition decode_vv (b : blob) : result StoreError VV := ok_or StoreError.VvCodec (de_vv b).
Definition encode_meta (meta : option Meta) : result StoreError (option blob) :=
  traverse_opt (λ m, Ok (ser_meta m)) meta.
Definition decode_meta (b : option blob) : result StoreError (option Meta) :=
  traverse_opt (λ b, ok_or StoreError.VvCodec (de_meta b)) b.

Definition blob32 (b : blob) (what : string) : result StoreError hash32 :=
  ok_or (StoreError.Corrupt what) (array_of_list 32 b).
Definition blob16 (b : blob) (what : string) : result StoreError uuid16 :=
  ok_or (StoreError.Corrupt what) (array_of_list 16 b).

(** A [bool] column: stored as 0 or 1, read as non-zero. *)
Definition bool_col (b : bool) : Z := if b then 1 else 0.
Definition col_bool (z : Z) : bool := bool_decide (z ≠ 0).

Definition load_file (conn : Conn) (path : string) : result StoreError (option LocalFile) :=
  traverse_opt (λ r,
    vv ← decode_vv (fc_vv r);
    hash ← traverse_opt (λ h, blob32 h "files.content_hash") (fc_content_hash r);
    Ok (mkLocalFile vv (col_bool (fc_tombstone r)) hash (as_u32 (fc_mode r))))
    (t_files conn !! path).

(** The row a cursor over all columns yields, shared by [load_row] and
    [all_files]. *)
Definition row_of_cols (path : string) (r : FilesCols) : result StoreError FileRow :=
  hash ← traverse_opt (λ h, blob32 h "files.content_hash") (fc_content_hash r);
  vv ← decode_vv (fc_vv r);
  uuid ← traverse_opt (λ u, blob16 u "files.uuid") (fc_uuid r);
  meta ← decode_meta (fc_meta r);
  Ok (mkFileRow path hash (as_u32 (fc_mode r)) (as_u64 (fc_size r))
        (col_bool (fc_tombstone r)) vv uuid meta).

Definition load_row (conn : Conn) (path : string) : result StoreError (option FileRow) :=
  traverse_opt (row_of_cols path) (t_files conn !! path).

Definition upsert_file (conn : Conn) (path : string) (content_hash : option hash32)
    (mode size : Z) (vv : VV) (tombstone : bool) (uuid : option uuid16) (meta : option Meta)
  : result StoreError Conn :=
  vv_blob ← encode_vv vv;
  meta_blob ← encode_meta meta;
  Ok (set_files (insert path (mkFilesCols (ba_list <$> content_hash) (as_i64 mode)
        (as_i64 size) vv_blob (bool_col tombstone) (ba_list <$> uuid) meta_blob)) conn).

Definition live_files `{!Scan} (conn : Conn) : result StoreError (list LiveFile) :=
  traverse_list (λ '(path, r),
    hash ← traverse_opt (λ h, blob32 h "files.content_hash") (fc_content_hash r);
    Ok (mkLiveFile path hash (as_u32 (fc_mode r)) (as_u64 (fc_size r))))
    (filter (λ pr, fc_tombstone pr.2 = 0) (scan (t_files conn))).

Definition all_files (conn : Conn) : result StoreError (list FileRow) :=
  traverse_list (λ '(path, r), row_of_cols path r) (btree_iter (t_files conn)).

Definition set_uuid (u : uuid16) (r : FilesCols) : FilesCols :=
  mkFilesCols (fc_content_hash r) (fc_mode r) (fc_size r) (fc_vv r) (fc_tombstone r)
    (Some (ba_list u)) (fc_meta r).

Definition backfill_uuids `{!Scan} (conn : Conn) (mint : string → uuid16) : Conn :=
  let paths := (filter (λ pr, fc_uuid pr.2 = None) (scan (t_files conn))).*1 in
  foldl (λ c path, set_files (alter (set_uuid (mint path)) path) c) conn paths.

(** [INSERT OR IGNORE] into a table keyed by [k]. *)
Definition insert_or_ignore {K A} `{Countable K} (k : K) (a : A) (m : gmap K A) : gmap K A :=
  match m !! k with Some _ => m | None => <[k := a]> m end.

Fixpoint put_chunks (h : blob) (idx : Z) (cs : list ChunkEntry)
    (m : gmap (blob * Z) (blob * Z)) : gmap (blob * Z) (blob * Z) :=
  match cs with
  | [] => m
  | c :: cs =>
      put_chunks h (idx + 1) cs
        (insert_or_ignore (h, idx) (ba_list (ce_hash c), as_i64 (ce_len c)) m)
  end.

Definition put_manifest (conn : Conn) (m : Manifest) : Conn :=
  let h := ba_list (mf_content_hash m) in
  set_manifests
    (insert_or_ignore h (as_i64 (Z.of_nat (length (mf_chunks m)))) (t_manifests conn))
    (put_chunks h 0 (mf_chunks m) (t_manifest_chunks conn)) conn.

(** [SELECT ... WHERE content_hash = ?1 ORDER BY idx] *)
Definition chunk_rows (conn : Conn) (h : blob) : list (Z * (blob * Z)) :=
  sort_by (λ a b, bool_decide (a.1 ≤ b.1))
    (omap (λ '((h', idx), r), if decide (h' = h) then Some (idx, r) else None)
       (map_to_list (t_manifest_chunks conn))).

Definition chunk_of_cols (r : blob * Z) : result StoreError ChunkEntry :=
  hash ← blob32 r.1 "manifest_chunks.chunk_hash"; Ok (mkChunkEntry hash (as_u32 r.2)).

Definition manifest_for (conn : Conn) (content_hash : hash32)
  : result StoreError (option Manifest) :=
  match t_manifests conn !! ba_list content_hash with
  | None => Ok None
  | Some count =>
      chunks ← traverse_list (λ r, chunk_of_cols r.2) (chunk_rows conn (ba_list content_hash));
      if bool_decide (as_i64 (Z.of_nat (length chunks)) ≠ count) then Ok None
      else Ok (Some (mkManifest content_hash chunks))
  end.

Definition path_for_hash `{!Scan} (conn : Conn) (hash : hash32) : option string :=
  fst <$> head (filter (λ pr, fc_content_hash pr.2 = Some (ba_list hash) ∧ fc_tombstone pr.2 = 0)
                 (scan (t_files conn))).
End with_externals.
End State.


(** ** Rows as the code writes them *)

Definition row_typed (r : FileRow) : Prop :=
  in_u32 (fr_mode r) ∧ in_u64 (fr_size r) ∧ wf (fr_vv r) ∧
  match fr_meta r with Some m => meta_typed m | None => True end.

Definition local_of (r : FileRow) : LocalFile :=
  mkLocalFile (fr_vv r) (fr_tombstone r) (fr_content_hash r) (fr_mode r).

Lemma fr_eta r :
  mkFileRow (fr_path r) (fr_content_hash r) (fr_mode r) (fr_size r) (fr_tombstone r)
    (fr_vv r) (fr_uuid r) (fr_meta r) = r.
Proof. by destruct r. Qed.

Lemma col_bool_col b : State.col_bool (State.bool_col b) = b.
Proof. by destruct b. Qed.

Section rows.
Context `{!Blake3, !Bincode}.
Import State.

Definition enc_row (r : FileRow) : FilesCols :=
  mkFilesCols (ba_list <$> fr_content_hash r) (as_i64 (fr_mode r)) (as_i64 (fr_size r))
    (ser_vv (fr_vv r)) (bool_col (fr_tombstone r)) (ba_list <$> fr_uuid r)
    (ser_meta <$> fr_meta r).

Definition put_row (r : FileRow) (c : Conn) : Conn :=
  set_files (insert (fr_path r) (enc_row r)) c.

(** Every stored row is one the code wrote. *)
Definition files_wf (c : Conn) : Prop :=
  map_Forall (λ p r, ∃ row, row_typed row ∧ fr_path row = p ∧ r = enc_row row) (t_files c).

Lemma upsert_file_row c row :
  upsert_file c (fr_path row) (fr_content_hash row) (fr_mode row) (fr_size row) (fr_vv row)
    (fr_tombstone row) (fr_uuid row) (fr_meta row) = Ok (put_row row c).
Proof. unfold upsert_file, put_row, enc_row. by destruct (fr_meta row). Qed.

Lemma files_wf_put row c : row_typed row → files_wf c → files_wf (put_row row c).
Proof. intros Hr Hc. apply map_Forall_insert_2; [by exists row|done]. Qed.

Context `{!BincodeLaws}.

Lemma array_opt_some n (o : option (barray n)) (e : StoreError) :
  traverse_opt (λ b, ok_or e (array_of_list n b)) (ba_list <$> o) = Ok o.
Proof using. destruct o as [h|]; [|done]. simpl. by rewrite array_of_list_ba. Qed.
Lemma blob32_some (o : option hash32) what :
  traverse_opt (λ h, blob32 h what) (ba_list <$> o) = Ok o.
Proof using. apply array_opt_some. Qed.
Lemma blob16_some (o : option uuid16) what :
  traverse_opt (λ h, blob16 h what) (ba_list <$> o) = Ok o.
Proof using. apply array_opt_some. Qed.
Lemma decode_encode_vv vv : wf vv → decode_vv (ser_vv vv) = Ok vv.
Proof. intros. unfold decode_vv. by rewrite de_ser_vv. Qed.
Lemma decode_encode_meta (o : option Meta) :
  match o with Some m => meta_typed m | None => True end →
  decode_meta (ser_meta <$> o) = Ok o.
Proof. destruct o as [m|]; [|done]. intros Hm. unfold decode_meta. simpl. by rewrite de_ser_meta. Qed.

Lemma row_of_enc row : row_typed row → row_of_cols (fr_path row) (enc_row row) = Ok row.
Proof.
  intros (Hm & Hs & Hv & Hmeta). unfold row_of_cols, enc_row. simpl.
  rewrite blob32_some. simpl. rewrite decode_encode_vv by done. simpl.
  rewrite blob16_some. simpl. rewrite decode_encode_meta by done. simpl.
  rewrite as_u32_i64, as_u64_i64, col_bool_col by done. by rewrite fr_eta.
Qed.

Lemma load_row_some c p row : files_wf c →
  load_row c p = Ok (Some row) ↔
  row_typed row ∧ fr_path row = p ∧ t_files c !! p = Some (enc_row row).
Proof.
  intros Hc. unfold load_row. split.
  - destruct (t_files c !! p) as [r|] eqn:Hr; simpl; [|done].
    destruct (Hc p r Hr) as (row' & Ht & <- & ->). rewrite row_of_enc by done. simpl.
    by intros [= <-].
  - intros (Ht & <- & Hr). rewrite Hr. simpl. by rewrite row_of_enc.
Qed.

Lemma load_row_none c p : files_wf c → load_row c p = Ok None ↔ t_files c !! p = None.
Proof.
  intros Hc. unfold load_row. destruct (t_files c !! p) as [r|] eqn:Hr; simpl; [|done].
  destruct (Hc p r Hr) as (row' & Ht & <- & ->). by rewrite row_of_enc.
Qed.

(** Reads of a well-formed index do not fail. *)
Lemma load_row_total c p : files_wf c → ∃ o, load_row c p = Ok o.
Proof.
  intros Hc. unfold load_row. destruct (t_files c !! p) as [r|] eqn:Hr; simpl; [|eauto].
  destruct (Hc p r Hr) as (row' & Ht & <- & ->). rewrite row_of_enc by done. simpl. eauto.
Qed.

Lemma load_file_row c p o : files_wf c →
  load_row c p = Ok o → load_file c p = Ok (local_of <$> o).
Proof.
  intros Hc Ho. unfold load_file. destruct o as [row|].
  - apply load_row_some in Ho as ((Hm & Hs & Hv & Hmeta) & <- & Hr); [|done]. rewrite Hr.
    unfold enc_row. simpl. rewrite decode_encode_vv by done. simpl. rewrite blob32_some. simpl.
    by rewrite as_u32_i64, col_bool_col.
  - apply load_row_none in Ho; [|done]. by rewrite Ho.
Qed.

Lemma load_put_row c row p : row_typed row → files_wf c →
  load_row (put_row row c) p = if decide (fr_path row = p) then Ok (Some row) else load_row c p.
Proof.
  intros Hr Hc. unfold load_row, put_row. simpl. destruct (decide (fr_path row = p)) as [<-|Hne].
  - rewrite lookup_insert. case_decide; [|done]. simpl. by rewrite row_of_enc.
  - by rewrite lookup_insert_ne.
Qed.

Lemma load_row_path c p row : files_wf c → load_row c p = Ok (Some row) → fr_path row = p.
Proof. intros Hc Hl. by apply load_row_some in Hl as (_ & <- & _). Qed.
Lemma load_row_typed c p row : files_wf c → load_row c p = Ok (Some row) → row_typed row.
Proof. intros Hc Hl. by apply load_row_some in Hl as (? & _). Qed.

Lemma all_files_ok c : files_wf c → ∃ rows, all_files c = Ok rows ∧
  Forall2 (λ pr row, row_typed row ∧ fr_path row = pr.1 ∧ pr.2 = enc_row row)
    (btree_iter (t_files c)) rows.
Proof.
  intros Hc. unfold all_files.
  assert (Hall : ∀ pr, pr ∈ btree_iter (t_files c) →
    ∃ row, row_typed row ∧ fr_path row = pr.1 ∧ pr.2 = enc_row row).
  { intros [p r] Hin. apply elem_of_btree_iter in Hin. by apply Hc. }
  induction (btree_iter (t_files c)) as [|[p r] l IH]; simpl; [by exists []|].
  destruct (Hall (p, r)) as (row & Ht & Hp & Hr); [by left|].
  simpl in Hp, Hr. subst p r. rewrite row_of_enc by done. simpl. destruct IH as (rows & -> & Hrows).
  { intros pr Hpr. apply Hall. by right. }
  exists (row :: rows). split; [done|]. by constructor.
Qed.

Lemma Forall2_paths l rows :
  Forall2 (λ pr row, row_typed row ∧ fr_path row = pr.1 ∧ pr.2 = enc_row row) l rows →
  fr_path <$> rows = l.*1.
Proof. induction 1 as [|pr row l rows (_ & Hp & _) _ IH]; [done|]. rewrite !fmap_cons. by rewrite IH, Hp. Qed.

Lemma all_files_spec c : files_wf c → ∃ rows, all_files c = Ok rows ∧
  NoDup (fr_path <$> rows) ∧
  StronglySorted (λ a b, ord_le (fr_path a) (fr_path b)) rows ∧
  ∀ r, r ∈ rows ↔ load_row c (fr_path r) = Ok (Some r).
Proof.
  intros Hc. destruct (all_files_ok c Hc) as (rows & Hall & Hrows).
  pose proof (Forall2_paths _ _ Hrows) as Hpaths. exists rows. split_and!; [done| | |].
  - rewrite Hpaths. apply NoDup_btree_keys.
  - pose proof (btree_iter_sorted (t_files c)) as Hs. clear Hpaths Hall.
    induction Hrows as [|pr row l rows (_ & Hp & _) Hrows IH]; [constructor|].
    apply StronglySorted_cons in Hs as [Hf Hs]. constructor; [by apply IH|].
    apply Forall_forall. intros r Hin. rewrite Forall_forall in Hf.
    assert (Hr : fr_path r ∈ l.*1).
    { rewrite <-(Forall2_paths _ _ Hrows). by apply list_elem_of_fmap_2. }
    apply list_elem_of_fmap in Hr as (pr' & Hpr' & Hin'). rewrite Hp, Hpr'. by apply Hf.
  - intros r. rewrite load_row_some by done. split.
    + intros Hin. destruct (Forall2_elem_r _ _ _ _ Hrows Hin) as ([p cols] & Hin' & Ht & Hp & Hcols).
      simpl in *. subst. apply elem_of_btree_iter in Hin'. done.
    + intros (Ht & _ & Hl). apply elem_of_btree_iter in Hl.
      destruct (Forall2_elem_l _ _ _ _ Hrows Hl) as (r' & Hin & Ht' & Hp & Hcols).
      simpl in *. assert (r = r') as ->; [|done].
      pose proof (row_of_enc r Ht) as Henc. rewrite Hcols, <-Hp, row_of_enc in Henc by done.
      by injection Henc.
Qed.
End rows.
#[export] Hint Resolve files_wf_put load_row_typed : replicore.

(** ** Manifests *)

Section manifests.
Import State.

(** The chunk rows of a manifest, numbered from [i]. *)
Fixpoint chunk_enum (i : Z) (cs : list ChunkEntry) : list (Z * (blob * Z)) :=
  match cs with
  | [] => []
  | c :: cs => (i, (ba_list (ce_hash c), as_i64 (ce_len c))) :: chunk_enum (i + 1) cs
  end.

Lemma chunk_enum_ge i cs j r : (j, r) ∈ chunk_enum i cs → i ≤ j.
Proof.
  revert i. induction cs as [|c cs IH]; intros i; simpl; [by intros ?%not_elem_of_nil|].
  intros [[= -> ->]|Hin%IH]%elem_of_cons; lia.
Qed.

Lemma chunk_enum_fun i cs j r r' :
  (j, r) ∈ chunk_enum i cs → (j, r') ∈ chunk_enum i cs → r = r'.
Proof.
  revert i. induction cs as [|c cs IH]; intros i; simpl; [by intros ?%not_elem_of_nil|].
  intros [Heq|Hin]%elem_of_cons [Heq'|Hin']%elem_of_cons; simplify_eq.
  - done.
  - apply chunk_enum_ge in Hin'. lia.
  - apply chunk_enum_ge in Hin. lia.
  - by eapply IH.
Qed.

Lemma chunk_enum_sorted i cs : StronglySorted (λ a b, a.1 ≤ b.1) (chunk_enum i cs).
Proof.
  revert i. induction cs as [|c cs IH]; intros i; simpl; constructor; [done|].
  apply Forall_forall. intros [j r] Hin%chunk_enum_ge. simpl. lia.
Qed.

Lemma chunk_enum_nodup i cs : NoDup (chunk_enum i cs).
Proof.
  revert i. induction cs as [|c cs IH]; intros i; simpl; constructor; [|done].
  intros Hin%chunk_enum_ge. lia.
Qed.

Lemma insert_or_ignore_some {K A} `{Countable K} (k : K) (a : A) m k' a' :
  insert_or_ignore k a m !! k' = Some a' ↔
  m !! k' = Some a' ∨ m !! k' = None ∧ k' = k ∧ a' = a.
Proof.
  unfold insert_or_ignore. destruct (m !! k) as [b|] eqn:Hk; [naive_solver congruence|].
  destruct (decide (k = k')) as [<-|Hne].
  - rewrite lookup_insert. case_decide; [|done]. naive_solver congruence.
  - rewrite lookup_insert_ne by done. naive_solver congruence.
Qed.

Lemma put_chunks_some h i cs m j r :
  put_chunks h i cs m !! (h, j) = Some r ↔
  m !! (h, j) = Some r ∨ m !! (h, j) = None ∧ (j, r) ∈ chunk_enum i cs.
Proof.
  revert i m. induction cs as [|c cs IH]; intros i m; simpl.
  { split; [by left|]. intros [?|[_ Hin]]; [done|by apply not_elem_of_nil in Hin]. }
  rewrite IH, insert_or_ignore_some, elem_of_cons.
  assert (Hnone : insert_or_ignore (h, i) (ba_list (ce_hash c), as_i64 (ce_len c)) m !! (h, j) = None
    ↔ m !! (h, j) = None ∧ j ≠ i).
  { rewrite !eq_None_not_Some. unfold is_Some. setoid_rewrite insert_or_ignore_some.
    destruct (m !! (h, j)); split.
    - intros Hn. destruct Hn. eauto.
    - intros [Hn _]. destruct Hn. eauto.
    - intros Hn. split; [by intros [? ?]|]. intros ->. destruct Hn. eauto 10.
    - intros [Hn1 Hn2] (x & [?|(_ & [= ?] & _)]); [done|congruence]. }
  rewrite Hnone. split.
  - intros [[?|(? & [= ->] & ->)]|((? & ?) & ?)]; auto.
  - intros [?|(? & [[= -> ->]|Hin])]; auto.
    right. pose proof (chunk_enum_ge _ _ _ _ Hin). split; [split; [done|lia]|done].
Qed.

Lemma elem_of_chunk_rows c h j r :
  (j, r) ∈ chunk_rows c h ↔ t_manifest_chunks c !! (h, j) = Some r.
Proof.
  unfold chunk_rows. rewrite elem_of_sort_by, list_elem_of_omap. split.
  - intros ([[h' j'] r'] & Hin & Heq). apply elem_of_map_to_list in Hin.
    destruct (decide (h' = h)); naive_solver.
  - intros Hin. exists ((h, j), r). split; [by apply elem_of_map_to_list|].
    by destruct (decide (h = h)).
Qed.

Lemma chunk_rows_sorted c h : StronglySorted (λ a b, a.1 ≤ b.1) (chunk_rows c h).
Proof.
  eapply (strongly_sorted_impl (λ a b, bool_decide (a.1 ≤ b.1) = true)).
  - intros a b. by rewrite bool_decide_eq_true.
  - apply sort_by_sorted.
    + intros x y. rewrite bool_decide_eq_false, bool_decide_eq_true. lia.
    + intros x y z. rewrite !bool_decide_eq_true. lia.
Qed.

Lemma chunk_rows_nodup c h : NoDup (chunk_rows c h).
Proof.
  unfold chunk_rows. rewrite sort_by_perm.
  pose proof (NoDup_map_to_list (t_manifest_chunks c)) as Hnd.
  induction Hnd as [|[[h' j] r] l Hin Hnd IH]; simpl; [constructor|].
  destruct (decide (h' = h)) as [->|]; simpl; [|done]. constructor; [|done].
  intros ([[h'' j'] r'] & Hin' & Heq)%list_elem_of_omap.
  destruct (decide (h'' = h)); naive_solver.
Qed.

(** A sorted table of chunk rows with the entries of [cs] is their list. *)
Lemma chunk_rows_eq c h cs :
  (∀ j r, t_manifest_chunks c !! (h, j) = Some r ↔ (j, r) ∈ chunk_enum 0 cs) →
  chunk_rows c h = chunk_enum 0 cs.
Proof.
  intros Hiff. apply (StronglySorted_unique_strong (λ a b, a.1 ≤ b.1)).
  - intros [j r] [j' r'] Hin%elem_of_chunk_rows%Hiff Hin'. simpl. intros ??.
    assert (j = j') as <- by lia. f_equal. by eapply chunk_enum_fun.
  - apply chunk_rows_sorted.
  - apply chunk_enum_sorted.
  - apply NoDup_Permutation; [apply chunk_rows_nodup|apply chunk_enum_nodup|].
    intros [j r]. by rewrite elem_of_chunk_rows.
Qed.

Definition chunk_typed (c : ChunkEntry) : Prop := in_u32 (ce_len c).

Lemma chunks_of_enum i cs : Forall chunk_typed cs →
  traverse_list (λ r, chunk_of_cols r.2) (chunk_enum i cs) = Ok cs.
Proof.
  intros Hcs. revert i. induction Hcs as [|[h l] cs Hc Hcs IH]; intros i; simpl; [done|].
  unfold chunk_of_cols, blob32. simpl. rewrite array_of_list_ba. simpl.
  rewrite IH. simpl. by rewrite as_u32_i64.
Qed.

Lemma chunk_enum_decodes i cs x : Forall chunk_typed cs → x ∈ chunk_enum i cs →
  ∃ ce, chunk_of_cols x.2 = Ok ce.
Proof.
  intros Hcs Hx. pose proof (chunks_of_enum i cs Hcs) as Hall%traverse_list_ok.
  apply list_elem_of_split in Hx as (l1 & l2 & Heq). rewrite Heq in Hall.
  apply Forall2_app_inv_l in Hall as (? & ? & _ & Hall & _).
  inversion Hall; subst. eauto.
Qed.

Lemma chunk_enum_length i cs : length (chunk_enum i cs) = length cs.
Proof. revert i. induction cs as [|c cs IH]; intros i; simpl; by rewrite ?IH. Qed.

Lemma traverse_list_total {E A B} (f : A → result E B) l :
  (∀ x, x ∈ l → ∃ b, f x = Ok b) → ∃ bs, traverse_list f l = Ok bs ∧ length bs = length l.
Proof.
  intros Hf. induction l as [|x l IH]; simpl; [by exists []|].
  destruct (Hf x) as [b ->]; [by left|]. destruct IH as (bs & -> & Hlen).
  { intros y Hy. apply Hf. by right. }
  simpl. exists (b :: bs). simpl. by rewrite Hlen.
Qed.

(** Some of a manifest's rows, as many as it has chunks, are all of them. *)
Lemma chunk_rows_full c h cs :
  (∀ j r, t_manifest_chunks c !! (h, j) = Some r → (j, r) ∈ chunk_enum 0 cs) →
  length (chunk_rows c h) = length cs → chunk_rows c h = chunk_enum 0 cs.
Proof.
  intros Hsub Hlen.
  assert (Hperm : chunk_rows c h ≡ₚ chunk_enum 0 cs).
  { apply submseteq_length_Permutation; [|rewrite chunk_enum_length; lia].
    apply NoDup_submseteq; [apply chunk_rows_nodup|].
    intros [j r] Hin%elem_of_chunk_rows. by apply Hsub. }
  apply chunk_rows_eq. intros j r. by rewrite <-elem_of_chunk_rows, Hperm.
Qed.

Lemma chunk_rows_short c h cs :
  (∀ j r, t_manifest_chunks c !! (h, j) = Some r → (j, r) ∈ chunk_enum 0 cs) →
  (length (chunk_rows c h) ≤ length cs)%nat.
Proof.
  intros Hsub. rewrite <-(chunk_enum_length 0 cs). apply submseteq_length, NoDup_submseteq.
  - apply chunk_rows_nodup.
  - intros [j r] Hin%elem_of_chunk_rows. by apply Hsub.
Qed.

Lemma put_manifest_rows c h cs :
  (∀ j r, t_manifest_chunks c !! (ba_list h, j) = Some r → (j, r) ∈ chunk_enum 0 cs) →
  chunk_rows (put_manifest c (mkManifest h cs)) (ba_list h) = chunk_enum 0 cs.
Proof.
  intros Hsub. apply chunk_rows_eq. intros j r. simpl. rewrite put_chunks_some.
  destruct (t_manifest_chunks c !! (ba_list h, j)) as [r'|] eqn:Hr; [|naive_solver].
  apply Hsub in Hr. split; [by intros [[= <-]|[? _]]|].
  intros Hin. left. by rewrite (chunk_enum_fun _ _ _ _ _ Hr Hin).
Qed.

(** What a crash in the middle of persisting [m] can leave behind: nothing,
    or some of its rows. *)
Definition residue (c : Conn) (m : Manifest) : Prop :=
  let h := ba_list (mf_content_hash m) in
  (∀ n, t_manifests c !! h = Some n → n = as_i64 (Z.of_nat (length (mf_chunks m)))) ∧
  (∀ j r, t_manifest_chunks c !! (h, j) = Some r → (j, r) ∈ chunk_enum 0 (mf_chunks m)).
End manifests.

(** Persisting a manifest repairs whatever an interrupted attempt left.
    From any residue of the same content-addressed manifest, persisting it
    makes it readable in full, chunks in order; until then a table that
    announces more chunks than it holds is reported as absent, never as
    corruption or as a shorter file. *)
Theorem put_manifest_heals (c : Conn) (m : Manifest) :
  residue c m → Forall chunk_typed (mf_chunks m) →
  Z.of_nat (length (mf_chunks m)) < 2 ^ 63 →
  State.manifest_for (State.put_manifest c m) (mf_content_hash m) = Ok (Some m) ∧
  (State.manifest_for c (mf_content_hash m) = Ok (Some m) ∨
   State.manifest_for c (mf_content_hash m) = Ok None).
Proof.
  destruct m as [h cs]. intros [Hcount Hsub] Hcs Hlen. simpl in *. split.
  - unfold State.manifest_for. simpl.
    rewrite (proj2 (insert_or_ignore_some _ _ _ _ (as_i64 (Z.of_nat (length cs))))).
    2:{ destruct (t_manifests c !! ba_list h) as [n|] eqn:Hn; [left|by right].
        by rewrite (Hcount n eq_refl). }
    rewrite put_manifest_rows, chunks_of_enum by done.
    simpl. by rewrite bool_decide_false by auto.
  - unfold State.manifest_for. destruct (t_manifests c !! ba_list h) as [n|] eqn:Hn; [|by right].
    rewrite (Hcount n eq_refl). pose proof (chunk_rows_short c (ba_list h) cs Hsub) as Hshort.
    destruct (traverse_list_total (λ r, State.chunk_of_cols r.2) (State.chunk_rows c (ba_list h)))
      as (ces & Htr & Hces).
    { intros [j r] Hin%elem_of_chunk_rows%Hsub. by eapply chunk_enum_decodes. }
    rewrite Htr. simpl. case_bool_decide as Hb; [by right|left].
    rewrite !as_i64_small in Hb by (unfold in_i64; lia).
    rewrite (chunk_rows_full c (ba_list h) cs), chunks_of_enum in Htr by (try done; lia).
    by injection Htr as ->.
Qed.

(** ** The index as an abstract map *)

Section index.
Context `{!Blake3, !Bincode, !BincodeLaws}.
Import State.

Definition with_uuid (u : uuid16) (r : FileRow) : FileRow :=
  mkFileRow (fr_path r) (fr_content_hash r) (fr_mode r) (fr_size r) (fr_tombstone r)
    (fr_vv r) (Some u) (fr_meta r).

Lemma set_uuid_enc u r : set_uuid u (enc_row r) = enc_row (with_uuid u r).
Proof. done. Qed.

Lemma alter_uuids_lookup mint ps c p : NoDup ps →
  t_files (foldl (λ c p, set_files (alter (set_uuid (mint p)) p) c) c ps) !! p =
  if decide (p ∈ ps) then set_uuid (mint p) <$> t_files c !! p else t_files c !! p.
Proof.
  intros Hnd. revert c. induction Hnd as [|q ps Hq Hnd IH]; intros c; [done|].
  cbn [foldl]. rewrite IH. cbn [t_files set_files]. destruct (decide (p ∈ ps)) as [Hp|Hp].
  - rewrite decide_True by (by right). by rewrite lookup_alter_ne by (by intros <-).
  - destruct (decide (p = q)) as [->|Hne].
    + rewrite decide_True by (by left). by rewrite lookup_alter_eq.
    + rewrite decide_False by (rewrite elem_of_cons; tauto). by rewrite lookup_alter_ne.
Qed.

Section scan_order.
Context `{!Scan, !ScanLaws}.

Lemma elem_of_scan m p r : (p, r) ∈ scan m ↔ m !! p = Some r.
Proof. rewrite scan_perm. apply elem_of_map_to_list. Qed.

Lemma scan_filter_fst P `{!∀ x, base.Decision (P x)} m p :
  p ∈ (filter P (scan m)).*1 ↔ ∃ r, m !! p = Some r ∧ P (p, r).
Proof.
  rewrite list_elem_of_fmap. split.
  - intros ([p' r] & -> & [HP Hin]%list_elem_of_filter). exists r.
    by rewrite <-elem_of_scan.
  - intros (r & Hr & HP). exists (p, r). split; [done|].
    apply list_elem_of_filter. by rewrite elem_of_scan.
Qed.

Lemma scan_filter_nodup P `{!∀ x, base.Decision (P x)} m : NoDup (filter P (scan m)).*1.
Proof.
  assert (Hnd : NoDup (scan m).*1) by (rewrite scan_perm; apply NoDup_fst_map_to_list).
  induction (scan m) as [|[p r] l IH]; [constructor|].
  rewrite fmap_cons in Hnd. apply NoDup_cons in Hnd as [Hp Hnd]. rewrite filter_cons.
  destruct (decide (P (p, r))); [|by apply IH]. rewrite fmap_cons. constructor; [|by apply IH].
  intros (x & Heq & [_ Hx]%list_elem_of_filter)%list_elem_of_fmap. apply Hp.
  rewrite Heq. by apply list_elem_of_fmap_2.
Qed.

Lemma backfill_lookup c mint p :
  t_files (backfill_uuids c mint) !! p =
  (λ r, match fc_uuid r with None => set_uuid (mint p) r | Some _ => r end) <$> t_files c !! p.
Proof.
  unfold backfill_uuids. rewrite alter_uuids_lookup by apply scan_filter_nodup.
  case_decide as Hin; [|rename Hin into Hnin].
  - apply scan_filter_fst in Hin as (r & -> & Hn). simpl in *. by rewrite Hn.
  - destruct (t_files c !! p) as [r|] eqn:Hr; [|done]. simpl. f_equal.
    destruct (fc_uuid r) eqn:Hu; [done|]. destruct Hnin. apply scan_filter_fst. by exists r.
Qed.

Lemma backfill_done c mint : (∀ p r, t_files c !! p = Some r → fc_uuid r ≠ None) →
  backfill_uuids c mint = c.
Proof.
  intros Hall. unfold backfill_uuids.
  destruct (filter _ (scan (t_files c))).*1 as [|p ps] eqn:Hps; [done|].
  assert (Hin : p ∈ p :: ps) by (by left). rewrite <-Hps in Hin.
  apply scan_filter_fst in Hin as (r & Hr & Hu). by destruct (Hall p r).
Qed.

(** The identity migration. Whatever order the rows are read in, every
    row without an identity gets the one minted from its path, every other
    row and field is untouched, and a second run changes nothing; so nodes
    migrating independently agree. *)
Theorem backfill_uuids_correct (c : Conn) (mint : string → uuid16) :
  files_wf c →
  let c' := backfill_uuids c mint in
  files_wf c' ∧
  (∀ p o, load_row c p = Ok o →
     load_row c' p = Ok ((λ r, with_uuid (default (mint p) (fr_uuid r)) r) <$> o)) ∧
  backfill_uuids c' mint = c'.
Proof.
  intros Hc c'. assert (Hlk : ∀ p row, row_typed row → fr_path row = p →
    t_files c !! p = Some (enc_row row) →
    t_files c' !! p = Some (enc_row (with_uuid (default (mint p) (fr_uuid row)) row))).
  { intros p row _ _ Hl. subst c'. rewrite backfill_lookup, Hl. simpl. f_equal.
    destruct row as [????? ? [u|] ?]; [done|]. by rewrite <-set_uuid_enc. }
  assert (Hwf : files_wf c').
  { intros p r Hr. assert (Hsome : is_Some (t_files c !! p)).
    { subst c'. rewrite backfill_lookup in Hr. destruct (t_files c !! p); [eauto|done]. }
    destruct Hsome as [r0 Hr0]. destruct (Hc p r0 Hr0) as (row & Ht & Hp & ->).
    rewrite (Hlk p row) in Hr by done. injection Hr as <-.
    by exists (with_uuid (default (mint p) (fr_uuid row)) row). }
  split_and!; [done| |].
  - intros p [row|] Ho; simpl.
    + apply load_row_some in Ho as (Ht & Hp & Hl); [|done].
      apply load_row_some; [done|]. auto.
    + apply load_row_none in Ho; [|done]. apply load_row_none; [done|].
      subst c'. by rewrite backfill_lookup, Ho.
  - apply backfill_done. intros p r. subst c'. rewrite backfill_lookup.
    destruct (t_files c !! p) as [r0|]; simpl; [|done]. intros [= <-].
    by destruct (fc_uuid r0) eqn:Hu; [rewrite Hu|].
Qed.

(** Serving content by hash finds a live file holding it whenever there
    is one, and only such a file. *)
Theorem path_for_hash_correct (c : Conn) (h : hash32) :
  files_wf c →
  match path_for_hash c h with
  | Some p => ∃ row, load_row c p = Ok (Some row) ∧
      fr_content_hash row = Some h ∧ fr_tombstone row = false
  | None => ∀ p row, load_row c p = Ok (Some row) → fr_tombstone row = false →
      fr_content_hash row ≠ Some h
  end.
Proof.
  intros Hc. unfold path_for_hash.
  destruct (filter _ (scan (t_files c))) as [|[p r] l] eqn:Hf; simpl.
  - intros p row Hl Ht Hh. apply load_row_some in Hl as (_ & _ & Hl); [|done].
    assert (Hin : (p, enc_row row) ∈ []); [|by apply not_elem_of_nil in Hin].
    rewrite <-Hf. apply list_elem_of_filter. rewrite elem_of_scan. simpl.
    by rewrite Hh, Ht.
  - assert (Hin : (p, r) ∈ (p, r) :: l) by (by left). rewrite <-Hf in Hin.
    apply list_elem_of_filter in Hin as [[Hh Ht] Hl%elem_of_scan]. simpl in *.
    destruct (Hc p r Hl) as (row & Hrt & Hp & ->). exists row.
    split; [by apply load_row_some|]. simpl in *. split.
    + destruct (fr_content_hash row) as [h'|]; [|done]. injection Hh as Hh.
      f_equal. by apply ba_eq.
    + by destruct (fr_tombstone row).
Qed.
End scan_order.

(** The index is a map from paths to rows. Writing a row makes every
    read path (the decision view, the resolution view and the full listing)
    return exactly that row, leaves every other path alone, and keeps the
    index decodable; the full listing has each row once, in path order. *)
Theorem upsert_file_roundtrip (c : Conn) (row : FileRow) :
  files_wf c → row_typed row →
  ∃ c', upsert_file c (fr_path row) (fr_content_hash row) (fr_mode row) (fr_size row)
          (fr_vv row) (fr_tombstone row) (fr_uuid row) (fr_meta row) = Ok c' ∧
    files_wf c' ∧
    load_row c' (fr_path row) = Ok (Some row) ∧
    load_file c' (fr_path row) = Ok (Some (local_of row)) ∧
    (∀ p, p ≠ fr_path row → load_row c' p = load_row c p) ∧
    ∃ rows, all_files c' = Ok rows ∧ NoDup (fr_path <$> rows) ∧
      StronglySorted (λ a b, ord_le (fr_path a) (fr_path b)) rows ∧
      ∀ r, r ∈ rows ↔ load_row c' (fr_path r) = Ok (Some r).
Proof.
  intros Hc Hr. exists (put_row row c). rewrite upsert_file_row.
  assert (Hc' : files_wf (put_row row c)) by auto with replicore.
  assert (Hl : load_row (put_row row c) (fr_path row) = Ok (Some row)).
  { rewrite load_put_row by done. by destruct (decide _). }
  split_and!; [done..| | |].
  - by rewrite (load_file_row _ _ (Some row)).
  - intros p Hp. rewrite load_put_row by done. by destruct (decide _).
  - by apply all_files_spec.
Qed.
End index.

(** ** Witnesses *)

Module StateEx.
#[export] Existing Instance toy_bincode.
#[export] Existing Instance toy_bincode_laws.
#[export] Existing Instance path_scan.
#[export] Instance path_scan_laws : ScanLaws.
Proof. intros m. apply btree_iter_perm. Qed.

Definition empty_conn : Conn := mkConn [] ∅ ∅ ∅ ∅ ∅ ∅ ∅.
Definition ex_row : FileRow :=
  mkFileRow "a/x" (Some Ex.h1) 420 5 false ex_ab None (Some (ex_meta 420 7)).
Definition ex_conn : Conn := put_row ex_row empty_conn.
Definition ex_manifest : Manifest :=
  mkManifest Ex.h1 [mkChunkEntry Ex.h2 3; mkChunkEntry Ex.h1 2].
(** The count and the second chunk row survived a crash. *)
Definition torn_conn : Conn :=
  set_manifests {[ ba_list Ex.h1 := 2 ]}
    {[ (ba_list Ex.h1, 1) := (ba_list Ex.h1, 2) ]} empty_conn.
End StateEx.
Import Ex StateEx.

Lemma empty_conn_wf : files_wf empty_conn.
Proof. apply map_Forall_empty. Qed.
Lemma ex_row_typed : row_typed ex_row.
Proof.
  unfold row_typed, meta_typed, in_u32, in_u64, in_i64. simpl.
  split_and!; try vm_decide; lia.
Qed.
Lemma ex_conn_wf : files_wf ex_conn.
Proof. apply files_wf_put; [apply ex_row_typed|apply empty_conn_wf]. Qed.

Lemma put_manifest_heals_witness :
  State.manifest_for torn_conn h1 = Ok None ∧
  State.manifest_for (State.put_manifest torn_conn ex_manifest) h1 = Ok (Some ex_manifest).
Proof.
  split; [vm_decide|]. apply (put_manifest_heals torn_conn ex_manifest).
  - split.
    + intros n. simpl. intros [_ <-]%lookup_singleton_Some. done.
    + intros j r. simpl. intros [[= <-] <-]%lookup_singleton_Some.
      apply elem_of_cons. right. by left.
  - repeat constructor; unfold chunk_typed, in_u32, u32_modulus; simpl; lia.
  - simpl. lia.
Defined.

Lemma upsert_file_roundtrip_witness :
  ∃ c', State.upsert_file empty_conn "a/x" (Some h1) 420 5 ex_ab false None (Some (ex_meta 420 7))
          = Ok c' ∧ State.load_row c' "a/x" = Ok (Some ex_row).
Proof.
  destruct (upsert_file_roundtrip empty_conn ex_row) as (c' & Hup & _ & Hl & _).
  - apply empty_conn_wf.
  - apply ex_row_typed.
  - exists c'. split; [exact Hup|exact Hl].
Defined.

Lemma backfill_uuids_correct_witness :
  State.load_row (State.backfill_uuids ex_conn (λ _, fill 16 x07)) "a/x" =
  Ok (Some (with_uuid (fill 16 x07) ex_row)).
Proof.
  destruct (backfill_uuids_correct ex_conn (λ _, fill 16 x07)) as (_ & Hl & _).
  - apply ex_conn_wf.
  - apply (Hl "a/x" (Some ex_row)). vm_decide.
Defined.

Lemma path_for_hash_correct_witness :
  match State.path_for_hash ex_conn h1 with
  | Some p => ∃ row, State.load_row ex_conn p = Ok (Some row) ∧
      fr_content_hash row = Some h1 ∧ fr_tombstone row = false
  | None => False
  end.
Proof.
  pose proof (path_for_hash_correct ex_conn h1 ex_conn_wf) as H.
  assert (Hp : State.path_for_hash ex_conn h1 = Some "a/x") by vm_decide.
  rewrite Hp in H |- *. exact H.
Defined.
