(* ===== verification/Oplog.v ===== *)
(** * The operation log and the store thread (src/src/oplog.rs)

    One thread owns the database and serves one command at a time. A command
    handler is a transaction: [run_tx] commits the connection the body hands
    back, and drops every change when the body fails or returns early without
    committing. [store_step] is one turn of [run_store]. *)

From S2P Require Import Prelude Vv Decide Metadata Conflict State.
Import VersionVector.

Module OpType.
Inductive t : Type :=
| Write
| Delete
| Rename.
End OpType.
Abbreviation OpType := OpType.t.

#[export] Instance op_type_eq_dec : EqDecision OpType.
Proof. solve_decision. Defined.

(** [proto::OpRecord] *)
Record OpRecord : Type := mkOpRecord {
  op_op_id : hash32;
  op_origin : NodeId;
  op_origin_seq : Z;
  op_op_type : OpType;
  op_path : string;
  op_path_old : option string;
  op_uuid : option uuid16;
  op_mode : Z;
  op_size : Z;
  op_content_hash : option hash32;
  op_meta : option Meta;
  op_vv : VV;
}.

#[export] Instance op_record_eq_dec : EqDecision OpRecord.
Proof. solve_decision. Defined.

Record LocalChange : Type := mkLocalChange {
  lc_path : string;
  lc_op_type : OpType;
  lc_mode : Z;
  lc_size : Z;
  lc_content_hash : option hash32;
  lc_meta : option Meta;
  lc_manifest : option Manifest;
}.

Record ReconciledRow : Type := mkReconciledRow {
  rr_path : string;
  rr_content_hash : option hash32;
  rr_mode : Z;
  rr_size : Z;
  rr_vv : VV;
  rr_tombstone : bool;
  rr_uuid : option uuid16;
  rr_meta : option Meta;
}.

Module ResolveOutcome.
Inductive t : Type :=
| Resolved
| NotConcurrent (d : Decision)
| Stale (plan : list PlannedRow)
| Unresolvable.
End ResolveOutcome.
Abbreviation ResolveOutcome := ResolveOutcome.t.

#[export] Instance resolve_outcome_eq_dec : EqDecision ResolveOutcome.
Proof. solve_decision. Defined.

Record JoinSnapshot : Type := mkJoinSnapshot {
  js_rows : list FileRow;
  js_frontier : list (NodeId * Z);
}.

Definition set_oplog (l : list OplogCols) (c : Conn) : Conn :=
  mkConn l (t_files c) (t_peers c) (t_applied c) (t_manifests c) (t_manifest_chunks c)
    (t_peer_cursors c) (t_meta c).
Definition set_applied (s : gset blob) (c : Conn) : Conn :=
  mkConn (t_oplog c) (t_files c) (t_peers c) s (t_manifests c) (t_manifest_chunks c)
    (t_peer_cursors c) (t_meta c).
Definition set_cursors (m : gmap (blob * blob) CursorCols) (c : Conn) : Conn :=
  mkConn (t_oplog c) (t_files c) (t_peers c) (t_applied c) (t_manifests c)
    (t_manifest_chunks c) m (t_meta c).
Definition set_meta_table (m : gmap string string) (c : Conn) : Conn :=
  mkConn (t_oplog c) (t_files c) (t_peers c) (t_applied c) (t_manifests c)
    (t_manifest_chunks c) (t_peer_cursors c) m.

(** [conn.transaction()]: the body works on the connection and hands back
    [Some c] on [tx.commit()], [None] when it returns without committing. *)
Definition run_tx {A} (conn : Conn) (body : Conn → result StoreError (A * option Conn))
  : Conn * result StoreError A :=
  match body conn with
  | Ok (a, Some c) => (c, Ok a)
  | Ok (a, None) => (conn, Ok a)
  | Err e => (conn, Err e)
  end.

Module Oplog.
Import State.
Section with_externals.
Context `{!Blake3, !Bincode, !Hex}.

(** [i64::to_be_bytes] *)
Definition i64_be (z : Z) : list byte := be_bytes 8 (as_u64 z).

(** [proto::op_id] *)
Definition op_id (origin : NodeId) (origin_seq : Z) : hash32 :=
  blake3 (ba_list origin ++ i64_be origin_seq).

Definition migration_uuid (path : string) : uuid16 :=
  to_array 16 (ba_list (blake3 (str_bytes "replicore-uuid-migration" ++ str_bytes path))).

Definition fresh_uuid (origin : NodeId) (origin_seq : Z) (path : string) : uuid16 :=
  to_array 16 (ba_list (blake3 (ba_list origin ++ i64_be origin_seq ++ str_bytes path))).

Definition migrate_uuids `{!Scan} (conn : Conn) : Conn := backfill_uuids conn migration_uuid.

Definition latest_origin_seq (conn : Conn) (origin : NodeId) : Z :=
  default 0 (iter_max (oc_origin_seq <$> filter (λ r, oc_origin r = ba_list origin) (t_oplog conn))).

Definition op_type_to_i64 (t : OpType) : Z :=
  match t with OpType.Write => 0 | OpType.Delete => 1 | OpType.Rename => 2 end.

Definition op_type_from_i64 (v : Z) : result StoreError OpType :=
  match v with
  | 0 => Ok OpType.Write
  | 1 => Ok OpType.Delete
  | 2 => Ok OpType.Rename
  | _ => Err (StoreError.Corrupt "oplog.op_type")
  end.

(** The columns [insert_op] binds. *)
Definition op_cols (op : OpRecord) (vv_blob : blob) (meta_blob : option blob) : OplogCols :=
  mkOplogCols (ba_list (op_op_id op)) (ba_list (op_origin op)) (op_origin_seq op)
    (op_type_to_i64 (op_op_type op)) (op_path op) (op_path_old op) (ba_list <$> op_uuid op)
    (as_i64 (op_mode op)) (as_i64 (op_size op)) (ba_list <$> op_content_hash op)
    vv_blob meta_blob.

(** [INSERT OR IGNORE] on the unique [op_id]; a new row gets the next rowid. *)
Definition insert_op (conn : Conn) (op : OpRecord) : result StoreError Conn :=
  vv_blob ← encode_vv (op_vv op);
  meta_blob ← encode_meta (op_meta op);
  let row := op_cols op vv_blob meta_blob in
  Ok (if existsb (λ r, bool_decide (oc_op_id r = oc_op_id row)) (t_oplog conn) then conn
      else set_oplog (t_oplog conn ++ [row]) conn).

(** The causal no-op filter at the head of [append_local]: [Ok true] is the
    early [return Ok(None)]. *)
Definition causal_noop (local : option FileRow) (change : LocalChange) : result StoreError bool :=
  match lc_op_type change with
  | OpType.Write =>
      match local with
      | Some l => Ok (negb (fr_tombstone l)
          && bool_decide (fr_content_hash l = lc_content_hash change)
          && bool_decide (Meta.hash_of (fr_meta l) = Meta.hash_of (lc_meta change)))
      | None => Ok false
      end
  | OpType.Delete =>
      match local with
      | None => Ok true
      | Some l => Ok (fr_tombstone l)
      end
  | OpType.Rename => Err (StoreError.Corrupt "rename is not a LocalChange")
  end.

Definition append_uuid (node_id : NodeId) (origin_seq : Z) (local : option FileRow)
    (change : LocalChange) : uuid16 :=
  match local with
  | Some l =>
      if negb (bool_decide (lc_op_type change = OpType.Write) && fr_tombstone l)
      then default (migration_uuid (lc_path change)) (fr_uuid l)
      else fresh_uuid node_id origin_seq (lc_path change)
  | None => fresh_uuid node_id origin_seq (lc_path change)
  end.

Definition append_local (conn : Conn) (node_id : NodeId) (change : LocalChange)
  : Conn * result StoreError (option OpRecord) :=
  run_tx conn (λ tx,
    local ← load_row tx (lc_path change);
    noop ← causal_noop local change;
    if (noop : bool) then Ok (None, None) else
    let origin_seq := i64_add (latest_origin_seq tx node_id) 1 in
    let uuid := append_uuid node_id origin_seq local change in
    let vv := increment (default new (fr_vv <$> local)) node_id in
    let op := mkOpRecord (op_id node_id origin_seq) node_id origin_seq (lc_op_type change)
                (lc_path change) None (Some uuid) (lc_mode change) (lc_size change)
                (lc_content_hash change) (lc_meta change) vv in
    tx ← insert_op tx op;
    tx ← upsert_file tx (lc_path change) (lc_content_hash change) (lc_mode change)
           (lc_size change) vv (bool_decide (lc_op_type change = OpType.Delete))
           (Some uuid) (lc_meta change);
    match lc_manifest change with
    | Some manifest =>
        if bool_decide (Some (mf_content_hash manifest) ≠ lc_content_hash change)
        then Err (StoreError.Corrupt "manifest/content_hash mismatch")
        else Ok (Some op, Some (put_manifest tx manifest))
    | None => Ok (Some op, Some tx)
    end).

Definition append_local_rename (conn : Conn) (node_id : NodeId) (old_path new_path : string)
  : Conn * result StoreError (option OpRecord) :=
  if bool_decide (old_path = new_path) then (conn, Ok None) else
  run_tx conn (λ tx,
    src ← load_row tx old_path;
    match src with
    | None => Ok (None, None)
    | Some src =>
        if fr_tombstone src then Ok (None, None) else
        let origin_seq := i64_add (latest_origin_seq tx node_id) 1 in
        let uuid := default (migration_uuid old_path) (fr_uuid src) in
        dst ← load_row tx new_path;
        let vv := match dst with
                  | Some dst => merge (fr_vv src) (fr_vv dst)
                  | None => fr_vv src
                  end in
        let vv := increment vv node_id in
        let op := mkOpRecord (op_id node_id origin_seq) node_id origin_seq OpType.Rename
                    new_path (Some old_path) (Some uuid) (fr_mode src) (fr_size src)
                    (fr_content_hash src) (fr_meta src) vv in
        tx ← insert_op tx op;
        tx ← upsert_file tx old_path None 0 0 vv true (Some uuid) None;
        tx ← upsert_file tx new_path (fr_content_hash src) (fr_mode src) (fr_size src) vv
               false (Some uuid) (fr_meta src);
        Ok (Some op, Some tx)
    end).

Definition has_applied (conn : Conn) (oid : hash32) : bool :=
  bool_decide (ba_list oid ∈ t_applied conn).

Definition ensure_cursor_row (conn : Conn) (peer origin : NodeId) : Conn :=
  set_cursors (insert_or_ignore (ba_list peer, ba_list origin) (mkCursorCols 0 0)
                 (t_peer_cursors conn)) conn.

Definition update_cursor (f : CursorCols → CursorCols) (peer origin : NodeId) (conn : Conn) : Conn :=
  set_cursors (alter f (ba_list peer, ba_list origin) (t_peer_cursors conn)) conn.

Definition bump_recv (seq : Z) (r : CursorCols) : CursorCols :=
  mkCursorCols (Z.max (cc_recv_cursor r) seq) (cc_last_acked_seq r).
Definition bump_acked (seq : Z) (r : CursorCols) : CursorCols :=
  mkCursorCols (cc_recv_cursor r) (Z.max (cc_last_acked_seq r) seq).

(** The target-path effect of an [Apply]: re-validate under the committing
    transaction, then materialize. *)
Definition apply_target (tx : Conn) (op : OpRecord) : result StoreError (Conn * Decision) :=
  local ← load_file tx (op_path op);
  let effective := decide_op local (op_vv op) in
  if bool_decide (effective = Decision.Apply) then
    let vv := merge (default new (lf_vv <$> local)) (op_vv op) in
    tx ← match op_op_type op with
         | OpType.Write | OpType.Rename =>
             upsert_file tx (op_path op) (op_content_hash op) (op_mode op) (op_size op) vv
               false (op_uuid op) (op_meta op)
         | OpType.Delete =>
             upsert_file tx (op_path op) None (op_mode op) 0 vv true (op_uuid op) None
         end;
    Ok (tx, effective)
  else Ok (tx, effective).

(** The source-path effect of a rename, decided on its own. *)
Definition apply_source (tx : Conn) (op : OpRecord) : result StoreError Conn :=
  if bool_decide (op_op_type op = OpType.Rename) then
    match op_path_old op with
    | Some old_path =>
        old_local ← load_file tx old_path;
        if bool_decide (decide_op old_local (op_vv op) = Decision.Apply) then
          upsert_file tx old_path None 0 0
            (merge (default new (lf_vv <$> old_local)) (op_vv op)) true (op_uuid op) None
        else Ok tx
    | None => Err (StoreError.Corrupt "rename op without path_old")
    end
  else Ok tx.

Definition apply_remote (conn : Conn) (op : OpRecord) (decision : Decision)
  : Conn * result StoreError Decision :=
  run_tx conn (λ tx,
    r ← (if has_applied tx (op_op_id op) then Ok (tx, decision) else
           tx ← insert_op tx op;
           r ← (if bool_decide (decision = Decision.Apply) then apply_target tx op
                else Ok (tx, decision));
           let '(tx, effective) := r in
           tx ← apply_source tx op;
           Ok (set_applied ({[ ba_list (op_op_id op) ]} ∪ t_applied tx) tx, effective));
    let '(tx, effective) := r in
    let tx := ensure_cursor_row tx (op_origin op) (op_origin op) in
    let tx := update_cursor (bump_recv (op_origin_seq op)) (op_origin op) (op_origin op) tx in
    Ok (effective, Some tx)).

Definition op_of_cols (r : OplogCols) : result StoreError OpRecord :=
  oid ← ok_or (StoreError.Corrupt "oplog.op_id") (array_of_list 32 (oc_op_id r));
  origin ← ok_or (StoreError.Corrupt "oplog.origin") (array_of_list 16 (oc_origin r));
  op_type ← op_type_from_i64 (oc_op_type r);
  uuid ← traverse_opt (λ u, ok_or (StoreError.Corrupt "oplog.uuid") (array_of_list 16 u)) (oc_uuid r);
  hash ← traverse_opt (λ h, ok_or (StoreError.Corrupt "oplog.content_hash") (array_of_list 32 h))
           (oc_content_hash r);
  meta ← decode_meta (oc_meta r);
  vv ← decode_vv (oc_vv r);
  Ok (mkOpRecord oid origin (oc_origin_seq r) op_type (oc_path r) (oc_path_old r) uuid
        (as_u32 (oc_mode r)) (as_u64 (oc_size r)) hash meta vv).

(** [WHERE origin = ?1 AND origin_seq > ?2 ORDER BY origin_seq LIMIT ?3] *)
Definition ops_since (conn : Conn) (origin : NodeId) (after_seq limit : Z)
  : result StoreError (list OpRecord) :=
  traverse_list op_of_cols
    (take (Z.to_nat limit)
       (sort_by (λ a b, bool_decide (oc_origin_seq a ≤ oc_origin_seq b))
          (filter (λ r, oc_origin r = ba_list origin ∧ after_seq < oc_origin_seq r)
             (t_oplog conn)))).

Definition cursor_value (conn : Conn) (peer origin : NodeId) (column : CursorCols → Z) : Z :=
  default 0 (column <$> t_peer_cursors conn !! (ba_list peer, ba_list origin)).

Definition advance_ack (conn : Conn) (peer our_id : NodeId) (up_to_seq : Z) : Conn :=
  update_cursor (bump_acked up_to_seq) peer our_id (ensure_cursor_row conn peer our_id).

Definition advance_recv_cursor (conn : Conn) (peer origin : NodeId) (up_to_seq : Z) : Conn :=
  update_cursor (bump_recv up_to_seq) peer origin (ensure_cursor_row conn peer origin).

Definition reconcile_upsert (conn : Conn) (row : ReconciledRow)
  : Conn * result StoreError Decision :=
  run_tx conn (λ tx,
    local ← load_file tx (rr_path row);
    let effective := decide_op local (rr_vv row) in
    if bool_decide (effective = Decision.Apply) then
      let vv := merge (default new (lf_vv <$> local)) (rr_vv row) in
      tx ← upsert_file tx (rr_path row) (rr_content_hash row) (rr_mode row) (rr_size row) vv
             (rr_tombstone row) (rr_uuid row) (rr_meta row);
      Ok (effective, Some tx)
    else Ok (effective, Some tx)).

(** One row of the path's history as a candidate: a rename matched through
    [path_old] contributes its source effect. *)
Definition candidate_of_cols (path : string) (r : OplogCols) : result StoreError Version :=
  op_type ← op_type_from_i64 (oc_op_type r);
  let as_source := bool_decide (op_type = OpType.Rename) && bool_decide (oc_path r ≠ path) in
  let tombstone := bool_decide (op_type = OpType.Delete) || as_source in
  meta ← (if tombstone then Ok None else decode_meta (oc_meta r));
  hash ← (if tombstone then Ok None else
            traverse_opt (λ h, ok_or (StoreError.Corrupt "oplog.content_hash")
              (array_of_list 32 h)) (oc_content_hash r));
  vv ← decode_vv (oc_vv r);
  uuid ← traverse_opt (λ u, ok_or (StoreError.Corrupt "oplog.uuid") (array_of_list 16 u)) (oc_uuid r);
  Ok (mkVersion tombstone hash (Meta.hash_of meta) meta
        (if tombstone then 0 else as_u32 (oc_mode r))
        (if tombstone then 0 else as_u64 (oc_size r)) vv uuid).

Definition ops_as_candidates (conn : Conn) (path : string) : result StoreError (list Version) :=
  traverse_list (candidate_of_cols path)
    (filter (λ r, oc_path r = path ∨ oc_path_old r = Some path) (t_oplog conn)).

Definition resolve_candidates (ops : list Version) (remote : Version) (local_row : FileRow)
  : list Version :=
  let candidates := ops ++ [remote] in
  let coverage := Resolve.join_vvs candidates in
  match compare coverage (fr_vv local_row) with
  | Dominates | Equal => candidates
  | _ => candidates ++ [Version.from_row local_row]
  end.

Definition lookup_version (tx : Conn) (p : string) : result StoreError (option Version) :=
  row ← load_row tx p; Ok (Version.from_row <$> (row : option FileRow)).

(** [for row in &derived { upsert_file(...)?; }] *)
Fixpoint upsert_rows (tx : Conn) (rows : list PlannedRow) : result StoreError Conn :=
  match rows with
  | [] => Ok tx
  | r :: rows =>
      tx ← upsert_file tx (pr_path r) (pr_content_hash r) (pr_mode r) (pr_size r) (pr_vv r)
             (pr_tombstone r) (pr_uuid r) (pr_meta r);
      upsert_rows tx rows
  end.

Definition resolve_rows (conn : Conn) (path : string) (remote : Version)
    (staged : list PlannedRow) : Conn * result StoreError ResolveOutcome :=
  run_tx conn (λ tx,
    local_row ← load_row tx path;
    let local_lf := (λ r, mkLocalFile (fr_vv r) (fr_tombstone r) (fr_content_hash r) (fr_mode r))
                      <$> local_row in
    let decision := decide_op local_lf (v_vv remote) in
    if bool_decide (decision ≠ Decision.Concurrent)
    then Ok (ResolveOutcome.NotConcurrent decision, None) else
    match local_row with
    | None => Err (StoreError.Corrupt "concurrent decision without a row")
    | Some local_row =>
        ops ← ops_as_candidates tx path;
        let candidates := resolve_candidates ops remote local_row in
        derived ← Resolve.plan_candidates (lookup_version tx) path candidates;
        match derived with
        | None => Ok (ResolveOutcome.Unresolvable, None)
        | Some derived =>
            if bool_decide (derived ≠ staged) then Ok (ResolveOutcome.Stale derived, None) else
            tx ← upsert_rows tx derived;
            Ok (ResolveOutcome.Resolved, Some tx)
        end
    end).

Definition put_manifest_atomic (conn : Conn) (m : Manifest) : Conn * result StoreError unit :=
  run_tx conn (λ tx, Ok ((), Some (put_manifest tx m))).

Definition op_count (conn : Conn) : Z := Z.of_nat (length (t_oplog conn)).

(** [SELECT origin, MAX(origin_seq) FROM oplog GROUP BY origin] *)
Definition frontier_step (m : gmap blob Z) (r : OplogCols) : gmap blob Z :=
  <[oc_origin r := match m !! oc_origin r with
                   | Some s => Z.max s (oc_origin_seq r)
                   | None => oc_origin_seq r
                   end]> m.

Definition snapshot_for_join (conn : Conn) : result StoreError JoinSnapshot :=
  rows ← all_files conn;
  frontier ← traverse_list (λ '(o, s),
    origin ← ok_or (StoreError.Corrupt "oplog.origin") (array_of_list 16 o); Ok (origin, s))
    (btree_iter (foldl frontier_step ∅ (t_oplog conn)));
  Ok (mkJoinSnapshot rows frontier).

Definition get_meta (conn : Conn) (key : string) : option string := t_meta conn !! key.
Definition set_meta (conn : Conn) (key value : string) : Conn :=
  set_meta_table (<[key := value]> (t_meta conn)) conn.

(** ** Opening and serving *)

(** The data half of [Store::open] (the schema is the [Conn] record): mint
    missing identities, then carry the single-cursor layout over. *)
Definition backfill_recv (cs : gmap (blob * blob) CursorCols) (p : blob * PeersCols)
  : gmap (blob * blob) CursorCols :=
  if bool_decide (0 < pc_recv_cursor p.2)
  then insert_or_ignore (p.1, p.1) (mkCursorCols (pc_recv_cursor p.2) 0) cs else cs.
Definition backfill_acked (our : blob) (cs : gmap (blob * blob) CursorCols) (p : blob * PeersCols)
  : gmap (blob * blob) CursorCols :=
  if bool_decide (0 < pc_last_acked_seq p.2 ∧ p.1 ≠ our)
  then insert_or_ignore (p.1, our) (mkCursorCols 0 (pc_last_acked_seq p.2)) cs else cs.

Definition open_conn `{!Scan} (conn : Conn) (node_id : NodeId) : Conn * Z :=
  let conn := migrate_uuids conn in
  let peers := btree_iter (t_peers conn) in
  let cs := foldl backfill_recv (t_peer_cursors conn) peers in
  let cs := foldl (backfill_acked (ba_list node_id)) cs peers in
  let conn := set_cursors cs conn in
  (conn, latest_origin_seq conn node_id).
End with_externals.
End Oplog.

Inductive StoreCmd : Type :=
| AppendLocal (change : LocalChange)
| AppendLocalRename (old_path new_path : string)
| ResolveRows (path : string) (remote : Version) (staged : list PlannedRow)
| LoadRow (path : string)
| ApplyRemote (op : OpRecord) (decision : Decision)
| LoadFile (path : string)
| HasApplied (oid : hash32)
| OpsSince (origin : NodeId) (after_seq limit : Z)
| RecvCursor (peer : NodeId)
| AdvanceAck (peer : NodeId) (up_to_seq : Z)
| LastAcked (peer : NodeId)
| LiveFiles
| AllFiles
| PathForHash (hash : hash32)
| OpCount
| PutManifest (manifest : Manifest)
| ManifestFor (content_hash : hash32)
| ReconcileUpsert (row : ReconciledRow)
| SnapshotForJoin
| AdvanceRecvCursor (peer origin : NodeId) (up_to_seq : Z)
| GetMeta (key : string)
| SetMeta (key value : string).

(** What is sent on a command's reply channel. *)
Inductive Reply : Type :=
| ROp (r : result StoreError (option OpRecord))
| RResolve (r : result StoreError ResolveOutcome)
| RRow (r : result StoreError (option FileRow))
| RDecision (r : result StoreError Decision)
| RLocal (r : result StoreError (option LocalFile))
| RBool (r : result StoreError bool)
| ROps (r : result StoreError (list OpRecord))
| RInt (r : result StoreError Z)
| RUnit (r : result StoreError unit)
| RLive (r : result StoreError (list LiveFile))
| RRows (r : result StoreError (list FileRow))
| RPath (r : result StoreError (option string))
| RManifest (r : result StoreError (option Manifest))
| RSnapshot (r : result StoreError JoinSnapshot)
| RMeta (r : result StoreError (option string)).

(** The store thread's state: the connection and the last sequence number
    published on the [latest] watch. *)
Record StoreState : Type := mkStoreState { ss_conn : Conn; ss_latest : Z }.

Section store_step.
Context `{!Blake3, !Bincode, !Hex, !Scan}.
Import State Oplog.

(** [if let Ok(Some(op)) = &res { latest_tx.send(op.origin_seq) }] *)
Definition publish (latest : Z) (res : result StoreError (option OpRecord)) : Z :=
  match res with Ok (Some op) => op_origin_seq op | _ => latest end.

(** One turn of [run_store]'s loop. *)
Definition store_step (node_id : NodeId) (st : StoreState) (cmd : StoreCmd)
  : StoreState * Reply :=
  let conn := ss_conn st in
  let keep r := (st, r) in
  let commit c r := (mkStoreState c (ss_latest st), r) in
  match cmd with
  | AppendLocal change =>
      let '(c, res) := append_local conn node_id change in
      (mkStoreState c (publish (ss_latest st) res), ROp res)
  | AppendLocalRename old_path new_path =>
      let '(c, res) := append_local_rename conn node_id old_path new_path in
      (mkStoreState c (publish (ss_latest st) res), ROp res)
  | ApplyRemote op decision =>
      let '(c, res) := apply_remote conn op decision in commit c (RDecision res)
  | LoadFile path => keep (RLocal (load_file conn path))
  | HasApplied oid => keep (RBool (Ok (has_applied conn oid)))
  | OpsSince origin after_seq limit => keep (ROps (ops_since conn origin after_seq limit))
  | RecvCursor peer => keep (RInt (Ok (cursor_value conn peer peer cc_recv_cursor)))
  | AdvanceAck peer up_to_seq => commit (advance_ack conn peer node_id up_to_seq) (RUnit (Ok ()))
  | LastAcked peer => keep (RInt (Ok (cursor_value conn peer node_id cc_last_acked_seq)))
  | PutManifest manifest =>
      let '(c, res) := put_manifest_atomic conn manifest in commit c (RUnit res)
  | ManifestFor content_hash => keep (RManifest (manifest_for conn content_hash))
  | ReconcileUpsert row =>
      let '(c, res) := reconcile_upsert conn row in commit c (RDecision res)
  | ResolveRows path remote staged =>
      let '(c, res) := resolve_rows conn path remote staged in commit c (RResolve res)
  | LoadRow path => keep (RRow (load_row conn path))
  | SnapshotForJoin => keep (RSnapshot (snapshot_for_join conn))
  | AdvanceRecvCursor peer origin up_to_seq =>
      commit (advance_recv_cursor conn peer origin up_to_seq) (RUnit (Ok ()))
  | GetMeta key => keep (RMeta (Ok (get_meta conn key)))
  | SetMeta key value => commit (set_meta conn key value) (RUnit (Ok ()))
  | LiveFiles => keep (RLive (live_files conn))
  | AllFiles => keep (RRows (all_files conn))
  | PathForHash hash => keep (RPath (Ok (path_for_hash conn hash)))
  | OpCount => keep (RInt (Ok (op_count conn)))
  end.

(** [run_store] over a sequence of commands. *)
Definition run_store (node_id : NodeId) (st : StoreState) (cmds : list StoreCmd) : StoreState :=
  foldl (λ st cmd, (store_step node_id st cmd).1) st cmds.
End store_step.
