(* ===== verification/OplogProofs.v ===== *)
(** * The operation log and the store thread: the theorems

    The invariants every command keeps (decodable tables, gap-free local
    sequence numbers), the causal discipline of the index (a row is only ever
    replaced by one that strictly supersedes it), idempotency of remote
    operations, and the contracts of appending, renaming, resolving and
    snapshotting. *)

From S2P Require Import Prelude Vv Decide Metadata Conflict ConflictProofs State Oplog.
Import VersionVector State Oplog.

(** ** Well-formed databases *)

Definition op_typed (op : OpRecord) : Prop :=
  in_u32 (op_mode op) ∧ in_u64 (op_size op) ∧ wf (op_vv op) ∧ meta_opt_typed (op_meta op).

Definition change_typed (ch : LocalChange) : Prop :=
  in_u32 (lc_mode ch) ∧ in_u64 (lc_size ch) ∧ meta_opt_typed (lc_meta ch).

Definition reconciled_typed (r : ReconciledRow) : Prop :=
  in_u32 (rr_mode r) ∧ in_u64 (rr_size r) ∧ wf (rr_vv r) ∧ meta_opt_typed (rr_meta r).

Section store.
Context `{!Blake3, !Bincode, !Hex}.

Definition enc_op (op : OpRecord) : OplogCols :=
  op_cols op (ser_vv (op_vv op)) (ser_meta <$> op_meta op).

Record conn_wf (c : Conn) : Prop := {
  cw_files : files_wf c;
  cw_oplog : Forall (λ r, ∃ op, op_typed op ∧ r = enc_op op) (t_oplog c);
  cw_ids : NoDup (oc_op_id <$> t_oplog c);
  cw_chunks : map_Forall (λ _ r, length r.1 = 32%nat) (t_manifest_chunks c);
}.

(** The log after [insert_op]. *)
Definition ins_op (op : OpRecord) (c : Conn) : Conn :=
  if existsb (λ r, bool_decide (oc_op_id r = ba_list (op_op_id op))) (t_oplog c) then c
  else set_oplog (t_oplog c ++ [enc_op op]) c.

Lemma insert_op_ins c op : insert_op c op = Ok (ins_op op c).
Proof. unfold insert_op, ins_op, enc_op. by destruct (op_meta op). Qed.

Lemma ins_op_files op c : t_files (ins_op op c) = t_files c.
Proof. unfold ins_op. by destruct (existsb _ _). Qed.
Lemma ins_op_applied op c : t_applied (ins_op op c) = t_applied c.
Proof. unfold ins_op. by destruct (existsb _ _). Qed.
Lemma ins_op_cursors op c : t_peer_cursors (ins_op op c) = t_peer_cursors c.
Proof. unfold ins_op. by destruct (existsb _ _). Qed.

Lemma existsb_id op c :
  existsb (λ r, bool_decide (oc_op_id r = ba_list (op_op_id op))) (t_oplog c) = true ↔
  ba_list (op_op_id op) ∈ oc_op_id <$> t_oplog c.
Proof.
  rewrite existsb_exists, list_elem_of_fmap. setoid_rewrite <-list_elem_of_In.
  setoid_rewrite bool_decide_eq_true. naive_solver.
Qed.

Lemma files_wf_ext c c' : t_files c = t_files c' → files_wf c → files_wf c'.
Proof. unfold files_wf. by intros <-. Qed.
Lemma load_row_ext c c' p : t_files c = t_files c' → load_row c p = load_row c' p.
Proof. unfold load_row. by intros <-. Qed.

Lemma ins_op_chunks op c : t_manifest_chunks (ins_op op c) = t_manifest_chunks c.
Proof. unfold ins_op. by destruct (existsb _ _). Qed.

Lemma conn_wf_ins op c : op_typed op → conn_wf c → conn_wf (ins_op op c).
Proof.
  intros Hop [Hf Ho Hid Hch]. split; [| | |by rewrite ins_op_chunks].
  - by eapply files_wf_ext; [symmetry; apply ins_op_files|].
  - unfold ins_op. destruct (existsb _ _); [done|]. simpl.
    apply Forall_app. split; [done|]. apply Forall_singleton. by exists op.
  - unfold ins_op. destruct (existsb _ _) eqn:Hex; [done|]. simpl. rewrite fmap_app.
    apply NoDup_app. split_and!; [done| |apply NoDup_singleton].
    intros x Hx ->%list_elem_of_singleton. assert (existsb (λ r, bool_decide (oc_op_id r = ba_list (op_op_id op))) (t_oplog c) = true)
      by (by apply existsb_id). congruence.
Qed.

Lemma conn_wf_put row c : row_typed row → conn_wf c → conn_wf (put_row row c).
Proof. intros Hr [Hf Ho Hid Hch]. split; [by apply files_wf_put|done..]. Qed.

(** Tables [conn_wf] does not speak of. *)
Lemma conn_wf_ext c c' :
  t_files c = t_files c' → t_oplog c = t_oplog c' →
  t_manifest_chunks c = t_manifest_chunks c' → conn_wf c → conn_wf c'.
Proof.
  intros Hf Ho Hch [????]. split; [by eapply files_wf_ext|by rewrite <-Ho..|by rewrite <-Hch].
Qed.

Lemma put_chunks_length h i cs m :
  map_Forall (λ _ r, length r.1 = 32%nat) m →
  map_Forall (λ _ r, length r.1 = 32%nat) (put_chunks h i cs m).
Proof.
  revert i m. induction cs as [|ch cs IH]; intros i m Hm; simpl; [done|]. apply IH.
  unfold insert_or_ignore. destruct (m !! (h, i)); [done|].
  apply map_Forall_insert_2; [|done]. simpl. apply ba_length.
Qed.

Lemma conn_wf_put_manifest m c : conn_wf c → conn_wf (put_manifest c m).
Proof. intros [Hf Ho Hid Hch]. split; [done..|]. by apply put_chunks_length. Qed.

(** ** Causal advance of the index *)

(** From [c] to [c'] no row disappears, and a row that changes is strictly
    superseded. *)
Definition rows_advance (c c' : Conn) : Prop :=
  ∀ p row, load_row c p = Ok (Some row) →
  ∃ row', load_row c' p = Ok (Some row') ∧ (row' = row ∨ lt (fr_vv row) (fr_vv row')).

Lemma rows_advance_ext c c' : t_files c = t_files c' → rows_advance c c'.
Proof. intros Hf p row Hl. exists row. rewrite <-(load_row_ext c c' p Hf). eauto. Qed.

#[export] Instance rows_advance_preorder : PreOrder rows_advance.
Proof.
  split; [intros c; by apply rows_advance_ext|].
  intros c1 c2 c3 H12 H23 p row Hl. destruct (H12 p row Hl) as (row2 & Hl2 & H2).
  destruct (H23 p row2 Hl2) as (row3 & Hl3 & H3). exists row3. split; [done|].
  destruct H2 as [->|H2], H3 as [->|H3]; auto. right. by eapply lt_trans.
Qed.

Context `{!BincodeLaws}.

Lemma rows_advance_put c row :
  files_wf c → row_typed row →
  (∀ old, load_row c (fr_path row) = Ok (Some old) → lt (fr_vv old) (fr_vv row)) →
  rows_advance c (put_row row c).
Proof.
  intros Hc Hr Hlt p old Hl. rewrite load_put_row by done.
  destruct (decide (fr_path row = p)) as [<-|Hne]; [|by eauto].
  exists row. split; [done|]. right. by apply Hlt.
Qed.

(** ** Rows of the log decode *)

Lemma op_of_enc op : op_typed op → op_of_cols (enc_op op) = Ok op.
Proof.
  intros (Hm & Hs & Hv & Hmeta). unfold op_of_cols, enc_op, op_cols. simpl.
  rewrite !array_of_list_ba. simpl.
  assert (Ht : op_type_from_i64 (op_type_to_i64 (op_op_type op)) = Ok (op_op_type op))
    by (by destruct (op_op_type op)).
  rewrite Ht. simpl. rewrite array_opt_some. simpl.
  rewrite array_opt_some. simpl.
  rewrite decode_encode_meta by done. simpl. rewrite decode_encode_vv by done. simpl.
  rewrite as_u32_i64, as_u64_i64 by done. by destruct op.
Qed.

(** The effect of an operation on one of its paths, as a candidate. *)
Definition candidate (path : string) (op : OpRecord) : Version :=
  let as_source := bool_decide (op_op_type op = OpType.Rename) && bool_decide (op_path op ≠ path) in
  let tombstone := bool_decide (op_op_type op = OpType.Delete) || as_source in
  let meta := if tombstone then None else op_meta op in
  mkVersion tombstone (if tombstone then None else op_content_hash op) (Meta.hash_of meta) meta
    (if tombstone then 0 else op_mode op) (if tombstone then 0 else op_size op)
    (op_vv op) (op_uuid op).

Lemma candidate_of_enc path op : op_typed op →
  candidate_of_cols path (enc_op op) = Ok (candidate path op).
Proof.
  intros (Hm & Hs & Hv & Hmeta). unfold candidate_of_cols, enc_op, op_cols, candidate. simpl.
  assert (Ht : op_type_from_i64 (op_type_to_i64 (op_op_type op)) = Ok (op_op_type op))
    by (by destruct (op_op_type op)).
  rewrite Ht. simpl. set (tb := (_ || _)%bool).
  rewrite decode_encode_meta by done. rewrite decode_encode_vv by done.
  rewrite array_opt_some.
  rewrite as_u32_i64, as_u64_i64 by done. destruct tb; simpl; [done|].
  by rewrite array_opt_some.
Qed.

Lemma candidate_typed path op : op_typed op → version_typed (candidate path op).
Proof.
  intros (Hm & Hs & Hv & Hmeta). unfold candidate, version_typed. simpl.
  set (tb := (_ || _)%bool). destruct tb; split_and!; try done.
Qed.

Lemma from_row_typed row : row_typed row → version_typed (Version.from_row row).
Proof. intros (? & ? & ? & ?). by split_and!. Qed.

(** The operations of the log, decoded. *)
Definition ops_of (c : Conn) (ops : list OpRecord) : Prop :=
  Forall op_typed ops ∧ t_oplog c = enc_op <$> ops.

Lemma conn_wf_ops c : conn_wf c → ∃ ops, ops_of c ops.
Proof.
  intros [_ Ho _]. unfold ops_of. induction Ho as [|r l (op & Hop & ->) Hl IH].
  - by exists [].
  - destruct IH as (ops & Hops & ->). exists (op :: ops). split; [by constructor|done].
Qed.

Lemma ops_as_candidates_ok c ops path : ops_of c ops →
  ops_as_candidates c path =
    Ok (candidate path <$> filter (λ op, op_path op = path ∨ op_path_old op = Some path) ops).
Proof.
  intros [Hops Heq]. unfold ops_as_candidates. rewrite Heq. clear Heq.
  induction Hops as [|op ops Hop Hops IH]; [done|]. rewrite fmap_cons, !filter_cons.
  change (oc_path (enc_op op)) with (op_path op).
  change (oc_path_old (enc_op op)) with (op_path_old op).
  case_decide; [|exact IH]. simpl. rewrite candidate_of_enc by done. simpl.
  rewrite IH. done.
Qed.

(** ** Effects of the commands *)

(** No counter of [node] in the index is about to overflow. *)
Definition room (node : NodeId) (c : Conn) : Prop :=
  ∀ p row, load_row c p = Ok (Some row) → get (fr_vv row) node + 1 < u64_modulus.

Definition append_op (c : Conn) (node : NodeId) (local : option FileRow) (ch : LocalChange)
  : OpRecord :=
  let seq := i64_add (latest_origin_seq c node) 1 in
  mkOpRecord (op_id node seq) node seq (lc_op_type ch) (lc_path ch) None
    (Some (append_uuid node seq local ch)) (lc_mode ch) (lc_size ch) (lc_content_hash ch)
    (lc_meta ch) (increment (default new (fr_vv <$> local)) node).

(** The row a local operation leaves at its path. *)
Definition row_of_op (op : OpRecord) : FileRow :=
  mkFileRow (op_path op) (op_content_hash op) (op_mode op) (op_size op)
    (bool_decide (op_op_type op = OpType.Delete)) (op_vv op) (op_uuid op) (op_meta op).

Definition put_manifest_opt (m : option Manifest) (c : Conn) : Conn :=
  match m with Some m => put_manifest c m | None => c end.

(** Committed effect and reply of [append_local]. *)
Definition append_effect (c : Conn) (node : NodeId) (ch : LocalChange)
    (c' : Conn) (res : result StoreError (option OpRecord)) : Prop :=
  match res with
  | Ok (Some op) => ∃ local, load_row c (lc_path ch) = Ok local ∧
      causal_noop local ch = Ok false ∧ op = append_op c node local ch ∧
      c' = put_manifest_opt (lc_manifest ch) (put_row (row_of_op op) (ins_op op c)) ∧
      (∀ m, lc_manifest ch = Some m → lc_content_hash ch = Some (mf_content_hash m))
  | Ok None => c' = c ∧ ∃ local, load_row c (lc_path ch) = Ok local ∧ causal_noop local ch = Ok true
  | Err _ => c' = c
  end.

Lemma append_local_effect c node ch :
  append_effect c node ch (append_local c node ch).1 (append_local c node ch).2.
Proof.
  unfold append_local, run_tx.
  destruct (load_row c (lc_path ch)) as [local|] eqn:Hl; [|done]. simpl.
  destruct (causal_noop local ch) as [[]|] eqn:Hn; simpl; [by eauto| |done].
  rewrite insert_op_ins. simpl.
  set (op := mkOpRecord _ _ _ _ _ _ _ _ _ _ _ _).
  pose proof (upsert_file_row (ins_op op c) (row_of_op op)) as Hup. simpl in Hup. rewrite Hup. simpl.
  unfold append_effect, put_manifest_opt. destruct (lc_manifest ch) as [m|].
  - destruct (decide (Some (mf_content_hash m) = lc_content_hash ch)) as [Hmm|Hmm].
    + rewrite (bool_decide_false (Some (mf_content_hash m) ≠ _)) by auto. simpl.
      exists local. split_and!; try done. by intros ? [= <-].
    + by rewrite (bool_decide_true (Some (mf_content_hash m) ≠ _)) by auto.
  - simpl. by exists local.
Qed.

(** The operation and rows of a rename. *)
Definition rename_vv (node : NodeId) (src : FileRow) (dst : option FileRow) : VV :=
  increment (match dst with Some d => merge (fr_vv src) (fr_vv d) | None => fr_vv src end) node.
Definition rename_op (c : Conn) (node : NodeId) (old_path new_path : string)
    (src : FileRow) (dst : option FileRow) : OpRecord :=
  let seq := i64_add (latest_origin_seq c node) 1 in
  mkOpRecord (op_id node seq) node seq OpType.Rename new_path (Some old_path)
    (Some (default (migration_uuid old_path) (fr_uuid src))) (fr_mode src) (fr_size src)
    (fr_content_hash src) (fr_meta src) (rename_vv node src dst).
Definition source_row (old_path : string) (op : OpRecord) : FileRow :=
  mkFileRow old_path None 0 0 true (op_vv op) (op_uuid op) None.

Definition rename_effect (c : Conn) (node : NodeId) (old_path new_path : string)
    (c' : Conn) (res : result StoreError (option OpRecord)) : Prop :=
  match res with
  | Ok (Some op) => ∃ src dst, load_row c old_path = Ok (Some src) ∧ fr_tombstone src = false ∧
      load_row c new_path = Ok dst ∧ old_path ≠ new_path ∧
      op = rename_op c node old_path new_path src dst ∧
      c' = put_row (row_of_op op) (put_row (source_row old_path op) (ins_op op c))
  | _ => c' = c
  end.

Lemma append_local_rename_effect c node o n :
  rename_effect c node o n (append_local_rename c node o n).1 (append_local_rename c node o n).2.
Proof.
  unfold append_local_rename, run_tx. case_bool_decide as Hon; [done|].
  destruct (load_row c o) as [[src|]|] eqn:Ho; simpl; [|done..].
  destruct (fr_tombstone src) eqn:Ht; [done|].
  destruct (load_row c n) as [dst|] eqn:Hn; simpl; [|done].
  rewrite insert_op_ins. simpl. fold (rename_vv node src dst).
  set (op := mkOpRecord _ _ _ _ _ _ _ _ _ _ _ _).
  match goal with |- context [upsert_file ?c0 n _ _ _ _ _ _ _] =>
    pose proof (upsert_file_row c0 (row_of_op op)) as Hup end.
  simpl in Hup. rewrite Hup. simpl. by exists src, dst.
Qed.

(** The row a remote operation materializes. *)
Definition remote_row (op : OpRecord) : FileRow :=
  match op_op_type op with
  | OpType.Delete => mkFileRow (op_path op) None (op_mode op) 0 true (op_vv op) (op_uuid op) None
  | _ => mkFileRow (op_path op) (op_content_hash op) (op_mode op) (op_size op) false (op_vv op)
           (op_uuid op) (op_meta op)
  end.

(** Applying absorbs nothing new: the remote vector covers the local one. *)
Lemma merge_apply (local : option FileRow) r :
  match local with Some l => wf (fr_vv l) | None => True end → wf r →
  decide_op (local_of <$> local) r = Decision.Apply →
  merge (default new (lf_vv <$> (local_of <$> local))) r = r.
Proof.
  intros Hl Hr Hd. destruct local as [l|]; simpl in *.
  - apply (decide_apply (local_of l)) in Hd. rewrite merge_comm by done.
    apply merge_absorb; [done..|apply Hd].
  - rewrite merge_comm; [by apply merge_empty_r|apply wf_empty|done].
Qed.

Definition local_wf (local : option FileRow) : Prop :=
  match local with Some l => wf (fr_vv l) | None => True end.

Lemma load_row_local_wf c p local : files_wf c → load_row c p = Ok local → local_wf local.
Proof. intros Hc Hl. destruct local as [l|]; [|done]. by apply (load_row_typed c p l). Qed.

Definition apply_put (d : Decision) (row : FileRow) (c : Conn) : Conn :=
  if bool_decide (d = Decision.Apply) then put_row row c else c.

Lemma apply_target_effect c op local :
  files_wf c → op_typed op → load_row c (op_path op) = Ok local →
  let d := decide_op (local_of <$> local) (op_vv op) in
  apply_target c op = Ok (apply_put d (remote_row op) c, d).
Proof.
  intros Hc Hop Hl d. unfold apply_target, apply_put. rewrite (load_file_row c _ local) by done.
  simpl. fold d. case_bool_decide as Hd; [|done].
  rewrite merge_apply; [|by eapply load_row_local_wf|apply Hop|done].
  pose proof (upsert_file_row c (remote_row op)) as Hup. unfold remote_row in *.
  destruct (op_op_type op); simpl in *; by rewrite ?Hup.
Qed.

Lemma apply_source_effect c op old local :
  files_wf c → op_typed op → op_op_type op = OpType.Rename → op_path_old op = Some old →
  load_row c old = Ok local →
  apply_source c op =
    Ok (apply_put (decide_op (local_of <$> local) (op_vv op)) (source_row old op) c).
Proof.
  intros Hc Hop Ht Ho Hl. unfold apply_source, apply_put. rewrite Ht, Ho.
  rewrite bool_decide_true by done. rewrite (load_file_row c _ local) by done. simpl.
  case_bool_decide as Hd; [|done].
  rewrite merge_apply; [|by eapply load_row_local_wf|apply Hop|done].
  pose proof (upsert_file_row c (source_row old op)) as Hup. simpl in Hup. by rewrite ?Hup.
Qed.

Definition bump_cursor (op : OpRecord) (c : Conn) : Conn :=
  update_cursor (bump_recv (op_origin_seq op)) (op_origin op) (op_origin op)
    (ensure_cursor_row c (op_origin op) (op_origin op)).
Definition mark_applied (op : OpRecord) (c : Conn) : Conn :=
  set_applied ({[ ba_list (op_op_id op) ]} ∪ t_applied c) c.

(** The decision [apply_remote] acts on. *)
Definition effective_of (d : Decision) (local : option FileRow) (vv : VV) : Decision :=
  if bool_decide (d = Decision.Apply) then decide_op (local_of <$> local) vv else d.

Definition remote_effect (c : Conn) (op : OpRecord) (d : Decision)
    (c' : Conn) (res : result StoreError Decision) : Prop :=
  if has_applied c (op_op_id op) then c' = bump_cursor op c ∧ res = Ok d
  else ∃ local, load_row c (op_path op) = Ok local ∧
    let eff := effective_of d local (op_vv op) in
    let c2 := apply_put eff (remote_row op) (ins_op op c) in
    match op_op_type op, op_path_old op with
    | OpType.Rename, None =>
        c' = c ∧ res = Err (StoreError.Corrupt "rename op without path_old")
    | OpType.Rename, Some old => ∃ lo, load_row c2 old = Ok lo ∧ res = Ok eff ∧
        c' = bump_cursor op (mark_applied op
               (apply_put (decide_op (local_of <$> lo) (op_vv op)) (source_row old op) c2))
    | _, _ => res = Ok eff ∧ c' = bump_cursor op (mark_applied op c2)
    end.

Lemma remote_row_typed op : op_typed op → row_typed (remote_row op).
Proof.
  intros (Hm & Hs & Hv & Hmeta). unfold remote_row, row_typed.
  by destruct (op_op_type op); simpl; split_and!.
Qed.
Lemma remote_row_path op : fr_path (remote_row op) = op_path op.
Proof. unfold remote_row. by destruct (op_op_type op). Qed.
Lemma remote_row_vv op : fr_vv (remote_row op) = op_vv op.
Proof. unfold remote_row. by destruct (op_op_type op). Qed.
Lemma source_row_typed old op : op_typed op → row_typed (source_row old op).
Proof. intros (Hm & Hs & Hv & Hmeta). by unfold source_row, row_typed; simpl. Qed.

Lemma apply_put_wf d row c : row_typed row → files_wf c → files_wf (apply_put d row c).
Proof. unfold apply_put. case_bool_decide; auto with replicore. Qed.

Lemma apply_remote_effect c op d :
  conn_wf c → op_typed op →
  remote_effect c op d (apply_remote c op d).1 (apply_remote c op d).2.
Proof.
  intros Hc Hop. unfold apply_remote, run_tx, remote_effect.
  destruct (has_applied c (op_op_id op)) eqn:Hap; [done|].
  destruct (load_row_total c (op_path op) (cw_files _ Hc)) as [local Hl].
  exists local. split; [done|]. rewrite insert_op_ins. simpl.
  assert (Hwf1 : files_wf (ins_op op c)) by apply (conn_wf_ins op c Hop Hc).
  assert (Hl1 : load_row (ins_op op c) (op_path op) = Ok local).
  { rewrite <-Hl. apply load_row_ext, ins_op_files. }
  set (eff := effective_of d local (op_vv op)).
  set (c2 := apply_put eff (remote_row op) (ins_op op c)).
  assert (Hr : (if bool_decide (d = Decision.Apply) then apply_target (ins_op op c) op
    else Ok (ins_op op c, d)) = Ok (c2, eff)).
  { subst c2 eff. unfold effective_of. case_bool_decide as Hd.
    - by rewrite (apply_target_effect _ _ local).
    - unfold apply_put. by rewrite bool_decide_false. }
  rewrite Hr. simpl.
  assert (Hwf2 : files_wf c2) by (apply apply_put_wf; [by apply remote_row_typed|done]).
  destruct (op_op_type op) eqn:Ht; [|by unfold apply_source; rewrite Ht..|].
  { unfold apply_source. by rewrite Ht. }
  destruct (op_path_old op) as [old|] eqn:Ho.
  - destruct (load_row_total c2 old Hwf2) as [lo Hlo]. exists lo. split; [done|].
    by rewrite (apply_source_effect c2 op old lo).
  - unfold apply_source. by rewrite Ht, Ho.
Qed.

(** Rows a resolution commits. *)
Definition row_of_planned (r : PlannedRow) : FileRow :=
  mkFileRow (pr_path r) (pr_content_hash r) (pr_mode r) (pr_size r) (pr_tombstone r)
    (pr_vv r) (pr_uuid r) (pr_meta r).
Definition put_planned (rows : list PlannedRow) (c : Conn) : Conn :=
  foldl (λ c r, put_row (row_of_planned r) c) c rows.

Lemma upsert_rows_put c rows : upsert_rows c rows = Ok (put_planned rows c).
Proof.
  revert c. induction rows as [|r rows IH]; intros c; simpl; [done|].
  pose proof (upsert_file_row c (row_of_planned r)) as Hup. simpl in Hup. rewrite Hup. simpl.
  apply IH.
Qed.

Definition resolve_effect (c : Conn) (path : string) (remote : Version) (staged : list PlannedRow)
    (c' : Conn) (res : result StoreError ResolveOutcome) : Prop :=
  match res with
  | Ok (ResolveOutcome.NotConcurrent d) => c' = c ∧ ∃ local, load_row c path = Ok local ∧
      d = decide_op (local_of <$> local) (v_vv remote) ∧ d ≠ Decision.Concurrent
  | Ok out => ∃ row ops, load_row c path = Ok (Some row) ∧
      concurrent (v_vv remote) (fr_vv row) ∧ ops_as_candidates c path = Ok ops ∧
      let plan := Resolve.plan_candidates (lookup_version c) path (resolve_candidates ops remote row) in
      match out with
      | ResolveOutcome.Resolved => plan = Ok (Some staged) ∧ c' = put_planned staged c
      | ResolveOutcome.Stale p => plan = Ok (Some p) ∧ p ≠ staged ∧ c' = c
      | _ => plan = Ok None ∧ c' = c
      end
  | Err _ => c' = c
  end.

Lemma resolve_rows_effect c path remote staged :
  resolve_effect c path remote staged
    (resolve_rows c path remote staged).1 (resolve_rows c path remote staged).2.
Proof.
  unfold resolve_rows, run_tx. destruct (load_row c path) as [local|] eqn:Hl; [|done].
  cbn [mbind result_bind]. fold local_of.
  change (λ r, mkLocalFile (fr_vv r) (fr_tombstone r) (fr_content_hash r) (fr_mode r)) with local_of.
  set (d := decide_op (local_of <$> local) (v_vv remote)).
  case_bool_decide as Hd; [simpl; split; [done|by exists local]|].
  destruct local as [row|]; [|done].
  assert (Hconc : concurrent (v_vv remote) (fr_vv row)).
  { apply (decide_concurrent (local_of row)). destruct (decide (d = Decision.Concurrent)); [done|].
    by destruct Hd. }
  destruct (ops_as_candidates c path) as [ops|] eqn:Hops; [|done]. cbn [mbind result_bind].
  destruct (Resolve.plan_candidates _ _ _) as [[plan|]|] eqn:Hplan; cbn [mbind result_bind]; [| |done].
  - case_bool_decide as Hst.
    + simpl. exists row, ops. by split_and!.
    + assert (plan = staged) as <- by (destruct (decide (plan = staged)); [done|by destruct Hst]).
      rewrite upsert_rows_put. simpl. exists row, ops. by split_and!.
  - simpl. exists row, ops. by split_and!.
Qed.

(** ** Every command keeps the store well-formed and advances its rows *)

Definition step_ok (c c' : Conn) : Prop := conn_wf c' ∧ rows_advance c c'.

Lemma step_ok_refl c : conn_wf c → step_ok c c.
Proof. by split. Qed.
Lemma step_ok_trans c1 c2 c3 : step_ok c1 c2 → step_ok c2 c3 → step_ok c1 c3.
Proof. intros [_ H12] [Hwf H23]. split; [done|by etrans]. Qed.
Lemma step_ok_frame c c' :
  conn_wf c → t_files c' = t_files c → t_oplog c' = t_oplog c →
  t_manifest_chunks c' = t_manifest_chunks c → step_ok c c'.
Proof. intros Hc Hf Ho Hch. split; [by eapply conn_wf_ext|by apply rows_advance_ext]. Qed.
Lemma step_ok_put_manifest c m : conn_wf c → step_ok c (put_manifest c m).
Proof. intros Hc. split; [by apply conn_wf_put_manifest|by apply rows_advance_ext]. Qed.
Lemma step_ok_ins c op : conn_wf c → op_typed op → step_ok c (ins_op op c).
Proof. intros Hc Hop. split; [by apply conn_wf_ins|]. apply rows_advance_ext. by rewrite ins_op_files. Qed.
Lemma step_ok_put c row :
  conn_wf c → row_typed row →
  (∀ old, load_row c (fr_path row) = Ok (Some old) → lt (fr_vv old) (fr_vv row)) →
  step_ok c (put_row row c).
Proof. intros Hc Hr Hlt. split; [by apply conn_wf_put|]. apply rows_advance_put; [apply Hc|done..]. Qed.

Lemma step_ok_apply c row local vv :
  conn_wf c → row_typed row → fr_vv row = vv → load_row c (fr_path row) = Ok local →
  step_ok c (apply_put (decide_op (local_of <$> local) vv) row c).
Proof.
  intros Hc Hr Hvv Hl. unfold apply_put. case_bool_decide as Hd; [|by apply step_ok_refl].
  apply step_ok_put; [done..|]. intros old Hold. rewrite Hl in Hold. injection Hold as ->.
  rewrite Hvv. by apply (decide_apply (local_of old)).
Qed.

Lemma append_op_ok c node ch local :
  conn_wf c → change_typed ch → room node c → load_row c (lc_path ch) = Ok local →
  op_typed (append_op c node local ch) ∧
  ∀ l, local = Some l → lt (fr_vv l) (op_vv (append_op c node local ch)).
Proof.
  intros Hc (Hm & Hs & Hmeta) Hroom Hl.
  assert (Hvv : wf (increment (default new (fr_vv <$> local)) node) ∧
    ∀ l, local = Some l → lt (fr_vv l) (increment (default new (fr_vv <$> local)) node)).
  { destruct local as [l|]; simpl.
    - assert (wf (fr_vv l)) by (by apply (load_row_typed c (lc_path ch) l); [apply Hc|]).
      split; [|intros l' [= <-]]; [apply increment_wf|apply increment_lt]; eauto.
    - split; [|done]. apply increment_wf; [apply wf_empty|]. by rewrite get_new. }
  destruct Hvv. by split; [split_and!|].
Qed.

Lemma step_ok_append c node ch :
  conn_wf c → change_typed ch → room node c → step_ok c (append_local c node ch).1.
Proof.
  intros Hc Hch Hroom. pose proof (append_local_effect c node ch) as Heff.
  destruct (append_local c node ch) as [c' [[op|]|e]]; simpl in *.
  2:{ destruct Heff as [-> _]. by apply step_ok_refl. }
  2:{ subst. by apply step_ok_refl. }
  destruct Heff as (local & Hl & _ & Hop & -> & _).
  destruct (append_op_ok c node ch local) as [Hot Hlt]; [done..|]. rewrite <-Hop in Hot, Hlt.
  apply (step_ok_trans _ (ins_op op c)); [by apply step_ok_ins|].
  assert (Hput : step_ok (ins_op op c) (put_row (row_of_op op) (ins_op op c))).
  { apply step_ok_put; [by apply conn_wf_ins|by destruct Hot as (? & ? & ? & ?); split_and!|].
    intros old Hold. simpl in *. rewrite <-(load_row_ext c) in Hold by (by rewrite ins_op_files).
    rewrite Hop in Hold. simpl in Hold. rewrite Hl in Hold. injection Hold as ->. by apply Hlt. }
  eapply step_ok_trans; [exact Hput|].
  unfold put_manifest_opt. destruct (lc_manifest ch); [|apply step_ok_refl, Hput].
  apply step_ok_put_manifest, Hput.
Qed.

Lemma rename_vv_ok c node o n src dst :
  files_wf c → room node c → load_row c o = Ok (Some src) → load_row c n = Ok dst →
  wf (rename_vv node src dst) ∧ lt (fr_vv src) (rename_vv node src dst) ∧
  (∀ d, dst = Some d → lt (fr_vv d) (rename_vv node src dst)).
Proof.
  intros Hc Hroom Ho Hn. pose proof (load_row_local_wf _ _ _ Hc Ho) as Hs. simpl in Hs.
  pose proof (Hroom _ _ Ho) as Hrs. unfold rename_vv. destruct dst as [d|].
  - pose proof (load_row_local_wf _ _ _ Hc Hn) as Hd. simpl in Hd.
    pose proof (Hroom _ _ Hn) as Hrd.
    assert (Hm : wf (merge (fr_vv src) (fr_vv d))) by (by apply merge_wf).
    assert (Hr : get (merge (fr_vv src) (fr_vv d)) node + 1 < u64_modulus)
      by (rewrite get_merge by done; lia).
    split_and!; [by apply increment_wf|..].
    + eapply le_lt_trans; [by apply (merge_le_l _ (fr_vv d))|by apply increment_lt].
    + intros ? [= <-]. eapply le_lt_trans; [by apply (merge_le_r (fr_vv src))|by apply increment_lt].
  - split_and!; [by apply increment_wf|by apply increment_lt|done].
Qed.

Lemma rename_op_typed c node o n src dst :
  conn_wf c → room node c → load_row c o = Ok (Some src) → load_row c n = Ok dst →
  op_typed (rename_op c node o n src dst).
Proof.
  intros Hc Hroom Ho Hn.
  destruct (rename_vv_ok c node o n src dst) as (Hwfv & _ & _); [apply Hc|done..|].
  pose proof (load_row_typed _ _ _ (cw_files _ Hc) Ho) as (Hm & Hs & _ & Hmeta). by split_and!.
Qed.

Lemma step_ok_rename c node o n :
  conn_wf c → room node c → step_ok c (append_local_rename c node o n).1.
Proof.
  intros Hc Hroom. pose proof (append_local_rename_effect c node o n) as Heff.
  destruct (append_local_rename c node o n) as [c' [[op|]|e]]; simpl in *;
    [|subst; by apply step_ok_refl..].
  destruct Heff as (src & dst & Ho & Ht & Hn & Hne & Hop & ->).
  destruct (rename_vv_ok c node o n src dst) as (Hwfv & Hsrc & Hdst); [apply Hc|done..|].
  pose proof (load_row_typed _ _ _ (cw_files _ Hc) Ho) as (Hm & Hs & _ & Hmeta).
  assert (Hot : op_typed op) by (rewrite Hop; by apply rename_op_typed).
  assert (Hov : op_vv op = rename_vv node src dst) by by rewrite Hop.
  assert (Hcf : t_files c = t_files (ins_op op c)) by (by rewrite ins_op_files).
  eapply step_ok_trans; [by apply step_ok_ins|].
  assert (Hc1 : conn_wf (ins_op op c)) by (by apply conn_wf_ins).
  assert (Hst : row_typed (source_row o op)) by (by apply source_row_typed).
  eapply step_ok_trans; [apply (step_ok_put _ (source_row o op)); [done..|]|].
  { simpl. intros old Hold. rewrite <-(load_row_ext c), Ho in Hold by done.
    injection Hold as <-. by rewrite Hov. }
  apply step_ok_put; [by apply conn_wf_put|by rewrite Hop; split_and!|].
  intros old Hold. rewrite load_put_row in Hold; [|done|apply Hc1].
  rewrite decide_False in Hold by (by rewrite Hop).
  rewrite <-(load_row_ext c) in Hold by done. simpl. rewrite Hov. apply Hdst.
  rewrite Hop in Hold. simpl in Hold. congruence.
Qed.

Lemma apply_put_effective c op d local :
  conn_wf c → op_typed op → load_row c (op_path op) = Ok local →
  step_ok c (apply_put (effective_of d local (op_vv op)) (remote_row op) c).
Proof.
  intros Hc Hop Hl. unfold effective_of. case_bool_decide as Hd.
  - apply step_ok_apply; [done|by apply remote_row_typed|apply remote_row_vv|].
    by rewrite remote_row_path.
  - unfold apply_put. rewrite bool_decide_false by done. by apply step_ok_refl.
Qed.

Lemma step_ok_marks c op : conn_wf c → step_ok c (bump_cursor op (mark_applied op c)).
Proof. intros Hc. by apply step_ok_frame. Qed.

Lemma step_ok_remote c op d :
  conn_wf c → op_typed op → step_ok c (apply_remote c op d).1.
Proof.
  intros Hc Hop. pose proof (apply_remote_effect c op d Hc Hop) as Heff. unfold remote_effect in Heff.
  destruct (apply_remote c op d) as [c' res]. simpl in *.
  destruct (has_applied c (op_op_id op)).
  { destruct Heff as [-> _]. by apply step_ok_frame. }
  destruct Heff as (local & Hl & Heff).
  set (c2 := apply_put _ _ _) in Heff.
  assert (Hc2 : step_ok c c2).
  { eapply step_ok_trans; [by apply step_ok_ins|]. apply apply_put_effective; [by apply conn_wf_ins|done|].
    rewrite <-Hl. apply load_row_ext, ins_op_files. }
  destruct (op_op_type op) eqn:Ht; [| |destruct (op_path_old op) as [old|]].
  - destruct Heff as [_ ->]. eapply step_ok_trans; [exact Hc2|]. apply step_ok_marks, Hc2.
  - destruct Heff as [_ ->]. eapply step_ok_trans; [exact Hc2|]. apply step_ok_marks, Hc2.
  - destruct Heff as (lo & Hlo & _ & ->). eapply step_ok_trans; [exact Hc2|].
    eapply step_ok_trans.
    + apply (step_ok_apply c2 (source_row old op) lo); [apply Hc2|by apply source_row_typed|done|done].
    + apply step_ok_marks. apply (step_ok_apply c2); [apply Hc2|by apply source_row_typed|done|done].
  - destruct Heff as [-> _]. by apply step_ok_refl.
Qed.

Definition reconciled_row (r : ReconciledRow) : FileRow :=
  mkFileRow (rr_path r) (rr_content_hash r) (rr_mode r) (rr_size r) (rr_tombstone r)
    (rr_vv r) (rr_uuid r) (rr_meta r).

Lemma reconcile_upsert_effect c r local :
  files_wf c → reconciled_typed r → load_row c (rr_path r) = Ok local →
  let d := decide_op (local_of <$> local) (rr_vv r) in
  reconcile_upsert c r = (apply_put d (reconciled_row r) c, Ok d).
Proof.
  intros Hc Hr Hl d. unfold reconcile_upsert, run_tx, apply_put.
  rewrite (load_file_row c _ local) by done. cbn [mbind result_bind]. fold d.
  case_bool_decide as Hd; [|done].
  rewrite merge_apply; [|by eapply load_row_local_wf|apply Hr|done].
  pose proof (upsert_file_row c (reconciled_row r)) as Hup. simpl in Hup. by rewrite Hup.
Qed.

Lemma step_ok_reconcile c r :
  conn_wf c → reconciled_typed r → step_ok c (reconcile_upsert c r).1.
Proof.
  intros Hc Hr. destruct (load_row_total c (rr_path r) (cw_files _ Hc)) as [local Hl].
  rewrite (reconcile_upsert_effect c r local); [|apply Hc|done..]. simpl.
  apply step_ok_apply; [done| |done..]. destruct Hr as (? & ? & ? & ?). by split_and!.
Qed.

(** ** Resolution *)

Lemma lookup_version_ok c p e :
  files_wf c → lookup_version c p = Ok (Some e) →
  ∃ row, load_row c p = Ok (Some row) ∧ e = Version.from_row row.
Proof.
  intros Hc. unfold lookup_version. destruct (load_row c p) as [[row|]|]; simpl; [|done..].
  intros [= <-]. by exists row.
Qed.

Lemma lookup_version_total c p : files_wf c → ∃ o, lookup_version c p = Ok o.
Proof.
  intros Hc. unfold lookup_version. destruct (load_row_total c p Hc) as [o ->]. simpl. eauto.
Qed.

Lemma ops_as_candidates_typed c path cs :
  conn_wf c → ops_as_candidates c path = Ok cs → Forall version_typed cs.
Proof.
  intros Hc Hcs. destruct (conn_wf_ops c Hc) as (ops & Hops).
  rewrite (ops_as_candidates_ok c ops path Hops) in Hcs. injection Hcs as <-.
  apply Forall_forall. intros v (op & -> & [_ Hop]%list_elem_of_filter)%list_elem_of_fmap.
  apply candidate_typed. destruct Hops as [Ht _]. rewrite Forall_forall in Ht. by apply Ht.
Qed.

Lemma resolve_candidates_ok ops remote row :
  Forall version_typed ops → version_typed remote → row_typed row →
  concurrent (v_vv remote) (fr_vv row) →
  let cs := resolve_candidates ops remote row in
  Forall version_typed cs ∧ remote ∈ cs ∧ lt (fr_vv row) (Resolve.join_vvs cs).
Proof.
  intros Hops Hr Hrow [Hnle _]. unfold resolve_candidates.
  assert (Hbase : Forall version_typed (ops ++ [remote])).
  { apply Forall_app. by rewrite Forall_singleton. }
  assert (Hin : remote ∈ ops ++ [remote]) by set_solver.
  assert (Hstrict : ∀ cs, Forall version_typed cs → remote ∈ cs →
    le (fr_vv row) (Resolve.join_vvs cs) → lt (fr_vv row) (Resolve.join_vvs cs)).
  { intros cs Hcs Hincs Hle. split; [done|]. intros Hback. apply Hnle.
    etrans; [|exact Hback]. apply join_vvs_spec; [|done].
    eapply Forall_impl; [exact Hcs|]. intros v Hv. apply Hv. }
  pose proof (compare_cases (Resolve.join_vvs (ops ++ [remote])) (fr_vv row)) as Hc.
  assert (Hext : Forall version_typed ((ops ++ [remote]) ++ [Version.from_row row])).
  { apply Forall_app. rewrite Forall_singleton. split; [done|by apply from_row_typed]. }
  destruct (compare _ _).
  - split_and!; [done..|]. apply Hstrict; [done..|apply Hc].
  - split_and!; [done|set_solver|]. apply Hstrict; [done|set_solver|].
    apply (proj1 (proj2 (join_vvs_spec _ (Forall_impl _ _ _ Hext (λ v Hv, proj1 (proj2 (proj2 Hv)))))) (Version.from_row row)).
    set_solver.
  - split_and!; [done..|]. apply Hstrict; [done..|apply Hc].
  - split_and!; [done|set_solver|]. apply Hstrict; [done|set_solver|].
    apply (proj1 (proj2 (join_vvs_spec _ (Forall_impl _ _ _ Hext (λ v Hv, proj1 (proj2 (proj2 Hv)))))) (Version.from_row row)).
    set_solver.
Qed.

Lemma planned_row_typed r : planned_typed r → row_typed (row_of_planned r).
Proof. intros (? & ? & ? & ?). by split_and!. Qed.

(** Committing rows at distinct paths: each lands, nothing else moves. *)
Lemma put_planned_load rows c :
  files_wf c → Forall planned_typed rows → NoDup (pr_path <$> rows) →
  files_wf (put_planned rows c) ∧
  (∀ r, r ∈ rows → load_row (put_planned rows c) (pr_path r) = Ok (Some (row_of_planned r))) ∧
  (∀ p, p ∉ pr_path <$> rows → load_row (put_planned rows c) p = load_row c p).
Proof.
  intros Hc Hrows. revert c Hc. induction Hrows as [|r rows Hr Hrows IH]; intros c Hc Hnd; simpl.
  { split_and!; [done| |done]. intros r Hr. by apply not_elem_of_nil in Hr. }
  rewrite fmap_cons in Hnd. apply NoDup_cons in Hnd as [Hnin Hnd].
  assert (Hrt : row_typed (row_of_planned r)) by (by apply planned_row_typed).
  destruct (IH (put_row (row_of_planned r) c)) as (Hwf & Hin & Hout); [by apply files_wf_put|done|].
  split_and!; [done| |].
  - intros r' [->|Hr']%elem_of_cons; [|by apply Hin].
    rewrite Hout by done. rewrite load_put_row by done. by rewrite decide_True.
  - intros p Hp. rewrite elem_of_cons in Hp. rewrite Hout by tauto.
    rewrite load_put_row by done. rewrite decide_False; [done|]. simpl. intros Heq. apply Hp. by left.
Qed.

(** ... and only the index moves. *)
Lemma put_planned_frame rows c : put_planned rows c = set_files (λ _, t_files (put_planned rows c)) c.
Proof.
  revert c. induction rows as [|r rows IH]; intros c; simpl; [by destruct c|].
  by rewrite IH at 1.
Qed.

(** The plan a resolution commits: typed, at distinct paths, each row strictly
    above what the index holds, the first one at the contested path and above
    the remote version. *)
Lemma resolve_plan_ok c path remote row ops plan :
  conn_wf c → version_typed remote → load_row c path = Ok (Some row) →
  concurrent (v_vv remote) (fr_vv row) → ops_as_candidates c path = Ok ops →
  Resolve.plan_candidates (lookup_version c) path (resolve_candidates ops remote row)
    = Ok (Some plan) →
  NoDup (pr_path <$> plan) ∧ Forall (row_ok (lookup_version c)) plan ∧
  ∃ w rest, plan = w :: rest ∧ pr_path w = path ∧ le (v_vv remote) (pr_vv w) ∧
    lt (fr_vv row) (pr_vv w).
Proof.
  intros Hc Hr Hl Hconc Hops Hplan.
  pose proof (load_row_typed _ _ _ (cw_files _ Hc) Hl) as Hrow.
  pose proof (ops_as_candidates_typed c path ops Hc Hops) as Hopst.
  destruct (resolve_candidates_ok ops remote row) as (Hcs & Hin & Hlt); [done..|].
  pose proof (plan_candidates_inv _ _ _ _ Hplan) as (w & ls & extra & Ha & -> & _ & Hnd).
  split_and!; [done| |].
  - eapply plan_candidates_advances; [| | |exact Hplan].
    + intros p e He. apply lookup_version_ok in He as (r & Hr' & ->); [|apply Hc].
      apply from_row_typed. by eapply load_row_typed; [apply Hc|].
    + done.
    + intros e He. apply lookup_version_ok in He as (r & Hr' & ->); [|apply Hc].
      rewrite Hl in Hr'. injection Hr' as <-. exact Hlt.
  - do 2 eexists. split_and!; [done|done| |exact Hlt]. simpl.
    apply join_vvs_spec; [|done]. eapply Forall_impl; [exact Hcs|]. intros v Hv. apply Hv.
Qed.

Lemma step_ok_resolve c path remote staged :
  conn_wf c → version_typed remote → step_ok c (resolve_rows c path remote staged).1.
Proof.
  intros Hc Hr. pose proof (resolve_rows_effect c path remote staged) as Heff.
  destruct (resolve_rows c path remote staged) as [c' [[|d|p|]|e]]; simpl in *;
    [|naive_solver auto using step_ok_refl..].
  destruct Heff as (row & ops & Hl & Hconc & Hops & Hplan & ->).
  destruct (resolve_plan_ok c path remote row ops staged) as (Hnd & Hok & _); [done..|].
  assert (Hty : Forall planned_typed staged) by (eapply Forall_impl; [exact Hok|]; by intros ? [? _]).
  destruct (put_planned_load staged c) as (Hwf & Hin & Hout); [apply Hc|done..|].
  split.
  - split; [done|rewrite put_planned_frame; apply Hc..].
  - intros p old Hold. destruct (decide (p ∈ pr_path <$> staged)) as [Hp|Hp].
    + apply list_elem_of_fmap in Hp as (r & -> & Hrin). exists (row_of_planned r).
      split; [by apply Hin|]. right. rewrite Forall_forall in Hok.
      destruct (Hok r Hrin) as [_ Hadv]. apply (Hadv (Version.from_row old)).
      unfold lookup_version. by rewrite Hold.
    + exists old. rewrite Hout by done. auto.
Qed.
End store.
