(* ===== verification/StoreProps.v ===== *)
(** * The store thread: its contracts

    Properties of whole runs of the store thread and of the replies it sends,
    on top of the per-command effects of OplogProofs. *)

From S2P Require Import Prelude Vv Decide Metadata Conflict ConflictProofs State Oplog OplogProofs.
Import VersionVector State Oplog.

(** What the callers guarantee about the values they send. *)
Definition cmd_typed (cmd : StoreCmd) : Prop :=
  match cmd with
  | AppendLocal ch => change_typed ch
  | ApplyRemote op _ => op_typed op
  | ReconcileUpsert r => reconciled_typed r
  | ResolveRows _ remote _ => version_typed remote
  | _ => True
  end.

Definition err_of {A} (x : result StoreError A) : option StoreError :=
  match x with Ok _ => None | Err e => Some e end.

(** The error a reply carries, if any. *)
Definition reply_err (r : Reply) : option StoreError :=
  match r with
  | ROp x => err_of x | RResolve x => err_of x | RRow x => err_of x | RDecision x => err_of x
  | RLocal x => err_of x | RBool x => err_of x | ROps x => err_of x | RInt x => err_of x
  | RUnit x => err_of x | RLive x => err_of x | RRows x => err_of x | RPath x => err_of x
  | RManifest x => err_of x | RSnapshot x => err_of x | RMeta x => err_of x
  end.

Section runs.
Context `{!Blake3, !Bincode, !Hex, !Scan, !BincodeLaws}.

Lemma store_step_ok node st cmd :
  conn_wf (ss_conn st) → cmd_typed cmd → room node (ss_conn st) →
  step_ok (ss_conn st) (ss_conn (store_step node st cmd).1).
Proof.
  intros Hc Hcmd Hroom. destruct cmd; simpl in *; try by apply step_ok_refl.
  - pose proof (step_ok_append _ node change Hc Hcmd Hroom) as Hs. by destruct (append_local _ _ _).
  - pose proof (step_ok_rename _ node old_path new_path Hc Hroom) as Hs.
    by destruct (append_local_rename _ _ _ _).
  - pose proof (step_ok_resolve _ path remote staged Hc Hcmd) as Hs. by destruct (resolve_rows _ _ _ _).
  - pose proof (step_ok_remote _ op decision Hc Hcmd) as Hs. by destruct (apply_remote _ _ _).
  - by apply step_ok_frame.
  - by apply step_ok_put_manifest.
  - pose proof (step_ok_reconcile _ row Hc Hcmd) as Hs. by destruct (reconcile_upsert _ _).
  - by apply step_ok_frame.
  - by apply step_ok_frame.
Qed.

(** Along a run every command is well-typed and meets no counter at its
    limit. *)
Fixpoint run_typed (node : NodeId) (st : StoreState) (cmds : list StoreCmd) : Prop :=
  match cmds with
  | [] => True
  | cmd :: cmds => cmd_typed cmd ∧ room node (ss_conn st) ∧
      run_typed node (store_step node st cmd).1 cmds
  end.

Lemma run_store_ok node st cmds :
  conn_wf (ss_conn st) → run_typed node st cmds →
  step_ok (ss_conn st) (ss_conn (run_store node st cmds)).
Proof.
  revert st. induction cmds as [|cmd cmds IH]; intros st Hc Hrun; [by apply step_ok_refl|].
  destruct Hrun as (Hcmd & Hroom & Hrun).
  pose proof (store_step_ok node st cmd Hc Hcmd Hroom) as Hs.
  eapply step_ok_trans; [exact Hs|]. apply IH; [apply Hs|done].
Qed.

(** C1: The causal discipline of the index. Whatever sequence of commands
    the store serves (local writes, renames, remote operations with stale or
    fresh decisions, anti-entropy rows, conflict resolutions, in any
    interleaving), every path keeps a row, and at the end that row is either
    the same or has a version vector strictly above the old one. In
    particular a tombstone is never replaced by anything that has not seen
    the delete. *)
Theorem store_rows_only_advance (node : NodeId) (st : StoreState) (cmds : list StoreCmd) :
  conn_wf (ss_conn st) → run_typed node st cmds →
  let c' := ss_conn (run_store node st cmds) in
  conn_wf c' ∧
  ∀ p row, load_row (ss_conn st) p = Ok (Some row) →
    ∃ row', load_row c' p = Ok (Some row') ∧ (row' = row ∨ lt (fr_vv row) (fr_vv row')).
Proof. intros Hc Hrun. apply (run_store_ok node st cmds Hc Hrun). Qed.

(** ** Replies *)

Lemma append_local_err c node ch e :
  conn_wf c → (append_local c node ch).2 = Err e →
  lc_op_type ch = OpType.Rename ∨
  ∃ m, lc_manifest ch = Some m ∧ lc_content_hash ch ≠ Some (mf_content_hash m).
Proof.
  intros Hc. unfold append_local, run_tx.
  destruct (load_row_total c (lc_path ch) (cw_files _ Hc)) as [local ->]. simpl.
  destruct (causal_noop local ch) as [[]|] eqn:Hn; simpl; [done| |].
  - rewrite insert_op_ins. simpl. set (op := mkOpRecord _ _ _ _ _ _ _ _ _ _ _ _).
    pose proof (upsert_file_row (ins_op op c) (row_of_op op)) as Hup. simpl in Hup. rewrite Hup.
    simpl. destruct (lc_manifest ch) as [m|]; [|done].
    destruct (decide (lc_content_hash ch = Some (mf_content_hash m))); [|by right; exists m].
    rewrite (bool_decide_false (Some (mf_content_hash m) ≠ _)); [done|]. auto.
  - intros _. left. unfold causal_noop in Hn. by destruct (lc_op_type ch), local.
Qed.

Lemma rename_no_err c node o n : conn_wf c → ∃ r, (append_local_rename c node o n).2 = Ok r.
Proof.
  intros Hc. unfold append_local_rename, run_tx. case_bool_decide; [by eexists|].
  destruct (load_row_total c o (cw_files _ Hc)) as [[src|] ->]; simpl; [|by eexists].
  destruct (fr_tombstone src); [by eexists|].
  destruct (load_row_total c n (cw_files _ Hc)) as [dst ->]. simpl.
  rewrite insert_op_ins. simpl. set (op := mkOpRecord _ _ _ _ _ _ _ _ _ _ _ _).
  match goal with |- context [upsert_file ?c0 n _ _ _ _ _ _ _] =>
    pose proof (upsert_file_row c0 (row_of_op op)) as Hup end.
  simpl in Hup. rewrite Hup. simpl. by eexists.
Qed.

Lemma apply_remote_err c op d e :
  conn_wf c → op_typed op → (apply_remote c op d).2 = Err e →
  op_op_type op = OpType.Rename ∧ op_path_old op = None.
Proof.
  intros Hc Hop He. pose proof (apply_remote_effect c op d Hc Hop) as Heff. rewrite He in Heff.
  unfold remote_effect in Heff. destruct (has_applied _ _); [naive_solver|].
  destruct Heff as (local & _ & Heff).
  destruct (op_op_type op), (op_path_old op); naive_solver.
Qed.

Lemma reconcile_no_err c r : conn_wf c → reconciled_typed r → ∃ d, (reconcile_upsert c r).2 = Ok d.
Proof.
  intros Hc Hr. destruct (load_row_total c (rr_path r) (cw_files _ Hc)) as [local Hl].
  rewrite (reconcile_upsert_effect c r local); [|apply Hc|done..]. by eexists.
Qed.

Lemma resolve_no_err c path remote staged : conn_wf c → ∃ o, (resolve_rows c path remote staged).2 = Ok o.
Proof.
  intros Hc. unfold resolve_rows, run_tx.
  destruct (load_row_total c path (cw_files _ Hc)) as [local ->]. cbn [mbind result_bind].
  case_bool_decide as Hd; [by eexists|]. destruct local as [row|]; [|discriminate Hd].
  destruct (conn_wf_ops c Hc) as (ops & Hops). rewrite (ops_as_candidates_ok c ops path Hops).
  cbn [mbind result_bind].
  edestruct (plan_candidates_total (lookup_version c)) as [[plan|] ->]; cbn [mbind result_bind].
  - intros p. apply lookup_version_total, Hc.
  - case_bool_decide; [by eexists|]. rewrite upsert_rows_put. by eexists.
  - by eexists.
Qed.

Lemma ops_since_no_err c o a l : conn_wf c → ∃ r, ops_since c o a l = Ok r.
Proof.
  intros Hc. unfold ops_since.
  edestruct (traverse_list_total op_of_cols) as (r & -> & _); [|by eexists].
  intros x Hx. destruct Hc as [_ Ho _ _]. rewrite Forall_forall in Ho.
  destruct (Ho x) as (op & Hop & ->).
  { apply elem_of_take in Hx as (i & Hx%list_elem_of_lookup_2 & _).
    apply elem_of_sort_by, list_elem_of_filter in Hx. tauto. }
  exists op. by apply op_of_enc.
Qed.

Lemma manifest_for_no_err c h : conn_wf c → ∃ r, manifest_for c h = Ok r.
Proof.
  intros [_ _ _ Hch]. unfold manifest_for.
  destruct (t_manifests c !! ba_list h) as [n|]; [|by eexists].
  edestruct (traverse_list_total (λ r : Z * (blob * Z), chunk_of_cols r.2)) as (cs & -> & _).
  - intros [j r] Hin%elem_of_chunk_rows. apply Hch in Hin.
    unfold chunk_of_cols, blob32. destruct (proj2 (array_of_list_spec r.1) Hin) as (b & Hb & _).
    simpl. rewrite Hb. by eexists.
  - simpl. case_bool_decide; by eexists.
Qed.

Lemma live_files_no_err `{!ScanLaws} c : conn_wf c → ∃ r, live_files c = Ok r.
Proof.
  intros [Hf _ _ _]. unfold live_files.
  edestruct (traverse_list_total (λ '(path, r),
    hash ← traverse_opt (λ h, blob32 h "files.content_hash") (fc_content_hash r);
    Ok (mkLiveFile path hash (as_u32 (fc_mode r)) (as_u64 (fc_size r))))) as (rs & Hrs & _);
    [|exists rs; exact Hrs].
  intros [p r] [_ Hin%elem_of_scan]%list_elem_of_filter.
  destruct (Hf p r Hin) as (row & _ & _ & ->). simpl. rewrite blob32_some. by eexists.
Qed.

Lemma frontier_lookup l m o s :
  foldl frontier_step m l !! o = Some s →
  m !! o = Some s ∨ ∃ r, r ∈ l ∧ oc_origin r = o ∧ oc_origin_seq r = s.
Proof.
  revert m. induction l as [|r l IH]; intros m; simpl; [by left|].
  intros [Hm|(r' & Hr' & ?)]%IH; [|right; exists r'; split; [by right|done]].
  unfold frontier_step in Hm. destruct (decide (oc_origin r = o)) as [<-|Hne].
  - rewrite lookup_insert_eq in Hm. injection Hm as <-.
    destruct (m !! oc_origin r) as [s|] eqn:Hs; [|right; exists r; split; [by left|done]].
    destruct (Z.max_spec s (oc_origin_seq r)) as [[_ ->]|[_ ->]]; [|by left].
    right. exists r. split; [by left|done].
  - rewrite lookup_insert_ne in Hm by done. by left.
Qed.

Lemma snapshot_no_err c : conn_wf c → ∃ r, snapshot_for_join c = Ok r.
Proof.
  intros Hc. unfold snapshot_for_join.
  destruct (all_files_ok c (cw_files _ Hc)) as (rows & -> & _). simpl.
  edestruct (traverse_list_total (λ '((o, s) : blob * Z),
    origin ← ok_or (StoreError.Corrupt "oplog.origin") (array_of_list 16 o); Ok (origin, s)))
    as (fs & Hfs & _); [|rewrite Hfs; by eexists].
  intros [o s] Hin%elem_of_btree_iter. apply frontier_lookup in Hin as [Hin|(r & Hr & <- & _)].
  - by rewrite lookup_empty in Hin.
  - destruct Hc as [_ Ho _ _]. rewrite Forall_forall in Ho. destruct (Ho r Hr) as (op & _ & ->).
    simpl. rewrite array_of_list_ba. by eexists.
Qed.

(** A store whose tables were written by this code never reports
    corruption. For well-typed commands the only error replies are the three
    the handlers reject by contract: a rename passed as a plain local change,
    a manifest that is not the change's content, and a rename operation
    without a source path. *)
Theorem store_step_no_corruption `{!ScanLaws} (node : NodeId) (st : StoreState)
    (cmd : StoreCmd) (e : StoreError) :
  conn_wf (ss_conn st) → cmd_typed cmd →
  reply_err (store_step node st cmd).2 = Some e →
  match cmd with
  | AppendLocal ch => lc_op_type ch = OpType.Rename ∨
      ∃ m, lc_manifest ch = Some m ∧ lc_content_hash ch ≠ Some (mf_content_hash m)
  | ApplyRemote op _ => op_op_type op = OpType.Rename ∧ op_path_old op = None
  | _ => False
  end.
Proof.
  intros Hc Hcmd. destruct cmd; simpl in *; try done.
  - destruct (append_local (ss_conn st) node change) as [c' [r|e']] eqn:Ha; [done|]. intros _.
    apply (append_local_err (ss_conn st) node change e'); [done|by rewrite Ha].
  - destruct (rename_no_err (ss_conn st) node old_path new_path Hc) as [r Hr].
    destruct (append_local_rename _ _ _ _) as [c' res]. simpl in *. by subst.
  - destruct (resolve_no_err (ss_conn st) path remote staged Hc) as [r Hr].
    destruct (resolve_rows _ _ _ _) as [c' res]. simpl in *. by subst.
  - by destruct (load_row_total (ss_conn st) path (cw_files _ Hc)) as [r ->].
  - destruct (apply_remote (ss_conn st) op decision) as [c' [r|e']] eqn:Ha; [done|]. intros _.
    apply (apply_remote_err (ss_conn st) op decision e'); [done..|by rewrite Ha].
  - destruct (load_row_total (ss_conn st) path (cw_files _ Hc)) as [r Hr].
    by rewrite (load_file_row _ _ r (cw_files _ Hc) Hr).
  - by destruct (ops_since_no_err (ss_conn st) origin after_seq limit Hc) as [r ->].
  - by destruct (live_files_no_err (ss_conn st) Hc) as [r ->].
  - by destruct (all_files_ok (ss_conn st) (cw_files _ Hc)) as (r & -> & _).
  - by destruct (manifest_for_no_err (ss_conn st) content_hash Hc) as [r ->].
  - destruct (reconcile_no_err (ss_conn st) row Hc Hcmd) as [r Hr].
    destruct (reconcile_upsert _ _) as [c' res]. simpl in *. by subst.
  - by destruct (snapshot_no_err (ss_conn st) Hc) as [r ->].
Qed.

(** ** Remote operations *)

Lemma bump_cursor_lookup op c k :
  t_peer_cursors (bump_cursor op c) !! k =
  if decide (k = (ba_list (op_origin op), ba_list (op_origin op)))
  then Some (bump_recv (op_origin_seq op) (default (mkCursorCols 0 0) (t_peer_cursors c !! k)))
  else t_peer_cursors c !! k.
Proof.
  unfold bump_cursor, update_cursor, ensure_cursor_row, insert_or_ignore. simpl.
  destruct (decide _) as [->|Hne].
  - rewrite lookup_alter_eq. destruct (t_peer_cursors c !! _) as [r|] eqn:Hr.
    + by rewrite Hr.
    + by rewrite lookup_insert_eq.
  - rewrite lookup_alter_ne by done.
    destruct (t_peer_cursors c !! (ba_list (op_origin op), _)); [done|].
    by rewrite lookup_insert_ne.
Qed.

Lemma bump_cursor_idemp op c : bump_cursor op (bump_cursor op c) = bump_cursor op c.
Proof.
  assert (Hcur : t_peer_cursors (bump_cursor op (bump_cursor op c)) = t_peer_cursors (bump_cursor op c)).
  { apply map_eq. intros k. rewrite bump_cursor_lookup. destruct (decide _) as [->|]; [|done].
    rewrite bump_cursor_lookup. rewrite decide_True by done. simpl. f_equal.
    unfold bump_recv. simpl. f_equal. lia. }
  destruct c. unfold bump_cursor, update_cursor, set_cursors in *. simpl in *. by rewrite Hcur.
Qed.

Lemma apply_put_tables d row c :
  t_applied (apply_put d row c) = t_applied c ∧ t_oplog (apply_put d row c) = t_oplog c ∧
  t_peer_cursors (apply_put d row c) = t_peer_cursors c.
Proof. unfold apply_put. by case_bool_decide. Qed.

Lemma apply_remote_marks c op d c' eff :
  conn_wf c → op_typed op → apply_remote c op d = (c', Ok eff) →
  has_applied c' (op_op_id op) = true ∧ ∃ c0, c' = bump_cursor op c0.
Proof.
  intros Hc Hop Heq. pose proof (apply_remote_effect c op d Hc Hop) as Heff. rewrite Heq in Heff.
  unfold remote_effect in Heff. simpl in Heff.
  destruct (has_applied c (op_op_id op)) eqn:Hap.
  { destruct Heff as [-> _]. split; [done|by eexists]. }
  assert (Hm : ∀ c0, has_applied (bump_cursor op (mark_applied op c0)) (op_op_id op) = true).
  { intros c0. unfold has_applied. simpl. apply bool_decide_eq_true. set_solver. }
  destruct Heff as (local & _ & Heff).
  destruct (op_op_type op), (op_path_old op); naive_solver.
Qed.

(** Redelivery of a remote operation is a no-op. Once an operation has
    been handled, handling it again, with whatever decision the caller
    computed, leaves the whole database as it is: no row changes, no vector
    is merged twice, the cursor stays. *)
Theorem apply_remote_idempotent (c : Conn) (op : OpRecord) (d d' : Decision) (c' : Conn) (eff : Decision) :
  conn_wf c → op_typed op → apply_remote c op d = (c', Ok eff) →
  apply_remote c' op d' = (c', Ok d').
Proof.
  intros Hc Hop Heq. destruct (apply_remote_marks c op d c' eff) as (Hap & c0 & ->); [done..|].
  unfold apply_remote at 1, run_tx. rewrite Hap. simpl.
  change (update_cursor _ _ _ (ensure_cursor_row ?x _ _)) with (bump_cursor op x).
  by rewrite bump_cursor_idemp.
Qed.

Lemma load_apply_put d row c p : row_typed row → files_wf c →
  load_row (apply_put d row c) p =
  if decide (d = Decision.Apply ∧ fr_path row = p) then Ok (Some row) else load_row c p.
Proof.
  intros Hr Hc. unfold apply_put. case_bool_decide.
  - rewrite load_put_row by done. repeat case_decide; naive_solver.
  - rewrite decide_False by tauto. done.
Qed.

(** The row an operation's source half leaves at [old]. *)
Definition source_after (op : OpRecord) (old : string) (lo : option FileRow) : option FileRow :=
  if bool_decide (decide_op (local_of <$> lo) (op_vv op) = Decision.Apply)
  then Some (source_row old op) else lo.

Lemma apply_remote_spec (c : Conn) (op : OpRecord) (d : Decision) :
  conn_wf c → op_typed op → has_applied c (op_op_id op) = false →
  (op_op_type op = OpType.Rename → is_Some (op_path_old op)) →
  (op_op_type op = OpType.Rename → op_path_old op ≠ Some (op_path op)) →
  ∃ local c', load_row c (op_path op) = Ok local ∧
    let eff := if bool_decide (d = Decision.Apply)
               then decide_op (local_of <$> local) (op_vv op) else d in
    apply_remote c op d = (c', Ok eff) ∧
    load_row c' (op_path op) =
      Ok (if bool_decide (eff = Decision.Apply) then Some (remote_row op) else local) ∧
    (∀ old, op_op_type op = OpType.Rename → op_path_old op = Some old →
       ∃ lo, load_row c old = Ok lo ∧ load_row c' old = Ok (source_after op old lo)) ∧
    (∀ p, p ≠ op_path op → (op_op_type op = OpType.Rename → op_path_old op ≠ Some p) →
       load_row c' p = load_row c p) ∧
    has_applied c' (op_op_id op) = true ∧
    op_origin_seq op ≤ cursor_value c' (op_origin op) (op_origin op) cc_recv_cursor.
Proof.
  intros Hc Hop Hap Hren Hne. pose proof (apply_remote_effect c op d Hc Hop) as Heff.
  unfold remote_effect in Heff. rewrite Hap in Heff. destruct Heff as (local & Hl & Heff).
  set (eff := effective_of d local (op_vv op)) in *.
  set (c2 := apply_put eff (remote_row op) (ins_op op c)) in *.
  assert (Hwf1 : files_wf (ins_op op c)) by apply (conn_wf_ins op c Hop Hc).
  assert (Hwf2 : files_wf c2) by (by apply apply_put_wf, Hwf1; apply remote_row_typed).
  assert (Hload2 : ∀ p, load_row c2 p =
    if decide (eff = Decision.Apply ∧ op_path op = p) then Ok (Some (remote_row op)) else load_row c p).
  { intros p. subst c2. rewrite load_apply_put by (try done; by apply remote_row_typed).
    rewrite remote_row_path. repeat case_decide; try done. apply load_row_ext, ins_op_files. }
  assert (Hfin : ∀ c3 c', c' = bump_cursor op (mark_applied op c3) →
    has_applied c' (op_op_id op) = true ∧
    op_origin_seq op ≤ cursor_value c' (op_origin op) (op_origin op) cc_recv_cursor).
  { intros c3 c' ->. split.
    - unfold has_applied. simpl. apply bool_decide_eq_true. set_solver.
    - unfold cursor_value. rewrite bump_cursor_lookup, decide_True by done. simpl. lia. }
  assert (Hpath : load_row c2 (op_path op) =
    Ok (if bool_decide (eff = Decision.Apply) then Some (remote_row op) else local)).
  { rewrite Hload2. case_bool_decide; [by rewrite decide_True|by rewrite decide_False by tauto]. }
  destruct (apply_remote c op d) as [c' res] eqn:Heq. simpl in Heff.
  exists local, c'. split; [done|]. change (if bool_decide (d = Decision.Apply)
    then decide_op (local_of <$> local) (op_vv op) else d) with eff. cbv zeta.
  destruct (decide (op_op_type op = OpType.Rename)) as [Ht|Ht].
  - destruct (Hren Ht) as [old Ho]. rewrite Ht, Ho in Heff. destruct Heff as (lo & Hlo & -> & Hc').
    assert (Hold : op_path op ≠ old) by (intros <-; by apply (Hne Ht)).
    rewrite Hload2, decide_False in Hlo by tauto.
    assert (Hload3 : ∀ p, load_row c' p = if decide (old = p) then Ok (source_after op old lo) else load_row c2 p).
    { intros p. subst c'. rewrite (load_row_ext _ (apply_put (decide_op (local_of <$> lo) (op_vv op)) (source_row old op) c2)) by done.
      rewrite load_apply_put by (try done; by apply source_row_typed).
      change (fr_path (source_row old op)) with old. unfold source_after.
      destruct (decide (old = p)) as [<-|]; [|by rewrite decide_False by tauto].
      destruct (decide (decide_op (local_of <$> lo) (op_vv op) = Decision.Apply)) as [Hd|Hd].
      - by rewrite decide_True, bool_decide_true.
      - rewrite decide_False, bool_decide_false by tauto.
        rewrite Hload2. by rewrite decide_False by tauto. }
    split_and!; [done| | | |by eapply Hfin..].
    + rewrite Hload3, decide_False by done. done.
    + intros old' _ Ho'. assert (old' = old) as -> by congruence. exists lo. split; [done|]. by rewrite Hload3, decide_True.
    + intros p Hp Hp'. rewrite Hload3, decide_False by (intros <-; by apply Hp').
      rewrite Hload2, decide_False by naive_solver. done.
  - assert (Heff' : res = Ok eff ∧ c' = bump_cursor op (mark_applied op c2)).
    { by destruct (op_op_type op), (op_path_old op). }
    destruct Heff' as [-> Hc']. split_and!; [done| | | |by eapply Hfin..].
    + subst c'. rewrite (load_row_ext _ c2) by done. done.
    + by intros old ?.
    + intros p Hp _. subst c'. rewrite (load_row_ext _ c2) by done.
      rewrite Hload2, decide_False by naive_solver. done.
Qed.

(** C2: What handling a new remote operation does. The decision is
    recomputed against the row under the committing transaction, so a stale
    [Apply] is downgraded and leaves the row alone, while a skip is never
    upgraded; an effective [Apply] leaves exactly the operation's row. The
    source of a rename is decided independently: it is tombstoned exactly if
    the operation supersedes it, whether the target was applied, ignored or
    left as a conflict. No other path moves, and the operation
    is recorded as handled with the cursor at or past its sequence number.
    The operation is one not handled before, with fields in the range of
    their types, on a store whose rows decode; a rename names a source other
    than its target. A rename the engine has quarantined is left out: the code tombstones its
    source too, against what its comments say ([quarantined_rename_loses_source]). *)
Theorem apply_remote_contract (c : Conn) (op : OpRecord) (d : Decision) :
  conn_wf c → op_typed op → has_applied c (op_op_id op) = false →
  (op_op_type op = OpType.Rename → is_Some (op_path_old op) ∧ op_path_old op ≠ Some (op_path op) ∧ d ≠ Decision.Quarantined) →
  ∃ local c', load_row c (op_path op) = Ok local ∧
    let eff := if bool_decide (d = Decision.Apply)
               then decide_op (local_of <$> local) (op_vv op) else d in
    apply_remote c op d = (c', Ok eff) ∧
    load_row c' (op_path op) =
      Ok (if bool_decide (eff = Decision.Apply) then Some (remote_row op) else local) ∧
    (∀ old, op_op_type op = OpType.Rename → op_path_old op = Some old →
       ∃ lo, load_row c old = Ok lo ∧ load_row c' old = Ok (source_after op old lo)) ∧
    (∀ p, p ≠ op_path op → (op_op_type op = OpType.Rename → op_path_old op ≠ Some p) →
       load_row c' p = load_row c p) ∧
    has_applied c' (op_op_id op) = true ∧
    op_origin_seq op ≤ cursor_value c' (op_origin op) (op_origin op) cc_recv_cursor.
Proof. intros Hc Hop Hap Hren. apply apply_remote_spec; [done..|naive_solver|naive_solver]. Qed.

(** ** The log of local operations *)

Definition own (node : NodeId) (ops : list OpRecord) : list OpRecord :=
  filter (λ op, op_origin op = node) ops.

(** The log holds [ops]; every id is derived from origin and sequence number,
    and the local operations are numbered 1, 2, 3, ... in log order. *)
Record log_ok (node : NodeId) (c : Conn) (ops : list OpRecord) : Prop := {
  lo_ops : ops_of c ops;
  lo_ids : Forall (λ op, op_op_id op = op_id (op_origin op) (op_origin_seq op) ∧
             in_i64 (op_origin_seq op)) ops;
  lo_gapfree : op_origin_seq <$> own node ops = seqZ 1 (Z.of_nat (length (own node ops)));
}.

Lemma iter_max_seqZ n : 0 ≤ n → default 0 (iter_max (seqZ 1 n)) = n.
Proof.
  intros Hn. destruct (decide (n = 0)) as [->|]; [done|].
  assert (iter_max (seqZ 1 n) = Some n) as ->; [|done].
  apply iter_max_spec. split; [apply elem_of_seqZ; lia|].
  intros x [??]%elem_of_seqZ. unfold ord_le. rewrite (Z.compare_le_iff x n). lia.
Qed.

Lemma latest_own node c ops : log_ok node c ops →
  latest_origin_seq c node = Z.of_nat (length (own node ops)).
Proof.
  intros [[_ Hlog] _ Hgf]. unfold latest_origin_seq.
  assert (Heq : oc_origin_seq <$> filter (λ r, oc_origin r = ba_list node) (t_oplog c) =
    op_origin_seq <$> own node ops).
  { rewrite Hlog. clear. unfold own. induction ops as [|op ops IH]; [done|].
    rewrite fmap_cons, !filter_cons. simpl.
    destruct (decide (op_origin op = node)) as [Ho|Ho].
    - rewrite decide_True by (by rewrite Ho). rewrite !fmap_cons. by rewrite IH.
    - rewrite decide_False; [done|]. by intros ?%ba_eq. }
  rewrite Heq, Hgf. apply iter_max_seqZ. lia.
Qed.

(** What a command appends to the log. *)
Definition log_step (node : NodeId) (c c' : Conn) (cmd : StoreCmd) (r : Reply) : Prop :=
  (t_oplog c' = t_oplog c ∧ ∀ op, r ≠ ROp (Ok (Some op))) ∨
  (∃ op, t_oplog c' = t_oplog (ins_op op c) ∧ r = ROp (Ok (Some op)) ∧ op_typed op ∧
     op_origin op = node ∧
     op_origin_seq op = i64_add (latest_origin_seq c node) 1 ∧
     op_op_id op = op_id node (op_origin_seq op)) ∨
  (∃ op d, t_oplog c' = t_oplog (ins_op op c) ∧ cmd = ApplyRemote op d ∧
     ∀ op, r ≠ ROp (Ok (Some op))).

Lemma store_step_log node st cmd :
  conn_wf (ss_conn st) → cmd_typed cmd → room node (ss_conn st) →
  log_step node (ss_conn st) (ss_conn (store_step node st cmd).1) cmd (store_step node st cmd).2.
Proof.
  intros Hc Hcmd Hroom. destruct cmd; simpl in *; try (by left).
  - pose proof (append_local_effect (ss_conn st) node change) as Heff.
    destruct (append_local _ _ _) as [c' [[op|]|]]; simpl in *.
    + right; left. destruct Heff as (local & Hl & _ & Hop & -> & _). exists op.
      destruct (append_op_ok (ss_conn st) node change local) as [Hot _]; [done..|].
      rewrite Hop. split_and!; try done. by destruct (lc_manifest change).
    + left. by destruct Heff as [-> _].
    + left. by subst.
  - pose proof (append_local_rename_effect (ss_conn st) node old_path new_path) as Heff.
    destruct (append_local_rename _ _ _ _) as [c' [[op|]|]]; simpl in *; [|left; by subst..].
    right; left. destruct Heff as (src & dst & Ho & _ & Hn & _ & Hop & ->). exists op.
    pose proof (rename_op_typed (ss_conn st) node old_path new_path src dst Hc Hroom Ho Hn).
    rewrite Hop. by split_and!.
  - left. pose proof (resolve_rows_effect (ss_conn st) path remote staged) as Heff.
    destruct (resolve_rows _ _ _ _) as [c' [[]|]]; simpl in *; [|naive_solver..].
    destruct Heff as (row & ops & _ & _ & _ & _ & ->). split; [|done]. by rewrite put_planned_frame.
  - pose proof (apply_remote_effect (ss_conn st) op decision Hc Hcmd) as Heff.
    destruct (apply_remote _ _ _) as [c' res]; simpl in *. unfold remote_effect in Heff.
    destruct (has_applied _ _); [left; by destruct Heff as [-> _]|].
    destruct Heff as (local & _ & Heff). set (c2 := apply_put _ _ _) in Heff.
    assert (Hc2 : t_oplog c2 = t_oplog (ins_op op (ss_conn st))) by apply apply_put_tables.
    destruct (op_op_type op) eqn:Ht; [| |destruct (op_path_old op)].
    + right; right. exists op, decision. destruct Heff as [_ ->]. by split_and!.
    + right; right. exists op, decision. destruct Heff as [_ ->]. by split_and!.
    + right; right. exists op, decision. destruct Heff as (lo & _ & _ & ->). split_and!; [|done..].
      simpl. rewrite <-Hc2. apply apply_put_tables.
    + left. by destruct Heff as [-> _].
  - left. destruct (load_row_total (ss_conn st) (rr_path row) (cw_files _ Hc)) as [local Hl].
    rewrite (reconcile_upsert_effect _ _ local); [|apply Hc|done..]. simpl. split; [|done].
    apply apply_put_tables.
Qed.
End runs.

Section gap_free.
Context `{!Blake3, !Bincode, !Hex, !Scan, !BincodeLaws}.

(** Operation ids do not collide: the digest separates (origin, sequence). *)
Context (op_id_inj : ∀ o s o' s', in_i64 s → in_i64 s' → op_id o s = op_id o' s' → o = o' ∧ s = s').

Lemma ins_op_fresh node c ops op :
  log_ok node c ops → in_i64 (op_origin_seq op) →
  op_op_id op = op_id (op_origin op) (op_origin_seq op) →
  (∀ op', op' ∈ ops → op_origin op' = op_origin op → op_origin_seq op' ≠ op_origin_seq op) →
  t_oplog (ins_op op c) = t_oplog c ++ [enc_op op].
Proof using All.
  intros [[_ Hlog] Hids _] Hs Hid Hne. unfold ins_op.
  destruct (existsb _ _) eqn:Hex; [exfalso|done]. apply existsb_id in Hex. rewrite Hlog in Hex.
  apply list_elem_of_fmap in Hex as (r & Hr & (op' & -> & Hop')%list_elem_of_fmap).
  simpl in Hr. apply ba_eq in Hr. rewrite Forall_forall in Hids.
  destruct (Hids op' Hop') as [Hid' Hs']. rewrite Hid, Hid' in Hr.
  apply op_id_inj in Hr as [Ho Hseq]; [|done..]. by apply (Hne op').
Qed.

Lemma own_snoc node ops op :
  own node (ops ++ [op]) = own node ops ++ (if decide (op_origin op = node) then [op] else []).
Proof using. unfold own. rewrite filter_app. by rewrite filter_cons, filter_nil. Qed.

(** Remote operations come from other nodes and carry their derived id. *)
Definition remote_ok (node : NodeId) (cmd : StoreCmd) : Prop :=
  match cmd with
  | ApplyRemote op _ => op_origin op ≠ node ∧ in_i64 (op_origin_seq op) ∧
      op_op_id op = op_id (op_origin op) (op_origin_seq op)
  | _ => True
  end.

Lemma log_ok_oplog node c c' ops : t_oplog c' = t_oplog c → log_ok node c ops → log_ok node c' ops.
Proof using. intros Heq [[Ht Hlog] Hids Hgf]. split; [split; [done|by rewrite Heq]|done..]. Qed.

Lemma own_seq node c ops op' : log_ok node c ops → op' ∈ ops → op_origin op' = node →
  1 ≤ op_origin_seq op' ≤ Z.of_nat (length (own node ops)).
Proof using.
  intros [_ _ Hgf] Hin Ho.
  assert (Hs : op_origin_seq op' ∈ op_origin_seq <$> own node ops).
  { apply list_elem_of_fmap_2, list_elem_of_filter. done. }
  rewrite Hgf, elem_of_seqZ in Hs. lia.
Qed.

Lemma log_ok_append node c ops op c' :
  log_ok node c ops → op_typed op → op_origin op = node →
  Z.of_nat (length (own node ops)) + 1 < 2 ^ 63 →
  op_origin_seq op = i64_add (latest_origin_seq c node) 1 →
  op_op_id op = op_id node (op_origin_seq op) → t_oplog c' = t_oplog (ins_op op c) →
  log_ok node c' (ops ++ [op]) ∧ op_origin_seq op = Z.of_nat (length (own node (ops ++ [op]))).
Proof using All.
  intros Hlog Hop Ho Hlen Hseq Hid Hc'.
  rewrite (latest_own node c ops Hlog) in Hseq. unfold i64_add in Hseq.
  assert (Hi : in_i64 (Z.of_nat (length (own node ops)) + 1)) by (unfold in_i64; lia).
  rewrite as_i64_small in Hseq by done.
  assert (Hown : own node (ops ++ [op]) = own node ops ++ [op]) by (by rewrite own_snoc, decide_True).
  assert (Hl : Z.of_nat (length (own node (ops ++ [op]))) = Z.of_nat (length (own node ops)) + 1)
    by (rewrite Hown, length_app; simpl; lia).
  rewrite (ins_op_fresh node c ops op) in Hc'; [|done|by rewrite Hseq|by rewrite Ho|].
  2:{ intros op' Hin Heq. rewrite Ho in Heq. pose proof (own_seq node c ops op' Hlog Hin Heq). lia. }
  split; [|lia]. destruct Hlog as [[Ht Hlg] Hids Hgf]. split.
  - split; [apply Forall_app; by rewrite Forall_singleton|]. by rewrite Hc', Hlg, fmap_app.
  - apply Forall_app. rewrite Forall_singleton. split; [done|]. rewrite Ho, Hseq in *. done.
  - rewrite Hl, Hown, fmap_app, Hgf, seqZ_app by lia. f_equal. simpl. by rewrite Hseq, Z.add_comm.
Qed.

Lemma log_ok_remote node c ops op c' :
  log_ok node c ops → op_typed op → op_origin op ≠ node → in_i64 (op_origin_seq op) →
  op_op_id op = op_id (op_origin op) (op_origin_seq op) →
  t_oplog c' = t_oplog (ins_op op c) →
  ∃ ops', log_ok node c' ops' ∧ ops `prefix_of` ops' ∧ own node ops' = own node ops.
Proof using.
  intros Hlog Hop Ho Hi Hid Hc'. unfold ins_op in Hc'. destruct (existsb _ _).
  { exists ops. split_and!; [by eapply log_ok_oplog|done..]. }
  assert (Hown : own node (ops ++ [op]) = own node ops)
    by (by rewrite own_snoc, decide_False, app_nil_r by done).
  exists (ops ++ [op]). split_and!; [|by apply prefix_app_r|done].
  destruct Hlog as [[Ht Hlg] Hids Hgf]. split.
  - split; [apply Forall_app; by rewrite Forall_singleton|]. simpl in Hc'. by rewrite Hc', Hlg, fmap_app.
  - apply Forall_app. by rewrite Forall_singleton.
  - by rewrite Hown.
Qed.

Lemma publish_latest node st cmd :
  (∀ op, (store_step node st cmd).2 = ROp (Ok (Some op)) →
     ss_latest (store_step node st cmd).1 = op_origin_seq op) ∧
  ((∀ op, (store_step node st cmd).2 ≠ ROp (Ok (Some op))) →
     ss_latest (store_step node st cmd).1 = ss_latest st).
Proof using.
  clear op_id_inj. destruct cmd; simpl; try done;
    match goal with |- context [let '(_, _) := ?x in _] => destruct x as [c' res] end;
    simpl; try done; destruct res as [[op|]|]; simpl; naive_solver.
Qed.

Lemma store_step_log_ok node st cmd ops :
  conn_wf (ss_conn st) → cmd_typed cmd → room node (ss_conn st) → remote_ok node cmd →
  log_ok node (ss_conn st) ops → Z.of_nat (length (own node ops)) + 1 < 2 ^ 63 →
  ss_latest st = Z.of_nat (length (own node ops)) →
  let st' := (store_step node st cmd).1 in
  ∃ ops', log_ok node (ss_conn st') ops' ∧ ops `prefix_of` ops' ∧
    ss_latest st' = Z.of_nat (length (own node ops')) ∧
    (length (own node ops') ≤ length (own node ops) + 1)%nat.
Proof using All.
  intros Hc Hcmd Hroom Hrem Hlog Hlen Hlat st'.
  destruct (publish_latest node st cmd) as [Hpub Hkeep].
  destruct (store_step_log node st cmd Hc Hcmd Hroom)
    as [[Heq Hr]|[(op & Heq & Hr & Hot & Ho & Hseq & Hid)|(op & d & Heq & -> & Hr)]].
  - exists ops. split_and!; [by eapply log_ok_oplog|done|by unfold st'; rewrite Hkeep|lia].
  - destruct (log_ok_append node (ss_conn st) ops op (ss_conn st')) as [Hlog' Hs]; [done..|].
    exists (ops ++ [op]). split_and!; [done|by apply prefix_app_r|by unfold st'; rewrite (Hpub op)|].
    rewrite own_snoc, length_app. case_decide; simpl; lia.
  - destruct Hrem as (Ho & Hi & Hid).
    destruct (log_ok_remote node (ss_conn st) ops op (ss_conn st')) as (ops' & Hlog' & Hpre & Hown);
      [done..|].
    exists ops'. rewrite Hown. split_and!; [done|done|by unfold st'; rewrite Hkeep|lia].
Qed.

(** The local operation stream is gap-free. Starting from a log whose
    own operations are numbered 1 to n, any run of the store keeps them
    numbered 1 to n' with no gap or repetition, only ever extends the log,
    and the published latest sequence number is the number of local
    operations; so a peer cursor names exactly a prefix of the stream. *)
Theorem local_log_gap_free (node : NodeId) (st : StoreState) (cmds : list StoreCmd)
    (ops : list OpRecord) :
  conn_wf (ss_conn st) → run_typed node st cmds → Forall (remote_ok node) cmds →
  log_ok node (ss_conn st) ops →
  Z.of_nat (length (own node ops)) + Z.of_nat (length cmds) < 2 ^ 63 →
  ss_latest st = Z.of_nat (length (own node ops)) →
  let st' := run_store node st cmds in
  ∃ ops', log_ok node (ss_conn st') ops' ∧ ops `prefix_of` ops' ∧
    op_origin_seq <$> own node ops' = seqZ 1 (Z.of_nat (length (own node ops'))) ∧
    ss_latest st' = Z.of_nat (length (own node ops')).
Proof using All.
  revert st ops. induction cmds as [|cmd cmds IH]; intros st ops Hc Hrun Hrem Hlog Hlen Hlat; simpl.
  { exists ops. split_and!; [done..|by apply Hlog|done]. }
  destruct Hrun as (Hcmd & Hroom & Hrun). apply Forall_cons in Hrem as [Hr Hrem].
  simpl in Hlen. destruct (store_step_log_ok node st cmd ops) as (ops1 & Hlog1 & Hpre1 & Hlat1 & Hlen1);
    [done..|lia|done|].
  destruct (IH (store_step node st cmd).1 ops1) as (ops' & Hlog' & Hpre & Hgf & Hl'); try done.
  - by apply store_step_ok.
  - lia.
  - exists ops'. split_and!; [done|by etrans|done..].
Qed.
End gap_free.
