(* ===== verification/Marks.v ===== *)
(** * Marks: the applied set and the cursors

    What the store's commands do to the applied set and to the peers' cursors.
    A relation between databases that survives the few elementary moves of
    these tables relates the states before and after every command. *)

From S2P Require Import Prelude Vv Decide Metadata Conflict ConflictProofs State Oplog OplogProofs StoreProps.

(** What a relation has to survive: other tables changing, an operation marked
    as applied. *)
Class QuietRel (R : Conn → Conn → Prop) : Prop := {
  quiet_preorder :: PreOrder R;
  mark_same c c' : t_applied c' = t_applied c → t_peer_cursors c' = t_peer_cursors c → R c c';
  mark_applied c oid : R c (set_applied ({[ oid ]} ∪ t_applied c) c);
}.

(** And a received sequence number. *)
Class MarkRel (R : Conn → Conn → Prop) : Prop := {
  mark_quiet :: QuietRel R;
  mark_recv c peer origin seq :
    R c (Oplog.update_cursor (Oplog.bump_recv seq) peer origin (Oplog.ensure_cursor_row c peer origin));
}.

Section quiet.
Context `{!Blake3, !Bincode, !Hex, !Scan} (R : Conn → Conn → Prop) `{!QuietRel R}.

Lemma rel_upsert c path ch mode size vv tomb uuid meta c' :
  State.upsert_file c path ch mode size vv tomb uuid meta = Ok c' → R c c'.
Proof. unfold State.upsert_file. intros Hu. do 2 inv_ok Hu. injection Hu as <-. by apply mark_same. Qed.

Lemma rel_insert_op c op c' : Oplog.insert_op c op = Ok c' → R c c'.
Proof.
  unfold Oplog.insert_op. intros Hu. do 2 inv_ok Hu. injection Hu as <-. destruct (existsb _ _); by apply mark_same.
Qed.

Lemma rel_upsert_rows rows c c' : Oplog.upsert_rows c rows = Ok c' → R c c'.
Proof.
  revert c. induction rows as [|r rows IH]; intros c Hu; cbn [Oplog.upsert_rows] in Hu; [by injection Hu as <-|].
  inv_ok Hu. etrans; [by eapply rel_upsert|by apply IH].
Qed.

(** A transaction is related when its body is. *)
Lemma rel_tx {A} c (body : Conn → result StoreError (A * option Conn)) :
  (∀ a c', body c = Ok (a, Some c') → R c c') → R c (run_tx c body).1.
Proof. intros Hb. unfold run_tx. destruct (body c) as [[a [c'|]]|e]; simpl; [by eapply Hb|done..]. Qed.

Lemma rel_source c op c' : Oplog.apply_source c op = Ok c' → R c c'.
Proof.
  unfold Oplog.apply_source. case_bool_decide; [|by intros [= <-]]. destruct (op_path_old op); [|done].
  intros Hu. inv_ok Hu. case_bool_decide; [by eapply rel_upsert|by injection Hu as <-].
Qed.

Lemma rel_target c op c' d : Oplog.apply_target c op = Ok (c', d) → R c c'.
Proof.
  unfold Oplog.apply_target. intros Hu. inv_ok Hu. case_bool_decide; [|by injection Hu as <- <-].
  inv_ok Hu. injection Hu as <- <-. destruct (op_op_type op); by eapply rel_upsert.
Qed.

(** A handled operation: the state before its number is received. *)
Lemma apply_remote_inv c op d c' eff :
  Oplog.apply_remote c op d = (c', Ok eff) →
  ∃ tx, R c tx ∧ Oplog.has_applied tx (op_op_id op) = true ∧ c' = bump_cursor op tx.
Proof.
  unfold Oplog.apply_remote, run_tx. set (inner := if Oplog.has_applied c (op_op_id op) then _ else _).
  assert (Hin : ∀ tx eff, inner = Ok (tx, eff) → R c tx ∧ Oplog.has_applied tx (op_op_id op) = true).
  { intros tx eff0. unfold inner. destruct (Oplog.has_applied c (op_op_id op)) eqn:Hap; [by intros [= <- <-]|].
    intros Hu. apply bind_ok in Hu as (tx0 & E0 & Hu). apply bind_ok in Hu as ([tx1 eff1] & E1 & Hu).
    apply bind_ok in Hu as (tx2 & E2 & Hu). injection Hu as <- <-. split.
    - etrans; [by eapply rel_insert_op|]. etrans; [|apply mark_applied]. etrans; [|by eapply rel_source].
      revert E1. case_bool_decide; [apply rel_target|by intros [= <- _]].
    - unfold Oplog.has_applied. simpl. apply bool_decide_eq_true. set_solver. }
  destruct inner as [[tx eff']|e]; [|done]. destruct (Hin tx eff' eq_refl) as [Hf Hap]. cbn. intros [= <- _]. by exists tx.
Qed.

Lemma rel_append_local c node ch : R c (Oplog.append_local c node ch).1.
Proof.
  apply rel_tx. intros r c' Hu. inv_ok Hu. inv_ok Hu. destruct (a0 : bool); [done|]. do 2 inv_ok Hu.
  etrans; [by eapply rel_insert_op|]. etrans; [by eapply rel_upsert|].
  destruct (lc_manifest ch); [|by injection Hu as _ <-]. case_bool_decide; [done|]. injection Hu as _ <-. by apply mark_same.
Qed.

Lemma rel_append_rename c node o n : R c (Oplog.append_local_rename c node o n).1.
Proof.
  unfold Oplog.append_local_rename. case_bool_decide; [done|]. apply rel_tx. intros r c' Hu. inv_ok Hu.
  destruct a as [src|]; [|done]. destruct (fr_tombstone src); [done|]. do 4 inv_ok Hu. injection Hu as _ <-.
  etrans; [by eapply rel_insert_op|]. etrans; by eapply rel_upsert.
Qed.

Lemma rel_resolve_rows c path v staged : R c (Oplog.resolve_rows c path v staged).1.
Proof.
  apply rel_tx. intros r c' Hu. inv_ok Hu. cbv zeta in Hu. case_bool_decide; [done|]. destruct a as [row|]; [|done].
  do 2 inv_ok Hu. destruct a0 as [derived|]; [|done]. case_bool_decide; [done|]. inv_ok Hu. injection Hu as _ <-.
  by eapply rel_upsert_rows.
Qed.

Lemma rel_reconcile_upsert c row : R c (Oplog.reconcile_upsert c row).1.
Proof.
  apply rel_tx. intros r c' Hu. inv_ok Hu. cbv zeta in Hu. case_bool_decide; [|by injection Hu as _ <-]. inv_ok Hu.
  injection Hu as _ <-. by eapply rel_upsert.
Qed.

(** Every command that moves no cursor. *)
Definition moves_cursor (cmd : StoreCmd) : Prop :=
  match cmd with AdvanceAck _ _ | ApplyRemote _ _ | AdvanceRecvCursor _ _ _ => True | _ => False end.

Lemma quiet_store_step node st cmd : ¬ moves_cursor cmd → R (ss_conn st) (ss_conn (store_step node st cmd).1).
Proof.
  intros Hq. destruct cmd; cbn [store_step fst snd]; try done; try (by destruct (Hq I)).
  - pose proof (rel_append_local (ss_conn st) node change) as Hf. by destruct (Oplog.append_local _ _ _).
  - pose proof (rel_append_rename (ss_conn st) node old_path new_path) as Hf. by destruct (Oplog.append_local_rename _ _ _ _).
  - pose proof (rel_resolve_rows (ss_conn st) path remote staged) as Hf. by destruct (Oplog.resolve_rows _ _ _ _).
  - by apply mark_same.
  - pose proof (rel_reconcile_upsert (ss_conn st) row) as Hf. by destruct (Oplog.reconcile_upsert _ _).
  - by apply mark_same.
Qed.
End quiet.

Section marks.
Context `{!Blake3, !Bincode, !Hex, !Scan} (R : Conn → Conn → Prop) `{!MarkRel R}.

Lemma rel_apply_remote c op d : R c (Oplog.apply_remote c op d).1.
Proof.
  destruct (Oplog.apply_remote c op d) as [c' [eff|e]] eqn:Heq.
  - apply (apply_remote_inv R) in Heq as (tx & Hr & _ & ->). etrans; [exact Hr|]. apply mark_recv.
  - revert Heq. unfold Oplog.apply_remote, run_tx. destruct (mbind _ _) as [[a [c2|]]|e']; by intros [= <-].
Qed.

(** Every command but the one that records an acknowledgement. *)
Lemma rel_store_step node st cmd :
  (∀ peer seq, cmd = AdvanceAck peer seq → R (ss_conn st) (Oplog.advance_ack (ss_conn st) peer node seq)) →
  R (ss_conn st) (ss_conn (store_step node st cmd).1).
Proof.
  intros Hack. destruct cmd; try (by apply (quiet_store_step R); intros []); cbn [store_step fst snd].
  - pose proof (rel_apply_remote (ss_conn st) op decision) as Hf. by destruct (Oplog.apply_remote _ _ _).
  - by apply Hack.
  - apply mark_recv.
Qed.
End marks.

(** ** Cursors *)

Lemma cursor_update c peer origin f p o col :
  Oplog.cursor_value (Oplog.update_cursor f peer origin (Oplog.ensure_cursor_row c peer origin)) p o col =
  if decide (peer = p ∧ origin = o)
  then col (f (default (mkCursorCols 0 0) (t_peer_cursors c !! (ba_list p, ba_list o))))
  else Oplog.cursor_value c p o col.
Proof.
  unfold Oplog.cursor_value, Oplog.update_cursor, Oplog.ensure_cursor_row, State.insert_or_ignore. simpl.
  destruct (decide (peer = p ∧ origin = o)) as [[-> ->]|Hne].
  - rewrite lookup_alter_eq. destruct (t_peer_cursors c !! _) as [r|] eqn:Hl; [by rewrite Hl|]. by rewrite lookup_insert_eq.
  - assert (Hk : (ba_list peer, ba_list origin) ≠ (ba_list p, ba_list o)).
    { intros [= Hp Ho]. apply Hne. split; by apply ba_eq. }
    rewrite lookup_alter_ne by done. destruct (t_peer_cursors c !! (ba_list peer, ba_list origin)); [done|]. by rewrite lookup_insert_ne.
Qed.

Lemma cursor_value_default c p o col :
  col (mkCursorCols 0 0) = 0 →
  Oplog.cursor_value c p o col = col (default (mkCursorCols 0 0) (t_peer_cursors c !! (ba_list p, ba_list o))).
Proof. unfold Oplog.cursor_value. by destruct (t_peer_cursors c !! _). Qed.

(** ** No mark is lost *)

(** Operations stay handled, cursors do not move back. *)
Record forward (c c' : Conn) : Prop := {
  fw_applied : t_applied c ⊆ t_applied c';
  fw_recv : ∀ peer origin, Oplog.cursor_value c peer origin cc_recv_cursor ≤ Oplog.cursor_value c' peer origin cc_recv_cursor;
  fw_acked : ∀ peer origin, Oplog.cursor_value c peer origin cc_last_acked_seq ≤ Oplog.cursor_value c' peer origin cc_last_acked_seq;
}.

Lemma forward_cursor c peer origin f :
  (∀ r, cc_recv_cursor r ≤ cc_recv_cursor (f r)) → (∀ r, cc_last_acked_seq r ≤ cc_last_acked_seq (f r)) →
  forward c (Oplog.update_cursor f peer origin (Oplog.ensure_cursor_row c peer origin)).
Proof.
  intros Hr Hk. split; [done|intros p o; rewrite cursor_update; case_decide; [|done]..].
  - rewrite cursor_value_default by done. apply Hr.
  - rewrite cursor_value_default by done. apply Hk.
Qed.

#[export] Instance forward_marks : MarkRel forward.
Proof.
  split; [split|].
  - split; [by split|]. intros c1 c2 c3 [Ha1 Hr1 Hk1] [Ha2 Hr2 Hk2]. split; [set_solver| |].
    + intros peer origin. specialize (Hr1 peer origin). specialize (Hr2 peer origin). lia.
    + intros peer origin. specialize (Hk1 peer origin). specialize (Hk2 peer origin). lia.
  - intros c c' Ha Hc. split; [by rewrite Ha|intros *; unfold Oplog.cursor_value; by rewrite Hc..].
  - intros c oid. split; [simpl; set_solver|done..].
  - intros c peer origin seq. apply forward_cursor; intros r; simpl; lia.
Qed.

(** Nothing but an acknowledgement moves the acknowledged numbers. *)
Definition acked_kept (c c' : Conn) : Prop :=
  ∀ peer origin, Oplog.cursor_value c' peer origin cc_last_acked_seq = Oplog.cursor_value c peer origin cc_last_acked_seq.

#[export] Instance acked_kept_marks : MarkRel acked_kept.
Proof.
  split; [split|].
  - split; [done|]. intros c1 c2 c3 Hk1 Hk2 peer origin. by rewrite Hk2, Hk1.
  - intros c c' _ Hc peer origin. unfold Oplog.cursor_value. by rewrite Hc.
  - done.
  - intros c peer origin seq p o. rewrite cursor_update. case_decide; [|done]. by rewrite (cursor_value_default _ _ _ cc_last_acked_seq).
Qed.

(** Only a received number moves the received numbers. *)
Definition recv_kept (c c' : Conn) : Prop :=
  ∀ peer origin, Oplog.cursor_value c' peer origin cc_recv_cursor = Oplog.cursor_value c peer origin cc_recv_cursor.

#[export] Instance recv_kept_quiet : QuietRel recv_kept.
Proof.
  split; [split; [done|]|..].
  - intros c1 c2 c3 Hk1 Hk2 peer origin. by rewrite Hk2, Hk1.
  - intros c c' _ Hc peer origin. unfold Oplog.cursor_value. by rewrite Hc.
  - done.
Qed.

Section forward.
Context `{!Blake3, !Bincode, !Hex, !Scan}.

Lemma store_step_forward node st cmd : forward (ss_conn st) (ss_conn (store_step node st cmd).1).
Proof. apply (rel_store_step forward). intros peer seq _. apply forward_cursor; intros r; simpl; lia. Qed.

Lemma run_store_forward node st cmds : forward (ss_conn st) (ss_conn (run_store node st cmds)).
Proof.
  revert st. induction cmds as [|cmd cmds IH]; intros st; [done|]. etrans; [apply store_step_forward|apply IH].
Qed.

(** The operation is recorded as handled and its sequence number received. *)
Definition handled (op : OpRecord) (c : Conn) : Prop :=
  Oplog.has_applied c (op_op_id op) = true ∧
  op_origin_seq op ≤ Oplog.cursor_value c (op_origin op) (op_origin op) cc_recv_cursor.

Lemma applied_forward c c' oid : forward c c' → Oplog.has_applied c oid = true → Oplog.has_applied c' oid = true.
Proof.
  intros [Ha _ _]. unfold Oplog.has_applied. intros Hap%bool_decide_eq_true. apply bool_decide_eq_true. set_solver.
Qed.

Lemma handled_forward op c c' : forward c c' → handled op c → handled op c'.
Proof.
  intros Hf [Hap Hseq]. split; [by eapply applied_forward|]. pose proof (fw_recv _ _ Hf (op_origin op) (op_origin op)). lia.
Qed.

Lemma apply_remote_handled c op d c' eff : Oplog.apply_remote c op d = (c', Ok eff) → handled op c'.
Proof.
  intros (tx & _ & Hap & ->)%(apply_remote_inv forward). split; [done|].
  unfold Oplog.cursor_value. rewrite bump_cursor_lookup, decide_True by done. simpl. lia.
Qed.
End forward.
