(* ===== verification/StreamProps.v ===== *)
(** * Streams, snapshots, replication and resolution

    What the peers of a store rely on: the resume stream of local operations,
    the join snapshot, that an operation appended on one node and applied on
    another leaves the same row, that applied changes are not echoed, and the
    conflict-resolution protocol of [resolve_rows]. *)

From S2P Require Import Prelude Vv Decide Metadata Conflict ConflictProofs State Oplog.
From S2P Require Import OplogProofs StoreProps.
Import VersionVector State Oplog.

Section streams.
Context `{!Blake3, !Bincode, !Hex, !BincodeLaws}.

(** ** The resume stream *)

Lemma seqs_sorted (ops : list OpRecord) s :
  op_origin_seq <$> ops = seqZ s (Z.of_nat (length ops)) →
  StronglySorted (λ a b, bool_decide (op_origin_seq a ≤ op_origin_seq b) = true) ops.
Proof.
  revert s. induction ops as [|op ops IH]; intros s Hs; [constructor|].
  rewrite fmap_cons, length_cons, seqZ_cons in Hs by lia. injection Hs as Hop Hs.
  replace (Z.pred (Z.of_nat (S (length ops)))) with (Z.of_nat (length ops)) in Hs by lia.
  constructor; [by eapply IH|]. apply Forall_forall. intros op' Hin.
  apply bool_decide_eq_true. apply (list_elem_of_fmap_2 op_origin_seq) in Hin.
  rewrite Hs, elem_of_seqZ in Hin. lia.
Qed.

Lemma seqs_after (ops : list OpRecord) s after :
  op_origin_seq <$> ops = seqZ s (Z.of_nat (length ops)) →
  filter (λ op, after < op_origin_seq op) ops = drop (Z.to_nat (after + 1 - s)) ops.
Proof.
  revert s. induction ops as [|op ops IH]; intros s Hs; [by rewrite drop_nil|].
  rewrite fmap_cons, length_cons, seqZ_cons in Hs by lia. injection Hs as Hop Hs.
  replace (Z.pred (Z.of_nat (S (length ops)))) with (Z.of_nat (length ops)) in Hs by lia.
  rewrite filter_cons, (IH (Z.succ s)) by done. rewrite Hop. case_decide.
  - replace (Z.to_nat (after + 1 - s)) with 0%nat by lia.
    by replace (Z.to_nat (after + 1 - Z.succ s)) with 0%nat by lia.
  - by replace (Z.to_nat (after + 1 - s)) with (S (Z.to_nat (after + 1 - Z.succ s))) by lia.
Qed.

Lemma filter_enc_ops node after ops :
  filter (λ r, oc_origin r = ba_list node ∧ after < oc_origin_seq r) (enc_op <$> ops) =
  enc_op <$> filter (λ op, after < op_origin_seq op) (own node ops).
Proof.
  unfold own. induction ops as [|op ops IH]; [done|]. rewrite fmap_cons, !filter_cons. simpl.
  destruct (decide (op_origin op = node)) as [Ho|Ho].
  - rewrite filter_cons. destruct (decide (after < op_origin_seq op)) as [Ha|Ha].
    + rewrite decide_True by (by rewrite Ho). by rewrite IH.
    + rewrite decide_False by tauto. done.
  - rewrite decide_False; [done|]. by intros [?%ba_eq _].
Qed.

Lemma sorted_fmap_enc ops :
  StronglySorted (λ a b, bool_decide (op_origin_seq a ≤ op_origin_seq b) = true) ops →
  StronglySorted (λ a b, bool_decide (oc_origin_seq a ≤ oc_origin_seq b) = true) (enc_op <$> ops).
Proof.
  induction 1 as [|op ops Hs IH Hf]; [constructor|]. rewrite fmap_cons. constructor; [done|].
  apply Forall_fmap. done.
Qed.

Lemma traverse_enc_ops ops : Forall op_typed ops → traverse_list op_of_cols (enc_op <$> ops) = Ok ops.
Proof.
  induction 1 as [|op ops Hop Hops IH]; [done|]. rewrite fmap_cons. simpl.
  by rewrite op_of_enc, IH.
Qed.

Lemma drop_seqs (ops : list OpRecord) s n :
  op_origin_seq <$> ops = seqZ s (Z.of_nat (length ops)) →
  ∃ s', op_origin_seq <$> drop n ops = seqZ s' (Z.of_nat (length (drop n ops))).
Proof.
  revert s ops. induction n as [|n IH]; intros s ops Hs; [by exists s|].
  destruct ops as [|op ops]; [by exists s|].
  rewrite fmap_cons, length_cons, seqZ_cons in Hs by lia. injection Hs as Hop Hs.
  replace (Z.pred (Z.of_nat (S (length ops)))) with (Z.of_nat (length ops)) in Hs by lia.
  by eapply IH.
Qed.

Lemma ops_since_spec (node : NodeId) (c : Conn) (ops : list OpRecord) (after limit : Z) :
  log_ok node c ops → 0 ≤ after → 0 ≤ limit →
  ops_since c node after limit =
    Ok (take (Z.to_nat limit) (drop (Z.to_nat after) (own node ops))).
Proof.
  intros [[Hty Hlog] _ Hgf] Ha Hl. unfold ops_since. rewrite Hlog, filter_enc_ops.
  rewrite (seqs_after _ 1) by done. replace (after + 1 - 1) with after by lia.
  destruct (drop_seqs _ _ (Z.to_nat after) Hgf) as [s' Hs'].
  rewrite sort_by_id by (eapply sorted_fmap_enc, seqs_sorted, Hs').
  rewrite <-fmap_take. apply traverse_enc_ops, Forall_take, Forall_drop.
  unfold own. rewrite Forall_forall in Hty |- *. intros op [_ Hin]%list_elem_of_filter. by apply Hty.
Qed.

(** The resume stream. For a peer whose cursor is [after], the next
    batch is exactly the local operations numbered after+1, after+2, ... up
    to the limit, each decoded as it was recorded: nothing is skipped,
    repeated or reordered. *)
Theorem ops_since_exact (node : NodeId) (c : Conn) (ops : list OpRecord) (after limit : Z) :
  log_ok node c ops → 0 ≤ after → 0 ≤ limit →
  ops_since c node after limit =
    Ok (take (Z.to_nat limit) (drop (Z.to_nat after) (own node ops))).
Proof. apply ops_since_spec. Qed.

(** ** The join snapshot *)

Lemma iter_max_snoc (l : list Z) x :
  iter_max (l ++ [x]) = Some (match iter_max l with Some m => Z.max m x | None => x end).
Proof.
  unfold iter_max. rewrite foldl_snoc. destruct (foldl _ None l) as [m|]; [|done].
  f_equal. unfold ord_max, cmp, Z_ord. destruct (Z.compare_spec m x); lia.
Qed.

Lemma frontier_max l o :
  foldl frontier_step ∅ l !! o = iter_max (oc_origin_seq <$> filter (λ r, oc_origin r = o) l).
Proof.
  induction l as [|r l IH] using rev_ind; [done|].
  rewrite foldl_snoc, filter_app, fmap_app, filter_cons, filter_nil. unfold frontier_step at 1.
  destruct (decide (oc_origin r = o)) as [<-|Hne].
  - rewrite lookup_insert_eq. simpl. by rewrite iter_max_snoc, IH.
  - rewrite lookup_insert_ne by done. simpl. by rewrite app_nil_r.
Qed.

Lemma frontier_decode (m : gmap blob Z) fs :
  traverse_list (λ '((o, s) : blob * Z),
    origin ← ok_or (StoreError.Corrupt "oplog.origin") (array_of_list 16 o); Ok (origin, s))
    (btree_iter m) = Ok fs →
  NoDup fs.*1 ∧ ∀ (o : NodeId) s, (o, s) ∈ fs ↔ m !! ba_list o = Some s.
Proof.
  intros Htr%traverse_list_ok.
  assert (Hf : Forall2 (λ (x : blob * Z) (y : NodeId * Z), x = (ba_list y.1, y.2)) (btree_iter m) fs).
  { eapply Forall2_impl; [exact Htr|]. intros [o s] [o' s']. simpl.
    destruct (array_of_list 16 o) as [o''|] eqn:Ho; simpl; [|done]. intros [= <- <-]. f_equal.
    destruct (decide (length o = 16%nat)) as [Hl|Hl].
    - destruct (proj2 (array_of_list_spec (n:=16) o) Hl) as (b & Hb & <-). congruence.
    - rewrite (proj1 (array_of_list_spec (n:=16) o) Hl) in Ho. done. }
  assert (Heq : btree_iter m = (λ y : NodeId * Z, (ba_list y.1, y.2)) <$> fs).
  { clear Htr. induction Hf as [|x y l fs' -> _ IH]; [done|]. by rewrite IH. }
  split.
  - assert (Hk : btree_keys m = ba_list <$> fs.*1).
    { unfold btree_keys. rewrite Heq, <-!list_fmap_compose. done. }
    pose proof (NoDup_btree_keys m) as Hnd. rewrite Hk in Hnd. by apply NoDup_fmap_1 in Hnd.
  - intros o s. rewrite <-elem_of_btree_iter, Heq, list_elem_of_fmap. split.
    + intros Hin. by exists (o, s).
    + intros ([o' s'] & [= Ho ->] & Hin). simpl in *. apply ba_eq in Ho as ->. done.
Qed.

Lemma own_frontier node c ops : log_ok node c ops → ∀ o,
  iter_max (oc_origin_seq <$> filter (λ r, oc_origin r = ba_list o) (t_oplog c)) =
  iter_max (op_origin_seq <$> own o ops).
Proof.
  intros [[_ Hlog] _ _] o. f_equal. rewrite Hlog. clear. unfold own.
  induction ops as [|op ops IH]; [done|]. rewrite fmap_cons, !filter_cons. simpl.
  destruct (decide (op_origin op = o)) as [Ho|Ho].
  - rewrite decide_True by (by rewrite Ho). rewrite !fmap_cons. by rewrite IH.
  - rewrite decide_False; [done|]. by intros ?%ba_eq.
Qed.

(** The join snapshot is exact. Its rows are the whole index; its
    frontier names each origin of the log once, with the highest sequence
    number recorded for it, so every recorded operation is at or below the
    frontier; and any operation the node appends later lies strictly above
    it, which is why resuming from the frontier neither loses nor repeats an
    operation. *)
Theorem snapshot_for_join_exact (node : NodeId) (c : Conn) (ops : list OpRecord) :
  conn_wf c → log_ok node c ops →
  ∃ snap, snapshot_for_join c = Ok snap ∧ all_files c = Ok (js_rows snap) ∧
    NoDup (js_frontier snap).*1 ∧
    (∀ o s, (o, s) ∈ js_frontier snap ↔ iter_max (op_origin_seq <$> own o ops) = Some s) ∧
    (∀ op, op ∈ ops → ∃ s, (op_origin op, s) ∈ js_frontier snap ∧ op_origin_seq op ≤ s) ∧
    ∀ c' ops' op s, log_ok node c' ops' → ops `prefix_of` ops' → op ∈ own node ops' →
      (node, s) ∈ js_frontier snap → op_origin_seq op ≤ s → op ∈ ops.
Proof.
  intros Hc Hlog. destruct (snapshot_no_err c Hc) as [snap Hsnap]. exists snap.
  split; [done|]. unfold snapshot_for_join in Hsnap.
  destruct (all_files c) as [rows|]; [|done]. simpl in Hsnap.
  destruct (traverse_list _ _) as [fs|] eqn:Htr; [|done]. injection Hsnap as <-. simpl.
  apply frontier_decode in Htr as [Hnd Hin].
  assert (Hf : ∀ o s, (o, s) ∈ fs ↔ iter_max (op_origin_seq <$> own o ops) = Some s).
  { intros o s. by rewrite Hin, frontier_max, (own_frontier node c ops). }
  split_and!; [done..| |].
  - intros op Hop. assert (Hown : op ∈ own (op_origin op) ops) by (by apply list_elem_of_filter).
    destruct (iter_max (op_origin_seq <$> own (op_origin op) ops)) as [s|] eqn:Hs.
    + exists s. split; [by apply Hf|]. apply iter_max_spec in Hs as [_ Hub].
      apply (Hub (op_origin_seq op)). by apply list_elem_of_fmap_2.
    + apply iter_max_none, fmap_nil_inv in Hs. rewrite Hs in Hown. by apply not_elem_of_nil in Hown.
  - intros c' ops' op s Hlog' [l ->] Hop Hs Hle. apply Hf, iter_max_spec in Hs as [Hs _].
    pose proof (lo_gapfree _ _ _ Hlog) as Hgf. pose proof (lo_gapfree _ _ _ Hlog') as Hgf'.
    rewrite Hgf, elem_of_seqZ in Hs. unfold own in Hop, Hgf'. rewrite filter_app in Hop, Hgf'.
    fold (own node ops) in Hop, Hgf'.
    apply elem_of_app in Hop as [[_ ?]%list_elem_of_filter|Hop]; [done|exfalso].
    rewrite fmap_app, Hgf, length_app, Nat2Z.inj_add, seqZ_app in Hgf' by lia.
    apply (inj _) in Hgf'. apply (list_elem_of_fmap_2 op_origin_seq) in Hop.
    rewrite Hgf', elem_of_seqZ in Hop. lia.
Qed.

(** ** Replication *)

(** A delete carries nothing but its path and mode. *)
Definition delete_shaped (ch : LocalChange) : Prop :=
  lc_op_type ch = OpType.Delete →
  lc_content_hash ch = None ∧ lc_size ch = 0 ∧ lc_meta ch = None.

Lemma append_local_type c node ch c' op :
  append_local c node ch = (c', Ok (Some op)) → lc_op_type ch ≠ OpType.Rename.
Proof.
  intros Heq. pose proof (append_local_effect c node ch) as Heff. rewrite Heq in Heff.
  destruct Heff as (local & _ & Hn & _). unfold causal_noop in Hn. by destruct (lc_op_type ch).
Qed.

Lemma local_remote_row c node local ch :
  delete_shaped ch → lc_op_type ch ≠ OpType.Rename →
  row_of_op (append_op c node local ch) = remote_row (append_op c node local ch).
Proof.
  intros Hd Hr. unfold row_of_op, remote_row, delete_shaped in *. simpl.
  destruct (lc_op_type ch); [done| |done]. destruct Hd as (-> & -> & ->); [done|]. done.
Qed.

Lemma put_manifest_opt_files m c : t_files (put_manifest_opt m c) = t_files c.
Proof. by destruct m. Qed.

Lemma append_local_row c node ch c' op :
  conn_wf c → change_typed ch → room node c →
  append_local c node ch = (c', Ok (Some op)) →
  op_typed op ∧ load_row c' (lc_path ch) = Ok (Some (row_of_op op)) ∧
  op_path op = lc_path ch ∧ op_op_type op = lc_op_type ch ∧ op_path_old op = None ∧
  ∃ local, load_row c (lc_path ch) = Ok local ∧ op = append_op c node local ch ∧
    ∀ l, local = Some l → lt (fr_vv l) (op_vv op).
Proof.
  intros Hc Hch Hroom Heq. pose proof (append_local_effect c node ch) as Heff. rewrite Heq in Heff.
  simpl in Heff. destruct Heff as (local & Hl & _ & Hop & -> & _).
  destruct (append_op_ok c node ch local) as [Hot Hlt]; [done..|]. rewrite <-Hop in Hot, Hlt.
  split_and!; [done| |by rewrite Hop..|by exists local].
  rewrite (load_row_ext _ (put_row (row_of_op op) (ins_op op c))) by apply put_manifest_opt_files.
  rewrite load_put_row; [|by destruct Hot as (? & ? & ? & ?); split_and!|apply conn_wf_ins; done].
  rewrite decide_True; [done|]. by rewrite Hop.
Qed.

(** A write or delete replicates. If a node appends a local change and a
    peer that holds the same row for the path (or none, if the writer had
    none) handles the resulting operation as an apply, the peer decides
    [Apply] under its own transaction and ends with the very row the writer
    has: same content, metadata, identity and version vector. *)
Theorem append_then_apply_agree (cA cB : Conn) (node : NodeId) (ch : LocalChange)
    (cA' : Conn) (op : OpRecord) :
  conn_wf cA → conn_wf cB → change_typed ch → room node cA → delete_shaped ch →
  append_local cA node ch = (cA', Ok (Some op)) →
  load_row cB (lc_path ch) = load_row cA (lc_path ch) →
  has_applied cB (op_op_id op) = false →
  ∃ cB', apply_remote cB op Decision.Apply = (cB', Ok Decision.Apply) ∧
    load_row cB' (lc_path ch) = load_row cA' (lc_path ch) ∧
    load_row cA' (lc_path ch) = Ok (Some (row_of_op op)).
Proof.
  intros HA HB Hch Hroom Hdel Heq Hsame Hap.
  pose proof (append_local_type _ _ _ _ _ Heq) as Hnr.
  destruct (append_local_row _ _ _ _ _ HA Hch Hroom Heq)
    as (Hot & Hrow & Hp & Ht & Ho & local & Hl & Hop & Hlt).
  pose proof (apply_remote_effect cB op Decision.Apply HB Hot) as Heff.
  unfold remote_effect in Heff. rewrite Hap in Heff. destruct Heff as (local' & Hl' & Heff).
  rewrite Hp, Hsame, Hl in Hl'. injection Hl' as <-.
  assert (Hd : effective_of Decision.Apply local (op_vv op) = Decision.Apply).
  { unfold effective_of. rewrite bool_decide_true by done. destruct local as [l|]; [|done].
    apply (decide_apply (local_of l)). by apply Hlt. }
  rewrite Hd in Heff. destruct (apply_remote cB op Decision.Apply) as [cB' res]. simpl in Heff.
  assert (Hfin : res = Ok Decision.Apply ∧ cB' = bump_cursor op (mark_applied op
    (put_row (remote_row op) (ins_op op cB)))).
  { rewrite Ht in Heff. by destruct (lc_op_type ch). }
  destruct Hfin as [-> ->]. eexists. split_and!; [done| |done].
  rewrite (load_row_ext _ (put_row (remote_row op) (ins_op op cB))) by done.
  rewrite load_put_row; [|by apply remote_row_typed|apply conn_wf_ins; done].
  rewrite decide_True by (by rewrite remote_row_path).
  rewrite Hrow, Hop, local_remote_row by done. done.
Qed.

(** Applied changes are not echoed. After a remote write, delete or
    rename has been applied, the watcher or scanner observing the result as a
    local change produces no operation and leaves the database untouched. *)
Theorem applied_change_not_echoed (c c' : Conn) (op : OpRecord) (node : NodeId) (ch : LocalChange) :
  conn_wf c → op_typed op → has_applied c (op_op_id op) = false →
  op_path_old op ≠ Some (op_path op) →
  apply_remote c op Decision.Apply = (c', Ok Decision.Apply) →
  lc_path ch = op_path op →
  match op_op_type op with
  | OpType.Delete => lc_op_type ch = OpType.Delete
  | _ => lc_op_type ch = OpType.Write ∧ lc_content_hash ch = op_content_hash op ∧
         Meta.hash_of (lc_meta ch) = Meta.hash_of (op_meta op)
  end →
  append_local c' node ch = (c', Ok None) ∧
  (∀ old lo, op_op_type op = OpType.Rename → op_path_old op = Some old →
     load_row c old = Ok lo → decide_op (local_of <$> lo) (op_vv op) = Decision.Apply →
     append_local_rename c' node old (op_path op) = (c', Ok None)).
Proof.
  intros Hc Hop Hap Hne Heq Hp Hch.
  destruct (apply_remote_spec c op Decision.Apply Hc Hop Hap)
    as (local & c1 & Hl & Heq1 & Hload & Hsrc & _); [|done|].
  { intros Ht. destruct (op_path_old op) as [old|] eqn:Ho; [by eexists|].
    pose proof (apply_remote_effect c op Decision.Apply Hc Hop) as Heff.
    unfold remote_effect in Heff. rewrite Hap, Ht, Ho, Heq in Heff. by destruct Heff as (? & _ & _ & ?). }
  rewrite Heq in Heq1. injection Heq1 as <- Heff. simpl in Heff. rewrite <-Heff in Hload.
  rewrite bool_decide_true in Hload by done. split.
  - unfold append_local, run_tx. rewrite Hp, Hload. simpl. unfold causal_noop, remote_row.
    destruct (op_op_type op); simpl.
    + destruct Hch as (-> & -> & ->). simpl. by rewrite !bool_decide_true.
    + by rewrite Hch.
    + destruct Hch as (-> & -> & ->). simpl. by rewrite !bool_decide_true.
  - clear Hl. intros old lo Ht Ho Hl Hd. unfold append_local_rename, run_tx.
    rewrite bool_decide_false by congruence.
    destruct (Hsrc old Ht Ho) as (lo' & Hl' & ->). rewrite Hl in Hl'. injection Hl' as <-.
    unfold source_after. by rewrite bool_decide_true.
Qed.

(** A rename replicates as one step. When the peer holds the same rows
    for both paths, applying the operation leaves both nodes with the same
    tombstone at the source and the same file at the target, which continues
    the source's identity, content and lineage. *)
Theorem rename_then_apply_agree (cA cB : Conn) (node : NodeId) (old_path new_path : string)
    (cA' : Conn) (op : OpRecord) :
  conn_wf cA → conn_wf cB → room node cA →
  append_local_rename cA node old_path new_path = (cA', Ok (Some op)) →
  load_row cB old_path = load_row cA old_path → load_row cB new_path = load_row cA new_path →
  has_applied cB (op_op_id op) = false →
  ∃ cB' src, apply_remote cB op Decision.Apply = (cB', Ok Decision.Apply) ∧
    load_row cB' old_path = load_row cA' old_path ∧
    load_row cB' new_path = load_row cA' new_path ∧
    load_row cA old_path = Ok (Some src) ∧
    load_row cA' old_path = Ok (Some (source_row old_path op)) ∧
    load_row cA' new_path = Ok (Some (row_of_op op)) ∧
    op_content_hash op = fr_content_hash src ∧
    (∀ u, fr_uuid src = Some u → op_uuid op = Some u) ∧ lt (fr_vv src) (op_vv op).
Proof.
  intros HA HB Hroom Heq Hsame_o Hsame_n Hap.
  pose proof (append_local_rename_effect cA node old_path new_path) as Heff. rewrite Heq in Heff.
  simpl in Heff. destruct Heff as (src & dst & Ho & Ht & Hn & Hne & Hop & ->).
  pose proof (rename_op_typed cA node old_path new_path src dst HA Hroom Ho Hn) as Hot.
  destruct (rename_vv_ok cA node old_path new_path src dst) as (Hwfv & Hsrc & Hdst); [apply HA|done..|].
  rewrite <-Hop in Hot. assert (Hov : op_vv op = rename_vv node src dst) by by rewrite Hop.
  assert (Htyp : op_op_type op = OpType.Rename) by by rewrite Hop.
  assert (Hpo : op_path_old op = Some old_path) by by rewrite Hop.
  assert (Hpn : op_path op = new_path) by by rewrite Hop.
  assert (Hrr : remote_row op = row_of_op op) by (rewrite Hop; done).
  assert (Hst : row_typed (source_row old_path op)) by by apply source_row_typed.
  assert (Hrt : row_typed (row_of_op op)) by (rewrite <-Hrr; by apply remote_row_typed).
  assert (Hi : files_wf (ins_op op cA)) by (apply conn_wf_ins; done).
  destruct (apply_remote_spec cB op Decision.Apply HB Hot Hap)
    as (local & cB' & Hl & Heff & Hload & Hs & _); [by rewrite Hpo|by rewrite Hpo, Hpn; congruence|].
  rewrite Hpn, Hsame_n, Hn in Hl. injection Hl as <-.
  assert (Hd : decide_op (local_of <$> dst) (op_vv op) = Decision.Apply).
  { destruct dst as [d|]; [|done]. apply (decide_apply (local_of d)). rewrite Hov. by apply Hdst. }
  simpl in Heff, Hload. rewrite Hd in Heff, Hload. simpl in Hload.
  destruct (Hs old_path Htyp Hpo) as (lo & Hlo & Hload'). rewrite Hsame_o, Ho in Hlo. injection Hlo as <-.
  unfold source_after in Hload'. rewrite bool_decide_true in Hload'
    by (apply (decide_apply (local_of src)); by rewrite Hov).
  assert (Hao : load_row (put_row (row_of_op op) (put_row (source_row old_path op) (ins_op op cA))) old_path
    = Ok (Some (source_row old_path op))).
  { rewrite load_put_row by (try done; by apply files_wf_put). rewrite decide_False by (simpl; congruence).
    rewrite load_put_row by done. by rewrite decide_True. }
  assert (Han : load_row (put_row (row_of_op op) (put_row (source_row old_path op) (ins_op op cA))) new_path
    = Ok (Some (row_of_op op))).
  { rewrite load_put_row by (try done; by apply files_wf_put). by rewrite decide_True by (simpl; congruence). }
  exists cB', src. rewrite Hao, Han. split_and!; try done.
  - by rewrite <-Hpn, Hload, Hrr.
  - by rewrite Hop.
  - intros u Hu. rewrite Hop. simpl. by rewrite Hu.
  - by rewrite Hov.
Qed.

(** ** Conflict resolution in the store *)

(** The resolution protocol. Resolving a concurrent remote version
    either commits a plan at most once or changes nothing: a caller whose
    staged rows do not match gets the authoritative plan, and retrying with
    it on the same state commits. A commit touches the index only (no
    operation, no applied mark, no cursor), leaves exactly the planned rows
    at their paths and every other path alone, and the contested path then
    covers both the remote version and the old row, so repeating the
    resolution is answered [NotConcurrent Ignore] without effect. *)
Theorem resolve_rows_protocol (c : Conn) (path : string) (remote : Version)
    (staged : list PlannedRow) (row : FileRow) :
  conn_wf c → version_typed remote → load_row c path = Ok (Some row) →
  concurrent (v_vv remote) (fr_vv row) →
  (resolve_rows c path remote staged = (c, Ok ResolveOutcome.Unresolvable)) ∨
  (∃ plan, plan ≠ staged ∧
     resolve_rows c path remote staged = (c, Ok (ResolveOutcome.Stale plan)) ∧
     ∃ c', resolve_rows c path remote plan = (c', Ok ResolveOutcome.Resolved)) ∨
  (∃ c', resolve_rows c path remote staged = (c', Ok ResolveOutcome.Resolved) ∧
     conn_wf c' ∧ c' = set_files (λ _, t_files c') c ∧
     (∀ r, r ∈ staged → load_row c' (pr_path r) = Ok (Some (row_of_planned r))) ∧
     (∀ p, p ∉ pr_path <$> staged → load_row c' p = load_row c p) ∧
     ∃ w, w ∈ staged ∧ pr_path w = path ∧ le (v_vv remote) (pr_vv w) ∧ lt (fr_vv row) (pr_vv w) ∧
       ∀ staged', resolve_rows c' path remote staged' =
         (c', Ok (ResolveOutcome.NotConcurrent Decision.Ignore))).
Proof.
  intros Hc Hr Hl Hconc. pose proof (resolve_rows_effect c path remote staged) as Heff.
  destruct (resolve_no_err c path remote staged Hc) as [out Hout].
  destruct (resolve_rows c path remote staged) as [c' res] eqn:Heq. simpl in Hout, Heff. subst res.
  destruct out as [|d|plan|]; simpl in Heff.
  - right; right. destruct Heff as (row' & ops & Hl' & _ & Hops & Hplan & ->).
    rewrite Hl in Hl'. injection Hl' as <-.
    destruct (resolve_plan_ok c path remote row ops staged) as (Hnd & Hok & w & rest & Hst & Hw & Hle & Hlt);
      [done..|].
    assert (Hty : Forall planned_typed staged) by (eapply Forall_impl; [exact Hok|]; by intros ? [? _]).
    destruct (put_planned_load staged c) as (Hwf & Hin & Hout); [apply Hc|done..|].
    exists (put_planned staged c). split_and!; [done| |apply put_planned_frame|done..|].
    { pose proof (step_ok_resolve c path remote staged Hc Hr) as [Hwf' _]. by rewrite Heq in Hwf'. }
    exists w. assert (Hws : w ∈ staged) by (rewrite Hst; by left). split_and!; [done..|].
    intros staged'. pose proof (Hin w Hws) as Hload. rewrite Hw in Hload.
    unfold resolve_rows, run_tx. rewrite Hload. cbn [mbind result_bind].
    assert (Hd : decide_op (Some (local_of (row_of_planned w))) (v_vv remote) = Decision.Ignore)
      by (by apply decide_ignore).
    change (decide_op _ (v_vv remote)) with (decide_op (Some (local_of (row_of_planned w))) (v_vv remote)).
    rewrite Hd. done.
  - destruct Heff as (_ & local & Hl' & -> & Hd). rewrite Hl in Hl'. injection Hl' as <-.
    destruct Hd. by apply (decide_concurrent (local_of row)).
  - right; left. destruct Heff as (row' & ops & Hl' & _ & Hops & Hplan & Hne & ->).
    exists plan. split_and!; [done..|].
    pose proof (resolve_rows_effect c path remote plan) as Heff.
    destruct (resolve_no_err c path remote plan Hc) as [out Hout].
    destruct (resolve_rows c path remote plan) as [c' res] eqn:Heq'. simpl in Hout, Heff. subst res.
    exists c'. destruct out as [|d|plan'|]; simpl in Heff; [done|exfalso..].
    + destruct Heff as (_ & local & Hl'' & -> & Hd). rewrite Hl in Hl''. injection Hl'' as <-.
      destruct Hd. by apply (decide_concurrent (local_of row)).
    + destruct Heff as (row'' & ops' & Hl'' & _ & Hops' & Hplan' & Hne' & _). congruence.
    + destruct Heff as (row'' & ops' & Hl'' & _ & Hops' & Hplan' & _). congruence.
  - left. destruct Heff as (row' & ops & _ & _ & _ & _ & ->). done.
Qed.

(** The plan reads the index only at names longer than the contested path. *)
Lemma copy_path_longer path h m : (String.length path < String.length (Resolve.copy_path_for path h m))%nat.
Proof.
  destruct (copy_path_shape path) as (p & s & Hp & Hshape). rewrite Hshape, Hp, !string_length_app.
  simpl. lia.
Qed.

Lemma copy_chain_lookup_ext {E} (lk lk' : string → result E (option Version)) n rows cp v k :
  (∀ p, (k < String.length p)%nat → lk p = lk' p) → (k < String.length cp)%nat →
  Resolve.copy_chain lk n rows cp v = Resolve.copy_chain lk' n rows cp v.
Proof.
  intros Hext. revert rows cp v. induction n as [|n IH]; intros rows cp v Hk; [done|].
  unfold Resolve.copy_chain; fold (Resolve.copy_chain lk) (Resolve.copy_chain lk').
  rewrite Hext by done. destruct (existsb _ rows); [done|].
  destruct (lk' cp) as [[e|]|]; simpl; [|done..]. destruct (compare _ _); try done.
  destruct (Resolve.antichain _) as [|w [|l ?]]; try done.
  destruct (v_content_hash l); [|done]. destruct (bool_decide _); [done|].
  apply IH. etrans; [exact Hk|]. apply copy_path_longer.
Qed.

Lemma plan_lookup_ext {E} (lk lk' : string → result E (option Version)) path cs :
  (∀ p, (String.length path < String.length p)%nat → lk p = lk' p) →
  Resolve.plan_candidates lk path cs = Resolve.plan_candidates lk' path cs.
Proof.
  intros Hext. unfold Resolve.plan_candidates. destruct (Resolve.antichain cs) as [|w ls]; [done|].
  generalize [Resolve.winner_row path cs (w :: ls) w] as rows. generalize (Version.key w) as kw.
  induction ls as [|v ls IH]; intros kw rows; simpl; [done|].
  destruct (v_content_hash v); [|apply IH]. destruct (bool_decide _); [apply IH|].
  rewrite (copy_chain_lookup_ext lk lk' _ _ _ _ (String.length path)) by (try done; apply copy_path_longer).
  destruct (Resolve.copy_chain _ _ _ _ _) as [[rows'|]|]; simpl; [apply IH|done..].
Qed.

(** The candidates a node resolves [path] from, when its log explains the
    row. *)
Definition path_history (path : string) (ops : list OpRecord) : list Version :=
  candidate path <$> filter (λ op, op_path op = path ∨ op_path_old op = Some path) ops.

Lemma resolve_reply c ops path remote row staged :
  conn_wf c → ops_of c ops → load_row c path = Ok (Some row) →
  concurrent (v_vv remote) (fr_vv row) →
  le (fr_vv row) (Resolve.join_vvs (path_history path ops ++ [remote])) →
  ∃ plan, Resolve.plan_candidates (lookup_version c) path (path_history path ops ++ [remote]) = Ok plan ∧
    (resolve_rows c path remote staged).2 = Ok
      match plan with
      | None => ResolveOutcome.Unresolvable
      | Some p => if decide (p = staged) then ResolveOutcome.Resolved else ResolveOutcome.Stale p
      end.
Proof.
  intros Hc Hops Hl Hconc Hcov. destruct (plan_candidates_total (lookup_version c)
    (λ p, lookup_version_total c p (cw_files _ Hc)) path (path_history path ops ++ [remote])) as [plan Hplan].
  exists plan. split; [done|]. unfold resolve_rows, run_tx. rewrite Hl. cbn [mbind result_bind].
  change (decide_op _ (v_vv remote)) with (decide_op (Some (local_of row)) (v_vv remote)).
  rewrite (proj2 (decide_concurrent (local_of row) (v_vv remote))) by done.
  rewrite bool_decide_false by auto.
  rewrite (ops_as_candidates_ok c ops path Hops). cbn [mbind result_bind].
  assert (Hcs : resolve_candidates (path_history path ops) remote row = path_history path ops ++ [remote]).
  { unfold resolve_candidates.
    pose proof (compare_cases (Resolve.join_vvs (path_history path ops ++ [remote])) (fr_vv row)) as Hcmp.
    destruct (compare _ _); [done| |done|]; exfalso.
    - by destruct Hcmp as [_ []].
    - by destruct Hcmp as [_ []]. }
  fold (path_history path ops). rewrite Hcs, Hplan. cbn [mbind result_bind].
  destruct plan as [p|]; [|done]. destruct (decide (p = staged)) as [<-|Hne].
  - rewrite bool_decide_false by auto. by rewrite upsert_rows_put.
  - by rewrite bool_decide_true.
Qed.

(** C13: Nodes resolve a conflict identically. Two nodes that have recorded
    the same set of versions of a path, in whatever order and through
    whichever remote version each of them notices the conflict, answer a
    resolution attempt identically: with the same plan, or both resolved; so
    no coordination is needed for them to agree on winner, copies, names and
    vectors. Conditions: on each node the row at the path is concurrent with the
    version noticed, and its vector is covered by the recorded versions (the
    log explains the row); of the recorded versions, no two with one vector
    differ, and two with the same content and durable metadata agree on size,
    metadata and mode (without the last, the mode of a copy depends on the
    order: [copy_mode_order_dependent]); and the rows the plan looks up, which are at conflict-copy
    names, all longer than the path, are the same on both nodes. *)
Theorem resolution_confluent (c1 c2 : Conn) (ops1 ops2 : list OpRecord) (path : string)
    (r1 r2 : Version) (row1 row2 : FileRow) (staged : list PlannedRow) :
  conn_wf c1 → conn_wf c2 → ops_of c1 ops1 → ops_of c2 ops2 →
  load_row c1 path = Ok (Some row1) → load_row c2 path = Ok (Some row2) →
  concurrent (v_vv r1) (fr_vv row1) → concurrent (v_vv r2) (fr_vv row2) →
  let h1 := path_history path ops1 ++ [r1] in
  let h2 := path_history path ops2 ++ [r2] in
  (∀ v, v ∈ h1 ↔ v ∈ h2) → candidates_ok h1 → agree_mode h1 →
  le (fr_vv row1) (Resolve.join_vvs h1) → le (fr_vv row2) (Resolve.join_vvs h2) →
  (∀ p, (String.length path < String.length p)%nat → load_row c1 p = load_row c2 p) →
  (resolve_rows c1 path r1 staged).2 = (resolve_rows c2 path r2 staged).2.
Proof.
  intros Hc1 Hc2 Ho1 Ho2 Hl1 Hl2 Hx1 Hx2 h1 h2 Hset Hok Hmode Hcov1 Hcov2 Hsame.
  destruct (resolve_reply c1 ops1 path r1 row1 staged) as (p1 & Hp1 & ->); [done..|].
  destruct (resolve_reply c2 ops2 path r2 row2 staged) as (p2 & Hp2 & ->); [done..|].
  assert (p1 = p2) as ->; [|done].
  assert (Heq : Resolve.plan_candidates (lookup_version c1) path h1 =
    Resolve.plan_candidates (lookup_version c2) path h2).
  { rewrite (plan_lookup_ext _ (lookup_version c2)).
    - apply plan_ext; [| |by apply mx_set_ext].
      + eapply candidates_ok_sub; [|exact Hok]. intros v. rewrite elem_of_app, <-Hset. tauto.
      + eapply agree_mode_sub; [|exact Hmode]. intros v. rewrite elem_of_app, <-Hset. tauto.
    - intros p Hp. unfold lookup_version. by rewrite Hsame. }
  subst h1 h2. congruence.
Qed.
End streams.
