(* ===== verification/StoreWitness.v ===== *)
(** * Concrete runs of the store

    The properties of the store applied to concrete databases and commands,
    with the third-party functions instantiated by executable stand-ins. *)

From S2P Require Import Prelude Vv Decide Metadata Conflict ConflictProofs State Oplog.
From S2P Require Import OplogProofs StoreProps StreamProps.
Import VersionVector State Oplog Ex StateEx.

(** ** Checkers *)

Definition room_entry (node : NodeId) (r : FilesCols) : bool :=
  match de_vv (fc_vv r) with Some v => bool_decide (get v node + 1 < u64_modulus) | None => false end.
Definition room_check (node : NodeId) (c : Conn) : bool :=
  bool_decide (map_Forall (λ _ r, room_entry node r = true) (t_files c)).

Lemma room_checked node c : files_wf c → room_check node c = true → room node c.
Proof.
  intros Hc Hb%bool_decide_eq_true p row Hl.
  apply load_row_some in Hl as (Ht & _ & Hl); [|done]. apply Hb in Hl. unfold room_entry in Hl.
  assert (Hv : de_vv (fc_vv (enc_row row)) = Some (fr_vv row)) by apply de_ser_vv, Ht.
  rewrite Hv in Hl. by apply bool_decide_eq_true in Hl.
Qed.

Lemma in_u32_small z : 0 ≤ z < 1000 → in_u32 z.
Proof. unfold in_u32, u32_modulus. lia. Qed.
Lemma in_u64_small z : 0 ≤ z < 1000 → in_u64 z.
Proof. unfold in_u64, u64_modulus. lia. Qed.

(** ** A node writes, edits and renames a file *)

Definition write (path : string) (h : hash32) : LocalChange :=
  mkLocalChange path OpType.Write 420 5 (Some h) None None.
Definition st0 : StoreState := mkStoreState empty_conn 0.
Definition st1 : StoreState := (store_step node_a st0 (AppendLocal (write "x" h1))).1.
Definition st2 : StoreState := (store_step node_a st1 (AppendLocal (write "x" h2))).1.

Definition reply_op (r : Reply) : OpRecord :=
  match r with
  | ROp (Ok (Some op)) => op
  | _ => mkOpRecord h1 node_a 0 OpType.Write "" None None 0 0 None None ∅
  end.
Definition op1 : OpRecord := reply_op (store_step node_a st0 (AppendLocal (write "x" h1))).2.
Definition op2 : OpRecord := reply_op (store_step node_a st1 (AppendLocal (write "x" h2))).2.
Definition rename_reply : Reply := (store_step node_a st1 (AppendLocalRename "x" "y")).2.
Definition op_mv : OpRecord := reply_op rename_reply.

Lemma write_typed path h : change_typed (write path h).
Proof. split_and!; [by apply in_u32_small|by apply in_u64_small|done]. Qed.
Lemma conn0_wf : conn_wf empty_conn.
Proof. split; [apply empty_conn_wf|constructor|constructor|apply map_Forall_empty]. Qed.
Lemma conn1_wf : conn_wf (ss_conn st1).
Proof.
  apply (store_step_ok node_a st0 (AppendLocal (write "x" h1))); [apply conn0_wf|apply write_typed|].
  apply room_checked; [apply conn0_wf|vm_compute; done].
Qed.
Lemma room0 : room node_a empty_conn.
Proof. apply room_checked; [apply conn0_wf|vm_compute; done]. Qed.
Lemma room1 : room node_a (ss_conn st1).
Proof. apply room_checked; [apply conn1_wf|vm_compute; done]. Qed.

Definition run_cmds : list StoreCmd :=
  [AppendLocal (write "x" h2); LoadFile "x"; AdvanceAck node_b 1].

Lemma conn2_wf : conn_wf (ss_conn st2).
Proof.
  apply (store_step_ok node_a st1 (AppendLocal (write "x" h2)));
    [apply conn1_wf|apply write_typed|apply room1].
Qed.

Lemma run_cmds_typed : run_typed node_a st1 run_cmds.
Proof.
  assert (Hroom2 : room node_a (ss_conn st2)) by (apply room_checked; [apply conn2_wf|vm_compute; done]).
  split; [apply write_typed|]. split; [apply room1|]. split; [exact I|].
  split; [exact Hroom2|]. split; [exact I|]. split; [exact Hroom2|exact I].
Qed.

Lemma store_rows_only_advance_witness :
  ∃ row', load_row (ss_conn (run_store node_a st1 run_cmds)) "x" = Ok (Some row') ∧
  (row' = row_of_op op1 ∨ lt (op_vv op1) (fr_vv row')).
Proof.
  destruct (store_rows_only_advance node_a st1 run_cmds conn1_wf run_cmds_typed) as [_ H].
  apply (H "x" (row_of_op op1)). vm_decide.
Defined.

Lemma store_step_no_corruption_witness :
  reply_err (store_step node_a st1 (AppendLocal (mkLocalChange "x" OpType.Rename 420 5 None None None))).2
    = Some (StoreError.Corrupt "rename is not a LocalChange") ∧
  lc_op_type (mkLocalChange "x" OpType.Rename 420 5 None None None) = OpType.Rename.
Proof.
  split; [vm_decide|].
  destruct (store_step_no_corruption node_a st1
    (AppendLocal (mkLocalChange "x" OpType.Rename 420 5 None None None))
    (StoreError.Corrupt "rename is not a LocalChange")) as [H|(m & Hm & _)].
  - apply conn1_wf.
  - split_and!; [by apply in_u32_small|by apply in_u64_small|done].
  - vm_decide.
  - exact H.
  - discriminate Hm.
Defined.

(** The stand-in digest keeps the 24 bytes an operation id is made of. *)
Lemma toy_op_id_inj o s o' s' :
  in_i64 s → in_i64 s' → op_id o s = op_id o' s' → o = o' ∧ s = s'.
Proof.
  unfold op_id, blake3, toy_blake3, i64_be. intros Hs Hs' Heq.
  apply (f_equal (λ b, take 24 (ba_list b))) in Heq. simpl in Heq.
  assert (Hres : ∀ (b : NodeId) z, take 24 (resize 32 x00 (ba_list b ++ be_bytes 8 z)) =
    ba_list b ++ be_bytes 8 z).
  { intros b z. rewrite resize_ge by (rewrite length_app, ba_length, length_be_bytes; lia).
    rewrite take_app_le by (rewrite length_app, ba_length, length_be_bytes; lia).
    apply take_ge. rewrite length_app, ba_length, length_be_bytes. lia. }
  rewrite !Hres in Heq. apply app_inj_1 in Heq as [Ho Hb]; [|by rewrite !ba_length].
  split; [by apply ba_eq|]. apply (f_equal be_val) in Hb.
  assert (Hu : ∀ z, 0 ≤ as_u64 z < 256 ^ Z.of_nat 8).
  { intros z. unfold as_u64, u64_modulus. apply Z.mod_pos_bound. lia. }
  rewrite !be_val_bytes in Hb by apply Hu. unfold in_i64, as_u64, u64_modulus in *.
  destruct (decide (0 ≤ s)), (decide (0 ≤ s')).
  - rewrite !Z.mod_small in Hb by lia. done.
  - rewrite (Z.mod_small s) in Hb by lia. rewrite <-(Z.mod_add s' 1) in Hb by lia.
    rewrite Z.mod_small in Hb by lia. lia.
  - rewrite (Z.mod_small s') in Hb by lia. rewrite <-(Z.mod_add s 1) in Hb by lia.
    rewrite Z.mod_small in Hb by lia. lia.
  - rewrite <-(Z.mod_add s 1), <-(Z.mod_add s' 1) in Hb by lia.
    rewrite !Z.mod_small in Hb by lia. lia.
Qed.

Lemma op_typed_1 : op_typed op1.
Proof.
  split_and!; [vm_compute; split; [done|done]|vm_compute; split; done|vm_decide|done].
Qed.

Lemma apply_remote_idempotent_witness :
  ∃ c', apply_remote empty_conn op1 Decision.Apply = (c', Ok Decision.Apply) ∧
        apply_remote c' op1 Decision.Apply = (c', Ok Decision.Apply).
Proof.
  exists (apply_remote empty_conn op1 Decision.Apply).1.
  assert (H : apply_remote empty_conn op1 Decision.Apply =
    ((apply_remote empty_conn op1 Decision.Apply).1, Ok Decision.Apply)) by vm_decide.
  split; [exact H|].
  apply (apply_remote_idempotent empty_conn op1 Decision.Apply Decision.Apply _ Decision.Apply).
  - apply conn0_wf.
  - apply op_typed_1.
  - exact H.
Defined.

Lemma apply_remote_contract_witness :
  ∃ c', apply_remote empty_conn op1 Decision.Apply = (c', Ok Decision.Apply) ∧
        load_row c' "x" = Ok (Some (remote_row op1)).
Proof.
  destruct (apply_remote_contract empty_conn op1 Decision.Apply)
    as (local & c' & Hl & Happ & Hrow & _).
  - apply conn0_wf.
  - apply op_typed_1.
  - vm_decide.
  - intros H. discriminate (eq_sym H : OpType.Rename = OpType.Write).
  - exists c'. assert (Hloc : local = None) by (vm_compute in Hl; congruence).
    subst local. split; [exact Happ|exact Hrow].
Defined.

Lemma log_ok_empty : log_ok node_a empty_conn [].
Proof. split; [split; [constructor|done]|constructor|done]. Qed.

Lemma log1 : log_ok node_a (ss_conn st1) [op1].
Proof.
  split; [split; [apply Forall_singleton, op_typed_1|vm_decide]| |vm_decide].
  apply Forall_singleton. split; [vm_decide|]. split; vm_compute; done.
Qed.

Lemma local_log_gap_free_witness :
  ∃ ops', log_ok node_a (ss_conn (run_store node_a st1 run_cmds)) ops' ∧
          ss_latest (run_store node_a st1 run_cmds) = Z.of_nat (length (own node_a ops')).
Proof.
  destruct (local_log_gap_free toy_op_id_inj node_a st1 run_cmds [op1])
    as (ops' & Hlog & _ & _ & Hlat).
  - apply conn1_wf.
  - apply run_cmds_typed.
  - repeat constructor.
  - apply log1.
  - vm_compute. reflexivity.
  - vm_decide.
  - exists ops'. split; [exact Hlog|exact Hlat].
Defined.

Lemma ops_since_exact_witness : ops_since (ss_conn st1) node_a 0 10 = Ok [op1].
Proof.
  rewrite (ops_since_exact node_a (ss_conn st1) [op1] 0 10).
  - vm_decide.
  - apply log1.
  - lia.
  - lia.
Defined.

Lemma snapshot_for_join_exact_witness :
  ∃ snap, snapshot_for_join (ss_conn st1) = Ok snap ∧ (node_a, 1) ∈ js_frontier snap.
Proof.
  destruct (snapshot_for_join_exact node_a (ss_conn st1) [op1] conn1_wf log1)
    as (snap & Hs & _ & _ & Hf & _).
  exists snap. split; [exact Hs|]. apply Hf. vm_decide.
Defined.

Lemma append_then_apply_agree_witness :
  ∃ cB', apply_remote empty_conn op1 Decision.Apply = (cB', Ok Decision.Apply) ∧
         load_row cB' "x" = load_row (ss_conn st1) "x".
Proof.
  destruct (append_then_apply_agree empty_conn empty_conn node_a (write "x" h1) (ss_conn st1) op1)
    as (cB' & Happ & Hrow & _).
  - apply conn0_wf.
  - apply conn0_wf.
  - apply write_typed.
  - apply room0.
  - intros H. discriminate H.
  - vm_decide.
  - reflexivity.
  - vm_decide.
  - exists cB'. split; [exact Happ|exact Hrow].
Defined.

Lemma applied_change_not_echoed_witness :
  let c' := (apply_remote empty_conn op1 Decision.Apply).1 in
  append_local c' node_b (write "x" h1) = (c', Ok None).
Proof.
  apply (applied_change_not_echoed empty_conn _ op1 node_b (write "x" h1)).
  - apply conn0_wf.
  - apply op_typed_1.
  - vm_decide.
  - intros H. discriminate H.
  - vm_decide.
  - vm_decide.
  - assert (Ht : op_op_type op1 = OpType.Write) by vm_decide. rewrite Ht. split_and!; vm_decide.
Defined.

Lemma rename_then_apply_agree_witness :
  ∃ cB', apply_remote (ss_conn st1) op_mv Decision.Apply = (cB', Ok Decision.Apply) ∧
    load_row cB' "y" = Ok (Some (row_of_op op_mv)).
Proof.
  destruct (rename_then_apply_agree (ss_conn st1) (ss_conn st1) node_a "x" "y"
    (append_local_rename (ss_conn st1) node_a "x" "y").1 op_mv)
    as (cB' & src & Happ & _ & Hn & _ & _ & Hy & _).
  - apply conn1_wf.
  - apply conn1_wf.
  - apply room1.
  - vm_decide.
  - reflexivity.
  - reflexivity.
  - vm_decide.
  - exists cB'. split; [exact Happ|]. rewrite Hn. exact Hy.
Defined.

(** ** Two nodes write the same path concurrently *)

Definition stB : StoreState := (store_step node_b st0 (AppendLocal (write "x" h2))).1.
Definition opB : OpRecord := reply_op (store_step node_b st0 (AppendLocal (write "x" h2))).2.
Definition verA : Version := candidate "x" op1.
Definition verB : Version := candidate "x" opB.

Lemma connB_wf : conn_wf (ss_conn stB).
Proof.
  apply (store_step_ok node_b st0 (AppendLocal (write "x" h2))); [apply conn0_wf|apply write_typed|].
  apply room_checked; [apply conn0_wf|vm_compute; done].
Qed.
Lemma op_typed_B : op_typed opB.
Proof. split_and!; [vm_compute; split; done|vm_compute; split; done|vm_decide|done]. Qed.

Definition the_plan : list PlannedRow :=
  match (resolve_rows (ss_conn st1) "x" verB []).2 with
  | Ok (ResolveOutcome.Stale plan) => plan
  | _ => []
  end.

Lemma conc_AB : concurrent (v_vv verB) (fr_vv (row_of_op op1)).
Proof. apply compare_concurrent. vm_decide. Qed.
Lemma conc_BA : concurrent (v_vv verA) (fr_vv (row_of_op opB)).
Proof. apply compare_concurrent. vm_decide. Qed.

Lemma resolve_rows_protocol_witness :
  ∃ c', resolve_rows (ss_conn st1) "x" verB the_plan = (c', Ok ResolveOutcome.Resolved) ∧
    resolve_rows c' "x" verB [] = (c', Ok (ResolveOutcome.NotConcurrent Decision.Ignore)).
Proof.
  destruct (resolve_rows_protocol (ss_conn st1) "x" verB the_plan (row_of_op op1))
    as [H|[(plan & _ & H & _)|(c' & Hres & _ & _ & _ & _ & w & _ & _ & _ & _ & Hagain)]].
  - apply conn1_wf.
  - apply candidate_typed, op_typed_B.
  - vm_decide.
  - apply conc_AB.
  - apply (f_equal snd) in H. exfalso. revert H. vm_decide.
  - apply (f_equal snd) in H. exfalso. assert (Hr : (resolve_rows (ss_conn st1) "x" verB the_plan).2
      = Ok ResolveOutcome.Resolved) by vm_decide. simpl in H. congruence.
  - exists c'. split; [exact Hres|apply Hagain].
Defined.

#[local] Instance vle_dec' v w : base.Decision (vle v w).
Proof. unfold vle. apply _. Defined.

Lemma load_row_other c c' p q :
  delete q (t_files c) = ∅ → delete q (t_files c') = ∅ → p ≠ q → load_row c p = load_row c' p.
Proof.
  intros Hc Hc' Hne. unfold load_row.
  rewrite <-(lookup_delete_ne (t_files c) q p), Hc by done.
  by rewrite <-(lookup_delete_ne (t_files c') q p), Hc' by done.
Qed.

Lemma resolution_confluent_witness :
  (resolve_rows (ss_conn st1) "x" verB []).2 = (resolve_rows (ss_conn stB) "x" verA []).2.
Proof.
  apply (resolution_confluent (ss_conn st1) (ss_conn stB) [op1] [opB] "x" verB verA
    (row_of_op op1) (row_of_op opB)).
  - apply conn1_wf.
  - apply connB_wf.
  - split; [apply Forall_singleton, op_typed_1|vm_decide].
  - split; [apply Forall_singleton, op_typed_B|vm_decide].
  - vm_decide.
  - vm_decide.
  - apply conc_AB.
  - apply conc_BA.
  - change (path_history "x" [op1]) with [verA]. change (path_history "x" [opB]) with [verB].
    set_solver.
  - split; [vm_decide|refine (pairwise_elem _ _ _); vm_decide..].
  - refine (pairwise_elem _ _ _). vm_decide.
  - vm_decide.
  - vm_decide.
  - intros p Hp. apply (load_row_other _ _ _ "x"); [vm_decide|vm_decide|intros ->; simpl in Hp; lia].
Defined.
