(* ===== verification/Admin.v ===== *)
(** * The membership trust anchor (src/src/admin.rs)

    The canonical bytes of a roster entry, which are what is signed and
    hashed, and the signing and verification of entries. Ed25519 ([ring]) is
    a parameter. *)

From S2P Require Import Prelude Vv.

(** [std::net::SocketAddr] *)
Inductive SocketAddr : Type :=
| V4 (ip : barray 4) (port : Z)
| V6 (ip : barray 16) (port flowinfo scope_id : Z).

#[export] Instance socket_addr_eq_dec : EqDecision SocketAddr.
Proof. solve_decision. Defined.

Definition port_of (a : SocketAddr) : Z :=
  match a with V4 _ p => p | V6 _ p _ _ => p end.

Module EntryKind.
Inductive t : Type :=
| Add
| Remove.

Definition as_byte (k : t) : byte := match k with Add => x00 | Remove => x01 end.
End EntryKind.
Abbreviation EntryKind := EntryKind.t.

#[export] Instance entry_kind_eq_dec : EqDecision EntryKind.
Proof. solve_decision. Defined.

(** [AdminPubKey] and a signature. *)
Abbreviation AdminPubKey := (barray 32).
Abbreviation Sig := (barray 64).

(** [ring]'s Ed25519: a key pair's public half, signing and verification; a
    signature verifies under the signer's public key. *)
Class Ed25519 := {
  AdminSecret : Type;
  public_key : AdminSecret → AdminPubKey;
  ed_sign : AdminSecret → list byte → Sig;
  ed_verify : AdminPubKey → list byte → Sig → bool;
}.
Class Ed25519Laws `{!Ed25519} : Prop :=
  ed_verify_sign sk m : ed_verify (public_key sk) m (ed_sign sk m) = true.

Definition DOMAIN_TAG : list byte := str_bytes "replicore-roster-v1" ++ [x00].

Module Admin.

(** The address part: family, octets, port. *)
Definition addr_bytes (addr : SocketAddr) : list byte :=
  match addr with
  | V4 ip _ => byte_of_Z 4 :: ba_list ip
  | V6 ip _ _ _ => byte_of_Z 6 :: ba_list ip
  end ++ be_bytes 2 (port_of addr).

Definition canonical_entry_bytes (node_id : NodeId) (addr : SocketAddr) (fingerprint : hash32)
    (epoch : Z) (kind : EntryKind) : list byte :=
  DOMAIN_TAG ++ ba_list node_id ++ addr_bytes addr ++ ba_list fingerprint
  ++ be_bytes 8 epoch ++ [EntryKind.as_byte kind].

Section signing.
Context `{!Ed25519}.

Definition sign_entry (sk : AdminSecret) (node_id : NodeId) (addr : SocketAddr)
    (fingerprint : hash32) (epoch : Z) (kind : EntryKind) : Sig :=
  ed_sign sk (canonical_entry_bytes node_id addr fingerprint epoch kind).

Definition verify_entry (pk : AdminPubKey) (node_id : NodeId) (addr : SocketAddr)
    (fingerprint : hash32) (epoch : Z) (kind : EntryKind) (sig : Sig) : bool :=
  ed_verify pk (canonical_entry_bytes node_id addr fingerprint epoch kind) sig.
End signing.

(** Values the Rust types can hold. *)
Definition in_u16 (z : Z) : Prop := 0 ≤ z < 2 ^ 16.
Definition addr_typed (a : SocketAddr) : Prop := in_u16 (port_of a).

(** What the canonical bytes see of an address. *)
Definition addr_view (a : SocketAddr) : (barray 4 + barray 16) * Z :=
  match a with V4 ip p => (inl ip, p) | V6 ip p _ _ => (inr ip, p) end.

Lemma be_bytes_inj n x y :
  0 ≤ x < 256 ^ Z.of_nat n → 0 ≤ y < 256 ^ Z.of_nat n → be_bytes n x = be_bytes n y → x = y.
Proof.
  intros Hx Hy Heq. rewrite <-(be_val_bytes n x), <-(be_val_bytes n y) by done. by rewrite Heq.
Qed.

Lemma addr_bytes_app a b r s :
  addr_typed a → addr_typed b → addr_bytes a ++ r = addr_bytes b ++ s →
  addr_view a = addr_view b ∧ r = s.
Proof.
  unfold addr_typed, in_u16, addr_bytes. intros Ha Hb.
  assert (Hgo : ∀ n (ip ip' : barray n) p p', 0 ≤ p < 2 ^ 16 → 0 ≤ p' < 2 ^ 16 →
    (ba_list ip ++ be_bytes 2 p) ++ r = (ba_list ip' ++ be_bytes 2 p') ++ s →
    ip = ip' ∧ p = p' ∧ r = s).
  { intros n ip ip' p p' Hp Hp' Heq. rewrite <-!(assoc_L (++)) in Heq.
    apply app_inj_1 in Heq as [Hip Heq]; [|by rewrite !ba_length].
    apply app_inj_1 in Heq as [Hpp Hrs]; [|by rewrite !length_be_bytes].
    apply ba_eq in Hip. apply be_bytes_inj in Hpp; [done|simpl; lia..]. }
  destruct a as [ip p|ip p f sc], b as [ip' p'|ip' p' f' sc']; simpl in *; intros Heq.
  - injection Heq as Heq. apply Hgo in Heq as (-> & -> & ->); done.
  - discriminate Heq.
  - discriminate Heq.
  - injection Heq as Heq. apply Hgo in Heq as (-> & -> & ->); done.
Qed.

(** Canonical bytes are self-delimiting. *)
Lemma canonical_app n n' a a' f f' e e' k k' r s :
  addr_typed a → addr_typed a' → in_u64 e → in_u64 e' →
  canonical_entry_bytes n a f e k ++ r = canonical_entry_bytes n' a' f' e' k' ++ s →
  (n = n' ∧ addr_view a = addr_view a' ∧ f = f' ∧ e = e' ∧ k = k') ∧ r = s.
Proof.
  unfold in_u64, u64_modulus. intros Ha Ha' He He' Heq. unfold canonical_entry_bytes in Heq.
  rewrite <-!(assoc_L (++)) in Heq. apply (inj _) in Heq.
  apply app_inj_1 in Heq as [Hn Heq]; [|by rewrite !ba_length].
  apply addr_bytes_app in Heq as [Hav Heq]; [|done..].
  apply app_inj_1 in Heq as [Hf Heq]; [|by rewrite !ba_length].
  apply app_inj_1 in Heq as [Hep Heq]; [|by rewrite !length_be_bytes].
  apply be_bytes_inj in Hep; [|simpl; lia..]. injection Heq as Hk Hrs.
  split_and!; [by apply ba_eq|done|by apply ba_eq|done| |done]. by destruct k, k'.
Qed.
End Admin.

(** A signed statement is unambiguous. Two roster mutations have the same
    canonical bytes only if they name the same node, the same address and
    port, the same certificate fingerprint, the same epoch and the same kind;
    so a signature can never be replayed for a different mutation, and the
    tie-break hash separates different mutations. (IPv6 flow label and scope
    are not part of the statement.) *)
Theorem canonical_entry_bytes_inj (n n' : NodeId) (a a' : SocketAddr) (f f' : hash32)
    (e e' : Z) (k k' : EntryKind) :
  Admin.addr_typed a → Admin.addr_typed a' → in_u64 e → in_u64 e' →
  Admin.canonical_entry_bytes n a f e k = Admin.canonical_entry_bytes n' a' f' e' k' ↔
  n = n' ∧ Admin.addr_view a = Admin.addr_view a' ∧ f = f' ∧ e = e' ∧ k = k'.
Proof.
  intros Ha Ha' He He'. split.
  - intros Heq%(f_equal (λ l, l ++ [])). by apply Admin.canonical_app in Heq as [? _].
  - intros (-> & Hv & -> & -> & ->). unfold Admin.canonical_entry_bytes.
    assert (Admin.addr_bytes a = Admin.addr_bytes a') as ->; [|done].
    unfold Admin.addr_bytes. destruct a, a'; simpl in *; by simplify_eq.
Qed.

Definition ex_addr (p : Z) : SocketAddr := V4 (to_array 4 [x7f; x00; x00; x01]) p.

Lemma canonical_entry_bytes_inj_witness :
  Admin.canonical_entry_bytes node_a (ex_addr 7000) (fill 32 x05) 1 EntryKind.Add ≠
  Admin.canonical_entry_bytes node_a (ex_addr 7000) (fill 32 x05) 1 EntryKind.Remove.
Proof.
  intros H. apply canonical_entry_bytes_inj in H as (_ & _ & _ & _ & H).
  - discriminate H.
  - unfold Admin.addr_typed, Admin.in_u16. simpl. lia.
  - unfold Admin.addr_typed, Admin.in_u16. simpl. lia.
  - unfold in_u64, u64_modulus. lia.
  - unfold in_u64, u64_modulus. lia.
Defined.
