(* ===== verification/Membership.v ===== *)
(** * The agent-owned roster (src/src/membership.rs)

    [Module Roster] is the epoch-versioned register, one winning signed entry
    per node; [Module Membership] the runtime handle that keeps the roster,
    the dial targets and the TLS allowlist in lockstep, with the roster file
    as commit point. File-system outcomes are inputs of the operations that
    touch the disk. *)

From S2P Require Import Prelude Vv Admin.

Record SignedEntry : Type := mkSignedEntry {
  se_node_id : NodeId;
  se_addr : SocketAddr;
  se_fingerprint : hash32;
  se_epoch : Z;
  se_kind : EntryKind;
  se_sig : Sig;
}.

#[export] Instance signed_entry_eq_dec : EqDecision SignedEntry.
Proof. solve_decision. Defined.

Module MergeOutcome.
Inductive t : Type :=
| Applied
| Superseded
| Rejected.
End MergeOutcome.
Abbreviation MergeOutcome := MergeOutcome.t.

#[export] Instance merge_outcome_eq_dec : EqDecision MergeOutcome.
Proof. solve_decision. Defined.

(** The converged winners, one per node. *)
Abbreviation Roster := (gmap NodeId SignedEntry).

Module RosterError.
Inductive t : Type :=
| Io (ctx : string)
| Json.
End RosterError.
Abbreviation RosterError := RosterError.t.

#[export] Instance roster_error_eq_dec : EqDecision RosterError.
Proof. solve_decision. Defined.

(** A roster file: what [serde_json] makes of its bytes. *)
Inductive RosterFile : Type :=
| ValidJson (entries : list SignedEntry)
| InvalidJson.

Abbreviation Disk := (gmap string RosterFile).

(** What the file system does to one [save]: nothing goes wrong, or the step
    at which it fails. *)
Inductive SaveFault : Type :=
| NoFault
| WriteFault
| RenameFault
| FsyncDirFault.

(** What the file system does to one [load]. *)
Inductive ReadFault : Type :=
| ReadOk
| ReadFault_Io.

Module Roster.
Section with_externals.
Context `{!Blake3, !Ed25519}.

Definition canonical_bytes (e : SignedEntry) : list byte :=
  Admin.canonical_entry_bytes (se_node_id e) (se_addr e) (se_fingerprint e) (se_epoch e) (se_kind e).

Definition content_hash (e : SignedEntry) : hash32 := blake3 (canonical_bytes e).

Definition order_key (e : SignedEntry) : Z * Z * hash32 :=
  (se_epoch e,
   match se_kind e with EntryKind.Add => 0 | EntryKind.Remove => 1 end,
   content_hash e).

Definition verify (e : SignedEntry) (pk : AdminPubKey) : bool :=
  Admin.verify_entry pk (se_node_id e) (se_addr e) (se_fingerprint e) (se_epoch e) (se_kind e)
    (se_sig e).

Definition new : Roster := ∅.

Definition merge_entry (r : Roster) (entry : SignedEntry) (pk : AdminPubKey)
  : Roster * MergeOutcome :=
  if negb (verify entry pk) then (r, MergeOutcome.Rejected) else
  match r !! se_node_id entry with
  | Some cur =>
      if ord_leb (order_key entry) (order_key cur) then (r, MergeOutcome.Superseded)
      else (<[se_node_id entry := entry]> r, MergeOutcome.Applied)
  | None => (<[se_node_id entry := entry]> r, MergeOutcome.Applied)
  end.

Definition get (r : Roster) (node_id : NodeId) : option SignedEntry := r !! node_id.
Definition all_entries (r : Roster) : list SignedEntry := btree_values r.
Definition effective_members (r : Roster) : list SignedEntry :=
  filter (λ e, se_kind e = EntryKind.Add) (all_entries r).
Definition len (r : Roster) : nat := size r.
Definition is_empty (r : Roster) : bool := bool_decide (r = ∅).

Definition next_epoch_for (r : Roster) (node_id : NodeId) : Z :=
  match r !! node_id with Some e => u64_add (se_epoch e) 1 | None => 1 end.

Definition digest (r : Roster) : hash32 :=
  blake3 (str_bytes "replicore-roster-digest-v1" ++ [x00]
          ++ concat (canonical_bytes <$> all_entries r)).

(** The body of [load]'s loop. *)
Definition load_step (pk : AdminPubKey) (acc : Roster * nat) (e : SignedEntry) : Roster * nat :=
  let '(r, out) := merge_entry acc.1 e pk in
  (r, if bool_decide (out = MergeOutcome.Rejected) then S acc.2 else acc.2).

Definition load (disk : Disk) (fault : ReadFault) (path : string) (pk : AdminPubKey)
  : result RosterError (Roster * nat) :=
  match fault with
  | ReadFault_Io => Err (RosterError.Io "read roster")
  | ReadOk =>
      match disk !! path with
      | None => Ok (new, O)
      | Some InvalidJson => Err RosterError.Json
      | Some (ValidJson entries) => Ok (foldl (load_step pk) (new, O) entries)
      end
  end.

Definition tmp_sibling (path : string) : string := path +:+ ".tmp".

(** Write a sibling temp and fsync it, rename it over the target, fsync the
    directory. *)
Definition save (r : Roster) (disk : Disk) (path : string) (fault : SaveFault)
  : Disk * result RosterError unit :=
  let json := ValidJson (btree_values r) in
  let tmp := tmp_sibling path in
  match fault with
  | WriteFault => (<[tmp := InvalidJson]> disk, Err (RosterError.Io "write roster temp"))
  | RenameFault => (<[tmp := json]> disk, Err (RosterError.Io "rename roster"))
  | FsyncDirFault => (<[path := json]> (delete tmp disk), Err (RosterError.Io "fsync roster dir"))
  | NoFault => (<[path := json]> (delete tmp disk), Ok ())
  end.
End with_externals.
End Roster.

(** [config::Peer] *)
Record Peer : Type := mkPeer {
  p_node_id : NodeId;
  p_addr : SocketAddr;
  p_fingerprint : hash32;
}.

#[export] Instance peer_eq_dec : EqDecision Peer.
Proof. solve_decision. Defined.

(** The fields of [Config] membership reads. *)
Record IntentConfig : Type := mkIntentConfig {
  cfg_node_id : NodeId;
  cfg_admin_pubkey : option AdminPubKey;
  cfg_roster_path : string;
  cfg_peers : list Peer;
}.

Module MembershipError.
Inductive t : Type :=
| NoAdminKey
| Roster (e : RosterError).
End MembershipError.
Abbreviation MembershipError := MembershipError.t.

#[export] Instance membership_error_eq_dec : EqDecision MembershipError.
Proof. solve_decision. Defined.

(** [membership::Inner] *)
Record Inner : Type := mkInner {
  our_node_id : NodeId;
  admin_pubkey : option AdminPubKey;
  roster_path : string;
  seeds : list Peer;
  roster : Roster;
  effective : gmap NodeId Peer;
  allowlist : gset hash32;
  changed : Z;
}.

#[export] Instance inner_eq_dec : EqDecision Inner.
Proof. solve_decision. Defined.

Module Membership.
Section with_externals.
Context `{!Blake3, !Ed25519}.

Definition load_roster (disk : Disk) (fault : ReadFault) (cfg : IntentConfig)
  : result MembershipError Roster :=
  match cfg_admin_pubkey cfg with
  | Some pk =>
      match Roster.load disk fault (cfg_roster_path cfg) pk with
      | Ok (r, _) => Ok r
      | Err e => Err (MembershipError.Roster e)
      end
  | None => Ok Roster.new
  end.

(** One roster entry's effect on the dial targets. *)
Definition effective_step (our : NodeId) (eff : gmap NodeId Peer) (entry : SignedEntry)
  : gmap NodeId Peer :=
  if bool_decide (se_node_id entry = our) then eff else
  match se_kind entry with
  | EntryKind.Add =>
      <[se_node_id entry := mkPeer (se_node_id entry) (se_addr entry) (se_fingerprint entry)]> eff
  | EntryKind.Remove => delete (se_node_id entry) eff
  end.

Definition seed_map (seeds : list Peer) : gmap NodeId Peer :=
  foldl (λ eff seed, <[p_node_id seed := seed]> eff) ∅ seeds.

Definition recompute (m : Inner) : Inner :=
  let eff := foldl (effective_step (our_node_id m)) (seed_map (seeds m))
               (Roster.all_entries (roster m)) in
  mkInner (our_node_id m) (admin_pubkey m) (roster_path m) (seeds m) (roster m) eff
    (list_to_set ((λ p, p_fingerprint p.2) <$> map_to_list eff)) (changed m).

Definition notify (m : Inner) : Inner :=
  mkInner (our_node_id m) (admin_pubkey m) (roster_path m) (seeds m) (roster m) (effective m)
    (allowlist m) (u64_add (changed m) 1).

Definition set_roster (r : Roster) (m : Inner) : Inner :=
  mkInner (our_node_id m) (admin_pubkey m) (roster_path m) (seeds m) r (effective m)
    (allowlist m) (changed m).

Definition load (disk : Disk) (fault : ReadFault) (cfg : IntentConfig)
  : result MembershipError Inner :=
  r ← load_roster disk fault cfg;
  Ok (recompute (mkInner (cfg_node_id cfg) (cfg_admin_pubkey cfg) (cfg_roster_path cfg)
        (cfg_peers cfg) r ∅ ∅ 0)).

(** The three phases of [merge_signed]: stage on a clone, persist, commit. *)
Definition stage (m : Inner) (entry : SignedEntry)
  : result MembershipError (Roster * MergeOutcome) :=
  match admin_pubkey m with
  | None => Err MembershipError.NoAdminKey
  | Some pk => Ok (Roster.merge_entry (roster m) entry pk)
  end.

Definition commit (staged : Roster) (m : Inner) : Inner :=
  notify (recompute (set_roster staged m)).

Definition merge_signed (disk : Disk) (m : Inner) (entry : SignedEntry) (fault : SaveFault)
  : Disk * Inner * result MembershipError MergeOutcome :=
  match stage m entry with
  | Err e => (disk, m, Err e)
  | Ok (staged, outcome) =>
      if bool_decide (outcome = MergeOutcome.Applied) then
        match Roster.save staged disk (roster_path m) fault with
        | (disk, Err e) => (disk, m, Err (MembershipError.Roster e))
        | (disk, Ok tt) => (disk, commit staged m, Ok outcome)
        end
      else (disk, m, Ok outcome)
  end.

Definition apply_reload (disk : Disk) (fault : ReadFault) (m : Inner) (cfg : IntentConfig)
  : Inner * result MembershipError unit :=
  match load_roster disk fault cfg with
  | Err e => (m, Err e)
  | Ok r =>
      (notify (recompute (mkInner (our_node_id m) (cfg_admin_pubkey cfg) (cfg_roster_path cfg)
         (cfg_peers cfg) r (effective m) (allowlist m) (changed m))), Ok ())
  end.

Definition effective_peers (m : Inner) : list Peer := (map_to_list (effective m)).*2.
Definition roster_snapshot (m : Inner) : list SignedEntry := Roster.all_entries (roster m).
Definition roster_digest (m : Inner) : hash32 := Roster.digest (roster m).
Definition next_epoch_for (m : Inner) (node_id : NodeId) : Z :=
  Roster.next_epoch_for (roster m) node_id.
Definition has_admin_key (m : Inner) : bool :=
  match admin_pubkey m with Some _ => true | None => false end.

(** [HashMap::values().find(..)]: the first match in the map's own order. *)
Definition peer_by_fingerprint (m : Inner) (fp : hash32) : option Peer :=
  head (filter (λ p, p_fingerprint p = fp) (effective_peers m)).
End with_externals.
End Membership.

(** ** Dissemination (src/src/gossip.rs) *)

Module GossipFrame.
Inductive t : Type :=
| Digest (digest : hash32)
| InSync
| Entries (entries : list SignedEntry).
End GossipFrame.
Abbreviation GossipFrame := GossipFrame.t.

(** A node with its disk. *)
Record GossipNode : Type := mkGossipNode { gn_disk : Disk; gn_inner : Inner }.

Module Gossip.
Section with_externals.
Context `{!Blake3, !Ed25519}.

(** [merge_batch]: every merge persists, its file-system outcome taken from
    [faults] ([NoFault] when the list is exhausted). *)
Fixpoint merge_batch (g : GossipNode) (entries : list SignedEntry) (faults : list SaveFault)
    (applied : nat) : GossipNode * nat :=
  match entries with
  | [] => (g, applied)
  | e :: entries =>
      let '(disk, m, res) :=
        Membership.merge_signed (gn_disk g) (gn_inner g) e (default NoFault (head faults)) in
      merge_batch (mkGossipNode disk m) entries (tail faults)
        (match res with Ok MergeOutcome.Applied => S applied | _ => applied end)
  end.

(** The responder's answer to the first frame ([serve_roster], up to its
    second read). *)
Definition serve_first (g : GossipNode) (f : GossipFrame) : option GossipFrame :=
  match f with
  | GossipFrame.Digest d =>
      Some (if bool_decide (d = Membership.roster_digest (gn_inner g)) then GossipFrame.InSync
            else GossipFrame.Entries (Membership.roster_snapshot (gn_inner g)))
  | _ => None
  end.

(** The responder's handling of the frame that follows its snapshot. *)
Definition serve_second (g : GossipNode) (f : GossipFrame) (faults : list SaveFault) : GossipNode :=
  match f with
  | GossipFrame.Entries theirs => (merge_batch g theirs faults O).1
  | _ => g
  end.

(** The initiator's handling of the answer ([gossip_once] after its first
    write): the frame it sends back, if any, and how many entries advanced. *)
Definition once_reply (g : GossipNode) (f : GossipFrame) (faults : list SaveFault)
  : GossipNode * option GossipFrame * nat :=
  match f with
  | GossipFrame.InSync => (g, None, O)
  | GossipFrame.Entries theirs =>
      let '(g, applied) := merge_batch g theirs faults O in
      (g, Some (GossipFrame.Entries (Membership.roster_snapshot (gn_inner g))), applied)
  | GossipFrame.Digest _ => (g, None, O)
  end.

(** One whole exchange over an intact stream: [gossip_once] on [a] against
    [serve_roster] on [b]. *)
Definition exchange (a b : GossipNode) (fa fb : list SaveFault) : GossipNode * GossipNode * nat :=
  if negb (Membership.has_admin_key (gn_inner a)) then (a, b, O) else
  match serve_first b (GossipFrame.Digest (Membership.roster_digest (gn_inner a))) with
  | None => (a, b, O)
  | Some f =>
      let '(a, out, applied) := once_reply a f fa in
      match out with
      | None => (a, b, applied)
      | Some f => (a, serve_second b f fb, applied)
      end
  end.
End with_externals.
End Gossip.
