(* ===== verification/MembershipProofs.v ===== *)
(** * The roster: convergence, anti-resurrection, lockstep views, durability *)

From S2P Require Import Prelude Vv Admin Membership.
Import Roster.

Section register.
Context `{!Blake3, !Ed25519} (pk : AdminPubKey).

(** An entry counts for a node if it verifies and names it. *)
Definition counts (n : NodeId) (e : SignedEntry) : Prop :=
  verify e pk = true ∧ se_node_id e = n.

(** The winner a node's register holds after the entries [seen] have been
    offered to it. *)
Definition register (seen : list SignedEntry) (n : NodeId) (o : option SignedEntry) : Prop :=
  match o with
  | Some w => w ∈ seen ∧ counts n w ∧
      ∀ e, e ∈ seen → counts n e → ord_le (order_key e) (order_key w)
  | None => ∀ e, e ∈ seen → ¬ counts n e
  end.

Definition registers (seen : list SignedEntry) (r : Roster) : Prop :=
  ∀ n, register seen n (r !! n).

Definition merge_all (r : Roster) (es : list SignedEntry) : Roster :=
  foldl (λ r e, (merge_entry r e pk).1) r es.

Lemma registers_empty : registers [] ∅.
Proof. intros n. rewrite lookup_empty. intros e He. by apply not_elem_of_nil in He. Qed.

Lemma register_other seen n o e : register seen n o → ¬ counts n e → register (seen ++ [e]) n o.
Proof.
  destruct o as [w|]; simpl.
  - intros (Hw & Hc & Hmax) He. split_and!; [set_solver|done|].
    intros e' [He'| ->%list_elem_of_singleton]%elem_of_app Hc'; [by apply Hmax|done].
  - intros Hn He e' [He'| ->%list_elem_of_singleton]%elem_of_app; [by apply Hn|done].
Qed.

Lemma registers_merge seen r e : registers seen r → registers (seen ++ [e]) (merge_entry r e pk).1.
Proof.
  intros Hr. unfold merge_entry. destruct (verify e pk) eqn:Hv; simpl.
  2:{ intros n. apply register_other; [apply Hr|]. intros [? _]. congruence. }
  assert (Hins : (∀ w, r !! se_node_id e = Some w → ord_le (order_key w) (order_key e)) →
    registers (seen ++ [e]) (<[se_node_id e := e]> r)).
  { intros Hle n. destruct (decide (se_node_id e = n)) as [<-|Hne].
    - rewrite lookup_insert_eq. simpl. split_and!; [set_solver|done|].
      intros e' [He'| ->%list_elem_of_singleton]%elem_of_app Hc'; [|reflexivity].
      specialize (Hr (se_node_id e)). destruct (r !! se_node_id e) as [w|].
      + destruct Hr as (_ & _ & Hmax). etrans; [by apply Hmax|by apply Hle].
      + by destruct (Hr e').
    - rewrite lookup_insert_ne by done. apply register_other; [apply Hr|]. by intros [_ ?]. }
  destruct (r !! se_node_id e) as [cur|] eqn:Hcur; [|by apply Hins].
  destruct (ord_leb (order_key e) (order_key cur)) eqn:Hle; simpl.
  - intros n. destruct (decide (se_node_id e = n)) as [<-|Hne].
    + specialize (Hr (se_node_id e)). rewrite Hcur in Hr |- *. destruct Hr as (Hw & Hc & Hmax).
      split_and!; [set_solver|done|].
      intros e' [He'| ->%list_elem_of_singleton]%elem_of_app Hc'; [by apply Hmax|].
      by apply ord_leb_le.
    + apply register_other; [apply Hr|]. by intros [_ ?].
  - apply Hins. intros w [= <-].
    destruct (total ord_le (order_key e) (order_key cur)) as [H1|H2]; [|done].
    apply ord_leb_le in H1. congruence.
Qed.

Lemma registers_merge_all seen r es : registers seen r → registers (seen ++ es) (merge_all r es).
Proof.
  revert seen r. induction es as [|e es IH]; intros seen r Hr; simpl; [by rewrite app_nil_r|].
  rewrite (cons_middle e), (assoc_L (++)). apply IH. by apply registers_merge.
Qed.

(** Rosters with the same winners up to the signature bytes. *)
Definition same_winner (e e' : SignedEntry) : Prop := order_key e = order_key e'.
Definition roster_eqv (r r' : Roster) : Prop :=
  ∀ n, option_Forall2 same_winner (r !! n) (r' !! n).

#[export] Instance roster_eqv_equiv : Equivalence roster_eqv.
Proof.
  split.
  - intros r n. destruct (r !! n); constructor; done.
  - intros r r' Hrr n. specialize (Hrr n). inversion Hrr; constructor. by symmetry.
  - intros r1 r2 r3 H12 H23 n. specialize (H12 n). specialize (H23 n).
    destruct H12 as [x y Hxy|]; inversion H23; subst; constructor. by etrans.
Qed.

(** The register is determined by what was offered. *)
Lemma registers_eqv seen seen' r r' :
  (∀ e, e ∈ seen ↔ e ∈ seen') → registers seen r → registers seen' r' → roster_eqv r r'.
Proof.
  intros Hset Hr Hr' n. specialize (Hr n). specialize (Hr' n).
  destruct (r !! n) as [w|], (r' !! n) as [w'|]; simpl in *.
  - constructor. destruct Hr as (Hw & Hc & Hmax), Hr' as (Hw' & Hc' & Hmax').
    unfold same_winner. apply (anti_symm ord_le); [apply Hmax'|apply Hmax]; try done; by apply Hset.
  - destruct Hr as (Hw & Hc & _). exfalso. apply (Hr' w); [|done]. by apply Hset.
  - destruct Hr' as (Hw & Hc & _). exfalso. apply (Hr w'); [|done]. by apply Hset.
  - constructor.
Qed.

(** Every register holds a verified entry under its own key. *)
Definition roster_wf (r : Roster) : Prop := map_Forall (λ n e, counts n e) r.

Lemma roster_wf_registers r : roster_wf r → registers (all_entries r) r.
Proof.
  intros Hwf n. destruct (r !! n) as [w|] eqn:Hw; simpl.
  - split_and!; [by apply elem_of_btree_values; exists n|by apply Hwf|].
    intros e (n' & He)%elem_of_btree_values Hc. pose proof (Hwf n' e He) as [_ Hn'].
    destruct Hc as [_ Hn]. assert (n' = n) as -> by congruence.
    rewrite Hw in He. injection He as ->. reflexivity.
  - intros e (n' & He)%elem_of_btree_values [_ Hn]. pose proof (Hwf n' e He) as [_ Hn'].
    congruence.
Qed.

Lemma registers_wf seen r : registers seen r → roster_wf r.
Proof. intros Hr n e He. specialize (Hr n). rewrite He in Hr. apply Hr. Qed.

Lemma merge_all_wf r es : roster_wf r → roster_wf (merge_all r es).
Proof. intros Hwf. by eapply registers_wf, registers_merge_all, roster_wf_registers. Qed.
End register.

(** ** The digest *)

Lemma btree_values_fmap {V W} (f : V → W) (m : gmap NodeId V) :
  btree_values (f <$> m) = f <$> btree_values m.
Proof.
  unfold btree_values.
  assert (Heq : btree_iter (f <$> m) = prod_map id f <$> btree_iter m).
  { apply btree_iter_unique.
    - eapply StronglySorted_fmap; [|apply (btree_iter_sorted m)]. by intros [] [].
    - rewrite map_to_list_fmap. by rewrite btree_iter_perm. }
  rewrite Heq, <-!list_fmap_compose. done.
Qed.

Section digest.
Context `{!Blake3, !Ed25519}.

(** The tie-break hash does not collide on the entries in question. *)
Definition hash_separates (es : list SignedEntry) : Prop :=
  ∀ e e', e ∈ es → e' ∈ es → content_hash e = content_hash e' →
  canonical_bytes e = canonical_bytes e'.

Lemma eqv_canonical r r' :
  hash_separates (all_entries r ++ all_entries r') → roster_eqv r r' →
  canonical_bytes <$> r = canonical_bytes <$> r'.
Proof.
  intros Hsep Heq. apply map_eq. intros n. rewrite !lookup_fmap. specialize (Heq n).
  destruct (r !! n) as [e|] eqn:He, (r' !! n) as [e'|] eqn:He'; simpl; inversion Heq as [? ? Hk|];
    subst; [|done].
  f_equal. unfold same_winner, order_key in Hk. simplify_eq. apply Hsep; [| |done].
  - apply elem_of_app. left. apply elem_of_btree_values. by exists n.
  - apply elem_of_app. right. apply elem_of_btree_values. by exists n.
Qed.

Lemma digest_canonical r r' :
  canonical_bytes <$> r = canonical_bytes <$> r' → digest r = digest r'.
Proof.
  intros Heq. unfold digest, all_entries. by rewrite <-!btree_values_fmap, Heq.
Qed.
End digest.

(** The key order compares epochs first, then ranks. *)
Lemma ord_le_key (a b : Z * Z * hash32) :
  ord_le a b → a.1.1 ≤ b.1.1 ∧ (a.1.1 = b.1.1 → a.1.2 ≤ b.1.2).
Proof.
  destruct a as [[e r] h], b as [[e' r'] h']. unfold ord_le. rewrite !prod_cmp. simpl.
  unfold cmp, Z_ord. destruct (Z.compare_spec e e') as [->|Hlt|Hgt]; simpl; [|lia|done].
  destruct (Z.compare_spec r r') as [->|Hlt|Hgt]; simpl; [lia..|done].
Qed.

(** Entries as the Rust types constrain them. *)
Definition entry_typed (e : SignedEntry) : Prop :=
  Admin.addr_typed (se_addr e) ∧ in_u64 (se_epoch e).

Lemma canonical_concat_inj `{!Blake3} es es' :
  Forall entry_typed es → Forall entry_typed es' →
  concat (canonical_bytes <$> es) = concat (canonical_bytes <$> es') →
  canonical_bytes <$> es = canonical_bytes <$> es'.
Proof.
  intros Hes. revert es'. induction Hes as [|e es [Ha He] Hes IH]; intros es' Hes' Heq.
  - destruct es' as [|e' es']; [done|]. by destruct e'.
  - destruct Hes' as [|e' es' [Ha' He'] Hes']; [by destruct e|].
    rewrite !fmap_cons in Heq |- *. cbn [concat] in Heq.
    pose proof Heq as Heq2. unfold canonical_bytes in Heq2.
    apply Admin.canonical_app in Heq2 as [(Hn & Hav & Hf & Hep & Hk) Hrest]; [|done..].
    change (concat (canonical_bytes <$> es) = concat (canonical_bytes <$> es')) in Hrest.
    f_equal; [|by apply IH]. rewrite Hrest in Heq. by apply app_inv_tail in Heq.
Qed.

(** Positions of entries in the roster order are determined by their bytes. *)
Lemma canonical_bytes_node `{!Blake3} e e' :
  entry_typed e → entry_typed e' → canonical_bytes e = canonical_bytes e' →
  se_node_id e = se_node_id e' ∧ se_epoch e = se_epoch e' ∧ se_kind e = se_kind e' ∧
  se_fingerprint e = se_fingerprint e'.
Proof.
  intros [Ha He] [Ha' He'] Heq%(f_equal (λ l, l ++ [])). unfold canonical_bytes in Heq.
  apply Admin.canonical_app in Heq as [(? & ? & ? & ? & ?) _]; done.
Qed.

(** The same signed statement: all of an entry but the signature and, of an
    IPv6 address, its flow label and scope. *)
Definition same_statement (e e' : SignedEntry) : Prop :=
  se_node_id e = se_node_id e' ∧ Admin.addr_view (se_addr e) = Admin.addr_view (se_addr e') ∧
  se_fingerprint e = se_fingerprint e' ∧ se_epoch e = se_epoch e' ∧ se_kind e = se_kind e'.

Lemma canonical_bytes_statement `{!Blake3} e e' :
  entry_typed e → entry_typed e' → canonical_bytes e = canonical_bytes e' → same_statement e e'.
Proof.
  intros [Ha He] [Ha' He'] Heq%(f_equal (λ l, l ++ [])). unfold canonical_bytes in Heq.
  by apply Admin.canonical_app in Heq as [? _].
Qed.

Section convergence.
Context `{!Blake3, !Ed25519} (pk : AdminPubKey).

(** No two different entries make the same statement. *)
Definition one_entry_each (es : list SignedEntry) : Prop :=
  ∀ e e', e ∈ es → e' ∈ es → canonical_bytes e = canonical_bytes e' → e = e'.

Lemma roster_eqv_same_canonical r r' :
  roster_wf pk r → roster_wf pk r' →
  map_Forall (λ _, entry_typed) r → map_Forall (λ _, entry_typed) r' →
  canonical_bytes <$> all_entries r = canonical_bytes <$> all_entries r' → roster_eqv r r'.
Proof.
  intros Hwf Hwf' Ht Ht' Heq.
  assert (Hin : ∀ r1 r2, roster_wf pk r1 → roster_wf pk r2 →
    map_Forall (λ _, entry_typed) r1 → map_Forall (λ _, entry_typed) r2 →
    canonical_bytes <$> all_entries r1 = canonical_bytes <$> all_entries r2 →
    ∀ n e, r1 !! n = Some e → ∃ e', r2 !! n = Some e' ∧ same_winner e e').
  { clear. intros r1 r2 Hwf1 Hwf2 Ht1 Ht2 Heq n e He.
    assert (Hb : canonical_bytes e ∈ canonical_bytes <$> all_entries r1).
    { apply list_elem_of_fmap_2, elem_of_btree_values. by exists n. }
    rewrite Heq in Hb. apply list_elem_of_fmap in Hb as (e' & Hb & (n' & He')%elem_of_btree_values).
    destruct (canonical_bytes_node e e') as (Hn & Hep & Hk & _); [by eapply Ht1|by eapply Ht2|done|].
    destruct (Hwf1 n e He) as [_ Hn1], (Hwf2 n' e' He') as [_ Hn2].
    exists e'. split; [congruence|]. unfold same_winner, order_key, content_hash. by rewrite Hep, Hk, Hb. }
  intros n. destruct (r !! n) as [e|] eqn:He.
  - destruct (Hin r r' Hwf Hwf' Ht Ht' Heq n e He) as (e' & -> & Hs). by constructor.
  - destruct (r' !! n) as [e'|] eqn:He'; [|constructor].
    destruct (Hin r' r Hwf' Hwf Ht' Ht (eq_sym Heq) n e' He') as (e & Hc & _). congruence.
Qed.


(** A removed node stays removed. Once the winner for a node is a signed
    Remove, no batch of entries, whatever it contains and in whatever order,
    brings the node back unless it contains a validly signed Add with a
    strictly higher epoch. *)
Theorem removed_stays_removed (r : Roster) (es : list SignedEntry) (n : NodeId) (w : SignedEntry) :
  roster_wf pk r → r !! n = Some w → se_kind w = EntryKind.Remove →
  (∀ e, e ∈ es → counts pk n e → se_kind e = EntryKind.Add → se_epoch e ≤ se_epoch w) →
  ∃ w', merge_all pk r es !! n = Some w' ∧ se_kind w' = EntryKind.Remove ∧
        se_epoch w ≤ se_epoch w'.
Proof.
  intros Hwf Hw Hk Hes.
  pose proof (registers_merge_all pk _ r es (roster_wf_registers pk r Hwf) n) as Hreg.
  assert (Hin : w ∈ all_entries r ++ es).
  { apply elem_of_app. left. apply elem_of_btree_values. by exists n. }
  destruct (merge_all pk r es !! n) as [w'|]; simpl in Hreg.
  - destruct Hreg as (Hw' & Hc' & Hmax). exists w'. split; [done|].
    pose proof (Hmax w Hin (Hwf n w Hw)) as Hle. unfold order_key in Hle. rewrite Hk in Hle.
    apply ord_le_key in Hle as [Hep Hrank]. simpl in Hep, Hrank. split; [|done].
    destruct (se_kind w') eqn:Hk'; [exfalso|done].
    assert (Hle' : se_epoch w' ≤ se_epoch w).
    { apply elem_of_app in Hw' as [(n' & He)%elem_of_btree_values|He]; [|by apply Hes].
      destruct (Hwf n' w' He) as [_ Hn']. destruct Hc' as [_ Hn]. assert (n' = n) as -> by congruence.
      rewrite Hw in He. injection He as ->. done. }
    lia.
  - by destruct (Hreg w Hin (Hwf n w Hw)).
Qed.
End convergence.

(** ** Derived views *)

Section views.
Context `{!Blake3, !Ed25519}.
Import Membership.

(** What an effective peer is: the signed winner if there is one (nothing for
    a Remove), else the seed; for the node itself only a seed counts. *)
Definition target_of (our n : NodeId) (seed : option Peer) (winner : option SignedEntry)
  : option Peer :=
  if decide (n = our) then seed else
  match winner with
  | Some e => match se_kind e with
              | EntryKind.Add => Some (mkPeer (se_node_id e) (se_addr e) (se_fingerprint e))
              | EntryKind.Remove => None
              end
  | None => seed
  end.

Lemma effective_fold our (l : list (NodeId * SignedEntry)) eff n :
  NoDup l.*1 → Forall (λ p, se_node_id p.2 = p.1) l →
  foldl (effective_step our) eff l.*2 !! n =
  target_of our n (eff !! n) ((list_to_map l : gmap NodeId SignedEntry) !! n).
Proof.
  intros Hnd Hkeys. revert eff. induction l as [|[k e] l IH]; intros eff; simpl.
  { unfold target_of. rewrite lookup_empty. by destruct (decide _). }
  rewrite fmap_cons in Hnd. apply NoDup_cons in Hnd as [Hk Hnd].
  apply Forall_cons in Hkeys as [Hek Hkeys]. simpl in Hek, Hk. rewrite IH by done.
  unfold effective_step. rewrite Hek. unfold target_of.
  destruct (decide (n = our)) as [->|Hno].
  - case_bool_decide; [done|].
    destruct (se_kind e); [by rewrite lookup_insert_ne by congruence|by rewrite lookup_delete_ne by congruence].
  - destruct (decide (k = n)) as [->|Hkn].
    + rewrite lookup_insert_eq. rewrite (not_elem_of_list_to_map_1 l n) by done.
      rewrite bool_decide_false by done.
      destruct (se_kind e); [by rewrite lookup_insert_eq, Hek|by rewrite lookup_delete_eq].
    + rewrite lookup_insert_ne by done.
      assert (Heff : (if bool_decide (k = our) then eff else match se_kind e with
          | EntryKind.Add => <[k := mkPeer k (se_addr e) (se_fingerprint e)]> eff
          | EntryKind.Remove => delete k eff end) !! n = eff !! n).
      { case_bool_decide; [done|]. destruct (se_kind e);
          [by rewrite lookup_insert_ne|by rewrite lookup_delete_ne]. }
      by rewrite Heff.
Qed.

Definition keyed (r : Roster) : Prop := map_Forall (λ n e, se_node_id e = n) r.

Lemma recompute_effective m n : keyed (roster m) →
  effective (recompute m) !! n = target_of (our_node_id m) n (seed_map (seeds m) !! n) (roster m !! n).
Proof.
  intros Hk. unfold recompute. simpl. unfold all_entries, btree_values.
  rewrite effective_fold.
  - by rewrite list_to_map_btree_iter.
  - apply NoDup_btree_keys.
  - apply Forall_forall. intros [k e] Hin%elem_of_btree_iter. by apply Hk.
Qed.

Lemma recompute_allowlist m fp :
  fp ∈ allowlist (recompute m) ↔ ∃ n p, effective (recompute m) !! n = Some p ∧ p_fingerprint p = fp.
Proof.
  unfold recompute. simpl. rewrite elem_of_list_to_set, list_elem_of_fmap. split.
  - intros ([n p] & -> & Hin%elem_of_map_to_list). eauto.
  - intros (n & p & Hp & <-). exists (n, p). split; [done|]. by apply elem_of_map_to_list.
Qed.

(** The invariants of the handle: only entries verified under the configured
    key, and views computed from the current roster and seeds. *)
Definition trusted (m : Inner) : Prop :=
  match admin_pubkey m with Some pk => roster_wf pk (roster m) | None => roster m = ∅ end.
Definition lockstep (m : Inner) : Prop :=
  effective m = effective (recompute m) ∧ allowlist m = allowlist (recompute m).

Lemma trusted_keyed m : trusted m → keyed (roster m).
Proof.
  unfold trusted. destruct (admin_pubkey m) as [pk|].
  - intros Hwf n e He. by apply (Hwf n e).
  - intros ->. apply map_Forall_empty.
Qed.

Lemma merge_entry_wf pk r e : roster_wf pk r → roster_wf pk (merge_entry r e pk).1.
Proof. intros Hr. apply (merge_all_wf pk r [e] Hr). Qed.

Lemma load_fold_merge pk es r k : (foldl (load_step pk) (r, k) es).1 = merge_all pk r es.
Proof.
  revert r k. induction es as [|e es IH]; intros r k; simpl; [done|].
  unfold load_step at 2. simpl. destruct (merge_entry r e pk) as [r' out]. simpl. apply IH.
Qed.

Lemma load_roster_trusted disk fault cfg r :
  load_roster disk fault cfg = Ok r →
  match cfg_admin_pubkey cfg with Some pk => roster_wf pk r | None => r = ∅ end.
Proof.
  unfold load_roster. destruct (cfg_admin_pubkey cfg) as [pk|]; [|by intros [= <-]].
  unfold Roster.load. destruct fault; [|done].
  destruct (disk !! cfg_roster_path cfg) as [[es|]|]; [|done|].
  - pose proof (load_fold_merge pk es new 0) as Hf. destruct (foldl _ _ _) as [r' k].
    simpl in Hf. intros [= <-]. rewrite Hf. apply merge_all_wf, map_Forall_empty.
  - intros [= <-]. apply map_Forall_empty.
Qed.

(** One atomic step of the handle. *)
Inductive mstep : Disk * Inner → Disk * Inner → Prop :=
| step_merge d m e fault d' m' res :
    merge_signed d m e fault = (d', m', res) → mstep (d, m) (d', m')
| step_reload d m fault cfg m' res :
    apply_reload d fault m cfg = (m', res) → mstep (d, m) (d, m').

Inductive reach : Disk * Inner → Prop :=
| reach_load d fault cfg m : load d fault cfg = Ok m → reach (d, m)
| reach_step s s' : reach s → mstep s s' → reach s'.

Lemma merge_signed_cases d m e fault d' m' res :
  merge_signed d m e fault = (d', m', res) →
  m' = m ∨ ∃ pk, admin_pubkey m = Some pk ∧ m' = commit (merge_entry (roster m) e pk).1 m.
Proof.
  unfold merge_signed, stage. destruct (admin_pubkey m) as [pk|]; [|by intros [= <- <- <-]; left].
  destruct (merge_entry (roster m) e pk) as [r out] eqn:Hm. case_bool_decide.
  - destruct (save _ _ _ _) as [d1 [[]|e1]]; intros [= <- <- <-]; [right|by left].
    exists pk. by rewrite Hm.
  - intros [= <- <- <-]. by left.
Qed.

Lemma reach_inv s : reach s → trusted s.2 ∧ lockstep s.2.
Proof.
  induction 1 as [d fault cfg m Hl|s s' Hr [Ht Hs] Hstep]; simpl.
  - unfold load in Hl. destruct (load_roster d fault cfg) as [r|] eqn:Hr; simplify_eq/=.
    split; [|done]. by apply load_roster_trusted in Hr.
  - destruct Hstep as [d m e fault d' m' res Hm|d m fault cfg m' res Hm]; simpl in *.
    + apply merge_signed_cases in Hm as [->|(pk & Hpk & ->)]; [done|]. split; [|done].
      unfold trusted in *. simpl. rewrite Hpk in *. by apply merge_entry_wf.
    + unfold apply_reload in Hm. destruct (load_roster d fault cfg) as [r|] eqn:Hld; simplify_eq/=; [|done].
      split; [|done]. by apply load_roster_trusted in Hld.
Qed.

(** The handle's views never drift. In every state reachable by loading,
    merging signed entries with any file-system outcome and reloading the
    configuration, every roster entry is verified under the currently
    configured key and filed under the node it names; the dial targets are
    exactly the seeds overridden by signed Adds and cut by signed Removes
    (never the node itself through the roster); and a TLS fingerprint is
    admitted if and only if some effective peer carries it. *)
Theorem membership_views_exact (d : Disk) (m : Inner) :
  reach (d, m) →
  (∀ n e, roster m !! n = Some e →
     ∃ pk, admin_pubkey m = Some pk ∧ verify e pk = true ∧ se_node_id e = n) ∧
  (∀ n, effective m !! n = target_of (our_node_id m) n (seed_map (seeds m) !! n) (roster m !! n)) ∧
  (∀ fp, fp ∈ allowlist m ↔ ∃ n p, effective m !! n = Some p ∧ p_fingerprint p = fp).
Proof.
  intros Hr. destruct (reach_inv (d, m) Hr) as [Ht [He Ha]]. simpl in *. split_and!.
  - intros n e Hn. unfold trusted in Ht. destruct (admin_pubkey m) as [pk|].
    + exists pk. split; [done|]. by apply (Ht n e).
    + rewrite Ht in Hn. by rewrite lookup_empty in Hn.
  - intros n. rewrite He. by apply recompute_effective, trusted_keyed.
  - intros fp. rewrite Ha, He. apply recompute_allowlist.
Qed.

(** ** Durability *)

(** Re-merging a roster's own entries rebuilds it. *)
Lemma merge_all_rebuild pk (l : list (NodeId * SignedEntry)) r :
  NoDup l.*1 → Forall (λ p, counts pk p.1 p.2) l → (∀ n, n ∈ l.*1 → r !! n = None) →
  merge_all pk r l.*2 = list_to_map l ∪ r.
Proof.
  revert r. induction l as [|[k e] l IH]; intros r Hnd Hc Hr; simpl.
  { by rewrite map_empty_union. }
  rewrite fmap_cons in Hnd, Hr. apply NoDup_cons in Hnd as [Hk Hnd].
  apply Forall_cons in Hc as [[Hv He] Hc]. simpl in *.
  assert (Hme : (merge_entry r e pk).1 = <[k := e]> r).
  { unfold merge_entry. rewrite Hv, He. simpl. by rewrite (Hr k) by (by left). }
  rewrite Hme. change (merge_all pk (<[k := e]> r) l.*2 = <[k := e]> (list_to_map l) ∪ r).
  rewrite IH; [|done|done|].
  - rewrite <-insert_union_r by (by apply not_elem_of_list_to_map_1). by rewrite insert_union_l.
  - intros n Hn. rewrite lookup_insert_ne by (by intros ->). apply Hr. by right.
Qed.

Lemma load_save_roundtrip pk r : roster_wf pk r → merge_all pk new (btree_values r) = r.
Proof.
  intros Hwf. unfold btree_values. rewrite (merge_all_rebuild pk).
  - unfold new. rewrite (right_id_L ∅ (∪)). apply list_to_map_btree_iter.
  - apply NoDup_btree_keys.
  - apply Forall_forall. intros [n e] Hin%elem_of_btree_iter. by apply Hwf.
  - intros n _. apply lookup_empty.
Qed.

Lemma merge_applied_entry pk r e r' :
  merge_entry r e pk = (r', MergeOutcome.Applied) → r' = <[se_node_id e := e]> r ∧ verify e pk = true.
Proof.
  unfold merge_entry. destruct (verify e pk); simpl; [|done].
  destruct (r !! se_node_id e) as [cur|]; [|by intros [= <-]].
  destruct (ord_leb _ _); [done|by intros [= <-]].
Qed.

(** C39: Disk is the commit point. When a merge reports success, the roster
    file holds the new roster, a restart loads exactly it, and the entry is
    the node's winner; when it reports no change, nothing changed anywhere;
    when it reports an error, the live state is untouched, and so is the
    roster file unless only the final directory fsync failed. *)
Theorem merge_signed_durable (d : Disk) (m : Inner) (pk : AdminPubKey) (e : SignedEntry)
    (fault : SaveFault) (d' : Disk) (m' : Inner) (res : result MembershipError MergeOutcome) :
  trusted m → admin_pubkey m = Some pk →
  merge_signed d m e fault = (d', m', res) →
  match res with
  | Ok MergeOutcome.Applied =>
      roster m' !! se_node_id e = Some e ∧
      d' !! roster_path m = Some (ValidJson (roster_snapshot m')) ∧
      Roster.load d' ReadOk (roster_path m) pk = Ok (roster m', O)
  | Ok _ => d' = d ∧ m' = m
  | Err _ => m' = m ∧ (fault ≠ FsyncDirFault → d' !! roster_path m = d !! roster_path m)
  end.
Proof.
  intros Ht Hpk. unfold trusted in Ht. rewrite Hpk in Ht. unfold merge_signed, stage. rewrite Hpk.
  destruct (merge_entry (roster m) e pk) as [r out] eqn:Hm. case_bool_decide as Ho.
  2:{ intros [= <- <- <-]. by destruct out. }
  subst out. pose proof (merge_entry_wf pk (roster m) e Ht) as Hwf. rewrite Hm in Hwf. simpl in Hwf.
  assert (Hload : ∀ k, foldl (load_step pk) (new, k) (btree_values r) = (r, k)).
  { intros k. pose proof (load_fold_merge pk (btree_values r) new k) as Hf.
    rewrite load_save_roundtrip in Hf by done.
    assert (Hk : ∀ es r0 k0, Forall (λ e, verify e pk = true) es →
      (foldl (load_step pk) (r0, k0) es).2 = k0).
    { clear. induction es as [|e es IH]; intros r0 k0 Hes; simpl; [done|].
      apply Forall_cons in Hes as [He Hes]. unfold load_step at 2. simpl.
      unfold merge_entry. rewrite He. simpl.
      destruct (r0 !! se_node_id e) as [cur|]; [destruct (ord_leb _ _)|]; simpl; by apply IH. }
    specialize (Hk (btree_values r) new k). destruct (foldl _ _ _) as [r1 k1]. simpl in *. subst r1.
    f_equal. apply Hk. apply Forall_forall. intros e' (n & He')%elem_of_btree_values.
    by apply (Hwf n e'). }
  assert (Hne : tmp_sibling (roster_path m) ≠ roster_path m).
  { unfold tmp_sibling. intros Heq%(f_equal String.length).
    assert (Hlen : ∀ s, String.length (s +:+ ".tmp") = (String.length s + 4)%nat).
    { clear. induction s as [|a s IH]; [done|]. change (S (String.length (s +:+ ".tmp")) = S (String.length s) + 4)%nat. lia. }
    rewrite Hlen in Heq. lia. }
  apply merge_applied_entry in Hm as [-> _].
  destruct fault; simpl; intros [= <- <- <-]; simpl.
  - rewrite !lookup_insert_eq. split_and!; [done|done|]. unfold Roster.load.
    rewrite ?lookup_insert_eq. by rewrite Hload.
  - split; [done|]. intros _. by rewrite lookup_insert_ne.
  - split; [done|]. intros _. by rewrite lookup_insert_ne.
  - done.
Qed.
End views.

(** ** Gossip *)

Section gossip.
Context `{!Blake3, !Ed25519} (pk : AdminPubKey).
Import Membership Gossip.

Lemma merge_signed_nofault d m e :
  admin_pubkey m = Some pk →
  let m' := (merge_signed d m e NoFault).1.2 in
  roster m' = (merge_entry (roster m) e pk).1 ∧ admin_pubkey m' = Some pk.
Proof.
  intros Hpk. unfold merge_signed, stage. rewrite Hpk.
  destruct (merge_entry (roster m) e pk) as [r out] eqn:Hm. case_bool_decide as Ho; simpl; [done|].
  split; [|done]. unfold merge_entry in Hm. destruct (verify e pk); simpl in Hm; [|by simplify_eq].
  destruct (roster m !! se_node_id e) as [cur|]; [destruct (ord_leb _ _)|]; by simplify_eq.
Qed.

Lemma merge_batch_nofault g es k :
  admin_pubkey (gn_inner g) = Some pk →
  let g' := (merge_batch g es [] k).1 in
  roster (gn_inner g') = merge_all pk (roster (gn_inner g)) es ∧
  admin_pubkey (gn_inner g') = Some pk.
Proof.
  revert g k. induction es as [|e es IH]; intros [d m] k Hpk; simpl; [done|]. simpl in Hpk.
  pose proof (merge_signed_nofault d m e Hpk) as [Hr Hp].
  destruct (merge_signed d m e NoFault) as [[d' m'] res]. simpl in Hr, Hp.
  destruct (IH (mkGossipNode d' m')
    (match res with Ok MergeOutcome.Applied => S k | _ => k end) Hp) as [Hr' Hp'].
  simpl in Hr'. rewrite Hr in Hr'. split; [exact Hr'|exact Hp'].
Qed.

(** Offering a roster another roster's winners is offering everything the
    other has seen. *)
Lemma registers_snapshot eA eB r1 r2 :
  registers pk (eA ++ eB) r1 → registers pk (eB ++ all_entries r1) r2 →
  registers pk (eA ++ eB) r2.
Proof.
  intros H1 H2 n. specialize (H2 n).
  assert (Hwin : ∀ e, e ∈ eA ++ eB → counts pk n e →
    ∃ w, w ∈ eB ++ all_entries r1 ∧ counts pk n w ∧ ord_le (order_key e) (order_key w)).
  { intros e He Hc. specialize (H1 n). destruct (r1 !! n) as [w|] eqn:Hw.
    - destruct H1 as (_ & Hcw & Hmax). exists w. split_and!; [|done|by apply Hmax].
      apply elem_of_app. right. apply elem_of_btree_values. by exists n.
    - by destruct (H1 e He). }
  destruct (r2 !! n) as [w|]; simpl in *.
  - destruct H2 as (Hw & Hc & Hmax). split_and!; [|done|].
    + apply elem_of_app in Hw as [?|(n' & Hw)%elem_of_btree_values]; [set_solver|].
      specialize (H1 n'). rewrite Hw in H1. apply H1.
    + intros e He Hce. destruct (Hwin e He Hce) as (w' & Hw' & Hcw' & Hle).
      etrans; [exact Hle|by apply Hmax].
  - intros e He Hce. destruct (Hwin e He Hce) as (w' & Hw' & Hcw' & _). by apply (H2 w').
Qed.

Lemma eqv_registers r r' :
  roster_wf pk r → roster_wf pk r' → roster_eqv r r' →
  registers pk (all_entries r ++ all_entries r') r.
Proof.
  intros Hwf Hwf' Heqv n. pose proof (roster_wf_registers pk r Hwf n) as Hreg.
  pose proof (roster_wf_registers pk r' Hwf' n) as Hreg'. specialize (Heqv n).
  destruct (r !! n) as [w|], (r' !! n) as [w'|]; simpl in *; inversion Heqv as [? ? Hs|]; subst.
  - destruct Hreg as (Hw & Hc & Hmax), Hreg' as (_ & _ & Hmax'). split_and!; [set_solver|done|].
    intros e [He|He]%elem_of_app Hce; [by apply Hmax|]. rewrite Hs. by apply Hmax'.
  - intros e [He|He]%elem_of_app Hce; [by apply (Hreg e)|by apply (Hreg' e)].
Qed.

Lemma exchange_converges (a b : GossipNode) :
  admin_pubkey (gn_inner a) = Some pk → admin_pubkey (gn_inner b) = Some pk →
  trusted (gn_inner a) → trusted (gn_inner b) →
  let eA := roster_snapshot (gn_inner a) in
  let eB := roster_snapshot (gn_inner b) in
  Forall entry_typed (eA ++ eB) →
  (roster_digest (gn_inner a) = roster_digest (gn_inner b) →
     concat (canonical_bytes <$> eA) = concat (canonical_bytes <$> eB)) →
  let '(a', b', _) := exchange a b [] [] in
  roster_eqv (roster (gn_inner a')) (roster (gn_inner b')) ∧
  registers pk (eA ++ eB) (roster (gn_inner a')) ∧
  registers pk (eA ++ eB) (roster (gn_inner b')).
Proof.
  intros Ha Hb Hta Htb eA eB Hty Hdig. unfold trusted in Hta, Htb. rewrite Ha in Hta. rewrite Hb in Htb.
  apply Forall_app in Hty as [HtA HtB].
  assert (Hall : ∀ r, Forall entry_typed (all_entries r) → map_Forall (λ _, entry_typed) r).
  { intros r Hr n e He. rewrite Forall_forall in Hr. apply Hr, elem_of_btree_values. by exists n. }
  unfold exchange, has_admin_key. rewrite Ha. simpl. case_bool_decide as Hd; simpl.
  - assert (Heqv : roster_eqv (roster (gn_inner a)) (roster (gn_inner b))).
    { apply (roster_eqv_same_canonical pk); [done|done|by apply Hall..|].
      by apply canonical_concat_inj, Hdig. }
    split_and!; [done|by apply eqv_registers|].
    intros n. pose proof (eqv_registers _ _ Htb Hta (symmetry Heqv) n) as Hreg.
    change (register pk (eB ++ eA) n (roster (gn_inner b) !! n)) in Hreg.
    destruct (roster (gn_inner b) !! n); simpl in *; set_solver.
  - pose proof (merge_batch_nofault a eB 0 Ha) as [HrA HpA]. fold eB.
    destruct (merge_batch a eB [] 0) as [a' k]. simpl in HrA, HpA |- *.
    pose proof (merge_batch_nofault b (roster_snapshot (gn_inner a')) 0 Hb) as [HrB _].
    destruct (merge_batch b (roster_snapshot (gn_inner a')) [] 0) as [b' k']. simpl in HrB |- *.
    assert (Hreg1 : registers pk (eA ++ eB) (roster (gn_inner a'))).
    { rewrite HrA. by apply registers_merge_all, roster_wf_registers. }
    assert (Hreg2 : registers pk (eA ++ eB) (roster (gn_inner b'))).
    { eapply registers_snapshot; [exact Hreg1|]. rewrite HrB.
      by apply registers_merge_all, roster_wf_registers. }
    split_and!; [|done|done]. by eapply registers_eqv.
Qed.

(** One gossip exchange converges the pair. Whatever the two rosters
    hold, after a completed exchange between nodes that trust the same admin
    key both hold the same winners, and each winner is the maximum over
    everything either node held before; when the digests agree nothing moves,
    and they agree only if the winners already do (given that the digest does
    not collide on the two rosters). *)
Theorem gossip_exchange_converges (a b : GossipNode) :
  admin_pubkey (gn_inner a) = Some pk → admin_pubkey (gn_inner b) = Some pk →
  trusted (gn_inner a) → trusted (gn_inner b) →
  let eA := roster_snapshot (gn_inner a) in
  let eB := roster_snapshot (gn_inner b) in
  Forall entry_typed (eA ++ eB) →
  (roster_digest (gn_inner a) = roster_digest (gn_inner b) →
     concat (canonical_bytes <$> eA) = concat (canonical_bytes <$> eB)) →
  let '(a', b', _) := exchange a b [] [] in
  roster_eqv (roster (gn_inner a')) (roster (gn_inner b')) ∧
  registers pk (eA ++ eB) (roster (gn_inner a')) ∧
  registers pk (eA ++ eB) (roster (gn_inner b')).
Proof. apply exchange_converges. Qed.

(** An administrator can always move a node forward. An entry validly
    signed for the epoch the node reports as next is accepted and becomes the
    winner, whether it adds or removes, as long as the epoch counter is not
    at its maximum. *)
Theorem next_epoch_entry_wins (r : Roster) (e : SignedEntry) :
  (∀ cur, r !! se_node_id e = Some cur → in_u64 (se_epoch cur) ∧ se_epoch cur + 1 < u64_modulus) →
  verify e pk = true → se_epoch e = Roster.next_epoch_for r (se_node_id e) →
  merge_entry r e pk = (<[se_node_id e := e]> r, MergeOutcome.Applied).
Proof.
  intros Hroom Hv Hep. unfold merge_entry. rewrite Hv. simpl. unfold Roster.next_epoch_for in Hep.
  destruct (r !! se_node_id e) as [cur|]; [|done]. destruct (Hroom cur eq_refl) as [Hin Hlt].
  rewrite u64_add_small in Hep by (unfold in_u64 in *; lia).
  destruct (ord_leb (order_key e) (order_key cur)) eqn:Hle; [exfalso|done].
  apply ord_leb_le, ord_le_key in Hle as [Hle _]. simpl in Hle. lia.
Qed.
End gossip.

(** ** Witnesses and limits *)

Module RosterEx.
(** A stand-in signature scheme: a signature is the key followed by the tail
    of the message, checked by recomputation. *)
Definition toy_sign (k : barray 32) (m : list byte) : Sig := to_array 64 (ba_list k ++ reverse m).
#[export] Instance toy_ed25519 : Ed25519 := {|
  AdminSecret := barray 32;
  public_key k := k;
  ed_sign := toy_sign;
  ed_verify k m s := bool_decide (s = toy_sign k m);
|}.
(** A stand-in digest that sees every byte: a rolling sum over 32 bytes. *)
Definition roll_blake3 : Blake3 := λ l,
  to_array 32 (be_bytes 32 (foldl (λ h b, (h * 257 + byte_val b + 1) `mod` 2 ^ 256) 7 l)).
#[export] Existing Instance roll_blake3.
#[export] Instance toy_ed25519_laws : Ed25519Laws.
Proof. intros sk m. simpl. by apply bool_decide_eq_true. Qed.

Definition key1 : barray 32 := fill 32 x11.
Definition key2 : barray 32 := fill 32 x22.

Definition signed (k : barray 32) (n : NodeId) (p epoch : Z) (kind : EntryKind) : SignedEntry :=
  mkSignedEntry n (ex_addr p) (fill 32 x05) epoch kind
    (Admin.sign_entry (k : AdminSecret) n (ex_addr p) (fill 32 x05) epoch kind).

Definition add_a : SignedEntry := signed key1 node_a 7000 1 EntryKind.Add.
Definition rem_a : SignedEntry := signed key1 node_a 7000 1 EntryKind.Remove.
Definition readd_a : SignedEntry := signed key1 node_a 7001 2 EntryKind.Add.
Definition add_b : SignedEntry := signed key1 node_b 7002 1 EntryKind.Add.
Definition forged : SignedEntry := signed key2 node_b 6666 9 EntryKind.Add.

Definition cfg1 : IntentConfig := mkIntentConfig (fill 16 x0f) (Some key1) "/r.json" [].
Definition cfg2 : IntentConfig := mkIntentConfig (fill 16 x0f) (Some key2) "/r.json" [].
Definition inner0 : Inner := mkInner (fill 16 x0f) (Some key1) "/r.json" [] ∅ ∅ ∅ 0.
Definition inner1 : Inner := (Membership.merge_signed ∅ inner0 add_a NoFault).1.2.
Definition disk1 : Disk := (Membership.merge_signed ∅ inner0 add_a NoFault).1.1.
Definition innerB : Inner := (Membership.merge_signed ∅ inner0 add_b NoFault).1.2.
End RosterEx.
Import RosterEx Membership Gossip.

Lemma separates_check (es : list SignedEntry) :
  Forall (λ e, Forall (λ e', content_hash e = content_hash e' → canonical_bytes e = canonical_bytes e') es) es →
  hash_separates es.
Proof. rewrite Forall_forall. intros H e e' He He'. specialize (H e He). rewrite Forall_forall in H. by apply H. Qed.


(** The signed statement leaves out the scope of an IPv6 address: one signature
    serves two addresses, and two rosters that were offered the same two
    entries in different orders keep different ones, under one digest. *)
Definition scoped (scope : Z) : SignedEntry :=
  let addr := V6 (fill 16 x0e) 7000 0 scope in
  mkSignedEntry node_a addr (fill 32 x05) 1 EntryKind.Add
    (Admin.sign_entry (key1 : AdminSecret) node_a addr (fill 32 x05) 1 EntryKind.Add).

Lemma scope_is_not_signed :
  let r := merge_all key1 new [scoped 1; scoped 2] in
  let r' := merge_all key1 new [scoped 2; scoped 1] in
  se_sig (scoped 1) = se_sig (scoped 2) ∧ digest r = digest r' ∧
  (se_addr <$> r !! node_a) = Some (V6 (fill 16 x0e) 7000 0 1) ∧
  (se_addr <$> r' !! node_a) = Some (V6 (fill 16 x0e) 7000 0 2).
Proof. split_and!; vm_compute; reflexivity. Qed.

Lemma removed_stays_removed_witness :
  ∃ w', merge_all key1 (merge_all key1 new [add_a; rem_a]) [add_a; add_b; add_a] !! node_a = Some w' ∧
        se_kind w' = EntryKind.Remove ∧ se_epoch rem_a ≤ se_epoch w'.
Proof.
  apply (removed_stays_removed key1 (merge_all key1 new [add_a; rem_a]) [add_a; add_b; add_a] node_a rem_a).
  - apply merge_all_wf, map_Forall_empty.
  - vm_decide.
  - reflexivity.
  - intros e He _ _. revert e He. apply Forall_forall. vm_decide.
Defined.

Lemma membership_views_exact_witness :
  fill 32 x05 ∈ allowlist inner1 ↔
  ∃ n p, effective inner1 !! n = Some p ∧ p_fingerprint p = fill 32 x05.
Proof.
  apply (membership_views_exact disk1 inner1).
  eapply reach_step; [apply (reach_load ∅ ReadOk cfg1 inner0); vm_decide|].
  apply (step_merge ∅ inner0 add_a NoFault _ _ (merge_signed ∅ inner0 add_a NoFault).2). unfold disk1, inner1.
  by destruct (merge_signed ∅ inner0 add_a NoFault) as [[] ?].
Defined.

Lemma merge_signed_durable_witness :
  Roster.load disk1 ReadOk "/r.json" key1 = Ok (roster inner1, O).
Proof.
  apply (merge_signed_durable ∅ inner0 key1 add_a NoFault disk1 inner1 (Ok MergeOutcome.Applied)).
  - apply map_Forall_empty.
  - reflexivity.
  - assert (Hr : (merge_signed ∅ inner0 add_a NoFault).2 = Ok MergeOutcome.Applied) by vm_decide.
    rewrite <- Hr. unfold disk1, inner1. by destruct (merge_signed ∅ inner0 add_a NoFault) as [[] ?].
Defined.

Lemma one_merge_trusted (e : SignedEntry) : trusted (merge_signed ∅ inner0 e NoFault).1.2.
Proof.
  destruct (merge_signed ∅ inner0 e NoFault) as [[d m] res] eqn:Hm. simpl.
  apply merge_signed_cases in Hm as [->|(pk & [= <-] & ->)]; [apply map_Forall_empty|].
  apply merge_entry_wf, map_Forall_empty.
Qed.

Lemma gossip_exchange_converges_witness :
  let '(a', b', _) := exchange (mkGossipNode disk1 inner1) (mkGossipNode ∅ innerB) [] [] in
  roster_eqv (roster (gn_inner a')) (roster (gn_inner b')).
Proof.
  pose proof (gossip_exchange_converges key1 (mkGossipNode disk1 inner1) (mkGossipNode ∅ innerB)) as H.
  cbv zeta in H. destruct (exchange _ _ _ _) as [[a' b'] k].
  apply H.
  - vm_decide.
  - vm_decide.
  - apply one_merge_trusted.
  - apply one_merge_trusted.
  - vm_decide.
  - intros Hd. exfalso. revert Hd. vm_decide.
Defined.

Lemma next_epoch_entry_wins_witness :
  merge_entry (merge_all key1 new [add_a; rem_a]) readd_a key1 =
  (<[node_a := readd_a]> (merge_all key1 new [add_a; rem_a]), MergeOutcome.Applied).
Proof.
  apply (next_epoch_entry_wins key1 (merge_all key1 new [add_a; rem_a]) readd_a).
  - intros cur Hc. assert (cur = rem_a) as ->; [|vm_decide].
    assert (merge_all key1 new [add_a; rem_a] !! se_node_id readd_a = Some rem_a) by vm_decide. congruence.
  - vm_decide.
  - vm_decide.
Defined.

(** ** Limits *)

(** The next epoch is not "strictly above" the winner at the end of the
    counter: it wraps to zero, and the administrator's entry is superseded. *)
Definition last_a : SignedEntry := signed key1 node_a 7000 (u64_modulus - 1) EntryKind.Remove.

Theorem next_epoch_wraps :
  let r := merge_all key1 new [last_a] in
  Roster.next_epoch_for r node_a = 0 ∧
  (merge_entry r (signed key1 node_a 7000 0 EntryKind.Add) key1).2 = MergeOutcome.Superseded.
Proof. cbv zeta. vm_decide. Qed.

(** [apply_reload] does not take [merge_serial]: a reload that rotates the
    admin key while a merge is between its stage and its commit leaves the
    live roster holding entries the current key does not verify. *)
Theorem reload_during_merge_keeps_old_key_entries :
  let staged := (merge_entry (roster inner1) add_b key1).1 in
  let m := commit staged (apply_reload disk1 ReadOk inner1 cfg2).1 in
  admin_pubkey m = Some key2 ∧
  ∃ e, roster m !! node_b = Some e ∧ verify e key2 = false ∧ se_fingerprint e ∈ allowlist m.
Proof. cbv zeta. split; [vm_decide|]. exists add_b. vm_decide. Qed.

(** A failed directory fsync is reported as an error although the rename has
    happened: the file names a member the live state does not know, and a
    restart admits it. *)
Theorem fsync_dir_failure_leaves_disk_ahead :
  let s := merge_signed ∅ inner0 add_a FsyncDirFault in
  s.2 = Err (MembershipError.Roster (RosterError.Io "fsync roster dir")) ∧
  roster s.1.2 !! node_a = None ∧
  match Membership.load s.1.1 ReadOk cfg1 with Ok m' => roster m' !! node_a | Err _ => None end
  = Some add_a.
Proof. cbv zeta. vm_decide. Qed.

(** Re-offering the winner itself is reported as superseded, not applied. *)
Theorem reoffered_winner_is_superseded (r : Roster) (e : SignedEntry) :
  verify e key1 = true → r !! se_node_id e = Some e →
  merge_entry r e key1 = (r, MergeOutcome.Superseded).
Proof.
  intros Hv He. unfold merge_entry. rewrite Hv, He. simpl.
  assert (Hle : ord_leb (order_key e) (order_key e) = true) by (apply ord_leb_le; reflexivity).
  by rewrite Hle.
Qed.
