(* ===== verification/GossipMesh.v ===== *)
(** * Roster gossip across a mesh (src/src/net.rs, [gossip_driver])

    When a node exchanges rosters with whom: with every connected peer after
    a change, with a random one on every tick. Exchanges may be lost or cut
    halfway and saves may fail; an entry still spreads along every chain of
    exchanges that went through. *)

From S2P Require Import Prelude Vv Admin Membership MembershipProofs.

#[local] Open Scope Z_scope.

(** What became of one exchange: the stream was lost before anything was
    merged, the initiator merged and its answer was lost, or all of it went
    through; with the outcomes of the saves. *)
Inductive HopOutcome : Type :=
| Lost
| Pulled (fa : list SaveFault)
| Whole (fa fb : list SaveFault).
Record Hop : Type := mkHop { hp_from : NodeId; hp_to : NodeId; hp_outcome : HopOutcome }.

Abbreviation Nodes := (gmap NodeId GossipNode).

(** What wakes the driver: a tick, with the number the random source gives, or
    a change of the local roster, and what becomes of the exchanges. *)
Inductive DriverEvent : Type :=
| Tick (r : nat) (x : HopOutcome)
| Changed (xs : NodeId → HopOutcome).

Module GossipDriver.
Section with_externals.
Context `{!Blake3, !Ed25519}.

Definition hop_step (ns : Nodes) (h : Hop) : Nodes :=
  match ns !! hp_from h, ns !! hp_to h with
  | Some a, Some b =>
      if bool_decide (hp_from h = hp_to h) then ns else
      match hp_outcome h with
      | Lost => ns
      | Pulled fa => <[hp_from h := (Gossip.exchange a b fa []).1.1]> ns
      | Whole fa fb => <[hp_to h := (Gossip.exchange a b fa fb).1.2]> (<[hp_from h := (Gossip.exchange a b fa fb).1.1]> ns)
      end
  | _, _ => ns
  end.

(** [pick_random]: none of none; the index is below the length. *)
Definition pick_random (r : nat) (conns : list NodeId) : option NodeId :=
  match conns with [] => None | _ => conns !! (r `mod` length conns)%nat end.

(** The exchanges of one turn of the driver's loop with the connections that
    are live, on a node that has an admin key. *)
Definition driver_hops (me : NodeId) (conns : list NodeId) (e : DriverEvent) : list Hop :=
  match e with
  | Tick r x => match pick_random r conns with Some p => [mkHop me p x] | None => [] end
  | Changed xs => (λ p, mkHop me p (xs p)) <$> conns
  end.
Definition gossip_driver (me : NodeId) (conns : list NodeId) (e : DriverEvent) (ns : Nodes) : Nodes :=
  match ns !! me with
  | Some g => if Membership.has_admin_key (gn_inner g) then foldl hop_step ns (driver_hops me conns e) else ns
  | None => ns
  end.
End with_externals.
End GossipDriver.
Import GossipDriver Membership Gossip Roster.

Section spread.
Context `{!Blake3, !Ed25519} (pk : AdminPubKey).

(** A node that trusts the key and holds verified entries. *)
Record good (g : GossipNode) : Prop := {
  go_key : admin_pubkey (gn_inner g) = Some pk;
  go_wf : roster_wf pk (roster (gn_inner g));
  go_typed : map_Forall (λ _, entry_typed) (roster (gn_inner g));
}.
(** The node has the entry, or a newer one for the same member. *)
Definition knows (g : GossipNode) (e : SignedEntry) : Prop :=
  ∃ w, roster (gn_inner g) !! se_node_id e = Some w ∧ ord_le (order_key e) (order_key w).
(** A node's later state. *)
Definition newer (g g' : GossipNode) : Prop :=
  ∀ n w, roster (gn_inner g) !! n = Some w → ∃ w', roster (gn_inner g') !! n = Some w' ∧ ord_le (order_key w) (order_key w').

Lemma newer_refl g : newer g g.
Proof. intros n w Hw. by exists w. Qed.
Lemma newer_trans g1 g2 g3 : newer g1 g2 → newer g2 g3 → newer g1 g3.
Proof. intros Ha Hb n w Hw. destruct (Ha n w Hw) as (w1 & Hw1 & Hle1). destruct (Hb n w1 Hw1) as (w2 & Hw2 & Hle2). exists w2. split; [done|by etrans]. Qed.
Lemma newer_knows g g' e : newer g g' → knows g e → knows g' e.
Proof. intros Hn (w & Hw & Hle). destruct (Hn _ w Hw) as (w' & Hw' & Hle'). exists w'. split; [done|by etrans]. Qed.

Lemma registers_newer r seen r' n w :
  roster_wf pk r → registers pk (all_entries r ++ seen) r' → r !! n = Some w → ∃ w', r' !! n = Some w' ∧ ord_le (order_key w) (order_key w').
Proof.
  intros Hwf Hreg Hw. specialize (Hreg n). assert (Hin : w ∈ all_entries r ++ seen) by (apply elem_of_app; left; apply elem_of_btree_values; by exists n).
  destruct (r' !! n) as [w'|]; [|by destruct (Hreg w Hin (Hwf n w Hw))]. exists w'. split; [done|]. destruct Hreg as (_ & _ & Hmax). by apply Hmax, Hwf.
Qed.

Lemma merge_good d m e fault d' m' res :
  good (mkGossipNode d m) → entry_typed e → merge_signed d m e fault = (d', m', res) →
  good (mkGossipNode d' m') ∧ newer (mkGossipNode d m) (mkGossipNode d' m').
Proof.
  intros [Hk Hwf Hty] He Hm. cbn in *. apply merge_signed_cases in Hm as [->|(pk' & Hk' & ->)]; [split; [done|]; intros n w Hw; by exists w|].
  rewrite Hk in Hk'. injection Hk' as <-. split; [split|]; cbn.
  - done.
  - by apply merge_entry_wf.
  - unfold merge_entry. destruct (verify e pk); [|done]. cbn. destruct (roster m !! se_node_id e); [destruct (ord_leb _ _); [done|]|]; cbn; by apply map_Forall_insert_2.
  - intros n w Hw. cbn in *. eapply (registers_newer (roster m) [e]); [done| |done]. by apply registers_merge, roster_wf_registers.
Qed.

Lemma batch_good g es faults k : good g → Forall entry_typed es → good (merge_batch g es faults k).1 ∧ newer g (merge_batch g es faults k).1.
Proof.
  revert g faults k. induction es as [|e es IH]; intros g faults k Hg Hes; cbn [merge_batch]; [by split; [|apply newer_refl]|].
  apply Forall_cons in Hes as [He Hes]. destruct g as [d m]. cbn [gn_disk gn_inner].
  destruct (merge_signed d m e (default NoFault (head faults))) as [[d' m'] res] eqn:Hm.
  destruct (merge_good d m e _ d' m' res Hg He Hm) as [Hg' Hn']. destruct (IH (mkGossipNode d' m') (tail faults)
    (match res with Ok MergeOutcome.Applied => S k | _ => k end) Hg' Hes) as [Hg'' Hn'']. split; [done|by eapply newer_trans].
Qed.

Lemma snapshot_typed g : good g → Forall entry_typed (roster_snapshot (gn_inner g)).
Proof. intros Hg. apply Forall_forall. intros e (n & He)%elem_of_btree_values. by apply (go_typed _ Hg n e). Qed.

Lemma exchange_good a b fa fb :
  good a → good b → let '(a', b', _) := exchange a b fa fb in good a' ∧ good b' ∧ newer a a' ∧ newer b b'.
Proof.
  intros Ha Hb. pose proof (newer_refl a) as Hra. pose proof (newer_refl b) as Hrb. unfold exchange. destruct (negb _); [done|]. cbn [serve_first].
  destruct (bool_decide _); [done|]. cbn [once_reply].
  destruct (batch_good a (roster_snapshot (gn_inner b)) fa 0 Ha (snapshot_typed b Hb)) as [Ha' Hna].
  destruct (merge_batch a (roster_snapshot (gn_inner b)) fa 0) as [a' k]. cbn [fst snd] in *. cbn [serve_second].
  destruct (batch_good b (roster_snapshot (gn_inner a')) fb 0 Hb (snapshot_typed a' Ha')) as [Hb' Hnb]. done.
Qed.

(** The whole mesh. *)
Definition all_good (ns : Nodes) : Prop := map_Forall (λ _, good) ns.
Definition all_newer (ns ns' : Nodes) : Prop := ∀ n g, ns !! n = Some g → ∃ g', ns' !! n = Some g' ∧ newer g g'.

Lemma hop_good ns h : all_good ns → all_good (hop_step ns h) ∧ all_newer ns (hop_step ns h).
Proof.
  intros Hall. assert (Hsame : all_newer ns ns) by (intros n g Hg; exists g; split; [done|apply newer_refl]).
  unfold hop_step. destruct (ns !! hp_from h) as [a|] eqn:Ha; [|done]. destruct (ns !! hp_to h) as [b|] eqn:Hb; [|done].
  case_bool_decide as Hne; [done|]. destruct (hp_outcome h) as [|fa|fa fb]; [done|..].
  - pose proof (exchange_good a b fa [] (Hall _ _ Ha) (Hall _ _ Hb)) as He. destruct (exchange a b fa []) as [[a' b'] k]. destruct He as (Hga & _ & Hna & _).
    split; [by apply map_Forall_insert_2|]. intros n g Hg. destruct (decide (n = hp_from h)) as [->|Hn].
    + exists a'. rewrite lookup_insert_eq. split; [done|]. by assert (g = a) as -> by congruence.
    + exists g. rewrite lookup_insert_ne by done. split; [done|apply newer_refl].
  - pose proof (exchange_good a b fa fb (Hall _ _ Ha) (Hall _ _ Hb)) as He. destruct (exchange a b fa fb) as [[a' b'] k]. destruct He as (Hga & Hgb & Hna & Hnb).
    cbn [fst snd]. split; [by apply map_Forall_insert_2; [|apply map_Forall_insert_2]|]. intros n g Hg. destruct (decide (n = hp_to h)) as [->|Hn].
    + exists b'. rewrite lookup_insert_eq. split; [done|]. by assert (g = b) as -> by congruence.
    + rewrite lookup_insert_ne by done. destruct (decide (n = hp_from h)) as [->|Hn'].
      * exists a'. rewrite lookup_insert_eq. split; [done|]. by assert (g = a) as -> by congruence.
      * exists g. rewrite lookup_insert_ne by done. split; [done|apply newer_refl].
Qed.

(** An exchange that goes through, between rosters the digest tells apart. *)
Definition completes (ns : Nodes) (h : Hop) (u v : NodeId) : Prop :=
  hp_outcome h = Whole [] [] ∧ hp_from h ≠ hp_to h ∧ ((hp_from h = u ∧ hp_to h = v) ∨ (hp_from h = v ∧ hp_to h = u)) ∧
  ∃ a b, ns !! hp_from h = Some a ∧ ns !! hp_to h = Some b ∧
    (roster_digest (gn_inner a) = roster_digest (gn_inner b) →
     concat (canonical_bytes <$> roster_snapshot (gn_inner a)) = concat (canonical_bytes <$> roster_snapshot (gn_inner b))).

Lemma completes_knows ns h u v gu e :
  all_good ns → completes ns h u v → verify e pk = true → ns !! u = Some gu → knows gu e →
  ∃ gv, hop_step ns h !! v = Some gv ∧ knows gv e.
Proof.
  intros Hall (Ho & Hne & Hdir & a & b & Ha & Hb & Hdig) Hv Hu (w & Hw & Hle). unfold hop_step. rewrite Ha, Hb, bool_decide_false, Ho by done.
  pose proof (exchange_converges pk a b (go_key _ (Hall _ _ Ha)) (go_key _ (Hall _ _ Hb))) as Hx. unfold trusted in Hx.
  rewrite (go_key _ (Hall _ _ Ha)), (go_key _ (Hall _ _ Hb)) in Hx. specialize (Hx (go_wf _ (Hall _ _ Ha)) (go_wf _ (Hall _ _ Hb))). cbv zeta in Hx.
  specialize (Hx ltac:(apply Forall_app; split; apply snapshot_typed; eauto) Hdig).
  destruct (exchange a b [] []) as [[a' b'] k]. cbn [fst snd]. destruct Hx as (_ & HrA & HrB).
  assert (Hmax : ∀ r, registers pk (roster_snapshot (gn_inner a) ++ roster_snapshot (gn_inner b)) r →
    ∃ w', r !! se_node_id e = Some w' ∧ ord_le (order_key e) (order_key w')).
  { intros r Hreg. specialize (Hreg (se_node_id e)).
    assert (Hin : w ∈ roster_snapshot (gn_inner a) ++ roster_snapshot (gn_inner b) ∧ counts pk (se_node_id e) w).
    { destruct Hdir as [[<- <-]|[<- <-]]; simplify_eq.
      - split; [apply elem_of_app; left; apply elem_of_btree_values; by exists (se_node_id e)|by apply (go_wf _ (Hall _ _ Ha))].
      - split; [apply elem_of_app; right; apply elem_of_btree_values; by exists (se_node_id e)|by apply (go_wf _ (Hall _ _ Hb))]. }
    destruct (r !! se_node_id e) as [w'|]; [|by destruct (Hreg w (proj1 Hin) (proj2 Hin))].
    exists w'. split; [done|]. destruct Hreg as (_ & _ & Hmax). etrans; [exact Hle|apply (Hmax w); apply Hin]. }
  destruct Hdir as [[<- <-]|[<- <-]].
  - exists b'. rewrite lookup_insert_eq. split; [done|exact (Hmax _ HrB)].
  - exists a'. rewrite lookup_insert_ne, lookup_insert_eq by done. split; [done|exact (Hmax _ HrA)].
Qed.

(** From [u] to [v] along exchanges that go through, in the order they
    happen among others. *)
Inductive spread : Nodes → list Hop → NodeId → NodeId → Prop :=
| spread_here ns v : spread ns [] v v
| spread_wait ns h hs u v : spread (hop_step ns h) hs u v → spread ns (h :: hs) u v
| spread_along ns h hs u u' v : completes ns h u u' → spread (hop_step ns h) hs u' v → spread ns (h :: hs) u v.

Lemma spread_knows ns hs u v gu e :
  spread ns hs u v → all_good ns → verify e pk = true → ns !! u = Some gu → knows gu e →
  ∃ gv, foldl hop_step ns hs !! v = Some gv ∧ knows gv e.
Proof.
  intros Hs. revert gu. induction Hs as [ns v|ns h hs u v _ IH|ns h hs u u' v Hc _ IH]; intros gu Hall Hv Hu Hk; cbn [foldl].
  - by exists gu.
  - destruct (hop_good ns h Hall) as [Hall' Hn]. destruct (Hn u gu Hu) as (gu' & Hu' & Hnew). apply (IH gu'); [done..|]. by eapply newer_knows.
  - destruct (hop_good ns h Hall) as [Hall' _]. destruct (completes_knows ns h u u' gu e Hall Hc Hv Hu Hk) as (gu' & Hu' & Hk'). by apply (IH gu').
Qed.
End spread.

(** C17: A membership change spreads through the mesh. An entry that one node
    holds is held, or superseded by a newer entry for the same member, at
    every node a chain of completed exchanges leads to, in whatever order
    those exchanges happen among others that are lost, cut halfway or whose
    saves fail; and no node that held it loses it. *)
Theorem change_spreads_through_mesh `{!Blake3, !Ed25519} pk (ns : Nodes) (hs : list Hop) (e : SignedEntry) (u : NodeId) (gu : GossipNode) :
  all_good pk ns → verify e pk = true → ns !! u = Some gu → knows gu e →
  (∀ v, spread ns hs u v → ∃ gv, foldl hop_step ns hs !! v = Some gv ∧ knows gv e) ∧
  (∀ v g, ns !! v = Some g → knows g e → ∃ g', foldl hop_step ns hs !! v = Some g' ∧ knows g' e).
Proof.
  intros Hall Hv Hu Hk. split.
  - intros v Hs. by eapply (spread_knows pk).
  - intros v g Hg Hkg. eapply (spread_knows pk ns hs v v g e); [|done..]. clear. revert ns. induction hs as [|h hs IH]; intros ns; [constructor|].
    apply spread_wait, IH.
Qed.

(** After a change the driver tells everyone who is connected: when its
    exchanges go through, every connected peer has the entry. *)
Theorem change_push_reaches_peers `{!Blake3, !Ed25519} pk (ns : Nodes) (me : NodeId) (conns : list NodeId) (e : SignedEntry) (g : GossipNode) :
  all_good pk ns → verify e pk = true → ns !! me = Some g → knows g e → me ∉ conns →
  (∀ l p r, conns = l ++ p :: r → completes (foldl hop_step ns ((λ p, mkHop me p (Whole [] [])) <$> l)) (mkHop me p (Whole [] [])) me p) →
  ∀ p, p ∈ conns → ∃ gp, gossip_driver me conns (Changed (λ _, Whole [] [])) ns !! p = Some gp ∧ knows gp e.
Proof.
  intros Hall Hv Hme Hk Hnot Hall_complete p (l & r & ->)%list_elem_of_split. unfold gossip_driver, has_admin_key. rewrite Hme, (go_key _ _ (Hall _ _ Hme)).
  eapply (spread_knows pk ns _ me p g e); [|done..]. cbn [driver_hops]. rewrite fmap_app. cbn [fmap list_fmap].
  specialize (Hall_complete l p r eq_refl). revert Hall_complete. clear. revert ns. induction l as [|q l IH]; intros ns Hc; cbn.
  - eapply spread_along; [exact Hc|]. generalize (hop_step ns (mkHop me p (Whole [] []))). clear. induction (_ <$> r) as [|h hs IH]; intros ns; [constructor|].
    apply spread_wait, IH.
  - apply spread_wait, IH. exact Hc.
Qed.

(** ** A mesh of three *)

Import RosterEx.

Definition node_c : NodeId := fill 16 x0f.
Definition mesh3 : Nodes :=
  <[node_a := mkGossipNode disk1 inner1]> (<[node_b := mkGossipNode ∅ innerB]> (<[node_c := mkGossipNode ∅ inner0]> ∅)).
(** [a] tells [b]; the first try of [b] with [c] is lost, the second is not. *)
Definition hops3 : list Hop := [mkHop node_a node_b (Whole [] []); mkHop node_b node_c Lost; mkHop node_c node_b (Whole [] [])].

Lemma mesh3_good : all_good key1 mesh3.
Proof.
  apply map_Forall_insert_2; [|apply map_Forall_insert_2; [|apply map_Forall_insert_2; [|apply map_Forall_empty]]].
  - split; [vm_compute; reflexivity|unfold roster_wf, counts; vm_decide|vm_decide].
  - split; [vm_compute; reflexivity|unfold roster_wf, counts; vm_decide|vm_decide].
  - split; [reflexivity|apply map_Forall_empty|apply map_Forall_empty].
Qed.

Lemma completes_check ns h u v :
  hp_outcome h = Whole [] [] → hp_from h ≠ hp_to h → ((hp_from h = u ∧ hp_to h = v) ∨ (hp_from h = v ∧ hp_to h = u)) →
  match ns !! hp_from h, ns !! hp_to h with
  | Some a, Some b => bool_decide (roster_digest (gn_inner a) ≠ roster_digest (gn_inner b))
  | _, _ => false
  end = true → completes ns h u v.
Proof.
  intros Ho Hne Hd Hc. split; [done|]. split; [done|]. split; [done|]. destruct (ns !! hp_from h) as [a|]; [|done].
  destruct (ns !! hp_to h) as [b|]; [|done]. apply bool_decide_eq_true in Hc. by exists a, b.
Qed.

Lemma change_spreads_through_mesh_witness : ∃ gc, foldl hop_step mesh3 hops3 !! node_c = Some gc ∧ knows gc add_a.
Proof.
  refine (proj1 (change_spreads_through_mesh key1 mesh3 hops3 add_a node_a (mkGossipNode disk1 inner1) _ _ _ _) node_c _).
  - exact mesh3_good.
  - vm_decide.
  - apply lookup_insert_eq.
  - exists add_a. split; [vm_decide|reflexivity].
  - unfold hops3. eapply (spread_along _ _ _ _ node_b).
    + apply completes_check; [reflexivity|vm_decide|left; split; reflexivity|vm_compute; reflexivity].
    + apply spread_wait. eapply (spread_along _ _ _ _ node_c).
      * apply completes_check; [reflexivity|vm_decide|right; split; reflexivity|vm_compute; reflexivity].
      * constructor.
Defined.
