(* ===== verification/Suppress.v ===== *)
(** * Apply suppression (src/src/suppress.rs)

    The set of outcomes the apply path announces before it touches the share,
    so that the watcher and the scanner swallow their own node's writes. The
    monotonic clock is an argument of the operations that read it. *)

From S2P Require Import Prelude.

Module SuppressKind.
Inductive t : Type :=
| Write (hash : hash32)
| Delete.
End SuppressKind.
Abbreviation SuppressKind := SuppressKind.t.

#[export] Instance suppress_kind_eq_dec : EqDecision SuppressKind.
Proof. solve_decision. Defined.

(** [suppress::Entry] *)
Record SuppressEntry : Type := mkSuppressEntry { en_kind : SuppressKind; en_at : Z }.

Abbreviation Suppressor := (gmap string SuppressEntry).

Module Suppressor.
Definition new : Suppressor := ∅.

Definition register_write (s : Suppressor) (now : Z) (rel : string) (hash : hash32) : Suppressor :=
  <[rel := mkSuppressEntry (SuppressKind.Write hash) now]> s.

Definition register_delete (s : Suppressor) (now : Z) (rel : string) : Suppressor :=
  <[rel := mkSuppressEntry SuppressKind.Delete now]> s.

Definition check_write (s : Suppressor) (rel : string) (hash : hash32) : Suppressor * bool :=
  match s !! rel with
  | Some (mkSuppressEntry (SuppressKind.Write expected) _) =>
      if bool_decide (expected = hash) then (delete rel s, true) else (s, false)
  | _ => (s, false)
  end.

Definition check_delete (s : Suppressor) (rel : string) : Suppressor * bool :=
  match s !! rel with
  | Some (mkSuppressEntry SuppressKind.Delete _) => (delete rel s, true)
  | _ => (s, false)
  end.

(** [elapsed] saturates at zero. *)
Definition sweep (s : Suppressor) (now ttl : Z) : Suppressor :=
  filter (λ p, Z.max 0 (now - en_at p.2) < ttl) s.

Definition len (s : Suppressor) : nat := size s.
Definition is_empty (s : Suppressor) : bool := bool_decide (s = ∅).
End Suppressor.

(** One call on the shared set; the mutex makes each call atomic. *)
Inductive SuppressCall : Type :=
| Register (rel : string) (k : SuppressKind)
| Observe (rel : string) (k : SuppressKind)
| Sweep (ttl : Z).

#[export] Instance suppress_call_eq_dec : EqDecision SuppressCall.
Proof. solve_decision. Defined.

(** The call at clock reading [now], and whether it swallowed an event. *)
Definition suppress_call (s : Suppressor) (now : Z) (c : SuppressCall) : Suppressor * bool :=
  match c with
  | Register rel (SuppressKind.Write h) => (Suppressor.register_write s now rel h, false)
  | Register rel SuppressKind.Delete => (Suppressor.register_delete s now rel, false)
  | Observe rel (SuppressKind.Write h) => Suppressor.check_write s rel h
  | Observe rel SuppressKind.Delete => Suppressor.check_delete s rel
  | Sweep ttl => (Suppressor.sweep s now ttl, false)
  end.

(** A run: the final set and the calls that swallowed an event. *)
Fixpoint suppress_run (s : Suppressor) (cs : list (Z * SuppressCall))
  : Suppressor * list SuppressCall :=
  match cs with
  | [] => (s, [])
  | (now, c) :: cs =>
      let '(s, hit) := suppress_call s now c in
      let '(s, hits) := suppress_run s cs in
      (s, if hit then c :: hits else hits)
  end.

(** Registrations of outcome [k] at [rel]. *)
Fixpoint registered (rel : string) (k : SuppressKind) (cs : list (Z * SuppressCall)) : nat :=
  match cs with
  | [] => O
  | (_, c) :: cs => (if bool_decide (c = Register rel k) then S else id) (registered rel k cs)
  end.

(** Events of outcome [k] at [rel] that were swallowed. *)
Fixpoint swallowed (rel : string) (k : SuppressKind) (hits : list SuppressCall) : nat :=
  match hits with
  | [] => O
  | c :: hits => (if bool_decide (c = Observe rel k) then S else id) (swallowed rel k hits)
  end.

Definition pending (s : Suppressor) (rel : string) (k : SuppressKind) : nat :=
  match s !! rel with
  | Some e => if bool_decide (en_kind e = k) then 1%nat else O
  | None => O
  end.

Lemma observe_spec s now rel k :
  suppress_call s now (Observe rel k) =
  (if bool_decide (pending s rel k = 1%nat) then delete rel s else s,
   bool_decide (pending s rel k = 1%nat)).
Proof.
  unfold pending. destruct k as [h|]; simpl; unfold Suppressor.check_write, Suppressor.check_delete;
    destruct (s !! rel) as [[[h'|] at_]|]; simpl; try done.
  repeat case_bool_decide; congruence.
Qed.

Lemma pending_insert s rel e rel' k :
  pending (<[rel := e]> s) rel' k =
  if decide (rel' = rel) then (if bool_decide (en_kind e = k) then 1 else 0)%nat else pending s rel' k.
Proof.
  unfold pending. destruct (decide (rel' = rel)) as [->|Hne].
  - by rewrite lookup_insert_eq.
  - by rewrite lookup_insert_ne.
Qed.

Lemma pending_delete s rel rel' k :
  pending (delete rel s) rel' k = if decide (rel' = rel) then O else pending s rel' k.
Proof.
  unfold pending. destruct (decide (rel' = rel)) as [->|Hne].
  - by rewrite lookup_delete_eq.
  - by rewrite lookup_delete_ne.
Qed.

Lemma pending_le1 s rel k : (pending s rel k ≤ 1)%nat.
Proof. unfold pending. repeat case_match; lia. Qed.

Lemma pending_sweep s now ttl rel k : (pending (Suppressor.sweep s now ttl) rel k ≤ pending s rel k)%nat.
Proof.
  unfold pending, Suppressor.sweep.
  destruct (filter _ s !! rel) as [e|] eqn:He; [|lia].
  apply map_lookup_filter_Some in He as [-> _]. done.
Qed.

(** One call moves an outcome from registered to pending to swallowed, and
    never creates one. *)
Lemma suppress_call_balance s now c rel k :
  let '(s', hit) := suppress_call s now c in
  (pending s' rel k + (if hit then if bool_decide (c = Observe rel k) then 1 else 0 else 0)
   ≤ pending s rel k + if bool_decide (c = Register rel k) then 1 else 0)%nat.
Proof.
  destruct c as [rel' k'|rel' k'|ttl].
  - assert (Heq : suppress_call s now (Register rel' k') = (<[rel' := mkSuppressEntry k' now]> s, false))
      by by destruct k'.
    rewrite Heq, pending_insert. simpl.
    destruct (decide (rel = rel')) as [->|Hne]; [|lia].
    destruct (decide (k' = k)) as [->|Hk]; [rewrite !bool_decide_true by done; lia|].
    rewrite (bool_decide_false (k' = k)) by done. lia.
  - rewrite observe_spec. case_bool_decide as Hp; simpl; [|lia].
    rewrite pending_delete. destruct (decide (rel = rel')) as [->|Hne].
    + case_bool_decide as Hc; [|lia]. injection Hc as ->. lia.
    + rewrite bool_decide_false by congruence. lia.
  - simpl. pose proof (pending_sweep s now ttl rel k). lia.
Qed.

Lemma suppress_run_balance cs s rel k :
  let '(s', hits) := suppress_run s cs in
  (pending s' rel k + swallowed rel k hits ≤ pending s rel k + registered rel k cs)%nat.
Proof.
  revert s. induction cs as [|[now c] cs IH]; intros s; simpl; [lia|].
  pose proof (suppress_call_balance s now c rel k) as Hb.
  destruct (suppress_call s now c) as [s1 hit]. specialize (IH s1).
  destruct (suppress_run s1 cs) as [s' hits]. unfold id.
  destruct hit; simpl; repeat case_bool_decide; unfold id; lia.
Qed.

(** Calls that leave a pending entry alone: another path, an observation of a
    different outcome, a sweep before the entry has aged. *)
Definition leaves_alone (rel : string) (e : SuppressEntry) (nc : Z * SuppressCall) : Prop :=
  match nc.2 with
  | Register rel' _ => rel' ≠ rel
  | Observe rel' k => rel' = rel → k ≠ en_kind e
  | Sweep ttl => Z.max 0 (nc.1 - en_at e) < ttl
  end.

#[export] Instance leaves_alone_dec rel e nc : Decision (leaves_alone rel e nc).
Proof. unfold leaves_alone. destruct (nc.2); apply _. Defined.

Lemma suppress_call_keeps s rel e nc :
  s !! rel = Some e → leaves_alone rel e nc → (suppress_call s nc.1 nc.2).1 !! rel = Some e.
Proof.
  destruct nc as [now [rel' k|rel' k|ttl]]; unfold leaves_alone; simpl; intros He Hl.
  - destruct k; simpl; unfold Suppressor.register_write, Suppressor.register_delete;
      by rewrite lookup_insert_ne.
  - change (match k with SuppressKind.Write h => Suppressor.check_write s rel' h
      | SuppressKind.Delete => Suppressor.check_delete s rel' end) with (suppress_call s now (Observe rel' k)).
    rewrite observe_spec. simpl. case_bool_decide as Hp; [|done].
    rewrite lookup_delete_ne; [done|]. intros ->. specialize (Hl eq_refl).
    unfold pending in Hp. rewrite He, bool_decide_false in Hp by congruence. done.
  - unfold Suppressor.sweep. by apply map_lookup_filter_Some.
Qed.

Lemma suppress_run_keeps cs s rel e :
  s !! rel = Some e → Forall (leaves_alone rel e) cs → (suppress_run s cs).1 !! rel = Some e.
Proof.
  revert s. induction cs as [|[now c] cs IH]; intros s He Hf; simpl; [done|].
  apply Forall_cons in Hf as [Hc Hf].
  pose proof (suppress_call_keeps s rel e (now, c) He Hc) as H1. simpl in H1.
  destruct (suppress_call s now c) as [s1 hit]. specialize (IH s1 H1 Hf).
  by destruct (suppress_run s1 cs) as [s' hits].
Qed.

(** Suppression is single-shot and exact. Over any interleaving of
    calls, the events swallowed for an outcome at a path never outnumber its
    registrations, so no local change is masked for good; and a registered
    outcome is still swallowed when it is observed, whatever happened to
    other paths, whatever different outcomes were seen at this one and
    however many sweeps ran before the entry aged, and it is consumed by
    that. *)
Theorem suppress_exact (rel : string) (k : SuppressKind) (now now' : Z)
    (before between : list (Z * SuppressCall)) :
  Forall (leaves_alone rel (mkSuppressEntry k now)) between →
  let '(s1, hits) := suppress_run Suppressor.new before in
  (swallowed rel k hits ≤ registered rel k before)%nat ∧
  let s2 := (suppress_run (suppress_call s1 now (Register rel k)).1 between).1 in
  let '(s3, hit) := suppress_call s2 now' (Observe rel k) in
  hit = true ∧ (suppress_call s3 now' (Observe rel k)).2 = false ∧ s3 = delete rel s2.
Proof.
  intros Hf. pose proof (suppress_run_balance before Suppressor.new rel k) as Hb.
  destruct (suppress_run Suppressor.new before) as [s1 hits].
  assert (Hp0 : pending Suppressor.new rel k = O) by (unfold pending, Suppressor.new; by rewrite lookup_empty).
  split; [lia|]. intros s2.
  assert (Hs2 : s2 !! rel = Some (mkSuppressEntry k now)).
  { apply suppress_run_keeps; [|done]. destruct k; apply lookup_insert_eq. }
  assert (Hp : pending s2 rel k = 1%nat) by (unfold pending; by rewrite Hs2, bool_decide_true).
  rewrite observe_spec, Hp. simpl. split_and!; [done| |done].
  change (match k with SuppressKind.Write h => Suppressor.check_write (delete rel s2) rel h
    | SuppressKind.Delete => Suppressor.check_delete (delete rel s2) rel end)
    with (suppress_call (delete rel s2) now' (Observe rel k)).
  rewrite observe_spec, pending_delete. by rewrite decide_True.
Qed.

Lemma suppress_exact_witness :
  let k := SuppressKind.Write (fill 32 x01) in
  let s2 := (suppress_run (suppress_call Suppressor.new 5 (Register "a" k)).1
    [(6, Observe "a" SuppressKind.Delete); (7, Sweep 10); (8, Observe "b" k)]).1 in
  (suppress_call s2 9 (Observe "a" k)).2 = true.
Proof.
  pose proof (suppress_exact "a" (SuppressKind.Write (fill 32 x01)) 5 9 []
    [(6, Observe "a" SuppressKind.Delete); (7, Sweep 10);
     (8, Observe "b" (SuppressKind.Write (fill 32 x01)))]) as H.
  cbv zeta in *. cbn [suppress_run] in H |- *.
  destruct (suppress_call _ 9 _) as [s3 hit] eqn:E in H. rewrite E. apply H. vm_decide.
Defined.
