(* ===== verification/Join.v ===== *)
(** * Join lifecycle (src/src/join.rs)

    The tracker that moves a node from Joining through Syncing to Active, its
    persistence in the store's [meta] table and its restoration at startup.
    Each handler is a locked update of the tracker followed by an unlocked
    write of the new lifecycle, modelled as the two steps they are. *)

From S2P Require Import Prelude Vv Metadata State Oplog.

Definition META_LIFECYCLE : string := "join_lifecycle".

Module Lifecycle.
Inductive t : Type :=
| Joining
| Syncing
| Active.

Definition as_str (l : t) : string :=
  match l with
  | Joining => "joining"
  | Syncing => "syncing"
  | Active => "active"
  end.

Definition from_str (s : string) : option t :=
  if bool_decide (s = "joining") then Some Joining
  else if bool_decide (s = "syncing") then Some Syncing
  else if bool_decide (s = "active") then Some Active
  else None.
End Lifecycle.
Abbreviation Lifecycle := Lifecycle.t.

#[export] Instance lifecycle_eq_dec : EqDecision Lifecycle.
Proof. solve_decision. Defined.

(** [join::Inner] *)
Record JoinInner : Type := mkJoinInner {
  expected : gset NodeId;
  completed : gset NodeId;
  unreachable : gset NodeId;
  lifecycle : Lifecycle;
}.

(** The tracker: the locked state and the value on the watch channel. *)
Record JoinTracker : Type := mkJoinTracker {
  jt_inner : JoinInner;
  jt_state : Lifecycle;
}.

Module JoinTracker.
(** [Inner::recompute]: the new lifecycle when it changed; the same value is
    sent on the watch channel. *)
Definition recompute (t : JoinTracker) : JoinTracker * option Lifecycle :=
  let i := jt_inner t in
  if bool_decide (lifecycle i = Lifecycle.Active) then (t, None) else
  let all_settled :=
    forallb (λ p, bool_decide (p ∈ completed i) || bool_decide (p ∈ unreachable i))
      (elements (expected i)) in
  let next :=
    if bool_decide (expected i = ∅) || all_settled then Lifecycle.Active
    else if negb (bool_decide (completed i = ∅)) || negb (bool_decide (unreachable i = ∅))
    then Lifecycle.Syncing else Lifecycle.Joining in
  if bool_decide (next ≠ lifecycle i)
  then (mkJoinTracker (mkJoinInner (expected i) (completed i) (unreachable i) next) next, Some next)
  else (t, None).

Definition new (expected : list NodeId) : JoinTracker :=
  let expected := list_to_set expected in
  let initial := if bool_decide (expected = ∅) then Lifecycle.Active else Lifecycle.Joining in
  mkJoinTracker (mkJoinInner expected ∅ ∅ initial) initial.

(** [meta] is what the store answered to [get_meta]. *)
Definition restore (t : JoinTracker) (meta : result StoreError (option string)) : JoinTracker :=
  match meta with
  | Ok (Some s) =>
      if bool_decide (Lifecycle.from_str s = Some Lifecycle.Active) then
        let i := jt_inner t in
        mkJoinTracker (mkJoinInner (expected i) (completed i) (unreachable i) Lifecycle.Active)
          Lifecycle.Active
      else t
  | _ => t
  end.

(** The locked halves of the three handlers. *)
Definition gate_complete_locked (t : JoinTracker) (peer : NodeId) : JoinTracker * option Lifecycle :=
  let i := jt_inner t in
  recompute (mkJoinTracker
    (mkJoinInner (expected i) ({[peer]} ∪ completed i) (unreachable i ∖ {[peer]}) (lifecycle i))
    (jt_state t)).

Definition unreachable_locked (t : JoinTracker) (peer : NodeId) : JoinTracker * option Lifecycle :=
  let i := jt_inner t in
  if bool_decide (peer ∈ completed i) then (t, None) else
  recompute (mkJoinTracker
    (mkJoinInner (expected i) (completed i) ({[peer]} ∪ unreachable i) (lifecycle i))
    (jt_state t)).

Definition set_expected_locked (t : JoinTracker) (e : list NodeId) : JoinTracker * option Lifecycle :=
  let i := jt_inner t in
  recompute (mkJoinTracker
    (mkJoinInner (list_to_set e) (completed i) (unreachable i) (lifecycle i)) (jt_state t)).

(** The unlocked half: a best-effort write of the new value. *)
Definition persist (conn : Conn) (changed : option Lifecycle) : Conn :=
  match changed with
  | Some l => Oplog.set_meta conn META_LIFECYCLE (Lifecycle.as_str l)
  | None => conn
  end.

Definition note_gate_complete (t : JoinTracker) (conn : Conn) (peer : NodeId) : JoinTracker * Conn :=
  let '(t, changed) := gate_complete_locked t peer in (t, persist conn changed).
Definition note_unreachable (t : JoinTracker) (conn : Conn) (peer : NodeId) : JoinTracker * Conn :=
  let '(t, changed) := unreachable_locked t peer in (t, persist conn changed).
Definition set_expected (t : JoinTracker) (conn : Conn) (e : list NodeId) : JoinTracker * Conn :=
  let '(t, changed) := set_expected_locked t e in (t, persist conn changed).
End JoinTracker.
Import JoinTracker.

Inductive JoinEvent : Type :=
| GateComplete (peer : NodeId)
| Unreachable (peer : NodeId)
| SetExpected (e : list NodeId).

#[export] Instance join_event_eq_dec : EqDecision JoinEvent.
Proof. solve_decision. Defined.

Definition join_event (s : JoinTracker * Conn) (ev : JoinEvent) : JoinTracker * Conn :=
  match ev with
  | GateComplete p => note_gate_complete s.1 s.2 p
  | Unreachable p => note_unreachable s.1 s.2 p
  | SetExpected e => set_expected s.1 s.2 e
  end.

Definition join_run (s : JoinTracker * Conn) (evs : list JoinEvent) : JoinTracker * Conn :=
  foldl join_event s evs.

(** ** The promotion rule, stated on the history of events *)

(** The peers expected after [evs]. *)
Definition expected_after (e : list NodeId) (evs : list JoinEvent) : list NodeId :=
  foldl (λ e ev, match ev with SetExpected e' => e' | _ => e end) e evs.

(** A peer is settled once its gate completed or it was found unreachable. *)
Definition settled (evs : list JoinEvent) (p : NodeId) : Prop :=
  GateComplete p ∈ evs ∨ Unreachable p ∈ evs.

Definition all_settled (e : list NodeId) (evs : list JoinEvent) : Prop :=
  Forall (settled evs) (expected_after e evs).

#[export] Instance settled_dec evs p : base.Decision (settled evs p).
Proof. unfold settled. apply _. Defined.
#[export] Instance all_settled_dec e evs : base.Decision (all_settled e evs).
Proof. unfold all_settled. apply _. Defined.

(** Promoted: every peer expected at some moment was settled at it. *)
Definition promoted (e : list NodeId) (evs : list JoinEvent) : Prop :=
  ∃ evs1 evs2, evs = evs1 ++ evs2 ∧ all_settled e evs1.

(** What the tracker holds after [evs]. *)
Record tracks (e : list NodeId) (evs : list JoinEvent) (t : JoinTracker) : Prop := {
  tr_expected : ∀ p, p ∈ expected (jt_inner t) ↔ p ∈ expected_after e evs;
  tr_completed : ∀ p, p ∈ completed (jt_inner t) ↔ GateComplete p ∈ evs;
  tr_settled : ∀ p, p ∈ completed (jt_inner t) ∪ unreachable (jt_inner t) ↔ settled evs p;
  tr_state : jt_state t = lifecycle (jt_inner t);
  tr_active : lifecycle (jt_inner t) = Lifecycle.Active ↔ promoted e evs;
  tr_joining : lifecycle (jt_inner t) = Lifecycle.Joining ↔
    ¬ promoted e evs ∧ ∀ p, ¬ settled evs p;
}.

Lemma promoted_snoc e evs ev : promoted e (evs ++ [ev]) ↔ promoted e evs ∨ all_settled e (evs ++ [ev]).
Proof.
  split.
  - intros (evs1 & evs2 & Heq & Hs). destruct evs2 as [|x evs2 _] using rev_ind.
    + right. rewrite app_nil_r in Heq. by rewrite Heq.
    + left. rewrite app_assoc in Heq. apply app_inj_tail in Heq as [-> _]. by exists evs1, evs2.
  - intros [(evs1 & evs2 & -> & Hs)|Hs].
    + exists evs1, (evs2 ++ [ev]). by rewrite app_assoc.
    + exists (evs ++ [ev]), []. by rewrite app_nil_r.
Qed.

Lemma settled_snoc evs ev p :
  settled (evs ++ [ev]) p ↔ settled evs p ∨ ev = GateComplete p ∨ ev = Unreachable p.
Proof. unfold settled. set_solver. Qed.

Lemma expected_after_snoc e evs ev :
  expected_after e (evs ++ [ev]) = match ev with SetExpected e' => e' | _ => expected_after e evs end.
Proof. unfold expected_after. by rewrite foldl_app. Qed.

(** [recompute] reads the gate sets the way the rule reads the history. *)
Lemma recompute_tracks e evs ev i st :
  (∀ p, p ∈ expected i ↔ p ∈ expected_after e (evs ++ [ev])) →
  (∀ p, p ∈ completed i ↔ GateComplete p ∈ evs ++ [ev]) →
  (∀ p, p ∈ completed i ∪ unreachable i ↔ settled (evs ++ [ev]) p) →
  st = lifecycle i →
  (lifecycle i = Lifecycle.Active ↔ promoted e evs) →
  tracks e (evs ++ [ev]) (recompute (mkJoinTracker i st)).1.
Proof.
  intros He Hc Hu -> Ha. unfold recompute. simpl.
  assert (Hall : expected i = ∅ ∨ Forall (λ p, p ∈ completed i ∨ p ∈ unreachable i) (elements (expected i))
                 ↔ all_settled e (evs ++ [ev])).
  { unfold all_settled. rewrite !Forall_forall. setoid_rewrite elem_of_elements. setoid_rewrite He.
    setoid_rewrite <- Hu. setoid_rewrite elem_of_union. split; [|by right].
    intros [H0|H]; [|done]. intros p Hp. apply He in Hp. set_solver. }
  assert (Hsome : completed i = ∅ ∧ unreachable i = ∅ ↔ ∀ p, ¬ settled (evs ++ [ev]) p).
  { setoid_rewrite <- Hu. set_solver. }
  assert (Hfb : forallb (λ p, bool_decide (p ∈ completed i) || bool_decide (p ∈ unreachable i))
                  (elements (expected i)) = true ↔
                Forall (λ p, p ∈ completed i ∨ p ∈ unreachable i) (elements (expected i))).
  { rewrite <- Is_true_true, forallb_True. apply Forall_iff. intros p.
    by rewrite orb_True, !bool_decide_spec. }
  case_bool_decide as Hact; simpl.
  { split; simpl; try done; rewrite promoted_snoc, <- Ha, Hact; naive_solver. }
  set (next := if _ || _ then _ else _).
  assert (Hna : ¬ promoted e evs) by (by rewrite <- Ha).
  assert (Hnext : (next = Lifecycle.Active ↔ promoted e (evs ++ [ev])) ∧
    (next = Lifecycle.Joining ↔ ¬ promoted e (evs ++ [ev]) ∧ ∀ p, ¬ settled (evs ++ [ev]) p)).
  { rewrite promoted_snoc, <- Hall, <- Hsome, <- Hfb. subst next. clear -Hna.
    destruct (forallb _ _); repeat case_bool_decide; simpl; naive_solver. }
  case_bool_decide as Hne; simpl.
  - destruct Hnext. by split.
  - rewrite Hne in Hnext. destruct Hnext. by split.
Qed.

Lemma new_tracks e : tracks e [] (new e).
Proof.
  assert (Hp : promoted e [] ↔ e = []).
  { split.
    - intros (evs1 & evs2 & Heq & Hs). symmetry in Heq. apply app_nil in Heq as [-> ->].
      unfold all_settled, expected_after in Hs. simpl in Hs. destruct e as [|p e]; [done|].
      apply Forall_cons in Hs as [[Hs|Hs] _]; by apply not_elem_of_nil in Hs.
    - intros ->. exists [], []. split; [done|apply Forall_nil; done]. }
  assert (He : list_to_set (C := gset NodeId) e = ∅ ↔ e = []) by (destruct e; set_solver).
  unfold new. split; simpl.
  - intros p. by rewrite elem_of_list_to_set.
  - intros p. by rewrite elem_of_empty, elem_of_nil.
  - intros p. unfold settled. by rewrite elem_of_union, !elem_of_empty, !elem_of_nil.
  - done.
  - rewrite Hp, <- He. by case_bool_decide.
  - rewrite Hp, <- He. unfold settled. setoid_rewrite elem_of_nil. case_bool_decide; naive_solver.
Qed.

(** Every handler keeps the tracker in step with the history. *)
Lemma join_event_tracks e evs ev s : tracks e evs s.1 → tracks e (evs ++ [ev]) (join_event s ev).1.
Proof.
  destruct s as [t conn]. intros [He Hc Hu Hst Ha Hj].
  assert (Hfst : ∀ r : JoinTracker * option Lifecycle,
    (let '(t, changed) := r in (t, persist conn changed)).1 = r.1) by by intros [].
  destruct ev as [p|p|e']; simpl in *;
    unfold note_gate_complete, note_unreachable, set_expected; rewrite Hfst.
  - apply recompute_tracks; simpl; try done; rewrite ?expected_after_snoc; try done.
    + set_solver.
    + intros q. rewrite settled_snoc, <- Hu. destruct (decide (q = p)); set_solver.
  - unfold unreachable_locked. case_bool_decide as Hin; simpl.
    + assert (Hs : ∀ q, settled (evs ++ [Unreachable p]) q ↔ settled evs q).
      { intros q. rewrite settled_snoc, <- Hu. destruct (decide (q = p)); set_solver. }
      assert (Hp : promoted e (evs ++ [Unreachable p]) ↔ promoted e evs).
      { rewrite promoted_snoc. split; [|by left]. intros [?|Hall]; [done|].
        exists evs, []. rewrite app_nil_r. split; [done|]. unfold all_settled in *.
        rewrite expected_after_snoc in Hall. by apply (Forall_impl _ _ _ Hall), Hs. }
      split; simpl; rewrite ?expected_after_snoc, ?Hp; try setoid_rewrite Hs; try done; set_solver.
    + apply recompute_tracks; simpl; try done; rewrite ?expected_after_snoc; try done.
      * set_solver.
      * intros q. rewrite settled_snoc, <- Hu. set_solver.
  - apply recompute_tracks; simpl; try done; rewrite ?expected_after_snoc; try done.
    + set_solver.
    + set_solver.
    + intros q. rewrite settled_snoc, <- Hu. set_solver.
Qed.

Lemma join_run_tracks e evs conn : tracks e evs (join_run (new e, conn) evs).1.
Proof.
  induction evs as [|ev evs IH] using rev_ind; [apply new_tracks|].
  unfold join_run. rewrite foldl_app. simpl. by apply join_event_tracks.
Qed.

(** ** Persistence *)

Lemma from_as_str l : Lifecycle.from_str (Lifecycle.as_str l) = Some l.
Proof. by destruct l. Qed.

(** The store remembers an Active node, and only an Active node, as such. *)
Definition remembered (s : JoinTracker * Conn) : Prop :=
  Oplog.get_meta s.2 META_LIFECYCLE = Some "active" ↔ lifecycle (jt_inner s.1) = Lifecycle.Active.

Lemma persist_remembered (r : JoinTracker * option Lifecycle) (t : JoinTracker) (conn : Conn) :
  match r.2 with
  | Some l => l = lifecycle (jt_inner r.1)
  | None => lifecycle (jt_inner r.1) = lifecycle (jt_inner t)
  end →
  remembered (t, conn) → remembered (let '(t', changed) := r in (t', persist conn changed)).
Proof.
  destruct r as [t' [l|]]; unfold remembered; simpl; [|by intros ->]. intros -> _.
  unfold Oplog.get_meta, Oplog.set_meta. simpl. rewrite lookup_insert_eq.
  by destruct (lifecycle (jt_inner t')).
Qed.

Lemma recompute_changed t t0 :
  lifecycle (jt_inner t) = lifecycle (jt_inner t0) →
  match (recompute t).2 with
  | Some l => l = lifecycle (jt_inner (recompute t).1)
  | None => lifecycle (jt_inner (recompute t).1) = lifecycle (jt_inner t0)
  end.
Proof. unfold recompute. repeat case_bool_decide; done. Qed.

Lemma join_event_remembered s ev : remembered s → remembered (join_event s ev).
Proof.
  destruct s as [t conn]. intros Hr. destruct ev as [p|p|e]; simpl.
  - apply (persist_remembered _ t); [|done]. by apply recompute_changed.
  - apply (persist_remembered _ t); [|done]. unfold unreachable_locked. case_bool_decide; [done|].
    by apply recompute_changed.
  - apply (persist_remembered _ t); [|done]. by apply recompute_changed.
Qed.

Lemma join_run_remembered s evs : remembered s → remembered (join_run s evs).
Proof.
  revert s. induction evs as [|ev evs IH]; intros s Hr; [done|]. by apply IH, join_event_remembered.
Qed.

(** ** The rule in terms of the latest reports *)

(** The latest report about a peer. *)
Definition last_report (evs : list JoinEvent) (p : NodeId) : option JoinEvent :=
  last (filter (λ ev, ev = GateComplete p ∨ ev = Unreachable p) evs).

(** The gate has completed, or the peer is unreachable by the latest report
    about it. *)
Definition settled_now (evs : list JoinEvent) (p : NodeId) : Prop :=
  GateComplete p ∈ evs ∨ last_report evs p = Some (Unreachable p).

Lemma settled_now_iff evs p : settled_now evs p ↔ settled evs p.
Proof.
  unfold settled_now, settled, last_report. split.
  - intros [Hg|Hl]; [by left|]. apply last_Some_elem_of, list_elem_of_filter in Hl as [_ Hl]. by right.
  - intros [Hg|Hu]; [by left|]. destruct (decide (GateComplete p ∈ evs)) as [|Hng]; [by left|right].
    set (f := filter _ evs). assert (Hin : Unreachable p ∈ f) by (apply list_elem_of_filter; naive_solver).
    destruct (last f) as [x|] eqn:Hl; [|apply last_None in Hl; rewrite Hl in Hin; by apply not_elem_of_nil in Hin].
    apply last_Some_elem_of, list_elem_of_filter in Hl as [[->| ->] Hx]; [by destruct Hng|done].
Qed.

(** At some moment every peer expected at it was settled, by the reports up to
    then. *)
Definition was_settled (e : list NodeId) (evs : list JoinEvent) : Prop :=
  ∃ evs1 evs2, evs = evs1 ++ evs2 ∧ Forall (settled_now evs1) (expected_after e evs1).

Lemma was_settled_iff e evs : was_settled e evs ↔ promoted e evs.
Proof.
  unfold was_settled, promoted, all_settled. split; intros (evs1 & evs2 & -> & Hs); exists evs1, evs2; (split; [done|]);
    eapply Forall_impl; try exact Hs; intros p; by rewrite settled_now_iff.
Qed.

(** C40: The promotion rule, on histories. Whatever the order of gate
    completions, unreachable reports and membership changes, a node that
    started with peers to expect is Active exactly when at some moment every
    peer expected at that moment had completed its gate or was unreachable by
    the latest report about it (so promotion is monotonic, and a gate that
    completes withdraws the report). Before that it is Syncing once some
    peer's gate has completed, and a node that is Joining has completed none; a history
    without unreachable reports is Joining exactly until the first gate
    completes (with such reports the node leaves Joining early:
    [unreachable_alone_is_syncing]). The watch channel always carries the
    tracker's value; and when the handlers' writes land in order, a restart
    comes back Active exactly if the node was. *)
Theorem join_lifecycle_exact (e : list NodeId) (evs : list JoinEvent) (conn : Conn)
    (e' : list NodeId) :
  e ≠ [] → e' ≠ [] → Oplog.get_meta conn META_LIFECYCLE ≠ Some "active" →
  let s := join_run (new e, conn) evs in
  let l := lifecycle (jt_inner s.1) in
  (l = Lifecycle.Active ↔ was_settled e evs) ∧
  (¬ was_settled e evs → (∃ p, GateComplete p ∈ evs) → l = Lifecycle.Syncing) ∧
  (l = Lifecycle.Joining → ∀ p, GateComplete p ∉ evs) ∧
  ((∀ p, Unreachable p ∉ evs) → l = Lifecycle.Joining ↔ ¬ was_settled e evs ∧ ∀ p, GateComplete p ∉ evs) ∧
  jt_state s.1 = l ∧
  (jt_state (restore (new e') (Ok (Oplog.get_meta s.2 META_LIFECYCLE))) = Lifecycle.Active ↔ l = Lifecycle.Active).
Proof.
  intros He He' Hm s l. destruct (join_run_tracks e evs conn) as [_ _ _ Hst Ha Hj].
  rewrite was_settled_iff. fold s l in Hst, Ha, Hj. unfold settled in Hj.
  split_and!; [done| | | |done|].
  { intros Hn [p Hp]. destruct l; [|done|naive_solver]. destruct (proj1 Hj eq_refl) as [_ Hno]. destruct (Hno p). by left. }
  { intros Hl p Hp. destruct (proj1 Hj Hl) as [_ Hno]. destruct (Hno p). by left. }
  { intros Hu. rewrite Hj. naive_solver. }
  assert (Hnew : ∀ e, e ≠ [] → jt_state (new e) = Lifecycle.Joining ∧
    lifecycle (jt_inner (new e)) = Lifecycle.Joining).
  { intros e0 He0. unfold new. simpl. destruct e0 as [|p e0]; [done|].
    rewrite bool_decide_false; [done|]. set_solver. }
  assert (Hr : remembered s).
  { apply join_run_remembered. unfold remembered. cbn [fst snd]. by rewrite (proj2 (Hnew e He)). }
  unfold remembered in Hr. fold s l in Hr |- *. rewrite <- Hr. unfold restore.
  destruct (Oplog.get_meta s.2 META_LIFECYCLE) as [m|]; [|by rewrite (proj1 (Hnew e' He'))].
  case_bool_decide as Hs.
  - simpl. split; [|done]. intros _. f_equal. unfold Lifecycle.from_str in Hs.
    repeat case_bool_decide; by simplify_eq.
  - rewrite (proj1 (Hnew e' He')). split; [done|]. intros [= ->]. by destruct Hs.
Qed.

(** ** Witness and limits *)

Module JoinEx.
Definition peer_a : NodeId := fill 16 x0a.
Definition peer_b : NodeId := fill 16 x0b.
Definition conn0 : Conn := mkConn [] ∅ ∅ ∅ ∅ ∅ ∅ ∅.
End JoinEx.
Import JoinEx.

Lemma join_lifecycle_exact_witness :
  jt_state (restore (new [peer_b]) (Ok (Oplog.get_meta
    (join_run (new [peer_a; peer_b], conn0) [Unreachable peer_a; GateComplete peer_a; Unreachable peer_b]).2 META_LIFECYCLE)))
  = Lifecycle.Active.
Proof.
  destruct (join_lifecycle_exact [peer_a; peer_b] [Unreachable peer_a; GateComplete peer_a; Unreachable peer_b] conn0 [peer_b])
    as (Hact & _ & _ & _ & _ & Hre).
  - done.
  - done.
  - done.
  - apply Hre, Hact. exists [Unreachable peer_a; GateComplete peer_a; Unreachable peer_b], []. split; [done|].
    constructor; [left; vm_decide|]. constructor; [right; vm_decide|constructor].
Defined.

(** The lifecycle is written after the lock is released: when two handlers'
    writes land in the opposite order, an Active node is remembered as
    Syncing and a restart starts it over as Joining. *)
Theorem reordered_persist_forgets_active :
  let '(t1, c1) := gate_complete_locked (new [peer_a; peer_b]) peer_a in
  let '(t2, c2) := gate_complete_locked t1 peer_b in
  jt_state t2 = Lifecycle.Active ∧
  jt_state (restore (new [peer_a; peer_b])
    (Ok (Oplog.get_meta (persist (persist conn0 c2) c1) META_LIFECYCLE))) = Lifecycle.Joining.
Proof. vm_compute. done. Qed.

(** A node that has only found a peer unreachable already reports Syncing. *)
Theorem unreachable_alone_is_syncing :
  jt_state (note_unreachable (new [peer_a; peer_b]) conn0 peer_a).1 = Lifecycle.Syncing.
Proof. vm_decide. Qed.
