(* ===== verification/Merkle.v ===== *)
(** * Anti-entropy trees (src/src/merkle.rs, and the paging of src/src/net.rs)

    The prefix tree over the index with bottom-up directory hashes, the paged
    listing of a directory as the responder serves it and the puller reads it,
    and the pull's descent into differing subtrees. The handling of one
    differing leaf is an argument of the descent. *)

From Stdlib Require Import Ascii.
From S2P Require Import Prelude Vv Metadata Conflict.

Abbreviation Children := (gmap string (hash32 * bool)).

(** The bytes [str::as_bytes] hands to the hasher for a [bool]. *)
Definition bool_byte (b : bool) : byte := if b then x01 else x00.

(** [str::rsplit_once('/')] *)
Fixpoint rsplit_slash (s : string) : option (string * string) :=
  match s with
  | EmptyString => None
  | String c s =>
      match rsplit_slash s with
      | Some (a, b) => Some (String c a, b)
      | None => if bool_decide (c = "/"%char) then Some (EmptyString, s) else None
      end
  end.

Definition split_parent (path : string) : string * string :=
  default (EmptyString, path) (rsplit_slash path).

Definition join_prefix (prefix name : string) : string :=
  if bool_decide (prefix = EmptyString) then name else prefix +:+ "/" +:+ name.

Record MerkleTree : Type := mkMerkleTree {
  mt_dirs : gmap string Children;
  mt_leaves : gmap string FileRow;
  mt_root : hash32;
}.

(** [proto::WireChild] *)
Record WireChild : Type := mkWireChild {
  wc_name : string;
  wc_hash : hash32;
  wc_is_dir : bool;
}.

#[export] Instance wire_child_eq_dec : EqDecision WireChild.
Proof. solve_decision. Defined.

Section leaf_hash.
Context `{!Blake3, !Bincode}.

(** The bytes [leaf_hash] feeds to the hasher. *)
Definition leaf_bytes (row : FileRow) : list byte :=
  str_bytes (fr_path row) ++ [x00] ++ [bool_byte (fr_tombstone row)]
  ++ ba_list (default (zeros 32) (fr_content_hash row))
  ++ ba_list (default (zeros 16) (fr_uuid row))
  ++ ba_list (Meta.hash_of (fr_meta row))
  ++ ser_vv (fr_vv row).

Definition leaf_hash (row : FileRow) : hash32 := blake3 (leaf_bytes row).

(** The bytes [hash_children] feeds to the hasher, in the map's order. *)
Definition child_bytes (p : string * (hash32 * bool)) : list byte :=
  str_bytes p.1 ++ [x01; bool_byte p.2.2] ++ ba_list p.2.1.

Definition children_bytes (children : Children) : list byte :=
  concat (child_bytes <$> btree_iter children).
End leaf_hash.

Module MerkleTree.
Section with_externals.
Context `{!Blake3, !Bincode}.

Definition hash_children (children : Children) : hash32 := blake3 (children_bytes children).

(** [dirs.entry(dir).or_default()] *)
Definition dir_entry (dirs : gmap string Children) (dir : string) : Children :=
  default ∅ (dirs !! dir).

(** One turn of the ancestor loop: the placeholder for [dir] in its parent. *)
Definition mark_dir (dirs : gmap string Children) (dir : string) : gmap string Children :=
  let '(up, name) := split_parent dir in
  let c := dir_entry dirs up in
  <[up := <[name := ((default (zeros 32, true) (c !! name)).1, true)]> c]> dirs.

(** The ancestor loop; every turn shortens [dir], so its length is fuel
    enough. *)
Fixpoint mark_ancestors (fuel : nat) (dirs : gmap string Children) (dir : string)
  : gmap string Children :=
  match fuel with
  | O => dirs
  | S fuel =>
      if bool_decide (dir = EmptyString) then dirs
      else mark_ancestors fuel (mark_dir dirs dir) (split_parent dir).1
  end.

(** The first loop's body. *)
Definition add_row (dirs : gmap string Children) (row : FileRow) : gmap string Children :=
  let '(parent, name) := split_parent (fr_path row) in
  let dirs := <[parent := <[name := (leaf_hash row, false)]> (dir_entry dirs parent)]> dirs in
  mark_ancestors (String.length parent) dirs parent.

(** The second loop's body, for a prefix other than the root. *)
Definition hash_up (dirs : gmap string Children) (prefix : string) : gmap string Children :=
  if bool_decide (prefix = EmptyString) then dirs else
  let hash := hash_children (dir_entry dirs prefix) in
  let '(up, name) := split_parent prefix in
  match dirs !! up with
  | Some c =>
      match c !! name with
      | Some (_, is_dir) => <[up := <[name := (hash, is_dir)]> c]> dirs
      | None => dirs
      end
  | None => dirs
  end.

(** Index rows into the tree; the prefixes are visited in descending order,
    the root last. *)
Definition build (rows : list FileRow) : MerkleTree :=
  let dirs := foldl add_row {[ EmptyString := ∅ ]} rows in
  let leaves := foldl (λ m row, <[fr_path row := row]> m) ∅ rows in
  let dirs := foldl hash_up dirs (reverse (btree_keys dirs)) in
  mkMerkleTree dirs leaves (hash_children (dir_entry dirs EmptyString)).

Definition leaf (t : MerkleTree) (path : string) : option FileRow := mt_leaves t !! path.
Definition children (t : MerkleTree) (prefix : string) : option Children := mt_dirs t !! prefix.

(** [BTreeMap::range((Excluded(after), Unbounded))] *)
Definition range_after (c : Children) (after : string) : list (string * (hash32 * bool)) :=
  filter (λ p, ¬ ord_le p.1 after) (btree_iter c).

Definition wire_child (p : string * (hash32 * bool)) : WireChild :=
  mkWireChild p.1 p.2.1 p.2.2.

(** The loop filling a page: the page, and whether the iterator has more. *)
Fixpoint page_loop (limit : nat) (l : list (string * (hash32 * bool))) : list WireChild * bool :=
  match limit with
  | O => ([], match l with [] => false | _ :: _ => true end)
  | S limit =>
      match l with
      | [] => ([], false)
      | p :: l => let '(page, more) := page_loop limit l in (wire_child p :: page, more)
      end
  end.

Definition children_page (t : MerkleTree) (prefix after_name : string) (limit : nat)
  : list WireChild * bool :=
  match mt_dirs t !! prefix with
  | None => ([], false)
  | Some c =>
      page_loop limit (range_after c after_name)
  end.
End with_externals.
End MerkleTree.

(** ** Paged listings *)

Definition TREE_PAGE : Z := 512.

(** The responder's answer to a [TreeReq] ([serve_reconcile]). *)
Definition serve_tree_req `{!Blake3, !Bincode} (t : MerkleTree) (prefix after_name : string)
    (limit : Z) : list WireChild * bool :=
  MerkleTree.children_page t prefix after_name (Z.to_nat (Z.min limit TREE_PAGE)).

(** The listing's byte budget. *)
Definition LISTING_BUDGET : Z := 32 * 1024 * 1024.

(** The per-child checks of a received page: the remaining budget, or the
    violation. *)
Fixpoint charge_page (budget : Z) (page : list WireChild) : result string Z :=
  match page with
  | [] => Ok budget
  | c :: page =>
      let n := Z.of_nat (String.length (wc_name c)) in
      if bool_decide (n = 0 ∨ 255 < n) then Err "child name out of bounds"
      else if bool_decide (budget < n + 33) then Err "directory listing exceeds budget"
      else charge_page (budget - (n + 33)) page
  end.

(** [QuicReconcile::children] against any responder: [answer i after] is what
    the [i]-th request gets back, [None] a frame that is not a [TreeResp].
    The outer option is [None] when the fuel ran out. *)
Fixpoint children_loop (fuel : nat) (answer : nat → string → option (list WireChild * bool))
    (i : nat) (after : string) (budget : Z) (out : list WireChild)
  : option (result string (list WireChild)) :=
  match fuel with
  | O => None
  | S fuel =>
      match answer i after with
      | None => Some (Err "expected TreeResp")
      | Some (page, more) =>
          if bool_decide (TREE_PAGE < as_u32 (Z.of_nat (length page)))
          then Some (Err "oversized tree page")
          else if more && bool_decide (page = []) then Some (Err "empty page with more=true")
          else
            match charge_page budget page with
            | Err e => Some (Err e)
            | Ok budget =>
                let after := match last page with Some c => wc_name c | None => after end in
                let out := out ++ page in
                if more then children_loop fuel answer (S i) after budget out
                else Some (Ok out)
            end
      end
  end.

(** Every turn but the last spends at least 34 bytes of the budget. *)
Definition LISTING_FUEL : nat := Z.to_nat (LISTING_BUDGET / 34 + 2).

(** ** The pull *)

(** [merkle::ReconcileReport] *)
Record ReconcileReport : Type := mkReconcileReport {
  tree_reqs : Z;
  leaves_compared : Z;
  applied : Z;
  resolved_conflicts : Z;
  skipped_concurrent : Z;
  skipped_damaged : Z;
}.
Definition report0 : ReconcileReport := mkReconcileReport 0 0 0 0 0 0.
Definition count_req (r : ReconcileReport) : ReconcileReport :=
  mkReconcileReport (u64_add (tree_reqs r) 1) (leaves_compared r) (applied r)
    (resolved_conflicts r) (skipped_concurrent r) (skipped_damaged r).

(** What the descent calls: the session transport and the leaf handler, over
    the state [S] the session owns. *)
Record Session (S E : Type) : Type := mkSession {
  se_root : S → result E (S * hash32);
  se_children : S → string → result E (S * list WireChild);
  se_handle_leaf : S → ReconcileReport → string → result E (S * ReconcileReport);
}.
Arguments se_root {_ _}. Arguments se_children {_ _}. Arguments se_handle_leaf {_ _}.
Arguments mkSession {_ _}.

Section pull.
Context `{!Blake3, !Bincode} {S E : Type} (se : Session S E) (local : MerkleTree).

(** The inner loop over one listing; [queue] has its top first. *)
Fixpoint pull_children (prefix : string) (local_children : Children) (cs : list WireChild)
    (queue : list string) (s : S) (report : ReconcileReport)
  : result E (list string * S * ReconcileReport) :=
  match cs with
  | [] => Ok (queue, s, report)
  | c :: cs =>
      let path := join_prefix prefix (wc_name c) in
      let descend :=
        if wc_is_dir c then pull_children prefix local_children cs (path :: queue) s report
        else
          match se_handle_leaf se s report path with
          | Err e => Err e
          | Ok (s, report) => pull_children prefix local_children cs queue s report
          end in
      match local_children !! wc_name c with
      | Some (local_hash, _) =>
          if bool_decide (local_hash = wc_hash c)
          then pull_children prefix local_children cs queue s report else descend
      | None => descend
      end
  end.

Fixpoint pull_loop (fuel : nat) (queue : list string) (s : S) (report : ReconcileReport)
  : option (result E (S * ReconcileReport)) :=
  match queue with
  | [] => Some (Ok (s, report))
  | prefix :: queue =>
      match fuel with
      | O => None
      | Datatypes.S fuel =>
          let report := count_req report in
          match se_children se s prefix with
          | Err e => Some (Err e)
          | Ok (s, cs) =>
              let local_children := default ∅ (MerkleTree.children local prefix) in
              match pull_children prefix local_children cs queue s report with
              | Err e => Some (Err e)
              | Ok (queue, s, report) => pull_loop fuel queue s report
              end
          end
      end
  end.

Definition reconcile_pull (fuel : nat) (s : S) : option (result E (S * ReconcileReport)) :=
  match se_root se s with
  | Err e => Some (Err e)
  | Ok (s, remote_root) =>
      if bool_decide (remote_root = mt_root local) then Some (Ok (s, report0))
      else pull_loop fuel [EmptyString] s report0
  end.
End pull.
