(* ===== verification/MerkleProofs.v ===== *)
(** * Anti-entropy: the tree determines the rows, the descent finds them *)

From Stdlib Require Import Ascii.
From S2P Require Import Prelude Vv Metadata Conflict Merkle.
Import MerkleTree.

(** ** Paths *)

Definition parent (q : string) : string := (split_parent q).1.
Definition fname (q : string) : string := (split_parent q).2.

(** A share-relative path: not empty, no leading slash. *)
Definition path_ok (q : string) : Prop :=
  match q with EmptyString => False | String c _ => c ≠ "/"%char end.

#[export] Instance path_ok_dec q : Decision (path_ok q).
Proof. destruct q; simpl; apply _. Defined.

Lemma rsplit_join p n : rsplit_slash n = None → rsplit_slash (p +:+ "/" +:+ n) = Some (p, n).
Proof.
  intros Hn. induction p as [|c p IH]; simpl.
  - change (EmptyString +:+ n) with n. by rewrite Hn.
  - by rewrite IH.
Qed.

Lemma rsplit_some s a b :
  rsplit_slash s = Some (a, b) → s = a +:+ "/" +:+ b ∧ rsplit_slash b = None.
Proof.
  revert a. induction s as [|c s IH]; intros a Hs; [done|]. simpl in Hs.
  destruct (rsplit_slash s) as [[a' b']|] eqn:E; simplify_eq/=.
  - destruct (IH a' eq_refl) as [-> Hb]. done.
  - case_bool_decide; simplify_eq/=. done.
Qed.

Lemma split_join p n : rsplit_slash n = None → split_parent (join_prefix p n) = (p, n).
Proof.
  intros Hn. unfold split_parent, join_prefix. case_bool_decide as Hp.
  - by rewrite Hn, Hp.
  - by rewrite rsplit_join.
Qed.

(** What splitting a share-relative path gives. *)
Lemma split_spec q :
  path_ok q →
  rsplit_slash (fname q) = None ∧ join_prefix (parent q) (fname q) = q ∧
  (parent q = EmptyString ∨ path_ok (parent q)) ∧
  (String.length (parent q) < String.length q)%nat.
Proof.
  intros Hq. unfold parent, fname, split_parent, join_prefix.
  destruct (rsplit_slash q) as [[a b]|] eqn:E; simpl.
  - apply rsplit_some in E as [-> Hb]. destruct a as [|c a]; [by destruct Hq|].
    split_and!; [done|done|by right|]. rewrite !string_length_app. simpl. lia.
  - split_and!; [done|done|by left|]. destruct q; [done|simpl; lia].
Qed.

Lemma parent_short q : path_ok q → (String.length (parent q) < String.length q)%nat.
Proof. apply split_spec. Qed.
Lemma parent_ok q : path_ok q → parent q = EmptyString ∨ path_ok (parent q).
Proof. apply split_spec. Qed.
Lemma join_parent q : path_ok q → join_prefix (parent q) (fname q) = q.
Proof. apply split_spec. Qed.
Lemma fname_noslash q : path_ok q → rsplit_slash (fname q) = None.
Proof. apply split_spec. Qed.

Lemma path_eq q q' : path_ok q → path_ok q' → parent q = parent q' → fname q = fname q' → q = q'.
Proof. intros H H' Hp Hn. rewrite <- (join_parent q H), <- (join_parent q' H'). congruence. Qed.

Lemma str_bytes_app s t : str_bytes (s +:+ t) = str_bytes s ++ str_bytes t.
Proof.
  unfold str_bytes, String.list_byte_of_string. induction s as [|c s IH]; [done|].
  change (String c s +:+ t) with (String c (s +:+ t)). simpl. by rewrite IH.
Qed.

Lemma list_cmp_prefix {A} `{!Ord A, !OrdLaws A} (l : list A) x k : list_cmp l (l ++ x :: k) = Lt.
Proof. induction l as [|y l IH]; simpl; [done|]. by rewrite cmp_refl. Qed.

(** A directory sorts before everything below it. *)
Lemma parent_lt q : path_ok q → ord_lt (parent q) q.
Proof.
  intros Hq. unfold ord_lt, cmp, string_ord.
  assert (Hp : ∃ x k, str_bytes q = str_bytes (parent q) ++ x :: k).
  { pose proof (join_parent q Hq) as Hj. unfold join_prefix in Hj. case_bool_decide as Hp.
    - rewrite Hp. destruct q as [|c q]; [done|]. unfold str_bytes. simpl. eauto.
    - exists x2f, (str_bytes (fname q)). rewrite <- Hj at 1. by rewrite !str_bytes_app. }
  destruct Hp as (x & k & ->). apply list_cmp_prefix.
Qed.

(** The proper directories above a path, nearest first, the root left out:
    the turns of the ancestor loop. *)
Fixpoint chain (fuel : nat) (dir : string) : list string :=
  match fuel with
  | O => []
  | S fuel => if bool_decide (dir = EmptyString) then [] else dir :: chain fuel (parent dir)
  end.
Definition ancestors (q : string) : list string := chain (String.length (parent q)) (parent q).

Lemma chain_fuel n m d :
  d = EmptyString ∨ path_ok d → (String.length d ≤ n)%nat → (String.length d ≤ m)%nat →
  chain n d = chain m d.
Proof.
  revert m d. induction n as [|n IH]; intros m d Hd Hn Hm.
  - destruct d; [|simpl in Hn; lia]. by destruct m.
  - destruct Hd as [->|Hd]; [by destruct m|].
    pose proof (parent_short d Hd). destruct m as [|m]; [lia|]. simpl.
    case_bool_decide; [done|]. f_equal. apply IH; [by apply parent_ok|lia|lia].
Qed.

(** The ancestors of a path are its parent and the parent's ancestors. *)
Lemma ancestors_step q :
  path_ok q →
  ancestors q = if bool_decide (parent q = EmptyString) then [] else parent q :: ancestors (parent q).
Proof.
  intros Hq. unfold ancestors. destruct (parent_ok q Hq) as [->|Hp]; [done|].
  pose proof (parent_short (parent q) Hp).
  assert (Hne : parent q ≠ EmptyString) by by intros E; rewrite E in Hp.
  destruct (String.length (parent q)) as [|n] eqn:E; [lia|]. simpl.
  rewrite bool_decide_false by done. f_equal. apply chain_fuel; [by apply parent_ok|lia|lia].
Qed.

Lemma path_ind (P : string → Prop) :
  (∀ q, path_ok q → (path_ok (parent q) → P (parent q)) → P q) → ∀ q, path_ok q → P q.
Proof.
  intros Hstep q. remember (String.length q) as n eqn:Hn. revert q Hn.
  induction (Nat.lt_wf_0 n) as [n _ IH]; intros q -> Hq. apply Hstep; [done|].
  intros Hp. by eapply IH; [apply parent_short|..].
Qed.

Lemma elem_of_ancestors q d :
  path_ok q →
  d ∈ ancestors q ↔ path_ok (parent q) ∧ (d = parent q ∨ d ∈ ancestors (parent q)).
Proof.
  intros Hq. rewrite ancestors_step by done. destruct (parent_ok q Hq) as [Hp|Hp].
  - rewrite Hp, bool_decide_true by done. simpl. set_solver.
  - rewrite bool_decide_false by (by intros E; rewrite E in Hp). set_solver.
Qed.

Lemma ancestors_path_ok q d : path_ok q → d ∈ ancestors q → path_ok d.
Proof.
  intros Hq. revert q Hq. apply (path_ind (λ q, d ∈ ancestors q → path_ok d)).
  intros q Hq IH [Hp [->|Hd]]%elem_of_ancestors; [done| |done]. by apply IH.
Qed.

Lemma ancestors_trans q d d' :
  path_ok q → d ∈ ancestors q → d' ∈ ancestors d → d' ∈ ancestors q.
Proof.
  intros Hq. revert q Hq. apply (path_ind (λ q, d ∈ ancestors q → d' ∈ ancestors d → d' ∈ ancestors q)).
  intros q Hq IH [Hp Hd]%elem_of_ancestors Hd'; [|done]. apply elem_of_ancestors; [done|].
  split; [done|]. right. destruct Hd as [->|Hd]; [done|]. by apply IH.
Qed.

Lemma ancestor_shorter q d : path_ok q → d ∈ ancestors q → (String.length d < String.length q)%nat.
Proof.
  intros Hq. revert q Hq.
  apply (path_ind (λ q, d ∈ ancestors q → (String.length d < String.length q)%nat)).
  intros q Hq IH [Hp [->|Hd]]%elem_of_ancestors; [by apply parent_short| |done].
  specialize (IH Hp Hd). pose proof (parent_short q Hq). lia.
Qed.

(** A directory above [q] is either its parent or above its parent; so every
    non-root ancestor has a next step down towards [q]. *)
Lemma ancestor_child q d :
  path_ok q → d ∈ ancestors q → ∃ d', parent d' = d ∧ (d' = q ∨ d' ∈ ancestors q).
Proof.
  intros Hq. revert q Hq.
  apply (path_ind (λ q, d ∈ ancestors q → ∃ d', parent d' = d ∧ (d' = q ∨ d' ∈ ancestors q))).
  intros q Hq IH Hd. pose proof Hd as [Hp [->|Hd']]%elem_of_ancestors; [by exists q; auto| |done].
  destruct (IH Hp Hd') as (d' & Hpar & Hcase). exists d'. split; [done|]. right.
  apply elem_of_ancestors; [done|]. naive_solver.
Qed.

(** ** The tree as a function from paths to entries *)

Definition node (dirs : gmap string Children) (q : string) : option (hash32 * bool) :=
  dirs !! parent q ≫= λ c, c !! fname q.

Definition set_node (dirs : gmap string Children) (q : string) (v : hash32 * bool)
  : gmap string Children :=
  <[parent q := <[fname q := v]> (dir_entry dirs (parent q))]> dirs.

(** Every entry sits where its path says. *)
Definition placed (dirs : gmap string Children) : Prop :=
  is_Some (dirs !! EmptyString) ∧
  ∀ p c n v, dirs !! p = Some c → c !! n = Some v → ∃ q, path_ok q ∧ parent q = p ∧ fname q = n.

Lemma node_set dirs q v q' :
  path_ok q → path_ok q' →
  node (set_node dirs q v) q' = if decide (q' = q) then Some v else node dirs q'.
Proof.
  intros Hq Hq'. unfold node, set_node, dir_entry. destruct (decide (q' = q)) as [->|Hne].
  - rewrite lookup_insert_eq. simpl. apply lookup_insert_eq.
  - destruct (decide (parent q = parent q')) as [Hp|Hp].
    + rewrite Hp, lookup_insert_eq. simpl. rewrite lookup_insert_ne.
      * by destruct (dirs !! parent q').
      * intros Hn. by apply Hne, path_eq.
    + by rewrite lookup_insert_ne.
Qed.

Lemma placed_set dirs q v : path_ok q → placed dirs → placed (set_node dirs q v).
Proof.
  intros Hq [Hr Hpl]. unfold set_node. split.
  - destruct (decide (parent q = EmptyString)) as [->|]; [by rewrite lookup_insert_eq|].
    by rewrite lookup_insert_ne.
  - intros p c n w Hc Hn. destruct (decide (parent q = p)) as [<-|Hne].
    + rewrite lookup_insert_eq in Hc. injection Hc as <-.
      destruct (decide (fname q = n)) as [<-|Hn']; [by exists q|].
      rewrite lookup_insert_ne in Hn by done. unfold dir_entry in Hn.
      destruct (dirs !! parent q) as [c|] eqn:E; [by eapply Hpl|].
      simpl in Hn. by rewrite lookup_empty in Hn.
    + rewrite lookup_insert_ne in Hc by done. by eapply Hpl.
Qed.

Lemma dom_set dirs q v p : is_Some (set_node dirs q v !! p) ↔ p = parent q ∨ is_Some (dirs !! p).
Proof.
  unfold set_node. destruct (decide (p = parent q)) as [->|Hne].
  - rewrite lookup_insert_eq. naive_solver.
  - rewrite lookup_insert_ne by done. naive_solver.
Qed.

Lemma dir_entry_lookup dirs q : path_ok q → dir_entry dirs (parent q) !! fname q = node dirs q.
Proof. intros _. unfold dir_entry, node. by destruct (dirs !! parent q). Qed.

Section tree.
Context `{!Blake3, !Bincode}.

(** *** The first loop *)

Lemma mark_dir_set dirs d :
  mark_dir dirs d = set_node dirs d ((default (zeros 32, true) (node dirs d)).1, true).
Proof.
  unfold mark_dir, set_node, node, parent, fname, dir_entry.
  destruct (split_parent d) as [up name]. simpl. by destruct (dirs !! up).
Qed.

Lemma mark_ancestors_foldl fuel dirs d : mark_ancestors fuel dirs d = foldl mark_dir dirs (chain fuel d).
Proof.
  revert dirs d. induction fuel as [|fuel IH]; intros dirs d; simpl; [done|].
  case_bool_decide; [done|]. simpl. by rewrite IH.
Qed.

Lemma add_row_foldl dirs row :
  add_row dirs row =
  foldl mark_dir (set_node dirs (fr_path row) (leaf_hash row, false)) (ancestors (fr_path row)).
Proof.
  unfold add_row, set_node, ancestors, parent, fname. destruct (split_parent (fr_path row)) as [p n].
  simpl. by rewrite mark_ancestors_foldl.
Qed.

Lemma marks_node l dirs q :
  Forall path_ok l → path_ok q →
  node (foldl mark_dir dirs l) q =
  if decide (q ∈ l) then Some ((default (zeros 32, true) (node dirs q)).1, true) else node dirs q.
Proof.
  intros Hl Hq. revert dirs. induction Hl as [|d l Hd Hl IH]; intros dirs; simpl; [done|].
  rewrite IH, mark_dir_set, node_set by done.
  destruct (decide (q ∈ l)), (decide (q ∈ d :: l)), (decide (q = d)); try set_solver; by subst.
Qed.

Lemma marks_placed l dirs : Forall path_ok l → placed dirs → placed (foldl mark_dir dirs l).
Proof.
  intros Hl. revert dirs. induction Hl as [|d l Hd Hl IH]; intros dirs Hp; simpl; [done|].
  apply IH. rewrite mark_dir_set. by apply placed_set.
Qed.

Lemma marks_dom l dirs p :
  is_Some (foldl mark_dir dirs l !! p) ↔ (∃ d, d ∈ l ∧ p = parent d) ∨ is_Some (dirs !! p).
Proof.
  revert dirs. induction l as [|d l IH]; intros dirs; simpl; [set_solver|].
  rewrite IH, mark_dir_set, dom_set. set_solver.
Qed.

(** Rows of one index: distinct share-relative paths, no row's path a
    directory above another's. *)
Record rows_ok (rows : list FileRow) : Prop := {
  ro_nodup : NoDup (fr_path <$> rows);
  ro_paths : Forall (λ r, path_ok (fr_path r)) rows;
  ro_noclash : Forall (λ r, Forall (λ r', fr_path r ∉ ancestors (fr_path r')) rows) rows;
}.

Lemma rows_ok_path rows r : rows_ok rows → r ∈ rows → path_ok (fr_path r).
Proof. intros [_ Hp _]. rewrite Forall_forall in Hp. apply Hp. Qed.

Lemma rows_ok_noclash rows r r' :
  rows_ok rows → r ∈ rows → r' ∈ rows → fr_path r ∉ ancestors (fr_path r').
Proof.
  intros [_ _ Hn] Hr Hr'. rewrite Forall_forall in Hn. specialize (Hn r Hr).
  rewrite Forall_forall in Hn. by apply Hn.
Qed.

Lemma rows_ok_inj rows r r' :
  rows_ok rows → r ∈ rows → r' ∈ rows → fr_path r = fr_path r' → r = r'.
Proof.
  intros [Hnd _ _] Hr Hr' Heq.
  apply list_elem_of_lookup in Hr as [i Hi], Hr' as [j Hj].
  assert (i = j) as ->.
  { eapply (NoDup_lookup _ _ _ (fr_path r)); [done|..]; rewrite list_lookup_fmap; [by rewrite Hi|].
    rewrite Hj. simpl. by f_equal. }
  congruence.
Qed.

Lemma rows_ok_snoc rows r : rows_ok (rows ++ [r]) → rows_ok rows.
Proof.
  intros [Hnd Hp Hn]. rewrite fmap_app in Hnd. apply NoDup_app in Hnd as (Hnd & _ & _).
  apply Forall_app in Hp as [Hp _]. apply Forall_app in Hn as [Hn _].
  split; [done|done|]. eapply Forall_impl; [exact Hn|]. by intros r' [? _]%Forall_app.
Qed.

Definition is_dir_of (rows : list FileRow) (q : string) : Prop :=
  ∃ r, r ∈ rows ∧ q ∈ ancestors (fr_path r).

(** What the first loop builds. *)
Record loaded (rows : list FileRow) (dirs : gmap string Children) : Prop := {
  ld_placed : placed dirs;
  ld_leaf : ∀ r, r ∈ rows → node dirs (fr_path r) = Some (leaf_hash r, false);
  ld_dir : ∀ q, is_dir_of rows q → ∃ h, node dirs q = Some (h, true);
  ld_none : ∀ q v, path_ok q → node dirs q = Some v →
    (∃ r, r ∈ rows ∧ fr_path r = q) ∨ is_dir_of rows q;
  ld_dom : ∀ p, is_Some (dirs !! p) ↔ p = EmptyString ∨ is_dir_of rows p;
}.

Lemma parent_dom q p :
  path_ok q →
  (p = parent q ∨ ∃ d, d ∈ ancestors q ∧ p = parent d) ↔ p = EmptyString ∨ p ∈ ancestors q.
Proof.
  intros Hq. revert q Hq.
  apply (path_ind (λ q, (p = parent q ∨ ∃ d, d ∈ ancestors q ∧ p = parent d) ↔
                        p = EmptyString ∨ p ∈ ancestors q)).
  intros q Hq IH. setoid_rewrite elem_of_ancestors; [|done..].
  destruct (parent_ok q Hq) as [Hp|Hp].
  - rewrite Hp. simpl. naive_solver.
  - specialize (IH Hp). naive_solver.
Qed.

Lemma ancestors_Forall q : path_ok q → Forall path_ok (ancestors q).
Proof. intros Hq. apply Forall_forall. intros d. by apply ancestors_path_ok. Qed.

Lemma self_not_ancestor q : path_ok q → q ∉ ancestors q.
Proof. intros Hq Hin. pose proof (ancestor_shorter q q Hq Hin). lia. Qed.

Lemma add_row_loaded rows row dirs :
  rows_ok (rows ++ [row]) → loaded rows dirs → loaded (rows ++ [row]) (add_row dirs row).
Proof.
  intros Hok [Hpl Hleaf Hdir Hnone Hdom]. rewrite add_row_foldl.
  assert (Hin : row ∈ rows ++ [row]) by set_solver.
  pose proof (rows_ok_path _ row Hok Hin) as Hq. set (q := fr_path row) in *.
  pose proof (ancestors_Forall q Hq) as Hanc.
  assert (Hnode : ∀ q', path_ok q' → node (foldl mark_dir (set_node dirs q (leaf_hash row, false)) (ancestors q)) q' =
    if decide (q' ∈ ancestors q) then Some ((default (zeros 32, true) (node dirs q')).1, true)
    else if decide (q' = q) then Some (leaf_hash row, false) else node dirs q').
  { intros q' Hq'. rewrite marks_node, node_set by done.
    destruct (decide (q' ∈ ancestors q)) as [Ha|]; [|done].
    rewrite decide_False; [done|]. intros ->. by apply (self_not_ancestor q). }
  split.
  - apply marks_placed; [done|]. by apply placed_set.
  - intros r Hr. pose proof (rows_ok_path _ r Hok Hr) as Hp. rewrite Hnode by done.
    rewrite decide_False by (by apply (rows_ok_noclash (rows ++ [row]) r row)).
    destruct (decide (fr_path r = q)) as [Heq|Hne].
    + by rewrite (rows_ok_inj _ r row Hok Hr Hin Heq).
    + apply Hleaf. apply elem_of_app in Hr as [Hr| ->%list_elem_of_singleton]; [done|]. done.
  - intros q' (r & Hr & Ha). pose proof (rows_ok_path _ r Hok Hr) as Hp.
    pose proof (ancestors_path_ok _ _ Hp Ha) as Hq'. rewrite Hnode by done.
    destruct (decide (q' ∈ ancestors q)); [by eexists|].
    rewrite decide_False.
    + apply Hdir. exists r. apply elem_of_app in Hr as [Hr| ->%list_elem_of_singleton]; done.
    + intros ->. by apply (rows_ok_noclash _ row r Hok Hin Hr).
  - intros q' v Hq' Hv. rewrite Hnode in Hv by done.
    destruct (decide (q' ∈ ancestors q)); [right; by exists row|].
    destruct (decide (q' = q)) as [->|]; [left; by exists row|].
    destruct (Hnone q' v Hq' Hv) as [(r & Hr & Heq)|(r & Hr & Ha)]; [left|right]; exists r; set_solver.
  - intros p. rewrite marks_dom, dom_set, Hdom.
    pose proof (parent_dom q p Hq) as Hpd. unfold is_dir_of.
    setoid_rewrite elem_of_app. setoid_rewrite list_elem_of_singleton. naive_solver.
Qed.

Lemma build_loaded rows : rows_ok rows → loaded rows (foldl add_row {[ EmptyString := ∅ ]} rows).
Proof.
  induction rows as [|r rows IH] using rev_ind; intros Hok.
  - simpl. split.
    + split; [by rewrite lookup_singleton_eq|]. intros p c n v [<- <-]%lookup_singleton_Some Hn.
      by rewrite lookup_empty in Hn.
    + intros r Hr. by apply not_elem_of_nil in Hr.
    + intros q (r & Hr & _). by apply not_elem_of_nil in Hr.
    + intros q v _ Hv. unfold node in Hv.
      destruct ({[EmptyString := ∅]} !! parent q) as [c|] eqn:E; [|done].
      apply lookup_singleton_Some in E as [_ <-]. simpl in Hv. by rewrite lookup_empty in Hv.
    + intros p. split.
      * intros [c [<- _]%lookup_singleton_Some]. by left.
      * intros [->|(r & Hr & _)]; [by rewrite lookup_singleton_eq|by apply not_elem_of_nil in Hr].
  - rewrite foldl_app. simpl. apply add_row_loaded; [done|]. by apply IH, (rows_ok_snoc _ r).
Qed.

(** *** The second loop *)

Lemma hash_up_set dirs p :
  path_ok p →
  hash_up dirs p =
  match node dirs p with
  | Some (_, d) => set_node dirs p (hash_children (dir_entry dirs p), d)
  | None => dirs
  end.
Proof.
  intros Hp. unfold hash_up, node, set_node, parent, fname.
  rewrite bool_decide_false by (by intros ->). destruct (split_parent p) as [up name]. simpl.
  unfold dir_entry. destruct (dirs !! up) as [c|] eqn:E; simpl; [|done].
  by destruct (c !! name) as [[h d]|].
Qed.

(** A step rewrites one hash and nothing else. *)
Lemma hash_up_node dirs p q :
  path_ok p → path_ok q →
  node (hash_up dirs p) q =
  if decide (q = p) then (λ v, (hash_children (dir_entry dirs p), v.2)) <$> node dirs p else node dirs q.
Proof.
  intros Hp Hq. rewrite hash_up_set by done. destruct (node dirs p) as [[h d]|] eqn:E; simpl.
  - by rewrite node_set.
  - destruct (decide (q = p)) as [->|]; [done|done].
Qed.

Lemma hash_up_other dirs p q : path_ok p → parent p ≠ q → dir_entry (hash_up dirs p) q = dir_entry dirs q.
Proof.
  intros Hp Hne. rewrite hash_up_set by done. destruct (node dirs p) as [[h d]|]; [|done].
  unfold dir_entry, set_node. by rewrite lookup_insert_ne.
Qed.

Lemma hash_up_placed dirs p : p = EmptyString ∨ path_ok p → placed dirs → placed (hash_up dirs p).
Proof.
  intros [->|Hp] Hpl; [done|]. rewrite hash_up_set by done.
  destruct (node dirs p) as [[h d]|]; [|done]. by apply placed_set.
Qed.

Lemma hash_up_dom dirs p q :
  p = EmptyString ∨ path_ok p → is_Some (hash_up dirs p !! q) ↔ is_Some (dirs !! q).
Proof.
  intros [->|Hp]; [done|]. rewrite hash_up_set by done.
  destruct (node dirs p) as [[h d]|] eqn:E; [|done]. rewrite dom_set. split; [|by right].
  intros [->|]; [|done]. unfold node in E. by destruct (dirs !! parent p).
Qed.

Lemma hash_all_other l dirs q :
  Forall (λ p, p = EmptyString ∨ path_ok p ∧ parent p ≠ q) l →
  dir_entry (foldl hash_up dirs l) q = dir_entry dirs q.
Proof.
  intros Hl. revert dirs. induction Hl as [|p l Hp Hl IH]; intros dirs; simpl; [done|]. rewrite IH.
  destruct Hp as [->|[Hp Hne]]; [done|]. by apply hash_up_other.
Qed.

(** Visited in descending order, every directory is hashed after everything
    below it. *)
Lemma hash_all_node l dirs q :
  StronglySorted (λ a b, ord_lt b a) l → Forall (λ p, p = EmptyString ∨ path_ok p) l → path_ok q →
  node (foldl hash_up dirs l) q =
  if decide (q ∈ l)
  then (λ v, (hash_children (dir_entry (foldl hash_up dirs l) q), v.2)) <$> node dirs q
  else node dirs q.
Proof.
  intros Hs. revert dirs. induction Hs as [|p l Hs IH Hlt]; intros dirs Hl Hq; simpl; [done|].
  apply Forall_cons in Hl as [Hp Hl]. rewrite (IH _ Hl Hq).
  rewrite Forall_forall in Hlt. destruct Hp as [->|Hp].
  { destruct (decide (q ∈ l)), (decide (q ∈ EmptyString :: l)); set_solver. }
  rewrite hash_up_node by done. destruct (decide (q ∈ l)) as [Hql|Hql].
  - rewrite (decide_True (P := q ∈ p :: l)) by set_solver. rewrite decide_False; [done|].
    intros ->. by apply (ord_lt_irrefl p), Hlt.
  - destruct (decide (q = p)) as [->|Hne].
    + rewrite (decide_True (P := p ∈ p :: l)) by set_solver. rewrite hash_all_other.
      * rewrite hash_up_other; [done|done|]. intros Heq. pose proof (parent_lt p Hp) as Hlt'.
        rewrite Heq in Hlt'. by apply ord_lt_irrefl in Hlt'.
      * rewrite Forall_forall in Hl |- *. intros r Hr. destruct (Hl r Hr) as [->|Hr']; [by left|right].
        split; [done|]. intros <-. pose proof (Hlt r Hr) as H1. pose proof (parent_lt r Hr') as H2.
        by apply (ord_lt_asym r (parent r)).
    + by rewrite (decide_False (P := q ∈ p :: l)) by set_solver.
Qed.

Lemma hash_all_placed l dirs :
  Forall (λ p, p = EmptyString ∨ path_ok p) l → placed dirs → placed (foldl hash_up dirs l).
Proof.
  intros Hl. revert dirs. induction Hl as [|p l Hp Hl IH]; intros dirs Hpl; simpl; [done|].
  by apply IH, hash_up_placed.
Qed.

Lemma hash_all_dom l dirs q :
  Forall (λ p, p = EmptyString ∨ path_ok p) l →
  is_Some (foldl hash_up dirs l !! q) ↔ is_Some (dirs !! q).
Proof.
  intros Hl. revert dirs. induction Hl as [|p l Hp Hl IH]; intros dirs; simpl; [done|].
  by rewrite IH, hash_up_dom.
Qed.

(** What [build] builds. *)
Record built (rows : list FileRow) (t : MerkleTree) : Prop := {
  bt_placed : placed (mt_dirs t);
  bt_leaf : ∀ r, r ∈ rows → node (mt_dirs t) (fr_path r) = Some (leaf_hash r, false);
  bt_dir : ∀ q, is_dir_of rows q →
    node (mt_dirs t) q = Some (hash_children (dir_entry (mt_dirs t) q), true);
  bt_none : ∀ q v, path_ok q → node (mt_dirs t) q = Some v →
    (∃ r, r ∈ rows ∧ fr_path r = q) ∨ is_dir_of rows q;
  bt_dom : ∀ p, is_Some (mt_dirs t !! p) ↔ p = EmptyString ∨ is_dir_of rows p;
  bt_root : mt_root t = hash_children (dir_entry (mt_dirs t) EmptyString);
}.

Lemma is_dir_path_ok rows q : rows_ok rows → is_dir_of rows q → path_ok q.
Proof.
  intros Hok (r & Hr & Ha). by eapply ancestors_path_ok; [apply (rows_ok_path rows)|].
Qed.

Lemma btree_keys_sorted {V} (m : gmap string V) :
  StronglySorted (λ a b, ord_lt b a) (reverse (btree_keys m)).
Proof.
  assert (Hgen : ∀ l : list string, StronglySorted ord_le l → NoDup l →
    StronglySorted (λ a b, ord_lt b a) (reverse l)).
  { intros l. induction 1 as [|k l Hs IH Hk]; intros Hnd; [by constructor|].
    apply NoDup_cons in Hnd as [Hni Hnd]. rewrite reverse_cons. apply StronglySorted_app_2;
      [|by apply IH|by repeat constructor].
    - intros x y Hx ->%list_elem_of_singleton. rewrite elem_of_reverse in Hx.
      rewrite Forall_forall in Hk. specialize (Hk x Hx). apply ord_le_alt in Hk as [->|]; done. }
  apply Hgen; [|apply NoDup_btree_keys]. unfold btree_keys.
  pose proof (btree_iter_sorted m) as Hs. induction Hs as [|p l Hs IH Hp]; simpl; constructor; [done|].
  rewrite Forall_fmap. done.
Qed.

Lemma build_built rows : rows_ok rows → built rows (build rows).
Proof.
  intros Hok. unfold build. destruct (build_loaded rows Hok) as [Hpl Hleaf Hdir Hnone Hdom].
  set (d0 := foldl add_row _ rows) in *. set (l := reverse (btree_keys d0)).
  assert (Hl : ∀ p, p ∈ l ↔ p = EmptyString ∨ is_dir_of rows p).
  { intros p. unfold l. by rewrite elem_of_reverse, elem_of_btree_keys. }
  assert (Hlok : Forall (λ p, p = EmptyString ∨ path_ok p) l).
  { apply Forall_forall. intros p [->|Hp]%Hl; [by left|right]. by eapply is_dir_path_ok. }
  pose proof (btree_keys_sorted d0) as Hs. fold l in Hs.
  split; simpl.
  - by apply hash_all_placed.
  - intros r Hr. rewrite hash_all_node; [|done|done|by eapply rows_ok_path].
    rewrite decide_False; [by apply Hleaf|].
    intros [Hp|(r' & Hr' & Ha)]%Hl; [|by apply (rows_ok_noclash rows r r')].
    pose proof (rows_ok_path rows r Hok Hr) as Hq. by rewrite Hp in Hq.
  - intros q Hq. rewrite hash_all_node at 1; [|done|done|by eapply is_dir_path_ok].
    rewrite decide_True by (apply Hl; by right). destruct (Hdir q Hq) as [h ->]. done.
  - intros q v Hq Hv. rewrite hash_all_node in Hv by done.
    destruct (node d0 q) as [w|] eqn:E; [by eapply Hnone|]. by destruct (decide (q ∈ l)).
  - intros p. by rewrite hash_all_dom.
  - done.
Qed.
End tree.
