(* ===== verification/ReconcileProps.v ===== *)
(** * Anti-entropy: exactness of the root, of the descent and of the listing *)

From Stdlib Require Import Ascii.
From S2P Require Import Prelude Vv Metadata Conflict Merkle MerkleProofs.
Import MerkleTree.

Section agree.
Context `{!Blake3, !Bincode}.

(** The hash keeps apart what the two trees hash: different listings, and
    listings from leaves. *)
Definition listings (t : MerkleTree) : list Children := (map_to_list (mt_dirs t)).*2.
Record separates (L R : list FileRow) : Prop := {
  sp_dirs : Forall (λ c, Forall (λ c', hash_children c = hash_children c' → c = c')
              (listings (build R))) (listings (build L));
  sp_leaf_l : Forall (λ r, Forall (λ c, leaf_hash r ≠ hash_children c) (listings (build R))) L;
  sp_leaf_r : Forall (λ r, Forall (λ c, leaf_hash r ≠ hash_children c) (listings (build L))) R;
}.

(** Both indexes hold the same leaf at [q], or neither holds one. *)
Definition covers (L R : list FileRow) (q : string) : Prop :=
  ∀ r, r ∈ R → fr_path r = q → ∃ l, l ∈ L ∧ fr_path l = q ∧ leaf_hash l = leaf_hash r.
Definition agree_at (L R : list FileRow) (q : string) : Prop := covers L R q ∧ covers R L q.

(** At or below a directory. *)
Definition below (p q : string) : Prop := p = EmptyString ∨ p ∈ ancestors q.

Lemma dir_entry_listing rows t p :
  built rows t → p = EmptyString ∨ is_dir_of rows p → dir_entry (mt_dirs t) p ∈ listings t.
Proof.
  intros Hb Hp. apply (bt_dom rows t Hb) in Hp as [c Hc]. unfold listings, dir_entry. rewrite Hc.
  apply list_elem_of_fmap. exists (p, c). split; [done|]. by apply elem_of_map_to_list.
Qed.

Lemma no_dir_entry rows t p :
  built rows t → p ≠ EmptyString → ¬ is_dir_of rows p → dir_entry (mt_dirs t) p = ∅.
Proof.
  intros Hb Hne Hp. unfold dir_entry. destruct (mt_dirs t !! p) eqn:E; [|done].
  assert (Hs : is_Some (mt_dirs t !! p)) by by rewrite E. apply (bt_dom rows t Hb) in Hs. naive_solver.
Qed.

(** The entry at a path, by what the rows say of it. *)
Lemma node_cases rows t q :
  built rows t → path_ok q →
  (∃ r, r ∈ rows ∧ fr_path r = q ∧ node (mt_dirs t) q = Some (leaf_hash r, false)) ∨
  (is_dir_of rows q ∧ node (mt_dirs t) q = Some (hash_children (dir_entry (mt_dirs t) q), true)) ∨
  ((¬ ∃ r, r ∈ rows ∧ fr_path r = q) ∧ ¬ is_dir_of rows q ∧ node (mt_dirs t) q = None).
Proof.
  intros Hb Hq. destruct (node (mt_dirs t) q) as [v|] eqn:E.
  - destruct (bt_none rows t Hb q v Hq E) as [(r & Hr & <-)|Hd].
    + left. exists r. rewrite <- E. split_and!; [done..|]. by apply (bt_leaf rows t Hb).
    + right. left. split; [done|]. rewrite <- E. by apply (bt_dir rows t Hb).
  - right. right. split_and!; [..|done].
    + intros (r & Hr & <-). rewrite (bt_leaf rows t Hb r Hr) in E. done.
    + intros Hd. rewrite (bt_dir rows t Hb q Hd) in E. done.
Qed.

Lemma row_not_dir rows r q : rows_ok rows → r ∈ rows → fr_path r = q → ¬ is_dir_of rows q.
Proof. intros Hok Hr <- (r' & Hr' & Ha). by apply (rows_ok_noclash rows r r'). Qed.

Lemma below_step p q : path_ok q → below p q → p = parent q ∨ (path_ok (parent q) ∧ below p (parent q)).
Proof.
  intros Hq [->|Hp].
  - destruct (parent_ok q Hq) as [->|]; [by left|right]. split; [done|by left].
  - apply elem_of_ancestors in Hp as [Hok [->|Hp]]; [by left| |done]. right. split; [done|by right].
Qed.

Lemma below_parent q : path_ok q → below (parent q) q.
Proof.
  intros Hq. destruct (parent_ok q Hq) as [->|Hp]; [by left|right].
  apply elem_of_ancestors; [done|]. split; [done|by left].
Qed.

Lemma below_trans p q q' : path_ok q' → below p q → q ∈ ancestors q' → below p q'.
Proof. intros Hq' [->|Hp] Hq; [by left|right]. by eapply ancestors_trans. Qed.

Context (L R : list FileRow) (HL : rows_ok L) (HR : rows_ok R).
Local Abbreviation dL := (mt_dirs (build L)).
Local Abbreviation dR := (mt_dirs (build R)).
Let bL : built L (build L) := build_built L HL.
Let bR : built R (build R) := build_built R HR.

Lemma entries_separate p p' :
  separates L R → p = EmptyString ∨ is_dir_of L p → p' = EmptyString ∨ is_dir_of R p' →
  hash_children (dir_entry dL p) = hash_children (dir_entry dR p') → dir_entry dL p = dir_entry dR p'.
Proof.
  intros [Hs _ _] Hp Hp'. rewrite Forall_forall in Hs.
  specialize (Hs _ (dir_entry_listing L _ p bL Hp)). rewrite Forall_forall in Hs.
  apply (Hs _ (dir_entry_listing R _ p' bR Hp')).
Qed.

(** Equal entries at a directory propagate to everything below it. *)
Lemma equal_below p q :
  separates L R → path_ok q → below p q → dir_entry dL p = dir_entry dR p → node dL q = node dR q.
Proof.
  intros Hsep Hq Hb Heq. revert q Hq Hb. apply (path_ind (λ q, below p q → node dL q = node dR q)).
  intros q Hq IH Hb. rewrite <- !dir_entry_lookup by done.
  destruct (below_step p q Hq Hb) as [->|[Hok Hb']]; [by rewrite Heq|].
  specialize (IH Hok Hb'). f_equal.
  assert (Hne : parent q ≠ EmptyString) by (by intros E; rewrite E in Hok).
  destruct (node_cases L _ _ bL Hok) as [(r & Hr & Hpr & E)|[[Hd E]|(_ & Hnd & E)]];
    destruct (node_cases R _ _ bR Hok) as [(r' & Hr' & Hpr' & E')|[[Hd' E']|(_ & Hnd' & E')]];
    try congruence.
  - rewrite (no_dir_entry L _ _ bL Hne), (no_dir_entry R _ _ bR Hne); [done|..].
    + by apply (row_not_dir R r').
    + by apply (row_not_dir L r).
  - apply entries_separate; [done|by right|by right|]. congruence.
  - by rewrite (no_dir_entry L _ _ bL Hne), (no_dir_entry R _ _ bR Hne).
Qed.

Lemma agree_dir q :
  path_ok q → (∀ q', path_ok q' → q ∈ ancestors q' → agree_at L R q') →
  is_dir_of L q ↔ is_dir_of R q.
Proof.
  intros Hq Hag. split; intros (r & Hr & Ha).
  - destruct (Hag (fr_path r) (rows_ok_path L r HL Hr) Ha) as [_ Hc].
    destruct (Hc r Hr eq_refl) as (r' & Hr' & Hp & _). exists r'. by rewrite Hp.
  - destruct (Hag (fr_path r) (rows_ok_path R r HR Hr) Ha) as [Hc _].
    destruct (Hc r Hr eq_refl) as (r' & Hr' & Hp & _). exists r'. by rewrite Hp.
Qed.

Lemma agree_node q :
  path_ok q → (∀ q', path_ok q' → below (parent q) q' → agree_at L R q') →
  (is_dir_of L q → dir_entry dL q = dir_entry dR q) → node dL q = node dR q.
Proof.
  intros Hq Hag Hdir. destruct (Hag q Hq (below_parent q Hq)) as [Hc Hc'].
  assert (Hd : is_dir_of L q ↔ is_dir_of R q).
  { apply agree_dir; [done|]. intros q' Hq' Ha. apply Hag; [done|].
    eapply below_trans; [done|by apply below_parent|done]. }
  destruct (node_cases L _ q bL Hq) as [(r & Hr & Hp & E)|[[Hl E]|(Hnr & Hnd & E)]].
  - destruct (Hc' r Hr Hp) as (r' & Hr' & Hp' & Hh). rewrite E, <- Hh, <- Hp'.
    symmetry. apply (bt_leaf R _ bR r' Hr').
  - rewrite E, (Hdir Hl). symmetry. by apply (bt_dir R _ bR), Hd.
  - destruct (node_cases R _ q bR Hq) as [(r & Hr & Hp & E')|[[Hr _]|(_ & _ & E')]].
    + destruct (Hc r Hr Hp) as (l & Hl & Hp' & _). destruct Hnr. by exists l.
    + by apply Hd in Hr.
    + congruence.
Qed.

(** Two placed trees with equal entries below a directory have equal
    listings for it. *)
Lemma entries_eq p :
  (∀ q, path_ok q → parent q = p → node dL q = node dR q) → dir_entry dL p = dir_entry dR p.
Proof.
  intros Hn. apply map_eq. intros n. apply option_eq. intros v.
  assert (Hq : ∀ rows, rows_ok rows → dir_entry (mt_dirs (build rows)) p !! n = Some v →
    ∃ q, path_ok q ∧ parent q = p ∧ fname q = n).
  { intros rows Hok Hv. unfold dir_entry in Hv.
    destruct (mt_dirs (build rows) !! p) as [c|] eqn:E; [|simpl in Hv; by rewrite lookup_empty in Hv].
    by eapply (bt_placed rows _ (build_built rows Hok)). }
  split; intros Hv.
  - destruct (Hq L HL Hv) as (q & Hok & <- & <-). by rewrite dir_entry_lookup, <- Hn, <- dir_entry_lookup.
  - destruct (Hq R HR Hv) as (q & Hok & <- & <-). by rewrite dir_entry_lookup, Hn, <- dir_entry_lookup.
Qed.

(** Agreement on every row below a directory gives it equal entries. *)
Lemma agree_below n p :
  Forall (λ r, (String.length (fr_path r) ≤ n + String.length p)%nat) L →
  (∀ q, path_ok q → below p q → agree_at L R q) → dir_entry dL p = dir_entry dR p.
Proof.
  revert p. induction n as [|n IH]; intros p Hlen Hag; apply entries_eq; intros q Hq <-;
    (apply agree_node; [done|done|]); intros (r & Hr & Ha);
    pose proof (ancestor_shorter (fr_path r) q (rows_ok_path L r HL Hr) Ha);
    pose proof (parent_short q Hq); rewrite Forall_forall in Hlen.
  - specialize (Hlen r Hr). lia.
  - apply IH.
    + apply Forall_forall. intros r' Hr'. specialize (Hlen r' Hr'). lia.
    + intros q' Hq' [->|Hb]; [done|]. apply Hag; [done|].
      eapply below_trans; [done|by apply below_parent|done].
Qed.

Lemma agree_entries p :
  (∀ q, path_ok q → below p q → agree_at L R q) → dir_entry dL p = dir_entry dR p.
Proof.
  apply (agree_below (max_list (String.length ∘ fr_path <$> L))). apply Forall_forall. intros r Hr.
  assert (Hin : String.length (fr_path r) ∈ (String.length ∘ fr_path <$> L)).
  { apply list_elem_of_fmap. by exists r. }
  pose proof (max_list_elem_of_le _ _ Hin). lia.
Qed.

(** Equal nodes mean equal leaves. *)
Lemma nodes_agree q : path_ok q → node dL q = node dR q → agree_at L R q.
Proof.
  intros Hq Heq. split; intros r Hr <-.
  - pose proof (bt_leaf R _ bR r Hr) as E. rewrite <- Heq in E.
    destruct (node_cases L _ _ bL Hq) as [(l & Hl & Hp & E')|[[_ E']|(_ & _ & E')]]; try congruence.
    exists l. split_and!; [done..|]. congruence.
  - pose proof (bt_leaf L _ bL r Hr) as E. rewrite Heq in E.
    destruct (node_cases R _ _ bR Hq) as [(l & Hl & Hp & E')|[[_ E']|(_ & _ & E')]]; try congruence.
    exists l. split_and!; [done..|]. congruence.
Qed.

Lemma agree_at_bad q : ¬ path_ok q → agree_at L R q.
Proof.
  intros Hq. split; intros r Hr <-; destruct Hq.
  - by apply (rows_ok_path R r HR).
  - by apply (rows_ok_path L r HL).
Qed.
End agree.

Lemma root_agree `{!Blake3, !Bincode} (L R : list FileRow) :
  rows_ok L → rows_ok R → separates L R →
  mt_root (build L) = mt_root (build R) ↔ ∀ q, agree_at L R q.
Proof.
  intros HL HR Hsep.
  rewrite (bt_root L _ (build_built L HL)), (bt_root R _ (build_built R HR)). split.
  - intros Heq q. destruct (decide (path_ok q)) as [Hq|Hq]; [|by apply agree_at_bad].
    apply nodes_agree; [done..|]. apply (equal_below L R HL HR EmptyString); [done..|by left|].
    apply entries_separate; [done..|by left|by left|done].
  - intros Hag. f_equal. apply agree_entries; [done..|]. intros q _ _. apply Hag.
Qed.

(** C27: The root hash is exactly the reconciled state. For two indexes of
    share-relative paths in which no path is a directory above another, and
    a hash that keeps their listings and leaves apart, the roots agree if and
    only if the indexes hold the same leaves: same paths, same tombstone
    flag, content, identity, metadata and version vector up to their leaf
    hash. In particular the order in which the rows are supplied is
    irrelevant. *)
Theorem merkle_root_exact `{!Blake3, !Bincode} (L R : list FileRow) :
  rows_ok L → rows_ok R → separates L R →
  (mt_root (build L) = mt_root (build R) ↔ ∀ q, agree_at L R q).
Proof. apply root_agree. Qed.

(** ** The descent *)

(** The calls a pull makes, in order. *)
Inductive PullEvent : Type :=
| EReq (prefix : string)
| ELeaf (path : string).

#[export] Instance pull_event_eq_dec : EqDecision PullEvent.
Proof. solve_decision. Defined.

(** A session against the tree of [R] that records the calls. *)
Definition traced `{!Blake3, !Bincode} (R : list FileRow) : Session (list PullEvent) string :=
  mkSession
    (λ s, Ok (s, mt_root (build R)))
    (λ s p, Ok (s ++ [EReq p], wire_child <$> btree_iter (dir_entry (mt_dirs (build R)) p)))
    (λ s rep q, Ok (s ++ [ELeaf q], rep)).

(** ** The descent's bookkeeping

    [hotd] and [hotl] are the directories and leaves the pruning rule lets
    through; [D] is listed, [Q] queued, [s] the calls so far. *)

Ltac in_lists :=
  repeat rewrite ?elem_of_app, ?elem_of_cons, ?elem_of_reverse, ?elem_of_nil, ?list_elem_of_singleton in *;
  intuition (subst; eauto; try congruence).

Section bookkeeping.
Context (hotd hotl : string → Prop).

Record progress (D Q : list string) (s : list PullEvent) : Prop := {
  pg_nodup : NoDup (D ++ Q);
  pg_open : ∀ x, x ∈ D ++ Q → x = EmptyString ∨ (hotd x ∧ parent x ∈ D);
  pg_root : EmptyString ∈ D ++ Q;
  pg_closed : ∀ x, hotd x → parent x ∈ D → x ∈ D ++ Q;
  pg_trace_nodup : NoDup s;
  pg_req : ∀ p, EReq p ∈ s ↔ p ∈ D;
  pg_leaf : ∀ q, ELeaf q ∈ s ↔ (hotl q ∧ parent q ∈ D);
}.

Context (D Q T F : list string) (p : string) (s : list PullEvent).
Context (Hp : progress D (p :: Q) s) (Hroot : ¬ hotd EmptyString).
Context (HT : ∀ x, x ∈ T ↔ hotd x ∧ parent x = p) (HTn : NoDup T).
Context (HF : ∀ x, x ∈ F ↔ hotl x ∧ parent x = p) (HFn : NoDup F).

Lemma step_fresh x : x ∈ T → (x ∉ D) ∧ (x ≠ p) ∧ (x ∉ Q).
Proof using All.
  intros [Hx Hpar]%HT. assert (HpD : p ∉ D).
  { pose proof (pg_nodup _ _ _ Hp) as (_ & Hd & _)%NoDup_app. intros HD. apply (Hd p HD). by left. }
  assert (Hnot : x ∉ D ++ p :: Q).
  { intros Hin. destruct (pg_open _ _ _ Hp x Hin) as [->|[_ HD]]; congruence. }
  in_lists.
Qed.

Lemma step_nodup : NoDup ((D ++ [p]) ++ reverse T ++ Q).
Proof using All.
  pose proof (pg_nodup _ _ _ Hp) as (HD & Hdis & [HpQ HQ]%NoDup_cons)%NoDup_app.
  rewrite <- (assoc_L (++)). apply NoDup_app. split_and!; [done|..].
  - intros x Hx Hin. specialize (Hdis x Hx). pose proof (step_fresh x). in_lists.
  - apply NoDup_cons. split.
    + intros Hin. pose proof (step_fresh p). in_lists.
    + apply NoDup_app. split_and!; [by rewrite reverse_Permutation| |done].
      intros x Hx HxQ. pose proof (step_fresh x). in_lists.
Qed.

Lemma step_trace : NoDup ((s ++ [EReq p]) ++ (ELeaf <$> F)).
Proof using All.
  pose proof (pg_nodup _ _ _ Hp) as (_ & Hdis & _)%NoDup_app.
  assert (HpD : p ∉ D) by (intros HD; apply (Hdis p HD); by left).
  apply NoDup_app. split_and!.
  - apply NoDup_app. split_and!; [apply (pg_trace_nodup _ _ _ Hp)| |apply NoDup_singleton].
    intros e He ->%list_elem_of_singleton. by apply (pg_req _ _ _ Hp) in He.
  - intros e He (q & -> & [_ Hq]%HF)%list_elem_of_fmap.
    apply elem_of_app in He as [[_ He]%(pg_leaf _ _ _ Hp)|He%list_elem_of_singleton]; [congruence|done].
  - apply NoDup_fmap; [by intros ? ? [=]|done].
Qed.

Lemma progress_step : progress (D ++ [p]) (reverse T ++ Q) ((s ++ [EReq p]) ++ (ELeaf <$> F)).
Proof using All.
  split.
  - apply step_nodup.
  - intros x Hx. assert (Hc : x ∈ D ++ p :: Q ∨ x ∈ T) by in_lists.
    destruct Hc as [Hc|[Hh Hc]%HT].
    + destruct (pg_open _ _ _ Hp x Hc) as [->|[Hh HD]]; [by left|right]. in_lists.
    + right. in_lists.
  - pose proof (pg_root _ _ _ Hp). in_lists.
  - intros x Hx Hpar. pose proof (pg_closed _ _ _ Hp x Hx). pose proof (proj2 (HT x)). in_lists.
  - apply step_trace.
  - intros x. pose proof (pg_req _ _ _ Hp x). rewrite !elem_of_app, list_elem_of_fmap, !list_elem_of_singleton.
    naive_solver.
  - intros q. rewrite !elem_of_app, list_elem_of_fmap, !list_elem_of_singleton, (pg_leaf _ _ _ Hp). split.
    + intros [[[? ?]|?]|(? & [= <-] & [? ?]%HF)]; auto; done.
    + intros [Hh [HD|Hpar]]; [by auto|]. right. exists q. split; [done|]. by apply HF.
Qed.
End bookkeeping.

Arguments build : simpl never.

Section descent.
Context `{!Blake3, !Bincode} (L R : list FileRow) (HL : rows_ok L) (HR : rows_ok R).
Local Abbreviation dL := (mt_dirs (build L)).
Local Abbreviation dR := (mt_dirs (build R)).
Let bL : built L (build L) := build_built L HL.
Let bR : built R (build R) := build_built R HR.

(** A remote child that the pruning rule does not skip. *)
Definition unpruned (lc : Children) (c : WireChild) : bool :=
  match lc !! wc_name c with
  | Some (h, _) => negb (bool_decide (h = wc_hash c))
  | None => true
  end.
Definition taken (lc : Children) (is_dir : bool) (c : WireChild) : bool :=
  unpruned lc c && Bool.eqb (wc_is_dir c) is_dir.
Definition picks (lc : Children) (p : string) (is_dir : bool) (cs : list WireChild) : list string :=
  (λ c, join_prefix p (wc_name c)) <$> filter (λ c, taken lc is_dir c) cs.

Lemma pull_children_traced p lc cs queue s rep :
  pull_children (traced R) p lc cs queue s rep =
  Ok (reverse (picks lc p true cs) ++ queue, s ++ (ELeaf <$> picks lc p false cs), rep).
Proof.
  revert queue s. induction cs as [|c cs IH]; intros queue s; simpl.
  { by rewrite app_nil_r. }
  assert (Hp : ∀ d, picks lc p d (c :: cs) =
    (if taken lc d c then [join_prefix p (wc_name c)] else []) ++ picks lc p d cs).
  { intros d. unfold picks. rewrite filter_cons. by destruct (taken lc d c). }
  rewrite !Hp. unfold taken, unpruned.
  destruct (lc !! wc_name c) as [[h d]|] eqn:E; [case_bool_decide as Hh|]; simpl; [done|..];
    destruct (wc_is_dir c); simpl; rewrite IH; simpl;
    by rewrite ?reverse_cons, <- ?(assoc_L (++)).
Qed.

(** An entry of the remote tree whose hash the local tree does not have at
    the same path. *)
Definition hot (is_dir : bool) (q : string) : Prop :=
  path_ok q ∧ ∃ h, node dR q = Some (h, is_dir) ∧ ∀ v, node dL q = Some v → v.1 ≠ h.

Local Abbreviation remote_listing p := (wire_child <$> btree_iter (dir_entry dR p)).

Lemma remote_child p c :
  c ∈ remote_listing p →
  ∃ q h d, path_ok q ∧ parent q = p ∧ c = mkWireChild (fname q) h d ∧ node dR q = Some (h, d).
Proof.
  intros ([n [h d]] & -> & Hn%elem_of_btree_iter)%list_elem_of_fmap.
  unfold dir_entry in Hn. destruct (dR !! p) as [cs|] eqn:E; simpl in Hn; [|by rewrite lookup_empty in Hn].
  destruct (proj2 (bt_placed R _ bR) p cs n (h, d) E Hn) as (q & Hq & <- & <-). exists q, h, d.
  split_and!; [done..|]. unfold node. by rewrite E.
Qed.

Lemma elem_of_picks p is_dir q :
  q ∈ picks (dir_entry dL p) p is_dir (remote_listing p) ↔ hot is_dir q ∧ parent q = p.
Proof.
  unfold picks. rewrite list_elem_of_fmap. split.
  - intros (c & -> & [Ht Hc]%list_elem_of_filter).
    apply remote_child in Hc as (q & h & d & Hq & <- & -> & E). cbn [wc_name wc_hash wc_is_dir] in *.
    rewrite join_parent by done. split; [|done]. split; [done|].
    apply andb_True in Ht as [Ht Hd]. apply Is_true_true, Bool.eqb_prop in Hd. simpl in Hd. subst is_dir.
    eexists. split; [exact E|]. unfold unpruned in Ht. cbn [wc_name wc_hash] in Ht.
    rewrite dir_entry_lookup in Ht by done.
    intros [h' d'] E'. rewrite E' in Ht. simpl. intros ->. by rewrite bool_decide_true in Ht.
  - intros [(Hq & h & E & Hne) <-]. exists (mkWireChild (fname q) h is_dir).
    cbn [wc_name]. split; [by rewrite join_parent|]. apply list_elem_of_filter. split.
    + unfold taken, unpruned. cbn [wc_name wc_hash wc_is_dir]. rewrite dir_entry_lookup by done.
      destruct (node dL q) as [[h' d']|] eqn:E'; [|by destruct is_dir].
      rewrite bool_decide_false by (by apply (Hne (h', d'))). by destruct is_dir.
    + apply list_elem_of_fmap. exists (fname q, (h, is_dir)). split; [done|].
      apply elem_of_btree_iter. by rewrite dir_entry_lookup.
Qed.

Lemma NoDup_picks p is_dir : NoDup (picks (dir_entry dL p) p is_dir (remote_listing p)).
Proof.
  unfold picks. apply NoDup_fmap_2_strong.
  - intros c c' [_ Hc]%list_elem_of_filter [_ Hc']%list_elem_of_filter Heq.
    apply remote_child in Hc as (q & h & d & Hq & Hp & -> & E).
    apply remote_child in Hc' as (q' & h' & d' & Hq' & Hp' & -> & E'). simpl in Heq.
    rewrite <- Hp in Heq at 1. rewrite <- Hp' in Heq. rewrite !join_parent in Heq by done. subst q'.
    rewrite E in E'. congruence.
  - apply NoDup_filter. apply (NoDup_fmap_1 wc_name). rewrite <- list_fmap_compose.
    apply NoDup_btree_keys.
Qed.

Lemma hot_path_ok d q : hot d q → path_ok q.
Proof. by intros []. Qed.

Lemma hot_true_dir q : hot true q → is_dir_of R q.
Proof.
  intros (Hq & h & E & _). destruct (node_cases R _ q bR Hq) as [(r & _ & _ & E')|[[? _]|(_ & _ & E')]];
    [congruence|done|congruence].
Qed.

(** Distinct directories of the remote tree: the fuel bound. *)
Local Abbreviation progress := (progress (hot true) (hot false)).

Lemma hot_root d : ¬ hot d EmptyString.
Proof. by intros []. Qed.

Lemma progress_size D Q s : progress D Q s → (length D + length Q ≤ size dR)%nat.
Proof.
  intros Hp. rewrite <- length_app, <- (size_dom (D := gset string)).
  rewrite <- (size_list_to_set (C := gset string)) by apply (pg_nodup _ _ _ _ _ Hp).
  apply subseteq_size. intros x Hx. apply elem_of_list_to_set in Hx. apply elem_of_dom, (bt_dom R _ bR).
  destruct (pg_open _ _ _ _ _ Hp x Hx) as [->|[Hh _]]; [by left|right]. by apply hot_true_dir.
Qed.

Lemma pull_loop_progress fuel D Q s rep :
  progress D Q s → (size dR ≤ fuel + length D)%nat →
  ∃ D' s' rep', pull_loop (traced R) (build L) fuel Q s rep = Some (Ok (s', rep')) ∧ progress D' [] s'.
Proof.
  revert D Q s rep. induction fuel as [|fuel IH]; intros D [|p Q] s rep Hp Hf.
  1, 3: by eexists D, s, rep.
  - pose proof (progress_size _ _ _ Hp) as Hs. cbn [length] in Hs. lia.
  - cbn [pull_loop]. unfold traced at 1. cbn [se_children]. fold (traced R).
    change (default ∅ (children (build L) p)) with (dir_entry dL p).
    rewrite pull_children_traced. eapply IH.
    { apply progress_step; [done|apply hot_root|intros; apply elem_of_picks|apply NoDup_picks
        |intros; apply elem_of_picks|apply NoDup_picks]. }
    rewrite length_app. cbn [length]. lia.
Qed.

(** *** What a finished descent has visited *)

(** A remote leaf the local index does not hold. *)
Definition fresh (q : string) : Prop :=
  ∃ r, r ∈ R ∧ fr_path r = q ∧ ∀ l, l ∈ L → fr_path l = q → leaf_hash l ≠ leaf_hash r.

Lemma hot_leaf_fresh q : hot false q ↔ fresh q ∧ ∀ v, node dL q = Some v → node dR q ≠ Some (v.1, false).
Proof.
  split.
  - intros (Hq & h & E & Hne). split; [|intros v Hv Hv'; rewrite E in Hv'; by apply (Hne v Hv); simplify_eq].
    destruct (node_cases R _ q bR Hq) as [(r & Hr & Hp & E')|[[_ E']|(_ & _ & E')]]; [|congruence..].
    exists r. split_and!; [done..|]. intros l Hl Hpl Hh. pose proof (bt_leaf L _ bL l Hl) as El.
    rewrite Hpl in El. apply (Hne _ El). simpl. congruence.
  - intros [(r & Hr & <- & Hf) Hn]. split; [by apply (rows_ok_path R r)|]. exists (leaf_hash r).
    pose proof (bt_leaf R _ bR r Hr) as E. split; [done|]. intros v Hv Hh. apply (Hn v Hv). congruence.
Qed.

Lemma fresh_not_equal q : fresh q → node dL q ≠ node dR q.
Proof.
  intros (r & Hr & <- & Hf) Heq. apply (nodes_agree L R HL HR) in Heq as [Hc _];
    [|by apply (rows_ok_path R r)].
  destruct (Hc r Hr eq_refl) as (l & Hl & Hp & Hh). by apply (Hf l).
Qed.

Context (Hsep : separates L R).

Lemma fresh_hot q : fresh q → hot false q.
Proof.
  intros Hf. apply hot_leaf_fresh. split; [done|]. intros [h d] Hv Hv'. cbn [fst] in Hv'.
  destruct Hf as (r & Hr & <- & Hf). assert (Hq := rows_ok_path R r HR Hr).
  rewrite (bt_leaf R _ bR r Hr) in Hv'. injection Hv' as <-.
  destruct (node_cases L _ _ bL Hq) as [(l & Hl & Hp & E)|[[Hd E]|(_ & _ & E)]]; rewrite Hv in E; simplify_eq.
  - by apply (Hf l).
  - pose proof (sp_leaf_r L R Hsep) as Hs. rewrite Forall_forall in Hs. specialize (Hs r Hr).
    rewrite Forall_forall in Hs. by apply (Hs _ (dir_entry_listing L _ _ bL (or_intror Hd))).
Qed.

(** A directory above a fresh leaf is not pruned. *)
Lemma fresh_dir_hot q d : fresh q → d ∈ ancestors q → hot true d.
Proof.
  intros Hf Ha. pose proof Hf as (r & Hr & Hp & _). assert (Hq := rows_ok_path R r HR Hr). rewrite Hp in Hq.
  assert (HdR : is_dir_of R d) by (exists r; by rewrite Hp).
  pose proof (ancestors_path_ok q d Hq Ha) as Hd. split; [done|].
  eexists. split; [by apply (bt_dir R _ bR)|]. intros [h e] Hv Hh. cbn [fst] in Hh. subst h.
  destruct (node_cases L _ _ bL Hd) as [(l & Hl & _ & E)|[[HdL E]|(_ & _ & E)]];
    rewrite Hv in E; injection E as Eh _ || done.
  - pose proof (sp_leaf_l L R Hsep) as Hs. rewrite Forall_forall in Hs. specialize (Hs l Hl).
    rewrite Forall_forall in Hs. by apply (Hs _ (dir_entry_listing R _ _ bR (or_intror HdR))).
  - symmetry in Eh. apply (fresh_not_equal q Hf), (equal_below L R HL HR d); [done|done|by right|].
    by apply entries_separate; [done..|by right|by right|].
Qed.

Lemma fresh_listed D s q d : progress D [] s → fresh q → d ∈ ancestors q → d ∈ D.
Proof.
  intros Hp Hf Ha. pose proof Hf as (r & Hr & Hpr & _).
  assert (Hq : path_ok q) by (rewrite <- Hpr; by apply (rows_ok_path R r)).
  pose proof (ancestors_path_ok q d Hq Ha) as Hd. revert d Hd Ha.
  apply (path_ind (λ d, d ∈ ancestors q → d ∈ D)). intros d Hd IH Ha.
  rewrite <- (app_nil_r D). apply (pg_closed _ _ _ _ _ Hp); [by apply (fresh_dir_hot q)|].
  destruct (parent_ok d Hd) as [->|Hok].
  - rewrite <- (app_nil_r D). apply (pg_root _ _ _ _ _ Hp).
  - apply IH; [done|]. eapply ancestors_trans; [done|done|]. apply elem_of_ancestors; auto.
Qed.

Lemma fresh_visited D s q : progress D [] s → ELeaf q ∈ s ↔ fresh q.
Proof.
  intros Hp. rewrite (pg_leaf _ _ _ _ _ Hp). split.
  - intros [Hh _]. by apply hot_leaf_fresh.
  - intros Hf. split; [by apply fresh_hot|]. pose proof Hf as (r & Hr & Hpr & _).
    assert (Hq : path_ok q) by (rewrite <- Hpr; by apply (rows_ok_path R r)).
    destruct (parent_ok q Hq) as [->|Hok].
    + rewrite <- (app_nil_r D). apply (pg_root _ _ _ _ _ Hp).
    + eapply fresh_listed; [done..|]. apply elem_of_ancestors; auto.
Qed.

(** Every listed directory contains a difference. *)
Lemma listed_differs p :
  hot true p → ¬ (∀ q, below p q → agree_at L R q).
Proof.
  intros Hh Hag. pose proof Hh as (Hok & h & E & Hne).
  assert (Hd : is_dir_of L p).
  { apply (agree_dir L R HL HR); [done| |by apply hot_true_dir]. intros q _ Ha. apply Hag. by right. }
  apply (Hne _ (bt_dir L _ bL p Hd)). cbn [fst].
  rewrite (agree_entries L R HL HR p) by (intros; by apply Hag).
  rewrite (bt_dir R _ bR p (hot_true_dir p Hh)) in E. by injection E.
Qed.
End descent.

(** The pull finds exactly the differences. Against a responder serving
    the tree of [R], a pull into [L] terminates within one listing per remote
    directory; the leaves it hands to the leaf handler are exactly the remote
    leaves the local index does not hold, each once; and it lists a directory
    only if the two indexes disagree somewhere below it, never twice. *)
Theorem reconcile_pull_exact `{!Blake3, !Bincode} (L R : list FileRow) :
  rows_ok L → rows_ok R → separates L R →
  ∃ calls report,
    reconcile_pull (traced R) (build L) (size (mt_dirs (build R))) [] = Some (Ok (calls, report)) ∧
    NoDup calls ∧
    (∀ q, ELeaf q ∈ calls ↔ fresh L R q) ∧
    (∀ p, EReq p ∈ calls → ¬ ∀ q, below p q → agree_at L R q).
Proof.
  intros HL HR Hsep. unfold reconcile_pull. unfold traced at 1. cbn [se_root]. fold (traced R).
  pose proof (root_agree L R HL HR Hsep) as Hroot. case_bool_decide as Heq.
  - symmetry in Heq. exists [], report0. split_and!; [done|apply NoDup_nil_2| |set_solver].
    intros q. split; [set_solver|]. intros (r & Hr & Hp & Hf).
    destruct (proj1 Hroot Heq q) as [Hc _]. destruct (Hc r Hr Hp) as (l & Hl & Hpl & Hh).
    by destruct (Hf l Hl Hpl).
  - assert (Hstart : progress (hot L R true) (hot L R false) [] [EmptyString] []).
    { split; simpl; try set_solver.
      - apply NoDup_singleton.
      - apply NoDup_nil_2. }
    destruct (pull_loop_progress L R HR (size (mt_dirs (build R))) [] [EmptyString] [] report0 Hstart)
      as (D & s & rep & Hrun & Hp); [lia|].
    exists s, rep. split_and!; [done|apply (pg_trace_nodup _ _ _ _ _ Hp)|..].
    + intros q. by apply (fresh_visited L R HL HR Hsep D).
    + intros p Hin%(pg_req _ _ _ _ _ Hp).
      assert (Hin' : p ∈ D ++ []) by by rewrite app_nil_r.
      destruct (pg_open _ _ _ _ _ Hp p Hin') as [->|[Hh _]]; [|by apply listed_differs].
      intros Hag. apply Heq. symmetry. apply Hroot. intros q. apply Hag. by left.
Qed.

(** ** The paged listing *)

Section paging.
Context `{!Blake3, !Bincode}.

Abbreviation Entry := (string * (hash32 * bool))%type.

Definition name_fits (n : string) : Prop := n ≠ EmptyString ∧ Z.of_nat (String.length n) ≤ 255.
Definition entry_cost (p : Entry) : Z := Z.of_nat (String.length p.1) + 33.
Fixpoint cost (l : list Entry) : Z :=
  match l with [] => 0 | p :: l => entry_cost p + cost l end.

Lemma page_loop_take n (l : list Entry) :
  page_loop n l = (wire_child <$> take n l, match drop n l with [] => false | _ :: _ => true end).
Proof.
  revert l. induction n as [|n IH]; intros [|p l]; simpl; [done..|]. by rewrite IH.
Qed.

Lemma cost_app l k : cost (l ++ k) = cost l + cost k.
Proof. induction l as [|p l IH]; simpl; [done|]. rewrite IH. lia. Qed.

Lemma cost_nonneg l : 0 ≤ cost l.
Proof. induction l as [|p l IH]; simpl; [done|]. unfold entry_cost. lia. Qed.

Lemma charge_page_ok budget l :
  Forall (λ p, name_fits p.1) l → cost l ≤ budget →
  charge_page budget (wire_child <$> l) = Ok (budget - cost l).
Proof.
  intros Hl. revert budget. induction Hl as [|[n v] l [Hne Hlen] Hl IH]; intros budget Hc; simpl in *.
  - f_equal. lia.
  - pose proof (cost_nonneg l). unfold entry_cost in *. simpl in *.
    rewrite bool_decide_false; [|intros [Hz|Hz]; [destruct n; simpl in *; [done|lia]|lia]].
    rewrite bool_decide_false by lia. rewrite IH by lia. f_equal. lia.
Qed.

(** An accepted page spends at least 34 bytes per child. *)
Lemma charge_page_spends budget page b :
  charge_page budget page = Ok b → 0 ≤ budget → 0 ≤ b ∧ b + 34 * Z.of_nat (length page) ≤ budget.
Proof.
  revert budget. induction page as [|c page IH]; intros budget; simpl; [intros [= ->]; lia|].
  case_bool_decide as Hn; [done|]. case_bool_decide as Hb; [done|]. intros Hc Hpos.
  apply IH in Hc; lia.
Qed.

(** Whatever the responder sends, the listing ends. *)
Lemma children_loop_ends fuel answer i after budget out :
  0 ≤ budget < 34 * Z.of_nat fuel → children_loop fuel answer i after budget out ≠ None.
Proof.
  revert i after budget out. induction fuel as [|fuel IH]; intros i after budget out Hb; simpl; [lia|].
  destruct (answer i after) as [[page more]|]; [|done]. case_bool_decide; [done|].
  destruct (more && bool_decide (page = [])) eqn:Hm; [done|].
  destruct (charge_page budget page) as [b|] eqn:Hc; [|done]. destruct more; [|done].
  apply charge_page_spends in Hc; [|lia]. apply IH.
  assert (page ≠ []) by (by intros ->). destruct page; [done|]. simpl in Hc. lia.
Qed.

Lemma filter_none {A} (P : A → Prop) `{!∀ x, Decision (P x)} l : Forall (λ x, ¬ P x) l → filter P l = [].
Proof. induction 1; [done|]. by rewrite filter_cons_False. Qed.
(** In a strictly sorted list, what lies after a member is what follows it. *)
Lemma filter_after (l rest : list Entry) x :
  StronglySorted (λ p q, ord_lt p.1 q.1) (l ++ x :: rest) →
  filter (λ p, ¬ ord_le p.1 x.1) (l ++ x :: rest) = rest.
Proof.
  intros (Hlt & _ & Hr)%StronglySorted_app. apply StronglySorted_cons in Hr as [Hr _].
  rewrite filter_app, filter_cons_False by (intros Hn; apply Hn; reflexivity).
  rewrite filter_none, filter_all; [done|..].
  - eapply Forall_impl; [exact Hr|]. intros y Hy. by apply not_ord_le.
  - apply Forall_forall. intros y Hy Hn. apply Hn, ord_lt_le, Hlt; [done|by left].
Qed.

Lemma btree_iter_strict (c : Children) : StronglySorted (λ p q, ord_lt p.1 q.1) (btree_iter c).
Proof.
  pose proof (btree_iter_sorted c) as Hs. pose proof (NoDup_btree_keys c) as Hnd. unfold btree_keys in Hnd.
  induction Hs as [|p l Hs IH Hp]; [constructor|]. apply NoDup_cons in Hnd as [Hni Hnd].
  constructor; [by apply IH|]. rewrite Forall_forall in Hp |- *. intros q Hq.
  pose proof (Hp q Hq) as [Heq|]%ord_le_alt; [|done]. destruct Hni. rewrite Heq.
  apply list_elem_of_fmap. by exists q.
Qed.

(** The listing in progress: [l] received, [rest] to come. *)
Definition resume (l : list Entry) : string := default EmptyString (fst <$> last l).

Lemma range_resume (c : Children) l rest :
  btree_iter c = l ++ rest → Forall (λ p, name_fits p.1) (btree_iter c) → range_after c (resume l) = rest.
Proof.
  intros Heq Hfit. unfold range_after, resume. pose proof (btree_iter_strict c) as Hs. rewrite Heq in *.
  destruct l as [|x l _] using rev_ind; simpl.
  - apply filter_all. eapply Forall_impl; [exact Hfit|]. intros [n v] [Hne _]. simpl in *.
    apply not_ord_le. unfold ord_lt, cmp, string_ord. destruct n; done.
  - rewrite last_snoc. simpl. rewrite <- (assoc_L (++)) in *. by apply filter_after.
Qed.

Lemma children_loop_exact t prefix (c : Children) fuel i budget l rest :
  mt_dirs t !! prefix = Some c → Forall (λ p, name_fits p.1) (btree_iter c) →
  btree_iter c = l ++ rest → cost rest ≤ budget < 34 * Z.of_nat fuel →
  children_loop fuel (λ _ after, Some (serve_tree_req t prefix after TREE_PAGE)) i (resume l) budget
    (wire_child <$> l) = Some (Ok (wire_child <$> btree_iter c)).
Proof.
  intros Hc Hfit. revert i budget l rest.
  induction fuel as [|fuel IH]; intros i budget l rest Heq Hb; pose proof (cost_nonneg rest); [simpl in Hb; lia|].
  set (page := take 512 rest).
  assert (Hserve : serve_tree_req t prefix (resume l) TREE_PAGE =
    (wire_child <$> page, match drop 512 rest with [] => false | _ :: _ => true end)).
  { unfold serve_tree_req, children_page. by rewrite Hc, (range_resume c l rest Heq Hfit), page_loop_take. }
  cbn [children_loop]. rewrite Hserve. clear Hserve.
  assert (Hlen : Z.of_nat (length page) ≤ 512) by (subst page; rewrite length_take; lia).
  assert (Hpf : Forall (λ p : Entry, name_fits p.1) page).
  { rewrite Heq in Hfit. apply Forall_app in Hfit as [_ Hfit]. by apply Forall_take. }
  assert (Hrest : rest = page ++ drop 512 rest) by (symmetry; apply take_drop).
  rewrite bool_decide_false; [|rewrite length_fmap; unfold as_u32; rewrite Z.mod_small; unfold u32_modulus, TREE_PAGE; lia].
  rewrite Hrest, cost_app in Hb. pose proof (cost_nonneg (drop 512 rest)).
  rewrite charge_page_ok by (done || lia).
  destruct (drop 512 rest) as [|y k] eqn:Hd; simpl andb; cbn iota.
  - rewrite app_nil_r in Hrest. subst page. by rewrite <- Hrest, <- fmap_app, Heq.
  - assert (Hne : page ≠ []).
    { intros Hn. subst page. destruct rest as [|x r]; [by rewrite drop_nil in Hd|done]. }
    rewrite bool_decide_false by (by destruct page).
    assert (Hlast : match last (wire_child <$> page) with Some c => wc_name c | None => resume l end
                    = resume (l ++ page)).
    { unfold resume. rewrite last_app, fmap_last. by destruct (last page) eqn:E; [|apply last_None in E]. }
    rewrite Hlast, <- fmap_app. apply (IH _ _ _ (y :: k)).
    + by rewrite Heq, Hrest at 1; rewrite (assoc_L (++)).
    + destruct page as [|x page']; [done|]. cbn [cost] in Hb |- *. rewrite Nat2Z.inj_succ in Hb.
      pose proof (cost_nonneg page'). unfold entry_cost in *. apply Forall_cons in Hpf as [[Hnx _] _].
      assert (1 ≤ Z.of_nat (String.length x.1)) by (destruct (x.1); [done|simpl; lia]). lia.
Qed.
End paging.

(** Listing a directory over pages is exact and always ends. Against an
    honest responder serving [t], a directory whose names fit the file
    system's bound and whose listing fits the byte budget is received whole
    and in order, each child once, however many pages it takes; and against
    any responder whatsoever, one that repeats pages for ever included, the
    loop ends with a listing or a violation. *)
Theorem paged_listing_exact `{!Blake3, !Bincode} (t : MerkleTree) (prefix : string) (c : Children)
    (answer : nat → string → option (list WireChild * bool)) :
  mt_dirs t !! prefix = Some c →
  Forall (λ p, name_fits p.1) (btree_iter c) → cost (btree_iter c) ≤ LISTING_BUDGET →
  children_loop LISTING_FUEL (λ _ after, Some (serve_tree_req t prefix after TREE_PAGE)) 0 "" LISTING_BUDGET []
    = Some (Ok (wire_child <$> btree_iter c)) ∧
  children_loop LISTING_FUEL answer 0 "" LISTING_BUDGET [] ≠ None.
Proof.
  intros Hc Hfit Hcost.
  assert (Hfuel : LISTING_BUDGET < 34 * Z.of_nat LISTING_FUEL).
  { unfold LISTING_FUEL. rewrite Z2Nat.id by done. done. }
  revert Hfuel. generalize LISTING_FUEL. intros fuel Hfuel.
  split; [|apply children_loop_ends; split; [done|exact Hfuel]].
  by apply (children_loop_exact t prefix c fuel 0 LISTING_BUDGET [] (btree_iter c)).
Qed.

(** ** Witnesses and limits *)

Module MerkleEx.
#[export] Existing Instance toy_blake3.
#[export] Existing Instance toy_bincode.

Definition row (path : string) (tomb : bool) (b : byte) : FileRow :=
  mkFileRow path (if tomb then None else Some (fill 32 b)) 420 1 tomb ∅ None None.
Definition here : list FileRow := [row "a" false x01; row "d/b" false x02; row "e/f" false x09].
Definition there : list FileRow := [row "e/f" false x09; row "d/b" false x03; row "d/c" true x00].
End MerkleEx.
Import MerkleEx.

Ltac rows_ok_decide := split; vm_decide.

Lemma merkle_root_exact_witness :
  mt_root (build here) = mt_root (build there) ↔ ∀ q, agree_at here there q.
Proof.
  apply (merkle_root_exact here there).
  - rows_ok_decide.
  - rows_ok_decide.
  - split; vm_decide.
Defined.

Lemma reconcile_pull_exact_witness :
  ∃ calls report,
    reconcile_pull (traced there) (build here) (size (mt_dirs (build there))) [] = Some (Ok (calls, report)) ∧
    NoDup calls.
Proof.
  destruct (reconcile_pull_exact here there) as (calls & report & Hrun & Hnd & _).
  - rows_ok_decide.
  - rows_ok_decide.
  - split; vm_decide.
  - exists calls, report. split; [exact Hrun|exact Hnd].
Defined.

(** The calls of that pull: the root and the one differing directory. *)
Example pull_calls :
  match reconcile_pull (traced there) (build here) 10 [] with
  | Some (Ok (calls, _)) => calls
  | _ => []
  end = [EReq ""; EReq "d"; ELeaf "d/b"; ELeaf "d/c"].
Proof. vm_decide. Qed.

Lemma paged_listing_exact_witness :
  children_loop LISTING_FUEL (λ _ after, Some (serve_tree_req (build there) "d" after TREE_PAGE)) 0 ""
    LISTING_BUDGET [] =
  Some (Ok (wire_child <$> btree_iter (dir_entry (mt_dirs (build there)) "d"))).
Proof.
  apply (paged_listing_exact (build there) "d" (dir_entry (mt_dirs (build there)) "d") (λ _ _, None)).
  - vm_decide.
  - vm_decide.
  - vm_decide.
Defined.

(** A row whose path is a directory above another row does not reach the
    root hash: a tombstone left where a directory has since appeared is
    invisible to anti-entropy, whatever its version. *)
Theorem shadowed_tombstone_invisible :
  mt_root (build [row "a" true x00; row "a/b" false x01]) =
  mt_root (build [row "a" false x07; row "a/b" false x01]).
Proof. vm_decide. Qed.

(** With such rows the supply order matters. *)
Theorem clashing_rows_order_dependent :
  mt_root (build [row "a" true x00; row "a/b" false x01]) ≠
  mt_root (build [row "a/b" false x01; row "a" true x00]).
Proof. vm_decide. Qed.

(** The puller of such a tree never asks for the tombstone. *)
Theorem shadowed_tombstone_not_pulled :
  match reconcile_pull (traced [row "a" true x00; row "a/b" false x01]) (build [row "a" false x07]) 10 [] with
  | Some (Ok (calls, _)) => calls
  | _ => []
  end = [EReq ""; EReq "a"; ELeaf "a/b"].
Proof. vm_decide. Qed.
