(* ===== verification/Chunk.v ===== *)
(** * Chunking and the content-addressed store (src/src/chunk.rs)

    The store is a map from chunk identities to the bytes found in the chunk
    file, which bit rot may have changed. The content-defined chunker
    (fastcdc) is a parameter: it cuts a file into pieces that concatenate to
    the file. File-system outcomes are inputs. *)

From S2P Require Import Prelude Vv Metadata Conflict State.

Module CasError.
Inductive t : Type :=
| Io (ctx : string) (kind : IoKind)
| HashMismatch
| Missing (hex : string)
| Chunker.
End CasError.
Abbreviation CasError := CasError.t.

#[export] Instance cas_error_eq_dec : EqDecision CasError.
Proof. solve_decision. Defined.

Record ChunkParams : Type := mkChunkParams { cp_min : Z; cp_avg : Z; cp_max : Z }.

(** [Manifest::total_len], a sum of u32 lengths as u64. *)
Definition total_len (m : Manifest) : Z :=
  foldr (λ c acc, ce_len c + acc) 0 (mf_chunks m).

(** fastcdc's streaming chunker and what it documents. *)
Class Cdc := stream_cdc : ChunkParams → list byte → list (list byte).
Class CdcLaws `{!Cdc} : Prop := cdc_concat params data : concat (stream_cdc params data) = data.

(** The chunk files under the store's root, by identity. *)
Abbreviation Cas := (gmap hash32 (list byte)).

(** An open output file: its bytes and the write position. *)
Record OutFile : Type := mkOutFile { of_data : list byte; of_pos : nat }.

(** Writing at a position past the end leaves a hole of zeros. *)
Definition pad_to (n : nat) (data : list byte) : list byte :=
  data ++ replicate (n - length data) x00.
Definition write_all (f : OutFile) (bytes : list byte) : OutFile :=
  let data := pad_to (of_pos f) (of_data f) in
  mkOutFile (take (of_pos f) data ++ bytes ++ drop (of_pos f + length bytes) data)
    (of_pos f + length bytes).
Definition seek_start (f : OutFile) (pos : nat) : OutFile := mkOutFile (of_data f) pos.
Definition set_len (f : OutFile) (len : nat) : OutFile :=
  mkOutFile (take len (pad_to len (of_data f))) (of_pos f).

Module Cas.
Section with_externals.
Context `{!Blake3, !Hex}.

Definition has (cas : Cas) (h : hash32) : bool := bool_decide (is_Some (cas !! h)).

(** [fault] is what stops the staging of the temp file, if anything does; the
    rename is the last step that can fail. *)
Definition put_verified (cas : Cas) (h : hash32) (bytes : list byte) (fault : option (string * IoKind))
  : Cas * result CasError unit :=
  if bool_decide (blake3 bytes ≠ h) then (cas, Err CasError.HashMismatch) else
  if has cas h then (cas, Ok ()) else
  match fault with
  | Some (ctx, k) => (cas, Err (CasError.Io ctx k))
  | None => (<[h := bytes]> cas, Ok ())
  end.

(** Read back and verify; a chunk that does not verify is unlinked, when the
    unlink goes through. *)
Definition read (cas : Cas) (h : hash32) (fault : option IoKind) (unlink_ok : bool)
  : Cas * result CasError (list byte) :=
  match fault with
  | Some NotFound => (cas, Err (CasError.Missing (hex_encode (ba_list h))))
  | Some k => (cas, Err (CasError.Io "read" k))
  | None =>
      match cas !! h with
      | None => (cas, Err (CasError.Missing (hex_encode (ba_list h))))
      | Some bytes =>
          if bool_decide (blake3 bytes ≠ h)
          then (if unlink_ok then delete h cas else cas, Err CasError.HashMismatch)
          else (cas, Ok bytes)
      end
  end.

(** A chunk opened for serving: bytes as they are, and their number. *)
Definition open_reader (cas : Cas) (h : hash32) (fault : option (string * IoKind))
  : result CasError (list byte * Z) :=
  match cas !! h, fault with
  | None, _ => Err (CasError.Missing (hex_encode (ba_list h)))
  | Some _, Some (ctx, k) => Err (CasError.Io ctx k)
  | Some bytes, None => Ok (bytes, Z.of_nat (length bytes))
  end.
End with_externals.
End Cas.

(** What the kernel does to one chunk of an assembly: the outcome of the read,
    of the unlink of a corrupt chunk, and of the write or seek. *)
Record ChunkIo : Type := mkChunkIo { ci_read : option IoKind; ci_unlink : bool; ci_out : option IoKind }.
Definition quiet_io : ChunkIo := mkChunkIo None true None.
Definition io_quiet (io : ChunkIo) : bool := bool_decide (ci_read io = None) && bool_decide (ci_out io = None).

Section chunk_ops.
Context `{!Blake3, !Hex, !Cdc}.

(** The items of the chunker's iterator: the pieces, cut short by a read error
    after [cut] of them. *)
Definition stream_items (params : ChunkParams) (data : list byte) (cut : option nat) : list (option (list byte)) :=
  match cut with
  | None => Some <$> stream_cdc params data
  | Some n => (Some <$> take n (stream_cdc params data)) ++ [None]
  end.

(** The loop of [chunk_file_into_cas] over the items: the hashed bytes and
    the entries so far; [faults] are the outcomes of the inserts. *)
Fixpoint chunk_pieces (cas : Cas) (items : list (option (list byte))) (faults : list (option (string * IoKind)))
    (whole : list byte) (chunks : list ChunkEntry) : Cas * result CasError (list byte * list ChunkEntry) :=
  match items with
  | [] => (cas, Ok (whole, chunks))
  | None :: _ => (cas, Err CasError.Chunker)
  | Some piece :: items =>
      let h := blake3 piece in
      match Cas.put_verified cas h piece (default None (head faults)) with
      | (cas, Err e) => (cas, Err e)
      | (cas, Ok _) =>
          chunk_pieces cas items (tail faults) (whole ++ piece)
            (chunks ++ [mkChunkEntry h (as_u32 (Z.of_nat (length piece)))])
      end
  end.

Definition chunk_file_into_cas (cas : Cas) (params : ChunkParams) (file : result IoKind (list byte))
    (cut : option nat) (faults : list (option (string * IoKind))) : Cas * result CasError Manifest :=
  match file with
  | Err k => (cas, Err (CasError.Io "open" k))
  | Ok data =>
      match chunk_pieces cas (stream_items params data cut) faults [] [] with
      | (cas, Ok (whole, chunks)) => (cas, Ok (mkManifest (blake3 whole) chunks))
      | (cas, Err e) => (cas, Err e)
      end
  end.

Definition all_zero (bytes : list byte) : bool := forallb (λ b, bool_decide (b = x00)) bytes.

(** The loop of [assemble_from_cas]: an all-zero chunk becomes a hole. *)
Fixpoint assemble_chunks (cas : Cas) (chunks : list ChunkEntry) (io : list ChunkIo) (out : OutFile)
    (offset : nat) (whole : list byte) : Cas * result CasError (OutFile * nat * list byte) :=
  match chunks with
  | [] => (cas, Ok (out, offset, whole))
  | entry :: chunks =>
      let ev := default quiet_io (head io) in
      match Cas.read cas (ce_hash entry) (ci_read ev) (ci_unlink ev) with
      | (cas, Err e) => (cas, Err e)
      | (cas, Ok bytes) =>
          if bool_decide (as_u32 (Z.of_nat (length bytes)) ≠ ce_len entry)
          then (cas, Err CasError.HashMismatch)
          else
            let offset' := (offset + length bytes)%nat in
            match ci_out ev with
            | Some k => (cas, Err (CasError.Io (if all_zero bytes then "seek" else "write") k))
            | None =>
                let out := if all_zero bytes then seek_start out offset' else write_all out bytes in
                assemble_chunks cas chunks (tail io) out offset' (whole ++ bytes)
            end
      end
  end.

(** The file written into the fresh output and the hash of what was streamed. *)
Definition assemble_from_cas (cas : Cas) (manifest : Manifest) (io : list ChunkIo) (trunc : option IoKind)
  : Cas * result CasError (list byte * hash32) :=
  match assemble_chunks cas (mf_chunks manifest) io (mkOutFile [] 0) 0 [] with
  | (cas, Ok (out, offset, whole)) =>
      match trunc with
      | Some k => (cas, Err (CasError.Io "truncate" k))
      | None => (cas, Ok (of_data (set_len out offset), blake3 whole))
      end
  | (cas, Err e) => (cas, Err e)
  end.
End chunk_ops.

(** ** Integrity of the store *)

(** Every chunk file holds the bytes it is named after. *)
Definition cas_ok `{!Blake3} (cas : Cas) : Prop := map_Forall (λ h bytes, blake3 bytes = h) cas.

Section chunk_props.
Context `{!Blake3, !Hex, !Cdc}.

Lemma put_verified_ok cas h bytes fault : cas_ok cas → cas_ok (Cas.put_verified cas h bytes fault).1.
Proof.
  intros Hok. unfold Cas.put_verified. case_bool_decide as Hh; [done|]. destruct (Cas.has cas h); [done|].
  destruct fault as [[ctx k]|]; [done|]. apply map_Forall_insert_2; [|done]. done.
Qed.

Lemma put_verified_keeps cas h bytes fault : cas ⊆ (Cas.put_verified cas h bytes fault).1.
Proof.
  unfold Cas.put_verified. case_bool_decide; [done|]. unfold Cas.has. case_bool_decide as Hs; [done|].
  destruct fault as [[ctx k]|]; [done|]. apply insert_subseteq. by apply eq_None_not_Some.
Qed.

Lemma put_verified_present cas h bytes fault :
  (Cas.put_verified cas h bytes fault).2 = Ok () →
  blake3 bytes = h ∧ is_Some ((Cas.put_verified cas h bytes fault).1 !! h).
Proof.
  unfold Cas.put_verified. case_bool_decide as Hh; [done|]. unfold Cas.has.
  case_bool_decide as Hs; [done|]. destruct fault as [[ctx k]|]; [done|]. intros _. split; [done|].
  simpl. by rewrite lookup_insert_eq.
Qed.

Lemma read_verified cas h fault unlink bytes :
  (Cas.read cas h fault unlink).2 = Ok bytes →
  blake3 bytes = h ∧ cas !! h = Some bytes ∧ (Cas.read cas h fault unlink).1 = cas.
Proof.
  unfold Cas.read. destruct fault as [[]|]; [done..|]. destruct (cas !! h) as [b|]; [|done].
  case_bool_decide as Hb; [done|]. by intros [= ->].
Qed.

Lemma read_shrinks cas h fault unlink : (Cas.read cas h fault unlink).1 ⊆ cas.
Proof.
  unfold Cas.read. destruct fault as [[]|]; [done..|]. destruct (cas !! h) as [b|]; [|done].
  case_bool_decide; [|done]. destruct unlink; [apply delete_subseteq|done].
Qed.

(** ** Sparse assembly is assembly *)

Lemma all_zero_replicate bytes : all_zero bytes = true → bytes = replicate (length bytes) x00.
Proof.
  unfold all_zero. induction bytes as [|b bytes IH]; simpl; [done|].
  intros [Hb Hr]%andb_true_iff. apply bool_decide_eq_true in Hb as ->. f_equal. by apply IH.
Qed.

(** The output in progress: [whole] has been streamed, the file holds it up to
    trailing zeros not yet written. *)
Definition holds (out : OutFile) (whole : list byte) : Prop :=
  of_pos out = length whole ∧ (length (of_data out) ≤ length whole)%nat ∧
  pad_to (length whole) (of_data out) = whole.

Lemma holds_seek out whole bytes :
  holds out whole → all_zero bytes = true →
  holds (seek_start out (length whole + length bytes)) (whole ++ bytes).
Proof.
  intros (Hpos & Hlen & Hpad) Hz. split_and!; simpl; rewrite length_app; [done|lia|].
  assert (Hw : whole ++ bytes = pad_to (length whole) (of_data out) ++ replicate (length bytes) x00).
  { by rewrite Hpad, <- (all_zero_replicate bytes Hz). }
  rewrite Hw. unfold pad_to.
  rewrite <- (assoc_L (++)), <- replicate_add. do 2 f_equal. lia.
Qed.

Lemma holds_write out whole bytes : holds out whole → holds (write_all out bytes) (whole ++ bytes).
Proof.
  intros (Hpos & Hlen & Hpad). unfold write_all. rewrite Hpos, Hpad.
  rewrite (take_ge whole) by done. rewrite (drop_ge whole) by lia. rewrite app_nil_r.
  split_and!; simpl; rewrite length_app; [done..|]. unfold pad_to.
  rewrite length_app, Nat.sub_diag. simpl. by rewrite app_nil_r.
Qed.

Lemma holds_set_len out whole : holds out whole → of_data (set_len out (length whole)) = whole.
Proof. intros (_ & _ & Hpad). simpl. rewrite Hpad. by apply take_ge. Qed.

(** The reference: look every chunk up, check its identity and length, and
    concatenate. *)
Definition chunk_bytes_of (cas : Cas) (e : ChunkEntry) : option (list byte) :=
  bytes ← cas !! ce_hash e;
  if bool_decide (blake3 bytes = ce_hash e ∧ as_u32 (Z.of_nat (length bytes)) = ce_len e)
  then Some bytes else None.

Lemma chunk_bytes_of_read cas e fault unlink :
  match (Cas.read cas (ce_hash e) fault unlink).2 with
  | Ok bytes => chunk_bytes_of cas e
      = if bool_decide (as_u32 (Z.of_nat (length bytes)) ≠ ce_len e) then None else Some bytes
  | Err _ => chunk_bytes_of cas e = None ∨ is_Some fault
  end.
Proof.
  unfold chunk_bytes_of, Cas.read. destruct fault as [[]|]; simpl; try by right.
  destruct (cas !! ce_hash e) as [b|]; simpl; [|by left].
  repeat case_bool_decide; simpl; try case_bool_decide; naive_solver.
Qed.

Lemma assemble_chunks_spec cas chunks io out whole :
  holds out whole →
  let '(cas', res) := assemble_chunks cas chunks io out (length whole) whole in
  cas' ⊆ cas ∧
  match res with
  | Ok (out', offset, whole') => cas' = cas ∧ ∃ pieces, mapM (chunk_bytes_of cas) chunks = Some pieces ∧
      whole' = whole ++ concat pieces ∧ offset = length whole' ∧ holds out' whole'
  | Err _ => mapM (chunk_bytes_of cas) chunks = None ∨ ∃ ev, ev ∈ io ∧ io_quiet ev = false
  end.
Proof.
  revert io out whole. induction chunks as [|e chunks IH]; intros io out whole Hh; simpl.
  { split; [done|]. split; [done|]. exists []. by rewrite app_nil_r. }
  set (ev := default quiet_io (head io)).
  assert (Hev : io_quiet ev = false → ∃ ev, ev ∈ io ∧ io_quiet ev = false).
  { subst ev. destruct io as [|ev io]; simpl; [done|]. intros Hq. exists ev. split; [by left|done]. }
  pose proof (chunk_bytes_of_read cas e (ci_read ev) (ci_unlink ev)) as Hc.
  pose proof (read_shrinks cas (ce_hash e) (ci_read ev) (ci_unlink ev)) as Hsub.
  pose proof (read_verified cas (ce_hash e) (ci_read ev) (ci_unlink ev)) as Hv.
  destruct (Cas.read _ _ _ _) as [cas1 [bytes|err]]; simpl in *.
  2:{ split; [done|]. destruct Hc as [->|[k Hk]]; [by left|]. right. apply Hev. unfold io_quiet.
      by rewrite Hk. }
  destruct (Hv bytes eq_refl) as (_ & _ & ->). rewrite Hc. case_bool_decide as Hlen; simpl.
  { split; [done|by left]. }
  destruct (ci_out ev) as [k|] eqn:Hk.
  { split; [done|right]. apply Hev. unfold io_quiet. rewrite Hk. by rewrite andb_false_r. }
  set (out' := if all_zero bytes then _ else _).
  assert (Hh' : holds out' (whole ++ bytes)).
  { subst out'. destruct (all_zero bytes) eqn:Hz; [by apply holds_seek|by apply holds_write]. }
  specialize (IH (tail io) out' (whole ++ bytes) Hh'). rewrite length_app in IH.
  destruct (assemble_chunks cas chunks (tail io) out' _ _) as [cas' [[[o off] w]|err]].
  - destruct IH as (_ & -> & pieces & -> & -> & -> & Ho). split; [done|]. split; [done|].
    exists (bytes :: pieces). simpl. by rewrite (assoc_L (++)) in *.
  - destruct IH as (Hs & [->|(ev' & Hin & Hq)]); (split; [done|]); [by left|right].
    exists ev'. split; [|done]. destruct io; [done|by right].
Qed.

Lemma assemble_from_cas_spec cas manifest io trunc :
  let '(cas', res) := assemble_from_cas cas manifest io trunc in
  cas' ⊆ cas ∧
  match res with
  | Ok (data, h) => cas' = cas ∧ h = blake3 data ∧
      @concat byte <$> mapM (chunk_bytes_of cas) (mf_chunks manifest) = Some data
  | Err _ => mapM (chunk_bytes_of cas) (mf_chunks manifest) = None ∨ is_Some trunc ∨
      ∃ ev, ev ∈ io ∧ io_quiet ev = false
  end.
Proof.
  unfold assemble_from_cas.
  assert (Hh : holds (mkOutFile [] 0) []) by done.
  pose proof (assemble_chunks_spec cas (mf_chunks manifest) io _ [] Hh) as Hs. simpl in Hs.
  destruct (assemble_chunks _ _ _ _ _ _) as [cas' [[[o off] w]|err]].
  - destruct Hs as (Hsub & -> & pieces & Hp & -> & -> & Ho).
    destruct trunc as [k|]; [split; [done|]; right; by left|]. split; [done|].
    rewrite holds_set_len by done. by rewrite Hp.
  - destruct Hs as (Hsub & [Hn|Hq]); (split; [done|]); auto.
Qed.

(** The assembly of a manifest is the concatenation of its chunks: it returns
    exactly the bytes named by the manifest, and the hash of exactly these,
    although all-zero chunks are never written; it fails only when a chunk is
    missing, does not verify or has another length than the manifest says, or
    when an I/O call fails, and the store never gains a chunk by it. *)
Theorem assemble_from_cas_exact cas manifest io trunc :
  let '(cas', res) := assemble_from_cas cas manifest io trunc in
  cas' ⊆ cas ∧
  match res with
  | Ok (data, h) => cas' = cas ∧ h = blake3 data ∧
      @concat byte <$> mapM (chunk_bytes_of cas) (mf_chunks manifest) = Some data
  | Err _ => mapM (chunk_bytes_of cas) (mf_chunks manifest) = None ∨ is_Some trunc ∨
      ∃ ev, ev ∈ io ∧ io_quiet ev = false
  end.
Proof. apply assemble_from_cas_spec. Qed.
End chunk_props.

Section chunk_roundtrip.
Context `{!Blake3, !Hex, !Cdc}.

(** The pieces are told apart from each other and from what the store holds. *)
Definition pieces_separate (cas : Cas) (pieces : list (list byte)) : Prop :=
  Forall (λ p, Forall (λ q, blake3 q = blake3 p → q = p) (pieces ++ (map_to_list cas).*2)) pieces.

Definition stored (cas : Cas) (pieces : list (list byte)) : Prop :=
  Forall (λ p, cas !! blake3 p = Some p) pieces.

(** What the store holds under the pieces' names is the pieces. *)
Definition clean (pieces : list (list byte)) (cas : Cas) : Prop :=
  ∀ p b, p ∈ pieces → cas !! blake3 p = Some b → b = p.

Lemma separate_clean cas pieces :
  cas_ok cas → pieces_separate cas pieces →
  clean pieces cas ∧ ∀ p q, p ∈ pieces → q ∈ pieces → blake3 q = blake3 p → q = p.
Proof.
  intros Hok Hsep. unfold pieces_separate in Hsep. rewrite Forall_forall in Hsep. setoid_rewrite Forall_forall in Hsep.
  split.
  - intros p b Hp Hb. apply (Hsep p Hp); [|by apply (map_Forall_lookup_1 _ _ _ _ Hok Hb)].
    apply elem_of_app. right. apply list_elem_of_fmap. exists (blake3 p, b). split; [done|by apply elem_of_map_to_list].
  - intros p q Hp Hq. apply (Hsep p Hp). apply elem_of_app. by left.
Qed.

Definition entry_of (piece : list byte) : ChunkEntry :=
  mkChunkEntry (blake3 piece) (as_u32 (Z.of_nat (length piece))).

Lemma stored_mono cas cas' pieces : cas ⊆ cas' → stored cas pieces → stored cas' pieces.
Proof. intros Hsub Hst. eapply Forall_impl; [exact Hst|]. intros p Hp. by apply (lookup_weaken cas). Qed.

Lemma put_piece cas p fault :
  cas_ok cas → (∀ b, cas !! blake3 p = Some b → b = p) →
  (Cas.put_verified cas (blake3 p) p fault).2 = Ok () →
  (Cas.put_verified cas (blake3 p) p fault).1 !! blake3 p = Some p.
Proof.
  intros Hok Hsep. unfold Cas.put_verified. rewrite bool_decide_false by (intros Hn; by apply Hn).
  unfold Cas.has. case_bool_decide as Hs; simpl.
  - intros _. destruct Hs as [b Hb]. by rewrite Hb, (Hsep b Hb).
  - destruct fault as [[ctx k]|]; [done|]. intros _. simpl. apply lookup_insert_eq.
Qed.

Lemma put_piece_new cas p fault q b :
  (Cas.put_verified cas (blake3 p) p fault).1 !! q = Some b →
  cas !! q = Some b ∨ q = blake3 p ∧ b = p.
Proof.
  unfold Cas.put_verified. case_bool_decide; [by left|]. destruct (Cas.has _ _); [by left|].
  destruct fault as [[? ?]|]; [by left|]. simpl.
  intros [[<- <-]|[? ?]]%lookup_insert_Some; [by right|by left].
Qed.

Lemma put_piece_err cas p faults e :
  (Cas.put_verified cas (blake3 p) p (default None (head faults))).2 = Err e →
  ∃ f, f ∈ faults ∧ is_Some f.
Proof.
  unfold Cas.put_verified. rewrite bool_decide_false by (intros Hn; by apply Hn).
  destruct (Cas.has _ _); [done|]. destruct faults as [|[f|] faults]; simpl; try done.
  intros _. exists (Some f). split; [by left|done].
Qed.

Lemma chunk_pieces_spec pieces cas faults whole chunks :
  cas_ok cas →
  (∀ p q, p ∈ pieces → q ∈ pieces → blake3 q = blake3 p → q = p) →
  (∀ p b, p ∈ pieces → cas !! blake3 p = Some b → b = p) →
  let '(cas', res) := chunk_pieces cas (Some <$> pieces) faults whole chunks in
  cas_ok cas' ∧ cas ⊆ cas' ∧
  match res with
  | Ok (w, cs) => w = whole ++ concat pieces ∧ cs = chunks ++ (entry_of <$> pieces) ∧ stored cas' pieces
  | Err _ => ∃ f, f ∈ faults ∧ is_Some f
  end.
Proof.
  revert cas faults whole chunks.
  induction pieces as [|p pieces IH]; intros cas faults whole chunks Hok Hinj Hsep; simpl.
  { rewrite !app_nil_r. split_and!; [done..|by constructor]. }
  pose proof (put_verified_ok cas (blake3 p) p (default None (head faults)) Hok) as Hok'.
  pose proof (put_verified_keeps cas (blake3 p) p (default None (head faults))) as Hsub.
  pose proof (put_piece cas p (default None (head faults)) Hok (λ b, Hsep p b ltac:(by left))) as Hput.
  pose proof (put_piece_err cas p faults) as Herr.
  pose proof (put_piece_new cas p (default None (head faults))) as Hnew.
  destruct (Cas.put_verified cas (blake3 p) p (default None (head faults))) as [cas1 [[]|e]]; simpl in *.
  2:{ split_and!; [done..|]. by eapply Herr. }
  assert (Hsep1 : ∀ q b, q ∈ pieces → cas1 !! blake3 q = Some b → b = q).
  { intros q b Hq [Hc|[Heq ->]]%Hnew; [by apply (Hsep q b); [right|]|].
    apply (Hinj q p); [by right|by left|done]. }
  specialize (IH cas1 (tail faults) (whole ++ p) (chunks ++ [entry_of p]) Hok'
    (λ q r Hq Hr, Hinj q r ltac:(by right) ltac:(by right)) Hsep1).
  fold (entry_of p). change (list_fmap _ _ (@Some blob) pieces) with ((@Some blob) <$> pieces).
  change (list_fmap _ _ entry_of pieces) with (entry_of <$> pieces).
  destruct (chunk_pieces cas1 (Some <$> pieces) (tail faults) _ _) as [cas' [[w cs]|e]];
    destruct IH as (Hok2 & Hsub2 & Hres); (split; [done|split; [by etrans|]]).
  - destruct Hres as (-> & -> & Hst). split_and!; [by rewrite <- (assoc_L (++))..|].
    apply Forall_cons. split; [|done]. apply (lookup_weaken cas1); [by apply Hput|done].
  - destruct Hres as (f & Hf & Hs). exists f. split; [|done]. destruct faults; [done|by right].
Qed.

Lemma entries_bytes cas pieces :
  stored cas pieces → mapM (chunk_bytes_of cas) (entry_of <$> pieces) = Some pieces.
Proof.
  intros Hst. apply mapM_Some. induction Hst as [|p pieces Hp Hst IH]; simpl; constructor; [|done].
  unfold chunk_bytes_of. simpl. rewrite Hp. simpl. by rewrite bool_decide_true.
Qed.

Lemma assemble_stored cas pieces h :
  stored cas pieces →
  assemble_from_cas cas (mkManifest h (entry_of <$> pieces)) [] None
  = (cas, Ok (concat pieces, blake3 (concat pieces))).
Proof.
  intros Hst. pose proof (assemble_from_cas_spec cas (mkManifest h (entry_of <$> pieces)) [] None) as Ha.
  simpl in Ha. rewrite entries_bytes in Ha by done. destruct (assemble_from_cas _ _ _ _) as [cas3 [[d h']|e]].
  - by destruct Ha as (_ & -> & -> & [= <-]).
  - by destruct Ha as (_ & [?|[[]|(ev & ?%not_elem_of_nil & _)]]).
Qed.

(** What chunking leaves: the entries of the pieces, all of them stored. *)
Lemma chunk_file_spec cas params data faults :
  cas_ok cas → pieces_separate cas (stream_cdc params data) →
  let '(cas', res) := chunk_file_into_cas cas params (Ok data) None faults in
  cas_ok cas' ∧ cas ⊆ cas' ∧
  match res with
  | Ok m => m = mkManifest (blake3 (concat (stream_cdc params data))) (entry_of <$> stream_cdc params data) ∧
      stored cas' (stream_cdc params data)
  | Err _ => ∃ f, f ∈ faults ∧ is_Some f
  end.
Proof.
  intros Hok Hsep. unfold chunk_file_into_cas, stream_items.
  destruct (separate_clean cas _ Hok Hsep) as [Hcl Hinj].
  pose proof (chunk_pieces_spec (stream_cdc params data) cas faults [] [] Hok Hinj Hcl) as Hs.
  destruct (chunk_pieces _ _ _ _ _) as [cas' [[w cs]|e]]; [|done].
  by destruct Hs as (Hok' & Hsub & -> & -> & Hst).
Qed.

(** C35: A file chunked into a store that verifies can be assembled back: unless an
    I/O call fails, the manifest names the hash of the file, the store still
    verifies and has lost nothing, and the assembly of the manifest from it,
    now or after it has gained more chunks, is the file. *)
Theorem chunk_assemble_roundtrip `{!CdcLaws} cas params data faults :
  cas_ok cas → pieces_separate cas (stream_cdc params data) →
  let '(cas', res) := chunk_file_into_cas cas params (Ok data) None faults in
  cas_ok cas' ∧ cas ⊆ cas' ∧
  match res with
  | Ok m => mf_content_hash m = blake3 data ∧
      ∀ cas2, cas' ⊆ cas2 → assemble_from_cas cas2 m [] None = (cas2, Ok (data, blake3 data))
  | Err _ => ∃ f, f ∈ faults ∧ is_Some f
  end.
Proof.
  intros Hok Hsep. pose proof (chunk_file_spec cas params data faults Hok Hsep) as Hs.
  destruct (chunk_file_into_cas _ _ _ _ _) as [cas' [m|e]]; [|done].
  destruct Hs as (Hok' & Hsub & -> & Hst). rewrite cdc_concat.
  split_and!; [done..|]. intros cas2 Hsub2. rewrite assemble_stored by by apply (stored_mono cas').
  by rewrite cdc_concat.
Qed.
End chunk_roundtrip.

(** ** The round trip on a concrete file *)
#[local] Instance toy_cdc : Cdc := λ _ data,
  match data with [] => [] | b :: rest => match rest with [] => [[b]] | _ => [[b]; rest] end end.

#[local] Instance toy_cdc_laws : CdcLaws.
Proof. intros params [|b [|c rest]]; simpl; [done..|]. by rewrite app_nil_r. Qed.

#[local] Existing Instance toy_blake3.
#[local] Instance toy_chunk_hex : Hex := toy_hex.

Definition toy_params : ChunkParams := mkChunkParams 2 4 8.
Definition toy_store : Cas := {[ blake3 [x00] := [x00] ]}.

(** A file that begins with a zero byte, hence with a hole. *)
Lemma chunk_assemble_roundtrip_witness :
  pieces_separate toy_store (stream_cdc toy_params [x00; x05; x06]) ∧
  let '(cas', res) := chunk_file_into_cas toy_store toy_params (Ok [x00; x05; x06]) None [] in
  cas_ok cas' ∧ toy_store ⊆ cas' ∧
  match res with
  | Ok m => mf_content_hash m = blake3 [x00; x05; x06] ∧
      ∀ cas2, cas' ⊆ cas2 → assemble_from_cas cas2 m [] None = (cas2, Ok ([x00; x05; x06], blake3 [x00; x05; x06]))
  | Err _ => ∃ f : option (string * IoKind), f ∈ [] ∧ is_Some f
  end.
Proof.
  assert (Hok : cas_ok toy_store) by by apply map_Forall_singleton.
  assert (Hsep : pieces_separate toy_store (stream_cdc toy_params [x00; x05; x06])).
  { unfold pieces_separate, toy_store. rewrite map_to_list_singleton. simpl.
    repeat constructor; vm_compute; congruence. }
  split; [exact Hsep|]. apply (chunk_assemble_roundtrip toy_store toy_params [x00; x05; x06] [] Hok Hsep).
Defined.
