(* ===== verification/Proto.v ===== *)
(** * Wire framing (src/src/proto.rs)

    Control frames and the length-prefixed framing of every stream. Bincode is
    a parameter per message type; a stream is the bytes that arrive and how it
    ends. *)

From S2P Require Import Prelude Vv Metadata Conflict State Oplog.

Definition PROTO_VERSION : Z := 4.
Definition MAX_FRAME : Z := 2 ^ 20.

Module Frame.
Inductive t : Type :=
| Hello (proto_version : Z) (node_id : NodeId) (resume : list (NodeId * Z))
| HelloAck (proto_version : Z) (node_id : NodeId)
| OplogPush (op : OpRecord)
| OplogAck (origin : NodeId) (up_to_seq : Z)
| SubscribeOps (resume : list (NodeId * Z))
| Ping (nonce : Z)
| Pong (nonce : Z).
End Frame.
Abbreviation Frame := Frame.t.

Module ProtoError.
Inductive t : Type :=
| Io (kind : IoKind)
| TooLarge (len : Z)
| Encode
| Decode
| Closed.
End ProtoError.
Abbreviation ProtoError := ProtoError.t.

#[export] Instance proto_error_eq_dec : EqDecision ProtoError.
Proof. solve_decision. Defined.

(** [opts().serialize] and [opts().deserialize] at one message type. The
    options carry the byte limit, on which encoding fails. *)
Class Codec (A : Type) := {
  serialize : A → option (list byte);
  deserialize : list byte → option A;
}.
Class CodecLaws (A : Type) `{!Codec A} : Prop := {
  serialize_limit (msg : A) body : serialize msg = Some body → Z.of_nat (length body) ≤ MAX_FRAME;
  deserialize_serialize (msg : A) body : serialize msg = Some body → deserialize body = Some msg;
}.

(** The receiving end of a stream: what arrives, and the error it ends with
    (a clean end when there is none). *)
Record Stream : Type := mkStream { st_bytes : list byte; st_end : option IoKind }.

(** [AsyncReadExt::read_exact] *)
Definition read_exact (n : nat) (s : Stream) : Stream * result IoKind (list byte) :=
  if bool_decide (n ≤ length (st_bytes s))%nat
  then (mkStream (drop n (st_bytes s)) (st_end s), Ok (take n (st_bytes s)))
  else (mkStream [] (st_end s), Err (default UnexpectedEof (st_end s))).

Section framing.
Context {A : Type} `{!Codec A}.

(** [fault]: the stream takes only so many bytes before an error. *)
Definition write_msg (out : list byte) (msg : A) (fault : option (nat * IoKind))
  : list byte * result ProtoError unit :=
  match serialize msg with
  | None => (out, Err ProtoError.Encode)
  | Some body =>
      if bool_decide (Z.of_nat (length body) > MAX_FRAME)
      then (out, Err (ProtoError.TooLarge (Z.of_nat (length body))))
      else
        let frame := be_bytes 4 (as_u32 (Z.of_nat (length body))) ++ body in
        match fault with
        | Some (n, k) => (out ++ take n frame, Err (ProtoError.Io k))
        | None => (out ++ frame, Ok ())
        end
  end.

Definition read_msg (s : Stream) : Stream * result ProtoError A :=
  match read_exact 4 s with
  | (s, Err UnexpectedEof) => (s, Err ProtoError.Closed)
  | (s, Err k) => (s, Err (ProtoError.Io k))
  | (s, Ok len_buf) =>
      let len := be_val len_buf in
      if bool_decide (len > MAX_FRAME) then (s, Err (ProtoError.TooLarge len)) else
      match read_exact (Z.to_nat len) s with
      | (s, Err k) => (s, Err (ProtoError.Io k))
      | (s, Ok body) => (s, ok_or ProtoError.Decode (deserialize body))
      end
  end.

(** A sender's frames, written one after the other, as long as all goes well. *)
Fixpoint write_all_msgs (out : list byte) (msgs : list A) : list byte * result ProtoError unit :=
  match msgs with
  | [] => (out, Ok ())
  | msg :: msgs =>
      match write_msg out msg None with
      | (out, Ok _) => write_all_msgs out msgs
      | (out, Err e) => (out, Err e)
      end
  end.

(** A receive loop: the messages read until the first error. *)
Fixpoint read_all_msgs (fuel : nat) (s : Stream) : list A * option ProtoError :=
  match fuel with
  | O => ([], None)
  | S fuel =>
      match read_msg s with
      | (s, Ok msg) => let '(msgs, e) := read_all_msgs fuel s in (msg :: msgs, e)
      | (_, Err e) => ([], Some e)
      end
  end.
End framing.

(** ** What a receiver makes of the bytes *)

Section framing_props.
Context {A : Type} `{!Codec A, !CodecLaws A}.
Implicit Types (msg : A) (msgs : list A) (body : list byte).

Definition frame_bytes (body : list byte) : list byte :=
  be_bytes 4 (as_u32 (Z.of_nat (length body))) ++ body.

(** The bytes of a list of messages on the wire. *)
Definition wire (msgs : list A) : list byte :=
  concat ((λ msg, from_option frame_bytes [] (serialize msg)) <$> msgs).

(** The error of a stream that ends [n] bytes into a frame. *)
Definition short_error (n : nat) (e : option IoKind) : ProtoError :=
  if bool_decide (n < 4)%nat && bool_decide (default UnexpectedEof e = UnexpectedEof)
  then ProtoError.Closed else ProtoError.Io (default UnexpectedEof e).

Lemma length_frame_bytes body : length (frame_bytes body) = (4 + length body)%nat.
Proof. unfold frame_bytes. by rewrite length_app, length_be_bytes. Qed.

Lemma write_msg_ok out msg out' :
  write_msg out msg None = (out', Ok ()) ↔ ∃ body, serialize msg = Some body ∧ out' = out ++ frame_bytes body.
Proof.
  unfold write_msg. destruct (serialize msg) as [body|] eqn:Hs; [|naive_solver].
  pose proof (serialize_limit _ _ Hs). rewrite bool_decide_false by lia. unfold frame_bytes. naive_solver.
Qed.

Lemma write_all_msgs_wire out msgs out' :
  write_all_msgs out msgs = (out', Ok ()) → out' = out ++ wire msgs ∧ Forall (λ msg, is_Some (serialize msg)) msgs.
Proof.
  revert out. induction msgs as [|msg msgs IH]; intros out; simpl.
  { intros [= ->]. unfold wire. simpl. by rewrite app_nil_r. }
  destruct (write_msg out msg None) as [out1 [[]|e]] eqn:Hw; [|done].
  apply write_msg_ok in Hw as (body & Hs & ->). intros [-> Hall]%IH. unfold wire. simpl. rewrite Hs. simpl.
  split; [by rewrite <- (assoc_L (++))|]. constructor; [by eexists|done].
Qed.

Lemma be_len_val (body : list byte) :
  Z.of_nat (length body) ≤ MAX_FRAME → be_val (be_bytes 4 (as_u32 (Z.of_nat (length body)))) = Z.of_nat (length body).
Proof.
  unfold MAX_FRAME, as_u32, u32_modulus. intros Hl. rewrite Z.mod_small by lia. apply be_val_bytes. lia.
Qed.

Lemma read_exact_app n (l k : list byte) e :
  length l = n → read_exact n (mkStream (l ++ k) e) = (mkStream k e, Ok l).
Proof.
  intros Hl. unfold read_exact. cbn [st_bytes st_end].
  rewrite bool_decide_true by (rewrite length_app; lia).
  by rewrite take_app_length', drop_app_length'.
Qed.

Lemma read_exact_short n (l : list byte) e :
  (length l < n)%nat → read_exact n (mkStream l e) = (mkStream [] e, Err (default UnexpectedEof e)).
Proof. intros Hl. unfold read_exact. cbn [st_bytes st_end]. by rewrite bool_decide_false by lia. Qed.

Lemma read_frame body rest e :
  Z.of_nat (length body) ≤ MAX_FRAME →
  read_msg (A := A) (mkStream (frame_bytes body ++ rest) e) = (mkStream rest e, ok_or ProtoError.Decode (deserialize body)).
Proof.
  intros Hl. unfold read_msg, frame_bytes. rewrite <- (assoc_L (++)), (read_exact_app 4) by apply length_be_bytes.
  rewrite be_len_val by done. rewrite bool_decide_false by lia.
  by rewrite Nat2Z.id, (read_exact_app (length body) body).
Qed.

Lemma read_short body n e :
  Z.of_nat (length body) ≤ MAX_FRAME → (n < length (frame_bytes body))%nat →
  (read_msg (A := A) (mkStream (take n (frame_bytes body)) e)).2 = Err (short_error n e).
Proof.
  intros Hl Hn. rewrite length_frame_bytes in Hn. unfold read_msg, short_error.
  destruct (decide (4 ≤ n)%nat) as [H4|H4].
  - rewrite (bool_decide_false (n < 4)%nat) by lia. unfold frame_bytes.
    rewrite take_app_ge by (rewrite length_be_bytes; lia). rewrite length_be_bytes.
    rewrite (read_exact_app 4) by apply length_be_bytes. rewrite be_len_val by done.
    rewrite bool_decide_false by lia. rewrite Nat2Z.id.
    by rewrite read_exact_short by (rewrite length_take; lia).
  - rewrite (bool_decide_true (n < 4)%nat) by lia.
    rewrite read_exact_short by (rewrite length_take; lia). by destruct e as [[]|].
Qed.

Lemma read_end e : (read_msg (A := A) (mkStream [] e)).2 = Err (short_error 0 e).
Proof. by destruct e as [[]|]. Qed.

Lemma read_all_wire msgs n e :
  Forall (λ msg, is_Some (serialize msg)) msgs →
  ∃ k, (k ≤ length msgs)%nat ∧ (length (wire (take k msgs)) ≤ n)%nat ∧
    ((k < length msgs)%nat → (n < length (wire (take (S k) msgs)))%nat) ∧
    read_all_msgs (S (length msgs)) (mkStream (take n (wire msgs)) e)
    = (take k msgs, Some (short_error (Nat.min n (length (wire msgs)) - length (wire (take k msgs))) e)).
Proof.
  intros Hall. revert n. induction Hall as [|msg msgs [body Hs] Hall IH]; intros n.
  { exists O. unfold wire. cbn [take fmap list_fmap concat length]. split_and!; [lia..|].
    rewrite take_nil, Nat.min_0_r. cbn [read_all_msgs]. pose proof (read_end e) as He.
    by destruct (read_msg _) as [s' r]; simplify_eq/=. }
  pose proof (serialize_limit _ _ Hs) as Hl.
  assert (Hw : ∀ k, wire (take (S k) (msg :: msgs)) = frame_bytes body ++ wire (take k msgs)).
  { intros k. unfold wire. simpl. by rewrite Hs. }
  assert (Hw' : wire (msg :: msgs) = frame_bytes body ++ wire msgs).
  { unfold wire. simpl. by rewrite Hs. }
  rewrite Hw'. destruct (decide (n < length (frame_bytes body))%nat) as [Hn|Hn].
  - exists O. split_and!; [simpl; lia|simpl; lia|intros _; rewrite Hw, length_app; lia|].
    rewrite take_app_le by lia. cbn [length read_all_msgs].
    pose proof (read_short body n e Hl Hn) as Hr. destruct (read_msg _) as [s' r]; simplify_eq/=.
    rewrite length_app, Nat.min_l by lia. by rewrite Nat.sub_0_r.
  - destruct (IH (n - length (frame_bytes body))%nat) as (k & Hk & Hlen & Hnext & Hread).
    exists (S k). rewrite !Hw, !length_app. cbn [length]. split_and!; [lia..|].
    rewrite take_app_ge by lia. cbn [length]. remember (S (length msgs)) as fuel. cbn [read_all_msgs].
    rewrite read_frame by done. rewrite (deserialize_serialize _ _ Hs). cbn [ok_or]. rewrite Hread.
    do 3 f_equal. lia.
Qed.

(** Whatever part of a sender's frames arrives before the stream ends, the
    receive loop hands out exactly the messages whose frames arrived whole, in
    order, and then stops with an error; the error is [Closed] exactly when
    the stream ended without failure within the four length bytes. *)
Theorem framing_prefix_exact msgs out n e :
  write_all_msgs [] msgs = (out, Ok ()) →
  ∃ k, (k ≤ length msgs)%nat ∧ (length (wire (take k msgs)) ≤ n)%nat ∧
    ((k < length msgs)%nat → (n < length (wire (take (S k) msgs)))%nat) ∧
    read_all_msgs (S (length msgs)) (mkStream (take n out) e)
    = (take k msgs, Some (short_error (Nat.min n (length out) - length (wire (take k msgs))) e)).
Proof. intros [-> Hall]%write_all_msgs_wire. simpl. by apply read_all_wire. Qed.
End framing_props.

(** A reader never takes more than one bounded frame off the stream, whatever
    the peer sends: a length above the cap stops it after the four length
    bytes, before any buffer is allocated. *)
Theorem read_msg_bounded {A} `{!Codec A} (s : Stream) :
  let '(s', res) := read_msg (A := A) s in
  ∃ used, st_bytes s = used ++ st_bytes s' ∧ st_end s' = st_end s ∧
    Z.of_nat (length used) ≤ 4 + MAX_FRAME ∧
    match res with
    | Err (ProtoError.TooLarge len) => length used = 4%nat ∧ len = be_val used ∧ len > MAX_FRAME
    | Err ProtoError.Closed => (length used < 4)%nat ∧ st_bytes s' = []
    | Ok msg => ∃ body, used = take 4 used ++ body ∧ be_val (take 4 used) = Z.of_nat (length body) ∧ deserialize body = Some msg
    | _ => True
    end.
Proof.
  unfold read_msg, read_exact. case_bool_decide as H4; simpl.
  2:{ destruct (default UnexpectedEof (st_end s)); exists (st_bytes s); simpl; rewrite app_nil_r;
        unfold MAX_FRAME; split_and!; try done; lia. }
  set (hd := take 4 (st_bytes s)). assert (Hhd : length hd = 4%nat) by (unfold hd; rewrite length_take; lia).
  assert (Hsplit : st_bytes s = hd ++ drop 4 (st_bytes s)) by (unfold hd; by rewrite take_drop).
  case_bool_decide as Hbig; simpl.
  { exists hd. split_and!; try done. unfold MAX_FRAME. lia. }
  assert (Hpos : 0 ≤ be_val hd).
  { unfold be_val. induction (reverse hd) as [|b l IHl]; simpl; [lia|]. pose proof (byte_val_bound b). lia. }
  case_bool_decide as Hlen; simpl.
  - set (body := take (Z.to_nat (be_val hd)) (drop 4 (st_bytes s))).
    assert (Hbody : length body = Z.to_nat (be_val hd)) by (unfold body; rewrite length_take; lia).
    exists (hd ++ body). rewrite <- (assoc_L (++)). unfold body at 1. rewrite take_drop. rewrite length_app.
    split_and!; [done..|lia|]. destruct (deserialize body) as [msg|] eqn:Hd; simpl; [|done].
    exists body. rewrite take_app_length' by done. split_and!; [done|lia|done].
  - exists (st_bytes s). rewrite app_nil_r. split_and!; try done.
    apply (f_equal length) in Hsplit. rewrite length_app in Hsplit. lia.
Qed.

(** ** A concrete codec *)
#[local] Instance toy_codec : Codec (list byte) := {|
  serialize msg := if bool_decide (Z.of_nat (length msg) ≤ MAX_FRAME) then Some msg else None;
  deserialize body := Some body;
|}.
#[local] Instance toy_codec_laws : CodecLaws (list byte).
Proof. split; simpl; intros msg body; case_bool_decide; naive_solver. Qed.

(** Two messages of which the second arrives without its last byte. *)
Lemma framing_prefix_exact_witness :
  write_all_msgs [] [[x01]; [x02; x03]] = (wire [[x01]; [x02; x03]], Ok ()) ∧
  ∃ k, (k ≤ 2)%nat ∧ (length (wire (take k [[x01]; [x02; x03]])) ≤ 10)%nat ∧
    ((k < 2)%nat → (10 < length (wire (take (S k) [[x01]; [x02; x03]])))%nat) ∧
    read_all_msgs 3 (mkStream (take 10 (wire [[x01]; [x02; x03]])) None)
    = (take k [[x01]; [x02; x03]],
       Some (short_error (Nat.min 10 (length (wire [[x01]; [x02; x03]])) - length (wire (take k [[x01]; [x02; x03]]))) None)).
Proof.
  assert (Hw : write_all_msgs [] [[x01]; [x02; x03]] = (wire [[x01]; [x02; x03]], Ok ())) by (vm_compute; reflexivity).
  split; [exact Hw|]. apply (framing_prefix_exact [[x01]; [x02; x03]] _ 10 None Hw).
Defined.

(** A stream cut inside the length of a frame is reported as a clean close. *)
Lemma eof_inside_length_is_closed :
  read_msg (A := list byte) (mkStream [x00; x00] None) = (mkStream [] None, Err ProtoError.Closed).
Proof. reflexivity. Qed.
