(* ===== verification/Fs.v ===== *)
(** * The kernel's file tree as the apply path sees it

    The share, the staged temporaries and everything a symbolic link may reach
    are one map from canonical paths to nodes. System calls are operations of
    a small monad whose inputs say which call fails, where the process is
    killed and what a torn write leaves behind; a loss of power is a relation
    between trees, and an inode knows whether its bytes were flushed. The
    kernel's own behaviour
    (path walking, [rename(2)], [unlink(2)], [lchown(2)] clearing privilege
    bits) is written out because the code relies on it. *)

From Stdlib Require Import Ascii.
From stdpp Require Import pretty.
From S2P Require Import Prelude Vv Metadata Conflict State Suppress Chunk.

(** The [errno] values the code or the walk tells apart. *)
Inductive Errno : Type :=
| ENOENT | EEXIST | EISDIR | ENOTDIR | EPERM | EACCES | ENOTSUP | ENODATA | EINVAL | ELOOP | EIO.

#[export] Instance errno_eq_dec : EqDecision Errno.
Proof. solve_decision. Defined.

(** [io::Error::kind] *)
Definition io_kind (e : Errno) : IoKind :=
  match e with
  | ENOENT => NotFound
  | EEXIST => AlreadyExists
  | EISDIR => IsADirectory
  | ENOTDIR => NotADirectory
  | EPERM | EACCES => PermissionDenied
  | EINVAL => InvalidInput
  | ENOTSUP | ENODATA | ELOOP | EIO => OtherIo
  end.

(** Attributes of an inode; [at_synced] says whether its bytes have been
    flushed since they were last written. *)
Record Attr : Type := mkAttr {
  at_mode : Z;
  at_uid : Z;
  at_gid : Z;
  at_mtime_s : Z;
  at_mtime_ns : Z;
  at_xattrs : gmap (list byte) (list byte);
  at_synced : bool;
}.

#[export] Instance attr_eq_dec : EqDecision Attr.
Proof. solve_decision. Defined.

Inductive Node : Type :=
| Dir
| Reg (data : list byte) (a : Attr)
| Lnk (target : list byte) (a : Attr)
| Dev (kind : FileKind) (rdev : Z) (a : Attr)
| Sock.

#[export] Instance node_eq_dec : EqDecision Node.
Proof. solve_decision. Defined.

Definition node_attr (n : Node) : option Attr :=
  match n with Reg _ a | Lnk _ a | Dev _ _ a => Some a | Dir | Sock => None end.
Definition with_attr (f : Attr → Attr) (n : Node) : Node :=
  match n with
  | Reg d a => Reg d (f a)
  | Lnk t a => Lnk t (f a)
  | Dev k r a => Dev k r (f a)
  | Dir => Dir
  | Sock => Sock
  end.

(** Canonical paths: components from the root of the file system. *)
Abbreviation FsPath := (list string).
Abbreviation World := (gmap (list string) Node).

(** ** Path walking *)

Definition slash : ascii := "/"%char.

(** The segments of a path text, empty ones included. *)
Fixpoint segments (s : string) : list string :=
  match s with
  | EmptyString => [EmptyString]
  | String c s =>
      if bool_decide (c = slash) then EmptyString :: segments s
      else match segments s with
           | seg :: segs => String c seg :: segs
           | [] => [String c EmptyString]
           end
  end.

Definition is_absolute (s : string) : bool :=
  match s with String c _ => bool_decide (c = slash) | EmptyString => false end.

(** Where a path leads, links followed, the last one included; [links] is
    what is left of the kernel's limit of 40. *)
Fixpoint namei (links : nat) (w : World) (cur todo : FsPath) {struct links} : result Errno FsPath :=
  (fix go (cur todo : FsPath) {struct todo} : result Errno FsPath :=
    match todo with
    | [] => Ok cur
    | c :: rest =>
        if bool_decide (c = "" ∨ c = ".") then go cur rest
        else if bool_decide (c = "..") then go (removelast cur) rest
        else
          match w !! (cur ++ [c]) with
          | None => Err ENOENT
          | Some Dir => go (cur ++ [c]) rest
          | Some (Lnk t _) =>
              match links with
              | O => Err ELOOP
              | S links =>
                  let text := String.string_of_list_byte t in
                  namei links w (if is_absolute text then [] else cur) (segments text ++ rest)
              end
          | Some _ => if bool_decide (rest = []) then Ok (cur ++ [c]) else Err ENOTDIR
          end
    end) cur todo.

Definition LINK_MAX : nat := 40.

(** ** Effects *)

(** What happens at the next system call. *)
Inductive Fault : Type :=
| NoFault
| Fails (e : Errno)
| Torn (bytes : list byte)
| Kill.

Inductive outcome (E A : Type) : Type :=
| Done (a : A)
| Fail (e : E)
| Crashed.
Arguments Done {E A} a.
Arguments Fail {E A} e.
Arguments Crashed {E A}.

(** One node as the apply path sees it: the file tree, the share's root in it,
    the suppressor, the chunk store, the process id, the staging counter, the
    clock, the attributes of a new inode, the count of skipped ownerships and
    the faults to come. *)
Record Host : Type := mkHost {
  h_world : World;
  h_root : FsPath;
  h_suppress : Suppressor;
  h_cas : Cas;
  h_pid : N;
  h_seq : N;
  h_now : Z;
  h_new : Attr;
  h_owner_skips : Z;
  h_faults : list Fault;
}.

Definition set_world (w : World) (h : Host) : Host :=
  mkHost w (h_root h) (h_suppress h) (h_cas h) (h_pid h) (h_seq h) (h_now h) (h_new h) (h_owner_skips h) (h_faults h).
Definition set_suppress (s : Suppressor) (h : Host) : Host :=
  mkHost (h_world h) (h_root h) s (h_cas h) (h_pid h) (h_seq h) (h_now h) (h_new h) (h_owner_skips h) (h_faults h).
Definition set_cas (c : Cas) (h : Host) : Host :=
  mkHost (h_world h) (h_root h) (h_suppress h) c (h_pid h) (h_seq h) (h_now h) (h_new h) (h_owner_skips h) (h_faults h).
Definition set_seq (n : N) (h : Host) : Host :=
  mkHost (h_world h) (h_root h) (h_suppress h) (h_cas h) (h_pid h) n (h_now h) (h_new h) (h_owner_skips h) (h_faults h).
Definition set_owner_skips (z : Z) (h : Host) : Host :=
  mkHost (h_world h) (h_root h) (h_suppress h) (h_cas h) (h_pid h) (h_seq h) (h_now h) (h_new h) z (h_faults h).
Definition set_faults (fs : list Fault) (h : Host) : Host :=
  mkHost (h_world h) (h_root h) (h_suppress h) (h_cas h) (h_pid h) (h_seq h) (h_now h) (h_new h) (h_owner_skips h) fs.

(** Computations on a host that return, fail, or are killed. *)
Definition Op (E A : Type) : Type := Host → Host * outcome E A.

#[export] Instance op_ret {E} : MRet (Op E) := λ A a h, (h, Done a).
#[export] Instance op_bind {E} : MBind (Op E) := λ A B f m h,
  match m h with
  | (h, Done a) => f a h
  | (h, Fail e) => (h, Fail e)
  | (h, Crashed) => (h, Crashed)
  end.

Definition fail {E A} (e : E) : Op E A := λ h, (h, Fail e).
Definition gets {E A} (f : Host → A) : Op E A := λ h, (h, Done (f h)).
Definition modify {E} (f : Host → Host) : Op E unit := λ h, (f h, Done ()).
Definition map_err {E F A} (f : E → F) (m : Op E A) : Op F A := λ h,
  match m h with
  | (h, Done a) => (h, Done a)
  | (h, Fail e) => (h, Fail (f e))
  | (h, Crashed) => (h, Crashed)
  end.
Definition of_result {E A} (r : result E A) : Op E A :=
  match r with Ok a => mret a | Err e => fail e end.

(** [let _ = m] *)
Definition ignore {E F A} (m : Op E A) : Op F unit := λ h,
  match m h with
  | (h, Crashed) => (h, Crashed)
  | (h, _) => (h, Done ())
  end.

(** The error as a value, to be told apart by the caller. *)
Definition catch {E F A} (m : Op E A) : Op F (result E A) := λ h,
  match m h with
  | (h, Done a) => (h, Done (Ok a))
  | (h, Fail e) => (h, Done (Err e))
  | (h, Crashed) => (h, Crashed)
  end.

(** [m.inspect_err(|_| cleanup)] *)
Definition on_err {E A} (m : Op E A) (cleanup : Op E unit) : Op E A := λ h,
  match m h with
  | (h, Fail e) => match cleanup h with (h, Crashed) => (h, Crashed) | (h, _) => (h, Fail e) end
  | r => r
  end.

(** The entry of a system call: the next fault is taken. *)
Definition syscall : Op Errno unit := λ h,
  match h_faults h with
  | [] => (h, Done ())
  | Fails e :: fs => (set_faults fs h, Fail e)
  | Kill :: fs => (set_faults fs h, Crashed)
  | _ :: fs => (set_faults fs h, Done ())
  end.

(** The bytes a [write] leaves, torn or not, at the call whose fault is next. *)
Definition torn_bytes (h : Host) (bytes : list byte) : list byte :=
  match h_faults h with Torn b :: _ => b | _ => bytes end.

(** ** System calls on canonical paths (the last component is not followed) *)

Definition put_node (p : FsPath) (n : Node) : Op Errno unit :=
  modify (λ h, set_world (<[p := n]> (h_world h)) h).
Definition get_node (p : FsPath) : Op Errno (option Node) := gets (λ h, h_world h !! p).

Definition update_node (p : FsPath) (f : Node → Node) : Op Errno unit :=
  n ← get_node p;
  match n with None => fail ENOENT | Some n => put_node p (f n) end.

Definition set_mode (m : Z) (a : Attr) : Attr :=
  mkAttr m (at_uid a) (at_gid a) (at_mtime_s a) (at_mtime_ns a) (at_xattrs a) (at_synced a).
Definition set_synced (b : bool) (a : Attr) : Attr :=
  mkAttr (at_mode a) (at_uid a) (at_gid a) (at_mtime_s a) (at_mtime_ns a) (at_xattrs a) b.

(** [open(O_WRONLY | O_CREAT | O_TRUNC, mode)], links followed: the file that
    is open. [mode] is what the umask's default leaves of the mode asked for. *)
Fixpoint open_trunc (links : nat) (mode : Z → Z) (cur segs : list string) : Op Errno FsPath :=
  r ← gets (λ h, namei LINK_MAX (h_world h) cur (removelast segs));
  parent ← of_result r;
  let name := List.last segs "" in
  if bool_decide (name ∈ [""; "."; ".."]) then fail EISDIR else
  let q := parent ++ [name] in
  n ← get_node q;
  a ← gets h_new;
  match n with
  | None => put_node q (Reg [] (set_synced false (set_mode (mode (at_mode a)) a)));; mret q
  | Some (Reg _ a) => put_node q (Reg [] (set_synced false a));; mret q
  | Some Dir => fail EISDIR
  | Some Sock => fail EIO
  | Some (Dev _ _ _) => mret q
  | Some (Lnk t _) =>
      let text := String.string_of_list_byte t in
      match links with
      | O => fail ELOOP
      | S links => open_trunc links mode (if is_absolute text then [] else parent) (segments text)
      end
  end.

(** [File::create] at a path whose directories are canonical: a link there is
    followed. The file that is open. *)
Definition sys_create (p : FsPath) : Op Errno FsPath :=
  syscall;;
  n ← get_node p;
  a ← gets h_new;
  match n with
  | None => put_node p (Reg [] (set_synced false a));; mret p
  | Some (Reg _ a) => put_node p (Reg [] (set_synced false a));; mret p
  | Some Dir => fail EISDIR
  | Some Sock => fail EIO
  | Some (Dev _ _ _) => mret p
  | Some (Lnk t _) =>
      let text := String.string_of_list_byte t in
      open_trunc (pred LINK_MAX) (λ m, m) (if is_absolute text then [] else removelast p) (segments text)
  end.

(** The whole of a file written through an open descriptor. *)
Definition sys_write (p : FsPath) (bytes : list byte) : Op Errno unit :=
  bytes ← gets (λ h, torn_bytes h bytes);
  syscall;;
  update_node p (λ n, match n with Reg _ a => Reg bytes (set_synced false a) | n => n end).

(** [fsync] of an open file. *)
Definition sys_fsync (p : FsPath) : Op Errno unit := syscall;; update_node p (with_attr (set_synced true)).

(** What a loss of power does to the tree: a file whose bytes were not flushed
    holds any bytes after it. Directory entries and attributes are taken to be
    on the disk when the call that makes them returns. *)
Definition power_loss (w w' : World) : Prop :=
  ∀ p, w' !! p = w !! p ∨
    ∃ d d' a, w !! p = Some (Reg d a) ∧ at_synced a = false ∧ w' !! p = Some (Reg d' (set_synced true a)).
Definition flushed (n : option Node) : Prop := match n with Some (Reg _ a) => at_synced a = true | _ => True end.

Definition set_owner (u g : Z) (a : Attr) : Attr :=
  mkAttr (at_mode a) u g (at_mtime_s a) (at_mtime_ns a) (at_xattrs a) (at_synced a).
Definition set_mtime (s ns : Z) (a : Attr) : Attr :=
  mkAttr (at_mode a) (at_uid a) (at_gid a) s ns (at_xattrs a) (at_synced a).
Definition set_xattr (k v : list byte) (a : Attr) : Attr :=
  mkAttr (at_mode a) (at_uid a) (at_gid a) (at_mtime_s a) (at_mtime_ns a) (<[k := v]> (at_xattrs a)) (at_synced a).

(** [mode & 0o7777] *)
Definition perm_bits (mode : Z) : Z := Z.land mode 4095.

(** [chown] drops set-user-id, and set-group-id from group executables. *)
Definition kill_priv (mode : Z) : Z :=
  let mode := Z.ldiff mode 2048 in
  if Z.testbit mode 3 then Z.ldiff mode 1024 else mode.

(** [fchmod] *)
Definition sys_fchmod (p : FsPath) (mode : Z) : Op Errno unit :=
  syscall;; update_node p (with_attr (set_mode (perm_bits mode))).

(** [chmod] follows links. *)
Definition sys_chmod (p : FsPath) (mode : Z) : Op Errno unit :=
  syscall;;
  r ← gets (λ h, namei LINK_MAX (h_world h) [] p);
  q ← of_result r;
  update_node q (with_attr (set_mode (perm_bits mode))).

Definition sys_lsetxattr (p : FsPath) (k v : list byte) : Op Errno unit :=
  syscall;; update_node p (with_attr (set_xattr k v)).

Definition sys_lchown (p : FsPath) (uid gid : Z) : Op Errno unit :=
  syscall;; update_node p (with_attr (λ a, set_mode (kill_priv (at_mode a)) (set_owner uid gid a))).

(** [utimensat(AT_SYMLINK_NOFOLLOW)], access time omitted *)
Definition sys_utimens (p : FsPath) (s ns : Z) : Op Errno unit :=
  syscall;; update_node p (with_attr (set_mtime s ns)).

Definition sys_rename (src dst : FsPath) : Op Errno unit :=
  syscall;;
  s ← get_node src;
  d ← get_node dst;
  match s, d with
  | None, _ => fail ENOENT
  | Some Dir, _ => fail ENOTDIR
  | Some _, Some Dir => fail EISDIR
  | Some n, _ => modify (λ h, set_world (<[dst := n]> (delete src (h_world h))) h)
  end.

Definition sys_unlink (p : FsPath) : Op Errno unit :=
  syscall;;
  n ← get_node p;
  match n with
  | None => fail ENOENT
  | Some Dir => fail EISDIR
  | Some _ => modify (λ h, set_world (delete p (h_world h)) h)
  end.

Definition sys_symlink (target : list byte) (p : FsPath) : Op Errno unit :=
  syscall;;
  n ← get_node p;
  a ← gets h_new;
  match n with None => put_node p (Lnk target (set_mode 511 a)) | Some _ => fail EEXIST end.

Definition sys_mknod (p : FsPath) (kind : FileKind) (mode rdev : Z) : Op Errno unit :=
  syscall;;
  n ← get_node p;
  a ← gets h_new;
  match n with None => put_node p (Dev kind rdev (set_mode (perm_bits mode) a)) | Some _ => fail EEXIST end.

(** [open] and [read] to the end, links followed. *)
Definition sys_read_file (p : FsPath) : Op Errno (list byte) :=
  syscall;;
  r ← gets (λ h, namei LINK_MAX (h_world h) [] p);
  q ← of_result r;
  n ← get_node q;
  match n with
  | Some (Reg data _) => mret data
  | Some Dir => fail EISDIR
  | None => fail ENOENT
  | Some _ => fail EIO
  end.

(** [fs::create_dir_all] below a directory that exists: the canonical path of
    the last component. A link in the way is followed when it leads to a
    directory. *)
Fixpoint create_dirs (cur todo : FsPath) : Op Errno FsPath :=
  match todo with
  | [] => mret cur
  | c :: rest =>
      n ← get_node (cur ++ [c]);
      match n with
      | None => syscall;; put_node (cur ++ [c]) Dir;; create_dirs (cur ++ [c]) rest
      | Some Dir => create_dirs (cur ++ [c]) rest
      | Some (Lnk _ _) =>
          r ← gets (λ h, namei LINK_MAX (h_world h) cur [c]);
          match r with
          | Err _ => fail EEXIST
          | Ok q =>
              n ← get_node q;
              if bool_decide (q = [] ∨ n = Some Dir) then create_dirs q rest
              else fail (if bool_decide (rest = []) then EEXIST else ENOTDIR)
          end
      | Some _ => fail (if bool_decide (rest = []) then EEXIST else ENOTDIR)
      end
  end.

(** The canonical form of a path whose last component is not followed. *)
Definition canon_parent (p : FsPath) : Op Errno FsPath :=
  r ← gets (λ h, namei LINK_MAX (h_world h) [] (removelast p));
  q ← of_result r;
  n ← get_node q;
  if bool_decide (q = [] ∨ n = Some Dir) then mret (q ++ [List.last p ""]) else fail ENOTDIR.

(** [if let Ok(dirf) = File::open(parent) { let _ = dirf.sync_all(); }] *)
Definition sync_dir {E} : Op E unit := ignore (syscall;; syscall).
