(* ===== verification/Apply.v ===== *)
(** * Applying remote state to the share (src/src/apply.rs, src/src/metadata.rs)

    Capture and application of metadata, and the atomic publication of files,
    links, special nodes, moves and deletions, as programs over the file tree
    of [Fs]. *)

From stdpp Require Import pretty.
From S2P Require Import Prelude Vv Metadata Conflict State Suppress Chunk Fs.

Definition TMP_SUFFIX : string := ".replicore-tmp".

(** ** Metadata on disk (src/src/metadata.rs) *)

Module OwnerPolicy.
Inductive t : Type := Numeric | Skip.
End OwnerPolicy.
Abbreviation OwnerPolicy := OwnerPolicy.t.

#[export] Instance owner_policy_eq_dec : EqDecision OwnerPolicy.
Proof. solve_decision. Defined.

Module MetaIo.
(** The listed attributes, one [lgetxattr] each; one removed in between is
    left out. *)
Fixpoint get_xattrs (l : list (list byte * list byte)) : Op IoKind (list (list byte * list byte)) :=
  match l with
  | [] => mret []
  | (name, value) :: l =>
      r ← catch syscall;
      match r with
      | Ok _ => out ← get_xattrs l; mret ((name, value) :: out)
      | Err ENODATA => get_xattrs l
      | Err e => fail (io_kind e)
      end
  end.

Definition read_xattrs (a : Attr) : Op IoKind (list (list byte * list byte)) :=
  r ← catch syscall;
  match r with
  | Err ENOTSUP => mret []
  | Err e => fail (io_kind e)
  | Ok _ => get_xattrs (filter (λ kv, kv.1 ≠ []) (map_to_list (at_xattrs a)))
  end.

(** The kind of a node that is replicated, with its attributes. *)
Definition kind_of (n : Node) : option (FileKind * Attr) :=
  match n with
  | Reg _ a => Some (FileKind.Regular, a)
  | Lnk _ a => Some (FileKind.Symlink, a)
  | Dev k _ a => Some (k, a)
  | Dir | Sock => None
  end.

Definition capture (p : FsPath) (policy : OwnerPolicy) : Op IoKind (option Meta) :=
  map_err io_kind syscall;;
  n ← map_err io_kind (get_node p);
  match n with
  | None => fail NotFound
  | Some n =>
      match kind_of n with
      | None => mret None
      | Some (kind, a) =>
          symlink_target ← match n with
            | Lnk t _ => map_err io_kind syscall;; mret (Some t)
            | _ => mret None
            end;
          let '(uid, gid) := match policy with
            | OwnerPolicy.Numeric => (at_uid a, at_gid a)
            | OwnerPolicy.Skip => (0, 0)
            end in
          xattrs ← read_xattrs a;
          mret (Some {|
            m_kind := kind;
            m_mode := perm_bits (at_mode a);
            m_uid := uid;
            m_gid := gid;
            m_mtime_s := at_mtime_s a;
            m_mtime_ns := at_mtime_ns a;
            m_symlink_target := symlink_target;
            m_rdev := match n with
              | Dev FileKind.CharDev r _ | Dev FileKind.BlockDev r _ => r
              | _ => 0
              end;
            m_xattrs := sort_by ord_leb xattrs;
          |})
      end
  end.

(** Step 1 of [apply_meta]. *)
Fixpoint apply_xattrs (p : FsPath) (l : list (list byte * list byte)) : Op IoKind unit :=
  match l with
  | [] => mret ()
  | (name, value) :: l =>
      if bool_decide (x00 ∈ name) then fail InvalidData else
      r ← catch (sys_lsetxattr p name value);
      match r with
      | Ok _ | Err ENOTSUP | Err EPERM => apply_xattrs p l
      | Err e => fail (io_kind e)
      end
  end.

(** Step 2: whether the owner was left alone. *)
Definition apply_owner (p : FsPath) (meta : Meta) (policy : OwnerPolicy) : Op IoKind bool :=
  let skip := modify (λ h, set_owner_skips (u64_add (h_owner_skips h) 1) h);; mret true in
  match policy with
  | OwnerPolicy.Skip => skip
  | OwnerPolicy.Numeric =>
      r ← catch (sys_lchown p (m_uid meta) (m_gid meta));
      match r with
      | Ok _ => mret false
      | Err EPERM => skip
      | Err e => fail (io_kind e)
      end
  end.

Definition apply_meta (p : FsPath) (meta : Meta) (policy : OwnerPolicy) : Op IoKind bool :=
  apply_xattrs p (m_xattrs meta);;
  owner_skipped ← apply_owner p meta policy;
  (if bool_decide (m_kind meta ≠ FileKind.Symlink)
   then map_err io_kind (sys_chmod p (m_mode meta)) else mret ());;
  map_err io_kind (sys_utimens p (m_mtime_s meta) (m_mtime_ns meta));;
  mret owner_skipped.

Definition create_special (p : FsPath) (meta : Meta) : Op IoKind unit :=
  match m_kind meta with
  | FileKind.Regular | FileKind.Symlink => fail InvalidInput
  | kind =>
      r ← catch (sys_mknod p kind (m_mode meta)
        match kind with FileKind.CharDev | FileKind.BlockDev => m_rdev meta | _ => 0 end);
      match r with
      | Ok _ | Err EEXIST => mret ()
      | Err e => fail (io_kind e)
      end
  end.
End MetaIo.

(** ** Publication (src/src/apply.rs) *)

Module ApplyError.
Inductive t : Type :=
| HashMismatch (rel : string)
| UnsafePath (rel : string)
| Io (ctx : string) (kind : IoKind)
| Cas (e : CasError).
End ApplyError.
Abbreviation ApplyError := ApplyError.t.

#[export] Instance apply_error_eq_dec : EqDecision ApplyError.
Proof. solve_decision. Defined.

Module Apply.
Section with_externals.
Context `{!Blake3, !Hex}.

Definition io_err {A} (ctx : string) (m : Op Errno A) : Op ApplyError A :=
  map_err (λ e, ApplyError.Io ctx (io_kind e)) m.

(** The components under the root. [Path::components] drops empty segments
    and every [.] but a leading one. *)
Definition safe_dest (rel : string) : result ApplyError FsPath :=
  let segs := segments rel in
  if bool_decide (rel = "") || is_absolute rel || bool_decide (head segs = Some ".") || bool_decide (".." ∈ segs)
  then Err (ApplyError.UnsafePath rel)
  else Ok (filter (λ s, s ≠ "" ∧ s ≠ ".") segs).

Definition verify_on_disk (p : FsPath) (hash : hash32) (rel : string) : Op ApplyError unit :=
  data ← map_err (λ e, ApplyError.Io (if bool_decide (e = EISDIR) then "readback" else "reopen") (io_kind e))
    (sys_read_file p);
  if bool_decide (blake3 data ≠ hash) then fail (ApplyError.HashMismatch rel) else mret ().

Definition tmp_name (name : string) (pid seq : N) : string :=
  "." +:+ name +:+ TMP_SUFFIX +:+ "." +:+ pretty pid +:+ "." +:+ pretty seq.

Definition register_write (rel : string) (hash : hash32) : Op ApplyError unit :=
  modify (λ h, set_suppress (Suppressor.register_write (h_suppress h) (h_now h) rel hash) h).
Definition register_delete (rel : string) : Op ApplyError unit :=
  modify (λ h, set_suppress (Suppressor.register_delete (h_suppress h) (h_now h) rel) h).

(** [STAGE_SEQ.fetch_add(1)] *)
Definition next_seq : Op ApplyError N := λ h, (set_seq (N.succ (h_seq h)) h, Done (h_seq h)).

(** The skeleton of [apply_write], [apply_assembled], [apply_symlink] and
    [apply_special]: resolve, create the parents, register the suppression,
    build the temporary with [stage], publish it by rename; the temporary is
    removed on failure. *)
Definition publish (rel : string) (hash : hash32) (stage : FsPath → Op ApplyError unit) : Op ApplyError unit :=
  comps ← of_result (safe_dest rel);
  root ← gets h_root;
  parent ← io_err "mkdir" (create_dirs root (removelast comps));
  register_write rel hash;;
  seq ← next_seq;
  pid ← gets h_pid;
  let tmp := parent ++ [tmp_name (List.last comps "") pid seq] in
  let dest := parent ++ [List.last comps ""] in
  on_err (stage tmp;; io_err "rename" (sys_rename tmp dest);; sync_dir)
    (ignore (sys_unlink tmp)).

Definition apply_meta_at (p : FsPath) (meta : Meta) (policy : OwnerPolicy) : Op ApplyError unit :=
  map_err (ApplyError.Io "meta") (MetaIo.apply_meta p meta policy);; mret ().

(** The metadata step of a staged file, when the version carries any. *)
Definition apply_meta_opt (p : FsPath) (meta : option Meta) (policy : OwnerPolicy) : Op ApplyError unit :=
  match meta with Some m => apply_meta_at p m policy | None => mret () end.

Definition apply_write (rel : string) (mode : Z) (hash : hash32) (data : list byte) (meta : option Meta)
    (policy : OwnerPolicy) : Op ApplyError unit :=
  if bool_decide (blake3 data ≠ hash) then fail (ApplyError.HashMismatch rel) else
  publish rel hash (λ tmp,
    f ← io_err "create" (sys_create tmp);
    io_err "write" (sys_write f data);;
    io_err "fsync" (sys_fsync f);;
    io_err "chmod" (sys_fchmod f mode);;
    verify_on_disk tmp hash rel;;
    apply_meta_opt tmp meta policy).

(** [io] and [trunc] are the outcomes of the assembly's own I/O calls. *)
Definition assemble_into (f : FsPath) (manifest : Manifest) (io : list ChunkIo) (trunc : option IoKind)
  : Op ApplyError hash32 :=
  cas ← gets h_cas;
  let '(cas, res) := assemble_from_cas cas manifest io trunc in
  modify (set_cas cas);;
  match res with
  | Err e => fail (ApplyError.Cas e)
  | Ok (data, written) => io_err "write" (sys_write f data);; mret written
  end.

Definition apply_assembled (rel : string) (mode : Z) (whole_hash : hash32) (manifest : Manifest)
    (io : list ChunkIo) (trunc : option IoKind) (meta : option Meta) (policy : OwnerPolicy) : Op ApplyError unit :=
  if bool_decide (mf_content_hash manifest ≠ whole_hash) then fail (ApplyError.HashMismatch rel) else
  publish rel whole_hash (λ tmp,
    f ← io_err "create" (sys_create tmp);
    written ← assemble_into f manifest io trunc;
    (if bool_decide (written ≠ whole_hash) then fail (ApplyError.HashMismatch rel) else mret ());;
    io_err "fsync" (sys_fsync f);;
    io_err "chmod" (sys_fchmod f mode);;
    verify_on_disk tmp whole_hash rel;;
    apply_meta_opt tmp meta policy).

Definition apply_symlink (rel : string) (hash : hash32) (meta : Meta) (policy : OwnerPolicy) : Op ApplyError unit :=
  match m_symlink_target meta with
  | None => fail (ApplyError.HashMismatch rel)
  | Some target =>
      if bool_decide (blake3 target ≠ hash) then fail (ApplyError.HashMismatch rel) else
      publish rel hash (λ tmp,
        io_err "symlink" (sys_symlink target tmp);;
        apply_meta_at tmp meta policy)
  end.

Definition apply_special (rel : string) (meta : Meta) (policy : OwnerPolicy) : Op ApplyError unit :=
  publish rel (zeros 32) (λ tmp,
    map_err (ApplyError.Io "mknod") (MetaIo.create_special tmp meta);;
    apply_meta_at tmp meta policy).

Definition apply_version (rel : string) (mode : Z) (hash : option hash32) (manifest : option Manifest)
    (io : list ChunkIo) (trunc : option IoKind) (meta : option Meta) (policy : OwnerPolicy) : Op ApplyError unit :=
  match m_kind <$> meta with
  | Some FileKind.Symlink =>
      match hash, meta with
      | Some h, Some m => apply_symlink rel h m policy
      | _, _ => fail (ApplyError.HashMismatch rel)
      end
  | Some FileKind.Fifo | Some FileKind.CharDev | Some FileKind.BlockDev =>
      match meta with
      | Some m => apply_special rel m policy
      | None => fail (ApplyError.HashMismatch rel)
      end
  | _ =>
      match hash, manifest with
      | Some h, Some man => apply_assembled rel mode h man io trunc meta policy
      | _, _ => fail (ApplyError.HashMismatch rel)
      end
  end.

Definition apply_rename (old_rel new_rel : string) (mode : Z) (hash : hash32) (meta : option Meta)
    (policy : OwnerPolicy) : Op ApplyError bool :=
  src_comps ← of_result (safe_dest old_rel);
  dest_comps ← of_result (safe_dest new_rel);
  root ← gets h_root;
  let src := root ++ src_comps in
  r ← catch (verify_on_disk src hash old_rel);
  match r with
  | Err (ApplyError.Io _ NotFound) | Err (ApplyError.HashMismatch _) => mret false
  | Err e => fail e
  | Ok _ =>
      parent ← io_err "mkdir" (create_dirs root (removelast dest_comps));
      register_delete old_rel;;
      register_write new_rel hash;;
      let dest := parent ++ [List.last dest_comps ""] in
      io_err "rename" (src ← canon_parent src; sys_rename src dest);;
      io_err "chmod" (sys_chmod dest mode);;
      apply_meta_opt dest meta policy;;
      sync_dir;;
      sync_dir;;
      mret true
  end.

Definition apply_meta_only (rel : string) (hash : option hash32) (meta : Meta) (policy : OwnerPolicy)
  : Op ApplyError unit :=
  comps ← of_result (safe_dest rel);
  root ← gets h_root;
  register_write rel (default (zeros 32) hash);;
  dest ← io_err "meta" (canon_parent (root ++ comps));
  apply_meta_at dest meta policy.

Definition apply_delete (rel : string) : Op ApplyError unit :=
  comps ← of_result (safe_dest rel);
  root ← gets h_root;
  register_delete rel;;
  r ← catch (dest ← canon_parent (root ++ comps); sys_unlink dest);
  match r with
  | Ok _ | Err ENOENT => mret ()
  | Err e => fail (ApplyError.Io "unlink" (io_kind e))
  end;;
  sync_dir.
End with_externals.
End Apply.
