(* ===== verification/ApplyProofs.v ===== *)
(** * Atomicity and fidelity of the apply path

    Assertions about a staged run talk about the one node the run may touch,
    the temporary; publication then moves it into place in one step. *)

From stdpp Require Import pretty.
From S2P Require Import Prelude Vv Metadata Conflict State Suppress Chunk Fs Apply.

(** ** Path walking on plain paths *)

Definition normal_comp (c : string) : Prop := c ≠ "" ∧ c ≠ "." ∧ c ≠ "..".

Lemma namei_nil links w cur : namei links w cur [] = Ok cur.
Proof. by destruct links. Qed.

Lemma namei_cons links w cur c rest :
  normal_comp c →
  namei links w cur (c :: rest) =
    match w !! (cur ++ [c]) with
    | None => Err ENOENT
    | Some Dir => namei links w (cur ++ [c]) rest
    | Some (Lnk t _) =>
        match links with
        | O => Err ELOOP
        | S links =>
            let text := String.string_of_list_byte t in
            namei links w (if is_absolute text then [] else cur) (segments text ++ rest)
        end
    | Some _ => if bool_decide (rest = []) then Ok (cur ++ [c]) else Err ENOTDIR
    end.
Proof.
  intros (H1 & H2 & H3).
  destruct links as [|links]; cbn; rewrite bool_decide_false by naive_solver; by rewrite bool_decide_false.
Qed.

(** Every directory of the path is a directory: the walk arrives. *)
Definition dirs_below (w : World) (cur todo : FsPath) : Prop :=
  ∀ k, (0 < k ≤ length todo)%nat → w !! (cur ++ take k todo) = Some Dir.

Lemma dirs_below_cons w cur c todo :
  dirs_below w cur (c :: todo) → w !! (cur ++ [c]) = Some Dir ∧ dirs_below w (cur ++ [c]) todo.
Proof.
  intros Hd. split; [by apply (Hd 1%nat); simpl; lia|].
  intros k Hk. rewrite <- (assoc_L (++)). apply (Hd (S k)). simpl. lia.
Qed.

Lemma namei_dirs links w cur todo rest :
  Forall normal_comp todo → dirs_below w cur todo →
  namei links w cur (todo ++ rest) = namei links w (cur ++ todo) rest.
Proof.
  intros Hn. revert cur. induction Hn as [|c todo Hc Hn IH]; intros cur Hd; simpl.
  { by rewrite app_nil_r. }
  apply dirs_below_cons in Hd as [H1 Hd]. rewrite namei_cons by done. rewrite H1, IH by done.
  by rewrite <- (assoc_L (++)).
Qed.

Lemma namei_file links w dir name n :
  Forall normal_comp dir → dirs_below w [] dir → normal_comp name →
  w !! (dir ++ [name]) = Some n → (∀ t a, n ≠ Lnk t a) → namei links w [] (dir ++ [name]) = Ok (dir ++ [name]).
Proof.
  intros Hn Hd Hc Hw Hl. rewrite namei_dirs by done. simpl. rewrite namei_cons, Hw by done.
  destruct n; try (by rewrite bool_decide_true); [by rewrite namei_nil|naive_solver].
Qed.

Lemma namei_stays links w dir name q :
  Forall normal_comp dir → dirs_below w [] dir → normal_comp name →
  (∀ t a, w !! (dir ++ [name]) ≠ Some (Lnk t a)) →
  namei links w [] (dir ++ [name]) = Ok q → q = dir ++ [name].
Proof.
  intros Hn Hd Hc Hl. rewrite namei_dirs by done. cbn [app]. rewrite namei_cons by done.
  destruct (w !! (dir ++ [name])) as [[]|] eqn:Hw; rewrite ?namei_nil; try congruence;
    try (by rewrite bool_decide_true; [congruence|]).
Qed.

(** ** Segments of a path text *)

Lemma segments_ne s : segments s ≠ [].
Proof. destruct s as [|c s]; simpl; [done|]. case_bool_decide; [done|]. by destruct (segments s). Qed.

Lemma safe_dest_normal rel comps :
  Apply.safe_dest rel = Ok comps → comps ≠ [] ∧ Forall normal_comp comps.
Proof.
  unfold Apply.safe_dest. intros Hs.
  destruct (_ || _) eqn:Hb; [done|]. simplify_eq.
  apply orb_false_iff in Hb as [Hb Hup]. apply orb_false_iff in Hb as [Hb Hdot].
  apply orb_false_iff in Hb as [Hne Habs].
  apply bool_decide_eq_false in Hne, Hdot, Hup. split.
  - destruct rel as [|c rel]; [done|]. simpl in Habs, Hdot. apply bool_decide_eq_false in Habs.
    assert (Hseg : ∃ seg segs, segments (String c rel) = String c seg :: segs ∧ String c seg ≠ ".").
    { simpl. rewrite bool_decide_false in Hdot |- * by done.
      destruct (segments rel) as [|seg segs]; simpl in *; naive_solver. }
    destruct Hseg as (seg & segs & -> & Hd). by rewrite filter_cons_True by done.
  - apply Forall_forall. intros c [[H1 H2] Hin]%list_elem_of_filter. split_and!; [done..|]. by intros ->.
Qed.

(** ** Assertions about the one node a staged run touches *)

Definition keeps_fields (h0 h : Host) : Prop :=
  h_root h = h_root h0 ∧ h_pid h = h_pid h0 ∧ h_suppress h = h_suppress h0 ∧
  h_now h = h_now h0 ∧ h_seq h = h_seq h0 ∧ h_new h = h_new h0.

Section staged.
Context (h0 : Host) (dir : FsPath) (name : string).
Context (Hdir : Forall normal_comp dir) (Hbelow : dirs_below (h_world h0) [] dir) (Hname : normal_comp name).
Local Abbreviation tmp := (dir ++ [name]).

Definition base (h : Host) : Prop :=
  keeps_fields h0 h ∧ ∀ p, p ≠ tmp → h_world h !! p = h_world h0 !! p.

(** From a state whose node at [tmp] satisfies [P], the run touches nothing
    else; the node satisfies [Q] when it returns and [R] when it fails or is
    killed. *)
Definition triple {E A} (P : option Node → Prop) (m : Op E A)
    (Q : A → option Node → Prop) (R : option Node → Prop) : Prop :=
  ∀ h, base h → P (h_world h !! tmp) →
    base (m h).1 ∧
    match (m h).2 with
    | Done a => Q a (h_world (m h).1 !! tmp)
    | Fail _ | Crashed => R (h_world (m h).1 !! tmp)
    end.

Lemma triple_bind {E A B} P (m : Op E A) (k : A → Op E B) Q' Q R :
  triple P m Q' R → (∀ a, triple (Q' a) (k a) Q R) → triple P (m ≫= k) Q R.
Proof.
  intros Hm Hk h Hb HP. destruct (Hm h Hb HP) as [Hb' Hr].
  unfold mbind, op_bind. destruct (m h) as [h' [a|e|]]; simpl in *; [by apply Hk|done..].
Qed.

Lemma triple_ret {E A} (P : option Node → Prop) (a : A) Q R : (∀ n, P n → Q a n) → triple (E := E) P (mret a) Q R.
Proof. intros HQ h Hb HP. split; [done|]. by apply HQ. Qed.

Lemma triple_fail {E A} (P : option Node → Prop) (e : E) Q (R : option Node → Prop) :
  (∀ n, P n → R n) → triple (A := A) P (fail e) Q R.
Proof. intros HR h Hb HP. split; [done|]. by apply HR. Qed.

Lemma triple_gets {E A} P (f : Host → A) Q R : (∀ a n, P n → Q a n) → triple (E := E) P (gets f) Q R.
Proof. intros HQ h Hb HP. split; [done|]. by apply HQ. Qed.

Lemma triple_conseq {E A} (P P' : option Node → Prop) (m : Op E A) (Q Q' : A → option Node → Prop) (R R' : option Node → Prop) :
  triple P' m Q' R' → (∀ n, P n → P' n) → (∀ a n, Q' a n → Q a n) → (∀ n, R' n → R n) → triple P m Q R.
Proof.
  intros Hm HP HQ HR h Hb Hp. destruct (Hm h Hb (HP _ Hp)) as [Hb' Hr]. split; [done|].
  destruct (m h).2; auto.
Qed.

Lemma triple_map_err {E F A} P (f : E → F) (m : Op E A) Q R : triple P m Q R → triple P (map_err f m) Q R.
Proof.
  intros Hm h Hb HP. destruct (Hm h Hb HP) as [Hb' Hr]. unfold map_err. by destruct (m h) as [h' [a|e|]].
Qed.

Lemma triple_catch {E F A} P (m : Op E A) Q R :
  triple P m Q R → triple (E := F) P (catch m) (λ r n, match r with Ok a => Q a n | Err _ => R n end) R.
Proof.
  intros Hm h Hb HP. destruct (Hm h Hb HP) as [Hb' Hr]. unfold catch. by destruct (m h) as [h' [a|e|]].
Qed.

Lemma triple_syscall P : triple P syscall (λ _, P) P.
Proof.
  intros h Hb HP. unfold syscall. destruct (h_faults h) as [|[|e|b|] fs]; simpl; [by split..].
Qed.

Lemma triple_get_node (P : option Node → Prop) : triple P (get_node tmp) (λ r n, r = n ∧ P n) P.
Proof. intros h Hb HP. by split; [|split]. Qed.

Lemma base_set_node h n : base h → base (set_world (<[tmp := n]> (h_world h)) h).
Proof. intros [Hf Ho]. split; [done|]. intros p Hp. simpl. rewrite lookup_insert_ne by done. by apply Ho. Qed.

Lemma triple_put_node P n (Q : unit → option Node → Prop) R : (P None ∨ True → Q () (Some n)) → triple P (put_node tmp n) Q R.
Proof.
  intros HQ h Hb HP. unfold put_node, modify. simpl. split; [by apply base_set_node|].
  rewrite lookup_insert_eq. apply HQ. by right.
Qed.

Lemma triple_update_node (P : option Node → Prop) f (Q : unit → option Node → Prop) :
  (∀ n, P (Some n) → Q () (Some (f n))) → triple P (update_node tmp f) Q P.
Proof.
  intros HQ. unfold update_node. eapply triple_bind; [apply triple_get_node|].
  intros [n|]; cbn; [|apply triple_fail; naive_solver].
  intros h Hb [Heq HP]. unfold put_node, modify. simpl. split; [by apply base_set_node|].
  rewrite lookup_insert_eq. apply HQ. by rewrite Heq.
Qed.

(** A change of attributes that does not touch the bytes. *)
Definition keeps_bytes (f : Attr → Attr) : Prop := ∀ a, at_synced (f a) = at_synced a.

(** A property of the content, blind to such changes. *)
Definition content (C : option Node → Prop) : Prop :=
  ∀ f n, keeps_bytes f → C n → C (with_attr f <$> n).

Lemma triple_attr C f : keeps_bytes f → content C → triple C (update_node tmp (with_attr f)) (λ _, C) C.
Proof. intros Hf HC. apply triple_update_node. intros n. by apply (HC f (Some n)). Qed.

Lemma triple_sys_attr C f : keeps_bytes f → content C → triple C (syscall;; update_node tmp (with_attr f)) (λ _, C) C.
Proof. intros Hf HC. eapply triple_bind; [apply triple_syscall|]. intros ?. by apply triple_attr. Qed.

Lemma base_namei h n :
  base h → h_world h !! tmp = Some n → (∀ t a, n ≠ Lnk t a) → namei LINK_MAX (h_world h) [] tmp = Ok tmp.
Proof.
  intros [_ Ho] Hn Hl. eapply namei_file; [done| |done..].
  intros k Hk. rewrite Ho; [by apply Hbelow|]. simpl. intros Heq%(f_equal length).
  rewrite length_take, length_app in Heq. simpl in Heq. lia.
Qed.

Lemma base_namei_none h : base h → h_world h !! tmp = None → namei LINK_MAX (h_world h) [] tmp = Err ENOENT.
Proof.
  intros [_ Ho] Hn. rewrite namei_dirs; [|done|].
  - rewrite namei_cons by done. cbn [app]. by rewrite Hn.
  - intros k Hk. rewrite Ho; [by apply Hbelow|]. simpl. intros Heq%(f_equal length).
    rewrite length_take, length_app in Heq. simpl in Heq. lia.
Qed.

Lemma triple_chmod C mode :
  content C → (∀ t a, ¬ C (Some (Lnk t a))) → triple C (sys_chmod tmp mode) (λ _, C) C.
Proof.
  intros HC Hl. unfold sys_chmod. eapply triple_bind; [apply triple_syscall|]. intros ? h Hb HP.
  unfold mbind, op_bind, gets. destruct (h_world h !! tmp) as [n|] eqn:Hn.
  - rewrite (base_namei h n) by (naive_solver congruence). simpl. rewrite <- Hn in HP.
    by apply (triple_attr C (set_mode (perm_bits mode)) (λ _, eq_refl) HC h Hb HP).
  - rewrite base_namei_none by done. simpl. by rewrite Hn.
Qed.

Lemma triple_apply_xattrs C l : content C → triple C (MetaIo.apply_xattrs tmp l) (λ _, C) C.
Proof.
  intros HC. induction l as [|[k v] l IH]; simpl; [by apply triple_ret|].
  case_bool_decide; [by apply triple_fail|].
  eapply triple_bind; [by apply triple_catch, triple_sys_attr|].
  intros [[]|[]]; simpl; first [done|by apply triple_fail].
Qed.

Lemma triple_owner_skip {E} P : triple (E := E) P
  (modify (λ h, set_owner_skips (u64_add (h_owner_skips h) 1) h);; mret true) (λ _, P) P.
Proof. intros h Hb HP. by split. Qed.

Lemma triple_apply_meta C meta policy :
  content C → (m_kind meta ≠ FileKind.Symlink → ∀ t a, ¬ C (Some (Lnk t a))) →
  triple C (MetaIo.apply_meta tmp meta policy) (λ _, C) C.
Proof.
  intros HC Hl. unfold MetaIo.apply_meta.
  eapply triple_bind; [by apply triple_apply_xattrs|]. intros [].
  eapply triple_bind.
  { unfold MetaIo.apply_owner. destruct policy; [|apply triple_owner_skip].
    eapply triple_bind; [by apply triple_catch, triple_sys_attr|].
    intros [[]|[]]; simpl; first [by apply triple_fail|apply triple_owner_skip|by apply triple_ret]. }
  intros skipped. eapply (triple_bind _ _ _ (λ _, C)).
  { case_bool_decide as Hk; [|by apply triple_ret]. apply triple_map_err, triple_chmod; auto. }
  intros []. eapply triple_bind; [by apply triple_map_err, triple_sys_attr|]. intros []. by apply triple_ret.
Qed.
End staged.

(** ** Creating the parents *)

Definition is_link (n : option Node) : Prop := ∃ t a, n = Some (Lnk t a).

(** Nothing changed but for directories that were not there, all of them on
    the way from [cur] along [todo]. *)
Definition only_new_dirs (cur todo : FsPath) (w w' : World) : Prop :=
  ∀ p, w' !! p = w !! p ∨
    (w !! p = None ∧ w' !! p = Some Dir ∧ ∃ k, (0 < k ≤ length todo)%nat ∧ p = cur ++ take k todo).

Lemma only_new_dirs_cons cur c todo w w' :
  only_new_dirs (cur ++ [c]) todo w w' → only_new_dirs cur (c :: todo) w w'.
Proof.
  intros Hn p. destruct (Hn p) as [?|(H1 & H2 & k & Hk & ->)]; [by left|right]. split_and!; [done..|].
  exists (S k). simpl. split; [lia|]. by rewrite <- (assoc_L (++)).
Qed.

Lemma only_new_dirs_new cur c todo w w' :
  w !! (cur ++ [c]) = None → only_new_dirs (cur ++ [c]) todo (<[cur ++ [c] := Dir]> w) w' →
  only_new_dirs cur (c :: todo) w w'.
Proof.
  intros Hc Hn p. destruct (decide (p = cur ++ [c])) as [->|Hp].
  - right. destruct (Hn (cur ++ [c])) as [H1|(H1 & _)]; rewrite lookup_insert_eq in H1; [|done].
    split_and!; [done..|]. exists 1%nat. simpl. split; [lia|done].
  - apply (only_new_dirs_cons _ _ _ (<[cur ++ [c] := Dir]> w)) in Hn.
    destruct (Hn p) as [H1|(H1 & H2 & H3)]; rewrite lookup_insert_ne in H1 by done; [by left|by right].
Qed.

Lemma create_dirs_spec cur todo h :
  (∀ k, (0 < k ≤ length todo)%nat → ¬ is_link (h_world h !! (cur ++ take k todo))) →
  let '(h', r) := create_dirs cur todo h in
  keeps_fields h h' ∧ only_new_dirs cur todo (h_world h) (h_world h') ∧
  match r with
  | Done q => q = cur ++ todo ∧ dirs_below (h_world h') cur todo
  | _ => True
  end.
Proof.
  revert cur h. induction todo as [|c todo IH]; intros cur h Hl; cbn [create_dirs].
  { cbn. split_and!; [done..|by left|by rewrite app_nil_r|]. intros k Hk. simpl in Hk. lia. }
  unfold mbind, op_bind, get_node, gets.
  assert (Hl' : ∀ k, (0 < k ≤ length todo)%nat → ¬ is_link (h_world h !! ((cur ++ [c]) ++ take k todo))).
  { intros k Hk. rewrite <- (assoc_L (++)). apply (Hl (S k)). simpl. lia. }
  assert (Hstep : ∀ h1, keeps_fields h h1 → h_world h1 = h_world h ∨ h_world h !! (cur ++ [c]) = None ∧
      h_world h1 = <[cur ++ [c] := Dir]> (h_world h) → h_world h1 !! (cur ++ [c]) = Some Dir →
    let '(h', r) := create_dirs (cur ++ [c]) todo h1 in
    keeps_fields h h' ∧ only_new_dirs cur (c :: todo) (h_world h) (h_world h') ∧
    match r with Done q => q = cur ++ c :: todo ∧ dirs_below (h_world h') cur (c :: todo) | _ => True end).
  { intros h1 Hf Hw Hc. 
    assert (Hl1 : ∀ k, (0 < k ≤ length todo)%nat → ¬ is_link (h_world h1 !! ((cur ++ [c]) ++ take k todo))).
    { intros k Hk. destruct Hw as [->|[_ ->]]; [by apply Hl'|]. rewrite lookup_insert_ne; [by apply Hl'|].
      intros Heq%(f_equal length). rewrite !length_app, length_take in Heq. lia. }
    specialize (IH (cur ++ [c]) h1 Hl1).
    destruct (create_dirs (cur ++ [c]) todo h1) as [h' r]. destruct IH as (Hf' & Hn & Hr). split_and!.
    - unfold keeps_fields in *. intuition congruence.
    - destruct Hw as [Hw|[Hnone Hw]]; rewrite Hw in Hn; [by apply only_new_dirs_cons|by apply only_new_dirs_new].
    - destruct r as [q| |]; [|done..]. destruct Hr as [-> Hd]. rewrite <- (assoc_L (++)). split; [done|].
      intros [|[|k]] Hk; [lia| |].
      + change (take 1 (c :: todo)) with [c]. destruct (Hn (cur ++ [c])) as [H1|(_ & H1 & _)]; congruence.
      + cbn [take]. change (c :: take (S k) todo) with ([c] ++ take (S k) todo).
        rewrite (assoc_L (++)). apply Hd. simpl in Hk. lia. }
  assert (Hid : only_new_dirs cur (c :: todo) (h_world h) (h_world h)) by by left.
  destruct (h_world h !! (cur ++ [c])) as [n|] eqn:Hc.
  - destruct n; try done; [by apply Hstep; [|left|]|].
    exfalso. apply (Hl 1%nat); [simpl; lia|]. change (take 1 (c :: todo)) with [c]. rewrite Hc. by eexists _, _.
  - unfold syscall. destruct (h_faults h) as [|[|e|b|] fs]; cbn; try done.
    all: apply Hstep; [done|by right|apply lookup_insert_eq].
Qed.

(** ** Publication *)

Lemma tmp_name_long name pid seq : (String.length name + 15 < String.length (Apply.tmp_name name pid seq))%nat.
Proof. unfold Apply.tmp_name. rewrite !string_length_app. simpl. lia. Qed.

Lemma tmp_name_normal name pid seq : normal_comp (Apply.tmp_name name pid seq).
Proof.
  pose proof (tmp_name_long name pid seq) as Hl.
  split_and!; intros Heq; rewrite Heq in Hl; simpl in Hl; lia.
Qed.

Lemma tmp_name_other name pid seq : Apply.tmp_name name pid seq ≠ name.
Proof. pose proof (tmp_name_long name pid seq) as Hl. intros Heq. rewrite Heq in Hl. lia. Qed.

Definition dest_path (h : Host) (comps : FsPath) : FsPath := h_root h ++ comps.
Definition staging_path (h : Host) (comps : FsPath) : FsPath :=
  (h_root h ++ removelast comps) ++ [Apply.tmp_name (List.last comps "") (h_pid h) (h_seq h)].

(** The root is a directory, no directory on the way to the destination is a
    symbolic link, and the staging name is free. *)
Record share_ok (h : Host) (comps : FsPath) : Prop := {
  so_root : Forall normal_comp (h_root h);
  so_dirs : dirs_below (h_world h) [] (h_root h);
  so_links : ∀ k, (0 < k < length comps)%nat → ¬ is_link (h_world h !! (h_root h ++ take k comps));
  so_fresh : h_world h !! staging_path h comps = None;
}.

(** What an observer of the destination can see of a publication of content
    [C]: the old state or the new one, and nothing else anywhere but for the
    staging name and new directories; once anything shows, the suppression of
    outcome [k] at [rel] is registered. *)
Definition published (C : option Node → Prop) (rel : string) (hash : hash32) (h h' : Host)
    (comps : FsPath) (r : outcome ApplyError unit) : Prop :=
  let w := h_world h in let w' := h_world h' in
  let dest := dest_path h comps in let tmp := staging_path h comps in
  (∀ p, p ≠ dest → p ≠ tmp → w' !! p = w !! p ∨ (w !! p = None ∧ w' !! p = Some Dir)) ∧
  match r with
  | Done _ => C (w' !! dest) ∧ w' !! tmp = None
  | Fail _ => w' !! dest = w !! dest
  | Crashed => w' !! dest = w !! dest ∨ C (w' !! dest)
  end ∧
  (w' !! dest = w !! dest ∨
   h_suppress h' = Suppressor.register_write (h_suppress h) (h_now h) rel hash).

Lemma removelast_last_comps (comps : FsPath) : comps ≠ [] → comps = removelast comps ++ [List.last comps ""].
Proof. intros Hne. by apply app_removelast_last. Qed.

Lemma normal_last (comps : FsPath) : comps ≠ [] → Forall normal_comp comps → normal_comp (List.last comps "").
Proof.
  intros Hne Hn. rewrite (removelast_last_comps comps Hne) in Hn. apply Forall_app in Hn as [_ Hl].
  by apply Forall_cons in Hl as [? _].
Qed.

Lemma normal_removelast (comps : FsPath) : comps ≠ [] → Forall normal_comp comps → Forall normal_comp (removelast comps).
Proof. intros Hne Hn. rewrite (removelast_last_comps comps Hne) in Hn. by apply Forall_app in Hn as [? _]. Qed.

Lemma take_removelast (comps : FsPath) k :
  (k < length comps)%nat → take k (removelast comps) = take k comps.
Proof.
  intros Hk. assert (Hne : comps ≠ []) by (by destruct comps; simpl in *; [lia|]).
  pose proof (f_equal length (removelast_last_comps comps Hne)) as Hlen. rewrite length_app in Hlen. simpl in Hlen.
  rewrite (removelast_last_comps comps Hne) at 2. rewrite take_app_le by lia. done.
Qed.

Lemma sys_rename_spec src dst h :
  let '(h', r) := sys_rename src dst h in
  keeps_fields h h' ∧
  match r with
  | Done _ => ∃ n, h_world h !! src = Some n ∧ n ≠ Dir ∧ h_world h' = <[dst := n]> (delete src (h_world h))
  | _ => h_world h' = h_world h
  end.
Proof.
  unfold sys_rename, mbind, op_bind, syscall, get_node, gets.
  destruct (h_faults h) as [|[|e|b|] fs]; cbn; try done;
    destruct (h_world h !! src) as [[]|]; cbn; try done;
    destruct (h_world h !! dst) as [[]|]; cbn; try done; split; try done; by eexists.
Qed.

Lemma sys_unlink_spec p h :
  let '(h', r) := sys_unlink p h in
  keeps_fields h h' ∧ (∀ q, q ≠ p → h_world h' !! q = h_world h !! q) ∧
  match r with
  | Done _ => h_world h' = delete p (h_world h) ∧ ∃ n, h_world h !! p = Some n ∧ n ≠ Dir
  | _ => h_world h' = h_world h
  end.
Proof.
  unfold sys_unlink, mbind, op_bind, syscall, get_node, gets.
  destruct (h_faults h) as [|[|e|b|] fs]; cbn; try done;
    destruct (h_world h !! p) as [[]|]; cbn; try done;
    (split; [done|]); (split; [by intros q Hq; rewrite lookup_delete_ne|]); (split; [done|by eexists]).
Qed.

Lemma sync_dir_spec {E} h :
  let '(h', r) := sync_dir (E := E) h in
  keeps_fields h h' ∧ h_world h' = h_world h ∧ (r = Done () ∨ r = Crashed).
Proof.
  unfold sync_dir, ignore, mbind, op_bind, syscall.
  destruct (h_faults h) as [|f fs] eqn:Hfs; [rewrite Hfs|destruct f; cbn; try (destruct fs as [|[] fs]; cbn)].
  all: split; [done|]; split; [done|]; auto.
Qed.

Lemma keeps_fields_trans h1 h2 h3 : keeps_fields h1 h2 → keeps_fields h2 h3 → keeps_fields h1 h3.
Proof. unfold keeps_fields. intuition congruence. Qed.

Section finish.
Context (h1 : Host) (dir : FsPath) (tn dn : string) (C' C : option Node → Prop).
Context (Hne : tn ≠ dn) (HC : ∀ n, C' (Some n) → C (Some n)).
Local Abbreviation tmp := (dir ++ [tn]).
Local Abbreviation dest := (dir ++ [dn]).

Lemma dest_not_tmp : dest ≠ tmp.
Proof. intros Heq%app_inv_head. congruence. Qed.

(** The last steps: build, rename, sync, and the cleanup on failure. *)
Lemma finish_spec (stage : Op ApplyError unit) :
  triple h1 dir tn (λ n, n = None) stage (λ _, C') (λ _, True) →
  h_world h1 !! tmp = None →
  let '(h', r) := on_err (stage;; Apply.io_err "rename" (sys_rename tmp dest);; sync_dir) (ignore (sys_unlink tmp)) h1 in
  keeps_fields h1 h' ∧ (∀ p, p ≠ dest → p ≠ tmp → h_world h' !! p = h_world h1 !! p) ∧
  match r with
  | Done _ => C (h_world h' !! dest) ∧ h_world h' !! tmp = None
  | Fail _ => h_world h' !! dest = h_world h1 !! dest
  | Crashed => h_world h' !! dest = h_world h1 !! dest ∨ C (h_world h' !! dest)
  end.
Proof.
  intros Hstage Hfresh. pose proof dest_not_tmp as Hdt.
  destruct (Hstage h1 ltac:(by split) Hfresh) as [[Hf Ho] Hr].
  assert (Hclean : ∀ h (e : ApplyError), keeps_fields h1 h → (∀ p, p ≠ tmp → h_world h !! p = h_world h1 !! p) →
    let '(h', r) := match ignore (F := ApplyError) (sys_unlink tmp) h with
      | (h, Crashed) => (h, Crashed) | (h, _) => (h, Fail e) end in
    keeps_fields h1 h' ∧ (∀ p, p ≠ dest → p ≠ tmp → h_world h' !! p = h_world h1 !! p) ∧
    match r : outcome ApplyError unit with
    | Done _ => C (h_world h' !! dest) ∧ h_world h' !! tmp = None
    | Fail _ => h_world h' !! dest = h_world h1 !! dest
    | Crashed => h_world h' !! dest = h_world h1 !! dest ∨ C (h_world h' !! dest)
    end).
  { intros h e Hfh Hoh. unfold ignore. pose proof (sys_unlink_spec tmp h) as Hu.
    destruct (sys_unlink tmp h) as [h' r]. destruct Hu as (Hf' & Ho' & _).
    assert (Hd : h_world h' !! dest = h_world h1 !! dest) by (rewrite Ho' by done; by apply Hoh).
    assert (Hfin : keeps_fields h1 h') by by eapply keeps_fields_trans.
    assert (Hoth : ∀ p, p ≠ dest → p ≠ tmp → h_world h' !! p = h_world h1 !! p).
    { intros p Hp1 Hp2. rewrite Ho' by done. by apply Hoh. }
    destruct r; (split; [done|split; [done|auto]]). }
  unfold on_err, mbind at 1, op_bind at 1.
  destruct (stage h1) as [h2 [[]|e|]]; simpl in Hr, Hf, Ho; [|by apply Hclean|].
  2:{ split; [done|]. split; [intros p _ Hp; by apply Ho|left; by apply Ho]. }
  unfold mbind, op_bind, Apply.io_err, map_err.
  pose proof (sys_rename_spec tmp dest h2) as Hren. destruct (sys_rename tmp dest h2) as [h3 [[]|e|]].
  - destruct Hren as (Hf3 & n & Hn & _ & Hw3). pose proof (sync_dir_spec (E := ApplyError) h3) as Hsync.
    cbn -[sync_dir]. destruct (sync_dir h3) as [h4 r]. destruct Hsync as (Hf4 & Hw4 & Hr4). rewrite Hw3 in Hw4.
    rewrite Hn in Hr. apply HC in Hr. assert (Hfin : keeps_fields h1 h4) by (by repeat (eapply keeps_fields_trans; [done|])).
    assert (Hoth : ∀ p, p ≠ dest → p ≠ tmp → <[dest:=n]> (delete tmp (h_world h2)) !! p = h_world h1 !! p).
    { intros p Hp1 Hp2. rewrite lookup_insert_ne, lookup_delete_ne by done. by apply Ho. }
    destruct Hr4 as [-> | ->]; rewrite Hw4, lookup_insert_eq; (split; [done|split; [done|auto]]). split; [done|].
    rewrite lookup_insert_ne by done. apply lookup_delete_eq.
  - destruct Hren as [Hf3 Hw3]. apply Hclean; [by eapply keeps_fields_trans|]. intros p Hp. rewrite Hw3. by apply Ho.
  - destruct Hren as [Hf3 Hw3]. rewrite Hw3. split; [by eapply keeps_fields_trans|].
    split; [intros p _ Hp; by apply Ho|left; by apply Ho].
Qed.
End finish.

Lemma dirs_below_app w cur todo1 todo2 :
  dirs_below w cur todo1 → dirs_below w (cur ++ todo1) todo2 → dirs_below w cur (todo1 ++ todo2).
Proof.
  intros H1 H2 k Hk. rewrite length_app in Hk. destruct (decide (k ≤ length todo1)%nat).
  - rewrite take_app_le by done. apply H1. lia.
  - rewrite take_app_ge by lia. rewrite (assoc_L (++)). apply H2. lia.
Qed.

Lemma only_new_dirs_below cur todo root w w' :
  only_new_dirs cur todo w w' → dirs_below w [] root → dirs_below w' [] root.
Proof. intros Hn Hd k Hk. destruct (Hn ([] ++ take k root)) as [->|(_ & -> & _)]; [by apply Hd|done]. Qed.

(** A path that is longer than every new directory is untouched. *)
Lemma only_new_dirs_other cur todo w w' p :
  only_new_dirs cur todo w w' → (length (cur ++ todo) < length p)%nat → w' !! p = w !! p.
Proof.
  intros Hn Hl. destruct (Hn p) as [?|(_ & _ & k & Hk & ->)]; [done|].
  rewrite !length_app, length_take in Hl. lia.
Qed.

Section publish.
Context `{!Blake3, !Hex}.

Lemma publish_spec (C' C : option Node → Prop) rel hash stage h comps :
  Apply.safe_dest rel = Ok comps → share_ok h comps → (∀ n, C' (Some n) → C (Some n)) →
  (∀ h1, let dir := h_root h ++ removelast comps in
    let tn := Apply.tmp_name (List.last comps "") (h_pid h) (h_seq h) in
    dirs_below (h_world h1) [] dir → Forall normal_comp dir →
    triple h1 dir tn (λ n, n = None) (stage (dir ++ [tn])) (λ _, C') (λ _, True)) →
  let '(h', r) := Apply.publish rel hash stage h in published C rel hash h h' comps r.
Proof.
  intros Hs [Hroot Hdirs Hlinks Hfresh] HC Hstage.
  destruct (safe_dest_normal rel comps Hs) as [Hne Hnorm].
  pose proof (removelast_last_comps comps Hne) as Hsplit.
  assert (Hdest : dest_path h comps = (h_root h ++ removelast comps) ++ [List.last comps ""]).
  { unfold dest_path. by rewrite <- (assoc_L (++)), <- Hsplit. }
  assert (Hlen : (length (removelast comps) + 1 = length comps)%nat).
  { apply (f_equal length) in Hsplit. rewrite length_app in Hsplit. simpl in Hsplit. lia. }
  unfold Apply.publish, mbind, op_bind. rewrite Hs. cbn -[create_dirs].
  unfold Apply.io_err, map_err.
  pose proof (create_dirs_spec (h_root h) (removelast comps) h) as Hc.
  destruct (create_dirs _ _ h) as [h1 r]. destruct Hc as (Hf1 & Hnew & Hr).
  { intros k Hk. rewrite take_removelast by lia. apply Hlinks. lia. }
  assert (Hlong : ∀ name, h_world h1 !! ((h_root h ++ removelast comps) ++ [name]) = h_world h !! ((h_root h ++ removelast comps) ++ [name])).
  { intros name. eapply only_new_dirs_other; [done|]. rewrite !length_app. simpl. lia. }
  assert (Hweak : ∀ p, h_world h1 !! p = h_world h !! p ∨ (h_world h !! p = None ∧ h_world h1 !! p = Some Dir)).
  { intros p. destruct (Hnew p) as [?|(? & ? & _)]; auto. }
  unfold published. rewrite Hdest. destruct r as [q|e|].
  2-3: split; [auto|]; rewrite Hlong; auto.
  destruct Hr as [-> Hbelow]. cbn -[on_err].
  set (h2 := set_seq _ _).
  assert (Hdir2 : dirs_below (h_world h2) [] (h_root h ++ removelast comps)).
  { apply dirs_below_app; [by eapply only_new_dirs_below|done]. }
  assert (Hn2 : Forall normal_comp (h_root h ++ removelast comps)).
  { apply Forall_app. split; [done|]. rewrite Hsplit in Hnorm. by apply Forall_app in Hnorm as [? _]. }
  destruct Hf1 as (Hf_root & Hf_pid & Hf_sup & Hf_now & Hf_seq & Hf_new).
  specialize (Hstage h2 Hdir2 Hn2). rewrite <- Hf_pid, <- Hf_seq in Hstage.
  unfold staging_path in Hfresh |- *. rewrite <- Hf_pid, <- Hf_seq in Hfresh |- *.
  pose proof (finish_spec h2 _ _ (List.last comps "") C' C (tmp_name_other _ _ _) HC _ Hstage) as Hfin.
  destruct (on_err _ _ h2) as [h3 r].
  destruct Hfin as (Hf3 & Ho & Hr).
  { change (h_world h2) with (h_world h1). by rewrite Hlong. }
  split_and!.
  - intros p Hp1 Hp2. rewrite Ho by done. apply Hweak.
  - destruct r; [done| |]; change (h_world h2) with (h_world h1) in Hr; rewrite Hlong in Hr; done.
  - right. destruct Hf3 as (_ & _ & -> & _). simpl. by rewrite Hf_sup, Hf_now.
Qed.
End publish.

(** ** The four kinds of publication *)

Section stages.
Context `{!Blake3, !Hex}.

Definition is_reg (n : option Node) : Prop := ∃ d a, n = Some (Reg d a).
Definition reg_hashing (hash : hash32) (n : option Node) : Prop := ∃ d a, n = Some (Reg d a) ∧ blake3 d = hash.
Definition flushed_reg (n : option Node) : Prop := ∃ d a, n = Some (Reg d a) ∧ at_synced a = true.
(** A file whose bytes hash to [hash] and are on the disk. *)
Definition durable (hash : hash32) (n : option Node) : Prop := ∃ d a, n = Some (Reg d a) ∧ blake3 d = hash ∧ at_synced a = true.
Definition link_to (target : list byte) (n : option Node) : Prop := ∃ a, n = Some (Lnk target a).
Definition dev_of (kind : FileKind) (rdev : Z) (n : option Node) : Prop := ∃ a, n = Some (Dev kind rdev a).
Definition dev_or_none (kind : FileKind) (rdev : Z) (n : option Node) : Prop := n = None ∨ dev_of kind rdev n.

Lemma is_reg_content : content is_reg.
Proof. intros f ? _ (d & a & ->). by eexists _, _. Qed.
Lemma reg_hashing_content hash : content (reg_hashing hash).
Proof. intros f ? _ (d & a & -> & ?). by eexists _, _. Qed.
Lemma link_to_content target : content (link_to target).
Proof. intros f ? _ (a & ->). by eexists _. Qed.
Lemma dev_or_none_content kind rdev : content (dev_or_none kind rdev).
Proof. intros f ? _ [->|(a & ->)]; [by left|right]. by eexists _. Qed.
Lemma flushed_reg_content : content flushed_reg.
Proof. intros f ? Hf (d & a & -> & Ha). eexists _, _. split; [done|]. by rewrite Hf. Qed.
Lemma durable_content hash : content (durable hash).
Proof. intros f ? Hf (d & a & -> & ? & Ha). eexists _, _. split; [done|]. by rewrite Hf. Qed.

Context (h1 : Host) (dir : FsPath) (tn : string).
Context (Hdir : Forall normal_comp dir) (Hbelow : dirs_below (h_world h1) [] dir) (Htn : normal_comp tn).
Local Abbreviation tmp := (dir ++ [tn]).
Local Abbreviation triple := (triple h1 dir tn).
Local Abbreviation any := (λ _ : option Node, True).

Lemma triple_any {E A} P (m : Op E A) Q R : triple P m Q R → triple P m Q any.
Proof. intros Hm. by eapply triple_conseq. Qed.

(** A step that fails into nothing in particular, with its error mapped. *)
Lemma triple_step {E F A B} P (f : E → F) (m : Op E A) (k : A → Op F B) Q' Q R :
  triple P m Q' R → (∀ a, triple (Q' a) (k a) Q any) → triple P (map_err f m ≫= k) Q any.
Proof. intros Hm. apply triple_bind. eapply triple_any. by apply triple_map_err. Qed.

Lemma triple_create : triple (λ n, n = None) (sys_create tmp) (λ f n, f = tmp ∧ is_reg n) any.
Proof.
  unfold sys_create. eapply triple_bind; [eapply triple_any, triple_syscall|]. intros [].
  eapply triple_bind; [eapply triple_any, triple_get_node|]. intros [n|]; cbn.
  { intros h _ [? ?]. congruence. }
  eapply (triple_bind _ _ _ _ _ _ (λ _ n, n = None)); [apply triple_gets; naive_solver|]. intros new.
  apply (triple_bind _ _ _ _ _ _ (λ _, is_reg)); [apply triple_put_node; intros _; by eexists _, _|].
  intros []. apply triple_ret. by intros n ?.
Qed.

(** A precondition that fixes the result of the step before. *)
Lemma triple_pure {E A} (P0 : Prop) P (m : Op E A) Q R : (P0 → triple P m Q R) → triple (λ n, P0 ∧ P n) m Q R.
Proof. intros Hm h Hb [HP0 HP]. by apply Hm. Qed.

Lemma triple_write bytes : triple is_reg (sys_write tmp bytes) (λ _, is_reg) any.
Proof.
  unfold sys_write. eapply (triple_bind _ _ _ _ _ _ (λ _, is_reg)); [by apply triple_gets|]. intros b.
  eapply triple_bind; [eapply triple_any, triple_syscall|]. intros [].
  eapply triple_any, triple_update_node. intros n (d & a & [= ->]). by eexists _, _.
Qed.

Lemma triple_fsync : triple is_reg (sys_fsync tmp) (λ _, flushed_reg) any.
Proof.
  unfold sys_fsync. eapply triple_bind; [eapply triple_any, triple_syscall|]. intros [].
  eapply triple_any, triple_update_node. intros n (d & a & [= ->]). by eexists _, _.
Qed.

Lemma triple_verify hash rel :
  triple flushed_reg (Apply.verify_on_disk tmp hash rel) (λ _, durable hash) any.
Proof.
  unfold Apply.verify_on_disk. eapply triple_step with (Q' := λ d n, ∃ a, n = Some (Reg d a) ∧ at_synced a = true) (R := any).
  - unfold sys_read_file. eapply triple_bind; [eapply triple_any, triple_syscall|]. intros [] h Hb (d & a & Hn & Ha).
    unfold mbind, op_bind, gets. rewrite (base_namei h1 dir tn Hdir Hbelow Htn h (Reg d a)) by done. cbn -[namei].
    rewrite Hn. cbn. rewrite Hn. split; [done|]. by eexists.
  - intros d. case_bool_decide; [by apply triple_fail|]. apply triple_ret. intros n (a & -> & Ha). by eexists _, _.
Qed.

Lemma triple_fchmod C mode : content C → triple C (sys_fchmod tmp mode) (λ _, C) C.
Proof. by apply triple_sys_attr. Qed.

Lemma triple_meta_at C meta policy :
  content C → (m_kind meta ≠ FileKind.Symlink → ∀ t a, ¬ C (Some (Lnk t a))) →
  triple C (Apply.apply_meta_at tmp meta policy) (λ _, C) any.
Proof.
  intros HC Hl. unfold Apply.apply_meta_at. eapply triple_step; [by apply triple_apply_meta|].
  intros ?. by apply triple_ret.
Qed.

(** The second half of [apply_write] and [apply_assembled]. *)
Lemma triple_settle mode hash rel meta policy :
  triple is_reg
    (Apply.io_err "fsync" (sys_fsync tmp);; Apply.io_err "chmod" (sys_fchmod tmp mode);;
     Apply.verify_on_disk tmp hash rel;; Apply.apply_meta_opt tmp meta policy)
    (λ _, durable hash) any.
Proof.
  eapply triple_step; [apply triple_fsync|]. intros [].
  eapply triple_step; [apply triple_fchmod, flushed_reg_content|]. intros [].
  eapply triple_bind; [apply triple_verify|]. intros [].
  destruct meta as [m|]; [|by apply triple_ret].
  apply triple_meta_at; [apply durable_content|]. by intros _ t a (? & ? & ? & _).
Qed.

Lemma triple_assemble manifest io trunc :
  triple is_reg (Apply.assemble_into tmp manifest io trunc) (λ _, is_reg) any.
Proof.
  unfold Apply.assemble_into. eapply (triple_bind _ _ _ _ _ _ (λ _, is_reg)); [by apply triple_gets|]. intros cas.
  destruct (assemble_from_cas cas manifest io trunc) as [cas' res].
  eapply (triple_bind _ _ _ _ _ _ (λ _, is_reg)); [by intros h Hb HP; split|]. intros ?.
  destruct res as [[data written]|e]; [|by apply triple_fail].
  eapply triple_step; [apply triple_write|]. intros ?. by apply triple_ret.
Qed.

Lemma triple_mknod meta :
  triple (λ n, n = None) (MetaIo.create_special tmp meta)
    (λ _, dev_or_none (m_kind meta) (match m_kind meta with FileKind.CharDev | FileKind.BlockDev => m_rdev meta | _ => 0 end)) any.
Proof.
  unfold MetaIo.create_special.
  assert (Hgen : ∀ kind rdev, triple (λ n, n = None)
    (r ← catch (sys_mknod tmp kind (m_mode meta) rdev);
     match r with Ok _ | Err EEXIST => mret () | Err e => fail (io_kind e) end) (λ _, dev_or_none kind rdev) any); [|
    by destruct (m_kind meta); first [apply Hgen|apply triple_fail]].
  intros kind rdev h Hb Hn. unfold sys_mknod, catch, mbind, op_bind, syscall, get_node, gets.
  destruct (h_faults h) as [|[|e|b|] fs]; cbn; rewrite ?Hn; cbn; try done.
  3:{ destruct e; cbn; split; try done. by left. }
  all: split; [by apply (base_set_node h1 dir tn h)|]; rewrite lookup_insert_eq; right; by eexists.
Qed.

Lemma triple_symlink target :
  triple (λ n, n = None) (sys_symlink target tmp) (λ _, link_to target) any.
Proof.
  intros h Hb Hn. unfold sys_symlink, mbind, op_bind, syscall, get_node, gets.
  destruct (h_faults h) as [|[|e|b|] fs]; cbn; rewrite ?Hn; cbn; try done.
  all: split; [by apply (base_set_node h1 dir tn h)|]; rewrite lookup_insert_eq; by eexists.
Qed.
End stages.

(** A loss of power spares what was flushed. *)
Lemma power_loss_flushed w w' p : power_loss w w' → flushed (w !! p) → w' !! p = w !! p.
Proof. intros Hp Hf. destruct (Hp p) as [?|(d & d' & a & Hw & Ha & _)]; [done|]. rewrite Hw in Hf. simpl in Hf. congruence. Qed.

Section atomic.
Context `{!Blake3, !Hex}.

Lemma published_unchanged C rel hash h comps e : published C rel hash h h comps (Fail e).
Proof. split_and!; auto. Qed.

Lemma published_impl C C' rel hash h h' comps r :
  (∀ n, C n → C' n) → published C rel hash h h' comps r → published C' rel hash h h' comps r.
Proof. intros HC (H1 & H2 & H3). split_and!; [done| |done]. destruct r; naive_solver. Qed.

(** A file of given bytes is published whole or not at all. *)
Lemma apply_write_atomic rel mode hash data meta policy h comps :
  Apply.safe_dest rel = Ok comps → share_ok h comps →
  let '(h', r) := Apply.apply_write rel mode hash data meta policy h in
  published (durable hash) rel hash h h' comps r.
Proof.
  intros Hs Hok. unfold Apply.apply_write. case_bool_decide; [apply published_unchanged|].
  apply (publish_spec (durable hash)); [done..|]. intros h1 dir tn Hb Hn.
  eapply triple_step; [apply triple_create|]. intros f. apply triple_pure. intros ->.
  eapply triple_step; [apply triple_write|]. intros [].
  by apply triple_settle; [..|apply tmp_name_normal].
Qed.

Lemma apply_assembled_atomic rel mode hash manifest io trunc meta policy h comps :
  Apply.safe_dest rel = Ok comps → share_ok h comps →
  let '(h', r) := Apply.apply_assembled rel mode hash manifest io trunc meta policy h in
  published (durable hash) rel hash h h' comps r.
Proof.
  intros Hs Hok. unfold Apply.apply_assembled. case_bool_decide; [apply published_unchanged|].
  apply (publish_spec (durable hash)); [done..|]. intros h1 dir tn Hb Hn.
  eapply triple_step; [apply triple_create|]. intros f. apply triple_pure. intros ->.
  eapply triple_bind; [apply triple_assemble|]. intros written.
  eapply (triple_bind _ _ _ _ _ _ (λ _, is_reg)).
  { case_bool_decide; [by apply triple_fail|by apply triple_ret]. }
  intros []. by apply triple_settle; [..|apply tmp_name_normal].
Qed.

Lemma apply_symlink_atomic rel hash meta policy h comps :
  Apply.safe_dest rel = Ok comps → share_ok h comps → m_kind meta = FileKind.Symlink →
  let '(h', r) := Apply.apply_symlink rel hash meta policy h in
  published (λ n, ∃ t, m_symlink_target meta = Some t ∧ blake3 t = hash ∧ link_to t n) rel hash h h' comps r.
Proof.
  intros Hs Hok Hk. unfold Apply.apply_symlink. destruct (m_symlink_target meta) as [t|]; [|apply published_unchanged].
  case_bool_decide as Ht; [apply published_unchanged|].
  apply (publish_spec (link_to t)); [done|done|intros n Hn; exists t; auto|]. intros h1 dir tn Hb Hn.
  eapply triple_step; [apply triple_symlink|]. intros [].
  apply triple_meta_at; [done|done|apply tmp_name_normal|apply link_to_content|done].
Qed.

Lemma apply_special_atomic rel meta policy h comps :
  Apply.safe_dest rel = Ok comps → share_ok h comps →
  let '(h', r) := Apply.apply_special rel meta policy h in
  published (dev_of (m_kind meta) (match m_kind meta with FileKind.CharDev | FileKind.BlockDev => m_rdev meta | _ => 0 end))
    rel (zeros 32) h h' comps r.
Proof.
  intros Hs Hok. unfold Apply.apply_special.
  set (rdev := match m_kind meta with FileKind.CharDev | FileKind.BlockDev => m_rdev meta | _ => 0 end).
  apply (publish_spec (dev_or_none (m_kind meta) rdev)); [done|done|by intros n [?|?]|].
  intros h1 dir tn Hb Hn. eapply triple_step; [apply triple_mknod|]. intros [].
  apply triple_meta_at; [done|done|apply tmp_name_normal|apply dev_or_none_content|].
  by intros _ t a [?|(? & ?)].
Qed.

(** What a version puts at its path. *)
Definition version_content (hash : option hash32) (meta : option Meta) (n : option Node) : Prop :=
  match m_kind <$> meta with
  | Some FileKind.Symlink => ∃ t a, n = Some (Lnk t a) ∧ meta ≫= m_symlink_target = Some t ∧ Some (blake3 t) = hash
  | Some FileKind.Fifo => dev_of FileKind.Fifo 0 n
  | Some FileKind.CharDev => dev_of FileKind.CharDev (from_option m_rdev 0 meta) n
  | Some FileKind.BlockDev => dev_of FileKind.BlockDev (from_option m_rdev 0 meta) n
  | _ => ∃ d a, n = Some (Reg d a) ∧ Some (blake3 d) = hash ∧ at_synced a = true
  end.

(** The outcome announced to the suppressor. *)
Definition version_suppress (hash : option hash32) (meta : option Meta) : hash32 :=
  match m_kind <$> meta with
  | Some FileKind.Fifo | Some FileKind.CharDev | Some FileKind.BlockDev => zeros 32
  | _ => default (zeros 32) hash
  end.

(** A published version is flushed. *)
Lemma version_flushed hash meta n : version_content hash meta n → flushed n.
Proof.
  unfold version_content.
  destruct meta as [m|]; simpl; [destruct (m_kind m)|]; first [by intros (? & ? & -> & _ & ?)|by intros (? & ? & -> & _)|by intros (? & ->)].
Qed.

Lemma apply_version_published rel mode hash manifest io trunc meta policy h comps :
  Apply.safe_dest rel = Ok comps → share_ok h comps →
  let '(h', r) := Apply.apply_version rel mode hash manifest io trunc meta policy h in
  published (version_content hash meta) rel (version_suppress hash meta) h h' comps r.
Proof.
  intros Hs Hok. unfold Apply.apply_version, version_suppress.
  assert (Hreg : ∀ hh, hash = Some hh → match m_kind <$> meta with None | Some FileKind.Regular => True | _ => False end →
    ∀ n, durable hh n → version_content hash meta n).
  { intros hh -> Hk n (d & a & -> & <- & Ha). unfold version_content.
    destruct (m_kind <$> meta) as [[]|]; try done; by eexists _, _. }
  destruct meta as [m|]; simpl in *.
  2:{ destruct hash as [hh|], manifest as [man|]; simpl; try apply published_unchanged.
      pose proof (apply_assembled_atomic rel mode hh man io trunc None policy h comps Hs Hok) as Ha.
      destruct (Apply.apply_assembled _ _ _ _ _ _ _ _ h) as [h' r]. eapply published_impl; [|exact Ha]. by apply Hreg. }
  destruct (m_kind m) eqn:Hk; simpl.
  1:{ destruct hash as [hh|], manifest as [man|]; simpl; try apply published_unchanged.
      pose proof (apply_assembled_atomic rel mode hh man io trunc (Some m) policy h comps Hs Hok) as Ha.
      destruct (Apply.apply_assembled _ _ _ _ _ _ _ _ h) as [h' r]. eapply published_impl; [|exact Ha]. by apply Hreg. }
  1:{ destruct hash as [hh|]; simpl; [|apply published_unchanged].
      pose proof (apply_symlink_atomic rel hh m policy h comps Hs Hok Hk) as Ha.
      destruct (Apply.apply_symlink _ _ _ _ h) as [h' r]. eapply published_impl; [|exact Ha].
      intros n (t & Ht & <- & (a & ->)). unfold version_content. simpl. rewrite Hk. by exists t, a. }
  all: pose proof (apply_special_atomic rel m policy h comps Hs Hok) as Ha; rewrite Hk in Ha;
    destruct (Apply.apply_special _ _ _ h) as [h' r]; (eapply published_impl; [|exact Ha]);
    intros n; unfold version_content; simpl; by rewrite Hk.
Qed.

End atomic.

(** ** Fidelity: what is applied is what is captured *)

Section fidelity.

(** [capture] without I/O errors. *)
Definition meta_of (policy : OwnerPolicy) (n : Node) : option Meta :=
  '(kind, a) ← MetaIo.kind_of n;
  Some {|
    m_kind := kind;
    m_mode := perm_bits (at_mode a);
    m_uid := if policy is OwnerPolicy.Numeric then at_uid a else 0;
    m_gid := if policy is OwnerPolicy.Numeric then at_gid a else 0;
    m_mtime_s := at_mtime_s a;
    m_mtime_ns := at_mtime_ns a;
    m_symlink_target := match n with Lnk t _ => Some t | _ => None end;
    m_rdev := match n with Dev FileKind.CharDev r _ | Dev FileKind.BlockDev r _ => r | _ => 0 end;
    m_xattrs := sort_by ord_leb (filter (λ kv, kv.1 ≠ []) (map_to_list (at_xattrs a)));
  |}.

Lemma get_xattrs_quiet l h : h_faults h = [] → MetaIo.get_xattrs l h = (h, Done l).
Proof.
  intros Hf. induction l as [|[k v] l IH]; [done|]. cbn [MetaIo.get_xattrs].
  unfold mbind, op_bind, catch, syscall. rewrite Hf. by rewrite IH.
Qed.

Lemma capture_quiet p policy h n :
  h_faults h = [] → h_world h !! p = Some n → MetaIo.capture p policy h = (h, Done (meta_of policy n)).
Proof.
  intros Hf Hn. unfold MetaIo.capture, mbind, op_bind, map_err, syscall, get_node, gets. rewrite Hf, Hn.
  unfold meta_of. destruct n as [|d a|t a|k r a|]; cbn -[sort_by map_to_list filter perm_bits]; try done.
  all: rewrite ?Hf; destruct policy; cbn -[sort_by map_to_list filter perm_bits];
    unfold MetaIo.read_xattrs, mbind, op_bind, catch, syscall; rewrite Hf, get_xattrs_quiet by done; try done.
  all: by destruct k.
Qed.

Definition add_xattrs (l : list (list byte * list byte)) (a : Attr) : Attr :=
  foldl (λ a kv, set_xattr kv.1 kv.2 a) a l.

(** [apply_meta] without I/O errors. *)
Definition attr_with (m : Meta) (policy : OwnerPolicy) (a : Attr) : Attr :=
  let a := add_xattrs (m_xattrs m) a in
  let a := if policy is OwnerPolicy.Numeric
    then set_mode (kill_priv (at_mode a)) (set_owner (m_uid m) (m_gid m) a) else a in
  let a := if bool_decide (m_kind m ≠ FileKind.Symlink) then set_mode (perm_bits (m_mode m)) a else a in
  set_mtime (m_mtime_s m) (m_mtime_ns m) a.

Lemma update_attr_quiet p f h n :
  h_faults h = [] → h_world h !! p = Some n →
  (syscall;; update_node p (with_attr f)) h = (set_world (<[p := with_attr f n]> (h_world h)) h, Done ()).
Proof.
  intros Hf Hn. unfold mbind, op_bind, syscall. rewrite Hf. unfold update_node, mbind, op_bind, get_node, gets.
  by rewrite Hn.
Qed.

Lemma with_attr_twice f g n : with_attr g (with_attr f n) = with_attr (λ a, g (f a)) n.
Proof. by destruct n. Qed.

Lemma set_world_twice w w' h : set_world w' (set_world w h) = set_world w' h.
Proof. done. Qed.

Lemma apply_xattrs_quiet p l h n :
  h_faults h = [] → h_world h !! p = Some n → Forall (λ kv, x00 ∉ kv.1) l →
  MetaIo.apply_xattrs p l h = (set_world (<[p := with_attr (add_xattrs l) n]> (h_world h)) h, Done ()).
Proof.
  intros Hf Hn Hl. revert h n Hf Hn. induction Hl as [|[k v] l Hk Hl IH]; intros h n Hf Hn.
  { cbn. unfold add_xattrs. simpl. rewrite insert_id; [by destruct h|]. rewrite Hn. by destruct n as [|? []|? []|? ? []|]. }
  cbn [MetaIo.apply_xattrs]. rewrite bool_decide_false by done. unfold mbind, op_bind, catch.
  unfold sys_lsetxattr. rewrite (update_attr_quiet p _ h n) by done.
  rewrite (IH _ (with_attr (set_xattr k v) n)); [|done|apply lookup_insert_eq].
  rewrite set_world_twice, with_attr_twice. cbn [h_world set_world]. by rewrite insert_insert_eq.
Qed.

Lemma chmod_quiet p mode h n :
  h_faults h = [] → h_world h !! p = Some n → namei LINK_MAX (h_world h) [] p = Ok p →
  sys_chmod p mode h = (set_world (<[p := with_attr (set_mode (perm_bits mode)) n]> (h_world h)) h, Done ()).
Proof.
  intros Hf Hn Hw. unfold sys_chmod, mbind, op_bind, syscall. rewrite Hf. unfold gets. rewrite Hw.
  cbn -[update_node]. unfold update_node, mbind, op_bind, get_node, gets. by rewrite Hn.
Qed.

Lemma apply_meta_quiet p m policy h n :
  h_faults h = [] → h_world h !! p = Some n → Forall (λ kv, x00 ∉ kv.1) (m_xattrs m) →
  (m_kind m ≠ FileKind.Symlink → ∀ f, namei LINK_MAX (<[p := with_attr f n]> (h_world h)) [] p = Ok p) →
  ∃ h', MetaIo.apply_meta p m policy h = (h', Done (bool_decide (policy = OwnerPolicy.Skip))) ∧ h_faults h' = [] ∧
    h_world h' = <[p := with_attr (attr_with m policy) n]> (h_world h).
Proof.
  intros Hf Hn Hl Hwalk. unfold MetaIo.apply_meta, mbind at 1, op_bind at 1.
  rewrite (apply_xattrs_quiet p _ h n) by done.
  assert (Hrest : ∀ h1 f (b : bool), h_faults h1 = [] → h_world h1 = <[p := with_attr f n]> (h_world h) →
    ∃ h', ((if bool_decide (m_kind m ≠ FileKind.Symlink)
       then map_err io_kind (sys_chmod p (m_mode m)) else mret ());;
      map_err io_kind (sys_utimens p (m_mtime_s m) (m_mtime_ns m));; mret b) h1 = (h', Done b) ∧ h_faults h' = [] ∧
      h_world h' = <[p := with_attr (λ a, set_mtime (m_mtime_s m) (m_mtime_ns m)
        (if bool_decide (m_kind m ≠ FileKind.Symlink) then set_mode (perm_bits (m_mode m)) (f a) else f a)) n]> (h_world h)).
  { intros h1 f b Hf1 Hw1. assert (Hn1 : h_world h1 !! p = Some (with_attr f n)) by (rewrite Hw1; apply lookup_insert_eq).
    assert (Htime : ∀ h2 g, h_faults h2 = [] → h_world h2 = <[p := with_attr g n]> (h_world h) →
      ∃ h', (map_err io_kind (sys_utimens p (m_mtime_s m) (m_mtime_ns m));; mret b) h2 = (h', Done b) ∧ h_faults h' = [] ∧
        h_world h' = <[p := with_attr (λ a, set_mtime (m_mtime_s m) (m_mtime_ns m) (g a)) n]> (h_world h)).
    { intros h2 g Hf2 Hw2. unfold mbind, op_bind, map_err, sys_utimens.
      rewrite (update_attr_quiet p _ h2 (with_attr g n)) by (rewrite ?Hw2, ?lookup_insert_eq; done).
      eexists. split; [done|]. split; [done|]. simpl. by rewrite Hw2, insert_insert_eq, with_attr_twice. }
    unfold mbind at 1, op_bind at 1. case_bool_decide as Hk; [|by apply Htime].
    unfold map_err at 1. rewrite (chmod_quiet p _ h1 (with_attr f n) Hf1 Hn1) by (rewrite Hw1; by apply Hwalk).
    apply Htime; [done|]. simpl. by rewrite Hw1, insert_insert_eq, with_attr_twice. }
  unfold mbind at 1, op_bind at 1. unfold MetaIo.apply_owner. destruct policy.
  - unfold mbind at 1, op_bind at 1, catch, sys_lchown.
    rewrite (update_attr_quiet p _ _ (with_attr (add_xattrs (m_xattrs m)) n)); [|done|apply lookup_insert_eq].
    cbn -[MetaIo.apply_meta sys_chmod sys_utimens]. rewrite insert_insert_eq, with_attr_twice.
    eapply Hrest; done.
  - eapply Hrest; done.
Qed.

Lemma add_xattrs_spec l a :
  add_xattrs l a = mkAttr (at_mode a) (at_uid a) (at_gid a) (at_mtime_s a) (at_mtime_ns a)
    (foldl (λ m kv, <[kv.1 := kv.2]> m) (at_xattrs a) l) (at_synced a).
Proof. revert a. unfold add_xattrs. induction l as [|[k v] l IH]; intros a; simpl; [by destruct a|]. by rewrite IH. Qed.

Definition nonempty_xattrs (x : gmap (list byte) (list byte)) : list (list byte * list byte) :=
  filter (λ kv, kv.1 ≠ []) (map_to_list x).

Lemma foldl_insert_map (l : list (list byte * list byte)) :
  foldl (λ (m : gmap (list byte) (list byte)) kv, <[kv.1 := kv.2]> m) ∅ l = list_to_map (rev l).
Proof. induction l as [|[k v] l IH] using rev_ind; [done|]. rewrite foldl_app, rev_app_distr. simpl. by rewrite IH. Qed.

Lemma xattrs_reproduced (x : gmap (list byte) (list byte)) :
  sort_by ord_leb (nonempty_xattrs (foldl (λ m kv, <[kv.1 := kv.2]> m) ∅ (sort_by ord_leb (nonempty_xattrs x))))
  = sort_by ord_leb (nonempty_xattrs x).
Proof.
  set (l := sort_by ord_leb (nonempty_xattrs x)). apply sort_by_perm_eq.
  assert (Hperm : l ≡ₚ nonempty_xattrs x) by apply sort_by_perm.
  assert (Hnd : NoDup (l.*1)).
  { rewrite Hperm. apply NoDup_fmap_fst.
    - intros k v v' [_ H1]%list_elem_of_filter [_ H2]%list_elem_of_filter.
      apply elem_of_map_to_list in H1, H2. congruence.
    - apply NoDup_filter, NoDup_map_to_list. }
  rewrite foldl_insert_map. unfold nonempty_xattrs at 1. rewrite map_to_list_to_map.
  - rewrite <- Permutation_rev, Hperm. unfold nonempty_xattrs.
    rewrite list_filter_filter. erewrite list_filter_iff; [done|]. naive_solver.
  - by rewrite <- Permutation_rev.
Qed.

(** A fresh node with the payload of another: what staging builds. *)
Definition fresh_copy (n0 n : Node) : Prop :=
  match n0, n with
  | Reg _ _, Reg _ a => at_xattrs a = ∅
  | Lnk t0 a0, Lnk t a => t = t0 ∧ at_mode a0 = 511 ∧ at_mode a = 511 ∧ at_xattrs a = ∅
  | Dev k0 r0 _, Dev k r a => k = k0 ∧ (k0 = FileKind.Fifo ∨ k0 = FileKind.CharDev ∨ k0 = FileKind.BlockDev) ∧
      r = (match k0 with FileKind.Fifo => 0 | _ => r0 end) ∧ at_xattrs a = ∅
  | _, _ => False
  end.

Lemma perm_bits_idemp z : perm_bits (perm_bits z) = perm_bits z.
Proof. unfold perm_bits. rewrite <- Z.land_assoc. done. Qed.

#[local] Arguments add_xattrs : simpl never.
#[local] Arguments sort_by : simpl never.
#[local] Arguments perm_bits : simpl never.

Lemma meta_reproduced policy n0 n m :
  meta_of policy n0 = Some m → fresh_copy n0 n → meta_of policy (with_attr (attr_with m policy) n) = Some m.
Proof.
  intros Hm Hc. unfold meta_of, attr_with in *.
  destruct n0 as [|d0 a0|t0 a0|k0 r0 a0|]; simpl in Hm; simplify_eq; destruct n as [|d a|t a|k r a|]; simpl in Hc; try done.
  - simpl. rewrite add_xattrs_spec. destruct policy; simpl; rewrite Hc; do 2 f_equal; try (by rewrite ?perm_bits_idemp); apply xattrs_reproduced.
  - destruct Hc as (-> & Hm0 & Hm1 & Hx). simpl. rewrite add_xattrs_spec. rewrite Hm0.
    destruct policy; simpl; rewrite Hm1, Hx; do 2 f_equal; try (by rewrite ?perm_bits_idemp); apply xattrs_reproduced.
  - destruct Hc as (-> & Hk & -> & Hx). destruct Hk as [->|[->| ->]]; simpl; rewrite add_xattrs_spec;
      destruct policy; simpl; rewrite Hx; do 2 f_equal; try (by rewrite ?perm_bits_idemp); apply xattrs_reproduced.
Qed.
End fidelity.

Lemma walk_updated (w : World) dir name n' :
  Forall normal_comp dir → normal_comp name → dirs_below w [] dir → (∀ t a, n' ≠ Lnk t a) →
  namei LINK_MAX (<[dir ++ [name] := n']> w) [] (dir ++ [name]) = Ok (dir ++ [name]).
Proof.
  intros Hd Hn Hb Hl. eapply namei_file; [done| |done|apply lookup_insert_eq|done].
  intros k Hk. rewrite lookup_insert_ne; [by apply Hb|]. simpl. intros Heq%(f_equal length).
  rewrite length_app, length_take in Heq. simpl in Heq. lia.
Qed.

(** Metadata is reproduced verbatim: a node captured on one host and applied
    to a freshly staged node of the same payload on another is captured there
    as the same metadata, so that a scan finds nothing to re-emit (ownership
    included under the numeric policy, set-id bits included although changing
    the owner clears them). *)
Theorem captured_meta_reproduced h0 p0 n0 policy m h dir name n :
  h_faults h0 = [] → h_world h0 !! p0 = Some n0 → (MetaIo.capture p0 policy h0).2 = Done (Some m) →
  fresh_copy n0 n → Forall (λ kv, x00 ∉ kv.1) (m_xattrs m) →
  h_faults h = [] → Forall normal_comp dir → normal_comp name → dirs_below (h_world h) [] dir →
  h_world h !! (dir ++ [name]) = Some n →
  (MetaIo.apply_meta (dir ++ [name]) m policy;; MetaIo.capture (dir ++ [name]) policy) h
  = ((MetaIo.apply_meta (dir ++ [name]) m policy h).1, Done (Some m)).
Proof.
  intros Hf0 Hn0 Hcap Hcopy Hnul Hf Hd Hn Hb Hnode.
  rewrite (capture_quiet p0 policy h0 n0) in Hcap by done. simpl in Hcap. injection Hcap as Hm.
  assert (Hkind : m_kind m ≠ FileKind.Symlink → ∀ f t a, with_attr f n ≠ Lnk t a).
  { intros Hk f t a. unfold meta_of in Hm. destruct n0, n; simpl in *; simplify_eq; try done. }
  destruct (apply_meta_quiet (dir ++ [name]) m policy h n) as (h' & Happ & Hf' & Hw'); [done..| |].
  { intros Hk f. apply walk_updated; try done. by apply Hkind. }
  unfold mbind, op_bind. rewrite Happ. simpl.
  erewrite capture_quiet; [|done|rewrite Hw'; apply lookup_insert_eq].
  by rewrite (meta_reproduced policy n0 n m).
Qed.

(** ** Concrete hosts *)

Definition ex_attr : Attr := mkAttr 420 1000 1000 7 0 ∅ true.
Definition ex_world : World := {[ ["s"] := Dir; ["etc"] := Dir ]}.
Definition ex_host (w : World) (faults : list Fault) : Host :=
  mkHost w ["s"] ∅ ∅ 42 0 100 ex_attr 0 faults.

(** A set-user-id program of another user with an extended attribute. *)
Definition ex_source : Node := Reg [x01] (mkAttr 35309 0 0 5 9 {[ [x75] := [x76] ]} true).

Lemma captured_meta_reproduced_witness :
  ∃ m, (MetaIo.capture ["s"; "p"] OwnerPolicy.Numeric (ex_host (<[["s"; "p"] := ex_source]> ex_world) [])).2 = Done (Some m) ∧
  let h := ex_host (<[["s"; "q"] := Reg [x01] ex_attr]> ex_world) [] in
  (MetaIo.apply_meta (["s"] ++ ["q"]) m OwnerPolicy.Numeric;; MetaIo.capture (["s"] ++ ["q"]) OwnerPolicy.Numeric) h
  = ((MetaIo.apply_meta (["s"] ++ ["q"]) m OwnerPolicy.Numeric h).1, Done (Some m)).
Proof.
  eexists. split; [vm_compute; reflexivity|]. cbv zeta.
  apply (captured_meta_reproduced (ex_host (<[["s"; "p"] := ex_source]> ex_world) []) ["s"; "p"] ex_source
    _ _ _ _ _ (Reg [x01] ex_attr)).
  - reflexivity.
  - vm_compute. reflexivity.
  - vm_compute. reflexivity.
  - reflexivity.
  - repeat constructor; vm_decide.
  - reflexivity.
  - repeat constructor; done.
  - done.
  - intros k Hk. simpl in Hk. assert (k = 1%nat) as -> by lia. vm_compute. reflexivity.
  - vm_compute. reflexivity.
Defined.

(** ** Moves and deletions *)

Section moves.
Context `{!Blake3, !Hex}.

Definition same_but_faults (h h' : Host) : Prop := ∃ fs, h' = set_faults fs h.

Lemma syscall_same h : same_but_faults h (syscall h).1.
Proof.
  unfold same_but_faults, syscall. destruct (h_faults h) as [|[|e|b|] fs] eqn:Hf; simpl; try by eexists.
  exists []. rewrite <- Hf. by destruct h.
Qed.

Lemma read_file_spec p h :
  let '(h', r) := sys_read_file p h in
  same_but_faults h h' ∧
  match r with
  | Done d => ∃ q a, namei LINK_MAX (h_world h) [] p = Ok q ∧ h_world h !! q = Some (Reg d a)
  | _ => True
  end.
Proof.
  unfold sys_read_file, mbind, op_bind. pose proof (syscall_same h) as [fs Hfs].
  destruct (syscall h) as [h1 [[]|e|]]; simpl in Hfs; subst h1; try (by split; [eexists|]).
  unfold gets. change (h_world (set_faults fs h)) with (h_world h).
  destruct (namei LINK_MAX (h_world h) [] p) as [q|e]; cbn; [|by split; [eexists|]].
  destruct (h_world h !! q) as [[]|] eqn:Hq; cbn; (split; [by eexists|]); try done. by eexists _, _.
Qed.

Lemma verify_spec p hash rel h :
  let '(h', r) := Apply.verify_on_disk p hash rel h in
  same_but_faults h h' ∧
  match r with
  | Done _ => ∃ q d a, namei LINK_MAX (h_world h) [] p = Ok q ∧ h_world h !! q = Some (Reg d a) ∧ blake3 d = hash
  | _ => True
  end.
Proof.
  unfold Apply.verify_on_disk, mbind, op_bind, map_err. pose proof (read_file_spec p h) as Hr.
  destruct (sys_read_file p h) as [h1 [d|e|]]; destruct Hr as [Hs Hr]; [|done..].
  case_bool_decide as Hh; (split; [done|]); [done|]. destruct Hr as (q & a & H1 & H2).
  exists q, d, a. split_and!; [done..|]. by destruct (decide (blake3 d = hash)).
Qed.

Lemma canon_parent_plain h dir name :
  Forall normal_comp dir → dirs_below (h_world h) [] dir → canon_parent (dir ++ [name]) h = (h, Done (dir ++ [name])).
Proof.
  intros Hn Hd. unfold canon_parent, mbind, op_bind, gets. rewrite removelast_last.
  rewrite <- (app_nil_r dir) at 1. rewrite namei_dirs, namei_nil by done. cbn. rewrite last_last.
  destruct (decide (dir = [])) as [->|Hne]; [done|].
  assert (Hdir : h_world h !! dir = Some Dir).
  { rewrite <- (take_ge dir (length dir)) by done. apply (Hd (length dir)). destruct dir; simpl; [done|lia]. }
  rewrite Hdir. by rewrite bool_decide_true by auto.
Qed.

(** The parents of a path in the share are there. *)
Definition parents_there (h : Host) (comps : FsPath) : Prop :=
  Forall normal_comp (h_root h) ∧ dirs_below (h_world h) [] (h_root h ++ removelast comps).

Lemma dest_path_split h comps : comps ≠ [] → dest_path h comps = (h_root h ++ removelast comps) ++ [List.last comps ""].
Proof. intros Hne. unfold dest_path. by rewrite <- (assoc_L (++)), <- removelast_last_comps. Qed.

(** A delete removes the file or reports why not; nothing else changes, and
    the suppression comes first. *)
Theorem apply_delete_exact rel comps h :
  Apply.safe_dest rel = Ok comps → parents_there h comps →
  let '(h', r) := Apply.apply_delete rel h in
  let dest := dest_path h comps in
  h_suppress h' = Suppressor.register_delete (h_suppress h) (h_now h) rel ∧
  match r with
  | Done _ => h_world h' = delete dest (h_world h) ∧ h_world h !! dest ≠ Some Dir ∨
      h_world h' = h_world h ∧ Fails ENOENT ∈ h_faults h
  | Fail _ => h_world h' = h_world h
  | Crashed => h_world h' = h_world h ∨ h_world h' = delete dest (h_world h)
  end.
Proof.
  intros Hs [Hroot Hb]. destruct (safe_dest_normal rel comps Hs) as [Hne Hnorm].
  unfold Apply.apply_delete, mbind, op_bind. rewrite Hs.
  cbn -[canon_parent sys_unlink sync_dir dest_path set_suppress Suppressor.register_delete].
  set (h1 := set_suppress _ h). unfold catch. fold (dest_path h comps).
  assert (Hn : Forall normal_comp (h_root h ++ removelast comps)).
  { apply Forall_app. split; [done|]. by apply normal_removelast. }
  rewrite (dest_path_split h comps Hne). rewrite canon_parent_plain by done.
  rewrite <- (dest_path_split h comps Hne).
  pose proof (sys_unlink_spec (dest_path h comps) h1) as Hu.
  assert (Hsync : ∀ h2, h_suppress h2 = h_suppress h1 →
    let '(h', r) := sync_dir (E := ApplyError) h2 in
    h_suppress h' = h_suppress h1 ∧ h_world h' = h_world h2 ∧ (r = Done () ∨ r = Crashed)).
  { intros h2 Hs2. pose proof (sync_dir_spec (E := ApplyError) h2) as Hsy. destruct (sync_dir h2) as [h3 r].
    destruct Hsy as ((_ & _ & Hs3 & _) & Hw3 & Hr3). by rewrite Hs3. }
  destruct (sys_unlink (dest_path h comps) h1) as [h2 [[]|e|]] eqn:Hun; destruct Hu as ((_ & _ & Hs2 & _) & _ & Hr).
  - destruct Hr as [Hw2 (n & Hnode & Hnd)]. specialize (Hsync h2 Hs2). cbn -[sync_dir].
    destruct (sync_dir h2) as [h3 r]. destruct Hsync as (Hs3 & Hw3 & [-> | ->]);
      (split; [done|]); rewrite Hw3, Hw2; [left|right; done]. split; [done|].
    change (h_world h1) with (h_world h) in Hnode. congruence.
  - assert (He : e = ENOENT → h_world h !! dest_path h comps = None ∨ Fails ENOENT ∈ h_faults h).
    { intros ->. revert Hun. unfold sys_unlink, mbind, op_bind, syscall, get_node, gets.
      change (h_faults h1) with (h_faults h). change (h_world h1) with (h_world h).
      destruct (h_faults h) as [|[|e|b|] fs]; cbn; change (h_world h1) with (h_world h);
        try destruct (h_world h !! dest_path h comps) as [[]|]; cbn; intros [= <-]; subst; auto; right; by left. }
    destruct (decide (e = ENOENT)) as [->|Hne'].
    + specialize (Hsync h2 Hs2). cbn -[sync_dir]. destruct (sync_dir h2) as [h3 r].
      destruct Hsync as (Hs3 & Hw3 & Hr3). split; [by destruct Hr3 as [-> | ->]|].
      change (h_world h1) with (h_world h) in Hr. rewrite Hr in Hw3.
      destruct Hr3 as [-> | ->]; [|by left]. destruct (He eq_refl) as [Hnone|Hin]; [left|by right].
      rewrite Hw3, delete_id by done. by rewrite Hnone.
    + by destruct e.
  - split; [done|]. by left.
Qed.

Lemma triple_sync h0 dir name {E} C : triple h0 dir name C (sync_dir (E := E)) (λ _, C) C.
Proof.
  intros h [Hf Ho] HC. pose proof (sync_dir_spec (E := E) h) as Hs. destruct (sync_dir h) as [h' r].
  destruct Hs as (Hf' & Hw & Hr). simpl. rewrite Hw. split; [split; [by eapply keeps_fields_trans|]|by destruct Hr as [-> | ->]].
  intros p Hp. rewrite Hw. by apply Ho.
Qed.

(** After the rename: mode, metadata and syncs touch the moved node only, and
    leave its bytes alone. *)
Lemma rename_tail h0 dir name mode hash meta policy :
  Forall normal_comp dir → dirs_below (h_world h0) [] dir → normal_comp name →
  triple h0 dir name (reg_hashing hash)
    (Apply.io_err "chmod" (sys_chmod (dir ++ [name]) mode);;
     Apply.apply_meta_opt (dir ++ [name]) meta policy;; sync_dir;; sync_dir;; mret true)
    (λ b n, b = true ∧ reg_hashing hash n) (reg_hashing hash).
Proof.
  intros Hn Hb Hc. assert (Hl : ∀ t a, ¬ reg_hashing hash (Some (Lnk t a))) by by intros t a (? & ? & ? & _).
  eapply triple_bind; [apply triple_map_err, triple_chmod; try done; apply reg_hashing_content|]. intros [].
  eapply (triple_bind _ _ _ _ _ _ (λ _, reg_hashing hash)).
  { destruct meta as [m|]; [|by apply triple_ret]. unfold Apply.apply_meta_opt, Apply.apply_meta_at.
    eapply triple_bind; [apply triple_map_err, triple_apply_meta; try done; apply reg_hashing_content|].
    intros ?. by apply triple_ret. }
  intros []. eapply triple_bind; [apply triple_sync|]. intros []. eapply triple_bind; [apply triple_sync|].
  intros []. by apply triple_ret.
Qed.

(** The part of [apply_rename] that runs once the source is verified. *)
Definition move_verified (root src dc : FsPath) (old_rel new_rel : string) (mode : Z) (hash : hash32)
    (meta : option Meta) (policy : OwnerPolicy) : Op ApplyError bool :=
  parent ← Apply.io_err "mkdir" (create_dirs root (removelast dc));
  Apply.register_delete old_rel;;
  Apply.register_write new_rel hash;;
  let dest := parent ++ [List.last dc ""] in
  Apply.io_err "rename" (src ← canon_parent src; sys_rename src dest);;
  Apply.io_err "chmod" (sys_chmod dest mode);;
  Apply.apply_meta_opt dest meta policy;;
  sync_dir;;
  sync_dir;;
  mret true.

(** The source and the target of a move, and what became of them. *)
Definition move_outcome (old_rel new_rel : string) (hash : hash32) (src dest : FsPath) (h h' : Host)
    (r : outcome ApplyError bool) : Prop :=
  let w := h_world h in let w' := h_world h' in
  let moved := w' !! src = None ∧ reg_hashing hash (w' !! dest) ∧
    h_suppress h' = Suppressor.register_write (Suppressor.register_delete (h_suppress h) (h_now h) old_rel) (h_now h) new_rel hash in
  (∀ p, p ≠ src → p ≠ dest → w' !! p = w !! p ∨ (w !! p = None ∧ w' !! p = Some Dir)) ∧
  match r with
  | Done true => moved
  | Done false => w' = w ∧ h_suppress h' = h_suppress h
  | Fail _ | Crashed => w' !! src = w !! src ∧ w' !! dest = w !! dest ∨ moved
  end.

Lemma move_verified_spec h sd sname dc old_rel new_rel mode hash meta policy :
  let src := sd ++ [sname] in let dest := dest_path h dc in
  Forall normal_comp (h_root h) → Forall normal_comp dc → dc ≠ [] → src ≠ dest →
  Forall normal_comp sd → dirs_below (h_world h) [] sd → dirs_below (h_world h) [] (h_root h) →
  (∀ k, (0 < k < length dc)%nat → ¬ is_link (h_world h !! (h_root h ++ take k dc))) →
  reg_hashing hash (h_world h !! src) →
  let '(h', r) := move_verified (h_root h) src dc old_rel new_rel mode hash meta policy h in
  r ≠ Done false ∧ move_outcome old_rel new_rel hash src dest h h' r.
Proof.
  intros src dest Hroot Hdn Hdne Hdiff Hsn Hsd Hrd Hlinks Hreg.
  assert (Hlen : (length (removelast dc) + 1 = length dc)%nat).
  { pose proof (f_equal length (removelast_last_comps dc Hdne)) as Hl. rewrite length_app in Hl. simpl in Hl. lia. }
  pose proof (dest_path_split h dc Hdne) as Hdest. fold dest in Hdest.
  unfold move_verified, mbind at 1, op_bind at 1, Apply.io_err at 1, map_err at 1.
  pose proof (create_dirs_spec (h_root h) (removelast dc) h) as Hc.
  destruct (create_dirs _ _ h) as [h1 r]. destruct Hc as (Hf1 & Hnew & Hr).
  { intros k Hk. rewrite take_removelast by lia. apply Hlinks. lia. }
  assert (Hd1 : h_world h1 !! dest = h_world h !! dest).
  { eapply only_new_dirs_other; [done|]. rewrite Hdest, !length_app. simpl. lia. }
  assert (Hs1 : h_world h1 !! src = h_world h !! src).
  { destruct (Hnew src) as [?|(Hnone & _)]; [done|]. destruct Hreg as (? & ? & Hreg & _). congruence. }
  assert (Hweak : ∀ p, h_world h1 !! p = h_world h !! p ∨ (h_world h !! p = None ∧ h_world h1 !! p = Some Dir)).
  { intros p. destruct (Hnew p) as [?|(? & ? & _)]; auto. }
  destruct r as [q|e|]; [|by (split; [done|]; split; auto)..].
  destruct Hr as [-> Hbelow]. destruct Hf1 as (Hf_root & _ & Hf_sup & Hf_now & _).
  unfold Apply.register_delete, Apply.register_write, modify.
  unfold mbind at 1, op_bind at 1. unfold mbind at 1, op_bind at 1. set (h2 := set_suppress _ (set_suppress _ h1)).
  assert (Hsup2 : h_suppress h2 = Suppressor.register_write (Suppressor.register_delete (h_suppress h) (h_now h) old_rel) (h_now h) new_rel hash).
  { simpl. by rewrite Hf_sup, Hf_now. }
  assert (Hsd2 : dirs_below (h_world h2) [] sd) by by eapply only_new_dirs_below.
  cbv zeta. rewrite <- Hdest. unfold mbind at 1, op_bind at 1, Apply.io_err at 1, map_err at 1.
  unfold mbind at 1, op_bind at 1. unfold src at 1. rewrite canon_parent_plain by done. fold src.
  pose proof (sys_rename_spec src dest h2) as Hren. destruct (sys_rename src dest h2) as [h3 [[]|e|]].
  2-3: destruct Hren as [_ Hw3]; (split; [done|]; split; [by rewrite Hw3|left; by rewrite Hw3]).
  destruct Hren as ((_ & _ & Hsup3 & _) & n & Hn & Hnd & Hw3).
  assert (Hn' : h_world h !! src = Some n) by by rewrite <- Hs1.
  set (dd := h_root h ++ removelast dc) in *.
  assert (Hddn : Forall normal_comp dd).
  { apply Forall_app. split; [done|]. by apply normal_removelast. }
  assert (Hdd3 : dirs_below (h_world h3) [] dd).
  { assert (Hdd2 : dirs_below (h_world h2) [] dd) by (apply dirs_below_app; [by eapply only_new_dirs_below|done]).
    intros k Hk. specialize (Hdd2 k Hk). rewrite Hw3, lookup_insert_ne, lookup_delete_ne; [done| |].
    - intros Heq. rewrite <- Heq in Hdd2. congruence.
    - intros Heq. apply (f_equal length) in Heq. rewrite Hdest, length_app in Heq. simpl in Heq.
      rewrite length_take in Heq. lia. }
  pose proof (normal_last dc Hdne Hdn) as Hname.
  pose proof (rename_tail h3 dd (List.last dc "") mode hash meta policy Hddn Hdd3 Hname h3 ltac:(by split)) as Ht.
  rewrite <- Hdest in Ht. rewrite Hw3, lookup_insert_eq, <- Hn' in Ht. specialize (Ht Hreg).
  destruct ((Apply.io_err "chmod" _;; _) h3) as [h4 r]. simpl in Ht. destruct Ht as [[(_ & _ & Hsup4 & _) Hoth] Hr].
  assert (Hmoved : h_world h4 !! src = None ∧ h_suppress h4 = h_suppress h2).
  { rewrite Hoth, Hsup4, Hw3, lookup_insert_ne by congruence. by rewrite lookup_delete_eq. }
  destruct Hmoved as [Hsrc4 Hsup]. rewrite Hsup2 in Hsup. rewrite Hsup3 in Hsup4.
  split; [|split].
  - destruct r as [[]| |]; naive_solver.
  - intros p Hp1 Hp2. rewrite Hoth, Hw3, lookup_insert_ne, lookup_delete_ne by congruence. apply Hweak.
  - destruct r as [[]| |]; naive_solver.
Qed.

(** A remote rename moves the verified bytes or falls back: [false] leaves the
    host as it was; [true] means that the target holds the bytes announced,
    the source is gone and both events are suppressed; an error or a kill
    leaves the bytes at the source, with the target untouched, or at the
    target. No other path changes but for new directories. *)
Theorem apply_rename_exact old_rel new_rel sc dc mode hash meta policy h :
  Apply.safe_dest old_rel = Ok sc → Apply.safe_dest new_rel = Ok dc → sc ≠ dc →
  parents_there h sc → ¬ is_link (h_world h !! dest_path h sc) →
  (∀ k, (0 < k < length dc)%nat → ¬ is_link (h_world h !! (h_root h ++ take k dc))) →
  let '(h', r) := Apply.apply_rename old_rel new_rel mode hash meta policy h in
  move_outcome old_rel new_rel hash (dest_path h sc) (dest_path h dc) h h' r.
Proof.
  intros Hs Hd Hdiff [Hroot Hb] Hlink Hlinks.
  destruct (safe_dest_normal _ _ Hs) as [Hsne Hsn]. destruct (safe_dest_normal _ _ Hd) as [Hdne Hdn].
  unfold Apply.apply_rename, mbind at 1, op_bind at 1. rewrite Hs. unfold of_result at 1.
  unfold mret at 1, op_ret at 1, mbind at 1, op_bind at 1. rewrite Hd. unfold of_result at 1.
  unfold mret at 1, op_ret at 1, mbind at 1, op_bind at 1, gets at 1. fold (dest_path h sc). cbv zeta.
  unfold mbind at 1, op_bind at 1, catch. pose proof (verify_spec (dest_path h sc) hash old_rel h) as Hv.
  destruct (Apply.verify_on_disk _ _ _ h) as [h1 [[]|e|]]; destruct Hv as [[fs ->] Hv].
  - change (let '(h', r) := move_verified (h_root h) (dest_path h sc) dc old_rel new_rel mode hash meta policy (set_faults fs h) in
      move_outcome old_rel new_rel hash (dest_path h sc) (dest_path h dc) h h' r).
    assert (Hsrcn : Forall normal_comp (h_root h ++ removelast sc)).
    { apply Forall_app. split; [done|]. by apply normal_removelast. }
    destruct Hv as (q & d & a & Hwalk & Hq & Hh). pose proof (dest_path_split h sc Hsne) as Hsplit.
    assert (q = dest_path h sc) as ->.
    { rewrite Hsplit in *. eapply (namei_stays LINK_MAX (h_world h)); [done|done|by apply normal_last| |done].
      intros t a' Hl. apply Hlink. by exists t, a'. }
    pose proof (move_verified_spec (set_faults fs h) (h_root h ++ removelast sc) (List.last sc "") dc
      old_rel new_rel mode hash meta policy) as Hm. cbv zeta in Hm. rewrite <- Hsplit in Hm.
    change (dest_path (set_faults fs h) dc) with (dest_path h dc) in Hm.
    change (h_root (set_faults fs h)) with (h_root h) in Hm.
    destruct (move_verified (h_root h) (dest_path h sc) dc old_rel new_rel mode hash meta policy (set_faults fs h)) as [h' r].
    apply Hm; try done.
    + intros Heq%app_inv_head. congruence.
    + intros k Hk. specialize (Hb k). rewrite length_app, take_app_le in Hb by lia. apply Hb. lia.
    + by eexists _, _.
  - destruct e as [| |ctx k|]; try (by split; [by left|left]); try (by split; [by left|]).
    destruct k; try (by split; [by left|left]); by split; [by left|].
  - by split; [by left|left].
Qed.
End moves.

(** ** Concrete runs *)

#[local] Existing Instance toy_blake3.
#[local] Instance ex_apply_hex : Hex := toy_hex.

Definition ex_bytes : list byte := [x68; x69].
Definition ex_manifest : Manifest := mkManifest (blake3 ex_bytes) [mkChunkEntry (blake3 ex_bytes) 2].
Definition ex_store : Cas := {[ blake3 ex_bytes := ex_bytes ]}.
Definition ex_loaded (faults : list Fault) : Host :=
  mkHost (<[["s"; "old"] := Reg ex_bytes ex_attr]> ex_world) ["s"] ∅ ex_store 42 0 100 ex_attr 0 faults.

Lemma ex_dirs w : w !! ["s"] = Some Dir → dirs_below w [] ["s"].
Proof. intros Hw k Hk. simpl in Hk. assert (k = 1%nat) as -> by lia. done. Qed.

Lemma ex_share_ok faults : share_ok (ex_loaded faults) ["a"; "b"].
Proof.
  split.
  - by repeat constructor.
  - apply ex_dirs. vm_compute. reflexivity.
  - intros k Hk. simpl in Hk. assert (k = 1%nat) as -> by lia. intros (t & a & Hl). vm_compute in Hl. discriminate.
  - vm_compute. reflexivity.
Qed.


(** The run succeeds when nothing fails, and fails on a torn write. *)
Lemma apply_version_runs :
  (Apply.apply_version "a/b" 420 (Some (blake3 ex_bytes)) (Some ex_manifest) [] None None OwnerPolicy.Skip (ex_loaded [])).2 = Done () ∧
  (Apply.apply_version "a/b" 420 (Some (blake3 ex_bytes)) (Some ex_manifest) [] None None OwnerPolicy.Skip
    (ex_loaded [NoFault; NoFault; Torn [x68]])).2 = Fail (ApplyError.HashMismatch "a/b").
Proof. vm_compute. done. Qed.

Lemma apply_rename_exact_witness :
  Apply.safe_dest "old" = Ok ["old"] ∧ Apply.safe_dest "a/b" = Ok ["a"; "b"] ∧
  let '(h', r) := Apply.apply_rename "old" "a/b" 420 (blake3 ex_bytes) None OwnerPolicy.Skip (ex_loaded []) in
  move_outcome "old" "a/b" (blake3 ex_bytes) (dest_path (ex_loaded []) ["old"]) (dest_path (ex_loaded []) ["a"; "b"]) (ex_loaded []) h' r.
Proof.
  assert (Hs : Apply.safe_dest "old" = Ok ["old"]) by reflexivity.
  assert (Hd : Apply.safe_dest "a/b" = Ok ["a"; "b"]) by reflexivity.
  split; [exact Hs|]. split; [exact Hd|].
  apply (apply_rename_exact "old" "a/b" ["old"] ["a"; "b"] 420 (blake3 ex_bytes) None OwnerPolicy.Skip (ex_loaded []) Hs Hd).
  - done.
  - split; [by repeat constructor|]. apply ex_dirs. vm_compute. reflexivity.
  - intros (t & a & Hl). vm_compute in Hl. discriminate.
  - apply (so_links _ _ (ex_share_ok [])).
Defined.

Lemma apply_delete_exact_witness :
  Apply.safe_dest "old" = Ok ["old"] ∧
  let '(h', r) := Apply.apply_delete "old" (ex_loaded []) in
  h_suppress h' = Suppressor.register_delete (h_suppress (ex_loaded [])) (h_now (ex_loaded [])) "old" ∧
  match r with
  | Done _ => h_world h' = delete ["s"; "old"] (h_world (ex_loaded [])) ∧ h_world (ex_loaded []) !! ["s"; "old"] ≠ Some Dir ∨
      h_world h' = h_world (ex_loaded []) ∧ Fails ENOENT ∈ h_faults (ex_loaded [])
  | Fail _ => h_world h' = h_world (ex_loaded [])
  | Crashed => h_world h' = h_world (ex_loaded []) ∨ h_world h' = delete ["s"; "old"] (h_world (ex_loaded []))
  end.
Proof.
  assert (Hs : Apply.safe_dest "old" = Ok ["old"]) by reflexivity. split; [exact Hs|].
  apply (apply_delete_exact "old" ["old"] (ex_loaded []) Hs).
  split; [by repeat constructor|]. apply ex_dirs. vm_compute. reflexivity.
Defined.

(** A replicated link to a directory outside the share lets a later write
    leave the share: the check on the path is lexical. *)
Lemma link_escapes_share :
  let h := ex_host (<[["s"; "d"] := Lnk (str_bytes "/etc") ex_attr]> ex_world) [] in
  let h' := (Apply.apply_write "d/passwd" 420 (blake3 ex_bytes) ex_bytes None OwnerPolicy.Skip h).1 in
  Apply.safe_dest "d/passwd" = Ok ["d"; "passwd"] ∧
  h_world h !! ["etc"; "passwd"] = None ∧ reg_hashing (blake3 ex_bytes) (h_world h' !! ["etc"; "passwd"]).
Proof. split; [reflexivity|]. split; [vm_compute; reflexivity|]. eexists _, _. vm_compute. split; reflexivity. Qed.

(** Texts that differ name the same file. *)
Lemma safe_dest_aliases :
  Apply.safe_dest "a//b" = Ok ["a"; "b"] ∧ Apply.safe_dest "a/./b" = Ok ["a"; "b"] ∧ Apply.safe_dest "a/b/" = Ok ["a"; "b"].
Proof. done. Qed.

(** An attribute that a metadata-only change removed stays on disk, and the
    next capture reports it again. *)
Lemma stale_xattr_stays :
  let h := ex_host (<[["s"; "f"] := Reg ex_bytes (mkAttr 420 1000 1000 7 0 {[ [x75] := [x76] ]} true)]> ex_world) [] in
  let m := mkMeta FileKind.Regular 420 0 0 7 0 None 0 [] in
  let '(h', r) := Apply.apply_meta_only "f" (Some (blake3 ex_bytes)) m OwnerPolicy.Skip h in
  r = Done () ∧
  (MetaIo.capture ["s"; "f"] OwnerPolicy.Skip h').2 = Done (Some (mkMeta FileKind.Regular 420 0 0 7 0 None 0 [([x75], [x76])])).
Proof. vm_compute. done. Qed.
