(* ===== verification/ApplyLive.v ===== *)
(** * Applying when nothing fails

    The counterpart of the safety theorems: without faults and with nothing in
    the way, the publication of an assembled file succeeds, and the file is
    there with its bytes and attributes. *)

From S2P Require Import Prelude Vv Metadata Conflict State Suppress Chunk Fs Apply ApplyProofs.

Lemma op_step {E A B} (m : Op E A) (f : A → Op E B) h h1 a : m h = (h1, Done a) → (m ≫= f) h = f a h1.
Proof. unfold mbind, op_bind. by intros ->. Qed.

Lemma io_step {A B} ctx (m : Op Errno A) (f : A → Op ApplyError B) h h1 a :
  m h = (h1, Done a) → (Apply.io_err ctx m ≫= f) h = f a h1.
Proof. intros Hm. apply op_step. unfold Apply.io_err, map_err. by rewrite Hm. Qed.

(** Nothing stands in the way of the destination. *)
Record clear_way (h : Host) (comps : FsPath) : Prop := {
  cw_quiet : h_faults h = [];
  cw_share : share_ok h comps;
  cw_parents : ∀ k, (0 < k < length comps)%nat →
    h_world h !! (h_root h ++ take k comps) = None ∨ h_world h !! (h_root h ++ take k comps) = Some Dir;
  cw_dest : h_world h !! dest_path h comps ≠ Some Dir;
}.

Lemma create_dirs_quiet cur todo h :
  h_faults h = [] →
  (∀ k, (0 < k ≤ length todo)%nat → h_world h !! (cur ++ take k todo) = None ∨ h_world h !! (cur ++ take k todo) = Some Dir) →
  ∃ h', create_dirs cur todo h = (h', Done (cur ++ todo)) ∧ h_faults h' = [] ∧ h_cas h' = h_cas h.
Proof.
  revert cur h. induction todo as [|c todo IH]; intros cur h Hf Hk; cbn [create_dirs].
  { exists h. by rewrite app_nil_r. }
  unfold mbind, op_bind, get_node, gets.
  assert (Hk' : ∀ h1, h_world h1 = h_world h ∨ h_world h1 = <[cur ++ [c] := Dir]> (h_world h) →
    ∀ k, (0 < k ≤ length todo)%nat → h_world h1 !! ((cur ++ [c]) ++ take k todo) = None ∨ h_world h1 !! ((cur ++ [c]) ++ take k todo) = Some Dir).
  { intros h1 Hw k Hl. rewrite <- (assoc_L (++)). destruct Hw as [->| ->]; [apply (Hk (S k)); simpl; lia|].
    rewrite lookup_insert_ne; [apply (Hk (S k)); simpl; lia|].
    intros Heq%app_inv_head. destruct todo, k; simpl in *; try lia. done. }
  assert (Hassoc : cur ++ c :: todo = (cur ++ [c]) ++ todo) by by rewrite <- (assoc_L (++)).
  rewrite Hassoc. destruct (Hk 1%nat ltac:(simpl; lia)) as [Hc|Hc]; change (take 1 (c :: todo)) with [c] in Hc; rewrite Hc.
  - unfold syscall. rewrite Hf. cbn. set (h1 := set_world _ h).
    apply (IH (cur ++ [c]) h1); [done|]. apply Hk'. by right.
  - apply IH; [done|]. apply Hk'. by left.
Qed.

Section live.
Context `{!Blake3, !Hex}.

Lemma write_quiet p bytes d a h :
  h_faults h = [] → h_world h !! p = Some (Reg d a) →
  sys_write p bytes h = (set_world (<[p := Reg bytes (set_synced false a)]> (h_world h)) h, Done ()).
Proof.
  intros Hf Hn. unfold sys_write, mbind, op_bind, gets, torn_bytes, syscall. rewrite Hf.
  unfold update_node, mbind, op_bind, get_node, gets. by rewrite Hn.
Qed.

Lemma create_quiet p h :
  h_faults h = [] → h_world h !! p = None →
  sys_create p h = (set_world (<[p := Reg [] (set_synced false (h_new h))]> (h_world h)) h, Done p).
Proof.
  intros Hf Hn. unfold sys_create, mbind, op_bind, syscall. rewrite Hf. unfold get_node, gets. by rewrite Hn.
Qed.

Lemma verify_quiet dir name hash rel d a h :
  h_faults h = [] → Forall normal_comp dir → normal_comp name → dirs_below (h_world h) [] dir →
  h_world h !! (dir ++ [name]) = Some (Reg d a) → blake3 d = hash →
  Apply.verify_on_disk (dir ++ [name]) hash rel h = (h, Done ()).
Proof.
  intros Hf Hd Hn Hb Hw Hh. unfold Apply.verify_on_disk.
  assert (Hread : sys_read_file (dir ++ [name]) h = (h, Done d)).
  { unfold sys_read_file, mbind, op_bind, syscall. rewrite Hf. unfold gets.
    rewrite (namei_file LINK_MAX (h_world h) dir name (Reg d a)) by done. cbn. unfold get_node, gets. by rewrite Hw. }
  unfold mbind, op_bind, map_err. rewrite Hread. rewrite bool_decide_false by (intros Hne; by apply Hne). done.
Qed.

(** The attributes of the published file. *)
Definition file_attr (mode : Z) (meta : option Meta) (policy : OwnerPolicy) (new : Attr) : Attr :=
  let a := set_mode (perm_bits mode) (set_synced true new) in
  match meta with Some m => attr_with m policy a | None => a end.

Definition meta_plain (meta : option Meta) : Prop :=
  match meta with Some m => m_kind m = FileKind.Regular ∧ Forall (λ kv, x00 ∉ kv.1) (m_xattrs m) | None => True end.

Lemma dirs_below_insert w dir name n : dirs_below w [] dir → dirs_below (<[dir ++ [name] := n]> w) [] dir.
Proof.
  intros Hb k Hk. rewrite lookup_insert_ne; [by apply Hb|]. simpl. intros Heq%(f_equal length).
  rewrite length_app, length_take in Heq. simpl in Heq. lia.
Qed.

Lemma stage_quiet dir name mode hash manifest io trunc meta policy rel data cas' h :
  h_faults h = [] → Forall normal_comp dir → normal_comp name → dirs_below (h_world h) [] dir →
  h_world h !! (dir ++ [name]) = None → meta_plain meta →
  assemble_from_cas (h_cas h) manifest io trunc = (cas', Ok (data, hash)) → blake3 data = hash →
  ∃ h', (f ← Apply.io_err "create" (sys_create (dir ++ [name]));
    written ← Apply.assemble_into f manifest io trunc;
    (if bool_decide (written ≠ hash) then fail (ApplyError.HashMismatch rel) else mret ());;
    Apply.io_err "fsync" (sys_fsync f);;
    Apply.io_err "chmod" (sys_fchmod f mode);;
    Apply.verify_on_disk (dir ++ [name]) hash rel;;
    Apply.apply_meta_opt (dir ++ [name]) meta policy) h = (h', Done ()) ∧ h_faults h' = [] ∧
    h_world h' = <[dir ++ [name] := Reg data (file_attr mode meta policy (h_new h))]> (h_world h).
Proof.
  intros Hf Hd Hn Hb Hnone Hmeta Hasm Hhash. set (p := dir ++ [name]) in *.
  rewrite (io_step "create" _ _ _ _ _ (create_quiet p h Hf Hnone)).
  set (h1 := set_world _ h).
  assert (Hcas : Apply.assemble_into p manifest io trunc h1
    = (set_cas cas' (set_world (<[p := Reg data (set_synced false (h_new h))]> (h_world h)) h), Done hash)).
  { unfold Apply.assemble_into, mbind, op_bind, gets. cbn [h1 h_cas set_world]. rewrite Hasm. unfold modify.
    unfold Apply.io_err, map_err. rewrite (write_quiet p data [] (set_synced false (h_new h))); [|done|apply lookup_insert_eq].
    cbn. by rewrite insert_insert_eq. }
  rewrite (op_step _ _ _ _ _ Hcas). rewrite bool_decide_false by (intros Hne; by apply Hne).
  set (h2 := set_cas cas' _).
  assert (Hf2 : h_faults h2 = []) by done.
  rewrite (op_step (mret ()) _ h2 h2 ()) by done.
  assert (Hn2 : h_world h2 !! p = Some (Reg data (set_synced false (h_new h)))) by apply lookup_insert_eq.
  rewrite (io_step "fsync" _ _ _ _ _ (update_attr_quiet p (set_synced true) h2 _ Hf2 Hn2)). clear Hn2.
  set (h2' := set_world _ h2).
  assert (Hn2 : h_world h2' !! p = Some (Reg data (set_synced true (h_new h)))) by apply lookup_insert_eq.
  rewrite (io_step "chmod" _ _ _ _ _ (update_attr_quiet p (set_mode (perm_bits mode)) h2' _ Hf2 Hn2)).
  set (h3 := set_world _ h2').
  assert (Hw3 : h_world h3 = <[p := Reg data (set_mode (perm_bits mode) (set_synced true (h_new h)))]> (h_world h)).
  { unfold h3. cbn. by rewrite !insert_insert_eq. }
  assert (Hver : Apply.verify_on_disk p hash rel h3 = (h3, Done ())).
  { eapply verify_quiet; [done..| |rewrite Hw3; apply lookup_insert_eq|done]. rewrite Hw3. by apply dirs_below_insert. }
  rewrite (op_step _ _ _ _ _ Hver). unfold Apply.apply_meta_opt, file_attr. destruct meta as [m|]; [|by exists h3].
  destruct Hmeta as [Hk Hx]. unfold Apply.apply_meta_at.
  destruct (apply_meta_quiet p m policy h3 (Reg data (set_mode (perm_bits mode) (set_synced true (h_new h))))) as (h4 & Ha & Hf4 & Hw4);
    [done|rewrite Hw3; apply lookup_insert_eq|done| |].
  { intros _ f. rewrite Hw3, insert_insert_eq. by apply walk_updated. }
  exists h4. unfold mbind, op_bind, map_err. rewrite Ha. split; [done|]. split; [done|]. by rewrite Hw4, Hw3, insert_insert_eq.
Qed.

(** Publication of what was staged. *)
Lemma finish_quiet tmp dest (stage cleanup : Op ApplyError unit) h2 h3 n :
  stage h2 = (h3, Done ()) → h_faults h3 = [] → h_world h3 !! tmp = Some n → n ≠ Dir → h_world h3 !! dest ≠ Some Dir →
  on_err (stage;; Apply.io_err "rename" (sys_rename tmp dest);; sync_dir) cleanup h2
  = (set_world (<[dest := n]> (delete tmp (h_world h3))) h3, Done ()).
Proof.
  intros Hstage Hf3 Hn Hdir Hdst. unfold on_err. rewrite (op_step _ _ _ _ _ Hstage). set (h4 := set_world _ h3).
  assert (Hren : sys_rename tmp dest h3 = (h4, Done ())).
  { unfold sys_rename, mbind, op_bind, syscall. rewrite Hf3. unfold get_node, gets. rewrite Hn.
    by destruct n, (h_world h3 !! dest) as [[]|]. }
  rewrite (io_step "rename" _ _ _ _ _ Hren).
  assert (Hsync : sync_dir (E := ApplyError) h4 = (h4, Done ())).
  { unfold sync_dir, ignore, mbind, op_bind, syscall. change (h_faults h4) with (h_faults h3). rewrite Hf3. cbn.
    change (h_faults h4) with (h_faults h3). by rewrite Hf3. }
  by rewrite Hsync.
Qed.

(** A file whose chunks are in the store, published where nothing is in the
    way and nothing fails: the call returns, and the destination is a regular
    file with exactly the bytes of the assembly and the version's mode and
    metadata. *)
Lemma apply_assembled_complete rel mode hash manifest io trunc meta policy h comps data cas' :
  Apply.safe_dest rel = Ok comps → clear_way h comps → meta_plain meta → mf_content_hash manifest = hash →
  assemble_from_cas (h_cas h) manifest io trunc = (cas', Ok (data, hash)) → blake3 data = hash →
  ∃ h', Apply.apply_assembled rel mode hash manifest io trunc meta policy h = (h', Done ()) ∧
    h_world h' !! dest_path h comps = Some (Reg data (file_attr mode meta policy (h_new h))).
Proof.
  intros Hs [Hf [Hroot Hdirs Hlinks Hfresh] Hparents Hdst] Hmeta Hmf Hasm Hhash.
  destruct (safe_dest_normal rel comps Hs) as [Hne Hnorm].
  pose proof (removelast_last_comps comps Hne) as Hsplit.
  assert (Hlen : (length (removelast comps) + 1 = length comps)%nat).
  { apply (f_equal length) in Hsplit. rewrite length_app in Hsplit. simpl in Hsplit. lia. }
  assert (Hdest : dest_path h comps = (h_root h ++ removelast comps) ++ [List.last comps ""]) by by apply dest_path_split.
  unfold Apply.apply_assembled. rewrite bool_decide_false by (intros Hn; by apply Hn).
  destruct (create_dirs_quiet (h_root h) (removelast comps) h Hf) as (h1 & Hmk & Hf1 & Hcas1).
  { intros k Hk. rewrite take_removelast by lia. apply Hparents. lia. }
  pose proof (create_dirs_spec (h_root h) (removelast comps) h) as Hspec. rewrite Hmk in Hspec.
  destruct Hspec as ((Hr1 & Hp1 & Hs1 & Hn1 & Hq1 & Ha1) & Hnew & _ & Hbelow).
  { intros k Hk. rewrite take_removelast by lia. apply Hlinks. lia. }
  assert (Hlong : ∀ name, h_world h1 !! ((h_root h ++ removelast comps) ++ [name]) = h_world h !! ((h_root h ++ removelast comps) ++ [name])).
  { intros name. eapply only_new_dirs_other; [done|]. rewrite !length_app. simpl. lia. }
  unfold Apply.publish. rewrite (op_step _ _ h h comps) by by rewrite Hs.
  rewrite (op_step (gets h_root) _ h h (h_root h)) by done.
  rewrite (io_step "mkdir" _ _ _ _ _ Hmk).
  set (dir := h_root h ++ removelast comps) in *.
  set (h2 := set_seq (N.succ (h_seq h1)) (set_suppress (Suppressor.register_write (h_suppress h1) (h_now h1) rel hash) h1)).
  set (tn := Apply.tmp_name (List.last comps "") (h_pid h1) (h_seq h1)).
  match goal with |- ∃ h', ?m = _ ∧ _ => change m with
    (on_err ((λ tmp, f ← Apply.io_err "create" (sys_create tmp);
      written ← Apply.assemble_into f manifest io trunc;
      (if bool_decide (written ≠ hash) then fail (ApplyError.HashMismatch rel) else mret ());;
      Apply.io_err "fsync" (sys_fsync f);;
      Apply.io_err "chmod" (sys_fchmod f mode);;
      Apply.verify_on_disk tmp hash rel;;
      Apply.apply_meta_opt tmp meta policy) (dir ++ [tn]);;
      Apply.io_err "rename" (sys_rename (dir ++ [tn]) (dir ++ [List.last comps ""]));; sync_dir)
      (ignore (sys_unlink (dir ++ [tn]))) h2) end.
  assert (Hn2 : Forall normal_comp dir).
  { apply Forall_app. split; [done|]. rewrite Hsplit in Hnorm. by apply Forall_app in Hnorm as [? _]. }
  assert (Hb2 : dirs_below (h_world h2) [] dir).
  { apply dirs_below_app; [by eapply only_new_dirs_below|done]. }
  assert (Hnone : h_world h2 !! (dir ++ [tn]) = None).
  { unfold tn. rewrite Hp1, Hq1. change (h_world h2) with (h_world h1). by rewrite Hlong. }
  destruct (stage_quiet dir tn mode hash manifest io trunc meta policy rel data cas' h2)
    as (h3 & Hstage & Hf3 & Hw3); [done|done|apply tmp_name_normal|done|done|done|by rewrite <- Hasm, <- Hcas1|done|].
  assert (Hne' : dir ++ [List.last comps ""] ≠ dir ++ [tn]).
  { intros Heq%app_inv_head. injection Heq. intros Heq'. by apply (tmp_name_other (List.last comps "") (h_pid h1) (h_seq h1)). }
  erewrite (finish_quiet (dir ++ [tn])); [|exact Hstage|done|rewrite Hw3; apply lookup_insert_eq|done|].
  - eexists. split; [done|]. rewrite Hdest. cbn. rewrite lookup_insert_eq. by rewrite Ha1.
  - rewrite Hw3, lookup_insert_ne by done. change (h_world h2) with (h_world h1). by rewrite Hlong, <- Hdest.
Qed.

(** A delete where nothing fails: the file is gone. *)
Lemma apply_delete_complete rel comps h :
  h_faults h = [] → Apply.safe_dest rel = Ok comps → parents_there h comps → h_world h !! dest_path h comps ≠ Some Dir →
  ∃ h', Apply.apply_delete rel h = (h', Done ()) ∧ h_world h' = delete (dest_path h comps) (h_world h).
Proof.
  intros Hf Hs [Hroot Hb] Hdir. destruct (safe_dest_normal rel comps Hs) as [Hne Hnorm].
  assert (Hn : Forall normal_comp (h_root h ++ removelast comps)).
  { apply Forall_app. split; [done|]. by apply normal_removelast. }
  unfold Apply.apply_delete. rewrite (op_step _ _ h h comps) by by rewrite Hs.
  rewrite (op_step (gets h_root) _ h h (h_root h)) by done.
  set (h1 := set_suppress (Suppressor.register_delete (h_suppress h) (h_now h) rel) h).
  rewrite (op_step (Apply.register_delete rel) _ h h1 ()) by done.
  set (h2 := set_world (delete (dest_path h comps) (h_world h)) h1).
  assert (Hsync : sync_dir (E := ApplyError) h2 = (h2, Done ())).
  { unfold sync_dir, ignore, mbind, op_bind, syscall. change (h_faults h2) with (h_faults h). rewrite Hf. cbn.
    change (h_faults h2) with (h_faults h). by rewrite Hf. }
  assert (Hun : ∃ r, (dest ← canon_parent (h_root h ++ comps); sys_unlink dest) h1 = (h2, r) ∧ (r = Done () ∨ r = Fail ENOENT)).
  { fold (dest_path h comps). rewrite (dest_path_split h comps Hne).
    rewrite (op_step _ _ _ _ _ (canon_parent_plain h1 (h_root h ++ removelast comps) (List.last comps "") Hn Hb)).
    rewrite <- (dest_path_split h comps Hne). unfold sys_unlink, mbind, op_bind, syscall, get_node, gets.
    change (h_faults h1) with (h_faults h). rewrite Hf. change (h_world h1) with (h_world h).
    destruct (h_world h !! dest_path h comps) as [[]|] eqn:Hd; try done; try (exists (Done ()); by split; [|left]).
    exists (Fail ENOENT). split; [|by right]. unfold h2. rewrite delete_id by done. by destruct h. }
  destruct Hun as (r & Hun & Hr). exists h2. split; [|done].
  rewrite (op_step _ _ h1 h2 match r with Done a => Ok a | _ => Err ENOENT end).
  - destruct Hr as [-> | ->]; by rewrite (op_step (mret ()) _ h2 h2 ()).
  - unfold catch. rewrite Hun. by destruct Hr as [-> | ->].
Qed.
End live.
