(* ===== verification/Peer.v ===== *)
(** * Peer registries and backoff (src/src/peer.rs)

    Liveness per peer, the pool of live connections the fetchers borrow, and
    the jittered reconnection delay. A connection is what the far end answers;
    the iteration order of a [HashMap] is a parameter. *)

From S2P Require Import Prelude Vv Metadata Conflict State.

Module PeerState.
Inductive t : Type :=
| Disconnected
| Dialing
| Reconciling
| Live
| Backoff.

Definition as_str (s : t) : string :=
  match s with
  | Disconnected => "disconnected"
  | Dialing => "dialing"
  | Reconciling => "reconciling"
  | Live => "live"
  | Backoff => "backoff"
  end.
End PeerState.
Abbreviation PeerState := PeerState.t.

#[export] Instance peer_state_eq_dec : EqDecision PeerState.
Proof. solve_decision. Defined.

Record PeerStatus : Type := mkPeerStatus {
  ps_state : PeerState;
  ps_last_reconcile_unix : Z;
  ps_last_reconcile_ok : bool;
}.
Definition default_status : PeerStatus := mkPeerStatus PeerState.Disconnected 0 false.

Abbreviation PeerRegistry := (gmap NodeId PeerStatus).

Module PeerRegistry.
Definition get (m : PeerRegistry) (peer : NodeId) : PeerStatus := default default_status (m !! peer).

Definition set_state (m : PeerRegistry) (peer : NodeId) (s : PeerState) : PeerRegistry :=
  let e := get m peer in
  <[peer := mkPeerStatus s (ps_last_reconcile_unix e) (ps_last_reconcile_ok e)]> m.

(** [unix]: the clock, 0 before the epoch. *)
Definition note_reconcile (m : PeerRegistry) (peer : NodeId) (ok : bool) (unix : Z) : PeerRegistry :=
  <[peer := mkPeerStatus (ps_state (get m peer)) unix ok]> m.

Definition snapshot (m : PeerRegistry) : list (NodeId * PeerStatus) := btree_iter m.
End PeerRegistry.

(** ** Live connections *)

Record ManifestReq : Type := mkManifestReq { mq_content_hash : hash32; mq_offset : Z; mq_count : Z }.
Record ManifestResp : Type := mkManifestResp {
  mr_found : bool;
  mr_content_hash : hash32;
  mr_total : Z;
  mr_chunks : list ChunkEntry;
}.
Record ChunkResp : Type := mkChunkResp { cr_found : bool; cr_len : Z }.

(** A connection: its [stable_id], and what the far end answers to the
    [n]-th request on it ([None]: the stream fails). A chunk answer is the
    header and the raw bytes that follow it. *)
Record PeerConn : Type := mkPeerConn {
  pc_stable_id : Z;
  pc_manifest : nat → ManifestReq → option ManifestResp;
  pc_chunk : nat → hash32 → option (ChunkResp * list byte);
}.

(** The order in which a [HashMap] hands out its entries. *)
Class HashIter := hash_iter : ∀ {V : Type}, gmap NodeId V → list (NodeId * V).
Class HashIterLaws `{!HashIter} : Prop := hash_iter_perm V (m : gmap NodeId V) : hash_iter m ≡ₚ map_to_list m.

Abbreviation ConnRegistry := (gmap NodeId (list PeerConn)).

Module ConnRegistry.
Definition insert (m : ConnRegistry) (peer : NodeId) (conn : PeerConn) : ConnRegistry :=
  let conns := default [] (m !! peer) in
  <[peer := if bool_decide (pc_stable_id conn ∈ pc_stable_id <$> conns) then conns else conns ++ [conn]]> m.

Definition remove_if_same (m : ConnRegistry) (peer : NodeId) (conn : PeerConn) : ConnRegistry :=
  match m !! peer with
  | None => m
  | Some conns =>
      match filter (λ c, pc_stable_id c ≠ pc_stable_id conn) conns with
      | [] => delete peer m
      | conns => <[peer := conns]> m
      end
  end.

Definition get (m : ConnRegistry) (peer : NodeId) : option PeerConn := m !! peer ≫= head.

(** The registry afterwards, and the connections that were closed. *)
Definition close_all (m : ConnRegistry) (peer : NodeId) : ConnRegistry * list PeerConn :=
  (delete peer m, default [] (m !! peer)).

Section with_order.
Context `{!HashIter}.

Definition all (m : ConnRegistry) : list (NodeId * PeerConn) :=
  omap (λ '(k, v), (λ c, (k, c)) <$> head v) (hash_iter m).

Definition candidates (m : ConnRegistry) (origin_first : NodeId) : list (NodeId * PeerConn) :=
  let of_peer (p : NodeId * list PeerConn) : list (NodeId * PeerConn) := (λ c, (p.1, c)) <$> p.2 in
  of_peer (origin_first, default [] (m !! origin_first)) ++
  (filter (λ p, p.1 ≠ origin_first) (hash_iter m) ≫= of_peer).
End with_order.

Definition len (m : ConnRegistry) : nat := size m.
End ConnRegistry.

(** ** Backoff, in milliseconds *)

Definition BACKOFF_FLOOR : Z := 250.
Definition BACKOFF_CAP : Z := 15000.
Definition BACKOFF_BASE_MS : Z := 500.

(** The upper end of the draw: [attempt] is a [u32], the product saturates. *)
Definition backoff_cap (attempt : Z) : Z :=
  Z.min (Z.min (BACKOFF_BASE_MS * 2 ^ (Z.min attempt 20)) (u64_modulus - 1)) BACKOFF_CAP.

(** [draw]: the random number in [0..=cap]. *)
Definition jittered_backoff (attempt draw : Z) : Z :=
  Z.max BACKOFF_FLOOR (Z.min draw BACKOFF_CAP).

(** ** Properties *)

(** A peer's connections carry distinct ids and no peer is listed without
    one: every operation keeps it so. *)
Definition registry_ok (m : ConnRegistry) : Prop :=
  map_Forall (λ _ conns, conns ≠ [] ∧ NoDup (pc_stable_id <$> conns)) m.

Lemma registry_ok_insert m peer conn : registry_ok m → registry_ok (ConnRegistry.insert m peer conn).
Proof.
  intros Hm. unfold ConnRegistry.insert. apply map_Forall_insert_2; [|done].
  assert (Hold : NoDup (pc_stable_id <$> default [] (m !! peer))).
  { destruct (m !! peer) as [cs|] eqn:Hp; simpl; [|constructor]. by apply (map_Forall_lookup_1 _ _ _ _ Hm Hp). }
  case_bool_decide as Hin.
  - split; [|done]. intros Heq. rewrite Heq in Hin. by apply not_elem_of_nil in Hin.
  - split; [by destruct (default [] _)|]. rewrite fmap_app. apply NoDup_app. split_and!; [done| |by apply NoDup_singleton].
    intros x Hx ->%list_elem_of_singleton. done.
Qed.

Lemma registry_ok_remove m peer conn : registry_ok m → registry_ok (ConnRegistry.remove_if_same m peer conn).
Proof.
  intros Hm. unfold ConnRegistry.remove_if_same. destruct (m !! peer) as [cs|] eqn:Hp; [|done].
  destruct (map_Forall_lookup_1 _ _ _ _ Hm Hp) as [_ Hnd].
  destruct (filter _ cs) as [|c cs'] eqn:Hf; [by apply map_Forall_delete|].
  apply map_Forall_insert_2; [|done]. split; [done|]. rewrite <- Hf.
  eapply sublist_NoDup; [exact Hnd|]. apply fmap_sublist, sublist_filter.
Qed.

Section candidates.
Context `{!HashIter, !HashIterLaws}.

Lemma filter_others (m : ConnRegistry) origin :
  filter (λ p, p.1 ≠ origin) (map_to_list (delete origin m)) = map_to_list (delete origin m).
Proof.
  apply filter_all, Forall_forall. intros [k v] Hin%elem_of_map_to_list. simpl. intros ->. by rewrite lookup_delete_eq in Hin.
Qed.

(** Every registered connection is a candidate exactly once (as often as it
    is registered), the origin's before all others; after [close_all] the
    peer offers none. *)
Theorem candidates_exact (m : ConnRegistry) (origin : NodeId) :
  let of_peer (p : NodeId * list PeerConn) := (λ c, (p.1, c)) <$> p.2 in
  let cs := ConnRegistry.candidates m origin in
  cs ≡ₚ map_to_list m ≫= of_peer ∧
  (∃ l, cs = of_peer (origin, default [] (m !! origin)) ++ l ∧ ∀ k c, (k, c) ∈ l → k ≠ origin) ∧
  ∀ peer c, (peer, c) ∉ ConnRegistry.candidates (ConnRegistry.close_all m peer).1 origin.
Proof.
  intros of_peer cs.
  assert (Hperm : ∀ m, ConnRegistry.candidates m origin ≡ₚ map_to_list m ≫= of_peer).
  { clear cs m. intros m. unfold ConnRegistry.candidates. rewrite (hash_iter_perm _ m).
    destruct (m !! origin) as [conns|] eqn:Hm; simpl.
    - rewrite <- (map_to_list_delete m origin conns Hm). rewrite filter_cons_False by naive_solver. simpl.
      by rewrite (filter_others m origin).
    - replace (map_to_list m) with (map_to_list (delete origin m)) by by rewrite delete_id.
      by rewrite filter_others. }
  split_and!; [apply Hperm| |].
  - eexists. split; [reflexivity|]. intros k c ((k' & conns) & Hk & [Hne _]%list_elem_of_filter)%list_elem_of_bind.
    apply list_elem_of_fmap in Hk as (c' & [= -> ->] & _). done.
  - intros peer c. cbn [ConnRegistry.close_all fst]. rewrite (Hperm (delete peer m)).
    intros ((k & conns) & Hk & Hin%elem_of_map_to_list)%list_elem_of_bind.
    apply list_elem_of_fmap in Hk as (c' & [= -> ->] & _). simpl in Hin. by rewrite lookup_delete_eq in Hin.
Qed.
End candidates.

(** The reconnection delay is never below the floor nor above the cap, and a
    draw within the attempt's range never waits longer than that range, which
    doubles until it meets the cap at the fifth attempt. *)
Theorem backoff_bounded attempt draw :
  0 ≤ attempt → 0 ≤ draw ≤ backoff_cap attempt →
  BACKOFF_FLOOR ≤ jittered_backoff attempt draw ≤ BACKOFF_CAP ∧
  jittered_backoff attempt draw ≤ backoff_cap attempt ∧
  backoff_cap attempt = (if bool_decide (attempt < 5) then 500 * 2 ^ attempt else BACKOFF_CAP).
Proof.
  intros Ha Hd.
  assert (Hcap : backoff_cap attempt = if bool_decide (attempt < 5) then 500 * 2 ^ attempt else BACKOFF_CAP).
  { unfold backoff_cap, BACKOFF_BASE_MS, BACKOFF_CAP, u64_modulus. case_bool_decide as H5.
    - rewrite (Z.min_l attempt) by lia.
      assert (Hp : 2 ^ attempt ≤ 2 ^ 4) by (apply Z.pow_le_mono_r; lia). simpl in Hp. lia.
    - assert (Hp : 2 ^ 5 ≤ 2 ^ Z.min attempt 20) by (apply Z.pow_le_mono_r; lia). simpl in Hp. lia. }
  assert (Hlow : 500 ≤ backoff_cap attempt).
  { rewrite Hcap. unfold BACKOFF_CAP. case_bool_decide; [|lia].
    assert (2 ^ 0 ≤ 2 ^ attempt) by (apply Z.pow_le_mono_r; lia). lia. }
  assert (Hup : backoff_cap attempt ≤ BACKOFF_CAP) by (unfold backoff_cap; lia).
  unfold jittered_backoff, BACKOFF_FLOOR, BACKOFF_CAP in *. split_and!; first [lia|done].
Qed.
