(* ===== verification/Fetch.v ===== *)
(** * Fetching manifests and chunks (src/src/fetch.rs, the serving side in
    src/src/net.rs)

    A file's structure and its missing chunks are pulled from any live peer,
    the origin first. The far end of a connection is arbitrary: what it
    answers is part of [PeerConn]. Admission by the bandwidth limiter only
    delays and is left out. *)

From S2P Require Import Prelude Vv Metadata Conflict State Oplog Chunk Peer.

Definition MANIFEST_PAGE : Z := 4096.

Module FetchError.
Inductive t : Type :=
| Unavailable
| NoUsablePeer
| BadManifest (what : string)
| Cas (e : CasError)
| Store (e : StoreError)
| Join.

Definition is_permanent (e : t) : bool :=
  match e with Unavailable | BadManifest _ => true | _ => false end.
End FetchError.
Abbreviation FetchError := FetchError.t.

#[export] Instance fetch_error_eq_dec : EqDecision FetchError.
Proof. solve_decision. Defined.

(** [FetchLimits] without the limiter and its lane. *)
Record FetchLimits : Type := mkFetchLimits {
  fl_per_file_chunk_concurrency : Z;
  fl_max_chunk_bytes : Z;
  fl_max_file_bytes : Z;
}.

Definition max_manifest_chunks (limits : FetchLimits) : Z :=
  u64_add (fl_max_file_bytes limits / 4096) 2.

Module Fetch.
Section with_externals.
Context `{!Blake3, !Bincode, !Hex, !HashIter}.

(** The per-chunk checks of one page: the running length afterwards. *)
Fixpoint check_page (limits : FetchLimits) (running : Z) (page : list ChunkEntry) : result FetchError Z :=
  match page with
  | [] => Ok running
  | c :: page =>
      if bool_decide (ce_len c = 0 ∨ fl_max_chunk_bytes limits < ce_len c)
      then Err (FetchError.BadManifest "chunk length out of bounds") else
      let running := u64_add running (ce_len c) in
      if bool_decide (fl_max_file_bytes limits < running)
      then Err (FetchError.BadManifest "total length exceeds max_file_bytes")
      else check_page limits running page
  end.

(** The paging loop; [None] when the fuel is too small. *)
Fixpoint manifest_loop (fuel : nat) (conn : PeerConn) (content_hash : hash32) (limits : FetchLimits)
    (turn : nat) (chunks : list ChunkEntry) (running : Z) : option (result FetchError (option Manifest)) :=
  match fuel with
  | O => None
  | S fuel =>
      match pc_manifest conn turn (mkManifestReq content_hash (as_u32 (Z.of_nat (length chunks))) MANIFEST_PAGE) with
      | None => Some (Err FetchError.NoUsablePeer)
      | Some resp =>
          if negb (mr_found resp) then Some (Ok None) else
          if bool_decide (mr_content_hash resp ≠ content_hash)
          then Some (Err (FetchError.BadManifest "wrong content_hash")) else
          if bool_decide (max_manifest_chunks limits < mr_total resp)
          then Some (Err (FetchError.BadManifest "chunk count exceeds file-size cap")) else
          if bool_decide (MANIFEST_PAGE < as_u32 (Z.of_nat (length (mr_chunks resp))))
          then Some (Err (FetchError.BadManifest "oversized page")) else
          match check_page limits running (mr_chunks resp) with
          | Err e => Some (Err e)
          | Ok running =>
              let chunks := chunks ++ mr_chunks resp in
              let len := as_u32 (Z.of_nat (length chunks)) in
              if bool_decide (mr_total resp < len)
              then Some (Err (FetchError.BadManifest "more chunks than total")) else
              if bool_decide (len = mr_total resp) then Some (Ok (Some (mkManifest content_hash chunks))) else
              if bool_decide (length (mr_chunks resp) = O)
              then Some (Err (FetchError.BadManifest "empty page before total"))
              else manifest_loop fuel conn content_hash limits (S turn) chunks running
          end
      end
  end.

(** Enough turns for any far end: every turn that goes on adds a byte. *)
Definition manifest_fuel (limits : FetchLimits) : nat := S (S (Z.to_nat (fl_max_file_bytes limits))).

Definition manifest_from_peer (conn : PeerConn) (content_hash : hash32) (limits : FetchLimits)
  : option (result FetchError (option Manifest)) :=
  manifest_loop (manifest_fuel limits) conn content_hash limits 0 [] 0.

(** The candidates of [obtain_manifest], one after the other. *)
Fixpoint manifest_candidates (db : Conn) (content_hash : hash32) (limits : FetchLimits)
    (candidates : list (NodeId * PeerConn)) (any_not_found : bool) : Conn * result FetchError Manifest :=
  match candidates with
  | [] => (db, Err (if any_not_found then FetchError.Unavailable else FetchError.NoUsablePeer))
  | (_, conn) :: candidates =>
      match manifest_from_peer conn content_hash limits with
      | Some (Ok (Some m)) =>
          let '(db, res) := Oplog.put_manifest_atomic db m in
          (db, match res with Ok _ => Ok m | Err e => Err (FetchError.Store e) end)
      | Some (Ok None) => manifest_candidates db content_hash limits candidates true
      | _ => manifest_candidates db content_hash limits candidates any_not_found
      end
  end.

Definition obtain_manifest (db : Conn) (registry : ConnRegistry) (content_hash : hash32) (origin : NodeId)
    (limits : FetchLimits) : Conn * result FetchError Manifest :=
  match State.manifest_for db content_hash with
  | Err e => (db, Err (FetchError.Store e))
  | Ok (Some m) => (db, Ok m)
  | Ok None =>
      match ConnRegistry.candidates registry origin with
      | [] => (db, Err FetchError.NoUsablePeer)
      | candidates => manifest_candidates db content_hash limits candidates false
      end
  end.

(** [chunk_from_peer]: header, length, bytes, hash. *)
Definition chunk_from_peer (conn : PeerConn) (turn : nat) (entry : ChunkEntry) : result FetchError (option (list byte)) :=
  match pc_chunk conn turn (ce_hash entry) with
  | None => Err FetchError.NoUsablePeer
  | Some (resp, raw) =>
      if negb (cr_found resp) then Ok None else
      if bool_decide (cr_len resp ≠ ce_len entry) then Err FetchError.NoUsablePeer else
      if bool_decide (Z.of_nat (length raw) < cr_len resp) then Err FetchError.NoUsablePeer else
      let bytes := take (Z.to_nat (cr_len resp)) raw in
      if bool_decide (blake3 bytes ≠ ce_hash entry) then Err FetchError.NoUsablePeer else Ok (Some bytes)
  end.

Fixpoint chunk_candidates (cas : Cas) (turn : nat) (entry : ChunkEntry) (fault : option (string * IoKind))
    (candidates : list (NodeId * PeerConn)) (any_not_found : bool) : Cas * result FetchError unit :=
  match candidates with
  | [] => (cas, Err (if any_not_found then FetchError.Unavailable else FetchError.NoUsablePeer))
  | (_, conn) :: candidates =>
      match chunk_from_peer conn turn entry with
      | Ok (Some bytes) =>
          let '(cas, res) := Cas.put_verified cas (ce_hash entry) bytes fault in
          (cas, match res with Ok _ => Ok () | Err e => Err (FetchError.Cas e) end)
      | Ok None => chunk_candidates cas turn entry fault candidates true
      | Err _ => chunk_candidates cas turn entry fault candidates any_not_found
      end
  end.

Definition fetch_one_chunk (cas : Cas) (registry : ConnRegistry) (origin : NodeId) (limits : FetchLimits)
    (turn : nat) (entry : ChunkEntry) (fault : option (string * IoKind)) : Cas * result FetchError unit :=
  if bool_decide (fl_max_chunk_bytes limits < ce_len entry)
  then (cas, Err (FetchError.BadManifest "chunk length out of bounds")) else
  match ConnRegistry.candidates registry origin with
  | [] => (cas, Err FetchError.NoUsablePeer)
  | candidates => chunk_candidates cas turn entry fault candidates false
  end.

(** The chunks to fetch: each hash once, none that is present. *)
Fixpoint missing_chunks (cas : Cas) (seen : gset hash32) (chunks : list ChunkEntry) : list ChunkEntry :=
  match chunks with
  | [] => []
  | c :: chunks =>
      if bool_decide (ce_hash c ∈ seen) then missing_chunks cas seen chunks else
      let seen := {[ ce_hash c ]} ∪ seen in
      if Cas.has cas (ce_hash c) then missing_chunks cas seen chunks
      else c :: missing_chunks cas seen chunks
  end.

(** [first_err] after one more finished task. *)
Definition keep_error (first_err : option FetchError) (res : result FetchError unit) : option FetchError :=
  match res with
  | Ok _ => first_err
  | Err e =>
      match first_err with
      | None => Some e
      | Some prev => if FetchError.is_permanent e && negb (FetchError.is_permanent prev) then Some e else Some prev
      end
  end.

(** What becomes of one spawned task: it runs, or it panics. *)
Inductive TaskFate : Type :=
| Runs (fault : option (string * IoKind))
| Panics.

(** The tasks in the order in which they finish. *)
Fixpoint run_tasks (cas : Cas) (registry : ConnRegistry) (origin : NodeId) (limits : FetchLimits)
    (turn : nat) (tasks : list (ChunkEntry * TaskFate)) (first_err : option FetchError) : Cas * option FetchError :=
  match tasks with
  | [] => (cas, first_err)
  | (entry, Panics) :: tasks =>
      run_tasks cas registry origin limits (S turn) tasks (Some (default FetchError.Join first_err))
  | (entry, Runs fault) :: tasks =>
      let '(cas, res) := fetch_one_chunk cas registry origin limits turn entry fault in
      run_tasks cas registry origin limits (S turn) tasks (keep_error first_err res)
  end.

(** [finish] is the order in which the tasks finish and what becomes of them:
    a rearrangement of the missing chunks. *)
Definition fetch_file_chunks (cas : Cas) (registry : ConnRegistry) (origin : NodeId) (limits : FetchLimits)
    (finish : list ChunkEntry → list (ChunkEntry * TaskFate)) (manifest : Manifest) : Cas * result FetchError unit :=
  match missing_chunks cas ∅ (mf_chunks manifest) with
  | [] => (cas, Ok ())
  | missing =>
      match run_tasks cas registry origin limits 0 (finish missing) None with
      | (cas, None) => (cas, Ok ())
      | (cas, Some e) => (cas, Err e)
      end
  end.

(** ** The serving side (src/src/net.rs) *)

Definition serve_manifest (db : Conn) (req : ManifestReq) : result StoreError ManifestResp :=
  m ← State.manifest_for db (mq_content_hash req);
  Ok (match (m : option Manifest) with
      | Some m =>
          let n := length (mf_chunks m) in
          let start := Nat.min (Z.to_nat (mq_offset req)) n in
          let count := Nat.min (Z.to_nat (Z.min (mq_count req) MANIFEST_PAGE)) (n - start) in
          mkManifestResp true (mq_content_hash req) (as_u32 (Z.of_nat n)) (take count (drop start (mf_chunks m)))
      | None => mkManifestResp false (mq_content_hash req) 0 []
      end).

(** The header and the bytes streamed after it. *)
Definition serve_chunk (cas : Cas) (chunk_max_bytes : Z) (hash : hash32) (fault : option (string * IoKind))
  : ChunkResp * list byte :=
  match Cas.open_reader cas hash fault with
  | Ok (bytes, len) =>
      if bool_decide (len ≤ chunk_max_bytes) then (mkChunkResp true (as_u32 len), bytes)
      else (mkChunkResp false 0, [])
  | Err _ => (mkChunkResp false 0, [])
  end.

(** A connection to a node that serves these stores, undisturbed. *)
Definition honest_conn (id : Z) (db : Conn) (cas : Cas) (chunk_max_bytes : Z) : PeerConn := {|
  pc_stable_id := id;
  pc_manifest _ req := match serve_manifest db req with Ok resp => Some resp | Err _ => None end;
  pc_chunk _ hash := Some (serve_chunk cas chunk_max_bytes hash None);
|}.
End with_externals.
End Fetch.

(** ** Bounds against an arbitrary far end *)

(** What decoding and the frame cap guarantee of an answer. *)
Definition conn_typed (conn : PeerConn) : Prop :=
  ∀ turn req resp, pc_manifest conn turn req = Some resp →
    in_u32 (mr_total resp) ∧ Forall (λ c, in_u32 (ce_len c)) (mr_chunks resp) ∧
    Z.of_nat (length (mr_chunks resp)) < u32_modulus.

Definition entry_fits (limits : FetchLimits) (c : ChunkEntry) : Prop :=
  0 < ce_len c ≤ fl_max_chunk_bytes limits.

Definition entries_len (chunks : list ChunkEntry) : Z := foldr (λ c acc, ce_len c + acc) 0 chunks.

Lemma entries_len_app l k : entries_len (l ++ k) = entries_len l + entries_len k.
Proof. unfold entries_len. induction l as [|c l IH]; simpl; [done|]. rewrite IH. lia. Qed.

Lemma entries_len_count limits l : Forall (entry_fits limits) l → Z.of_nat (length l) ≤ entries_len l.
Proof. unfold entries_len. induction 1 as [|c l [Hc _] Hl IH]; cbn [length foldr]; lia. Qed.

Section bounds.
Context (limits : FetchLimits) (Hlim : 0 ≤ fl_max_file_bytes limits ≤ u64_modulus - u32_modulus).

Lemma check_page_ok running page running' :
  0 ≤ running ≤ fl_max_file_bytes limits → Forall (λ c, in_u32 (ce_len c)) page →
  Fetch.check_page limits running page = Ok running' →
  running' = running + entries_len page ∧ running' ≤ fl_max_file_bytes limits ∧ Forall (entry_fits limits) page.
Proof.
  intros Hr Ht. revert running Hr. induction Ht as [|c page Hc Ht IH]; intros running Hr; simpl.
  { intros [= <-]. unfold entries_len. simpl. split_and!; [lia..|done]. }
  case_bool_decide as H1; [done|]. unfold in_u32 in Hc.
  rewrite u64_add_small by (unfold in_u64; unfold u64_modulus, u32_modulus in *; lia).
  case_bool_decide as H2; [done|]. intros Hp. apply IH in Hp as (-> & Hle & Hf); [|lia].
  unfold entries_len in *. simpl. split_and!; [lia|lia|]. constructor; [split; lia|done].
Qed.

Lemma check_page_complete running page :
  0 ≤ running → Forall (entry_fits limits) page → fl_max_chunk_bytes limits < u32_modulus →
  running + entries_len page ≤ fl_max_file_bytes limits →
  Fetch.check_page limits running page = Ok (running + entries_len page).
Proof.
  intros Hr Hf Hmax. revert running Hr. induction Hf as [|c page [Hc1 Hc2] Hf IH]; intros running Hr Hle; simpl.
  { unfold entries_len. simpl. f_equal. lia. }
  unfold entries_len in *. simpl in *.
  assert (0 ≤ foldr (λ c acc, ce_len c + acc) 0 page).
  { pose proof (entries_len_count limits page Hf). unfold entries_len in *. lia. }
  rewrite bool_decide_false by lia.
  rewrite u64_add_small by (unfold in_u64; unfold u64_modulus, u32_modulus in *; lia).
  rewrite bool_decide_false by lia. rewrite IH by lia. f_equal. lia.
Qed.

(** The limit on the number of entries is exact when file sizes are below 8 TiB. *)
Definition small_files : Prop := fl_max_file_bytes limits < 2 ^ 43.

Lemma max_chunks_small : small_files → max_manifest_chunks limits = fl_max_file_bytes limits / 4096 + 2 ∧ max_manifest_chunks limits < 2 ^ 31 + 2.
Proof.
  intros Hs. unfold small_files in Hs. unfold max_manifest_chunks.
  assert (Hd : 0 ≤ fl_max_file_bytes limits / 4096 < 2 ^ 31).
  { split; [apply Z.div_pos; lia|]. apply Z.div_lt_upper_bound; lia. }
  rewrite u64_add_small; unfold in_u64, u64_modulus; lia.
Qed.

Lemma as_u32_small z : 0 ≤ z < u32_modulus → as_u32 z = z.
Proof. intros Hz. unfold as_u32. by apply Z.mod_small. Qed.

Lemma manifest_loop_bounded conn h :
  conn_typed conn → ∀ fuel turn chunks running,
  running = entries_len chunks → running ≤ fl_max_file_bytes limits → Forall (entry_fits limits) chunks →
  (small_files → Z.of_nat (length chunks) ≤ max_manifest_chunks limits) →
  (Z.to_nat (fl_max_file_bytes limits - running) < fuel)%nat →
  ∃ res, Fetch.manifest_loop fuel conn h limits turn chunks running = Some res ∧
    match res with
    | Ok (Some m) => mf_content_hash m = h ∧ total_len m ≤ fl_max_file_bytes limits ∧
        Forall (entry_fits limits) (mf_chunks m) ∧
        (small_files → Z.of_nat (length (mf_chunks m)) ≤ max_manifest_chunks limits)
    | _ => True
    end.
Proof.
  intros Hconn fuel. induction fuel as [|fuel IH]; intros turn chunks running Hrun Hle Hfit Hcnt Hfuel; [lia|].
  cbn [Fetch.manifest_loop]. destruct (pc_manifest conn turn _) as [resp|] eqn:Hresp; [|by eexists].
  destruct (Hconn _ _ _ Hresp) as (Htot & Htyped & Hshort).
  destruct (negb (mr_found resp)); [by eexists|].
  case_bool_decide as Hh; [by eexists|]. case_bool_decide as Hmax; [by eexists|].
  case_bool_decide as Hpage; [by eexists|].
  pose proof (entries_len_count limits chunks Hfit) as Hpos.
  destruct (Fetch.check_page limits running (mr_chunks resp)) as [running'|e] eqn:Hcheck; [|by eexists].
  apply check_page_ok in Hcheck as (Hrun' & Hle' & Hfit'); [|lia|done].
  pose proof (entries_len_count limits _ Hfit') as Hpos'.
  assert (Hfits : Forall (entry_fits limits) (chunks ++ mr_chunks resp)) by by apply Forall_app.
  assert (Hsum : running' = entries_len (chunks ++ mr_chunks resp)) by (rewrite entries_len_app; lia).
  rewrite as_u32_small in Hpage by lia.
  assert (Hcnt' : small_files → Z.of_nat (length (chunks ++ mr_chunks resp)) < u32_modulus).
  { intros Hs. specialize (Hcnt Hs). destruct (max_chunks_small Hs) as [_ Hb]. rewrite length_app.
    unfold MANIFEST_PAGE, u32_modulus in *. lia. }
  case_bool_decide as Hmore; [by eexists|].
  assert (Hbound : small_files → Z.of_nat (length (chunks ++ mr_chunks resp)) ≤ max_manifest_chunks limits).
  { intros Hs. specialize (Hcnt' Hs). rewrite as_u32_small in Hmore by lia. lia. }
  case_bool_decide as Hdone.
  { eexists. split; [done|]. cbn [mf_content_hash mf_chunks]. split_and!; [done| |done|done].
    change (entries_len (chunks ++ mr_chunks resp) ≤ fl_max_file_bytes limits). lia. }
  case_bool_decide as Hempty; [by eexists|].
  apply IH; [done|done|done|done|]. lia.
Qed.

(** C34: Whatever a peer answers, fetching a manifest from it ends, and a manifest
    that is accepted is the one asked for, within the configured limits: no
    empty or oversized chunk, no more bytes than a file may have, and (for
    file limits below 8 TiB) no more entries than such a file can have. *)
Theorem manifest_from_peer_bounded conn h :
  conn_typed conn →
  ∃ res, Fetch.manifest_from_peer conn h limits = Some res ∧
    match res with
    | Ok (Some m) => mf_content_hash m = h ∧ total_len m ≤ fl_max_file_bytes limits ∧
        Forall (entry_fits limits) (mf_chunks m) ∧
        (small_files → Z.of_nat (length (mf_chunks m)) ≤ max_manifest_chunks limits)
    | _ => True
    end.
Proof.
  intros Hconn. apply manifest_loop_bounded; [done|done|lia|constructor| |].
  - intros Hs. destruct (max_chunks_small Hs) as [-> _]. simpl.
    assert (0 ≤ fl_max_file_bytes limits / 4096) by (apply Z.div_pos; lia). lia.
  - unfold Fetch.manifest_fuel. lia.
Qed.
End bounds.

(** ** Against an honest peer *)

Section honest.
Context `{!Blake3, !Bincode, !Hex}.
Context (limits : FetchLimits) (Hlim : 0 ≤ fl_max_file_bytes limits ≤ u64_modulus - u32_modulus).
Context (Hchunk : fl_max_chunk_bytes limits < u32_modulus).

(** The manifest respects the receiver's limits. *)
Record admitted (m : Manifest) : Prop := {
  ad_count : Z.of_nat (length (mf_chunks m)) ≤ max_manifest_chunks limits;
  ad_u32 : Z.of_nat (length (mf_chunks m)) < u32_modulus;
  ad_fits : Forall (entry_fits limits) (mf_chunks m);
  ad_total : total_len m ≤ fl_max_file_bytes limits;
}.

Lemma serve_page db m k :
  State.manifest_for db (mf_content_hash m) = Ok (Some m) → (k ≤ length (mf_chunks m))%nat →
  Z.of_nat (length (mf_chunks m)) < u32_modulus →
  Fetch.serve_manifest db (mkManifestReq (mf_content_hash m) (Z.of_nat k) MANIFEST_PAGE)
  = Ok (mkManifestResp true (mf_content_hash m) (Z.of_nat (length (mf_chunks m)))
      (take (Nat.min (Z.to_nat MANIFEST_PAGE) (length (mf_chunks m) - k)) (drop k (mf_chunks m)))).
Proof.
  intros Hm Hk Hn. unfold Fetch.serve_manifest. cbn [mq_content_hash mq_offset mq_count]. rewrite Hm. simpl mbind.
  cbn [mbind result_bind]. rewrite Nat2Z.id, (Nat.min_l k), as_u32_small by lia. done.
Qed.

Lemma manifest_loop_honest db cas id cmax m :
  State.manifest_for db (mf_content_hash m) = Ok (Some m) → admitted m →
  ∀ fuel turn k, (k ≤ length (mf_chunks m))%nat → (length (mf_chunks m) - k < fuel)%nat →
  (k = O ∨ k < length (mf_chunks m))%nat →
  Fetch.manifest_loop fuel (Fetch.honest_conn id db cas cmax) (mf_content_hash m) limits turn
    (take k (mf_chunks m)) (entries_len (take k (mf_chunks m))) = Some (Ok (Some m)).
Proof.
  intros Hm [Hcount Hu32 Hfits Htotal] fuel. set (n := length (mf_chunks m)) in *.
  assert (Hmp : (0 < Z.to_nat MANIFEST_PAGE)%nat) by (unfold MANIFEST_PAGE; lia).
  induction fuel as [|fuel IH]; intros turn k Hk Hfuel Hk0; [lia|].
  cbn [Fetch.manifest_loop Fetch.honest_conn pc_manifest].
  rewrite length_take, Nat.min_l by done. rewrite as_u32_small by lia. rewrite serve_page by done.
  cbn [mr_found mr_content_hash mr_total mr_chunks negb]. fold n.
  rewrite bool_decide_false by (intros Hne; by apply Hne). rewrite bool_decide_false by lia.
  set (page := take _ _). assert (Hpl : length page = Nat.min (Z.to_nat MANIFEST_PAGE) (n - k)).
  { unfold page. rewrite length_take, length_drop. fold n. lia. }
  rewrite bool_decide_false by (rewrite Hpl, as_u32_small; unfold MANIFEST_PAGE, u32_modulus; lia).
  assert (Hpage : take k (mf_chunks m) ++ page = take (k + Nat.min (Z.to_nat MANIFEST_PAGE) (n - k)) (mf_chunks m)).
  { unfold page. by rewrite take_take_drop. }
  assert (Hsplit : mf_chunks m = (take k (mf_chunks m) ++ page) ++ drop (k + Nat.min (Z.to_nat MANIFEST_PAGE) (n - k)) (mf_chunks m)).
  { by rewrite Hpage, take_drop. }
  assert (Hfp : Forall (entry_fits limits) (take k (mf_chunks m)) ∧ Forall (entry_fits limits) page ∧
    Forall (entry_fits limits) (drop (k + Nat.min (Z.to_nat MANIFEST_PAGE) (n - k)) (mf_chunks m))).
  { rewrite Hsplit, !Forall_app in Hfits. tauto. }
  destruct Hfp as (Hf1 & Hf2 & Hf3).
  assert (Hsum : total_len m = entries_len (take k (mf_chunks m)) + entries_len page +
    entries_len (drop (k + Nat.min (Z.to_nat MANIFEST_PAGE) (n - k)) (mf_chunks m))).
  { change (total_len m) with (entries_len (mf_chunks m)). rewrite Hsplit at 1. by rewrite !entries_len_app. }
  pose proof (entries_len_count _ _ Hf1). pose proof (entries_len_count _ _ Hf2). pose proof (entries_len_count _ _ Hf3).
  rewrite check_page_complete by (done || lia).
  rewrite length_app, length_take, Nat.min_l, Hpl by done. rewrite as_u32_small by lia.
  rewrite bool_decide_false by lia. case_bool_decide as Hdone.
  - rewrite Hpage, take_ge by (fold n; lia). by destruct m.
  - rewrite bool_decide_false by lia. rewrite <- entries_len_app, Hpage. apply IH; lia.
Qed.

(** A manifest stored on a node is fetched from it unchanged, page by page,
    when it respects the receiver's limits. *)
Lemma manifest_fetch_roundtrip db cas id cmax m :
  State.manifest_for db (mf_content_hash m) = Ok (Some m) → admitted m →
  Fetch.manifest_from_peer (Fetch.honest_conn id db cas cmax) (mf_content_hash m) limits = Some (Ok (Some m)).
Proof.
  intros Hm Ha. unfold Fetch.manifest_from_peer. apply (manifest_loop_honest db cas id cmax m Hm Ha _ 0 0); [lia| |by left].
  destruct Ha as [_ _ Hfits Htotal]. pose proof (entries_len_count _ _ Hfits) as Hc.
  change (entries_len (mf_chunks m)) with (total_len m) in Hc. unfold Fetch.manifest_fuel. lia.
Qed.
End honest.

(** ** Chunks *)

Section chunks.
Context `{!Blake3, !Bincode, !Hex, !HashIter}.

Lemma chunk_from_peer_ok conn turn entry bytes :
  Fetch.chunk_from_peer conn turn entry = Ok (Some bytes) → blake3 bytes = ce_hash entry.
Proof.
  unfold Fetch.chunk_from_peer. destruct (pc_chunk conn turn _) as [[resp raw]|]; [|done].
  destruct (negb (cr_found resp)); [done|]. do 2 (case_bool_decide; [done|]).
  case_bool_decide as Hh; [done|]. by intros [= <-].
Qed.

(** The store afterwards extends the store before and stays verified. *)
Definition grows (cas cas' : Cas) : Prop := cas ⊆ cas' ∧ (cas_ok cas → cas_ok cas').

Lemma grows_refl cas : grows cas cas.
Proof. by split. Qed.
Lemma grows_trans cas1 cas2 cas3 : grows cas1 cas2 → grows cas2 cas3 → grows cas1 cas3.
Proof. intros [Hs1 Hk1] [Hs2 Hk2]. split; [by etrans|auto]. Qed.
Lemma grows_has cas cas' h : grows cas cas' → is_Some (cas !! h) → is_Some (cas' !! h).
Proof. intros [Hs _] [b Hb]. exists b. by eapply lookup_weaken. Qed.
Lemma grows_put cas h b fault : grows cas (Cas.put_verified cas h b fault).1.
Proof. split; [apply put_verified_keeps|apply put_verified_ok]. Qed.

Lemma chunk_candidates_spec cas turn entry fault cands anf :
  let '(cas', res) := Fetch.chunk_candidates cas turn entry fault cands anf in
  grows cas cas' ∧ (res = Ok () → is_Some (cas' !! ce_hash entry)).
Proof.
  revert anf. induction cands as [|[k conn] cands IH]; intros anf; simpl; [by split; [apply grows_refl|]|].
  destruct (Fetch.chunk_from_peer conn turn entry) as [[bytes|]|e] eqn:Hc; [|apply IH..].
  pose proof (grows_put cas (ce_hash entry) bytes fault) as Hg.
  pose proof (put_verified_present cas (ce_hash entry) bytes fault) as Hp.
  destruct (Cas.put_verified _ _ _ _) as [cas' [[]|e]]; simpl in *; split; try done. intros _. by apply Hp.
Qed.

Lemma fetch_one_chunk_spec cas reg origin limits turn entry fault :
  let '(cas', res) := Fetch.fetch_one_chunk cas reg origin limits turn entry fault in
  grows cas cas' ∧ (res = Ok () → is_Some (cas' !! ce_hash entry)).
Proof.
  unfold Fetch.fetch_one_chunk. case_bool_decide; [by split; [apply grows_refl|]|].
  destruct (ConnRegistry.candidates reg origin); [by split; [apply grows_refl|]|]. apply chunk_candidates_spec.
Qed.

Lemma keep_error_none fe res : Fetch.keep_error fe res = None → fe = None ∧ res = Ok ().
Proof. destruct res as [[]|e]; simpl; [done|]. destruct fe as [p|]; [|done]. by destruct (_ && _). Qed.

Lemma run_tasks_spec cas reg origin limits turn tasks fe :
  let '(cas', err) := Fetch.run_tasks cas reg origin limits turn tasks fe in
  grows cas cas' ∧ (err = None → fe = None ∧ ∀ c, c ∈ tasks.*1 → is_Some (cas' !! ce_hash c)).
Proof.
  revert cas turn fe. induction tasks as [|[entry [fault|]] tasks IH]; intros cas turn fe; cbn [Fetch.run_tasks].
  - split; [apply grows_refl|]. intros ->. split; [done|]. by intros c ?%not_elem_of_nil.
  - pose proof (fetch_one_chunk_spec cas reg origin limits turn entry fault) as Hone.
    destruct (Fetch.fetch_one_chunk _ _ _ _ _ _ _) as [cas1 res]. destruct Hone as [Hg1 Hres].
    specialize (IH cas1 (S turn) (Fetch.keep_error fe res)). destruct (Fetch.run_tasks _ _ _ _ _ _ _) as [cas' err].
    destruct IH as [Hg2 Herr]. split; [by eapply grows_trans|]. intros He. destruct (Herr He) as [Hk Hall].
    apply keep_error_none in Hk as [-> ->]. split; [done|]. intros c [->|Hc]%elem_of_cons; [|by apply Hall].
    eapply grows_has; [exact Hg2|]. by apply Hres.
  - specialize (IH cas (S turn) (Some (default FetchError.Join fe))). destruct (Fetch.run_tasks _ _ _ _ _ _ _) as [cas' err].
    destruct IH as [Hg Herr]. split; [done|]. intros He. by destruct (Herr He).
Qed.

Lemma missing_chunks_covers cas seen chunks c :
  c ∈ chunks → ce_hash c ∈ seen ∨ is_Some (cas !! ce_hash c) ∨
    ∃ c', c' ∈ Fetch.missing_chunks cas seen chunks ∧ ce_hash c' = ce_hash c.
Proof.
  revert seen. induction chunks as [|d chunks IH]; intros seen; [by intros ?%not_elem_of_nil|].
  intros [->|Hc]%elem_of_cons; simpl.
  - case_bool_decide as Hs; [by left|]. unfold Cas.has. case_bool_decide as Hh; [by right; left|].
    right. right. exists d. split; [by left|done].
  - case_bool_decide as Hs; [by apply IH|].
    specialize (IH ({[ce_hash d]} ∪ seen) Hc). unfold Cas.has. case_bool_decide as Hh.
    + destruct IH as [[Heq%elem_of_singleton|?]%elem_of_union|[?|?]]; auto. rewrite Heq. auto.
    + destruct IH as [[Heq%elem_of_singleton|?]%elem_of_union|[?|(c' & ? & ?)]]; auto; right; right.
      * exists d. split; [by left|done].
      * exists c'. split; [by right|done].
Qed.

Lemma missing_chunks_missing cas seen chunks c :
  c ∈ Fetch.missing_chunks cas seen chunks → cas !! ce_hash c = None ∧ c ∈ chunks.
Proof.
  revert seen. induction chunks as [|d chunks IH]; intros seen; simpl; [by intros ?%not_elem_of_nil|].
  case_bool_decide; [intros [??]%IH; split; [done|by right]|]. unfold Cas.has. case_bool_decide as Hh.
  - intros [??]%IH. split; [done|by right].
  - intros [->|[??]%IH]%elem_of_cons; [|split; [done|by right]]. split; [by apply eq_None_not_Some|by left].
Qed.

Lemma fetch_file_chunks_spec cas reg origin limits finish m :
  (∀ l, (finish l).*1 ≡ₚ l) →
  let '(cas', res) := Fetch.fetch_file_chunks cas reg origin limits finish m in
  cas ⊆ cas' ∧ (cas_ok cas → cas_ok cas') ∧
  (∀ c, c ∈ Fetch.missing_chunks cas ∅ (mf_chunks m) → cas !! ce_hash c = None ∧ c ∈ mf_chunks m) ∧
  (res = Ok () → ∀ c, c ∈ mf_chunks m → is_Some (cas' !! ce_hash c)).
Proof.
  intros Hfin. unfold Fetch.fetch_file_chunks.
  pose proof (missing_chunks_covers cas ∅ (mf_chunks m)) as Hcov.
  pose proof (missing_chunks_missing cas ∅ (mf_chunks m)) as Hmiss.
  destruct (Fetch.missing_chunks cas ∅ (mf_chunks m)) as [|c0 missing] eqn:Hm.
  { split_and!; [done..|]. intros _ c Hc. destruct (Hcov c Hc) as [?%not_elem_of_empty|[?|(c' & ?%not_elem_of_nil & _)]]; done. }
  pose proof (run_tasks_spec cas reg origin limits 0 (finish (c0 :: missing)) None) as Hrun.
  destruct (Fetch.run_tasks _ _ _ _ _ _ _) as [cas' [e|]]; destruct Hrun as [Hg Herr]; pose proof Hg as [Hsub Hkeep]; split_and!; try done.
  intros _ c Hc. destruct (Herr eq_refl) as [_ Hall].
  destruct (Hcov c Hc) as [?%not_elem_of_empty|[Hin|(c' & Hin & <-)]]; [done|by eapply grows_has|].
  apply Hall. by rewrite Hfin.
Qed.

(** C33: Fetching the chunks of a file, from whatever peers, in whatever order the
    tasks finish and with whatever failures: the store only grows and stays
    verified, only chunks that were absent are asked for, and success means
    that every chunk of the manifest is there. *)
Theorem fetch_file_chunks_sound cas reg origin limits finish m :
  (∀ l, (finish l).*1 ≡ₚ l) →
  let '(cas', res) := Fetch.fetch_file_chunks cas reg origin limits finish m in
  cas ⊆ cas' ∧ (cas_ok cas → cas_ok cas') ∧
  (∀ c, c ∈ Fetch.missing_chunks cas ∅ (mf_chunks m) → cas !! ce_hash c = None ∧ c ∈ mf_chunks m) ∧
  (res = Ok () → ∀ c, c ∈ mf_chunks m → is_Some (cas' !! ce_hash c)).
Proof. apply fetch_file_chunks_spec. Qed.
End chunks.

(** ** From an honest origin *)

Section transfer.
Context `{!Blake3, !Bincode, !Hex, !HashIter}.
Context (limits : FetchLimits) (registry : ConnRegistry) (origin : NodeId) (rest : list PeerConn).
Context (id : Z) (db_o : Conn) (cas_o : Cas) (cmax : Z) (pieces : list (list byte)).
Context (Horigin : registry !! origin = Some (Fetch.honest_conn id db_o cas_o cmax :: rest)).
Context (Hstored : stored cas_o pieces).
Context (Hsizes : Forall (λ p, Z.of_nat (length p) ≤ Z.min cmax (fl_max_chunk_bytes limits)) pieces).
Context (Hchunk : fl_max_chunk_bytes limits < u32_modulus).

Lemma origin_first :
  ∃ l, ConnRegistry.candidates registry origin = (origin, Fetch.honest_conn id db_o cas_o cmax) :: l.
Proof. unfold ConnRegistry.candidates. rewrite Horigin. by eexists. Qed.

Lemma piece_len p : p ∈ pieces → Z.of_nat (length p) ≤ Z.min cmax (fl_max_chunk_bytes limits) ∧ as_u32 (Z.of_nat (length p)) = Z.of_nat (length p).
Proof.
  intros Hp. rewrite Forall_forall in Hsizes. specialize (Hsizes p Hp). simpl in Hsizes.
  split; [done|]. apply as_u32_small. lia.
Qed.

Lemma honest_chunk turn p :
  p ∈ pieces → Fetch.chunk_from_peer (Fetch.honest_conn id db_o cas_o cmax) turn (entry_of p) = Ok (Some p).
Proof.
  intros Hp. destruct (piece_len p Hp) as [Hle Hu]. pose proof (proj1 (Forall_forall _ _) Hstored p Hp) as Hst. simpl in Hst.
  unfold Fetch.chunk_from_peer. cbn [Fetch.honest_conn pc_chunk entry_of ce_hash ce_len].
  unfold Fetch.serve_chunk, Cas.open_reader. rewrite Hst. rewrite bool_decide_true by lia.
  cbn [cr_found cr_len negb]. rewrite Hu. rewrite bool_decide_false by (intros Hne; by apply Hne).
  rewrite bool_decide_false by lia. rewrite Nat2Z.id, take_ge by lia. by rewrite bool_decide_false by (intros Hne; by apply Hne).
Qed.

Context (Hinj : ∀ p q, p ∈ pieces → q ∈ pieces → blake3 q = blake3 p → q = p).

Lemma fetch_one_chunk_honest cas turn p :
  p ∈ pieces → clean pieces cas →
  let '(cas', res) := Fetch.fetch_one_chunk cas registry origin limits turn (entry_of p) None in
  res = Ok () ∧ clean pieces cas'.
Proof.
  intros Hp Hcl. destruct (piece_len p Hp) as [Hle Hu]. unfold Fetch.fetch_one_chunk.
  change (ce_len (entry_of p)) with (as_u32 (Z.of_nat (length p))). rewrite Hu. rewrite bool_decide_false by lia.
  destruct origin_first as [l ->]. cbn [Fetch.chunk_candidates].
  rewrite honest_chunk by done. cbn [entry_of ce_hash].
  assert (Hok : (Cas.put_verified cas (blake3 p) p None).2 = Ok ()).
  { unfold Cas.put_verified. rewrite bool_decide_false by (intros Hne; by apply Hne). by destruct (Cas.has _ _). }
  pose proof (put_piece_new cas p None) as Hnew.
  destruct (Cas.put_verified _ _ _ _) as [cas' res]. simpl in *. rewrite Hok. split; [done|].
  intros q b Hq [Hb|[Heq ->]]%Hnew; [by eapply Hcl|]. by apply (Hinj q p).
Qed.

Lemma run_tasks_honest tasks cas turn :
  (∀ t, t ∈ tasks → ∃ p, p ∈ pieces ∧ t = (entry_of p, Fetch.Runs None)) → clean pieces cas →
  let '(cas', err) := Fetch.run_tasks cas registry origin limits turn tasks None in
  err = None ∧ clean pieces cas'.
Proof.
  revert cas turn. induction tasks as [|t tasks IH]; intros cas turn Ht Hcl; [done|].
  destruct (Ht t ltac:(by left)) as (p & Hp & ->). cbn [Fetch.run_tasks].
  pose proof (fetch_one_chunk_honest cas turn p Hp Hcl) as Hone.
  destruct (Fetch.fetch_one_chunk _ _ _ _ _ _ _) as [cas1 res]. destruct Hone as [-> Hcl1].
  cbn [Fetch.keep_error]. apply IH; [|done]. intros t' Ht'. apply Ht. by right.
Qed.

Context (finish : list ChunkEntry → list (ChunkEntry * Fetch.TaskFate)).
Context (Hperm : ∀ l, (finish l).*1 ≡ₚ l).
Context (Hquiet : ∀ l, Forall (λ t, t.2 = Fetch.Runs None) (finish l)).

Lemma fetch_file_chunks_honest cas h :
  clean pieces cas →
  let '(cas', res) := Fetch.fetch_file_chunks cas registry origin limits finish (mkManifest h (entry_of <$> pieces)) in
  res = Ok () ∧ cas ⊆ cas' ∧ stored cas' pieces.
Proof.
  intros Hcl. set (m := mkManifest h (entry_of <$> pieces)).
  pose proof (fetch_file_chunks_spec cas registry origin limits finish m Hperm) as Hspec.
  pose proof (missing_chunks_missing cas ∅ (mf_chunks m)) as Hmiss.
  unfold Fetch.fetch_file_chunks in *.
  assert (Hres : ∀ cas', clean pieces cas' → (∀ c, c ∈ mf_chunks m → is_Some (cas' !! ce_hash c)) → stored cas' pieces).
  { intros cas' Hc Hall. apply Forall_forall. intros p Hp.
    destruct (Hall (entry_of p)) as [b Hb]; [by apply list_elem_of_fmap_2|]. cbn [entry_of ce_hash] in Hb.
    rewrite Hb. f_equal. by eapply Hc. }
  destruct (Fetch.missing_chunks cas ∅ (mf_chunks m)) as [|c0 missing].
  { destruct Hspec as (? & _ & _ & Hall). split_and!; [done..|]. apply Hres; [done|]. by apply Hall. }
  pose proof (run_tasks_honest (finish (c0 :: missing)) cas 0) as Hrun.
  destruct (Fetch.run_tasks _ _ _ _ _ _ _) as [cas' err].
  destruct Hrun as [-> Hcl']; [|done|].
  { intros [c f] Ht. pose proof (proj1 (Forall_forall _ _) (Hquiet (c0 :: missing)) _ Ht) as Hf. simpl in Hf. subst f.
    assert (Hc : c ∈ c0 :: missing). { rewrite <- (Hperm (c0 :: missing)). by apply (list_elem_of_fmap_2 fst _ (c, Fetch.Runs None)). }
    apply Hmiss in Hc as [_ (p & -> & Hp)%list_elem_of_fmap]. by exists p. }
  destruct Hspec as (? & _ & _ & Hall). split_and!; [done..|]. apply Hres; [done|]. by apply Hall.
Qed.
End transfer.

Section end_to_end.
Context `{!Blake3, !Bincode, !Hex, !HashIter, !Cdc, !CdcLaws}.

Lemma entries_typed limits pieces :
  fl_max_chunk_bytes limits < u32_modulus → Forall (entry_fits limits) (entry_of <$> pieces) →
  Forall chunk_typed (entry_of <$> pieces).
Proof. intros Hc Hf. eapply Forall_impl; [exact Hf|]. intros c [Hlow Hup]. unfold chunk_typed, in_u32. lia. Qed.

Lemma pieces_fit limits cmax pieces :
  fl_max_chunk_bytes limits < u32_modulus →
  Forall (λ p, 0 < Z.of_nat (length p) ≤ Z.min cmax (fl_max_chunk_bytes limits)) pieces →
  Forall (entry_fits limits) (entry_of <$> pieces).
Proof.
  intros Hc Hs. rewrite Forall_fmap. eapply Forall_impl; [exact Hs|]. intros p Hp. simpl in *.
  unfold entry_fits. simpl. rewrite as_u32_small by lia. lia.
Qed.

(** A file travels: chunked at its origin, whose connection is registered,
    into a store whose chunks verify, it is fetched by a node that holds
    neither its manifest nor, maybe, its chunks, whatever the other peers
    would answer and in whatever order the tasks finish. The node learns the
    manifest durably, its chunk store keeps all it had, and assembling the
    manifest from it gives the bytes of the file. *)
Lemma transfer_end_to_end limits registry origin rest id cmax params data cas_o cas_o' db_o m cas_r db_r finish :
  0 ≤ fl_max_file_bytes limits ≤ u64_modulus - u32_modulus → fl_max_chunk_bytes limits < u32_modulus →
  cas_ok cas_o → pieces_separate cas_o (stream_cdc params data) →
  chunk_file_into_cas cas_o params (Ok data) None [] = (cas_o', Ok m) →
  State.manifest_for db_o (blake3 data) = Ok (Some m) →
  registry !! origin = Some (Fetch.honest_conn id db_o cas_o' cmax :: rest) →
  Forall (λ p, 0 < Z.of_nat (length p) ≤ Z.min cmax (fl_max_chunk_bytes limits)) (stream_cdc params data) →
  Z.of_nat (length (stream_cdc params data)) ≤ Z.min (max_manifest_chunks limits) (u32_modulus - 1) →
  total_len m ≤ fl_max_file_bytes limits →
  cas_ok cas_r → pieces_separate cas_r (stream_cdc params data) → residue db_r m →
  (∀ l, (finish l).*1 ≡ₚ l) → (∀ l, Forall (λ t, t.2 = Fetch.Runs None) (finish l)) →
  let '(db_r', got) := Fetch.obtain_manifest db_r registry (blake3 data) origin limits in
  let '(cas_r', fetched) := Fetch.fetch_file_chunks cas_r registry origin limits finish m in
  got = Ok m ∧ State.manifest_for db_r' (blake3 data) = Ok (Some m) ∧
  fetched = Ok () ∧ cas_r ⊆ cas_r' ∧
  assemble_from_cas cas_r' m [] None = (cas_r', Ok (data, blake3 data)).
Proof.
  intros Hfile Hchunk Hoko Hsepo Hcut Hdb Hreg Hsizes Hcount Htotal Hokr Hsepr Hres Hperm Hquiet.
  pose proof (chunk_file_spec cas_o params data [] Hoko Hsepo) as Hspec. rewrite Hcut in Hspec.
  destruct Hspec as (_ & _ & -> & Hst). rewrite cdc_concat in *. set (pieces := stream_cdc params data) in *.
  set (m := mkManifest (blake3 data) (entry_of <$> pieces)) in *.
  pose proof (pieces_fit limits cmax pieces Hchunk Hsizes) as Hfits.
  assert (Hsizes' : Forall (λ p, Z.of_nat (length p) ≤ Z.min cmax (fl_max_chunk_bytes limits)) pieces).
  { eapply Forall_impl; [exact Hsizes|]. simpl. lia. }
  assert (Hlen : length (mf_chunks m) = length pieces) by (unfold m; simpl; apply length_fmap).
  destruct (put_manifest_heals db_r m Hres) as [Hheal Hbefore]; [by eapply entries_typed|rewrite Hlen; unfold u32_modulus in *; lia|].
  change (mf_content_hash m) with (blake3 data) in *.
  assert (Hget : Fetch.manifest_from_peer (Fetch.honest_conn id db_o cas_o' cmax) (blake3 data) limits = Some (Ok (Some m))).
  { apply (manifest_fetch_roundtrip limits Hfile Hchunk db_o cas_o' id cmax m Hdb). split; [rewrite Hlen; lia..|done|done]. }
  destruct (separate_clean cas_r pieces Hokr Hsepr) as [Hcl Hinj].
  pose proof (fetch_file_chunks_honest limits registry origin rest id db_o cas_o' cmax pieces Hreg Hst Hsizes' Hchunk Hinj
    finish Hperm Hquiet cas_r (blake3 data) Hcl) as Hf. fold m in Hf.
  unfold Fetch.obtain_manifest.
  destruct (origin_first registry origin rest id db_o cas_o' cmax Hreg) as [l Hcand].
  destruct Hbefore as [Hb|Hb]; rewrite Hb; [|rewrite Hcand; cbn [Fetch.manifest_candidates]; rewrite Hget; cbn [Oplog.put_manifest_atomic Oplog.run_tx]];
    destruct (Fetch.fetch_file_chunks _ _ _ _ _ _) as [cas_r' res]; destruct Hf as (-> & Hsub & Hstr);
    split_and!; try done; unfold m; rewrite assemble_stored by done; unfold pieces; by rewrite cdc_concat.
Qed.
End end_to_end.

(** ** Hostile manifests are not permanent *)

Section verdicts.
Context `{!Blake3, !Bincode, !Hex, !HashIter}.

Lemma manifest_candidates_verdict db h limits cands anf :
  match (Fetch.manifest_candidates db h limits cands anf).2 with
  | Err (FetchError.BadManifest _) => False
  | _ => True
  end.
Proof.
  revert anf. induction cands as [|[k conn] cands IH]; intros anf; simpl; [by destruct anf|].
  destruct (Fetch.manifest_from_peer conn h limits) as [[[m|]|e]|]; try apply IH.
  by destruct (Oplog.put_manifest_atomic db m) as [db' [|]].
Qed.

(** A manifest that fails validation only moves the search on to the next
    peer: [obtain_manifest] never reports [BadManifest], the error its callers
    would treat as permanent. *)
Lemma bad_manifest_is_swallowed db reg h origin limits what :
  (Fetch.obtain_manifest db reg h origin limits).2 ≠ Err (FetchError.BadManifest what).
Proof.
  unfold Fetch.obtain_manifest. destruct (State.manifest_for db h) as [[m|]|e]; [done| |done].
  destruct (ConnRegistry.candidates reg origin) as [|c cs]; [done|].
  pose proof (manifest_candidates_verdict db h limits (c :: cs) false) as Hv.
  intros Heq. by rewrite Heq in Hv.
Qed.
End verdicts.

(** ** Concrete runs *)

#[local] Existing Instance toy_blake3.
#[local] Existing Instance toy_bincode.
#[local] Existing Instance toy_cdc.
#[local] Existing Instance toy_cdc_laws.
#[local] Instance toy_fetch_hex : Hex := toy_hex.
#[export] Instance toy_hash_iter : HashIter := λ V m, map_to_list m.
#[export] Instance toy_hash_iter_laws : HashIterLaws.
Proof. intros V m. unfold hash_iter, toy_hash_iter. reflexivity. Qed.

Definition ex_limits : FetchLimits := mkFetchLimits 4 8 100.
Definition ex_data : list byte := [x00; x05; x06].
Definition ex_sent : Cas * result CasError Manifest := chunk_file_into_cas toy_store toy_params (Ok ex_data) None [].
Definition ex_sent_manifest : Manifest := mkManifest (blake3 ex_data) (entry_of <$> stream_cdc toy_params ex_data).
Definition ex_origin_db : Conn := State.put_manifest StateEx.empty_conn ex_sent_manifest.
(** An origin that serves, and a peer that lies. *)
Definition ex_liar : PeerConn := {|
  pc_stable_id := 9;
  pc_manifest turn req := Some (mkManifestResp true (mq_content_hash req) 2 [mkChunkEntry (blake3 [x07]) 8]);
  pc_chunk _ _ := Some (mkChunkResp true 1, [x07]);
|}.
Definition ex_conns : ConnRegistry :=
  {[ node_a := [Fetch.honest_conn 1 ex_origin_db (ex_sent.1) 8; ex_liar]; node_b := [ex_liar] ]}.
Definition ex_finish (l : list ChunkEntry) : list (ChunkEntry * Fetch.TaskFate) := (λ c, (c, Fetch.Runs None)) <$> reverse l.

Lemma ex_finish_perm l : (ex_finish l).*1 ≡ₚ l.
Proof. unfold ex_finish. rewrite <- list_fmap_compose. simpl. rewrite list_fmap_id. apply reverse_Permutation. Qed.

Lemma ex_conns_typed : conn_typed ex_liar.
Proof.
  intros turn req resp [= <-]. simpl. split_and!; [unfold in_u32, u32_modulus; lia| |unfold u32_modulus; lia].
  repeat constructor; simpl; unfold u32_modulus; lia.
Qed.

(** The liar's two pages of eight bytes are taken, since they fit. *)
Lemma manifest_from_peer_bounded_witness :
  ∃ res, Fetch.manifest_from_peer ex_liar (blake3 ex_data) ex_limits = Some res ∧
    match res with
    | Ok (Some m) => mf_content_hash m = blake3 ex_data ∧ total_len m ≤ 100 ∧
        Forall (entry_fits ex_limits) (mf_chunks m) ∧
        (small_files ex_limits → Z.of_nat (length (mf_chunks m)) ≤ max_manifest_chunks ex_limits)
    | _ => True
    end.
Proof.
  apply (manifest_from_peer_bounded ex_limits); [simpl; unfold u64_modulus, u32_modulus; lia|apply ex_conns_typed].
Defined.

Lemma fetch_file_chunks_sound_witness :
  let '(cas', res) := Fetch.fetch_file_chunks toy_store ex_conns node_b ex_limits ex_finish ex_sent_manifest in
  toy_store ⊆ cas' ∧ (cas_ok toy_store → cas_ok cas') ∧
  (∀ c, c ∈ Fetch.missing_chunks toy_store ∅ (mf_chunks ex_sent_manifest) →
    toy_store !! ce_hash c = None ∧ c ∈ mf_chunks ex_sent_manifest) ∧
  (res = Ok () → ∀ c, c ∈ mf_chunks ex_sent_manifest → is_Some (cas' !! ce_hash c)).
Proof. apply (fetch_file_chunks_sound toy_store ex_conns node_b ex_limits ex_finish ex_sent_manifest). apply ex_finish_perm. Defined.

Lemma ex_sent_eq : ex_sent = (ex_sent.1, Ok ex_sent_manifest).
Proof. rewrite (surjective_pairing ex_sent) at 1. apply (f_equal (pair _)). vm_decide. Qed.
Lemma ex_origin_manifest : State.manifest_for ex_origin_db (blake3 ex_data) = Ok (Some ex_sent_manifest).
Proof. vm_decide. Qed.
Lemma toy_store_ok : cas_ok toy_store.
Proof. by apply map_Forall_singleton. Qed.

Lemma transfer_end_to_end_witness :
  let '(db_r', got) := Fetch.obtain_manifest StateEx.empty_conn ex_conns (blake3 ex_data) node_a ex_limits in
  let '(cas_r', fetched) := Fetch.fetch_file_chunks toy_store ex_conns node_a ex_limits ex_finish ex_sent_manifest in
  got = Ok ex_sent_manifest ∧ State.manifest_for db_r' (blake3 ex_data) = Ok (Some ex_sent_manifest) ∧
  fetched = Ok () ∧ toy_store ⊆ cas_r' ∧
  assemble_from_cas cas_r' ex_sent_manifest [] None = (cas_r', Ok (ex_data, blake3 ex_data)).
Proof.
  assert (Hsep : pieces_separate toy_store (stream_cdc toy_params ex_data)).
  { unfold pieces_separate, toy_store. rewrite map_to_list_singleton. simpl.
    repeat constructor; vm_compute; congruence. }
  apply (transfer_end_to_end ex_limits ex_conns node_a [ex_liar] 1 8 toy_params ex_data toy_store ex_sent.1 ex_origin_db
    ex_sent_manifest toy_store StateEx.empty_conn ex_finish); try exact Hsep; try exact toy_store_ok.
  - simpl. unfold u64_modulus, u32_modulus. lia.
  - simpl. unfold u32_modulus. lia.
  - apply ex_sent_eq.
  - apply ex_origin_manifest.
  - reflexivity.
  - simpl. repeat apply Forall_cons_2; [simpl; lia..|constructor].
  - vm_compute. congruence.
  - vm_compute. congruence.
  - split; intros *; vm_compute; done.
  - apply ex_finish_perm.
  - intros l. unfold ex_finish. rewrite Forall_fmap. apply Forall_forall. done.
Defined.
