(* ===== verification/Engine.v ===== *)
(** * The receiving engine (src/src/net.rs, the leaf path of src/src/merkle.rs)

    Handling one pushed operation and one differing leaf: decide, fetch,
    apply to the disk, commit, repair and resolve. Between any two awaits
    other tasks run: a [Turn] says what they have the store do, what they do
    to the disk and to the connections, and what the kernel and the peers do
    to the call itself. The pause gate, the transfer permits and the
    free-space guard, which hold a transfer up before it starts, are left out
    here: what a call does is what it does once they let it through. (The gate
    and the guard are the subject of Policy.) *)

From S2P Require Import Prelude Vv Decide Metadata Conflict State Oplog Suppress Merkle Chunk Proto Fs Apply Peer Fetch.

(** ** Errors *)

Module ReconcileError.
Inductive t : Type :=
| Proto (e : ProtoError)
| Store (e : StoreError)
| Apply (e : ApplyError)
| Fetch (e : FetchError)
| Join
| Violation (what : string)
| Closed.
End ReconcileError.
Abbreviation ReconcileError := ReconcileError.t.

(** The errors of the transport crates are kept as one constructor. *)
Module NetError.
Inductive t : Type :=
| Transport
| Store (e : StoreError)
| Proto (e : ProtoError)
| Apply (e : ApplyError)
| Join
| NoPeerCert
| UnknownPeer
| PeerIdentityMismatch
| Version (v : Z)
| Violation (what : string)
| ContentUnavailable
| TooBig
| Fetch (e : FetchError)
| Reconcile (e : ReconcileError).
End NetError.
Abbreviation NetError := NetError.t.

(** The conversions [?] applies. *)
Class ErrFrom (E F : Type) := err_from : E → F.
#[export] Instance store_net : ErrFrom StoreError NetError := NetError.Store.
#[export] Instance apply_net : ErrFrom ApplyError NetError := NetError.Apply.
#[export] Instance fetch_net : ErrFrom FetchError NetError := NetError.Fetch.
#[export] Instance store_rec : ErrFrom StoreError ReconcileError := ReconcileError.Store.
#[export] Instance apply_rec : ErrFrom ApplyError ReconcileError := ReconcileError.Apply.
#[export] Instance fetch_rec : ErrFrom FetchError ReconcileError := ReconcileError.Fetch.

(** A local directory in the way. *)
Definition dir_in_the_way (k : IoKind) : bool :=
  match k with IsADirectory | NotADirectory | DirectoryNotEmpty => true | _ => false end.

Definition is_permanent (e : NetError) : bool :=
  match e with
  | NetError.Violation _ | NetError.ContentUnavailable | NetError.TooBig => true
  | NetError.Apply (ApplyError.UnsafePath _) => true
  | NetError.Apply (ApplyError.Io _ k) => dir_in_the_way k
  | NetError.Apply (ApplyError.HashMismatch _) => true
  | NetError.Fetch f => FetchError.is_permanent f
  | _ => false
  end.

Definition leaf_error_is_skippable (e : ReconcileError) : bool :=
  match e with
  | ReconcileError.Apply (ApplyError.UnsafePath _) => true
  | ReconcileError.Apply (ApplyError.HashMismatch _) => true
  | ReconcileError.Apply (ApplyError.Io _ k) => dir_in_the_way k
  | ReconcileError.Fetch f => FetchError.is_permanent f
  | ReconcileError.Violation _ => true
  | _ => false
  end.

Record RemoteLeaf : Type := mkRemoteLeaf {
  rl_tombstone : bool;
  rl_content_hash : option hash32;
  rl_vv : VV;
  rl_mode : Z;
  rl_size : Z;
  rl_uuid : option uuid16;
  rl_meta : option Meta;
}.

(** ** State and effects *)

(** What happens at one await: other tasks' store commands, their effect on
    the disk side and on the connections, a failure of the store call, and
    the outcomes of the chunk tasks and of the assembly's I/O. *)
Record Turn : Type := mkTurn {
  tu_cmds : list StoreCmd;
  tu_host : Host → Host;
  tu_conns : ConnRegistry → ConnRegistry;
  tu_fault : option StoreError;
  tu_finish : list ChunkEntry → list (ChunkEntry * Fetch.TaskFate);
  tu_io : list ChunkIo;
  tu_trunc : option IoKind;
}.

Definition quiet_turn : Turn :=
  mkTurn [] id id None (fmap (λ c, (c, Fetch.Runs None))) [] None.

(** The parts of [Config] the engine reads. *)
Record EngineCfg : Type := mkEngineCfg {
  ec_node_id : NodeId;
  ec_max_file_bytes : Z;
  ec_chunk_max_bytes : Z;
  ec_per_file_chunk_concurrency : Z;
  ec_owner_policy : OwnerPolicy;
}.

Record EngineState : Type := mkEngineState {
  es_store : StoreState;
  es_host : Host;
  es_conns : ConnRegistry;
  es_conflicts : Z;
  es_apply_errors : Z;
  es_turns : list Turn;
}.

Definition es_conn (s : EngineState) : Conn := ss_conn (es_store s).
Definition set_store (st : StoreState) (s : EngineState) : EngineState :=
  mkEngineState st (es_host s) (es_conns s) (es_conflicts s) (es_apply_errors s) (es_turns s).
Definition set_conn (c : Conn) (s : EngineState) : EngineState :=
  set_store (mkStoreState c (ss_latest (es_store s))) s.
Definition set_host (h : Host) (s : EngineState) : EngineState :=
  mkEngineState (es_store s) h (es_conns s) (es_conflicts s) (es_apply_errors s) (es_turns s).
Definition set_turns (ts : list Turn) (s : EngineState) : EngineState :=
  mkEngineState (es_store s) (es_host s) (es_conns s) (es_conflicts s) (es_apply_errors s) ts.
Definition count_conflict (s : EngineState) : EngineState :=
  mkEngineState (es_store s) (es_host s) (es_conns s) (u64_add (es_conflicts s) 1) (es_apply_errors s) (es_turns s).
Definition count_apply_error (s : EngineState) : EngineState :=
  mkEngineState (es_store s) (es_host s) (es_conns s) (es_conflicts s) (u64_add (es_apply_errors s) 1) (es_turns s).

(** Computations of the engine: they return, fail, or die with the process. *)
Definition Eng (E A : Type) : Type := EngineState → EngineState * outcome E A.

#[export] Instance eng_ret {E} : MRet (Eng E) := λ A a s, (s, Done a).
#[export] Instance eng_bind {E} : MBind (Eng E) := λ A B f m s,
  match m s with
  | (s, Done a) => f a s
  | (s, Fail e) => (s, Fail e)
  | (s, Crashed) => (s, Crashed)
  end.

Definition raise {E A} (e : E) : Eng E A := λ s, (s, Fail e).
Definition tick {E} (f : EngineState → EngineState) : Eng E unit := λ s, (f s, Done ()).
Definition attempt {E F A} (m : Eng E A) : Eng F (result E A) := λ s,
  match m s with
  | (s, Done a) => (s, Done (Ok a))
  | (s, Fail e) => (s, Done (Err e))
  | (s, Crashed) => (s, Crashed)
  end.
Definition of_opt {E A} (e : E) (o : option A) : Eng E A :=
  match o with Some a => mret a | None => raise e end.

Module Engine.
Section with_externals.
Context `{!Blake3, !Bincode, !Hex, !Scan, !HashIter}.
Context (cfg : EngineCfg).

(** The other tasks' part of a turn. *)
Definition interfere (t : Turn) (s : EngineState) : EngineState :=
  mkEngineState (run_store (ec_node_id cfg) (es_store s) (tu_cmds t)) (tu_host t (es_host s))
    (tu_conns t (es_conns s)) (es_conflicts s) (es_apply_errors s) (es_turns s).

(** An await: the others' turn, then ours. *)
Definition await {E A} (f : Turn → Eng E A) : Eng E A := λ s,
  match es_turns s with
  | [] => f quiet_turn s
  | t :: ts => f t (interfere t (set_turns ts s))
  end.

(** One request to the store thread. *)
Definition ask {E A} `{!ErrFrom StoreError E} (cmd : StoreCmd) (proj : Reply → option (result StoreError A)) : Eng E A :=
  await (λ t, match tu_fault t with
  | Some e => raise (err_from (F := E) e)
  | None => λ s,
      let '(st, r) := store_step (ec_node_id cfg) (es_store s) cmd in
      (set_store st s, match proj r with
                       | Some (Ok a) => Done a
                       | Some (Err e) => Fail (err_from (F := E) e)
                       | None => Fail (err_from (F := E) StoreError.Gone)
                       end)
  end).

Section requests.
Context {E : Type} `{!ErrFrom StoreError E}.
Definition has_applied (oid : hash32) : Eng E bool :=
  ask (HasApplied oid) (λ r, match r with RBool x => Some x | _ => None end).
Definition load_file (path : string) : Eng E (option LocalFile) :=
  ask (LoadFile path) (λ r, match r with RLocal x => Some x | _ => None end).
Definition load_row (path : string) : Eng E (option FileRow) :=
  ask (LoadRow path) (λ r, match r with RRow x => Some x | _ => None end).
Definition manifest_for (h : hash32) : Eng E (option Manifest) :=
  ask (ManifestFor h) (λ r, match r with RManifest x => Some x | _ => None end).
Definition put_manifest (m : Manifest) : Eng E unit :=
  ask (PutManifest m) (λ r, match r with RUnit x => Some x | _ => None end).
Definition apply_remote (op : OpRecord) (d : Decision) : Eng E Decision :=
  ask (ApplyRemote op d) (λ r, match r with RDecision x => Some x | _ => None end).
Definition reconcile_upsert (row : ReconciledRow) : Eng E Decision :=
  ask (ReconcileUpsert row) (λ r, match r with RDecision x => Some x | _ => None end).
Definition resolve_rows (path : string) (remote : Version) (staged : list PlannedRow) : Eng E ResolveOutcome :=
  ask (ResolveRows path remote staged) (λ r, match r with RResolve x => Some x | _ => None end).
End requests.

(** [spawn_blocking(...).await??]: one run of an apply operation. *)
Definition blocking {E A} `{!ErrFrom ApplyError E} (m : Turn → Op ApplyError A) : Eng E A :=
  await (λ t s, let '(h, r) := m t (es_host s) in
    (set_host h s, match r with Done a => Done a | Fail e => Fail (err_from (F := E) e) | Crashed => Crashed end)).

(** [fetch_limits_for], the lane apart. *)
Definition fetch_limits : FetchLimits :=
  mkFetchLimits (ec_per_file_chunk_concurrency cfg) (ec_chunk_max_bytes cfg) (ec_max_file_bytes cfg).

(** [crate::fetch] on the engine's store, chunk store and connections. *)
Definition obtain_manifest {E} `{!ErrFrom FetchError E} (h : hash32) (origin : NodeId) : Eng E Manifest :=
  await (λ t s, let '(c, r) := Fetch.obtain_manifest (es_conn s) (es_conns s) h origin fetch_limits in
    (set_conn c s, match r with Ok m => Done m | Err e => Fail (err_from (F := E) e) end)).
Definition fetch_file_chunks {E} `{!ErrFrom FetchError E} (m : Manifest) (origin : NodeId) : Eng E unit :=
  await (λ t s, let '(cas, r) := Fetch.fetch_file_chunks (h_cas (es_host s)) (es_conns s) origin fetch_limits (tu_finish t) m in
    (set_host (set_cas cas (es_host s)) s, match r with Ok a => Done a | Err e => Fail (err_from (F := E) e) end)).

Definition apply_version {E} `{!ErrFrom ApplyError E} (rel : string) (mode : Z) (hash : option hash32)
    (manifest : option Manifest) (meta : option Meta) (policy : OwnerPolicy) : Eng E unit :=
  blocking (λ t, Apply.apply_version rel mode hash manifest (tu_io t) (tu_trunc t) meta policy).
Definition apply_delete {E} `{!ErrFrom ApplyError E} (rel : string) : Eng E unit :=
  blocking (λ _, Apply.apply_delete rel).

(** [meta.map(|m| m.kind).unwrap_or(Regular)] *)
Definition kind_or_regular (meta : option Meta) : FileKind := default FileKind.Regular (m_kind <$> meta).

(** ** Repair (src/src/merkle.rs) *)

(** Errors are logged only. *)
Definition restore_local_content {E} (path : string) : Eng E unit :=
  r ← attempt (F := E) (
    row ← load_row (E := ReconcileError) path;
    let absent := apply_delete path in
    match row with
    | Some local =>
        if fr_tombstone local then absent else
        let regular := bool_decide (kind_or_regular (fr_meta local) = FileKind.Regular) in
        manifest ← match fr_content_hash local, regular with
          | Some hash, true =>
              m ← manifest_for hash;
              m ← of_opt (ReconcileError.Violation "local manifest missing") m;
              mret (Some m)
          | None, true => raise (ReconcileError.Violation "live row without content hash")
          | _, false => mret None
          end;
        apply_version path (fr_mode local) (fr_content_hash local) manifest (fr_meta local) OwnerPolicy.Numeric
    | None => absent
    end);
  mret ().

Fixpoint restore_paths {E} (paths : list string) : Eng E unit :=
  match paths with
  | [] => mret ()
  | p :: paths => restore_local_content p;; restore_paths paths
  end.
(** ** Resolution (src/src/net.rs) *)

(** The content of a planned row: local manifest and chunks when held, the
    peers otherwise. *)
Definition stage_planned_content (row : PlannedRow) (origin : NodeId) (hash : hash32) : Eng NetError unit :=
  m ← manifest_for hash;
  manifest ← match m with Some m => mret m | None => obtain_manifest hash origin end;
  fetch_file_chunks manifest origin;;
  apply_version (pr_path row) (pr_mode row) (Some hash) (Some manifest) (pr_meta row) (ec_owner_policy cfg).

(** The row the index holds is the planned one but for its vector. *)
Definition already_current (cur : option FileRow) (row : PlannedRow) : bool :=
  match cur with
  | Some cur => negb (fr_tombstone cur) && bool_decide (fr_content_hash cur = pr_content_hash row)
      && bool_decide (Meta.hash_of (fr_meta cur) = Meta.hash_of (pr_meta row))
  | None => false
  end.

(** Whether the disk was touched. *)
Definition stage_planned_row (row : PlannedRow) (origin : NodeId) : Eng NetError bool :=
  if pr_tombstone row then apply_delete (pr_path row);; mret true else
  cur ← load_row (pr_path row);
  if already_current cur row then mret false else
  if bool_decide (kind_or_regular (pr_meta row) ≠ FileKind.Regular)
  then apply_version (pr_path row) (pr_mode row) (pr_content_hash row) None (pr_meta row) (ec_owner_policy cfg);; mret true
  else match pr_content_hash row with
       | None => raise (NetError.Violation "live planned row without hash")
       | Some hash =>
           if bool_decide (ec_max_file_bytes cfg < pr_size row) then raise NetError.TooBig
           else stage_planned_content row origin hash;; mret true
       end.

(** How staging a plan ended. *)
Inductive Staging : Type :=
| Staged (paths : list string)
| Deferred (paths : list string)
| Aborted (paths : list string) (e : NetError).

(** [for row in &plan]: the paths staged so far grow. *)
Fixpoint stage_plan (plan : list PlannedRow) (origin : NodeId) (paths : list string) : Eng NetError Staging :=
  match plan with
  | [] => mret (Staged paths)
  | row :: plan =>
      r ← attempt (stage_planned_row row origin);
      match r with
      | Ok touched => stage_plan plan origin (if (touched : bool) then paths ++ [pr_path row] else paths)
      | Err e => mret (if is_permanent e then Deferred paths else Aborted paths e)
      end
  end.

(** The resolution loop; [rounds] counts down the retries. *)
Fixpoint resolve_loop (rounds : nat) (path : string) (remote : Version) (origin : NodeId)
    (staged : list PlannedRow) (paths : list string) : Eng NetError unit :=
  match rounds with
  | O => restore_paths paths
  | S rounds =>
      o ← resolve_rows path remote staged;
      match o with
      | ResolveOutcome.Resolved => mret ()
      | ResolveOutcome.NotConcurrent _ | ResolveOutcome.Unresolvable => restore_paths paths
      | ResolveOutcome.Stale plan =>
          r ← stage_plan plan origin paths;
          match r with
          | Staged paths => resolve_loop rounds path remote origin plan paths
          | Deferred paths => restore_paths paths
          | Aborted paths e => restore_paths paths;; raise e
          end
      end
  end.

Definition RESOLVE_ROUNDS : nat := 4.

Definition resolve_concurrent_at (path : string) (remote : Version) (origin : NodeId) : Eng NetError unit :=
  resolve_loop RESOLVE_ROUNDS path remote origin [] [].

(** The operation's effect on its own path. *)
Definition op_version (op : OpRecord) : Version :=
  mkVersion (bool_decide (op_op_type op = OpType.Delete)) (op_content_hash op) (Meta.hash_of (op_meta op))
    (op_meta op) (op_mode op) (op_size op) (op_vv op) (op_uuid op).

Definition resolve_concurrent_op (op : OpRecord) : Eng NetError unit :=
  resolve_concurrent_at (op_path op) (op_version op) (op_origin op).

(** The effect of a rename on its source. *)
Definition source_effect (op : OpRecord) : Version :=
  mkVersion true None META_NONE None 0 0 (op_vv op) (op_uuid op).

(** ** Materialization *)

Definition fetch_and_assemble (op : OpRecord) (hash : hash32) : Eng NetError unit :=
  manifest ← obtain_manifest hash (op_origin op);
  fetch_file_chunks manifest (op_origin op);;
  apply_version (op_path op) (op_mode op) (Some hash) (Some manifest) (op_meta op) (ec_owner_policy cfg).

(** The local content already is the operation's. *)
Definition holds_content (local : option LocalFile) (hash : hash32) : bool :=
  match local with
  | Some l => negb (lf_tombstone l) && bool_decide (lf_content_hash l = Some hash)
  | None => false
  end.

Definition fetch_bounded (op : OpRecord) (hash : hash32) : Eng NetError unit :=
  if bool_decide (ec_max_file_bytes cfg < op_size op) then raise NetError.TooBig
  else fetch_and_assemble op hash.

Definition materialize_write (op : OpRecord) (local : option LocalFile) : Eng NetError unit :=
  if bool_decide (kind_or_regular (op_meta op) ≠ FileKind.Regular)
  then apply_version (op_path op) (op_mode op) (op_content_hash op) None (op_meta op) (ec_owner_policy cfg)
  else
    hash ← of_opt (NetError.Violation "write op without content hash") (op_content_hash op);
    if negb (holds_content local hash) then fetch_bounded op hash
    else match op_meta op with
         | Some meta => blocking (λ _, Apply.apply_meta_only (op_path op) (Some hash) meta (ec_owner_policy cfg))
         | None => mret ()
         end.

Definition materialize_rename (op : OpRecord) (local : option LocalFile) : Eng NetError unit :=
  hash ← of_opt (NetError.Violation "rename op without content hash") (op_content_hash op);
  old_rel ← of_opt (NetError.Violation "rename op without path_old") (op_path_old op);
  old_local ← load_file old_rel;
  let old_dominated := bool_decide (decide_op old_local (op_vv op) = Decision.Apply) in
  let regular := bool_decide (kind_or_regular (op_meta op) = FileKind.Regular) in
  (if holds_content local hash then mret () else
   moved ← (if old_dominated && regular
            then blocking (λ _, Apply.apply_rename old_rel (op_path op) (op_mode op) hash (op_meta op) (ec_owner_policy cfg))
            else mret false);
   if (moved : bool) then mret () else
   if negb regular
   then apply_version (op_path op) (op_mode op) (Some hash) None (op_meta op) (ec_owner_policy cfg)
   else fetch_bounded op hash);;
  if old_dominated then apply_delete old_rel else mret ().

Definition materialize (op : OpRecord) (local : option LocalFile) : Eng NetError unit :=
  match op_op_type op with
  | OpType.Write => materialize_write op local
  | OpType.Delete => apply_delete (op_path op)
  | OpType.Rename => materialize_rename op local
  end.

(** ** One pushed operation *)

(** The decision, after the disk has been changed for an [Apply]. *)
Definition decide_and_materialize (op : OpRecord) : Eng NetError Decision :=
  local ← load_file (op_path op);
  let decision := decide_op local (op_vv op) in
  if bool_decide (decision = Decision.Apply) then
    r ← attempt (materialize op local);
    match r with
    | Ok _ => mret decision
    | Err e => if is_permanent e then tick count_apply_error;; mret Decision.Quarantined else raise e
    end
  else mret decision.

(** After the commit: the repair of a downgraded [Apply]. *)
Definition repair_downgrade (op : OpRecord) (decision effective : Decision) : Eng NetError unit :=
  if bool_decide (decision = Decision.Apply ∧ effective ≠ Decision.Apply) then
    tick count_conflict;;
    restore_local_content (op_path op);;
    if bool_decide (effective = Decision.Concurrent) then resolve_concurrent_op op else mret ()
  else mret ().

(** After the commit: the source of a rename. *)
Definition settle_source (op : OpRecord) (decision : Decision) : Eng NetError unit :=
  if bool_decide (op_op_type op = OpType.Rename ∧ decision ≠ Decision.Quarantined) then
    match op_path_old op with
    | None => mret ()
    | Some old_rel =>
        old_local ← load_file old_rel;
        match decide_op old_local (op_vv op) with
        | Decision.Ignore | Decision.Apply => restore_local_content old_rel
        | Decision.Concurrent =>
            tick count_conflict;;
            restore_local_content old_rel;;
            resolve_concurrent_at old_rel (source_effect op) (op_origin op)
        | Decision.Quarantined => mret ()
        end
    end
  else mret ().

Definition process_remote_op (op : OpRecord) : Eng NetError unit :=
  applied ← has_applied (op_op_id op);
  if (applied : bool) then mret () else
  decision ← decide_and_materialize op;
  (if bool_decide (decision = Decision.Concurrent)
   then tick count_conflict;; resolve_concurrent_op op else mret ());;
  effective ← apply_remote op decision;
  repair_downgrade op decision effective;;
  settle_source op decision.

(** ** One differing leaf (src/src/merkle.rs) *)

(** [QuicReconcile::ensure_content] *)
Definition ensure_content (peer : NodeId) (hash : hash32) : Eng ReconcileError Manifest :=
  m ← obtain_manifest hash peer;
  fetch_file_chunks m peer;;
  mret m.

Definition leaf_version (l : RemoteLeaf) : Version :=
  mkVersion (rl_tombstone l) (rl_content_hash l) (Meta.hash_of (rl_meta l)) (rl_meta l) (rl_mode l) (rl_size l)
    (rl_vv l) (rl_uuid l).

Definition stage_leaf_row (row : PlannedRow) (peer : NodeId) : Eng ReconcileError bool :=
  if pr_tombstone row then apply_delete (pr_path row);; mret true else
  cur ← load_row (pr_path row);
  if already_current cur row then mret false else
  let regular := bool_decide (kind_or_regular (pr_meta row) = FileKind.Regular) in
  manifest ← match pr_content_hash row, regular with
    | Some hash, true =>
        m ← manifest_for hash;
        match m with
        | Some m => mret (Some m)
        | None => m ← ensure_content peer hash; put_manifest m;; mret (Some m)
        end
    | _, _ => mret None
    end;
  apply_version (pr_path row) (pr_mode row) (pr_content_hash row) manifest (pr_meta row) (ec_owner_policy cfg);;
  mret true.

(** The paths staged, and the error that stopped the staging. *)
Fixpoint stage_leaf_plan (plan : list PlannedRow) (peer : NodeId) (paths : list string)
  : Eng ReconcileError (list string * option ReconcileError) :=
  match plan with
  | [] => mret (paths, None)
  | row :: plan =>
      r ← attempt (stage_leaf_row row peer);
      match r with
      | Ok touched => stage_leaf_plan plan peer (if (touched : bool) then paths ++ [pr_path row] else paths)
      | Err e => mret (paths, Some e)
      end
  end.

Fixpoint resolve_leaf_loop (rounds : nat) (path : string) (remote : Version) (peer : NodeId)
    (staged : list PlannedRow) (paths : list string) : Eng ReconcileError bool :=
  match rounds with
  | O => restore_paths paths;; mret false
  | S rounds =>
      o ← resolve_rows path remote staged;
      match o with
      | ResolveOutcome.Resolved => mret true
      | ResolveOutcome.NotConcurrent _ | ResolveOutcome.Unresolvable => restore_paths paths;; mret false
      | ResolveOutcome.Stale plan =>
          r ← stage_leaf_plan plan peer paths;
          match r with
          | (paths, None) => resolve_leaf_loop rounds path remote peer plan paths
          | (paths, Some e) => restore_paths paths;; raise e
          end
      end
  end.

Definition resolve_concurrent_leaf (path : string) (l : RemoteLeaf) (peer : NodeId) : Eng ReconcileError bool :=
  resolve_leaf_loop RESOLVE_ROUNDS path (leaf_version l) peer [] [].

Inductive LeafOutcome : Type := Applied | Resolved | Skipped.

Definition leaf_row (path : string) (l : RemoteLeaf) : ReconciledRow :=
  if rl_tombstone l
  then mkReconciledRow path None (rl_mode l) 0 (rl_vv l) true (rl_uuid l) None
  else mkReconciledRow path (rl_content_hash l) (rl_mode l) (rl_size l) (rl_vv l) false (rl_uuid l) (rl_meta l).

Definition materialize_leaf (path : string) (l : RemoteLeaf) (peer : NodeId) : Eng ReconcileError unit :=
  if rl_tombstone l then apply_delete path else
  let regular := bool_decide (kind_or_regular (rl_meta l) = FileKind.Regular) in
  manifest ← match rl_content_hash l, regular with
    | Some hash, true => m ← ensure_content peer hash; mret (Some m)
    | None, true => raise (ReconcileError.Violation "regular leaf without content hash")
    | _, false => mret None
    end;
  apply_version path (rl_mode l) (rl_content_hash l) manifest (rl_meta l) (ec_owner_policy cfg).

Definition apply_remote_leaf (path : string) (l : RemoteLeaf) (peer : NodeId) : Eng ReconcileError LeafOutcome :=
  materialize_leaf path l peer;;
  effective ← reconcile_upsert (leaf_row path l);
  if bool_decide (effective = Decision.Apply) then mret Applied else
  restore_local_content path;;
  resolved ← (if bool_decide (effective = Decision.Concurrent) then resolve_concurrent_leaf path l peer else mret false);
  mret (if (resolved : bool) then Resolved else Skipped).

(** The counters of the report. *)
Definition count_compared (r : ReconcileReport) : ReconcileReport :=
  mkReconcileReport (tree_reqs r) (u64_add (leaves_compared r) 1) (applied r) (resolved_conflicts r)
    (skipped_concurrent r) (skipped_damaged r).
Definition count_outcome (o : LeafOutcome) (r : ReconcileReport) : ReconcileReport :=
  match o with
  | Applied => mkReconcileReport (tree_reqs r) (leaves_compared r) (u64_add (applied r) 1) (resolved_conflicts r)
      (skipped_concurrent r) (skipped_damaged r)
  | Resolved => mkReconcileReport (tree_reqs r) (leaves_compared r) (applied r) (u64_add (resolved_conflicts r) 1)
      (skipped_concurrent r) (skipped_damaged r)
  | Skipped => mkReconcileReport (tree_reqs r) (leaves_compared r) (applied r) (resolved_conflicts r)
      (u64_add (skipped_concurrent r) 1) (skipped_damaged r)
  end.
Definition count_damaged (r : ReconcileReport) : ReconcileReport :=
  mkReconcileReport (tree_reqs r) (leaves_compared r) (applied r) (resolved_conflicts r)
    (skipped_concurrent r) (u64_add (skipped_damaged r) 1).

(** [answer] is what the responder says of the leaf. *)
Definition handle_leaf (path : string) (answer : result ReconcileError (option RemoteLeaf)) (peer : NodeId)
    (report : ReconcileReport) : Eng ReconcileError ReconcileReport :=
  let report := count_compared report in
  match answer with
  | Err e => raise e
  | Ok None => mret report
  | Ok (Some l) =>
      local ← load_file path;
      match decide_op local (rl_vv l) with
      | Decision.Ignore | Decision.Quarantined => mret report
      | d =>
          r ← attempt (if bool_decide (d = Decision.Concurrent)
                       then resolved ← resolve_concurrent_leaf path l peer;
                            mret (if (resolved : bool) then Resolved else Skipped)
                       else apply_remote_leaf path l peer);
          match r with
          | Ok o => mret (count_outcome o report)
          | Err e => if leaf_error_is_skippable e then mret (count_damaged report) else raise e
          end
      end
  end.
End with_externals.
End Engine.
