(* ===== verification/EngineProofs.v ===== *)
(** * The receiving engine: what its runs guarantee

    The store only moves forward whatever the schedule; a handled operation
    is durably recorded; the disk follows the index. *)

From S2P Require Import Prelude Vv Decide Metadata Conflict ConflictProofs State Oplog OplogProofs StoreProps Marks.
From S2P Require Import Suppress Merkle Chunk Proto Fs Apply ApplyProofs Peer Fetch Engine.

(** ** Traces: the engine touches the store only through its commands *)

Create HintDb engine.

Section traces.
Context `{!Blake3, !Bincode, !Hex, !Scan, !HashIter} (cfg : EngineCfg).
Abbreviation node := (ec_node_id cfg).

(** The commands that read, and the one that records a manifest. *)
Definition harmless (cmd : StoreCmd) : Prop :=
  match cmd with
  | HasApplied _ | LoadFile _ | LoadRow _ | ManifestFor _ | PutManifest _ => True
  | _ => False
  end.

Context (P : StoreCmd → Prop) (Hharmless : ∀ cmd, harmless cmd → P cmd).

Definition turns_meet (s : EngineState) : Prop := Forall (λ t, Forall P (tu_cmds t)) (es_turns s).

(** From a schedule whose commands meet [P], the store is moved by commands
    that meet [P], whatever the outcome. *)
Definition traced {E A} (m : Eng E A) : Prop :=
  ∀ s, turns_meet s →
    let '(s', _) := m s in
    es_turns s' `suffix_of` es_turns s ∧ ∃ cmds, es_store s' = run_store node (es_store s) cmds ∧ Forall P cmds.

Lemma turns_meet_suffix s s' : es_turns s' `suffix_of` es_turns s → turns_meet s → turns_meet s'.
Proof. unfold turns_meet. intros [k ->] Hs. by apply Forall_app in Hs as [_ ?]. Qed.

Lemma traced_same {E A} (m : Eng E A) :
  (∀ s, es_store (m s).1 = es_store s ∧ es_turns (m s).1 = es_turns s) → traced m.
Proof.
  intros Hm s Hs. specialize (Hm s). destruct (m s) as [s' r]. simpl in Hm. destruct Hm as [Hst Ht].
  rewrite Ht. split; [done|]. by exists [].
Qed.

Lemma traced_ret {E A} (a : A) : traced (mret a : Eng E A).
Proof. by apply traced_same. Qed.
Lemma traced_raise {E A} (e : E) : traced (raise e : Eng E A).
Proof. by apply traced_same. Qed.
Lemma traced_of_opt {E A} (e : E) (o : option A) : traced (of_opt e o).
Proof. destruct o; by apply traced_same. Qed.
Lemma traced_conflict {E} : traced (tick count_conflict : Eng E unit).
Proof. by apply traced_same. Qed.
Lemma traced_apply_error {E} : traced (tick count_apply_error : Eng E unit).
Proof. by apply traced_same. Qed.

Lemma trace_snoc st st1 st2 cmds1 cmds2 :
  st1 = run_store node st cmds1 → st2 = run_store node st1 cmds2 → Forall P cmds1 → Forall P cmds2 →
  ∃ cmds, st2 = run_store node st cmds ∧ Forall P cmds.
Proof.
  intros -> -> Hf1 Hf2. exists (cmds1 ++ cmds2). split; [|by apply Forall_app]. unfold run_store. by rewrite foldl_app.
Qed.

Lemma traced_bind {E A B} (m : Eng E A) (f : A → Eng E B) :
  traced m → (∀ a, traced (f a)) → traced (m ≫= f).
Proof.
  intros Hm Hf s Hs. specialize (Hm s Hs). unfold mbind, eng_bind. destruct (m s) as [s1 [a|e|]]; [|done..].
  destruct Hm as (Hs1 & cmds1 & Hst1 & Hp1). specialize (Hf a s1 (turns_meet_suffix _ _ Hs1 Hs)). destruct (f a s1) as [s2 r].
  destruct Hf as (Hs2 & cmds2 & Hst2 & Hp2). split; [by etrans|]. by eapply trace_snoc.
Qed.

Lemma traced_attempt {E F A} (m : Eng E A) : traced m → traced (attempt (F := F) m).
Proof. intros Hm s Hs. specialize (Hm s Hs). unfold attempt. by destruct (m s) as [s1 [a|e|]]. Qed.

Lemma traced_if {E A} (b : bool) (m n : Eng E A) : traced m → traced n → traced (if b then m else n).
Proof. by destruct b. Qed.

Lemma traced_await {E A} (f : Turn → Eng E A) : (∀ t, traced (f t)) → traced (Engine.await cfg f).
Proof.
  intros Hf s Hs. unfold Engine.await, turns_meet in *. destruct (es_turns s) as [|t ts] eqn:Ht.
  { specialize (Hf quiet_turn s). unfold turns_meet in Hf. rewrite Ht in Hf. by apply Hf. }
  apply Forall_cons in Hs as [Hp Hs]. specialize (Hf t (Engine.interfere cfg t (set_turns ts s)) Hs).
  destruct (f t _) as [s2 r]. destruct Hf as (Hs2 & cmds & Hst & Hpc). split; [by apply suffix_cons_r|].
  eapply (trace_snoc (es_store s) (run_store node (es_store s) (tu_cmds t))); [done|exact Hst|done|done].
Qed.

Lemma traced_ask {E A} `{!ErrFrom StoreError E} cmd (proj : Reply → option (result StoreError A)) :
  P cmd → traced (Engine.ask cfg (E := E) cmd proj).
Proof.
  intros Hc. apply traced_await. intros t. destruct (tu_fault t); [apply traced_raise|]. intros s Hs.
  destruct (store_step node (es_store s) cmd) as [st r] eqn:Hst. split; [done|]. exists [cmd]. simpl. rewrite Hst. split; [done|by constructor].
Qed.

Lemma traced_blocking {E A} `{!ErrFrom ApplyError E} (m : Turn → Op ApplyError A) :
  traced (Engine.blocking cfg (E := E) m).
Proof.
  apply traced_await. intros t. apply traced_same. intros s. by destruct (m t (es_host s)).
Qed.

Lemma manifest_candidates_effect db h limits cands anf :
  (Fetch.manifest_candidates db h limits cands anf).1 = db ∨
  ∃ m, (Fetch.manifest_candidates db h limits cands anf).1 = State.put_manifest db m.
Proof.
  revert anf. induction cands as [|[k conn] cands IH]; intros anf; cbn [Fetch.manifest_candidates]; [by left|].
  destruct (Fetch.manifest_from_peer conn h limits) as [[[m|]|e]|]; try apply IH. right. by exists m.
Qed.

Lemma traced_obtain_manifest {E} `{!ErrFrom FetchError E} h origin :
  traced (Engine.obtain_manifest cfg (E := E) h origin).
Proof.
  apply traced_await. intros t s Hs. unfold Fetch.obtain_manifest.
  assert (Hsame : es_turns (set_conn (es_conn s) s) `suffix_of` es_turns s ∧
    ∃ cmds, es_store (set_conn (es_conn s) s) = run_store node (es_store s) cmds ∧ Forall P cmds).
  { split; [done|]. exists []. split; [|constructor]. unfold set_conn, es_conn. simpl. by destruct (es_store s). }
  destruct (State.manifest_for (es_conn s) h) as [[m|]|e]; [exact Hsame| |exact Hsame].
  destruct (ConnRegistry.candidates (es_conns s) origin) as [|c cs]; [exact Hsame|].
  pose proof (manifest_candidates_effect (es_conn s) h (Engine.fetch_limits cfg) (c :: cs) false) as Heff.
  destruct (Fetch.manifest_candidates _ _ _ _ _) as [db r]. simpl in Heff. destruct Heff as [->|[m ->]]; [exact Hsame|].
  split; [done|]. exists [PutManifest m]. split; [done|]. constructor; [by apply Hharmless|constructor].
Qed.

Lemma traced_fetch_file_chunks {E} `{!ErrFrom FetchError E} m origin :
  traced (Engine.fetch_file_chunks cfg (E := E) m origin).
Proof.
  apply traced_await. intros t. apply traced_same. intros s. by destruct (Fetch.fetch_file_chunks _ _ _ _ _ _).
Qed.

#[local] Hint Resolve traced_ret traced_raise traced_of_opt traced_conflict traced_apply_error traced_attempt traced_if
  traced_ask traced_blocking traced_obtain_manifest traced_fetch_file_chunks Hharmless : engine.
#[local] Hint Extern 1 (harmless _) => exact I : engine.
#[local] Hint Extern 3 (traced _) => progress intros : engine.

(** Split binds and branches, then the library of traced steps. *)
Ltac trace_step :=
  match goal with
  | |- traced (_ ≫= _) => apply traced_bind; [|intros ?]
  | |- traced (attempt _) => apply traced_attempt
  | |- traced (if _ then _ else _) => apply traced_if
  | |- traced (match ?x with _ => _ end) => destruct x
  | _ => solve [eauto with engine]
  end.
Ltac trace := cbv zeta; repeat (trace_step; cbv zeta).

Lemma traced_restore {E} path : traced (Engine.restore_local_content cfg (E := E) path).
Proof. unfold Engine.restore_local_content. trace. Qed.

Lemma traced_restore_paths {E} paths : traced (Engine.restore_paths cfg (E := E) paths).
Proof. induction paths as [|p paths IH]; cbn [Engine.restore_paths]; [trace|]. apply traced_bind; [apply traced_restore|done]. Qed.

Lemma traced_stage_planned_row row origin : traced (Engine.stage_planned_row cfg row origin).
Proof. unfold Engine.stage_planned_row, Engine.stage_planned_content. trace. Qed.

Lemma traced_stage_plan plan origin paths : traced (Engine.stage_plan cfg plan origin paths).
Proof.
  revert paths. induction plan as [|row plan IH]; intros paths; cbn [Engine.stage_plan]; [trace|].
  apply traced_bind; [apply traced_attempt, traced_stage_planned_row|]. intros [touched|e]; [apply IH|trace].
Qed.

Lemma traced_resolve_loop rounds path remote origin staged paths :
  (∀ staged, P (ResolveRows path remote staged)) →
  traced (Engine.resolve_loop cfg rounds path remote origin staged paths).
Proof.
  intros Hp. revert staged paths. induction rounds as [|rounds IH]; intros staged paths; cbn [Engine.resolve_loop].
  { apply traced_restore_paths. }
  apply traced_bind; [by apply traced_ask|]. intros []; try apply traced_restore_paths; [apply traced_ret|].
  apply traced_bind; [apply traced_stage_plan|]. intros []; [apply IH|apply traced_restore_paths|].
  apply traced_bind; [apply traced_restore_paths|]. intros ?. apply traced_raise.
Qed.

Lemma traced_materialize op local : traced (Engine.materialize cfg op local).
Proof.
  unfold Engine.materialize, Engine.materialize_write, Engine.materialize_rename, Engine.fetch_bounded, Engine.fetch_and_assemble.
  destruct (op_op_type op); trace.
Qed.

Lemma traced_decide_and_materialize op : traced (Engine.decide_and_materialize cfg op).
Proof.
  unfold Engine.decide_and_materialize. apply traced_bind; [by apply traced_ask, Hharmless|]. intros local. cbv zeta.
  apply traced_if; [|trace]. apply traced_bind; [apply traced_attempt, traced_materialize|]. intros []; trace.
Qed.

Section one_op.
Context (op : OpRecord).
Context (Hremote : ∀ d, P (ApplyRemote op d)).
Context (Htarget : ∀ staged, P (ResolveRows (op_path op) (Engine.op_version op) staged)).
Context (Hsource : ∀ old staged, op_path_old op = Some old → P (ResolveRows old (Engine.source_effect op) staged)).

Lemma traced_repair d eff : traced (Engine.repair_downgrade cfg op d eff).
Proof.
  unfold Engine.repair_downgrade. apply traced_if; [|trace]. trace; [apply traced_restore|].
  by apply traced_resolve_loop.
Qed.

Lemma traced_settle d : traced (Engine.settle_source cfg op d).
Proof.
  unfold Engine.settle_source. apply traced_if; [|trace]. destruct (op_path_old op) as [old|] eqn:Hold; [|trace].
  apply traced_bind; [by apply traced_ask, Hharmless|]. intros local.
  destruct (decide_op local (op_vv op)); try apply traced_restore; [|trace].
  trace; [apply traced_restore|]. apply traced_resolve_loop. intros staged. by apply Hsource.
Qed.

Lemma traced_process : traced (Engine.process_remote_op cfg op).
Proof.
  unfold Engine.process_remote_op. apply traced_bind; [by apply traced_ask, Hharmless|]. intros a. apply traced_if; [trace|].
  apply traced_bind; [apply traced_decide_and_materialize|]. intros d.
  apply traced_bind; [apply traced_if; [|trace]; apply traced_bind; [trace|intros _; by apply traced_resolve_loop]|].
  intros _. apply traced_bind; [by apply traced_ask|]. intros eff.
  apply traced_bind; [apply traced_repair|]. intros _. apply traced_settle.
Qed.
End one_op.

Lemma traced_ensure_content peer hash : traced (Engine.ensure_content cfg peer hash).
Proof. unfold Engine.ensure_content. trace. Qed.

Lemma traced_stage_leaf_row row peer : traced (Engine.stage_leaf_row cfg row peer).
Proof. unfold Engine.stage_leaf_row, Engine.ensure_content. trace. Qed.

Lemma traced_stage_leaf_plan plan peer paths : traced (Engine.stage_leaf_plan cfg plan peer paths).
Proof.
  revert paths. induction plan as [|row plan IH]; intros paths; cbn [Engine.stage_leaf_plan]; [trace|].
  apply traced_bind; [apply traced_attempt, traced_stage_leaf_row|]. intros [touched|e]; [apply IH|trace].
Qed.

Lemma traced_resolve_leaf rounds path remote peer staged paths :
  (∀ staged, P (ResolveRows path remote staged)) →
  traced (Engine.resolve_leaf_loop cfg rounds path remote peer staged paths).
Proof.
  intros Hp. revert staged paths. induction rounds as [|rounds IH]; intros staged paths; cbn [Engine.resolve_leaf_loop].
  { apply traced_bind; [apply traced_restore_paths|]. intros ?. apply traced_ret. }
  apply traced_bind; [by apply traced_ask|].
  intros []; [apply traced_ret|..];
    try (apply traced_bind; [apply traced_restore_paths|]; intros ?; apply traced_ret).
  apply traced_bind; [apply traced_stage_leaf_plan|]. intros [paths' [e|]]; [|apply IH].
  apply traced_bind; [apply traced_restore_paths|]. intros ?. apply traced_raise.
Qed.

Lemma traced_handle_leaf path answer peer report :
  (∀ l, answer = Ok (Some l) → P (ReconcileUpsert (Engine.leaf_row path l)) ∧
    ∀ staged, P (ResolveRows path (Engine.leaf_version l) staged)) →
  traced (Engine.handle_leaf cfg path answer peer report).
Proof.
  intros Hp. unfold Engine.handle_leaf. destruct answer as [[l|]|e]; [|trace..].
  destruct (Hp l eq_refl) as [Hup Hres].
  assert (Hleaf : traced (Engine.resolve_concurrent_leaf cfg path l peer)) by by apply traced_resolve_leaf.
  assert (Happly : traced (Engine.apply_remote_leaf cfg path l peer)).
  { unfold Engine.apply_remote_leaf, Engine.materialize_leaf, Engine.ensure_content. trace. apply traced_restore. }
  apply traced_bind; [by apply traced_ask, Hharmless|]. intros local. cbv zeta.
  destruct (decide_op local (rl_vv l)); [|trace| |trace];
    (apply traced_bind; [apply traced_attempt; apply traced_if; [|done]; apply traced_bind; [done|]; trace|]; intros []; trace).
Qed.
End traces.

(** ** A handled operation is durably recorded *)

(** The commands that handling [op] issues. *)
Definition op_cmd `{!Blake3, !Bincode} (op : OpRecord) (cmd : StoreCmd) : Prop :=
  match cmd with
  | ApplyRemote op' _ => op' = op
  | ResolveRows path v _ =>
      path = op_path op ∧ v = Engine.op_version op ∨ op_path_old op = Some path ∧ v = Engine.source_effect op
  | cmd => harmless cmd
  end.

Section durable.
Context `{!Blake3, !Bincode, !Hex, !Scan, !HashIter} (cfg : EngineCfg).

Lemma bind_done {E A B} (m : Eng E A) (f : A → Eng E B) s s' b :
  (m ≫= f) s = (s', Done b) → ∃ a s1, m s = (s1, Done a) ∧ f a s1 = (s', Done b).
Proof. unfold mbind, eng_bind. destruct (m s) as [s1 [a|e|]]; [|done..]. intros Hf. by exists a, s1. Qed.

(** What any traced computation does to the marks. *)
Lemma traced_forward P {E A} (m : Eng E A) s s' r :
  traced cfg P m → turns_meet P s → m s = (s', r) → forward (es_conn s) (es_conn s').
Proof.
  intros Hm Hs Heq. specialize (Hm s Hs). rewrite Heq in Hm. destruct Hm as (_ & cmds & Hst & _).
  unfold es_conn. rewrite Hst. apply run_store_forward.
Qed.

Definition any_cmd (cmd : StoreCmd) : Prop := True.
Lemma any_turns s : turns_meet any_cmd s.
Proof. apply Forall_forall. intros t _. by apply Forall_forall. Qed.

(** The state in which an await's own step runs. *)
Definition arrive (s : EngineState) : EngineState :=
  match es_turns s with [] => s | t :: ts => Engine.interfere cfg t (set_turns ts s) end.

Lemma ask_done {E A} `{!ErrFrom StoreError E} cmd (proj : Reply → option (result StoreError A)) s s' a :
  Engine.ask cfg (E := E) cmd proj s = (s', Done a) →
  let '(st, r) := store_step (ec_node_id cfg) (es_store (arrive s)) cmd in
  s' = set_store st (arrive s) ∧ proj r = Some (Ok a).
Proof.
  unfold Engine.ask, Engine.await, arrive.
  assert (Hone : ∀ s0, (let '(st, r) := store_step (ec_node_id cfg) (es_store s0) cmd in
      (set_store st s0, match proj r with
        | Some (Ok a) => Done a | Some (Err e) => Fail (err_from (F := E) e) | None => Fail (err_from (F := E) StoreError.Gone)
        end)) = (s', Done a) →
    let '(st, r) := store_step (ec_node_id cfg) (es_store s0) cmd in s' = set_store st s0 ∧ proj r = Some (Ok a)).
  { intros s0. destruct (store_step _ _ _) as [st r]. destruct (proj r) as [[a'|e]|]; intros [= <- <-]; done. }
  destruct (es_turns s) as [|t ts]; [apply Hone|]. destruct (tu_fault t); [done|apply Hone].
Qed.

(** A command of one of the turns to come. *)
Definition foreign (s : EngineState) (cmd : StoreCmd) : Prop := ∃ t, t ∈ es_turns s ∧ cmd ∈ tu_cmds t.

Lemma foreign_turns s (Q : StoreCmd → Prop) : turns_meet (λ cmd, foreign s cmd ∨ Q cmd) s.
Proof.
  apply Forall_forall. intros t Ht. apply Forall_forall. intros cmd Hc. left. by exists t.
Qed.

Lemma process_forward {E A} (m : Eng E A) s s' r :
  traced cfg any_cmd m → m s = (s', r) → forward (es_conn s) (es_conn s').
Proof. intros Hm Heq. eapply traced_forward; [exact Hm|apply any_turns|exact Heq]. Qed.

Lemma ask_apply_remote op d s s' eff :
  Engine.apply_remote cfg (E := NetError) op d s = (s', Done eff) → handled op (es_conn s').
Proof.
  intros Ha. apply ask_done in Ha. cbn [store_step] in Ha.
  destruct (Oplog.apply_remote _ op d) as [c' res] eqn:Heq. destruct Ha as [-> [= ->]]. by eapply apply_remote_handled.
Qed.

Lemma process_remote_op_spec (op : OpRecord) (s : EngineState) :
  let '(s', r) := Engine.process_remote_op cfg op s in
  (∃ cmds, es_store s' = run_store (ec_node_id cfg) (es_store s) cmds ∧
     Forall (λ cmd, foreign s cmd ∨ op_cmd op cmd) cmds) ∧
  forward (es_conn s) (es_conn s') ∧
  (r = Done () →
     Oplog.has_applied (es_conn s') (op_op_id op) = true ∧
     (Oplog.has_applied (es_conn (arrive s)) (op_op_id op) = true ∨ handled op (es_conn s'))).
Proof.
  destruct (Engine.process_remote_op cfg op s) as [s' r] eqn:Heq.
  assert (Htr : traced cfg (λ cmd, foreign s cmd ∨ op_cmd op cmd) (Engine.process_remote_op cfg op)).
  { apply traced_process; [intros [] ?; by right|by right|right; by left|intros old staged Ho; right; by right]. }
  specialize (Htr s (foreign_turns s _)). rewrite Heq in Htr. destruct Htr as (_ & cmds & Hst & Hcmds).
  split; [by exists cmds|]. split; [unfold es_conn; rewrite Hst; apply run_store_forward|]. intros ->.
  unfold Engine.process_remote_op in Heq. apply bind_done in Heq as (a & s1 & Hask & Heq).
  apply ask_done in Hask. cbn [store_step] in Hask. destruct Hask as [-> [= Hap]].
  destruct a; [injection Heq as <-; by split; [|left]|].
  apply bind_done in Heq as (d & s2 & _ & Heq). apply bind_done in Heq as (u & s3 & _ & Heq).
  apply bind_done in Heq as (eff & s4 & Hcommit & Heq). apply ask_apply_remote in Hcommit.
  assert (Hh : handled op (es_conn s')); [|split; [apply Hh|by right]].
  eapply handled_forward; [|exact Hcommit]. eapply process_forward; [|exact Heq].
  apply traced_bind; [by apply traced_repair|]. intros v. by apply traced_settle.
Qed.

(** C3: Handling a pushed operation, whatever the other tasks, the peers, the disk
    and the kernel do meanwhile: the store is moved only by the other tasks'
    commands and by this operation's own, so no mark is ever lost, and when
    the handler returns, which is when the operation is acknowledged, the
    operation is durably recorded as handled: either the store said so when
    asked first, or it was committed with the cursor at or past its sequence
    number. A crash or an error at any point never acknowledges. *)
Theorem process_remote_op_durable (op : OpRecord) (s : EngineState) :
  let '(s', r) := Engine.process_remote_op cfg op s in
  (∃ cmds, es_store s' = run_store (ec_node_id cfg) (es_store s) cmds ∧
     Forall (λ cmd, foreign s cmd ∨ op_cmd op cmd) cmds) ∧
  forward (es_conn s) (es_conn s') ∧
  (r = Done () →
     Oplog.has_applied (es_conn s') (op_op_id op) = true ∧
     (Oplog.has_applied (es_conn (arrive s)) (op_op_id op) = true ∨ handled op (es_conn s'))).
Proof. apply process_remote_op_spec. Qed.
End durable.
