(* ===== verification/EngineLive.v ===== *)
(** * Whole runs of the engine

    From the origin's file to the receiver's disk and index, undisturbed; and
    what becomes of operations that cannot be applied. *)

From S2P Require Import Prelude Vv Decide Metadata Conflict ConflictProofs State Oplog OplogProofs StoreProps Marks.
From S2P Require Import Suppress Merkle Chunk Proto Fs Apply ApplyProofs ApplyLive Peer Fetch Engine EngineProofs.

Lemma eng_step {E A B} (m : Eng E A) (f : A → Eng E B) s s1 a : m s = (s1, Done a) → (m ≫= f) s = f a s1.
Proof. unfold mbind, eng_bind. by intros ->. Qed.

Lemma set_store_id s : set_store (es_store s) s = s.
Proof. by destruct s. Qed.

Section quiet.
Context `{!Blake3, !Bincode, !Hex, !Scan, !HashIter} (cfg : EngineCfg).

Lemma await_quiet {E A} (f : Turn → Eng E A) s : es_turns s = [] → Engine.await cfg f s = f quiet_turn s.
Proof. unfold Engine.await. by intros ->. Qed.

(** A request that only reads, on an undisturbed engine. *)
Lemma ask_read {E A} `{!ErrFrom StoreError E} cmd (proj : Reply → option (result StoreError A)) s r a :
  es_turns s = [] → store_step (ec_node_id cfg) (es_store s) cmd = (es_store s, r) → proj r = Some (Ok a) →
  Engine.ask cfg (E := E) cmd proj s = (s, Done a).
Proof.
  intros Ht Hst Hp. unfold Engine.ask. rewrite await_quiet by done. cbn [tu_fault quiet_turn]. rewrite Hst, Hp.
  by rewrite set_store_id.
Qed.

Lemma obtain_quiet h origin s c m :
  es_turns s = [] → Fetch.obtain_manifest (es_conn s) (es_conns s) h origin (Engine.fetch_limits cfg) = (c, Ok m) →
  Engine.obtain_manifest cfg (E := NetError) h origin s = (set_conn c s, Done m).
Proof. intros Ht Ho. unfold Engine.obtain_manifest. rewrite await_quiet by done. by rewrite Ho. Qed.

Lemma fetch_quiet m origin s cas :
  es_turns s = [] →
  Fetch.fetch_file_chunks (h_cas (es_host s)) (es_conns s) origin (Engine.fetch_limits cfg) (tu_finish quiet_turn) m = (cas, Ok ()) →
  Engine.fetch_file_chunks cfg (E := NetError) m origin s = (set_host (set_cas cas (es_host s)) s, Done ()).
Proof. intros Ht Ho. unfold Engine.fetch_file_chunks. rewrite await_quiet by done. by rewrite Ho. Qed.

Lemma blocking_quiet {A} (m : Turn → Op ApplyError A) s h a :
  es_turns s = [] → m quiet_turn (es_host s) = (h, Done a) →
  Engine.blocking cfg (E := NetError) m s = (set_host h s, Done a).
Proof. intros Ht Hm. unfold Engine.blocking. rewrite await_quiet by done. by rewrite Hm. Qed.

Lemma commit_quiet op d s c' eff :
  es_turns s = [] → Oplog.apply_remote (es_conn s) op d = (c', Ok eff) →
  Engine.apply_remote cfg (E := NetError) op d s = (set_conn c' s, Done eff).
Proof.
  intros Ht Hap. unfold Engine.apply_remote, Engine.ask. rewrite await_quiet by done. cbn [tu_fault quiet_turn store_step].
  fold (es_conn s). by rewrite Hap.
Qed.

(** An operation that is new and follows what the index holds: materialize,
    commit, repair. *)
Lemma process_quiet op s local s1 r s2 d :
  es_turns s = [] → Oplog.has_applied (es_conn s) (op_op_id op) = false →
  State.load_file (es_conn s) (op_path op) = Ok local → decide_op local (op_vv op) = Decision.Apply →
  Engine.materialize cfg op local s = (s1, r) →
  match r with
  | Done _ => s2 = s1 ∧ d = Decision.Apply
  | Fail e => is_permanent e = true ∧ s2 = count_apply_error s1 ∧ d = Decision.Quarantined
  | Crashed => False
  end →
  Engine.process_remote_op cfg op s =
    (effective ← Engine.apply_remote cfg op d;
     Engine.repair_downgrade cfg op d effective;; Engine.settle_source cfg op d) s2.
Proof.
  intros Ht Hnew Hload Hdec Hmat Hr.
  assert (Hdm : Engine.decide_and_materialize cfg op s = (s2, Done d)).
  { unfold Engine.decide_and_materialize. erewrite (eng_step _ _ s s local).
    - cbv zeta. rewrite Hdec. rewrite bool_decide_true by done. destruct r as [[]|e|]; [| |done].
      + destruct Hr as [-> ->]. rewrite (eng_step _ _ s s1 (Ok ())); [done|]. unfold attempt. by rewrite Hmat.
      + destruct Hr as (Hp & -> & ->). rewrite (eng_step _ _ s s1 (Err e)); [by rewrite Hp|]. unfold attempt. by rewrite Hmat.
    - eapply ask_read; [done|done|]. exact (f_equal Some Hload). }
  unfold Engine.process_remote_op. erewrite (eng_step _ _ s s false); [|eapply ask_read; [done|done|exact (f_equal (λ b, Some (Ok b)) Hnew)]].
  rewrite (eng_step _ _ _ _ _ Hdm). rewrite bool_decide_false; [done|]. destruct r as [[]|e|]; naive_solver.
Qed.

Lemma clear_way_set_cas cas h comps : clear_way h comps → clear_way (set_cas cas h) comps.
Proof. intros [Hf [Hr Hd Hl Hn] Hp Hde]. by repeat split. Qed.

Lemma quiet_finish_perm l : (tu_finish quiet_turn l).*1 ≡ₚ l.
Proof. cbn. rewrite <- list_fmap_compose. simpl. by rewrite list_fmap_id. Qed.
Lemma quiet_finish_runs l : Forall (λ t, t.2 = Fetch.Runs None) (tu_finish quiet_turn l).
Proof. cbn. rewrite Forall_fmap. by apply Forall_forall. Qed.
End quiet.

(** ** A pushed write lands *)

Section lands.
Context `{!Blake3, !Bincode, !BincodeLaws, !Hex, !Scan, !HashIter, !Cdc, !CdcLaws} (cfg : EngineCfg).

(** The origin's connection is registered first, and behind it is a node that
    chunked [data] into its verified store and holds the manifest; the sizes
    respect both sides' limits. *)
Inductive serves (conns : ConnRegistry) (origin : NodeId) (params : ChunkParams) (data : list byte) (m : Manifest) : Prop :=
| Serves id rest db_o cas_o cas_o' cmax :
    cas_ok cas_o → pieces_separate cas_o (stream_cdc params data) →
    chunk_file_into_cas cas_o params (Ok data) None [] = (cas_o', Ok m) →
    State.manifest_for db_o (blake3 data) = Ok (Some m) →
    conns !! origin = Some (Fetch.honest_conn id db_o cas_o' cmax :: rest) →
    Forall (λ p, 0 < Z.of_nat (length p) ≤ Z.min cmax (ec_chunk_max_bytes cfg)) (stream_cdc params data) →
    Z.of_nat (length (stream_cdc params data)) ≤ Z.min (max_manifest_chunks (Engine.fetch_limits cfg)) (u32_modulus - 1) →
    total_len m ≤ ec_max_file_bytes cfg →
    serves conns origin params data m.

(** The receiver's stores verify and hold nothing that contradicts [data]. *)
Record receptive (s : EngineState) (params : ChunkParams) (data : list byte) (m : Manifest) : Prop := {
  re_file : 0 ≤ ec_max_file_bytes cfg ≤ u64_modulus - u32_modulus;
  re_chunk : ec_chunk_max_bytes cfg < u32_modulus;
  re_cas : cas_ok (h_cas (es_host s));
  re_separate : pieces_separate (h_cas (es_host s)) (stream_cdc params data);
  re_residue : residue (es_conn s) m;
}.

Lemma obtain_effect db reg h origin limits :
  (Fetch.obtain_manifest db reg h origin limits).1 = db ∨ ∃ m, (Fetch.obtain_manifest db reg h origin limits).1 = State.put_manifest db m.
Proof.
  unfold Fetch.obtain_manifest. destruct (State.manifest_for db h) as [[m|]|e]; [by left| |by left].
  destruct (ConnRegistry.candidates reg origin); [by left|]. apply manifest_candidates_effect.
Qed.

Lemma fetch_and_assemble_lands op params data m s comps :
  es_turns s = [] → serves (es_conns s) (op_origin op) params data m → receptive s params data m →
  Apply.safe_dest (op_path op) = Ok comps → clear_way (es_host s) comps → meta_plain (op_meta op) →
  ∃ s', Engine.fetch_and_assemble cfg op (blake3 data) s = (s', Done ()) ∧
    es_turns s' = [] ∧ (es_conn s' = es_conn s ∨ ∃ m, es_conn s' = State.put_manifest (es_conn s) m) ∧
    h_world (es_host s') !! dest_path (es_host s) comps =
      Some (Reg data (file_attr (op_mode op) (op_meta op) (ec_owner_policy cfg) (h_new (es_host s)))).
Proof.
  intros Ht [id rest db_o cas_o cas_o' cmax Hoko Hsepo Hcut Hdb Hreg Hsizes Hcount Htotal] [Hfile Hchunk Hokr Hsepr Hres] Hs Hclear Hmeta.
  pose proof (transfer_end_to_end (Engine.fetch_limits cfg) (es_conns s) (op_origin op) rest id cmax params data cas_o cas_o' db_o m
    (h_cas (es_host s)) (es_conn s) (tu_finish quiet_turn) Hfile Hchunk Hoko Hsepo Hcut Hdb Hreg Hsizes Hcount Htotal Hokr Hsepr Hres
    quiet_finish_perm quiet_finish_runs) as Htransfer.
  pose proof (obtain_effect (es_conn s) (es_conns s) (blake3 data) (op_origin op) (Engine.fetch_limits cfg)) as Heff.
  destruct (Fetch.obtain_manifest _ _ _ _ _) as [db' got] eqn:Ho. destruct (Fetch.fetch_file_chunks _ _ _ _ _ _) as [cas' fetched] eqn:Hf.
  destruct Htransfer as (-> & _ & -> & _ & Hasm). simpl in Heff.
  assert (Hmh : mf_content_hash m = blake3 data).
  { pose proof (chunk_file_spec cas_o params data [] Hoko Hsepo) as Hspec. rewrite Hcut in Hspec.
    destruct Hspec as (_ & _ & -> & _). by rewrite cdc_concat. }
  unfold Engine.fetch_and_assemble. rewrite (eng_step _ _ _ _ _ (obtain_quiet cfg _ _ s _ _ Ht Ho)).
  rewrite (eng_step _ _ _ _ _ (fetch_quiet cfg m (op_origin op) (set_conn db' s) cas' Ht Hf)).
  set (s2 := set_host _ _).
  destruct (apply_assembled_complete (op_path op) (op_mode op) (blake3 data) m [] None (op_meta op) (ec_owner_policy cfg)
    (set_cas cas' (es_host s)) comps data cas') as (h' & Happ & Hw); [done|by apply clear_way_set_cas|done|done|done|done|].
  unfold Engine.apply_version. rewrite (blocking_quiet cfg _ s2 h' ()).
  - eexists. split; [done|]. split; [done|]. split; [|exact Hw]. destruct Heff as [Hdb'|[m' Hdb']]; [by left|right; by exists m'].
  - done.
  - unfold Apply.apply_version, meta_plain in *. destruct (op_meta op) as [mt|]; [|done]. cbn. destruct Hmeta as [-> _]. done.
Qed.

(** C4: A file written at its origin, pushed as an operation that causally follows
    what the receiver has, arrives: undisturbed and let through by pause gate
    and free-space guard, with the origin's connection registered and nothing
    in the way on the share, handling the operation
    returns; afterwards the index holds exactly the operation's row, the
    operation is durably recorded, and the file is on the disk with the bytes
    it has at the origin and the operation's mode and metadata. *)
Theorem pushed_write_lands op params data m s comps local :
  es_turns s = [] → conn_wf (es_conn s) → op_typed op → Oplog.has_applied (es_conn s) (op_op_id op) = false →
  op_op_type op = OpType.Write → op_path_old op = None → op_content_hash op = Some (blake3 data) → op_size op ≤ ec_max_file_bytes cfg →
  State.load_row (es_conn s) (op_path op) = Ok local → decide_op (local_of <$> local) (op_vv op) = Decision.Apply →
  Engine.holds_content (local_of <$> local) (blake3 data) = false →
  serves (es_conns s) (op_origin op) params data m → receptive s params data m →
  Apply.safe_dest (op_path op) = Ok comps → clear_way (es_host s) comps → meta_plain (op_meta op) →
  ∃ s', Engine.process_remote_op cfg op s = (s', Done ()) ∧
    State.load_row (es_conn s') (op_path op) = Ok (Some (remote_row op)) ∧ handled op (es_conn s') ∧
    h_world (es_host s') !! dest_path (es_host s) comps =
      Some (Reg data (file_attr (op_mode op) (op_meta op) (ec_owner_policy cfg) (h_new (es_host s)))).
Proof.
  intros Ht Hc Hop Hnew Hty Hold Hch Hsize Hrow Hdec Hhold Hserves Hrec Hs Hclear Hmeta.
  pose proof (load_file_row _ _ _ (cw_files _ Hc) Hrow) as Hload.
  destruct (fetch_and_assemble_lands op params data m s comps Ht Hserves Hrec Hs Hclear Hmeta) as (s2 & Hfa & Ht2 & Hc2 & Hw).
  assert (Hmat : Engine.materialize cfg op (local_of <$> local) s = (s2, Done ())).
  { unfold Engine.materialize. rewrite Hty. unfold Engine.materialize_write. rewrite bool_decide_false; [|].
    - rewrite Hch. rewrite (eng_step (of_opt _ _) _ s s (blake3 data)) by done. rewrite Hhold. cbn [negb].
      unfold Engine.fetch_bounded. rewrite bool_decide_false by lia. done.
    - unfold Engine.kind_or_regular, meta_plain in *. destruct (op_meta op) as [mt|]; simpl; [destruct Hmeta as [-> _]|]; intros Hne; by apply Hne. }
  rewrite (process_quiet cfg op s _ s2 (Done ()) s2 Decision.Apply Ht Hnew Hload Hdec Hmat) by done.
  assert (Hrows : State.load_row (es_conn s2) (op_path op) = Ok local ∧ conn_wf (es_conn s2) ∧ Oplog.has_applied (es_conn s2) (op_op_id op) = false).
  { destruct Hc2 as [-> |[m' ->]]; [done|]. split; [by rewrite <- Hrow; apply load_row_ext|]. split; [by apply conn_wf_put_manifest|done]. }
  destruct Hrows as (Hrow2 & Hwf2 & Hnew2).
  destruct (apply_remote_spec (es_conn s2) op Decision.Apply) as (local' & c' & Hl' & Hap & Hpath & _ & _ & Hdone & Hcur); [done|done|done|by rewrite Hty..|].
  rewrite Hrow2 in Hl'. injection Hl' as <-. cbv zeta in Hap, Hpath.
  rewrite (bool_decide_true (Decision.Apply = Decision.Apply)), Hdec in Hap, Hpath by done. rewrite bool_decide_true in Hpath by done.
  rewrite (eng_step _ _ _ _ _ (commit_quiet cfg op _ s2 c' _ Ht2 Hap)). unfold Engine.repair_downgrade.
  rewrite bool_decide_false by naive_solver. rewrite (eng_step (mret ()) _ _ (set_conn c' s2) ()) by done.
  unfold Engine.settle_source. rewrite bool_decide_false by (rewrite Hty; naive_solver).
  eexists. split; [done|]. split_and!; done.
Qed.
End lands.

(** ** Operations that cannot be applied *)

Section poison.
Context `{!Blake3, !Bincode, !BincodeLaws, !Hex, !Scan, !HashIter} (cfg : EngineCfg).

(** Reads and recorded manifests leave the index, the log and the marks. *)
Record same_index (c c' : Conn) : Prop := {
  si_files : t_files c' = t_files c;
  si_oplog : t_oplog c' = t_oplog c;
  si_applied : t_applied c' = t_applied c;
  si_wf : conn_wf c → conn_wf c';
}.

#[export] Instance same_index_preorder : PreOrder same_index.
Proof. split; [by split|]. intros c1 c2 c3 [Hf1 Ho1 Ha1 Hw1] [Hf2 Ho2 Ha2 Hw2]. split; [congruence..|auto]. Qed.

Lemma harmless_run node st cmds : Forall harmless cmds → same_index (ss_conn st) (ss_conn (run_store node st cmds)).
Proof.
  intros Hh. revert st. induction Hh as [|cmd cmds Hc Hh IH]; intros st; [done|].
  change (run_store node st (cmd :: cmds)) with (run_store node (store_step node st cmd).1 cmds).
  etrans; [|apply IH]. destruct cmd; try done. cbn. split; [done..|]. apply conn_wf_put_manifest.
Qed.

Lemma harmless_quiet {E A} (m : Eng E A) s s' r :
  traced cfg harmless m → es_turns s = [] → m s = (s', r) →
  es_turns s' = [] ∧ same_index (es_conn s) (es_conn s').
Proof.
  intros Hm Ht Heq. specialize (Hm s). unfold turns_meet in Hm. rewrite Ht, Heq in Hm.
  destruct Hm as (Hsuf & cmds & Hst & Hh); [constructor|]. split; [by apply suffix_nil_inv|].
  unfold es_conn. rewrite Hst. by apply harmless_run.
Qed.

Lemma same_index_row c c' p : same_index c c' → State.load_row c' p = State.load_row c p.
Proof. intros [Hf _ _ _]. by apply load_row_ext. Qed.

(** C25: An operation whose content can never be had (too big, unavailable
    everywhere, not verifying, an unsafe path, a directory in the way) does
    not stop the stream: handling it returns, it is durably recorded and
    counted, and no row of the index moves, so that a later operation can
    supersede it. The operation is a write or a delete not handled before, with fields in
    the range of their types, that supersedes the row at its path; its
    materialisation fails with a permanent error, and no other task of the
    node runs in between. A rename is left out: the code tombstones its source
    although it quarantines it ([quarantined_rename_loses_source]). *)
Theorem permanent_failure_quarantined op s s1 local e :
  es_turns s = [] → conn_wf (es_conn s) → op_typed op → Oplog.has_applied (es_conn s) (op_op_id op) = false →
  op_op_type op ≠ OpType.Rename →
  State.load_row (es_conn s) (op_path op) = Ok local → decide_op (local_of <$> local) (op_vv op) = Decision.Apply →
  Engine.materialize cfg op (local_of <$> local) s = (s1, Fail e) → is_permanent e = true →
  ∃ s', Engine.process_remote_op cfg op s = (s', Done ()) ∧
    handled op (es_conn s') ∧ es_apply_errors s' = u64_add (es_apply_errors s1) 1 ∧ es_host s' = es_host s1 ∧
    ∀ p, State.load_row (es_conn s') p = State.load_row (es_conn s) p.
Proof.
  intros Ht Hc Hop Hnew Hren Hrow Hdec Hmat Hperm.
  pose proof (load_file_row _ _ _ (cw_files _ Hc) Hrow) as Hload.
  destruct (harmless_quiet _ _ _ _ (traced_materialize cfg harmless (λ _ Hh, Hh) op _) Ht Hmat) as [Ht1 Hsame].
  set (s2 := count_apply_error s1).
  rewrite (process_quiet cfg op s _ s1 (Fail e) s2 Decision.Quarantined Ht Hnew Hload Hdec Hmat) by done.
  change (es_conn s1) with (es_conn s2) in Hsame.
  assert (Hnew2 : Oplog.has_applied (es_conn s2) (op_op_id op) = false).
  { unfold Oplog.has_applied. by rewrite (si_applied _ _ Hsame). }
  destruct (apply_remote_spec (es_conn s2) op Decision.Quarantined) as (local' & c' & Hl' & Hap & Hpath & _ & Hother & Hdone & Hcur);
    [by apply Hsame|done..|].
  cbv zeta in Hap, Hpath. rewrite !bool_decide_false in Hap, Hpath by done.
  set (s3 := set_conn c' s2). rewrite (eng_step _ _ _ _ _ (commit_quiet cfg op _ s2 c' _ Ht1 Hap)).
  unfold Engine.repair_downgrade. rewrite bool_decide_false by naive_solver.
  rewrite (eng_step (mret ()) _ s3 s3 ()) by done. unfold Engine.settle_source. rewrite bool_decide_false by naive_solver.
  exists s3. split; [done|]. split; [done|]. split; [done|]. split; [done|].
  intros p. change (es_conn s3) with c'. destruct (decide (p = op_path op)) as [->|Hpp].
  - rewrite Hpath, <- Hl'. by apply same_index_row.
  - rewrite Hother by done. by apply same_index_row.
Qed.

(** An operation that carries the identity of one already handled is
    acknowledged without a look at its origin, its sequence number or its
    content. *)
Lemma known_identity_is_acknowledged op s :
  es_turns s = [] → Oplog.has_applied (es_conn s) (op_op_id op) = true →
  Engine.process_remote_op cfg op s = (s, Done ()).
Proof.
  intros Ht Hap. unfold Engine.process_remote_op. erewrite (eng_step _ _ s s true); [done|].
  eapply ask_read; [done|done|]. exact (f_equal (λ b, Some (Ok b)) Hap).
Qed.
End poison.

(** ** Repair *)

Section repair.
Context `{!Blake3, !Bincode, !BincodeLaws, !Hex, !Scan, !HashIter} (cfg : EngineCfg).

(** What the index says should be at the path. *)
Definition on_disk (row : option FileRow) (data : list byte) (new : Attr) : option Node :=
  match row with
  | Some r => if fr_tombstone r then None
      else Some (Reg data (file_attr (fr_mode r) (fr_meta r) OwnerPolicy.Numeric new))
  | None => None
  end.

(** The content of a live regular row is held locally. *)
Definition held (s : EngineState) (row : option FileRow) (data : list byte) : Prop :=
  match row with
  | Some r => fr_tombstone r = false →
      meta_plain (fr_meta r) ∧ fr_content_hash r = Some (blake3 data) ∧
      ∃ chunks, State.manifest_for (es_conn s) (blake3 data) = Ok (Some (mkManifest (blake3 data) chunks)) ∧
        @concat byte <$> mapM (chunk_bytes_of (h_cas (es_host s))) chunks = Some data
  | None => True
  end.

Lemma assemble_held cas h chunks data :
  @concat byte <$> mapM (chunk_bytes_of cas) chunks = Some data →
  assemble_from_cas cas (mkManifest h chunks) [] None = (cas, Ok (data, blake3 data)).
Proof.
  intros Hm. pose proof (assemble_from_cas_spec cas (mkManifest h chunks) [] None) as Ha. cbn [mf_chunks] in Ha.
  destruct (mapM _ chunks) as [pieces|]; [|done]. simpl in Hm. injection Hm as <-.
  destruct (assemble_from_cas _ _ _ _) as [cas' [[d h']|e]].
  - by destruct Ha as (_ & -> & -> & [= <-]).
  - by destruct Ha as (_ & [?|[[]|(ev & ?%not_elem_of_nil & _)]]).
Qed.

(** Undisturbed repair makes the disk agree with the index: a live file is
    written back with the bytes of its row, and where the index holds a
    tombstone or nothing the file is removed. The index does not change. *)
Theorem restore_matches_index {E} path comps row data s :
  es_turns s = [] → State.load_row (es_conn s) path = Ok row → held s row data →
  Apply.safe_dest path = Ok comps → clear_way (es_host s) comps → parents_there (es_host s) comps →
  ∃ s', Engine.restore_local_content cfg (E := E) path s = (s', Done ()) ∧ es_conn s' = es_conn s ∧
    h_world (es_host s') !! dest_path (es_host s) comps = on_disk row data (h_new (es_host s)).
Proof.
  intros Ht Hrow Hheld Hs Hclear Hthere.
  assert (Hgone : on_disk row data (h_new (es_host s)) = None →
    ∃ s', Engine.apply_delete cfg (E := ReconcileError) path s = (s', Done ()) ∧ es_conn s' = es_conn s ∧
      h_world (es_host s') !! dest_path (es_host s) comps = on_disk row data (h_new (es_host s))).
  { intros ->. destruct (apply_delete_complete path comps (es_host s)) as (h' & Hdel & Hw); [apply Hclear|done|done|apply Hclear|].
    exists (set_host h' s). split; [|split; [done|cbn; rewrite Hw; apply lookup_delete_eq]].
    unfold Engine.apply_delete, Engine.blocking. rewrite await_quiet by done. by rewrite Hdel. }
  assert (Hrest : ∀ (inner : Eng ReconcileError unit), (∃ s', inner s = (s', Done ()) ∧ es_conn s' = es_conn s ∧
      h_world (es_host s') !! dest_path (es_host s) comps = on_disk row data (h_new (es_host s))) →
    ∃ s', (_ ← attempt (F := E) inner; mret ()) s = (s', Done ()) ∧ es_conn s' = es_conn s ∧
      h_world (es_host s') !! dest_path (es_host s) comps = on_disk row data (h_new (es_host s))).
  { intros inner (s' & Hin & Hrest). exists s'. split; [|done]. rewrite (eng_step _ _ s s' (Ok ())); [done|]. unfold attempt. by rewrite Hin. }
  unfold Engine.restore_local_content. apply Hrest.
  rewrite (eng_step _ _ s s row); [|eapply ask_read; [done|done|exact (f_equal Some Hrow)]].
  destruct row as [r|]; [|by apply Hgone]. cbn [on_disk] in *. destruct (fr_tombstone r) eqn:Htomb; [by apply Hgone|].
  destruct (Hheld Htomb) as (Hmeta & Hhash & chunks & Hman & Hbytes). rewrite Hhash. cbv zeta.
  rewrite bool_decide_true by (unfold Engine.kind_or_regular, meta_plain in *; destruct (fr_meta r); [apply Hmeta|done]).
  rewrite (eng_step _ _ s s (Some (mkManifest (blake3 data) chunks))).
  2:{ rewrite (eng_step _ _ s s (Some (mkManifest (blake3 data) chunks))); [done|].
      eapply ask_read; [done|done|exact (f_equal Some Hman)]. }
  destruct (apply_assembled_complete path (fr_mode r) (blake3 data) (mkManifest (blake3 data) chunks) [] None (fr_meta r)
    OwnerPolicy.Numeric (es_host s) comps data (h_cas (es_host s))) as (h' & Happ & Hw); [done..|by apply assemble_held|done|].
  exists (set_host h' s). split; [|done]. unfold Engine.apply_version, Engine.blocking. rewrite await_quiet by done.
  unfold Apply.apply_version, meta_plain in *. cbn [tu_io tu_trunc quiet_turn].
  destruct (fr_meta r) as [mt|]; cbn; [destruct Hmeta as [-> _]|]; by rewrite Happ.
Qed.
End repair.

(** ** Resolution *)

Section resolution.
Context `{!Blake3, !Bincode, !BincodeLaws, !Hex, !Scan, !HashIter} (cfg : EngineCfg).

(** The plan is a function of the index and the log: offered back on the same
    ones it is committed. *)
Lemma stale_plan_commits c c2 path remote plan :
  Oplog.resolve_rows c path remote [] = (c, Ok (ResolveOutcome.Stale plan)) →
  same_index c c2 → conn_wf c2 →
  ∃ c3, Oplog.resolve_rows c2 path remote plan = (c3, Ok ResolveOutcome.Resolved) ∧ Oplog.upsert_rows c2 plan = Ok c3.
Proof.
  intros Hstale [Hf Ho _ _] Hwf.
  assert (Hlk : Oplog.lookup_version c2 = Oplog.lookup_version c).
  { unfold Oplog.lookup_version, State.load_row. by rewrite Hf. }
  assert (Hrow : State.load_row c2 path = State.load_row c path) by (unfold State.load_row; by rewrite Hf).
  assert (Hops : Oplog.ops_as_candidates c2 path = Oplog.ops_as_candidates c path).
  { unfold Oplog.ops_as_candidates. by rewrite Ho. }
  destruct (resolve_no_err c2 path remote plan Hwf) as [o Hok]. revert Hok.
  unfold Oplog.resolve_rows, run_tx in *. rewrite Hlk, Hrow, Hops.
  destruct (State.load_row c path) as [lr|e]; [|done]. cbn [mbind result_bind] in *. cbv zeta in *.
  case_bool_decide; [done|]. destruct lr as [lr|]; [|done].
  destruct (Oplog.ops_as_candidates c path) as [ops|e]; [|done]. cbn [mbind result_bind] in *.
  destruct (Resolve.plan_candidates _ _ _) as [[derived|]|e]; [|done..]. cbn [mbind result_bind] in *.
  rewrite bool_decide_true in Hstale.
  - injection Hstale as ->. rewrite bool_decide_false by (intros Hn; by apply Hn).
    destruct (Oplog.upsert_rows c2 plan) as [c3|e]; [|done]. intros _. by exists c3.
  - intros ->. rewrite bool_decide_false in Hstale by (intros Hn; by apply Hn). done.
Qed.

Lemma resolve_quiet path remote staged s c o :
  es_turns s = [] → Oplog.resolve_rows (es_conn s) path remote staged = (c, Ok o) →
  Engine.resolve_rows cfg (E := NetError) path remote staged s = (set_conn c s, Done o).
Proof.
  intros Ht Hr. unfold Engine.resolve_rows, Engine.ask. rewrite await_quiet by done. cbn [tu_fault quiet_turn store_step].
  fold (es_conn s). by rewrite Hr.
Qed.

(** An undisturbed conflict is settled in two rounds: the store derives the
    plan, its contents are staged, and the same plan, offered back, is
    committed, every row of it and nothing else; what was staged stays on the
    disk. *)
Theorem undisturbed_conflict_resolves path remote origin plan paths s s2 :
  es_turns s = [] → conn_wf (es_conn s) →
  Oplog.resolve_rows (es_conn s) path remote [] = (es_conn s, Ok (ResolveOutcome.Stale plan)) →
  Engine.stage_plan cfg plan origin [] s = (s2, Done (Engine.Staged paths)) →
  ∃ c, Engine.resolve_concurrent_at cfg path remote origin s = (set_conn c s2, Done ()) ∧
    Oplog.upsert_rows (es_conn s2) plan = Ok c ∧ same_index (es_conn s) (es_conn s2).
Proof.
  intros Ht Hwf Hstale Hstage.
  destruct (harmless_quiet cfg _ _ _ _ (traced_stage_plan cfg harmless (λ _ Hh, Hh) plan origin []) Ht Hstage) as [Ht2 Hsame].
  destruct (stale_plan_commits _ (es_conn s2) path remote plan Hstale Hsame) as (c & Hcommit & Hup); [by apply Hsame|].
  exists c. split; [|done]. unfold Engine.resolve_concurrent_at. cbn [Engine.RESOLVE_ROUNDS Engine.resolve_loop].
  rewrite (eng_step _ _ _ _ _ (resolve_quiet path remote [] s _ _ Ht Hstale)).
  replace (set_conn (es_conn s) s) with s by (by destruct s as [[] ]).
  rewrite (eng_step _ _ _ _ _ Hstage). by rewrite (eng_step _ _ _ _ _ (resolve_quiet path remote plan s2 _ _ Ht2 Hcommit)).
Qed.
End resolution.
