(* ===== verification/EngineWitness.v ===== *)
(** * Concrete runs of the engine

    The engine's properties on a small share, and runs that show what it does
    to operations the design did not expect. *)

From S2P Require Import Prelude Vv Decide Metadata Conflict ConflictProofs State Oplog OplogProofs StoreProps Marks StoreWitness.
From S2P Require Import Suppress Merkle Chunk Proto Fs Apply ApplyProofs ApplyLive Peer Fetch Engine EngineProofs EngineLive.
Import Ex StateEx.

#[local] Existing Instance toy_cdc.
#[local] Existing Instance toy_cdc_laws.

Definition ex_cfg : EngineCfg := mkEngineCfg node_b 100 8 4 OwnerPolicy.Skip.
Definition rx_host : Host :=
  mkHost (<[["s"; "old"] := Reg ex_bytes ex_attr]> ex_world) ["s"] ∅ toy_store 42 0 100 ex_attr 0 [].
Definition rx_state (c : Conn) : EngineState := mkEngineState (mkStoreState c 0) rx_host ex_conns 0 0 [].
Definition rx_op (t : OpType) (path : string) (old : option string) (size : Z) : OpRecord :=
  mkOpRecord (Oplog.op_id node_a 1) node_a 1 t path old None 420 size (Some (blake3 ex_data)) None {[ node_a := 2 ]}.

Lemma rx_op_typed t path old size : 0 ≤ size < 1000 → op_typed (rx_op t path old size).
Proof.
  intros Hs. split_and!; [by apply in_u32_small|by apply in_u64_small| |done].
  apply map_Forall_singleton. unfold in_u64, u64_modulus. simpl. lia.
Qed.

Lemma rx_clear : clear_way rx_host ["a"; "b"].
Proof.
  split; [done| | |].
  - split; [by repeat constructor|apply ex_dirs; reflexivity| |reflexivity].
    intros k Hk. simpl in Hk. assert (k = 1%nat) as -> by lia. intros (t & a & Hl). vm_compute in Hl. discriminate.
  - intros k Hk. simpl in Hk. assert (k = 1%nat) as -> by lia. left. reflexivity.
  - vm_compute. discriminate.
Qed.

Lemma ex_separate : pieces_separate toy_store (stream_cdc toy_params ex_data).
Proof. unfold pieces_separate, toy_store. rewrite map_to_list_singleton. simpl. repeat constructor; vm_compute; congruence. Qed.

Lemma rx_serves : serves ex_cfg ex_conns node_a toy_params ex_data ex_sent_manifest.
Proof.
  apply (Serves _ _ _ _ _ _ 1 [ex_liar] ex_origin_db toy_store ex_sent.1 8); try exact ex_separate; try exact toy_store_ok.
  - apply ex_sent_eq.
  - apply ex_origin_manifest.
  - reflexivity.
  - simpl. repeat apply Forall_cons_2; [simpl; lia..|constructor].
  - vm_compute. congruence.
  - vm_compute. congruence.
Qed.

Lemma rx_receptive : receptive ex_cfg (rx_state empty_conn) toy_params ex_data ex_sent_manifest.
Proof.
  split; [simpl; unfold u64_modulus, u32_modulus; lia|simpl; unfold u32_modulus; lia|exact toy_store_ok|exact ex_separate|].
  split; intros *; vm_compute; done.
Qed.

Lemma pushed_write_lands_witness :
  ∃ s', Engine.process_remote_op ex_cfg (rx_op OpType.Write "a/b" None 3) (rx_state empty_conn) = (s', Done ()) ∧
    State.load_row (es_conn s') "a/b" = Ok (Some (remote_row (rx_op OpType.Write "a/b" None 3))) ∧
    handled (rx_op OpType.Write "a/b" None 3) (es_conn s') ∧
    h_world (es_host s') !! ["s"; "a"; "b"] = Some (Reg ex_data (file_attr 420 None OwnerPolicy.Skip ex_attr)).
Proof.
  apply (pushed_write_lands ex_cfg (rx_op OpType.Write "a/b" None 3) toy_params ex_data ex_sent_manifest (rx_state empty_conn) ["a"; "b"] None).
  - reflexivity.
  - apply conn0_wf.
  - by apply rx_op_typed.
  - reflexivity.
  - reflexivity.
  - reflexivity.
  - reflexivity.
  - simpl. lia.
  - reflexivity.
  - reflexivity.
  - reflexivity.
  - exact rx_serves.
  - exact rx_receptive.
  - reflexivity.
  - exact rx_clear.
  - exact I.
Defined.

Definition rx_big : OpRecord := rx_op OpType.Write "a/b" None 200.

Lemma permanent_failure_quarantined_witness :
  ∃ s', Engine.process_remote_op ex_cfg rx_big (rx_state empty_conn) = (s', Done ()) ∧
    handled rx_big (es_conn s') ∧ es_apply_errors s' = 1 ∧ es_host s' = rx_host ∧
    ∀ p, State.load_row (es_conn s') p = State.load_row empty_conn p.
Proof.
  apply (permanent_failure_quarantined ex_cfg rx_big (rx_state empty_conn) (rx_state empty_conn) None NetError.TooBig).
  - reflexivity.
  - apply conn0_wf.
  - by apply rx_op_typed.
  - reflexivity.
  - discriminate.
  - reflexivity.
  - reflexivity.
  - reflexivity.
  - reflexivity.
Defined.

(** A live row whose file was clobbered. *)
Definition lost_row : FileRow := mkFileRow "a/b" (Some (blake3 ex_bytes)) 420 2 false ex_ab None None.
Definition lost_manifest : Manifest := mkManifest (blake3 ex_bytes) [mkChunkEntry (blake3 ex_bytes) 2].
Definition lost_conn : Conn := State.put_manifest (put_row lost_row empty_conn) lost_manifest.
Definition lost_host : Host :=
  mkHost (<[["s"; "a"] := Dir]> ex_world) ["s"] ∅ {[ blake3 ex_bytes := ex_bytes ]} 42 0 100 ex_attr 0 [].
Definition lost_state : EngineState := mkEngineState (mkStoreState lost_conn 0) lost_host ∅ 0 0 [].

Lemma lost_dirs : dirs_below (h_world lost_host) [] ["s"; "a"].
Proof.
  intros k Hk. simpl in Hk. destruct (decide (k = 1%nat)) as [->|]; [reflexivity|]. assert (k = 2%nat) as -> by lia. reflexivity.
Qed.

Lemma restore_matches_index_witness :
  ∃ s', Engine.restore_local_content ex_cfg (E := NetError) "a/b" lost_state = (s', Done ()) ∧ es_conn s' = lost_conn ∧
    h_world (es_host s') !! ["s"; "a"; "b"] = on_disk (Some lost_row) ex_bytes ex_attr.
Proof.
  apply (restore_matches_index ex_cfg "a/b" ["a"; "b"] (Some lost_row) ex_bytes lost_state).
  - reflexivity.
  - vm_decide.
  - intros _. split; [exact I|]. split; [reflexivity|]. exists [mkChunkEntry (blake3 ex_bytes) 2]. split; vm_decide.
  - reflexivity.
  - split; [reflexivity| | |vm_compute; discriminate].
    + split; [by repeat constructor|apply ex_dirs; reflexivity| |reflexivity].
      intros k Hk. simpl in Hk. assert (k = 1%nat) as -> by lia. intros (t & a & Hl). vm_compute in Hl. discriminate.
    + intros k Hk. simpl in Hk. assert (k = 1%nat) as -> by lia. right. reflexivity.
  - split; [by repeat constructor|exact lost_dirs].
Defined.

(** A local edit against a concurrent remote delete. *)
Definition remote_gone : Version := mkVersion true None META_NONE None 0 0 {[ node_b := 1 ]} None.
Definition gone_plan : list PlannedRow :=
  match (Oplog.resolve_rows (ss_conn st1) "x" remote_gone []).2 with Ok (ResolveOutcome.Stale plan) => plan | _ => [] end.
Definition gone_state : EngineState := mkEngineState st1 rx_host ∅ 0 0 [].

Lemma gone_stale : Oplog.resolve_rows (ss_conn st1) "x" remote_gone [] = (ss_conn st1, Ok (ResolveOutcome.Stale gone_plan)).
Proof.
  assert (Hfst : (Oplog.resolve_rows (ss_conn st1) "x" remote_gone []).1 = ss_conn st1) by reflexivity.
  rewrite (surjective_pairing (Oplog.resolve_rows _ _ _ _)), Hfst. apply (f_equal (pair _)). vm_decide.
Qed.

Lemma undisturbed_conflict_resolves_witness :
  ∃ c, Engine.resolve_concurrent_at ex_cfg "x" remote_gone node_b gone_state = (set_conn c gone_state, Done ()) ∧
    Oplog.upsert_rows (ss_conn st1) gone_plan = Ok c ∧ same_index (ss_conn st1) (ss_conn st1).
Proof.
  apply (undisturbed_conflict_resolves ex_cfg "x" remote_gone node_b gone_plan [] gone_state gone_state).
  - reflexivity.
  - apply conn1_wf.
  - exact gone_stale.
  - reflexivity.
Defined.

(** ** What the engine does to unexpected operations *)

Definition old_row : FileRow := mkFileRow "old" (Some (blake3 ex_bytes)) 420 2 false {[ node_a := 1 ]} None None.
Definition old_conn : Conn := put_row old_row empty_conn.

(** A rename that is quarantined, because the file is too big to fetch, still
    tombstones its source in the index, while the source file stays on the
    disk and nothing appears at the target. *)
Lemma quarantined_rename_loses_source :
  let '(s', r) := Engine.process_remote_op ex_cfg (rx_op OpType.Rename "a/b" (Some "old") 200) (rx_state old_conn) in
  r = Done () ∧ es_apply_errors s' = 1 ∧
  (∃ row, State.load_row (es_conn s') "old" = Ok (Some row) ∧ fr_tombstone row = true) ∧
  State.load_row (es_conn s') "a/b" = Ok None ∧
  h_world (es_host s') !! ["s"; "old"] = Some (Reg ex_bytes ex_attr).
Proof.
  vm_compute. split; [reflexivity|]. split; [reflexivity|]. split; [|split; reflexivity]. eexists. split; reflexivity.
Qed.

(** A rename without its source is quarantined by the engine and then refused
    by the store as corruption: the error is not a permanent one, so the
    stream stops at this operation for good. *)
Lemma sourceless_rename_stops_the_stream :
  let '(s', r) := Engine.process_remote_op ex_cfg (rx_op OpType.Rename "a/b" None 3) (rx_state empty_conn) in
  r = Fail (NetError.Store (StoreError.Corrupt "rename op without path_old")) ∧
  is_permanent (NetError.Store (StoreError.Corrupt "rename op without path_old")) = false ∧
  Oplog.has_applied (es_conn s') (op_op_id (rx_op OpType.Rename "a/b" None 3)) = false.
Proof. vm_compute. split; [reflexivity|]. split; reflexivity. Qed.

(** Under the policy that leaves owners alone, metadata carries the owner
    0:0; the repair applies it numerically all the same. *)
Lemma restore_gives_files_to_root :
  let row := mkFileRow "a/b" (Some (blake3 ex_bytes)) 420 2 false ex_ab None
    (Some (mkMeta FileKind.Regular 420 0 0 7 0 None 0 [])) in
  let c := State.put_manifest (put_row row empty_conn) lost_manifest in
  let s := mkEngineState (mkStoreState c 0) lost_host ∅ 0 0 [] in
  let '(s', _) := Engine.restore_local_content ex_cfg (E := NetError) "a/b" s in
  ec_owner_policy ex_cfg = OwnerPolicy.Skip ∧ at_uid ex_attr = 1000 ∧
  ∃ a, h_world (es_host s') !! ["s"; "a"; "b"] = Some (Reg ex_bytes a) ∧ at_uid a = 0.
Proof. vm_compute. split; [reflexivity|]. split; [reflexivity|]. eexists. split; reflexivity. Qed.

(** A manifest is believed by its name: once a peer has answered with one of
    its own making, the origin is not asked any more. *)
Lemma lying_manifest_sticks :
  let liars : ConnRegistry := {[ node_b := [ex_liar] ]} in
  let '(db, got) := Fetch.obtain_manifest empty_conn liars (blake3 ex_data) node_b (Engine.fetch_limits ex_cfg) in
  ∃ m, got = Ok m ∧ mf_chunks m ≠ mf_chunks ex_sent_manifest ∧
    (Fetch.obtain_manifest db ex_conns (blake3 ex_data) node_a (Engine.fetch_limits ex_cfg)).2 = Ok m.
Proof.
  cbv zeta. destruct (Fetch.obtain_manifest empty_conn _ _ _ _) as [db got] eqn:Ho.
  exists (mkManifest (blake3 ex_data) (replicate 2 (mkChunkEntry (blake3 [x07]) 8))).
  assert (Hgot : got = Ok (mkManifest (blake3 ex_data) (replicate 2 (mkChunkEntry (blake3 [x07]) 8)))).
  { change got with (db, got).2. rewrite <- Ho. vm_decide. }
  split; [done|]. split; [vm_compute; discriminate|]. change db with (db, got).1. rewrite <- Ho. vm_decide.
Qed.
