(* ===== verification/Reconcile.v ===== *)
(** * Anti-entropy over a stream (src/src/net.rs)

    The frames of a reconcile session, the responder that serves a snapshot
    of its store, the puller's side of the stream, and the whole session
    [reconcile_with]. The peer's answers are inputs: the [n]-th request gets
    the [n]-th answer. *)

From S2P Require Import Prelude Vv Decide Metadata Conflict State Oplog Suppress Merkle Chunk Proto Fs Apply Peer Fetch Engine.

Module ReconcileFrame.
Inductive t : Type :=
| Begin
| RootIs (hash : hash32) (frontier : list (NodeId * Z))
| TreeReq (prefix after_name : string) (limit : Z)
| TreeResp (children : list WireChild) (more : bool)
| LeafReq (path : string)
| LeafResp (found tombstone : bool) (content_hash : option hash32) (vv : VV) (mode size : Z) (uuid : option uuid16) (meta : option Meta)
| Done.
End ReconcileFrame.
Abbreviation ReconcileFrame := ReconcileFrame.t.

(** ** The responder *)

Inductive Served : Type :=
| Reply (f : ReconcileFrame)
| Finished (r : result NetError unit).

Module Reconcile.
Section responder.
Context `{!Blake3, !Bincode}.

Definition leaf_resp (row : option FileRow) : ReconcileFrame :=
  match row with
  | Some row =>
      ReconcileFrame.LeafResp true (fr_tombstone row) (fr_content_hash row) (fr_vv row) (fr_mode row) (fr_size row) (fr_uuid row) (fr_meta row)
  | None => ReconcileFrame.LeafResp false false None VersionVector.new 0 0 None None
  end.

(** One turn of [serve_reconcile]'s loop. *)
Definition serve_frame (tree : MerkleTree) (frontier : list (NodeId * Z)) (f : result ProtoError ReconcileFrame) : Served :=
  match f with
  | Ok ReconcileFrame.Begin => Reply (ReconcileFrame.RootIs (mt_root tree) frontier)
  | Ok (ReconcileFrame.TreeReq prefix after_name limit) =>
      let '(children, more) := serve_tree_req tree prefix after_name limit in Reply (ReconcileFrame.TreeResp children more)
  | Ok (ReconcileFrame.LeafReq path) => Reply (leaf_resp (MerkleTree.leaf tree path))
  | Ok ReconcileFrame.Done | Err ProtoError.Closed => Finished (Ok ())
  | Ok _ => Finished (Err (NetError.Violation "unexpected reconcile frame"))
  | Err e => Finished (Err (NetError.Proto e))
  end.

(** The loop over the frames that arrive: the replies, and how it ended. *)
Fixpoint serve_loop (tree : MerkleTree) (frontier : list (NodeId * Z)) (frames : list (result ProtoError ReconcileFrame))
  : list ReconcileFrame * option (result NetError unit) :=
  match frames with
  | [] => ([], None)
  | f :: frames =>
      match serve_frame tree frontier f with
      | Reply r => let '(rs, e) := serve_loop tree frontier frames in (r :: rs, e)
      | Finished e => ([], Some e)
      end
  end.

(** The snapshot is read in one turn of the store. *)
Definition serve_reconcile `{!Hex, !Scan} (node : NodeId) (st : StoreState) (frames : list (result ProtoError ReconcileFrame))
  : list ReconcileFrame * option (result NetError unit) :=
  match (store_step node st SnapshotForJoin).2 with
  | RSnapshot (Ok snap) => serve_loop (MerkleTree.build (js_rows snap)) (js_frontier snap) frames
  | RSnapshot (Err e) => ([], Some (Err (NetError.Store e)))
  | _ => ([], None)
  end.
End responder.

(** ** The puller's side of the stream *)

Abbreviation Answer := (nat → ReconcileFrame → result ProtoError ReconcileFrame).

Section transport.
Context (answer : Answer).

Definition rpc (n : nat) (req : ReconcileFrame) : result ReconcileError ReconcileFrame :=
  match answer n req with Ok f => Ok f | Err e => Err (ReconcileError.Proto e) end.

Definition root (n : nat) : result ReconcileError (hash32 * list (NodeId * Z)) :=
  f ← rpc n ReconcileFrame.Begin;
  match f with
  | ReconcileFrame.RootIs hash frontier => Ok (hash, frontier)
  | _ => Err (ReconcileError.Violation "expected RootIs")
  end.

(** The requests a listing took, and the listing; [None] when the fuel ran
    out. *)
Fixpoint children (fuel : nat) (n : nat) (prefix after : string) (budget : Z) (out : list WireChild)
  : option (nat * result ReconcileError (list WireChild)) :=
  match fuel with
  | O => None
  | S fuel =>
      match rpc n (ReconcileFrame.TreeReq prefix after TREE_PAGE) with
      | Err e => Some (S n, Err e)
      | Ok (ReconcileFrame.TreeResp page more) =>
          if bool_decide (TREE_PAGE < as_u32 (Z.of_nat (length page))) then Some (S n, Err (ReconcileError.Violation "oversized tree page"))
          else if more && bool_decide (page = []) then Some (S n, Err (ReconcileError.Violation "empty page with more=true"))
          else
            match charge_page budget page with
            | Err e => Some (S n, Err (ReconcileError.Violation e))
            | Ok budget =>
                let after := match last page with Some c => wc_name c | None => after end in
                if more then children fuel (S n) prefix after budget (out ++ page) else Some (S n, Ok (out ++ page))
            end
      | Ok _ => Some (S n, Err (ReconcileError.Violation "expected TreeResp"))
      end
  end.

Definition leaf (n : nat) (path : string) : result ReconcileError (option RemoteLeaf) :=
  f ← rpc n (ReconcileFrame.LeafReq path);
  match f with
  | ReconcileFrame.LeafResp false _ _ _ _ _ _ _ => Ok None
  | ReconcileFrame.LeafResp true tombstone content_hash vv mode size uuid meta =>
      Ok (Some (mkRemoteLeaf tombstone content_hash vv mode size uuid meta))
  | _ => Err (ReconcileError.Violation "expected LeafResp")
  end.
End transport.

(** ** A session *)

(** The engine, the requests made so far, and the frontier the responder
    named with its root. *)
Record Wire : Type := mkWire { wi_engine : EngineState; wi_requests : nat; wi_frontier : list (NodeId * Z) }.

Section session.
Context `{!Blake3, !Bincode, !Hex, !Scan, !HashIter} (cfg : EngineCfg) (answer : Answer).

(** What ends a session early: the error, or none for a crash. *)
Abbreviation Broken := (EngineState * option ReconcileError)%type.

Definition all_files : Eng NetError (list FileRow) :=
  Engine.ask cfg AllFiles (λ r, match r with RRows x => Some x | _ => None end).

Definition wire_session (peer : NodeId) : Session Wire Broken :=
  mkSession
    (λ w, match root answer (wi_requests w) with
          | Ok (h, frontier) => Ok (mkWire (wi_engine w) (S (wi_requests w)) frontier, h)
          | Err e => Err (wi_engine w, Some e)
          end)
    (λ w prefix,
       match children answer LISTING_FUEL (wi_requests w) prefix "" LISTING_BUDGET [] with
       | Some (n, Ok cs) => Ok (mkWire (wi_engine w) n (wi_frontier w), cs)
       | Some (_, Err e) => Err (wi_engine w, Some e)
       | None => Err (wi_engine w, None)
       end)
    (λ w report path,
       match Engine.handle_leaf cfg path (leaf answer (wi_requests w) path) peer report (wi_engine w) with
       | (s, Done report) => Ok (mkWire s (S (wi_requests w)) (wi_frontier w), report)
       | (s, Fail e) => Err (s, Some e)
       | (s, Crashed) => Err (s, None)
       end).

(** [reconcile_with]: the report and the frontier, or the error ([None] for a
    crash) with the state it leaves; the outer option is [None] when the fuel
    ran out. *)
Definition reconcile_with (fuel : nat) (peer : NodeId) (s : EngineState)
  : option (result (EngineState * option NetError) (EngineState * ReconcileReport * list (NodeId * Z))) :=
  match all_files s with
  | (s, Done rows) =>
      match reconcile_pull (wire_session peer) (MerkleTree.build rows) fuel (mkWire s 0 []) with
      | Some (Ok (w, report)) =>
          let s := wi_engine w in
          Some (Ok (mkEngineState (es_store s) (es_host s) (es_conns s)
                      (u64_add (es_conflicts s) (u64_add (resolved_conflicts report) (skipped_concurrent report)))
                      (es_apply_errors s) (es_turns s), report, wi_frontier w))
      | Some (Err (s, e)) => Some (Err (s, NetError.Reconcile <$> e))
      | None => None
      end
  | (s, Fail e) => Some (Err (s, Some e))
  | (s, Crashed) => Some (Err (s, None))
  end.
End session.
End Reconcile.
