(* ===== verification/ReconcileWire.v ===== *)
(** * Anti-entropy over a stream: what a session does

    A session against a responder that serves one snapshot is the leaf
    handler run on exactly the leaves the snapshot has and the local index
    has not. *)

From S2P Require Import Prelude Vv Decide Metadata Conflict ConflictProofs State Oplog Suppress Merkle MerkleProofs ReconcileProps Chunk Proto Fs Apply Peer Fetch Engine StoreWitness EngineWitness Reconcile.
Import MerkleTree.

(** ** A session is determined by its calls *)

Section simulate.
Context `{!Blake3, !Bincode} {S E : Type} (se : Session S E) (L R : list FileRow).

Definition listed (p : string) : list WireChild := wire_child <$> btree_iter (dir_entry (mt_dirs (build R)) p).

(** The session's own calls, in the given order. *)
Fixpoint play (calls : list PullEvent) (s : S) (report : ReconcileReport) : result E (S * ReconcileReport) :=
  match calls with
  | [] => Ok (s, report)
  | EReq p :: calls =>
      match se_children se s p with Ok (s, _) => play calls s (count_req report) | Err e => Err e end
  | ELeaf q :: calls =>
      match se_handle_leaf se s report q with Ok (s, report) => play calls s report | Err e => Err e end
  end.

Lemma play_app c1 c2 s report :
  play (c1 ++ c2) s report = match play c1 s report with Ok (s, report) => play c2 s report | Err e => Err e end.
Proof.
  revert s report. induction c1 as [|[p|q] c1 IH]; intros s report; simpl; [done|..].
  - destruct (se_children se s p) as [[? ?]|]; [apply IH|done].
  - destruct (se_handle_leaf se s report q) as [[? ?]|]; [apply IH|done].
Qed.

Lemma pull_children_play p lc cs queue s report :
  pull_children se p lc cs queue s report =
  match play (ELeaf <$> picks lc p false cs) s report with
  | Ok (s, report) => Ok (reverse (picks lc p true cs) ++ queue, s, report)
  | Err e => Err e
  end.
Proof.
  revert queue s report. induction cs as [|c cs IH]; intros queue s report; simpl; [done|].
  assert (Hp : ∀ d, picks lc p d (c :: cs) =
    (if taken lc d c then [join_prefix p (wc_name c)] else []) ++ picks lc p d cs).
  { intros d. unfold picks. rewrite filter_cons. by destruct (taken lc d c). }
  rewrite !Hp. unfold taken, unpruned.
  destruct (lc !! wc_name c) as [[h d]|] eqn:El; [case_bool_decide|]; simpl; [apply IH|..];
    (destruct (wc_is_dir c); simpl;
     [rewrite IH; destruct (play _ _ _) as [[? ?]|]; [by rewrite reverse_cons, <- (assoc_L (++))|done]
     |destruct (se_handle_leaf se s report _) as [[? ?]|]; [apply IH|done]]).
Qed.

Context (Hlist : ∀ s p, ∃ s', se_children se s p = Ok (s', listed p)).

Lemma pull_loop_play fuel queue tr rep tr' rep' :
  pull_loop (traced R) (build L) fuel queue tr rep = Some (Ok (tr', rep')) →
  ∃ calls, tr' = tr ++ calls ∧
    ∀ s report, pull_loop se (build L) fuel queue s report = Some (play calls s report).
Proof using Hlist.
  revert queue tr rep. induction fuel as [|fuel IH]; intros [|p queue] tr rep; cbn [pull_loop].
  1, 3: intros [= <- <-]; exists []; by rewrite app_nil_r.
  { done. }
  unfold traced at 1. cbn [se_children]. fold (traced R). rewrite pull_children_traced.
  intros (calls & -> & Hcalls)%IH. set (lc := default ∅ (children (build L) p)) in *.
  exists (EReq p :: (ELeaf <$> picks lc p false (listed p)) ++ calls).
  split; [by rewrite <- !(assoc_L (++))|]. intros s report. cbn [play].
  destruct (Hlist s p) as [s' ->]. rewrite pull_children_play, play_app.
  destruct (play (ELeaf <$> _) s' _) as [[? ?]|]; [apply Hcalls|done].
Qed.
End simulate.

(** ** The stream's two ends *)

Section wire.
Context `{!Blake3, !Bincode}.

(** A responder whose replies arrive. *)
Definition answers (tree : MerkleTree) (frontier : list (NodeId * Z)) : Reconcile.Answer := λ _ req,
  match Reconcile.serve_frame tree frontier (Ok req) with
  | Reply f => Ok f
  | Finished _ => Err ProtoError.Closed
  end.

Definition is_request (f : ReconcileFrame) : Prop :=
  match f with
  | ReconcileFrame.Begin | ReconcileFrame.TreeReq _ _ _ | ReconcileFrame.LeafReq _ => True
  | _ => False
  end.

Definition listings_fit (tree : MerkleTree) : Prop :=
  map_Forall (λ _ c, Forall (λ p, name_fits p.1) (btree_iter c) ∧ cost (btree_iter c) ≤ LISTING_BUDGET) (mt_dirs tree).

Lemma serve_loop_answers tree frontier reqs :
  Forall is_request reqs →
  ∃ replies, Reconcile.serve_loop tree frontier ((Ok <$> reqs) ++ [Ok ReconcileFrame.Done]) = (replies, Some (Ok ())) ∧
    Forall2 (λ req reply, ∀ n, answers tree frontier n req = Ok reply) reqs replies.
Proof.
  induction 1 as [|f reqs Hf _ (replies & Hs & Hr)]; [by exists []|].
  destruct f as [| |prefix after_name limit| | | |]; try done; cbn -[answers serve_tree_req] in *; rewrite ?Hs.
  - eexists. split; [done|]. by constructor.
  - destruct (serve_tree_req tree prefix after_name limit) as [page more] eqn:Hq.
    eexists. split; [done|]. constructor; [|done]. intros n. unfold answers, Reconcile.serve_frame. by rewrite Hq.
  - eexists. split; [done|]. by constructor.
Qed.

Section puller.
Context (tree : MerkleTree) (frontier : list (NodeId * Z)).
Local Abbreviation ans := (answers tree frontier).

Lemma tree_answer n prefix after :
  ans n (ReconcileFrame.TreeReq prefix after TREE_PAGE) =
  Ok (ReconcileFrame.TreeResp (serve_tree_req tree prefix after TREE_PAGE).1 (serve_tree_req tree prefix after TREE_PAGE).2).
Proof. unfold answers, Reconcile.serve_frame. by destruct (serve_tree_req _ _ _ _). Qed.

(** The stream's listing loop is the loop over the pages. *)
Lemma children_as_loop fuel n i prefix after budget out l :
  children_loop fuel (λ _ after, Some (serve_tree_req tree prefix after TREE_PAGE)) i after budget out = Some (Ok l) →
  ∃ n', Reconcile.children ans fuel n prefix after budget out = Some (n', Ok l).
Proof.
  revert n i after budget out. induction fuel as [|fuel IH]; intros n i after budget out; [done|].
  cbn [children_loop Reconcile.children]. unfold Reconcile.rpc. rewrite tree_answer.
  destruct (serve_tree_req tree prefix after TREE_PAGE) as [page more]. cbn [fst snd].
  case_bool_decide; [done|]. destruct (more && bool_decide (page = [])); [done|].
  destruct (charge_page budget page) as [b|]; [|done].
  destruct more; [apply IH|]. intros [= <-]. by eexists.
Qed.

Lemma children_served n prefix :
  listings_fit tree →
  ∃ n', Reconcile.children ans LISTING_FUEL n prefix "" LISTING_BUDGET [] =
    Some (n', Ok (wire_child <$> btree_iter (dir_entry (mt_dirs tree) prefix))).
Proof.
  intros Hfit.
  assert (Hfuel : LISTING_BUDGET < 34 * Z.of_nat LISTING_FUEL).
  { unfold LISTING_FUEL. rewrite Z2Nat.id by done. done. }
  revert Hfuel. generalize LISTING_FUEL. intros fuel Hfuel.
  apply (children_as_loop fuel n 0). unfold dir_entry.
  destruct (mt_dirs tree !! prefix) as [c|] eqn:Hc; simpl.
  - destruct (Hfit _ _ Hc). by apply (children_loop_exact tree prefix c fuel 0 LISTING_BUDGET [] (btree_iter c)).
  - destruct fuel as [|fuel]; [cbn in Hfuel; unfold LISTING_BUDGET in Hfuel; lia|].
    cbn [children_loop]. unfold serve_tree_req, children_page. rewrite Hc. done.
Qed.

(** What a leaf answer says of the row. *)
Definition remote_leaf (r : FileRow) : RemoteLeaf :=
  mkRemoteLeaf (fr_tombstone r) (fr_content_hash r) (fr_vv r) (fr_mode r) (fr_size r) (fr_uuid r) (fr_meta r).

Lemma leaf_served n path : Reconcile.leaf ans n path = Ok (remote_leaf <$> leaf tree path).
Proof. unfold Reconcile.leaf, Reconcile.rpc, answers. simpl. by destruct (leaf tree path). Qed.
End puller.
End wire.

(** ** The session *)

Section session.
Context `{!Blake3, !Bincode, !Hex, !Scan, !HashIter} (cfg : EngineCfg) (peer : NodeId).

(** The leaf handler on the responder's own rows, in the order of the
    calls. *)
Fixpoint drain (tree : MerkleTree) (calls : list PullEvent) (s : EngineState) (report : ReconcileReport)
  : result (EngineState * option ReconcileError) (EngineState * ReconcileReport) :=
  match calls with
  | [] => Ok (s, report)
  | EReq _ :: calls => drain tree calls s (count_req report)
  | ELeaf q :: calls =>
      match Engine.handle_leaf cfg q (Ok (remote_leaf <$> leaf tree q)) peer report s with
      | (s, Done report) => drain tree calls s report
      | (s, Fail e) => Err (s, Some e)
      | (s, Crashed) => Err (s, None)
      end
  end.

Definition add_conflicts (s : EngineState) (report : ReconcileReport) : EngineState :=
  mkEngineState (es_store s) (es_host s) (es_conns s)
    (u64_add (es_conflicts s) (u64_add (resolved_conflicts report) (skipped_concurrent report)))
    (es_apply_errors s) (es_turns s).

Lemma play_drain tree frontier calls w report :
  listings_fit tree →
  match drain tree calls (Reconcile.wi_engine w) report with
  | Ok (s, report') => ∃ n,
      play (Reconcile.wire_session cfg (answers tree frontier) peer) calls w report = Ok (Reconcile.mkWire s n (Reconcile.wi_frontier w), report')
  | Err e => play (Reconcile.wire_session cfg (answers tree frontier) peer) calls w report = Err e
  end.
Proof.
  intros Hfit. revert w report. induction calls as [|[p|q] calls IH]; intros w report.
  - exists (Reconcile.wi_requests w). by destruct w.
  - cbn [drain play Reconcile.wire_session se_children].
    destruct (children_served tree frontier (Reconcile.wi_requests w) p Hfit) as [n ->]. apply (IH (Reconcile.mkWire _ _ _)).
  - cbn [drain play Reconcile.wire_session se_handle_leaf]. rewrite leaf_served.
    destruct (Engine.handle_leaf _ _ _ _ _ _) as [s [report'| |]]; [|done|done]. apply (IH (Reconcile.mkWire _ _ _)).
Qed.

(** C14: An anti-entropy session over a stream. When the responder serves a
    snapshot of its store, it answers every request of the puller until the
    closing frame; and the whole session - paged listings, leaf requests and
    all - is the leaf handler run once on every leaf the snapshot holds and
    the local index lacks, given exactly the fields of the responder's row,
    and on nothing else; a directory
    is listed only if the two indexes disagree below it. It ends within one listing per directory of the
    responder, with the frontier of the same snapshot, the conflicts it met
    added to the counter; a leaf that fails for good ends it there.
    Conditions, all on the two indexes: on either side no indexed path is a
    directory above another indexed path (a tombstone [a] beside [a/b] is not
    covered: the walk cannot see it, [shadowed_tombstone_invisible]), paths are
    unique and well formed; the hashes that occur separate the rows and
    directories they are computed from; and every listing of the responder
    fits the puller's byte budget. *)
Theorem served_session_exact (node : NodeId) (st : StoreState) (snap : JoinSnapshot) (s s1 : EngineState) (L : list FileRow) :
  (store_step node st SnapshotForJoin).2 = RSnapshot (Ok snap) →
  Reconcile.all_files cfg s = (s1, Done L) →
  rows_ok L → rows_ok (js_rows snap) → separates L (js_rows snap) → listings_fit (build (js_rows snap)) →
  let tree := build (js_rows snap) in
  (∀ reqs, Forall is_request reqs →
     ∃ replies, Reconcile.serve_reconcile node st ((Ok <$> reqs) ++ [Ok ReconcileFrame.Done]) = (replies, Some (Ok ())) ∧
       Forall2 (λ req reply, ∀ n, answers tree (js_frontier snap) n req = Ok reply) reqs replies) ∧
  ∃ calls, NoDup calls ∧
    (∀ q, ELeaf q ∈ calls ↔ fresh L (js_rows snap) q) ∧
    (∀ p, EReq p ∈ calls → ¬ ∀ q, below p q → agree_at L (js_rows snap) q) ∧
    Reconcile.reconcile_with cfg (answers tree (js_frontier snap)) (size (mt_dirs tree)) peer s =
      Some (match drain tree calls s1 report0 with
            | Ok (s2, report) => Ok (add_conflicts s2 report, report, js_frontier snap)
            | Err (s2, e) => Err (s2, NetError.Reconcile <$> e)
            end).
Proof.
  intros Hsnap HL Lok Rok Hsep Hfit tree. split.
  { intros reqs Hreqs. unfold Reconcile.serve_reconcile. rewrite Hsnap. by apply serve_loop_answers. }
  destruct (reconcile_pull_exact L (js_rows snap) Lok Rok Hsep) as (calls & rep & Hrun & Hnd & Hleaf & Hreq).
  exists calls. split_and!; [done|done|done|]. unfold Reconcile.reconcile_with. rewrite HL.
  unfold reconcile_pull in *. cbn [Reconcile.wire_session se_root] in *.
  change (Reconcile.root (answers tree (js_frontier snap)) (Reconcile.wi_requests (Reconcile.mkWire s1 0 [])))
    with (Ok (E := ReconcileError) (mt_root tree, js_frontier snap)). cbn [Reconcile.wi_engine Reconcile.wi_requests].
  unfold traced at 1 in Hrun. cbn [se_root] in Hrun. fold tree in Hrun. case_bool_decide.
  { injection Hrun as <- <-. done. }
  destruct (pull_loop_play (Reconcile.wire_session cfg (answers tree (js_frontier snap)) peer) L (js_rows snap))
    with (2 := Hrun) as (calls' & Heq & Hplay).
  { intros w p. destruct (children_served tree (js_frontier snap) (Reconcile.wi_requests w) p Hfit) as [n Hn].
    eexists. cbn [Reconcile.wire_session se_children]. by rewrite Hn. }
  simpl in Heq. subst calls'. fold (Reconcile.wire_session cfg (answers tree (js_frontier snap)) peer). rewrite Hplay.
  pose proof (play_drain tree (js_frontier snap) calls (Reconcile.mkWire s1 1 (js_frontier snap)) report0 Hfit) as Hd.
  cbn [Reconcile.wi_engine Reconcile.wi_frontier] in Hd.
  destruct (drain tree calls s1 report0) as [[s2 report]|[s2 e]]; [destruct Hd as [n ->]|rewrite Hd]; done.
Qed.
End session.

(** ** A session on a small share *)

Import Ex StateEx.

Definition served_snap : JoinSnapshot :=
  match (store_step node_a st1 SnapshotForJoin).2 with RSnapshot (Ok snap) => snap | _ => mkJoinSnapshot [] [] end.

(** The responder holds one file, the puller's index is empty. *)
Lemma served_session_exact_witness :
  ∃ calls, NoDup calls ∧ (∀ q, ELeaf q ∈ calls ↔ fresh [] (js_rows served_snap) q) ∧
    Reconcile.reconcile_with ex_cfg (answers (build (js_rows served_snap)) (js_frontier served_snap))
      (size (mt_dirs (build (js_rows served_snap)))) node_a (rx_state empty_conn) =
    Some (match drain ex_cfg node_a (build (js_rows served_snap)) calls (rx_state empty_conn) report0 with
          | Ok (s2, report) => Ok (add_conflicts s2 report, report, js_frontier served_snap)
          | Err (s2, e) => Err (s2, NetError.Reconcile <$> e)
          end).
Proof.
  destruct (served_session_exact ex_cfg node_a node_a st1 served_snap (rx_state empty_conn) (rx_state empty_conn) [])
    as (_ & calls & Hnd & Hleaf & _ & Hrun).
  - reflexivity.
  - reflexivity.
  - split; vm_decide.
  - split; vm_decide.
  - split; vm_decide.
  - vm_decide.
  - exists calls. split_and!; [exact Hnd|exact Hleaf|exact Hrun].
Defined.

(** Its frontier is the responder's own operation. *)
Example served_frontier : js_frontier served_snap = [(node_a, 1)] ∧ (fr_path <$> js_rows served_snap) = ["x"].
Proof. split; vm_decide. Qed.
