(* ===== verification/Replica.v ===== *)
(** * The in-memory replica (src/src/replica.rs)

    The store, the decision function and the resolution loop composed the way
    the daemon composes them, with the share reduced to a map from paths to
    content hashes. Nothing else uses the store, so every call is one step. *)

From S2P Require Import Prelude Vv Decide Metadata Conflict State Oplog.

(** [FakeFs] *)
Abbreviation FakeFs := (gmap string hash32).

Record Replica : Type := mkReplica { re_node_id : NodeId; re_store : Conn; re_fs : FakeFs }.

(** A method that may fail part-way: the replica it leaves and its result. *)
Definition Rep (A : Type) : Type := Replica → Replica * result StoreError A.
#[export] Instance rep_ret : MRet Rep := λ A a r, (r, Ok a).
#[export] Instance rep_bind : MBind Rep := λ A B f m r,
  match m r with
  | (r, Ok a) => f a r
  | (r, Err e) => (r, Err e)
  end.

Module Replica.

(** The trait [ApplyEffect] on the map. *)
Definition write (path : string) (hash : hash32) : Rep unit := λ r,
  (mkReplica (re_node_id r) (re_store r) (<[path := hash]> (re_fs r)), Ok ()).
Definition delete (path : string) : Rep unit := λ r,
  (mkReplica (re_node_id r) (re_store r) (base.delete path (re_fs r)), Ok ()).

(** A call of the store. *)
Definition call {A} (f : NodeId → Conn → Conn * result StoreError A) : Rep A := λ r,
  let '(c, x) := f (re_node_id r) (re_store r) in (mkReplica (re_node_id r) c (re_fs r), x).
Definition query {A} (f : Conn → result StoreError A) : Rep A := call (λ _ c, (c, f c)).

Definition is_copy (path : string) : bool := bool_decide (is_Some (String.index 0 COPY_MARKER path)).

Section with_externals.
Context `{!Blake3, !Bincode, !Hex, !Scan}.

Definition op_version (op : OpRecord) : Version :=
  mkVersion (bool_decide (op_op_type op = OpType.Delete)) (op_content_hash op) (Meta.hash_of (op_meta op))
    (op_meta op) (op_mode op) (op_size op) (op_vv op) (op_uuid op).

Definition rename_source_version (op : OpRecord) : Version :=
  mkVersion true None META_NONE None 0 0 (op_vv op) (op_uuid op).

(** [Store::open(":memory:")] on a database without rows. *)
Definition new (node_id : NodeId) : Replica :=
  mkReplica node_id (Oplog.open_conn (mkConn [] ∅ ∅ ∅ ∅ ∅ ∅ ∅) node_id).1 ∅.

Definition append (change : LocalChange) : Rep (option OpRecord) :=
  call (λ node c, Oplog.append_local c node change).

Definition write_change (path : string) (content : list byte) (mode : Z) (meta : option Meta) : LocalChange :=
  mkLocalChange path OpType.Write mode (Z.of_nat (length content)) (Some (blake3 content)) meta None.

Definition local_write (path : string) (content : list byte) : Rep (option OpRecord) :=
  write path (blake3 content);; append (write_change path content 420 None).

Definition mode_meta (mode : Z) : Meta := mkMeta FileKind.Regular mode 0 0 0 0 None 0 [].
Definition local_write_with_mode (path : string) (content : list byte) (mode : Z) : Rep (option OpRecord) :=
  write path (blake3 content);;
  append (write_change path content mode (Some (mode_meta mode))).

Definition local_delete (path : string) : Rep (option OpRecord) :=
  delete path;; append (mkLocalChange path OpType.Delete 420 0 None None None).

Definition local_rename (old new : string) : Rep (option OpRecord) := λ r,
  ((match re_fs r !! old with
    | Some hash => delete old;; write new hash
    | None => mret ()
    end);;
   call (λ node c, Oplog.append_local_rename c node old new)) r.

Definition sync_fs_from_row (path : string) : Rep unit :=
  row ← query (λ c, State.load_file c path);
  match row with
  | Some row =>
      if lf_tombstone row then delete path
      else match lf_content_hash row with Some hash => write path hash | None => mret () end
  | None => delete path
  end.

(** The rounds against the store: whether the rows are to be mirrored. *)
Fixpoint resolve_rounds (rounds : nat) (path : string) (remote : Version) (plan : list PlannedRow) : Rep bool :=
  match rounds with
  | O => mret true
  | S rounds =>
      out ← call (λ _ c, Oplog.resolve_rows c path remote plan);
      match out with
      | ResolveOutcome.Resolved => mret true
      | ResolveOutcome.Stale fresh => resolve_rounds rounds path remote fresh
      | ResolveOutcome.NotConcurrent _ | ResolveOutcome.Unresolvable => mret false
      end
  end.

Fixpoint mirror_rows (path : string) (rows : list FileRow) : Rep unit :=
  match rows with
  | [] => mret ()
  | row :: rows =>
      (if bool_decide (fr_path row = path) || is_copy (fr_path row) then
         match fr_content_hash row with
         | Some h => if fr_tombstone row then delete (fr_path row) else write (fr_path row) h
         | None => delete (fr_path row)
         end
       else mret ());;
      mirror_rows path rows
  end.

Definition resolve_conflict (path : string) (remote : Version) : Rep unit :=
  done ← resolve_rounds 5 path remote [];
  if (done : bool) then (rows ← query State.all_files; mirror_rows path rows) else mret ().

(** The effect of an [Apply] on the share. *)
Definition apply_effect (op : OpRecord) : Rep unit :=
  match op_op_type op with
  | OpType.Write => match op_content_hash op with Some hash => write (op_path op) hash | None => mret () end
  | OpType.Delete => delete (op_path op)
  | OpType.Rename =>
      (match op_content_hash op with Some hash => write (op_path op) hash | None => mret () end);;
      match op_path_old op with
      | Some old_rel =>
          old_local ← query (λ c, State.load_file c old_rel);
          if bool_decide (decide_op old_local (op_vv op) = Decision.Apply) then delete old_rel else mret ()
      | None => mret ()
      end
  end.

(** The repair of a downgraded [Apply]. *)
Definition repair (op : OpRecord) (effective : Decision) : Rep unit :=
  sync_fs_from_row (op_path op);;
  if bool_decide (effective = Decision.Concurrent) then resolve_conflict (op_path op) (op_version op) else mret ().

(** The source of a rename, after the commit. *)
Definition settle_source (op : OpRecord) (old_rel : string) : Rep unit :=
  old_local ← query (λ c, State.load_file c old_rel);
  match decide_op old_local (op_vv op) with
  | Decision.Ignore | Decision.Apply => sync_fs_from_row old_rel
  | Decision.Concurrent => sync_fs_from_row old_rel;; resolve_conflict old_rel (rename_source_version op)
  | Decision.Quarantined => mret ()
  end.

Definition receive (op : OpRecord) : Rep (option Decision) :=
  applied ← query (λ c, Ok (Oplog.has_applied c (op_op_id op)));
  if (applied : bool) then mret None else
  local ← query (λ c, State.load_file c (op_path op));
  let decision := decide_op local (op_vv op) in
  (if bool_decide (decision = Decision.Apply) then apply_effect op else mret ());;
  (if bool_decide (decision = Decision.Concurrent) then resolve_conflict (op_path op) (op_version op) else mret ());;
  effective ← call (λ _ c, Oplog.apply_remote c op decision);
  (if bool_decide (decision = Decision.Apply ∧ effective ≠ Decision.Apply) then repair op effective else mret ());;
  (if bool_decide (op_op_type op = OpType.Rename ∧ decision ≠ Decision.Quarantined)
   then match op_path_old op with Some old_rel => settle_source op old_rel | None => mret () end
   else mret ());;
  mret (Some effective).

(** One row of a remote snapshot. *)
Definition reconcile_row (r : FileRow) : Rep unit :=
  local ← query (λ c, State.load_file c (fr_path r));
  match decide_op local (fr_vv r) with
  | Decision.Apply =>
      effective ← call (λ _ c, Oplog.reconcile_upsert c
        (mkReconciledRow (fr_path r) (fr_content_hash r) (fr_mode r) (fr_size r) (fr_vv r) (fr_tombstone r) (fr_uuid r) (fr_meta r)));
      if bool_decide (effective = Decision.Apply) then
        match fr_content_hash r with
        | Some h => if fr_tombstone r then delete (fr_path r) else write (fr_path r) h
        | None => delete (fr_path r)
        end
      else mret ()
  | Decision.Concurrent => resolve_conflict (fr_path r) (Version.from_row r)
  | Decision.Ignore | Decision.Quarantined => mret ()
  end.

Fixpoint reconcile_from (rows : list FileRow) : Rep unit :=
  match rows with
  | [] => mret ()
  | r :: rows => reconcile_row r;; reconcile_from rows
  end.

Definition snapshot : Rep (list FileRow) := query State.all_files.

(** The map the assertion builds (a later pair replaces an earlier one), and
    whether the assertion holds. *)
Definition live_rows (rows : list FileRow) : FakeFs :=
  list_to_map (reverse (omap (λ r, h ← fr_content_hash r; Some (fr_path r, h)) (filter (λ r, fr_tombstone r = false) rows))).
Definition assert_fs_matches_index : Rep bool := λ r,
  (rows ← snapshot; mret (bool_decide (re_fs r = live_rows rows))) r.
End with_externals.

(** ** What a simulation does to a replica *)

Inductive Event : Type :=
| LocalWrite (path : string) (content : list byte)
| LocalWriteMode (path : string) (content : list byte) (mode : Z)
| LocalDelete (path : string)
| LocalRename (old new : string)
| Receive (op : OpRecord)
| ReconcileFrom (rows : list FileRow).

Section run.
Context `{!Blake3, !Bincode, !Hex, !Scan}.

Definition step (e : Event) : Rep unit :=
  match e with
  | LocalWrite path content => local_write path content;; mret ()
  | LocalWriteMode path content mode => local_write_with_mode path content mode;; mret ()
  | LocalDelete path => local_delete path;; mret ()
  | LocalRename old new => local_rename old new;; mret ()
  | Receive op => receive op;; mret ()
  | ReconcileFrom rows => reconcile_from rows
  end.

Fixpoint run (es : list Event) : Rep unit :=
  match es with
  | [] => mret ()
  | e :: es => step e;; run es
  end.
End run.
End Replica.
