(* ===== verification/ReplicaProofs.v ===== *)
(** * The in-memory replica: its invariant

    After every operation the fake file system holds exactly the live rows of
    the index, which is what the harness asserts at its quiesced points. *)

From Stdlib Require Import Ascii.
From S2P Require Import Prelude Vv Decide Metadata Conflict ConflictProofs State Oplog OplogProofs StoreProps StoreWitness Replica.
Import State Oplog Replica.

Section replica.
Context `{!Blake3, !Bincode, !Hex, !Scan, !BincodeLaws}.

(** What the share should hold at a path. *)
Definition live_of (row : FileRow) : option hash32 := if fr_tombstone row then None else fr_content_hash row.
Definition live_at (c : Conn) (p : string) : option hash32 :=
  match load_row c p with Ok (Some row) => live_of row | _ => None end.

Definition mirrors (r : Replica) (p : string) : Prop := re_fs r !! p = live_at (re_store r) p.
Record settled (r : Replica) : Prop := {
  sd_wf : conn_wf (re_store r);
  sd_mirrors p : mirrors r p;
}.

Lemma rep_step {A B} (m : Rep A) (f : A → Rep B) r r1 a : m r = (r1, Ok a) → (m ≫= f) r = f a r1.
Proof. intros Hm. unfold mbind, rep_bind. by rewrite Hm. Qed.

Lemma load_file_ok c p : conn_wf c → ∃ o, load_row c p = Ok o ∧ load_file c p = Ok (local_of <$> o).
Proof.
  intros Hc. destruct (load_row_total c p (cw_files _ Hc)) as [o Ho]. exists o. split; [done|].
  apply load_file_row; [apply Hc|done].
Qed.

Lemma live_at_ext c c' p : load_row c' p = load_row c p → live_at c' p = live_at c p.
Proof. intros Hl. unfold live_at. by rewrite Hl. Qed.

Lemma live_at_row c p o : load_row c p = Ok o → live_at c p = o ≫= live_of.
Proof. intros Hl. unfold live_at. rewrite Hl. by destruct o. Qed.

(** ** Bringing one path up to date *)

Definition with_fs (fs : FakeFs) (r : Replica) : Replica := mkReplica (re_node_id r) (re_store r) fs.

Lemma sync_spec p r :
  conn_wf (re_store r) → (∀ q, q ≠ p → mirrors r q) →
  mirrors r p ∨ (∃ row, load_row (re_store r) p = Ok (Some row) ∧ fr_tombstone row = true) →
  ∃ fs, sync_fs_from_row p r = (with_fs fs r, Ok ()) ∧ settled (with_fs fs r).
Proof.
  intros Hc Hq Hp. destruct (load_file_ok _ p Hc) as (o & Ho & Hf).
  unfold sync_fs_from_row, query. rewrite (rep_step _ _ r r (local_of <$> o)).
  2:{ unfold call. rewrite Hf. by destruct r. }
  assert (Hset : ∀ fs, (∀ q, fs !! q = if decide (q = p) then o ≫= live_of else re_fs r !! q) → settled (with_fs fs r)).
  { intros fs Hfs. split; [done|]. intros q. unfold mirrors. simpl. rewrite Hfs. case_decide as E; [|by apply Hq].
    subst q. symmetry. by apply live_at_row. }
  destruct o as [row|]; simpl.
  2:{ eexists. split; [done|]. apply Hset. intros q. simpl. case_decide; subst; [by rewrite lookup_delete_eq|by rewrite lookup_delete_ne]. }
  change (lf_tombstone (local_of row)) with (fr_tombstone row). change (lf_content_hash (local_of row)) with (fr_content_hash row).
  destruct (fr_tombstone row) eqn:Ht; [|destruct (fr_content_hash row) as [h|] eqn:Hh].
  - eexists. split; [done|]. apply Hset. intros q. simpl. unfold live_of. rewrite Ht.
    case_decide; subst; [by rewrite lookup_delete_eq|by rewrite lookup_delete_ne].
  - eexists. split; [done|]. apply Hset. intros q. simpl. unfold live_of. rewrite Ht, Hh.
    case_decide; subst; [by rewrite lookup_insert_eq|by rewrite lookup_insert_ne].
  - exists (re_fs r). split; [by destruct r|]. apply Hset. intros q. case_decide; [subst q|done].
    destruct Hp as [Hp|(row' & Hl & Ht')]; [|congruence]. rewrite Hp. by rewrite (live_at_row _ _ _ Ho).
Qed.

(** ** Mirroring the rows of a resolution *)

Definition touched (path p : string) : bool := bool_decide (p = path) || is_copy p.

Lemma mirror_rows_spec path rows r :
  NoDup (fr_path <$> rows) →
  ∃ fs, mirror_rows path rows r = (with_fs fs r, Ok ()) ∧
    (∀ row, row ∈ rows → touched path (fr_path row) = true → fs !! fr_path row = live_of row) ∧
    (∀ p, p ∉ fr_path <$> rows ∨ touched path p = false → fs !! p = re_fs r !! p).
Proof.
  revert r. induction rows as [|row rows IH]; intros r Hnd.
  { exists (re_fs r). split_and!; [by destruct r| |done]. intros row Hr. by apply not_elem_of_nil in Hr. }
  rewrite fmap_cons in Hnd. apply NoDup_cons in Hnd as [Hnin Hnd].
  assert (Hone : ∃ fs1, (if touched path (fr_path row) then
             match fr_content_hash row with
             | Some h => if fr_tombstone row then delete (fr_path row) else write (fr_path row) h
             | None => delete (fr_path row)
             end
           else mret ()) r = (with_fs fs1 r, Ok ()) ∧
    (∀ p, fs1 !! p = if decide (p = fr_path row ∧ touched path p = true) then live_of row else re_fs r !! p)).
  { unfold live_of. destruct (touched path (fr_path row)) eqn:Ht.
    - destruct (fr_content_hash row) as [h|], (fr_tombstone row);
        (eexists; split; [reflexivity|]; intros p; case_decide as E;
         [destruct E as [-> _]; by simplify_map_eq|]; simpl;
         assert (p ≠ fr_path row) by (intros ->; by apply E); by simplify_map_eq).
    - exists (re_fs r). split; [by destruct r|]. intros p. case_decide as E; [|done]. destruct E as [-> E]. congruence. }
  destruct Hone as (fs1 & Hrun & Hfs1). destruct (IH (with_fs fs1 r) Hnd) as (fs & Hrun' & Hin & Hout).
  exists fs. split_and!.
  - cbn [mirror_rows]. rewrite (rep_step _ _ r _ () Hrun). exact Hrun'.
  - intros row' [->|Hr]%elem_of_cons Ht; [|by apply Hin].
    rewrite Hout by (by left). simpl. by rewrite Hfs1, decide_True.
  - intros p Hp. rewrite fmap_cons, not_elem_of_cons in Hp. rewrite Hout by (destruct Hp as [[_ ?]|?]; auto).
    simpl. rewrite Hfs1, decide_False; [done|]. intros [-> Ht]. destruct Hp as [[? _]|?]; [done|congruence].
Qed.

(** Every copy's name carries the marker. *)
Lemma copy_path_marked path h m : is_copy (Resolve.copy_path_for path h m) = true.
Proof.
  apply bool_decide_eq_true. destruct (String.index 0 COPY_MARKER (Resolve.copy_path_for path h m)) as [n|] eqn:Hi; [by eexists|].
  exfalso. destruct (copy_path_shape path) as (p & s & _ & Hshape). rewrite Hshape in Hi.
  apply (String.index_correct3 0 (String.length p) COPY_MARKER) in Hi; [|done|lia].
  apply Hi. set (u := (Resolve.copy_tag h m +:+ s)%string). clearbody u. clear.
  induction p as [|a p IH]; [by destruct u|exact IH].
Qed.

Lemma copy_chain_marked {E} (lk : string → result E (option Version)) n rows cp v rows' :
  Resolve.copy_chain lk n rows cp v = Ok (Some rows') → is_copy cp = true →
  ∀ r, r ∈ rows' → r ∈ rows ∨ is_copy (pr_path r) = true.
Proof.
  revert rows cp v. induction n as [|n IH]; intros rows cp v; [done|]. unfold Resolve.copy_chain; fold (Resolve.copy_chain lk).
  intros Hrun Hcp. assert (Hone : ∀ x, pr_path x = cp → ∀ r, r ∈ rows ++ [x] → r ∈ rows ∨ is_copy (pr_path r) = true).
  { intros x Hx r [Hr| ->%list_elem_of_singleton]%elem_of_app; [by left|right]. by rewrite Hx. }
  destruct (existsb _ rows); [injection Hrun as <-; by left|].
  destruct (lk cp) as [[e|]|]; simpl in Hrun; [|injection Hrun as <-; by apply Hone|done].
  destruct (VersionVector.compare _ _); try (injection Hrun as <-; by (apply Hone || left)).
  destruct (Resolve.antichain _) as [|w [|l ?]]; try (injection Hrun as <-; by left).
  destruct (v_content_hash l) as [lh|]; [|injection Hrun as <-; by apply Hone].
  case_bool_decide; [injection Hrun as <-; by apply Hone|].
  intros r Hr. destruct (IH _ _ _ Hrun (copy_path_marked _ _ _) r Hr) as [Hr'|]; [|by right].
  by apply (Hone (Resolve.nested_row cp e w l)).
Qed.

Lemma plan_copies_marked {E} (lk : string → result E (option Version)) path k rows ls rows' :
  Resolve.plan_copies lk path k rows ls = Ok (Some rows') →
  ∀ r, r ∈ rows' → r ∈ rows ∨ is_copy (pr_path r) = true.
Proof.
  revert rows. induction ls as [|v ls IH]; intros rows; simpl; [intros [= <-]; by left|].
  destruct (v_content_hash v) as [h|]; [|apply IH]. case_bool_decide; [apply IH|].
  destruct (Resolve.copy_chain _ _ _ _ _) as [[rows1|]|] eqn:Hcc; simpl; [|done..].
  intros Hrun r Hr. destruct (IH _ Hrun r Hr) as [Hr'|]; [|by right].
  by eapply copy_chain_marked; [exact Hcc|apply copy_path_marked|].
Qed.

Lemma plan_touched {E} (lk : string → result E (option Version)) path cs rows :
  Resolve.plan_candidates lk path cs = Ok (Some rows) → ∀ p, p ∈ pr_path <$> rows → touched path p = true.
Proof.
  intros (w & ls & extra & Ha & -> & Hplan & _)%plan_candidates_inv p (r & -> & Hr)%list_elem_of_fmap.
  unfold touched. destruct (plan_copies_marked _ _ _ _ _ _ Hplan r Hr) as [->%list_elem_of_singleton|Hm].
  - by rewrite bool_decide_true.
  - by rewrite Hm, orb_true_r.
Qed.

(** What the rounds do to the store. *)
Record resolved (path : string) (r r' : Replica) (mirror : bool) : Prop := {
  rd_node : re_node_id r' = re_node_id r;
  rd_fs : re_fs r' = re_fs r;
  rd_wf : conn_wf (re_store r');
  rd_applied : t_applied (re_store r') = t_applied (re_store r);
  rd_frame p : touched path p = false → load_row (re_store r') p = load_row (re_store r) p;
  rd_kept p row : load_row (re_store r) p = Ok (Some row) → ∃ row', load_row (re_store r') p = Ok (Some row');
  rd_quiet : mirror = false → re_store r' = re_store r;
}.

Lemma rounds_spec n path remote plan r :
  conn_wf (re_store r) → version_typed remote →
  ∃ r' mirror, resolve_rounds n path remote plan r = (r', Ok mirror) ∧ resolved path r r' mirror.
Proof.
  intros Hc Hr. revert plan. induction n as [|n IH]; intros plan; cbn [resolve_rounds].
  { exists r, true. split; [done|]. by split; eauto. }
  pose proof (resolve_no_err (re_store r) path remote plan Hc) as [out Hout].
  pose proof (resolve_rows_effect (re_store r) path remote plan) as Heff.
  pose proof (step_ok_resolve (re_store r) path remote plan Hc Hr) as [Hwf Hadv].
  destruct (resolve_rows (re_store r) path remote plan) as [c' res] eqn:Hrun. simpl in Hout, Heff, Hwf, Hadv. subst res.
  rewrite (rep_step _ _ r (mkReplica (re_node_id r) c' (re_fs r)) out) by (unfold call; by rewrite Hrun).
  assert (Hsame : c' = re_store r → mkReplica (re_node_id r) c' (re_fs r) = r) by (intros ->; by destruct r).
  destruct out as [|d|fresh|]; simpl in Heff.
  - exists (mkReplica (re_node_id r) c' (re_fs r)), true. split; [done|].
    destruct Heff as (row & ops & Hl & Hconc & Hops & Hplan & ->).
    destruct (resolve_plan_ok (re_store r) path remote row ops plan) as (Hnd & Hok & _); [done..|].
    destruct (put_planned_load plan (re_store r)) as (_ & _ & Hout); [apply Hc| |done|].
    { eapply Forall_impl; [exact Hok|]. by intros ? [? _]. }
    split; simpl; try done.
    + by rewrite put_planned_frame.
    + intros p Hp. apply Hout. intros Hin. by rewrite (plan_touched _ _ _ _ Hplan p Hin) in Hp.
    + intros p row' (row2 & Hl2 & _)%Hadv. by exists row2.
  - destruct Heff as [-> _]. rewrite (Hsame eq_refl). exists r, false. split; [done|]. by split; eauto.
  - destruct Heff as (? & ? & _ & _ & _ & _ & _ & ->). rewrite (Hsame eq_refl). apply IH.
  - destruct Heff as (? & ? & _ & _ & _ & _ & ->). rewrite (Hsame eq_refl). exists r, false. split; [done|]. by split; eauto.
Qed.

Lemma resolve_conflict_spec path remote r :
  settled r → version_typed remote →
  ∃ r', resolve_conflict path remote r = (r', Ok ()) ∧ settled r' ∧ re_node_id r' = re_node_id r ∧
    t_applied (re_store r') = t_applied (re_store r).
Proof.
  intros Hs Hr. unfold resolve_conflict.
  destruct (rounds_spec 5 path remote [] r (sd_wf _ Hs) Hr) as (r1 & mirror & Hrun & Hd).
  rewrite (rep_step _ _ r r1 mirror Hrun). destruct mirror.
  2:{ exists r1. split_and!; [done| |apply Hd..]. split; [apply Hd|]. intros p. unfold mirrors.
      rewrite (rd_fs _ _ _ _ Hd), (rd_quiet _ _ _ _ Hd eq_refl). apply (sd_mirrors _ Hs). }
  destruct (all_files_spec (re_store r1)) as (rows & Hall & Hnd & _ & Hin); [apply (rd_wf _ _ _ _ Hd)|].
  rewrite (rep_step _ _ r1 r1 rows) by (unfold query, call; rewrite Hall; by destruct r1).
  destruct (mirror_rows_spec path rows r1 Hnd) as (fs & -> & Hset & Hframe).
  eexists. split_and!; [done| |apply Hd..]. split; [apply Hd|]. intros p. unfold mirrors. simpl.
  destruct (load_row_total (re_store r1) p) as [o Ho]; [apply (rd_wf _ _ _ _ Hd)|]. rewrite (live_at_row _ _ _ Ho).
  destruct o as [row|].
  - assert (Hp : fr_path row = p) by (eapply load_row_path; [apply (rd_wf _ _ _ _ Hd)|done]).
    assert (Hrow : row ∈ rows) by (apply Hin; by rewrite Hp). simpl.
    destruct (touched path p) eqn:Ht; [rewrite <- Hp; apply Hset; [done|by rewrite Hp]|].
    rewrite Hframe by (by right). rewrite (rd_fs _ _ _ _ Hd), (sd_mirrors _ Hs). rewrite (rd_frame _ _ _ _ Hd) in Ho by done.
    by rewrite (live_at_row _ _ _ Ho).
  - rewrite Hframe, (rd_fs _ _ _ _ Hd), (sd_mirrors _ Hs).
    2:{ left. intros (row & -> & Hrow)%list_elem_of_fmap. apply Hin in Hrow. congruence. }
    destruct (load_row_total (re_store r) p) as [[row|] Hl]; [apply (sd_wf _ Hs)| |by rewrite (live_at_row _ _ _ Hl)].
    apply (rd_kept _ _ _ _ Hd) in Hl as [row' Hl]. congruence.
Qed.
(** ** The operations *)

Lemma put_row_live row c p :
  row_typed row → files_wf c → live_at (put_row row c) p = if decide (fr_path row = p) then live_of row else live_at c p.
Proof. intros Hr Hc. unfold live_at. rewrite load_put_row by done. by case_decide. Qed.

(** A local change whose effect on the share is already made. *)
Lemma append_spec ch r h :
  conn_wf (re_store r) → change_typed ch → room (re_node_id r) (re_store r) → lc_manifest ch = None →
  (lc_op_type ch = OpType.Write ∧ lc_content_hash ch = h ∧ is_Some h) ∨ (lc_op_type ch = OpType.Delete ∧ h = None) →
  (∀ q, re_fs r !! q = if decide (lc_path ch = q) then h else live_at (re_store r) q) →
  ∃ r' x, append ch r = (r', Ok x) ∧ settled r' ∧ re_node_id r' = re_node_id r.
Proof.
  intros Hc Hch Hroom Hm Hty Hfs. unfold append, call.
  pose proof (append_local_effect (re_store r) (re_node_id r) ch) as Heff.
  pose proof (append_local_err (re_store r) (re_node_id r) ch) as Herr.
  pose proof (step_ok_append (re_store r) (re_node_id r) ch Hc Hch Hroom) as [Hwf _].
  destruct (append_local (re_store r) (re_node_id r) ch) as [c' [x|e]]; simpl in *.
  2:{ destruct (Herr e Hc eq_refl) as [Hr|(m & Hm' & _)]; [|congruence]. destruct Hty as [[? _]|[? _]]; congruence. }
  eexists _, x. split_and!; [done| |done]. split; [done|]. intros q. unfold mirrors. simpl. rewrite Hfs.
  destruct x as [op|].
  - destruct Heff as (local & Hl & _ & -> & -> & _). rewrite Hm. simpl.
    destruct (append_op_ok (re_store r) (re_node_id r) ch local) as [Hot _]; [done..|].
    rewrite put_row_live.
    + simpl. case_decide; [|apply live_at_ext, load_row_ext; by rewrite ins_op_files].
      unfold live_of. simpl. destruct Hty as [(-> & <- & _)|[-> ->]]; done.
    + destruct Hot as (? & ? & ? & ?). by split_and!.
    + by apply conn_wf_ins.
  - destruct Heff as [-> (local & Hl & Hn)]. case_decide; [subst q|done]. rewrite (live_at_row _ _ _ Hl).
    unfold causal_noop in Hn. destruct Hty as [(Ht & <- & _)|[Ht ->]]; rewrite Ht in Hn.
    + destruct local as [l|]; [|done]. injection Hn as Hn. apply andb_true_iff in Hn as [[Ht' Hh]%andb_true_iff _].
      apply bool_decide_eq_true in Hh. simpl. unfold live_of. by destruct (fr_tombstone l).
    + destruct local as [l|]; [|done]. injection Hn as Hn. simpl. unfold live_of. by rewrite Hn.
Qed.

Lemma rename_none c node o n c' :
  append_local_rename c node o n = (c', Ok None) → c' = c ∧
  (o = n ∨ ∀ src, load_row c o = Ok (Some src) → fr_tombstone src = true).
Proof.
  unfold append_local_rename, run_tx. case_bool_decide; [intros [= <-]; by auto|].
  destruct (load_row c o) as [[src|]|]; cbn [mbind result_bind]; [|intros [= <-]; naive_solver|done].
  destruct (fr_tombstone src) eqn:Ht; [intros [= <-]; naive_solver|].
  destruct (load_row c n) as [dst|]; cbn [mbind result_bind]; [|done].
  rewrite insert_op_ins. cbn [mbind result_bind]. set (op := mkOpRecord _ _ _ _ _ _ _ _ _ _ _ _).
  pose proof (upsert_file_row (ins_op op c) (source_row o op)) as Hup. simpl in Hup. rewrite Hup. cbn [mbind result_bind].
  pose proof (upsert_file_row (put_row (source_row o op) (ins_op op c)) (row_of_op op)) as Hup2. simpl in Hup2. by rewrite Hup2.
Qed.

Lemma local_rename_spec old new r :
  settled r → is_Some (re_fs r !! old) → room (re_node_id r) (re_store r) →
  ∃ r' x, local_rename old new r = (r', Ok x) ∧ settled r' ∧ re_node_id r' = re_node_id r.
Proof.
  intros Hs [h Hh] Hroom. pose proof (sd_wf _ Hs) as Hc. unfold local_rename. rewrite Hh.
  set (fs := <[new := h]> (base.delete old (re_fs r))).
  rewrite (rep_step _ _ r (with_fs fs r) ()) by done. unfold call. cbn [with_fs re_node_id re_store].
  pose proof (sd_mirrors _ Hs old) as Hold. unfold mirrors in Hold. rewrite Hh in Hold.
  destruct (load_row_total (re_store r) old (cw_files _ Hc)) as [[src|] Hl]; rewrite (live_at_row _ _ _ Hl) in Hold; [|done].
  simpl in Hold. unfold live_of in Hold. destruct (fr_tombstone src) eqn:Ht; [done|].
  pose proof (append_local_rename_effect (re_store r) (re_node_id r) old new) as Heff.
  pose proof (rename_no_err (re_store r) (re_node_id r) old new Hc) as [x Hx].
  pose proof (step_ok_rename (re_store r) (re_node_id r) old new Hc Hroom) as [Hwf _].
  destruct (append_local_rename (re_store r) (re_node_id r) old new) as [c' res] eqn:Hrun. simpl in *. subst res.
  eexists _, x. split_and!; [done| |done]. split; [done|]. intros q. unfold mirrors. simpl. destruct x as [op|].
  - destruct Heff as (src' & dst & Hl' & _ & Hdst & Hne & Hop & ->).
    rewrite Hl in Hl'. injection Hl' as <-.
    assert (Hot : op_typed op) by (subst op; by apply rename_op_typed).
    assert (Hsrc : row_typed (source_row old op)) by by apply source_row_typed.
    rewrite put_row_live; [|destruct Hot as (? & ? & ? & ?); by split_and!|apply files_wf_put; [done|by apply conn_wf_ins]].
    rewrite put_row_live; [|done|by apply conn_wf_ins]. subst op. simpl. subst fs.
    case_decide as E; [subst q; rewrite lookup_insert_eq; unfold live_of; simpl; by rewrite <- Hold|].
    rewrite lookup_insert_ne by done. case_decide as E'; [subst q; by rewrite lookup_delete_eq|].
    rewrite lookup_delete_ne by done. rewrite (sd_mirrors _ Hs). apply live_at_ext, load_row_ext. by rewrite ins_op_files.
  - apply rename_none in Hrun as [-> [->|Hsrc]]; [|rewrite (Hsrc _ Hl) in Ht; done].
    subst fs. rewrite <- (sd_mirrors _ Hs). destruct (decide (q = new)) as [->|]; simplify_map_eq; done.
Qed.
(** The source of a rename: settled everywhere else, and at the source unless
    the commit has just tombstoned it. *)
Lemma settle_source_spec op old r :
  op_typed op → conn_wf (re_store r) → (∀ q, q ≠ old → mirrors r q) →
  mirrors r old ∨ (∃ row, load_row (re_store r) old = Ok (Some row) ∧ fr_tombstone row = true) →
  ∃ r', settle_source op old r = (r', Ok ()) ∧ settled r' ∧ re_node_id r' = re_node_id r.
Proof.
  intros Hop Hc Hq Hold. destruct (load_file_ok _ old Hc) as (o & Ho & Hf).
  destruct (sync_spec old r Hc Hq Hold) as (fs & Hsync & Hs).
  unfold settle_source, query. rewrite (rep_step _ _ r r (local_of <$> o)).
  2:{ unfold call. rewrite Hf. by destruct r. }
  pose proof (decide_not_quarantined (local_of <$> o) (op_vv op)) as Hd.
  destruct (decide_op _ _); [by eauto|by eauto| |done].
  rewrite (rep_step _ _ r _ () Hsync).
  destruct (resolve_conflict_spec old (rename_source_version op) (with_fs fs r)) as (r' & Hrun & Hs' & Hn & _); [done| |by eauto].
  destruct Hop as (_ & _ & Hv & _). by split_and!.
Qed.

(** What a remote operation must carry for its effect to be representable. *)
Definition representable (op : OpRecord) : Prop :=
  op_typed op ∧ (op_op_type op ≠ OpType.Delete → is_Some (op_content_hash op)) ∧
  (op_op_type op = OpType.Rename → is_Some (op_path_old op)) ∧ op_path_old op ≠ Some (op_path op).

Lemma remote_row_live op : live_of (remote_row op) = if decide (op_op_type op = OpType.Delete) then None else op_content_hash op.
Proof. unfold live_of, remote_row. by destruct (op_op_type op). Qed.

(** The share after the effect of an [Apply], before the commit. *)
Definition share_after (op : OpRecord) (c : Conn) (fs : FakeFs) : Prop :=
  fs !! op_path op = live_of (remote_row op) ∧
  (∀ q, q ≠ op_path op → (op_op_type op = OpType.Rename → op_path_old op ≠ Some q) → fs !! q = live_at c q) ∧
  (∀ old lo, op_op_type op = OpType.Rename → op_path_old op = Some old → load_row c old = Ok lo →
     fs !! old = source_after op old lo ≫= live_of).

Lemma apply_effect_spec op r :
  settled r → representable op →
  ∃ fs, apply_effect op r = (with_fs fs r, Ok ()) ∧ share_after op (re_store r) fs.
Proof.
  intros Hs (_ & Hcontent & Hold & Hne). pose proof (sd_wf _ Hs) as Hc. unfold apply_effect, share_after. rewrite remote_row_live.
  destruct (op_op_type op); simpl in *.
  - destruct (Hcontent ltac:(done)) as [h ->]. eexists. split_and!; [done|by simplify_map_eq| |done].
    intros q Hq _. simpl. rewrite lookup_insert_ne by done. apply (sd_mirrors _ Hs).
  - eexists. split_and!; [done|by simplify_map_eq| |done]. intros q Hq _. simpl. rewrite lookup_delete_ne by done. apply (sd_mirrors _ Hs).
  - destruct (Hcontent ltac:(done)) as [h ->]. destruct (Hold eq_refl) as [old Ho]. rewrite Ho in *.
    set (fs := <[op_path op := h]> (re_fs r)). rewrite (rep_step _ _ r (with_fs fs r) ()) by done.
    destruct (load_file_ok _ old Hc) as (lo & Hlo & Hf). unfold query.
    rewrite (rep_step _ _ (with_fs fs r) (with_fs fs r) (local_of <$> lo)) by (unfold call; simpl; by rewrite Hf).
    assert (Hno : old ≠ op_path op) by congruence.
    assert (Hkeep : fs !! old = lo ≫= live_of).
    { subst fs. rewrite lookup_insert_ne by done. rewrite (sd_mirrors _ Hs). by apply live_at_row. }
    unfold source_after. case_bool_decide as Hd.
    + eexists. split_and!; [done|subst fs; simpl; by simplify_map_eq| |].
      * intros q Hq Hq'. subst fs. simpl. rewrite lookup_delete_ne by naive_solver.
        rewrite lookup_insert_ne by done. apply (sd_mirrors _ Hs).
      * intros old' lo' _ [= <-] Hlo'. rewrite Hlo in Hlo'. injection Hlo' as <-. rewrite Hd, bool_decide_true by done.
        simpl. by rewrite lookup_delete_eq.
    + eexists. split_and!; [done|subst fs; simpl; by simplify_map_eq| |].
      * intros q Hq Hq'. subst fs. simpl. rewrite lookup_insert_ne by done. apply (sd_mirrors _ Hs).
      * intros old' lo' _ [= <-] Hlo'. rewrite Hlo in Hlo'. injection Hlo' as <-. by rewrite bool_decide_false.
Qed.

(** The commit makes the index agree, but for a source it tombstones. *)
Lemma commit_spec op d c fs node local :
  conn_wf c → representable op → has_applied c (op_op_id op) = false → load_row c (op_path op) = Ok local →
  (d = Decision.Apply ∧ decide_op (local_of <$> local) (op_vv op) = Decision.Apply ∧ share_after op c fs) ∨
    (d ≠ Decision.Apply ∧ settled (mkReplica node c fs)) →
  ∃ c', apply_remote c op d = (c', Ok d) ∧ conn_wf c' ∧
    (∀ q, (op_op_type op = OpType.Rename → op_path_old op ≠ Some q) → mirrors (mkReplica node c' fs) q) ∧
    (∀ old, op_op_type op = OpType.Rename → op_path_old op = Some old →
       mirrors (mkReplica node c' fs) old ∨ ∃ row, load_row c' old = Ok (Some row) ∧ fr_tombstone row = true).
Proof.
  intros Hc (Hop & _ & Hold & Hne) Hap Hl Hcase.
  destruct (apply_remote_spec c op d) as (local' & c' & Hl' & Hrun & Htgt & Hsrc & Hframe & _ & _); [done..|].
  rewrite Hl in Hl'. injection Hl' as <-. pose proof (step_ok_remote c op d Hc Hop) as [Hwf _]. rewrite Hrun in Hwf.
  assert (Heff : (if bool_decide (d = Decision.Apply) then decide_op (local_of <$> local) (op_vv op) else d) = d).
  { case_bool_decide; [|done]. destruct Hcase as [(? & ? & _)|[? _]]; congruence. }
  rewrite Heff in *. exists c'. split_and!; [done|done| |].
  - intros q Hq. unfold mirrors. simpl. destruct (decide (q = op_path op)) as [->|Hqp].
    + rewrite (live_at_row _ _ _ Htgt). destruct Hcase as [(-> & _ & Hsh & _)|[Hd Hs]]; [done|].
      rewrite bool_decide_false by done. rewrite (sd_mirrors _ Hs). by apply live_at_row.
    + rewrite (live_at_ext c c' q) by (by apply Hframe).
      destruct Hcase as [(_ & _ & _ & Hsh & _)|[_ Hs]]; [by apply Hsh|apply (sd_mirrors _ Hs)].
  - intros old Ht Ho. destruct (Hsrc old Ht Ho) as (lo & Hlo & Hlo'). unfold mirrors. simpl.
    rewrite (live_at_row _ _ _ Hlo'). destruct Hcase as [(_ & _ & _ & _ & Hsh)|[_ Hs]]; [left; by apply Hsh|].
    unfold source_after in *. case_bool_decide.
    + right. exists (source_row old op). by split.
    + left. rewrite (sd_mirrors _ Hs). by apply live_at_row.
Qed.

(** Up to the commit: the share is ahead of the index by the operation's own
    effect, or agrees with it. *)
Lemma receive_prepares op r local :
  settled r → representable op → has_applied (re_store r) (op_op_id op) = false →
  load_row (re_store r) (op_path op) = Ok local →
  let d := decide_op (local_of <$> local) (op_vv op) in
  ∃ r1 local1,
    (∀ B (k : Rep B),
       ((if bool_decide (d = Decision.Apply) then apply_effect op else mret ());;
        (if bool_decide (d = Decision.Concurrent) then resolve_conflict (op_path op) (op_version op) else mret ());; k) r = k r1) ∧
    conn_wf (re_store r1) ∧ has_applied (re_store r1) (op_op_id op) = false ∧ re_node_id r1 = re_node_id r ∧
    load_row (re_store r1) (op_path op) = Ok local1 ∧
    ((d = Decision.Apply ∧ decide_op (local_of <$> local1) (op_vv op) = Decision.Apply ∧ share_after op (re_store r1) (re_fs r1)) ∨
     (d ≠ Decision.Apply ∧ settled (mkReplica (re_node_id r1) (re_store r1) (re_fs r1)))).
Proof.
  intros Hs Hrep Hap Hl d. pose proof (sd_wf _ Hs) as Hc. destruct (id Hrep) as (Hop & _). destruct (decide (d = Decision.Apply)) as [Hd|Hd].
  - destruct (apply_effect_spec op r Hs Hrep) as (fs & Hrun & Hsh). exists (with_fs fs r), local.
    split_and!; [|done|done|done|done|left; split; [exact Hd|split; [exact Hd|exact Hsh]]].
    intros B k. rewrite (bool_decide_true (d = Decision.Apply)) by done. rewrite (rep_step _ _ r _ () Hrun).
    rewrite bool_decide_false by congruence. by rewrite (rep_step _ _ _ _ () eq_refl).
  - destruct (decide (d = Decision.Concurrent)) as [Hd2|Hd2].
    + destruct (resolve_conflict_spec (op_path op) (op_version op) r Hs) as (r1 & Hrun & Hs1 & Hn & Ha).
      { destruct Hop as (? & ? & ? & ?). by split_and!. }
      destruct (load_row_total (re_store r1) (op_path op)) as [local1 Hl1]; [apply (sd_wf _ Hs1)|].
      exists r1, local1. split_and!; [|apply (sd_wf _ Hs1)|unfold has_applied in *; by rewrite Ha|done|done|right].
      * intros B k. rewrite (bool_decide_false (d = Decision.Apply)), bool_decide_true by done. rewrite (rep_step _ _ r r ()) by done.
        by rewrite (rep_step _ _ r r1 () Hrun).
      * split; [done|]. by destruct r1.
    + exists r, local. split_and!; [|done|done|done|done|right; split; [done|by destruct r]].
      intros B k. by rewrite !bool_decide_false by done.
Qed.

Lemma receive_spec op r :
  settled r → representable op →
  ∃ r' x, receive op r = (r', Ok x) ∧ settled r' ∧ re_node_id r' = re_node_id r.
Proof.
  intros Hs Hrep. pose proof (sd_wf _ Hs) as Hc. destruct (id Hrep) as (Hop & _ & Hold & _).
  unfold receive. rewrite (rep_step _ _ r r (has_applied (re_store r) (op_op_id op))) by (by destruct r).
  destruct (has_applied (re_store r) (op_op_id op)) eqn:Hap; [by eauto|].
  destruct (load_file_ok _ (op_path op) Hc) as (local & Hl & Hf).
  rewrite (rep_step _ _ r r (local_of <$> local)) by (unfold query, call; rewrite Hf; by destruct r). cbv zeta.
  destruct (receive_prepares op r local Hs Hrep Hap Hl) as (r1 & local1 & Hrun & Hc1 & Hap1 & Hn1 & Hl1 & Hcase).
  set (d := decide_op (local_of <$> local) (op_vv op)) in *. rewrite Hrun. clear Hrun.
  destruct (commit_spec op d (re_store r1) (re_fs r1) (re_node_id r1) local1) as (c' & Hrun & Hc' & Hm & Hm'); [done..|].
  rewrite (rep_step _ _ r1 (mkReplica (re_node_id r1) c' (re_fs r1)) d) by (unfold call; by rewrite Hrun).
  set (r2 := mkReplica (re_node_id r1) c' (re_fs r1)) in *.
  rewrite (bool_decide_false (d = Decision.Apply ∧ _)) by tauto. rewrite (rep_step _ _ r2 r2 ()) by done.
  assert (Hd : d ≠ Decision.Quarantined) by apply decide_not_quarantined. case_bool_decide as Ht.
  - destruct Ht as [Ht _]. destruct (Hold Ht) as [old Ho]. rewrite Ho.
    destruct (settle_source_spec op old r2) as (r3 & Hset & Hs3 & Hn3); [done|done|intros; apply Hm; congruence|by apply Hm'|].
    rewrite (rep_step _ _ r2 r3 () Hset). exists r3, (Some d). split_and!; [done|done|]. by rewrite Hn3.
  - rewrite (rep_step _ _ r2 r2 ()) by done. exists r2, (Some d). split_and!; [done| |done].
    split; [done|]. intros q. apply Hm. intros ?. tauto.
Qed.

Lemma reconcile_row_spec row r :
  settled r → row_typed row → ∃ r', reconcile_row row r = (r', Ok ()) ∧ settled r' ∧ re_node_id r' = re_node_id r.
Proof.
  intros Hs Hrow. pose proof (sd_wf _ Hs) as Hc. destruct (load_file_ok _ (fr_path row) Hc) as (local & Hl & Hf).
  unfold reconcile_row. rewrite (rep_step _ _ r r (local_of <$> local)) by (unfold query, call; rewrite Hf; by destruct r).
  destruct (decide_op _ _) eqn:Hd.
  - set (rr := mkReconciledRow _ _ _ _ _ _ _ _).
    assert (Hrr : reconciled_typed rr) by (destruct Hrow as (? & ? & ? & ?); by split_and!).
    pose proof (reconcile_upsert_effect (re_store r) rr local (cw_files _ Hc) Hrr Hl) as Hup. cbv zeta in Hup.
    change (rr_vv rr) with (fr_vv row) in Hup. rewrite Hd in Hup.
    pose proof (step_ok_reconcile (re_store r) rr Hc Hrr) as [Hwf _]. rewrite Hup in Hwf. cbn [fst] in Hwf.
    rewrite (rep_step _ _ r (mkReplica (re_node_id r) (apply_put Decision.Apply (reconciled_row rr) (re_store r)) (re_fs r))
               Decision.Apply) by (unfold call; by rewrite Hup).
    rewrite bool_decide_true by done. unfold apply_put in *. rewrite bool_decide_true in * by done.
    assert (Hput : ∀ fs, (∀ q, fs !! q = if decide (fr_path row = q) then live_of row else re_fs r !! q) →
      settled (mkReplica (re_node_id r) (put_row (reconciled_row rr) (re_store r)) fs)).
    { intros fs Hfs. split; [done|]. intros q. unfold mirrors. simpl. rewrite Hfs, put_row_live; [|done|apply Hc].
      simpl. case_decide; [done|]. apply (sd_mirrors _ Hs). }
    destruct (fr_content_hash row) as [h|] eqn:Hh, (fr_tombstone row) eqn:Htb; (eexists; split_and!; [reflexivity| |done]);
      apply Hput; intros q; unfold live_of; rewrite ?Htb, ?Hh; case_decide; simpl; by simplify_map_eq.
  - by eauto.
  - destruct (resolve_conflict_spec (fr_path row) (Version.from_row row) r Hs) as (r1 & -> & Hs1 & Hn & _); [by apply from_row_typed|].
    by eauto.
  - by eauto.
Qed.

Lemma reconcile_from_spec rows r :
  settled r → Forall row_typed rows → ∃ r', reconcile_from rows r = (r', Ok ()) ∧ settled r' ∧ re_node_id r' = re_node_id r.
Proof.
  intros Hs Hrows. revert r Hs. induction Hrows as [|row rows Hrow _ IH]; intros r Hs; [by eauto|].
  destruct (reconcile_row_spec row r Hs Hrow) as (r1 & Hrun & Hs1 & Hn). cbn [reconcile_from].
  rewrite (rep_step _ _ r r1 () Hrun). destruct (IH r1 Hs1) as (r2 & -> & Hs2 & Hn2). exists r2. split_and!; [done|done|]. by rewrite Hn2.
Qed.

(** ** A run *)

(** What a simulation may do in the replica's present state: applications
    rename files they have, contents and counters are within their widths,
    and operations from elsewhere carry their content. *)
Definition event_ok (r : Replica) (e : Event) : Prop :=
  match e with
  | LocalWrite _ content => in_u64 (Z.of_nat (length content)) ∧ room (re_node_id r) (re_store r)
  | LocalWriteMode _ content mode => in_u64 (Z.of_nat (length content)) ∧ in_u32 mode ∧ room (re_node_id r) (re_store r)
  | LocalDelete _ => room (re_node_id r) (re_store r)
  | LocalRename old _ => is_Some (re_fs r !! old) ∧ room (re_node_id r) (re_store r)
  | Receive op => representable op
  | ReconcileFrom rows => Forall row_typed rows
  end.
Fixpoint run_ok (r : Replica) (es : list Event) : Prop :=
  match es with [] => True | e :: es => event_ok r e ∧ run_ok (step e r).1 es end.

Lemma step_spec e r :
  settled r → event_ok r e → ∃ r', step e r = (r', Ok ()) ∧ settled r' ∧ re_node_id r' = re_node_id r.
Proof.
  intros Hs He. pose proof (sd_wf _ Hs) as Hc.
  assert (Happ : ∀ fs ch h, change_typed ch → room (re_node_id r) (re_store r) → lc_manifest ch = None →
    (lc_op_type ch = OpType.Write ∧ lc_content_hash ch = h ∧ is_Some h) ∨ (lc_op_type ch = OpType.Delete ∧ h = None) →
    (∀ q, fs !! q = if decide (lc_path ch = q) then h else re_fs r !! q) →
    ∃ r' x, append ch (with_fs fs r) = (r', Ok x) ∧ settled r' ∧ re_node_id r' = re_node_id r).
  { intros fs ch h Hch Hroom Hm Hty Hfs. apply (append_spec ch (with_fs fs r) h); [done..|].
    intros q. simpl. rewrite Hfs. case_decide; [done|]. apply (sd_mirrors _ Hs). }
  destruct e as [path content|path content mode|path|old new|op|rows]; simpl in He |- *.
  - destruct He as [Hlen Hroom].
    destruct (Happ (<[path := blake3 content]> (re_fs r)) (write_change path content 420 None) (Some (blake3 content)))
      as (r' & x & Hrun & Hs' & Hn); [by split_and!|done|done|left; by split_and!| |].
    { intros q. simpl. case_decide; by simplify_map_eq. }
    exists r'. split_and!; [|done|done]. unfold local_write. rewrite (rep_step _ _ r r' x); [done|]. exact Hrun.
  - destruct He as (Hlen & Hmode & Hroom).
    destruct (Happ (<[path := blake3 content]> (re_fs r)) (write_change path content mode (Some (mode_meta mode))) (Some (blake3 content)))
      as (r' & x & Hrun & Hs' & Hn); [|done|done|left; by split_and!| |].
    { split_and!; [done|done|]. by split_and!. }
    { intros q. simpl. case_decide; by simplify_map_eq. }
    exists r'. split_and!; [|done|done]. unfold local_write_with_mode. rewrite (rep_step _ _ r r' x); [done|]. exact Hrun.
  - destruct (Happ (base.delete path (re_fs r)) (mkLocalChange path OpType.Delete 420 0 None None None) None)
      as (r' & x & Hrun & Hs' & Hn); [by split_and!|done|done|by right| |].
    { intros q. simpl. case_decide; by simplify_map_eq. }
    exists r'. split_and!; [|done|done]. unfold local_delete. rewrite (rep_step _ _ r r' x); [done|]. exact Hrun.
  - destruct (local_rename_spec old new r Hs) as (r' & x & Hrun & Hs' & Hn); [apply He..|].
    exists r'. split_and!; [|done|done]. by rewrite (rep_step _ _ r r' x).
  - destruct (receive_spec op r Hs He) as (r' & x & Hrun & Hs' & Hn).
    exists r'. split_and!; [|done|done]. by rewrite (rep_step _ _ r r' x).
  - by apply reconcile_from_spec.
Qed.

Lemma run_spec es r :
  settled r → run_ok r es → ∃ r', run es r = (r', Ok ()) ∧ settled r'.
Proof.
  revert r. induction es as [|e es IH]; intros r Hs Hok; [by exists r|]. destruct Hok as [He Hok].
  destruct (step_spec e r Hs He) as (r1 & Hrun & Hs1 & _). rewrite Hrun in Hok.
  destruct (IH r1 Hs1 Hok) as (r2 & Hrun2 & Hs2). exists r2. split; [|done]. cbn [run]. by rewrite (rep_step _ _ r r1 () Hrun).
Qed.

Lemma elem_of_live_pairs (rows : list FileRow) p h :
  (p, h) ∈ omap (λ r, h ← fr_content_hash r; Some (fr_path r, h)) (filter (λ r, fr_tombstone r = false) rows) ↔
  ∃ row, row ∈ rows ∧ fr_path row = p ∧ live_of row = Some h.
Proof.
  rewrite list_elem_of_omap. unfold live_of. split.
  - intros (row & [Ht Hr]%list_elem_of_filter & Hh). exists row. rewrite Ht.
    by destruct (fr_content_hash row); simplify_eq/=.
  - intros (row & Hr & <- & Hh). exists row. rewrite list_elem_of_filter. destruct (fr_tombstone row); [done|].
    by rewrite Hh.
Qed.

Lemma live_rows_lookup (rows : list FileRow) p h :
  NoDup (fr_path <$> rows) → live_rows rows !! p = Some h ↔ ∃ row, row ∈ rows ∧ fr_path row = p ∧ live_of row = Some h.
Proof.
  intros Hnd. rewrite <- elem_of_live_pairs. unfold live_rows.
  rewrite <- elem_of_list_to_map, elem_of_reverse; [done|]. rewrite fmap_reverse, reverse_Permutation.
  apply (sublist_NoDup _ (fr_path <$> rows)); [done|]. clear. induction rows as [|r rows IH]; [done|].
  rewrite filter_cons. case_decide; simpl; [|by apply sublist_cons].
  destruct (fr_content_hash r); simpl; [by apply sublist_skip|by apply sublist_cons].
Qed.

Lemma settled_asserts r : settled r → assert_fs_matches_index r = (r, Ok true).
Proof.
  intros Hs. destruct (all_files_spec (re_store r)) as (rows & Hall & Hnd & _ & Hin); [apply (sd_wf _ Hs)|].
  unfold assert_fs_matches_index. rewrite (rep_step _ _ r r rows) by (unfold snapshot, query, call; rewrite Hall; by destruct r).
  rewrite bool_decide_true; [done|]. apply map_eq. intros p. rewrite (sd_mirrors _ Hs).
  apply option_eq. intros h. rewrite live_rows_lookup by done. unfold live_at. split.
  - destruct (load_row (re_store r) p) as [[row|]|] eqn:Hl; [|done..]. intros Hh. exists row.
    assert (Hp : fr_path row = p) by (eapply load_row_path; [apply (sd_wf _ Hs)|done]).
    split_and!; [|done|done]. apply Hin. by rewrite Hp.
  - intros (row & Hr & <- & Hh). apply Hin in Hr. by rewrite Hr.
Qed.

Lemma new_settled `{!ScanLaws} node : settled (Replica.new node).
Proof.
  assert (Hopen : re_store (Replica.new node) = mkConn [] ∅ ∅ ∅ ∅ ∅ ∅ ∅).
  { unfold Replica.new, open_conn, migrate_uuids. cbn [re_store]. rewrite backfill_done; done. }
  split.
  - rewrite Hopen. split; [apply map_Forall_empty|constructor|constructor|apply map_Forall_empty].
  - intros p. unfold mirrors. by rewrite Hopen.
Qed.

(** C15: The simulated node never drifts. From a fresh replica, along every
    sequence of local writes, deletes and renames, of arriving operations -
    reordered, repeated, stale, concurrent - and of reconciled snapshots that
    meets the conditions below, every call succeeds and afterwards the file
    system holds exactly the live rows of the index with their content: the
    assertion the property tests make holds in every reachable state, conflict
    copies, rename sources and tombstones included. Conditions: an operation
    that arrives carries a content hash unless it is a delete, a rename names
    its source, and no operation names its own path as the source; a local rename is of a file
    that is there; sizes, modes, vectors and the node's own counters are
    within the ranges of their types. (A write without content over an existing
    path is outside, and so is a rename without a source, which the store refuses.) *)
Theorem replica_never_drifts `{!ScanLaws} (node : NodeId) (es : list Event) :
  run_ok (Replica.new node) es →
  ∃ r, run es (Replica.new node) = (r, Ok ()) ∧ assert_fs_matches_index r = (r, Ok true).
Proof.
  intros Hok. destruct (run_spec es _ (new_settled node) Hok) as (r & Hrun & Hs).
  exists r. split; [done|by apply settled_asserts].
Qed.
End replica.

(** ** Two replicas in conflict *)

Import Ex StateEx.

(** Node [b]'s own write, the concurrent write of [a], a rename of what won
    and its redelivery. *)
Definition drift_run : list Event :=
  [LocalWrite "x" [x01]; Receive op1; Receive op1; LocalRename "x" "y"; Receive op2; LocalDelete "y"].

(** What of [event_ok] depends on the state, and what does not. *)
Definition dynamic_ok (r : Replica) (e : Event) : bool :=
  room_check (re_node_id r) (re_store r) &&
  match e with LocalRename old _ => bool_decide (is_Some (re_fs r !! old)) | _ => true end.
Definition static_ok (e : Event) : Prop :=
  match e with
  | LocalWrite _ content => in_u64 (Z.of_nat (length content))
  | LocalWriteMode _ content mode => in_u64 (Z.of_nat (length content)) ∧ in_u32 mode
  | Receive op => representable op
  | ReconcileFrom rows => Forall row_typed rows
  | _ => True
  end.
Fixpoint run_check (r : Replica) (es : list Event) : bool :=
  match es with [] => true | e :: es => dynamic_ok r e && run_check (step e r).1 es end.

Lemma run_checked r es : settled r → Forall static_ok es → run_check r es = true → run_ok r es.
Proof.
  intros Hs Hes. revert r Hs. induction Hes as [|e es He _ IH]; intros r Hs; [done|].
  intros [Hd Hrun]%andb_true_iff. apply andb_true_iff in Hd as [Hroom%room_checked Hd]; [|apply (sd_wf _ Hs)].
  assert (Hok : event_ok r e).
  { destruct e; simpl in *; try done; [naive_solver|]. split; [by apply bool_decide_eq_true in Hd|done]. }
  destruct (step_spec e r Hs Hok) as (r1 & Hstep & Hs1 & _). split; [done|]. rewrite Hstep in *. by apply IH.
Qed.

Lemma write_representable op :
  op_typed op → op_op_type op = OpType.Write → is_Some (op_content_hash op) → op_path_old op = None → representable op.
Proof. intros Hop Ht Hc Ho. unfold representable. rewrite Ho, Ht. by split_and!. Qed.

Lemma op1_representable : representable op1.
Proof. apply write_representable; [apply op_typed_1|vm_decide|exists h1; vm_decide|vm_decide]. Qed.
Lemma op2_representable : representable op2.
Proof.
  apply write_representable; [|vm_decide|exists h2; vm_decide|vm_decide].
  split; [|split; [|split]]; [vm_compute; split; [discriminate|reflexivity]|vm_compute; split; [discriminate|reflexivity]|vm_decide|vm_compute; exact I].
Qed.

Lemma replica_never_drifts_witness :
  ∃ r, run drift_run (Replica.new node_b) = (r, Ok ()) ∧ assert_fs_matches_index r = (r, Ok true).
Proof.
  apply (replica_never_drifts node_b drift_run). apply run_checked; [apply new_settled| |vm_compute; reflexivity].
  pose proof op1_representable. pose proof op2_representable. by repeat apply Forall_cons_2.
Defined.

(** That run ends with one file and one conflict copy. *)
Example drift_run_copies :
  (λ p, is_copy p) <$> btree_keys (re_fs (run drift_run (Replica.new node_b)).1) = [false; true].
Proof. vm_compute. reflexivity. Qed.
