(* ===== verification/Session.v ===== *)
(** * Operation streams between two nodes (src/src/net.rs)

    The responder pushes its own operations, between two batches held at the
    pause gate, and absorbs acknowledgements, in two concurrent tasks that
    share the pushed frontier; the subscriber shakes hands, runs an
    anti-entropy session, subscribes after the frontier that session named,
    and handles and acknowledges each operation. A run of the responder is a
    sequence of steps of either task, of commands other tasks give the store
    and of pauses and resumes; frames and the failures of the stream are
    inputs. *)

From S2P Require Import Prelude Vv Decide Metadata Conflict State Oplog Suppress Merkle Chunk Proto Fs Apply Peer Fetch Engine Reconcile.

(** What a read of the control stream gives. *)
Abbreviation Incoming := (result ProtoError Frame).

Definition PUSH_BATCH : Z := 64.

(** [resume.iter().find(|(origin, _)| ...)] *)
Definition entry_for (node : NodeId) (l : list (NodeId * Z)) : Z :=
  default 0 (snd <$> head (filter (λ e, e.1 = node) l)).

(** ** The responder *)

Module Responder.
Section with_externals.
Context `{!Blake3, !Bincode, !Hex, !Scan}.

Definition check_hello (peer : NodeId) (f : Incoming) : result NetError unit :=
  match f with
  | Ok (Frame.Hello v id _) =>
      if bool_decide (v ≠ PROTO_VERSION) then Err (NetError.Version v) else
      if bool_decide (id ≠ peer) then Err NetError.PeerIdentityMismatch else Ok ()
  | Ok _ => Err (NetError.Violation "expected Hello")
  | Err e => Err (NetError.Proto e)
  end.

(** The gate: nothing is pushed until the dialer subscribes. [None] while the
    frames so far leave it waiting. *)
Fixpoint gate (node : NodeId) (frames : list Incoming) : option (result NetError (Z * list Incoming)) :=
  match frames with
  | [] => None
  | Ok (Frame.SubscribeOps resume) :: frames => Some (Ok (entry_for node resume, frames))
  | Ok (Frame.Ping _) :: frames => gate node frames
  | Ok _ :: _ => Some (Err (NetError.Violation "control frame before SubscribeOps"))
  | Err ProtoError.Closed :: _ => Some (Err (NetError.Violation "closed before SubscribeOps"))
  | Err e :: _ => Some (Err (NetError.Proto e))
  end.

(** Where [push_ops] stands: at the pause gate, about to poll, with a batch to
    send, between the write of a frame and the publication of its number, or
    asleep on the watch. *)
Inductive PushPc : Type :=
| Gate (w : WaitPc)
| Polling
| Sending (ops : list OpRecord)
| Written (ops : list OpRecord)
| Asleep.

(** [lk_seen] is the value the watch has been marked seen at, [lk_frontier]
    the shared [sent_frontier], [lk_wire] the frames written; [lk_paused] is
    the engine's flag and [lk_notified] counts the calls of
    [resume_notify.notify_waiters]. *)
Record Link : Type := mkLink {
  lk_store : StoreState;
  lk_paused : bool;
  lk_notified : nat;
  lk_seen : Z;
  lk_cursor : Z;
  lk_pc : PushPc;
  lk_frontier : Z;
  lk_wire : list OpRecord;
  lk_ended : option (result NetError unit);
}.

(** The state in which the two tasks are started. *)
Definition start (st : StoreState) (paused : bool) (resume_from : Z) : Link :=
  mkLink st paused 0 (ss_latest st) resume_from (Gate WCheck) resume_from [] None.

Definition end_link (r : result NetError unit) (l : Link) : Link :=
  mkLink (lk_store l) (lk_paused l) (lk_notified l) (lk_seen l) (lk_cursor l) (lk_pc l) (lk_frontier l) (lk_wire l) (Some r).
Definition set_pc (pc : PushPc) (l : Link) : Link :=
  mkLink (lk_store l) (lk_paused l) (lk_notified l) (lk_seen l) (lk_cursor l) pc (lk_frontier l) (lk_wire l) (lk_ended l).
Definition set_gate (paused : bool) (notified : nat) (l : Link) : Link :=
  mkLink (lk_store l) paused notified (lk_seen l) (lk_cursor l) (lk_pc l) (lk_frontier l) (lk_wire l) (lk_ended l).

(** [await_unpaused]; [None]: past the gate. *)
Definition await_unpaused (w : WaitPc) (l : Link) : option WaitPc := wait_step (lk_paused l) (lk_notified l) w.

(** The task steps. [wrote] says whether the write of a frame succeeds. *)
Definition push_step (node : NodeId) (wrote : bool) (l : Link) : Link :=
  match lk_pc l with
  | Gate w =>
      match await_unpaused w l with
      | Some w => set_pc (Gate w) l
      | None => set_pc Polling l
      end
  | Polling =>
      match Oplog.ops_since (ss_conn (lk_store l)) node (lk_cursor l) PUSH_BATCH with
      | Err e => end_link (Err (NetError.Store e)) l
      | Ok [] => set_pc Asleep l
      | Ok ops => set_pc (Sending ops) l
      end
  | Asleep =>
      if bool_decide (ss_latest (lk_store l) = lk_seen l) then l
      else mkLink (lk_store l) (lk_paused l) (lk_notified l) (ss_latest (lk_store l)) (lk_cursor l) (Gate WCheck) (lk_frontier l) (lk_wire l) (lk_ended l)
  | Sending [] => set_pc (Gate WCheck) l
  | Sending (op :: ops) =>
      let l := mkLink (lk_store l) (lk_paused l) (lk_notified l) (lk_seen l) (op_origin_seq op) (lk_pc l) (lk_frontier l) (lk_wire l) (lk_ended l) in
      if wrote
      then mkLink (lk_store l) (lk_paused l) (lk_notified l) (lk_seen l) (lk_cursor l) (Written ops) (lk_frontier l) (lk_wire l ++ [op]) (lk_ended l)
      else end_link (Err NetError.Transport) l
  | Written ops =>
      mkLink (lk_store l) (lk_paused l) (lk_notified l) (lk_seen l) (lk_cursor l) (Sending ops) (lk_cursor l) (lk_wire l) (lk_ended l)
  end.

Definition set_link_store (st : StoreState) (l : Link) : Link :=
  mkLink st (lk_paused l) (lk_notified l) (lk_seen l) (lk_cursor l) (lk_pc l) (lk_frontier l) (lk_wire l) (lk_ended l).

(** One turn of [absorb_acks]. *)
Definition absorb_step (node peer : NodeId) (f : Incoming) (l : Link) : Link :=
  match f with
  | Ok (Frame.OplogAck origin up_to_seq) =>
      if bool_decide (origin ≠ node) then end_link (Err (NetError.Violation "ack for an origin we did not push")) l else
      if bool_decide (lk_frontier l < up_to_seq) then end_link (Err (NetError.Violation "ack beyond the pushed frontier")) l
      else set_link_store (store_step node (lk_store l) (AdvanceAck peer up_to_seq)).1 l
  | Ok (Frame.Ping _) => l
  | Ok _ => end_link (Err (NetError.Violation "unexpected frame on ack path")) l
  | Err ProtoError.Closed => end_link (Ok ()) l
  | Err e => end_link (Err (NetError.Proto e)) l
  end.

(** Steps of the two tasks and of the rest of the node: commands to the store,
    [pause], and the two halves of [resume]. *)
Inductive LinkStep : Type :=
| Others (cmd : StoreCmd)
| Pause
| Unpause
| Notify
| Push (wrote : bool)
| Absorb (f : Incoming).

(** The select: the first task to end ends the link. *)
Definition link_step (node peer : NodeId) (l : Link) (a : LinkStep) : Link :=
  match lk_ended l with
  | Some _ => l
  | None =>
      match a with
      | Others cmd => set_link_store (store_step node (lk_store l) cmd).1 l
      | Pause => set_gate true (lk_notified l) l
      | Unpause => set_gate false (lk_notified l) l
      | Notify => set_gate (lk_paused l) (S (lk_notified l)) l
      | Push wrote => push_step node wrote l
      | Absorb f => absorb_step node peer f l
      end
  end.

Definition run_link (node peer : NodeId) (l : Link) (acts : list LinkStep) : Link :=
  foldl (link_step node peer) l acts.
End with_externals.
End Responder.

(** ** The subscriber *)

Module Subscriber.
Section with_externals.
Context `{!Blake3, !Bincode, !Hex, !Scan, !HashIter}.
Context (cfg : EngineCfg).

Definition check_hello_ack (peer : NodeId) (f : Incoming) : result NetError unit :=
  match f with
  | Ok (Frame.HelloAck v id) =>
      if bool_decide (v ≠ PROTO_VERSION) then Err (NetError.Version v) else
      if bool_decide (id ≠ peer) then Err NetError.PeerIdentityMismatch else Ok ()
  | Ok _ => Err (NetError.Violation "expected HelloAck")
  | Err e => Err (NetError.Proto e)
  end.

Definition recv_cursor (peer : NodeId) : Eng NetError Z :=
  Engine.ask cfg (RecvCursor peer) (λ r, match r with RInt x => Some x | _ => None end).
Definition advance_recv_cursor (peer origin : NodeId) (seq : Z) : Eng NetError unit :=
  Engine.ask cfg (AdvanceRecvCursor peer origin seq) (λ r, match r with RUnit x => Some x | _ => None end).

(** [write_msg]: the frame is on the wire, or the stream has failed. *)
Definition written (ok : bool) : Eng NetError unit := if ok then mret () else raise NetError.Transport.

(** [subscription_io] up to its receive loop, in three parts. The handshake:
    the resume point it was sent with. [wrote] says whether the write
    succeeds. *)
Definition greet (peer : NodeId) (wrote : bool) (hello_ack : Incoming) : Eng NetError Z :=
  resume_from ← recv_cursor peer;
  written wrote;;
  match check_hello_ack peer hello_ack with
  | Err e => raise e
  | Ok _ => mret resume_from
  end.

(** The gate: the anti-entropy session with the peer; it gives the frontier
    the responder named. [None] when the fuel ran out. *)
Definition gate_reconcile (answer : Reconcile.Answer) (fuel : nat) (peer : NodeId) (s : EngineState)
  : option (EngineState * outcome NetError (list (NodeId * Z))) :=
  match Reconcile.reconcile_with cfg answer fuel peer s with
  | Some (Ok (s, _, frontier)) => Some (s, Done frontier)
  | Some (Err (s, Some e)) => Some (s, Fail e)
  | Some (Err (s, None)) => Some (s, Crashed)
  | None => None
  end.

(** The handoff: the cursor is advanced durably, then the subscription is
    sent. *)
Definition hand_off (peer : NodeId) (wrote : bool) (resume_from : Z) (frontier : list (NodeId * Z)) : Eng NetError (list Frame * Z) :=
  let new_cursor := Z.max (entry_for peer frontier) resume_from in
  (if bool_decide (resume_from < new_cursor) then advance_recv_cursor peer peer new_cursor else mret ());;
  written wrote;;
  mret ([Frame.Hello PROTO_VERSION (ec_node_id cfg) [(peer, resume_from)]; Frame.SubscribeOps [(peer, new_cursor)]], new_cursor).

(** The frames written and the resume point. *)
Definition subscribe (answer : Reconcile.Answer) (fuel : nat) (peer : NodeId) (wrote : bool * bool) (hello_ack : Incoming) (s : EngineState)
  : option (EngineState * outcome NetError (list Frame * Z)) :=
  match greet peer wrote.1 hello_ack s with
  | (s, Done resume_from) =>
      match gate_reconcile answer fuel peer s with
      | Some (s, Done frontier) => Some (hand_off peer wrote.2 resume_from frontier s)
      | Some (s, Fail e) => Some (s, Fail e)
      | Some (s, Crashed) => Some (s, Crashed)
      | None => None
      end
  | (s, Fail e) => Some (s, Fail e)
  | (s, Crashed) => Some (s, Crashed)
  end.

(** The receive loop over the frames that arrive, each with whether the answer
    to it can be written: the state, the frames written, and how the loop
    ended ([None] while it is still listening). *)
Fixpoint op_loop (peer : NodeId) (frames : list (Incoming * bool)) (out : list Frame) (s : EngineState)
  : EngineState * list Frame * option (outcome NetError unit) :=
  match frames with
  | [] => (s, out, None)
  | (Ok (Frame.OplogPush op), wrote) :: frames =>
      if bool_decide (op_origin op ≠ peer)
      then (s, out, Some (Fail (NetError.Violation "op origin is not the pushing peer")))
      else match Engine.process_remote_op cfg op s with
           | (s, Done _) =>
               if wrote then op_loop peer frames (out ++ [Frame.OplogAck peer (op_origin_seq op)]) s
               else (s, out, Some (Fail NetError.Transport))
           | (s, r) => (s, out, Some r)
           end
  | (Ok (Frame.Ping nonce), wrote) :: frames =>
      if wrote then op_loop peer frames (out ++ [Frame.Pong nonce]) s else (s, out, Some (Fail NetError.Transport))
  | (Ok _, _) :: _ => (s, out, Some (Fail (NetError.Violation "unexpected frame on op stream")))
  | (Err ProtoError.Closed, _) :: _ => (s, out, Some (Done ()))
  | (Err e, _) :: _ => (s, out, Some (Fail (NetError.Proto e)))
  end.
End with_externals.
End Subscriber.
