(* ===== verification/SessionProofs.v ===== *)
(** * Operation streams: what the two ends guarantee

    The responder's stream is exactly its log after the resume point, it
    never sleeps through an append, it sends nothing from the gate of a paused
    node, and acknowledgements are bounded. *)

From S2P Require Import Prelude Vv Decide Metadata Conflict ConflictProofs State Oplog OplogProofs StoreProps StreamProps Marks.
From S2P Require Import Suppress Merkle Chunk Proto Fs Apply Peer Fetch Engine EngineProofs Session.
Import Responder.

Lemma prefix_drop_mono {A} (l a b : list A) n : l `prefix_of` drop n a → a `prefix_of` b → l `prefix_of` drop n b.
Proof.
  intros [k Hk] [k' ->]. destruct (decide (n ≤ length a)%nat) as [Hn|Hn].
  - rewrite drop_app_le by done. rewrite Hk. rewrite <- (assoc_L (++)). by apply prefix_app_r.
  - rewrite drop_ge in Hk by lia. destruct l; [|done]. apply prefix_nil.
Qed.

Lemma own_prefix node ops ops' : ops `prefix_of` ops' → own node ops `prefix_of` own node ops'.
Proof. intros [k ->]. unfold own. rewrite filter_app. by apply prefix_app_r. Qed.

Lemma classify_ack cmd : (∃ p seq, cmd = AdvanceAck p seq) ∨ ∀ p seq, cmd ≠ AdvanceAck p seq.
Proof. destruct cmd; try (right; intros ? ?; discriminate). left. by do 2 eexists. Qed.

Section responder.
Context `{!Blake3, !Bincode, !Hex, !Scan, !BincodeLaws}.
Context (op_id_inj : ∀ o s o' s', in_i64 s → in_i64 s' → Oplog.op_id o s = Oplog.op_id o' s' → o = o' ∧ s = s').
Context (node peer : NodeId) (resume : Z) (Hresume : 0 ≤ resume).

Abbreviation conn l := (ss_conn (lk_store l)).
Abbreviation count ops := (Z.of_nat (length (own node ops))).

(** What the push task's position says about the log. *)
Definition pc_ok (l : Link) (ops : list OpRecord) : Prop :=
  match lk_pc l with
  | Gate (WParked since) => (since ≤ lk_notified l)%nat
  | Gate _ | Polling => True
  | Sending pending | Written pending => pending `prefix_of` drop (Z.to_nat (lk_cursor l)) (own node ops)
  | Asleep => count ops ≤ lk_cursor l ∨ lk_seen l < ss_latest (lk_store l)
  end.

(** The invariant of a link whose node's log is [ops]. *)
Record link_ok (l : Link) (ops : list OpRecord) : Prop := {
  lk_wf : conn_wf (conn l);
  lk_log : log_ok node (conn l) ops;
  lk_latest : ss_latest (lk_store l) = count ops;
  lk_marked : lk_seen l ≤ ss_latest (lk_store l);
  lk_sent : lk_wire l `prefix_of` drop (Z.to_nat resume) (own node ops);
  lk_bounded : lk_frontier l ≤ resume + Z.of_nat (length (lk_wire l));
  lk_running : lk_ended l = None → lk_cursor l = resume + Z.of_nat (length (lk_wire l)) ∧ pc_ok l ops;
}.

Lemma start_ok st paused ops :
  conn_wf (ss_conn st) → log_ok node (ss_conn st) ops → ss_latest st = count ops → link_ok (start st paused resume) ops.
Proof. intros Hwf Hlog Hlat. split; try done; simpl; [apply prefix_nil|lia|]. intros _. split; [lia|done]. Qed.

Lemma end_ok r l ops : link_ok l ops → link_ok (end_link r l) ops.
Proof. intros [Hwf Hlog Hlat Hm Hs Hb _]. by split. Qed.

Lemma own_lookup_seq ops c i op : log_ok node c ops → own node ops !! i = Some op → op_origin_seq op = Z.of_nat i + 1.
Proof.
  intros [_ _ Hgf] Hi. assert (Hs : (op_origin_seq <$> own node ops) !! i = Some (op_origin_seq op)) by by rewrite list_lookup_fmap, Hi.
  rewrite Hgf in Hs. apply lookup_seqZ in Hs. lia.
Qed.

(** The log after the cursor, seen from the wire. *)
Lemma wire_split l ops :
  link_ok l ops → lk_ended l = None →
  drop (Z.to_nat resume) (own node ops) = lk_wire l ++ drop (Z.to_nat (lk_cursor l)) (own node ops).
Proof.
  intros Hok Hend. destruct (lk_running _ _ Hok Hend) as [Hcur _]. destruct (lk_sent _ _ Hok) as [k Hk].
  rewrite Hk. f_equal. rewrite Hcur. replace (Z.to_nat (resume + _)) with (Z.to_nat resume + length (lk_wire l))%nat by lia.
  rewrite <- drop_drop, Hk. by rewrite drop_app_length.
Qed.

Lemma push_ok wrote l ops : link_ok l ops → lk_ended l = None → link_ok (push_step node wrote l) ops.
Proof.
  intros Hok Hend. pose proof (wire_split l ops Hok Hend) as Hsplit. pose proof Hok as [Hwf Hlog Hlat Hm Hs Hb Hrun].
  destruct (Hrun Hend) as [Hcur Hpc]. unfold push_step, pc_ok in *.
  destruct (lk_pc l) as [w| |[|op pend]|pend|] eqn:Hp.
  - unfold await_unpaused, wait_step. destruct w as [| |since]; repeat case_match; simplify_eq; split; try done;
      intros _; (split; [done|]); unfold pc_ok; cbn; done || lia.
  - rewrite (ops_since_spec node (conn l) ops) by (done || unfold PUSH_BATCH; lia).
    destruct (take _ _) as [|op batch] eqn:Hbatch; split; try done; intros _; (split; [done|]); unfold pc_ok; simpl.
    + left. destruct (drop (Z.to_nat (lk_cursor l)) (own node ops)) as [|] eqn:Hd; [|done].
      apply (f_equal length) in Hd. rewrite length_drop in Hd. simpl in Hd. lia.
    + rewrite <- Hbatch. apply prefix_take.
  - by split.
  - destruct Hpc as [k Hk].
    assert (Hop : own node ops !! Z.to_nat (lk_cursor l) = Some op).
    { rewrite <- (Nat.add_0_r (Z.to_nat _)), <- lookup_drop, Hk. done. }
    pose proof (own_lookup_seq ops _ _ _ Hlog Hop) as Hseq. rewrite Z2Nat.id in Hseq by lia.
    cbv zeta. destruct wrote; cbn [lk_store lk_paused lk_notified lk_seen lk_cursor lk_frontier lk_wire lk_ended].
    + split; try done; cbn [lk_store lk_seen lk_cursor lk_frontier lk_wire lk_ended lk_pc].
      * rewrite Hsplit, Hk. apply prefix_app. simpl. apply prefix_cons, prefix_nil.
      * rewrite length_app. simpl. lia.
      * intros _. rewrite length_app. split; [simpl; lia|]. unfold pc_ok. cbn [lk_pc lk_cursor]. rewrite Hseq.
        replace (Z.to_nat (lk_cursor l + 1)) with (Z.to_nat (lk_cursor l) + 1)%nat by lia.
        rewrite <- drop_drop, Hk. by apply prefix_app_r.
    + by split.
  - split; try done. cbn [lk_frontier lk_wire]. lia.
  - case_bool_decide as Hseen; [exact Hok|]. by split.
Qed.

(** A command of another task. *)
Definition other_ok (l : Link) (cmd : StoreCmd) : Prop :=
  cmd_typed cmd ∧ room node (conn l) ∧ remote_ok node cmd ∧ ss_latest (lk_store l) + 1 < 2 ^ 63.

Lemma others_ok cmd l ops :
  link_ok l ops → other_ok l cmd →
  ∃ ops', link_ok (set_link_store (store_step node (lk_store l) cmd).1 l) ops' ∧ ops `prefix_of` ops'.
Proof.
  intros [Hwf Hlog Hlat Hm Hs Hb Hrun] (Hty & Hroom & Hrem & Hmax).
  destruct (store_step_log_ok op_id_inj node (lk_store l) cmd ops) as (ops' & Hlog' & Hpre & Hlat' & Hgrow); [done..|lia|done|].
  assert (Hlen : count ops ≤ count ops') by (apply Nat2Z.inj_le, prefix_length, own_prefix, Hpre).
  exists ops'. split; [|done]. split; cbn [set_link_store lk_store lk_seen lk_cursor lk_frontier lk_wire lk_ended].
  - by apply store_step_ok.
  - done.
  - done.
  - lia.
  - eapply prefix_drop_mono; [exact Hs|by apply own_prefix].
  - done.
  - intros Hend. destruct (Hrun Hend) as [Hcur Hpc]. split; [done|]. unfold pc_ok in *. cbn [set_link_store lk_pc lk_cursor lk_seen lk_store].
    destruct (lk_pc l); [done|done|by eapply prefix_drop_mono; [|apply own_prefix]..|].
    destruct (decide (count ops' ≤ lk_cursor l)) as [|Hn]; [by left|right]. destruct Hpc as [Hle|Hlt]; lia.
Qed.

Lemma ack_store_ok up_to l ops :
  link_ok l ops → link_ok (set_link_store (store_step node (lk_store l) (AdvanceAck peer up_to)).1 l) ops.
Proof.
  intros [[Hf Ho Hi Hc] Hlog Hlat Hm Hs Hb Hrun]. split; try done. by apply (log_ok_oplog node (conn l)).
Qed.

Lemma gate_ok paused notified l ops : (lk_notified l ≤ notified)%nat → link_ok l ops → link_ok (set_gate paused notified l) ops.
Proof.
  intros Hle [Hwf Hlog Hlat Hm Hs Hb Hrun]. split; try done. intros Hend. destruct (Hrun Hend) as [Hcur Hpc]. split; [done|].
  unfold pc_ok in *. cbn [set_gate lk_pc lk_notified lk_cursor lk_seen lk_store]. destruct (lk_pc l) as [[]| | | |]; try done. lia.
Qed.

Lemma absorb_ok f l ops : link_ok l ops → link_ok (absorb_step node peer f l) ops.
Proof.
  intros Hok. unfold absorb_step. destruct f as [[]|[]]; try (by apply end_ok); try exact Hok.
  do 2 (case_bool_decide; [by apply end_ok|]). by apply ack_store_ok.
Qed.

(** Along a run, the other tasks' commands are in order. *)
Fixpoint acts_ok (l : Link) (acts : list LinkStep) : Prop :=
  match acts with
  | [] => True
  | a :: acts => match a with Others cmd => other_ok l cmd | _ => True end ∧ acts_ok (link_step node peer l a) acts
  end.

Lemma link_step_ok a l ops :
  link_ok l ops → match a with Others cmd => other_ok l cmd | _ => True end →
  ∃ ops', link_ok (link_step node peer l a) ops' ∧ ops `prefix_of` ops'.
Proof.
  intros Hok Ha. unfold link_step. destruct (lk_ended l) eqn:Hend; [by exists ops|].
  destruct a as [cmd| | | |wrote|f]; [by apply others_ok|exists ops..].
  1-3: split; [apply gate_ok; [lia|done]|done].
  - split; [by apply push_ok|done].
  - split; [by apply absorb_ok|done].
Qed.

Lemma run_link_ok acts l ops :
  link_ok l ops → acts_ok l acts → ∃ ops', link_ok (run_link node peer l acts) ops' ∧ ops `prefix_of` ops'.
Proof.
  revert l ops. induction acts as [|a acts IH]; intros l ops Hok Hacts; [by exists ops|].
  destruct Hacts as [Ha Hacts]. destruct (link_step_ok a l ops Hok Ha) as (ops1 & Hok1 & Hpre1).
  destruct (IH _ ops1 Hok1 Hacts) as (ops' & Hok' & Hpre). exists ops'. split; [done|by etrans].
Qed.

(** ** Progress *)

Definition rank (pc : PushPc) : nat :=
  match pc with
  | Sending (_ :: _) => 0 | Polling => 1 | Gate WCheck => 2 | Gate _ | Asleep | Sending [] => 3 | Written _ => 4
  end.
Definition work (l : Link) (ops : list OpRecord) : nat :=
  5 * length (drop (Z.to_nat (lk_cursor l)) (own node ops)) + rank (lk_pc l).

(** The gate lets the push task through: the node is not paused, and the task
    is neither between its test of the flag and its listener nor parked since
    the last notification. *)
Definition awake (l : Link) : Prop :=
  lk_paused l = false ∧
  match lk_pc l with Gate WSeen => False | Gate (WParked since) => since ≠ lk_notified l | _ => True end.

Lemma push_progress l ops :
  link_ok l ops → lk_ended l = None → awake l → drop (Z.to_nat (lk_cursor l)) (own node ops) ≠ [] →
  lk_ended (push_step node true l) = None ∧ awake (push_step node true l) ∧ (work (push_step node true l) ops < work l ops)%nat.
Proof.
  intros Hok Hend [Hrunning Hawake] Hne. pose proof Hok as [Hwf Hlog Hlat Hm Hs Hb Hrun]. destruct (Hrun Hend) as [Hcur Hpc].
  unfold push_step, work, pc_ok, awake in *. destruct (lk_pc l) as [w| |[|op pend]|pend|] eqn:Hp.
  - unfold await_unpaused, wait_step. destruct w as [| |since]; [|done|].
    + rewrite Hrunning. cbn. split_and!; [done..|lia].
    + rewrite bool_decide_false by done. cbn. split_and!; [done..|lia].
  - rewrite (ops_since_spec node (conn l) ops) by (done || unfold PUSH_BATCH; lia).
    destruct (drop _ _) as [|op rest] eqn:Hd; [done|]. change (Z.to_nat PUSH_BATCH) with 64%nat. cbn [take set_pc lk_ended lk_cursor lk_pc lk_paused rank].
    rewrite Hd. split_and!; [done..|lia].
  - cbn. split_and!; [done..|lia].
  - destruct Hpc as [k Hk].
    assert (Hop : own node ops !! Z.to_nat (lk_cursor l) = Some op).
    { rewrite <- (Nat.add_0_r (Z.to_nat _)), <- lookup_drop, Hk. done. }
    pose proof (own_lookup_seq ops _ _ _ Hlog Hop) as Hseq. rewrite Z2Nat.id in Hseq by lia.
    cbn [lk_ended lk_cursor lk_pc rank lk_store lk_paused lk_seen lk_frontier lk_wire]. split_and!; [done..|]. rewrite Hseq.
    replace (Z.to_nat (lk_cursor l + 1)) with (Z.to_nat (lk_cursor l) + 1)%nat by lia.
    rewrite <- drop_drop, Hk. simpl. rewrite length_app. rewrite drop_0. rewrite length_app. lia.
  - cbn [lk_ended lk_cursor lk_pc lk_paused]. split_and!; [done..|]. destruct pend; simpl; lia.
  - destruct Hpc as [Hle|Hlt].
    { exfalso. apply Hne. apply drop_ge. lia. }
    rewrite bool_decide_false by lia. cbn [lk_ended lk_cursor lk_pc lk_paused rank]. split_and!; [done..|lia].
Qed.

Lemma push_drains m l ops :
  link_ok l ops → lk_ended l = None → awake l → (work l ops ≤ m)%nat →
  ∃ n, lk_wire (run_link node peer l (replicate n (Push true))) = drop (Z.to_nat resume) (own node ops).
Proof.
  revert l. induction m as [m IH] using lt_wf_ind. intros l Hok Hend Haw Hm.
  destruct (decide (drop (Z.to_nat (lk_cursor l)) (own node ops) = [])) as [Hd|Hd].
  { exists 0%nat. rewrite (wire_split l ops Hok Hend), Hd. by rewrite app_nil_r. }
  destruct (push_progress l ops Hok Hend Haw Hd) as (Hend' & Haw' & Hless).
  destruct (IH (work (push_step node true l) ops) ltac:(lia) (push_step node true l)) as [n Hn]; [by apply push_ok|done..|].
  exists (S n). cbn [replicate run_link foldl]. unfold link_step at 2. rewrite Hend. exact Hn.
Qed.

(** ** Pausing *)

Definition at_gate (l : Link) : Prop := match lk_pc l with Gate _ => True | _ => False end.

(** At the gate of a paused node nothing is sent before the node is resumed. *)
Lemma paused_step a l :
  lk_paused l = true → at_gate l → a ≠ Unpause →
  let l' := link_step node peer l a in lk_paused l' = true ∧ at_gate l' ∧ lk_wire l' = lk_wire l.
Proof.
  intros Hp Hg Ha. unfold link_step. destruct (lk_ended l); [done|]. unfold at_gate in *.
  destruct (lk_pc l) as [w| | | |] eqn:Hpc; try done. destruct a as [cmd| | | |wrote|f]; cbn; rewrite ?Hpc; try done.
  - unfold push_step, await_unpaused. rewrite Hpc, Hp. destruct w as [| |since]; cbn; [done..|]. by destruct (bool_decide _).
  - unfold absorb_step. destruct f as [[]|[]]; cbn; rewrite ?Hpc; try done.
    repeat (case_bool_decide; [cbn; by rewrite Hpc|]). cbn. by rewrite Hpc.
Qed.

Lemma paused_holds acts l :
  lk_paused l = true → at_gate l → Unpause ∉ acts → lk_wire (run_link node peer l acts) = lk_wire l.
Proof.
  revert l. induction acts as [|a acts IH]; intros l Hp Hg Ha; [done|]. apply not_elem_of_cons in Ha as [Ha Hacts].
  destruct (paused_step a l Hp Hg) as (Hp' & Hg' & Hw); [congruence|]. cbn [run_link foldl]. unfold run_link in IH. by rewrite IH.
Qed.

(** A resume that the push task cannot miss. *)
Lemma resumed_awake l ops :
  link_ok l ops → lk_ended l = None → lk_pc l ≠ Gate WSeen →
  let l' := run_link node peer l [Unpause; Notify] in link_ok l' ops ∧ lk_ended l' = None ∧ awake l'.
Proof.
  intros Hok Hend Hpc. cbn [run_link foldl]. unfold link_step at 2 4 6. rewrite Hend. unfold link_step.
  cbn [set_gate lk_ended]. rewrite Hend. split; [by do 2 (apply gate_ok; [cbn; lia|])|]. split; [done|].
  destruct (lk_running _ _ Hok Hend) as [_ Hp]. unfold awake, pc_ok in *. cbn. destruct (lk_pc l) as [[]| | | |]; try done. split; [done|lia].
Qed.

(** ** Acknowledgements *)

Abbreviation acked l := (Oplog.cursor_value (conn l) peer node cc_last_acked_seq).

(** No other task records acknowledgements of this peer. *)
Definition no_foreign_ack (a : LinkStep) : Prop :=
  match a with Others (AdvanceAck p _) => p ≠ peer | _ => True end.

Lemma wire_grows a l : (length (lk_wire l) ≤ length (lk_wire (link_step node peer l a)))%nat.
Proof.
  unfold link_step. destruct (lk_ended l); [done|]. destruct a as [cmd| | | |wrote|f]; [done..| |].
  - unfold push_step. destruct (lk_pc l) as [w| |[|op pend]|pend|]; [by destruct (await_unpaused _ _)| |done| |done|by destruct (bool_decide _)].
    + by destruct (Oplog.ops_since _ _ _ _) as [[|]|].
    + destruct wrote; simpl; [rewrite length_app|]; lia.
  - unfold absorb_step. destruct f as [[]|[]]; try done. by repeat case_match.
Qed.

Lemma push_keeps_store wrote l : lk_store (push_step node wrote l) = lk_store l.
Proof.
  unfold push_step. destruct (lk_pc l) as [w| |[|op pend]|pend|]; [by destruct (await_unpaused _ _)| |done| |done|by destruct (bool_decide _)].
  - by destruct (Oplog.ops_since _ _ _ _) as [[|]|].
  - by destruct wrote.
Qed.

Lemma advance_ack_value c p seq :
  Oplog.cursor_value (Oplog.advance_ack c p node seq) peer node cc_last_acked_seq =
  if decide (p = peer) then Z.max seq (Oplog.cursor_value c peer node cc_last_acked_seq)
  else Oplog.cursor_value c peer node cc_last_acked_seq.
Proof.
  unfold Oplog.advance_ack. rewrite cursor_update, (cursor_value_default c peer node cc_last_acked_seq) by done.
  destruct (decide (p = peer)) as [->|Hne]; [rewrite decide_True by done|rewrite decide_False by naive_solver]; simpl; lia.
Qed.

Lemma link_step_acked a l ops :
  link_ok l ops → no_foreign_ack a →
  acked l ≤ acked (link_step node peer l a) ≤ Z.max (acked l) (resume + Z.of_nat (length (lk_wire l))).
Proof.
  intros Hok Ha. unfold link_step. destruct (lk_ended l) eqn:Hend; [lia|]. destruct a as [cmd| | | |wrote|f]; try (cbn; lia).
  - cbn [set_link_store lk_store]. enough (Hk : Oplog.cursor_value (ss_conn (store_step node (lk_store l) cmd).1) peer node cc_last_acked_seq = acked l) by (rewrite Hk; lia).
    destruct (classify_ack cmd) as [(p & seq & ->)|Hn].
    + cbn [store_step fst ss_conn set_conn]. rewrite advance_ack_value. by rewrite decide_False.
    + apply (rel_store_step acked_kept node (lk_store l) cmd). intros p seq Hc. by destruct (Hn p seq).
  - rewrite push_keeps_store. lia.
  - unfold absorb_step. destruct f as [[]|[]]; try (cbn [end_link lk_store]; lia).
    do 2 (case_bool_decide; [cbn [end_link lk_store]; lia|]).
    cbn [set_link_store lk_store store_step fst ss_conn set_conn]. rewrite advance_ack_value, decide_True by done.
    pose proof (lk_bounded _ _ Hok). lia.
Qed.

(** C11: Acknowledged numbers stay within what was pushed: the number recorded for
    the peer never moves back and never passes the larger of what was
    recorded before and the number of the last operation put on the wire,
    counted from the resume point the peer gave. *)
Theorem acks_bounded st paused ops acts :
  conn_wf (ss_conn st) → log_ok node (ss_conn st) ops → ss_latest st = count ops → acts_ok (start st paused resume) acts →
  Forall no_foreign_ack acts →
  let l := run_link node peer (start st paused resume) acts in
  Oplog.cursor_value (ss_conn st) peer node cc_last_acked_seq ≤ acked l ≤
    Z.max (Oplog.cursor_value (ss_conn st) peer node cc_last_acked_seq) (resume + Z.of_nat (length (lk_wire l))).
Proof.
  intros Hwf Hlog Hlat. change (ss_conn st) with (conn (start st paused resume)) in Hwf, Hlog |- *.
  assert (Hok : link_ok (start st paused resume) ops) by by apply start_ok. clear Hwf Hlog Hlat.
  revert Hok. generalize (start st paused resume). intros l0. revert l0 ops.
  induction acts as [|a acts IH]; intros l0 ops Hok Hacts Hn; cbn [run_link foldl]; [lia|].
  destruct Hacts as [Ha Hacts]. apply Forall_cons in Hn as [Hna Hn]. pose proof (link_step_acked a l0 ops Hok Hna) as Hstep.
  pose proof (wire_grows a l0). destruct (link_step_ok a l0 ops Hok Ha) as (ops1 & Hok1 & _).
  specialize (IH _ ops1 Hok1 Hacts Hn). unfold run_link in IH. cbv zeta in *.
  assert (Hmono : ∀ acts l, (length (lk_wire l) ≤ length (lk_wire (foldl (link_step node peer) l acts)))%nat).
  { clear. induction acts as [|a acts IH]; intros l; [done|]. etrans; [apply wire_grows|apply IH]. }
  specialize (Hmono acts (link_step node peer l0 a)). lia.
Qed.

(** C7: Whatever the two tasks, the peer and the other tasks of the node do,
    pausing and resuming included: the operations on the wire are exactly the
    node's own operations after the resume point, in order, without gap or
    repetition, however far the log has grown meanwhile. As long as the link
    stands no operation is forgotten: when the pause gate lets the push task
    through - the node is not paused and the task is not waiting for a
    notification it has missed ([push_misses_resume]) - the task, left to
    itself, sends every operation recorded by now, which includes that it never
    sleeps through an append; and from any state but the one between the
    task's test of the flag and its listener, a resume brings it there. Once
    the task has come to the gate of a paused node, nothing goes out until the
    node is resumed. *)
Theorem pushed_stream_exact st paused ops acts :
  conn_wf (ss_conn st) → log_ok node (ss_conn st) ops → ss_latest st = count ops → acts_ok (start st paused resume) acts →
  let l := run_link node peer (start st paused resume) acts in
  ∃ ops', log_ok node (conn l) ops' ∧ ops `prefix_of` ops' ∧
    lk_wire l `prefix_of` drop (Z.to_nat resume) (own node ops') ∧
    (lk_ended l = None → awake l →
       ∃ n, lk_wire (run_link node peer l (replicate n (Push true))) = drop (Z.to_nat resume) (own node ops')) ∧
    (lk_ended l = None → lk_pc l ≠ Gate WSeen →
       ∃ n, lk_wire (run_link node peer l (Unpause :: Notify :: replicate n (Push true))) = drop (Z.to_nat resume) (own node ops')) ∧
    (lk_paused l = true → at_gate l → ∀ acts', Unpause ∉ acts' → lk_wire (run_link node peer l acts') = lk_wire l).
Proof.
  intros Hwf Hlog Hlat Hacts. destruct (run_link_ok acts (start st paused resume) ops) as (ops' & Hok & Hpre); [by apply start_ok|done|].
  exists ops'. split; [apply Hok|]. split; [done|]. split; [apply Hok|]. split_and!.
  - intros Hend Haw. by eapply push_drains.
  - intros Hend Hpc. destruct (resumed_awake _ ops' Hok Hend Hpc) as (Hok' & Hend' & Haw').
    destruct (push_drains _ _ ops' Hok' Hend' Haw' (le_n _)) as [n Hn]. exists n. exact Hn.
  - intros Hp Hg acts' Ha. by apply paused_holds.
Qed.
End responder.
