(* ===== verification/SubscriberProofs.v ===== *)
(** * The subscriber's end of an operation stream

    What an anti-entropy session does to the store; the subscriber
    acknowledges exactly what it has durably handled, and its cursor of a
    peer's operations never passes one that is neither handled nor at or below
    the frontier of a completed session. *)

From S2P Require Import Prelude Vv Decide Metadata Conflict ConflictProofs State Oplog OplogProofs StoreProps Marks StreamProps.
From S2P Require Import Suppress Merkle Chunk Proto Fs Apply Peer Fetch Engine EngineProofs Reconcile Session.
Import Subscriber.

Definition push_of (f : Incoming * bool) : option OpRecord :=
  match f.1 with Ok (Frame.OplogPush op) => Some op | _ => None end.
Definition ack_of (f : Frame) : option (NodeId * Z) :=
  match f with Frame.OplogAck origin up_to_seq => Some (origin, up_to_seq) | _ => None end.

(** The operations that arrive, the acknowledgements written. *)
Abbreviation pushes frames := (omap push_of frames).
Abbreviation acks out := (omap ack_of out).

Lemma drop_S_tail {A} (l : list A) n x k : drop n l = x :: k → k = drop (S n) l.
Proof. intros Hd. replace (S n) with (n + 1)%nat by lia. by rewrite <- drop_drop, Hd. Qed.

(** ** What an anti-entropy session asks of the store *)

Section session_trace.
Context `{!Blake3, !Bincode, !Hex, !Scan, !HashIter} (cfg : EngineCfg) (P : StoreCmd → Prop).

(** From a schedule whose commands meet [P], the store was moved from [s] to
    [s'] by commands that meet [P]. *)
Definition moved_by (s s' : EngineState) : Prop :=
  turns_meet P s →
  es_turns s' `suffix_of` es_turns s ∧ ∃ cmds, es_store s' = run_store (ec_node_id cfg) (es_store s) cmds ∧ Forall P cmds.

#[local] Instance moved_by_preorder : PreOrder moved_by.
Proof.
  split; [intros s _; split; [done|by exists []]|]. intros s1 s2 s3 H12 H23 Hs. destruct (H12 Hs) as (Hsuf & cmds & Hst & Hall).
  destruct (H23 (turns_meet_suffix P _ _ Hsuf Hs)) as (Hsuf' & cmds' & Hst' & Hall'). split; [by etrans|].
  exists (cmds ++ cmds'). split; [|by apply Forall_app]. rewrite Hst', Hst. unfold run_store. by rewrite foldl_app.
Qed.

Context (Hharmless : ∀ cmd, harmless cmd → P cmd) (Hall : P AllFiles).
Context (Hup : ∀ row, P (ReconcileUpsert row)) (Hres : ∀ path v staged, P (ResolveRows path v staged)).

Lemma traced_moved {E A} (m : Eng E A) s : traced cfg P m → moved_by s (m s).1.
Proof. intros Hm Hs. specialize (Hm s Hs). by destruct (m s) as [s' r]. Qed.

Section pull.
Context (answer : Reconcile.Answer) (peer : NodeId) (local : MerkleTree).
Local Abbreviation se := (Reconcile.wire_session cfg answer peer).

Definition step_moved {A} (w : Reconcile.Wire) (r : result (EngineState * option ReconcileError) (Reconcile.Wire * A)) : Prop :=
  moved_by (Reconcile.wi_engine w) match r with Ok (w', _) => Reconcile.wi_engine w' | Err (s, _) => s end.

Lemma leaf_moved w report path : step_moved w (se_handle_leaf se w report path).
Proof.
  unfold step_moved. cbn [Reconcile.wire_session se_handle_leaf].
  pose proof (traced_moved _ (Reconcile.wi_engine w)
    (traced_handle_leaf cfg P Hharmless path (Reconcile.leaf answer (Reconcile.wi_requests w) path) peer report
       (λ l _, conj (Hup _) (Hres path _)))) as Hm.
  by destruct (Engine.handle_leaf _ _ _ _ _ _) as [s []].
Qed.

Lemma pull_children_moved prefix lc cs queue w report :
  moved_by (Reconcile.wi_engine w)
    match pull_children se prefix lc cs queue w report with Ok (_, w', _) => Reconcile.wi_engine w' | Err (s, _) => s end.
Proof.
  revert queue w report. induction cs as [|c cs IH]; intros queue w report; cbn [pull_children]; [done|]. cbv zeta.
  assert (Hdescend : moved_by (Reconcile.wi_engine w) match
    (if wc_is_dir c then pull_children se prefix lc cs (join_prefix prefix (wc_name c) :: queue) w report
     else match se_handle_leaf se w report (join_prefix prefix (wc_name c)) with
          | Ok (w, report) => pull_children se prefix lc cs queue w report
          | Err e => Err e
          end) with Ok (_, w', _) => Reconcile.wi_engine w' | Err (s, _) => s end).
  { destruct (wc_is_dir c); [apply IH|]. pose proof (leaf_moved w report (join_prefix prefix (wc_name c))) as Hl.
    destruct (se_handle_leaf _ _ _ _) as [[w1 report1]|[s e]]; [|done]. etrans; [exact Hl|apply IH]. }
  destruct (lc !! wc_name c) as [[h ?]|]; [|done]. case_bool_decide; [apply IH|done].
Qed.

Lemma pull_loop_moved fuel queue w report :
  match pull_loop se local fuel queue w report with Some r => step_moved w r | None => True end.
Proof.
  unfold step_moved. revert queue w report. induction fuel as [|fuel IH]; intros [|prefix queue] w report; cbn [pull_loop]; try done. cbv zeta.
  cbn [Reconcile.wire_session se_children]. destruct (Reconcile.children _ _ _ _ _ _ _) as [[n [cs|e]]|]; try done.
  fold se. set (w1 := Reconcile.mkWire _ _ _). set (lc := default ∅ _).
  pose proof (pull_children_moved prefix lc cs queue w1 (count_req report)) as Hc.
  destruct (pull_children _ _ _ _ _ _ _) as [[[queue2 w2] report2]|[s e]]; [|done]. specialize (IH queue2 w2 report2).
  destruct (pull_loop _ _ _ _ _ _) as [r|]; [|done]. by etrans.
Qed.
End pull.

Lemma reconcile_moved answer fuel peer s r :
  Reconcile.reconcile_with cfg answer fuel peer s = Some r →
  moved_by s match r with Ok (s', _, _) => s' | Err (s', _) => s' end.
Proof.
  unfold Reconcile.reconcile_with.
  assert (Hask : moved_by s (Reconcile.all_files cfg s).1) by by apply traced_moved, traced_ask.
  destruct (Reconcile.all_files cfg s) as [s1 [rows|e|]]; [|by intros [= <-]..]. simpl in Hask.
  unfold reconcile_pull. cbn [Reconcile.wire_session se_root]. cbn [Reconcile.wi_engine Reconcile.wi_requests].
  destruct (Reconcile.root _ _) as [[h frontier]|e]; [|by intros [= <-]]. case_bool_decide; [by intros [= <-]|].
  fold (Reconcile.wire_session cfg answer peer). set (w := Reconcile.mkWire s1 1 frontier).
  pose proof (pull_loop_moved answer peer (MerkleTree.build rows) fuel [EmptyString] w report0) as Hl.
  destruct (pull_loop _ _ _ _ _ _) as [[[w' report]|[s' e]]|]; [|intros [= <-]; by etrans|done].
  intros [= <-]. etrans; [exact Hask|]. etrans; [exact Hl|]. intros Ht. split; [done|by exists []].
Qed.
End session_trace.

Section subscriber.
Context `{!Blake3, !Bincode, !Hex, !Scan, !HashIter} (cfg : EngineCfg) (peer : NodeId).

Abbreviation applied c op := (Oplog.has_applied c (op_op_id op) = true).
Abbreviation ack op := (peer, op_origin_seq op).

(** ** Acknowledgements *)

(** From [s] to [s'] a first part of [arrived] was handled and acknowledged,
    all of it when the loop did not end. *)
Definition acked_part (arrived : list OpRecord) (out out' : list Frame) (s s' : EngineState) (r : option (outcome NetError unit)) : Prop :=
  forward (es_conn s) (es_conn s') ∧
  ∃ k, acks out' = acks out ++ ((λ op, ack op) <$> take k arrived) ∧
    Forall (λ op, op_origin op = peer ∧ applied (es_conn s') op) (take k arrived) ∧
    (r = None → take k arrived = arrived).

Lemma acked_none arrived out s s' r : forward (es_conn s) (es_conn s') → acked_part arrived out out s s' (Some r).
Proof. intros Hf. split; [done|]. exists 0%nat. simpl. by rewrite app_nil_r. Qed.

Lemma op_loop_acks frames out s :
  let '(s', out', r) := op_loop cfg peer frames out s in acked_part (pushes frames) out out' s s' r.
Proof.
  revert out s. induction frames as [|[f wrote] frames IH]; intros out s; cbn [op_loop].
  { split; [done|]. exists 0%nat. simpl. by rewrite app_nil_r. }
  destruct f as [[]|[]]; try (by apply acked_none); cbn [omap list_omap push_of fst].
  - case_bool_decide as Hpeer; [by apply acked_none|].
    pose proof (process_remote_op_spec cfg op s) as Hop. destruct (Engine.process_remote_op cfg op s) as [s1 r1].
    destruct Hop as (_ & Hfw & Hdone).
    destruct r1 as [[]|e|]; [|by apply acked_none..]. destruct wrote; [|by apply acked_none]. destruct (Hdone eq_refl) as [Hap _].
    specialize (IH (out ++ [Frame.OplogAck peer (op_origin_seq op)]) s1).
    destruct (op_loop cfg peer frames _ s1) as [[s2 out2] r2]. destruct IH as (Hfw2 & k & Hacks & Hall & Hlast).
    split; [by etrans|]. exists (S k). cbn [take]. rewrite Hacks, omap_app. split; [by rewrite <- (assoc_L (++))|].
    split; [|intros Hr; by rewrite Hlast]. constructor; [|done]. split; [tauto|by eapply applied_forward].
  - destruct wrote; [|by apply acked_none]. specialize (IH (out ++ [Frame.Pong nonce]) s).
    unfold acked_part in IH. rewrite omap_app, app_nil_r in IH. exact IH.
Qed.

(** C5: What a subscriber acknowledges, whatever arrives and whatever fails: the
    acknowledgements written are those of a first part of the operations that
    arrived, in their order; every one of them came from the peer and is
    recorded as handled in the store, where no mark is ever lost; and while
    the loop is still listening nothing that arrived is left
    unacknowledged. *)
Theorem acknowledged_is_handled frames s :
  let '(s', out, r) := op_loop cfg peer frames [] s in
  forward (es_conn s) (es_conn s') ∧
  ∃ k, acks out = (λ op, ack op) <$> take k (pushes frames) ∧
    Forall (λ op, op_origin op = peer ∧ applied (es_conn s') op) (take k (pushes frames)) ∧
    (r = None → take k (pushes frames) = pushes frames).
Proof. exact (op_loop_acks frames [] s). Qed.

(** ** The receive cursor *)

Abbreviation recv c := (Oplog.cursor_value c peer peer cc_recv_cursor).

(** A command that concerns other streams than the peer's. *)
Definition other_stream (cmd : StoreCmd) : Prop :=
  match cmd with
  | ApplyRemote op _ => op_origin op ≠ peer
  | AdvanceRecvCursor p o _ => ¬ (p = peer ∧ o = peer)
  | _ => True
  end.

Lemma apply_remote_recv c op d :
  let '(c', r) := Oplog.apply_remote c op d in
  c' = c ∨ applied c' op ∧ recv c' = if decide (op_origin op = peer) then Z.max (recv c) (op_origin_seq op) else recv c.
Proof.
  destruct (Oplog.apply_remote c op d) as [c' [eff|e]] eqn:Heq.
  - apply (apply_remote_inv recv_kept) in Heq as (tx & Hk & Hap & ->). right. split; [exact Hap|].
    specialize (Hk peer peer). rewrite <- Hk. unfold Oplog.cursor_value at 1. rewrite bump_cursor_lookup.
    destruct (decide (op_origin op = peer)) as [->|Hne].
    + rewrite decide_True by done. simpl. rewrite (cursor_value_default tx peer peer cc_recv_cursor) by done. lia.
    + rewrite decide_False; [done|]. intros [= Hp]. by apply Hne, ba_eq.
  - left. revert Heq. unfold Oplog.apply_remote, run_tx. destruct (mbind _ _) as [[a [c2|]]|e']; by intros [= <-].
Qed.

Lemma recv_other node st cmd : other_stream cmd → recv (ss_conn (store_step node st cmd).1) = recv (ss_conn st).
Proof.
  intros Ho. destruct cmd; try (by apply (quiet_store_step recv_kept); intros []); cbn [store_step fst].
  - pose proof (apply_remote_recv (ss_conn st) op decision) as Hr. destruct (Oplog.apply_remote _ _ _) as [c' r]. simpl.
    destruct Hr as [->|[_ ->]]; [done|]. by rewrite decide_False.
  - simpl. unfold Oplog.advance_ack. rewrite cursor_update. case_decide; [|done]. by rewrite (cursor_value_default _ _ _ cc_recv_cursor).
  - simpl. unfold Oplog.advance_recv_cursor. rewrite cursor_update. by rewrite decide_False.
Qed.

Lemma recv_other_run node st cmds : Forall other_stream cmds → recv (ss_conn (run_store node st cmds)) = recv (ss_conn st).
Proof.
  intros Hall. revert st. induction Hall as [|cmd cmds Hc _ IH]; intros st; [done|].
  cbn [run_store foldl]. unfold run_store in IH. rewrite IH. by apply recv_other.
Qed.

(** No mark is lost, and the peer's cursor moves only with [op], handled. *)
Definition reach (op : OpRecord) (c c' : Conn) : Prop :=
  forward c c' ∧ (recv c' = recv c ∨ applied c' op ∧ recv c' ≤ Z.max (recv c) (op_origin_seq op)).

#[local] Instance reach_preorder op : PreOrder (reach op).
Proof.
  split; [by split; [|left]|]. intros c1 c2 c3 [F1 Hr1] [F2 Hr2]. split; [by etrans|].
  destruct Hr2 as [Hr2|[A2 Hr2]].
  - rewrite Hr2. destruct Hr1 as [Hr1|[A1 Hr1]]; [by left|right]. split; [by eapply applied_forward|done].
  - right. split; [done|]. destruct Hr1 as [Hr1|[_ Hr1]]; lia.
Qed.

Lemma reach_step node st op cmd :
  op_origin op = peer → other_stream cmd ∨ op_cmd op cmd → reach op (ss_conn st) (ss_conn (store_step node st cmd).1).
Proof.
  intros Hpeer Hcmd. split; [apply store_step_forward|].
  destruct Hcmd as [Ho|Ho]; [left; by apply recv_other|].
  destruct cmd; try (left; by apply recv_other); try (by destruct Ho). simpl in Ho. subst op0. cbn [store_step fst].
  pose proof (apply_remote_recv (ss_conn st) op decision) as Hr. destruct (Oplog.apply_remote _ _ _) as [c' r]. simpl.
  destruct Hr as [->|[Hap ->]]; [by left|right]. rewrite decide_True by done. split; [done|lia].
Qed.

Lemma reach_run node st op cmds :
  op_origin op = peer → Forall (λ cmd, other_stream cmd ∨ op_cmd op cmd) cmds →
  reach op (ss_conn st) (ss_conn (run_store node st cmds)).
Proof.
  intros Hpeer Hall. revert st. induction Hall as [|cmd cmds Hc _ IH]; intros st; [done|].
  etrans; [by eapply reach_step|apply IH].
Qed.

Lemma process_reach op s :
  op_origin op = peer → turns_meet other_stream s →
  let '(s', _) := Engine.process_remote_op cfg op s in turns_meet other_stream s' ∧ reach op (es_conn s) (es_conn s').
Proof.
  intros Hpeer Hs. assert (Htr : traced cfg (λ cmd, other_stream cmd ∨ op_cmd op cmd) (Engine.process_remote_op cfg op)).
  { apply traced_process; [intros [] ?; by right|by right|right; by left|intros old staged Ho; right; by right]. }
  assert (Hs' : turns_meet (λ cmd, other_stream cmd ∨ op_cmd op cmd) s).
  { eapply Forall_impl; [exact Hs|]. intros t Ht. eapply Forall_impl; [exact Ht|]. by left. }
  specialize (Htr s Hs'). destruct (Engine.process_remote_op cfg op s) as [s' r]. destruct Htr as (Hsuf & cmds & Hst & Hall).
  split; [by eapply turns_meet_suffix|]. unfold es_conn. rewrite Hst. by apply reach_run.
Qed.

(** ** No operation is skipped *)

Section no_gap.
Context (log : list OpRecord) (Hlog : op_origin_seq <$> log = seqZ 1 (Z.of_nat (length log))).

(** Every operation up to number [n] is handled, or at or below [b]: the
    highest number a completed anti-entropy session has named for the peer. *)
Definition handled_to (b n : Z) (c : Conn) : Prop :=
  ∀ op, op ∈ log → op_origin_seq op ≤ n → applied c op ∨ op_origin_seq op ≤ b.

(** Nothing at or below the durable cursor is missing. *)
Definition no_gap (b : Z) (c : Conn) : Prop := handled_to b (recv c) c.

Lemma handled_to_forward b n c c' : forward c c' → handled_to b n c → handled_to b n c'.
Proof. intros Hf Hh op Hop Hn. destruct (Hh op Hop Hn) as [Ha|]; [left; by eapply applied_forward|by right]. Qed.

Lemma handled_to_max b m n c : handled_to b m c → handled_to b n c → handled_to b (Z.max m n) c.
Proof. intros Hm Hn op Hop Hle. destruct (Z.max_spec m n) as [[_ He]|[_ He]]; rewrite He in Hle; auto. Qed.

Lemma handled_to_mark b f c n : handled_to b n c → handled_to (Z.max b f) (Z.max f n) c.
Proof.
  intros Hh op Hop Hle. destruct (decide (op_origin_seq op ≤ f)) as [|Hf]; [right; lia|].
  destruct (Hh op Hop) as [?|?]; [lia|by left|right; lia].
Qed.

Lemma log_seq i op : log !! i = Some op → op_origin_seq op = Z.of_nat i + 1.
Proof.
  intros Hi. assert (Hs : (op_origin_seq <$> log) !! i = Some (op_origin_seq op)) by by rewrite list_lookup_fmap, Hi.
  rewrite Hlog in Hs. apply lookup_seqZ in Hs. lia.
Qed.

(** The next operation of the log, handled. *)
Lemma handled_next b i op c : log !! i = Some op → handled_to b (Z.of_nat i) c → applied c op → handled_to b (Z.of_nat (S i)) c.
Proof.
  intros Hi Hh Hap op' Hop' Hle. destruct (decide (op_origin_seq op' ≤ Z.of_nat i)) as [|Hn]; [by apply Hh|left].
  apply list_elem_of_lookup in Hop' as [j Hj]. pose proof (log_seq _ _ Hj). assert (j = i) as -> by lia. congruence.
Qed.

Lemma reach_no_gap b i op c c' :
  log !! i = Some op → reach op c c' → handled_to b (Z.of_nat i) c → no_gap b c → no_gap b c'.
Proof.
  intros Hi [Hf Hr] Hh Hg. destruct Hr as [Hr|[Hap Hr]].
  - unfold no_gap. rewrite Hr. by eapply handled_to_forward.
  - assert (Hm : handled_to b (Z.max (recv c) (Z.of_nat (S i))) c').
    { apply handled_to_max; [by eapply handled_to_forward|]. apply (handled_next b i op); [done|by eapply handled_to_forward|done]. }
    intros op' Hop' Hle. apply (Hm op' Hop'). pose proof (log_seq _ _ Hi). lia.
Qed.

Lemma op_loop_no_gap b frames out n s :
  pushes frames `prefix_of` drop n log → turns_meet other_stream s → handled_to b (Z.of_nat n) (es_conn s) → no_gap b (es_conn s) →
  no_gap b (es_conn (op_loop cfg peer frames out s).1.1).
Proof.
  revert out n s. induction frames as [|[f wrote] frames IH]; intros out n s Hpre Ht Hh Hg; [done|]. cbn [op_loop].
  destruct f as [[]|[]]; try done; cbn [omap list_omap push_of fst] in Hpre.
  - destruct Hpre as [rest Hrest].
    assert (Hi : log !! n = Some op) by (rewrite <- (Nat.add_0_r n), <- lookup_drop, Hrest; done).
    case_bool_decide as Hpeer; [done|]. assert (Hp : op_origin op = peer) by tauto.
    pose proof (process_reach op s Hp Ht) as Hreach. pose proof (process_remote_op_spec cfg op s) as Hspec.
    destruct (Engine.process_remote_op cfg op s) as [s1 r]. destruct Hreach as [Ht1 Hreach]. destruct Hspec as (_ & Hf & Hdone).
    assert (Hg1 : no_gap b (es_conn s1)) by by eapply reach_no_gap.
    destruct r as [[]|e|]; [|done..]. destruct wrote; [|done]. apply (IH _ (S n)); [|done| |done].
    + exists rest. by rewrite <- (drop_S_tail _ _ _ _ Hrest).
    + apply (handled_next b n op); [done|by eapply handled_to_forward|by apply Hdone].
  - destruct wrote; [|done]. by apply (IH _ n).
Qed.

(** The store after the arrival of an await, and after a command. *)
Lemma arrive_quiet s :
  turns_meet other_stream s →
  turns_meet other_stream (arrive cfg s) ∧ recv (es_conn (arrive cfg s)) = recv (es_conn s) ∧ forward (es_conn s) (es_conn (arrive cfg s)).
Proof.
  unfold arrive, turns_meet. destruct (es_turns s) as [|t ts] eqn:Ht; [by rewrite Ht|]. intros [Hc Hts]%Forall_cons.
  split; [done|]. split; [by apply recv_other_run|apply run_store_forward].
Qed.

(** From [s] to [s'] the peer's cursor stays and no mark is lost. *)
Definition quiet_to (s s' : EngineState) : Prop :=
  turns_meet other_stream s →
  turns_meet other_stream s' ∧ recv (es_conn s') = recv (es_conn s) ∧ forward (es_conn s) (es_conn s').

#[local] Instance quiet_to_preorder : PreOrder quiet_to.
Proof.
  split; [by intros s Hs|]. intros s1 s2 s3 H12 H23 Hs. destruct (H12 Hs) as (Ht2 & Hr2 & Hf2).
  destruct (H23 Ht2) as (Ht3 & Hr3 & Hf3). split_and!; [done|congruence|by etrans].
Qed.

Lemma traced_quiet {E A} (m : Eng E A) s : traced cfg other_stream m → quiet_to s (m s).1.
Proof.
  intros Hm Hs. specialize (Hm s Hs). destruct (m s) as [s' r]. destruct Hm as (Hsuf & cmds & Hst & Hall).
  split; [by eapply turns_meet_suffix|]. unfold es_conn. simpl. rewrite Hst. split; [by apply recv_other_run|apply run_store_forward].
Qed.

Lemma no_gap_same b c c' : forward c c' → recv c' = recv c → no_gap b c → no_gap b c'.
Proof. intros Hf Hr. unfold no_gap. rewrite Hr. by apply handled_to_forward. Qed.

Lemma moved_quiet s s' : moved_by cfg other_stream s s' → quiet_to s s'.
Proof.
  intros Hm Hs. destruct (Hm Hs) as (Hsuf & cmds & Hst & Hall). split; [by eapply turns_meet_suffix|].
  unfold es_conn. rewrite Hst. split; [by apply recv_other_run|apply run_store_forward].
Qed.

(** An anti-entropy session, whatever the peer answers. *)
Lemma reconcile_quiet answer fuel s r :
  Reconcile.reconcile_with cfg answer fuel peer s = Some r →
  quiet_to s match r with Ok (s', _, _) => s' | Err (s', _) => s' end.
Proof.
  intros Hr. apply moved_quiet. eapply reconcile_moved; [| | | |exact Hr]; try done. by intros [].
Qed.

(** *** The handshake and the handoff *)

Lemma greet_quiet wrote hello s : quiet_to s (greet cfg peer wrote hello s).1.
Proof.
  apply traced_quiet. unfold greet. apply traced_bind; [by apply traced_ask|]. intros v.
  apply traced_bind; [unfold written; destruct wrote; [apply traced_ret|apply traced_raise]|]. intros _.
  destruct (check_hello_ack _ _); [apply traced_ret|apply traced_raise].
Qed.

Lemma greet_cursor wrote hello s s1 v :
  greet cfg peer wrote hello s = (s1, Done v) → v = recv (es_conn s1).
Proof.
  unfold greet. intros Hg. apply bind_done in Hg as (v' & s2 & Hask & Hg). apply ask_done in Hask. cbn [store_step] in Hask.
  destruct Hask as [-> [= <-]]. apply bind_done in Hg as ([] & s3 & Hw & Hg). unfold written in Hw. destruct wrote; [|done].
  injection Hw as <-. destruct (check_hello_ack _ _); [|done]. by injection Hg as <- <-.
Qed.

(** The cursor is moved to [n] at most. *)
Definition stream_cmd (n : Z) (cmd : StoreCmd) : Prop := other_stream cmd ∨ cmd = AdvanceRecvCursor peer peer n.

Lemma stream_cmds_recv node n st cmds :
  Forall (stream_cmd n) cmds → recv (ss_conn (run_store node st cmds)) ≤ Z.max (recv (ss_conn st)) n.
Proof.
  intros Hall. revert st. induction Hall as [|cmd cmds Hc _ IH]; intros st; [simpl; lia|].
  cbn [run_store foldl]. unfold run_store in IH. etrans; [apply IH|]. apply Z.max_lub; [|lia].
  destruct Hc as [Ho| ->]; [rewrite recv_other by done; lia|]. cbn [store_step fst]. simpl. unfold Oplog.advance_recv_cursor.
  rewrite cursor_update, decide_True by done. simpl. rewrite (cursor_value_default _ peer peer cc_recv_cursor) by done. lia.
Qed.

Lemma hand_off_recv wrote from frontier s :
  turns_meet other_stream s → let '(s', _) := hand_off cfg peer wrote from frontier s in
  turns_meet other_stream s' ∧ forward (es_conn s) (es_conn s') ∧
  recv (es_conn s') ≤ Z.max (recv (es_conn s)) (Z.max (entry_for peer frontier) from).
Proof.
  intros Hs. set (n := Z.max (entry_for peer frontier) from).
  assert (Htr : traced cfg (stream_cmd n) (hand_off cfg peer wrote from frontier)).
  { unfold hand_off. fold n. apply traced_bind; [apply traced_if; [apply traced_ask; by right|apply traced_ret]|]. intros _.
    apply traced_bind; [unfold written; destruct wrote; [apply traced_ret|apply traced_raise]|]. intros _. apply traced_ret. }
  assert (Hs' : turns_meet (stream_cmd n) s).
  { eapply Forall_impl; [exact Hs|]. intros t Ht. eapply Forall_impl; [exact Ht|]. by left. }
  specialize (Htr s Hs'). destruct (hand_off _ _ _ _ _ s) as [s' r]. destruct Htr as (Hsuf & cmds & Hst & Hall).
  split; [by eapply turns_meet_suffix|]. unfold es_conn. rewrite Hst. split; [apply run_store_forward|by apply stream_cmds_recv].
Qed.

Lemma advance_done n s s1 u :
  advance_recv_cursor cfg peer peer n s = (s1, Done u) → turns_meet other_stream s →
  recv (es_conn s1) = Z.max (recv (es_conn s)) n.
Proof.
  intros Ha Hs. apply ask_done in Ha. destruct (arrive_quiet s Hs) as (_ & Hk & _).
  cbn [store_step] in Ha. destruct Ha as [-> _].
  rewrite <- Hk. cbn [es_conn es_store set_store ss_conn]. unfold Oplog.advance_recv_cursor.
  rewrite cursor_update, decide_True by done. unfold es_conn. rewrite (cursor_value_default _ peer peer cc_recv_cursor) by done. simpl. lia.
Qed.

(** What is sent when the handoff succeeds: the durable cursor. *)
Lemma hand_off_done wrote from frontier s s1 sent cursor :
  hand_off cfg peer wrote from frontier s = (s1, Done (sent, cursor)) → turns_meet other_stream s → from = recv (es_conn s) →
  cursor = recv (es_conn s1) ∧
  sent = [Frame.Hello PROTO_VERSION (ec_node_id cfg) [(peer, from)]; Frame.SubscribeOps [(peer, cursor)]].
Proof.
  unfold hand_off. cbv zeta. intros Hh Hs ->. apply bind_done in Hh as ([] & s5 & Hadv & Hh). apply bind_done in Hh as ([] & s6 & Hw & Hh).
  unfold written in Hw. destruct wrote; [|done]. injection Hw as <-. injection Hh as <- <- <-. split; [|done].
  revert Hadv. case_bool_decide as Hlt; intros Hadv.
  - pose proof (advance_done _ _ _ _ Hadv Hs). lia.
  - injection Hadv as <-. lia.
Qed.

End no_gap.

(** What the mark means for an honest responder: the number a snapshot of the
    peer's store names for the peer is the number of operations its log had
    when the snapshot was taken, the same turn of the store that read the
    rows. *)
Lemma snapshot_names_log `{!BincodeLaws} c ops snap :
  conn_wf c → log_ok peer c ops → Oplog.snapshot_for_join c = Ok snap →
  entry_for peer (js_frontier snap) = Z.of_nat (length (own peer ops)).
Proof.
  intros Hc Hlog Hsnap. destruct (snapshot_for_join_exact peer c ops Hc Hlog) as (snap' & Hsnap' & _ & Hnd & Hin & _).
  assert (snap' = snap) as -> by congruence. clear Hsnap'. pose proof (lo_gapfree _ _ _ Hlog) as Hgf. unfold entry_for.
  destruct (filter (λ e, e.1 = peer) (js_frontier snap)) as [|[o q] l] eqn:Hf; simpl.
  - destruct (own peer ops) as [|op l] eqn:Ho; [done|]. exfalso.
    destruct (iter_max (op_origin_seq <$> own peer ops)) as [q|] eqn:Hm.
    + apply Hin in Hm. assert ((peer, q) ∈ filter (λ e, e.1 = peer) (js_frontier snap)) as He by by apply list_elem_of_filter.
      rewrite Hf in He. by apply not_elem_of_nil in He.
    + apply iter_max_none in Hm. by rewrite Ho in Hm.
  - assert (He : (o, q) ∈ filter (λ e, e.1 = peer) (js_frontier snap)) by (rewrite Hf; by left).
    apply list_elem_of_filter in He as [Hp He]. simpl in Hp. subst o. apply Hin, iter_max_spec in He as [Hq Hub].
    rewrite Hgf in Hq, Hub. apply elem_of_seqZ in Hq.
    assert (q = Z.of_nat (length (own peer ops))); [|done].
    apply Z.le_antisymm; [lia|]. apply Hub, elem_of_seqZ. lia.
Qed.
End subscriber.
