(* ===== verification/SessionWitness.v ===== *)
(** * Concrete sessions

    The stream properties on a responder with a one-operation log and on a
    subscriber that receives one file, and two runs of the responder that the
    comments of the code exclude. *)

From S2P Require Import Prelude Vv Decide Metadata Conflict ConflictProofs State Oplog OplogProofs StoreProps Marks StreamProps StoreWitness.
From S2P Require Import Suppress Merkle Chunk Proto Fs Apply ApplyProofs ApplyLive Peer Fetch Engine EngineProofs EngineLive EngineWitness Reconcile ReconcileWire.
From S2P Require Import Session SessionProofs SubscriberProofs.
Import Ex StateEx Responder.

#[local] Existing Instance toy_cdc.
#[local] Existing Instance toy_cdc_laws.

(** ** The responder *)

Definition ex_acts : list LinkStep :=
  [Others (AppendLocal (write "x" h2)); Push true; Push true; Unpause; Notify; Push true; Push true; Push true; Push true; Absorb (Ok (Frame.Ping 7)); Push true;
   Absorb (Ok (Frame.OplogAck node_a 1))].
Definition ex_link : Link := run_link node_a node_b (start st1 true 0) ex_acts.

Lemma ex_acts_ok : acts_ok node_a node_b (start st1 true 0) ex_acts.
Proof.
  split; [|by repeat split]. split; [apply write_typed|]. split; [apply room1|]. split; [done|]. vm_compute. done.
Qed.

Lemma pushed_stream_exact_witness :
  ∃ ops', log_ok node_a (ss_conn (lk_store ex_link)) ops' ∧ [op1] `prefix_of` ops' ∧
    lk_wire ex_link `prefix_of` own node_a ops' ∧
    ∃ n, lk_wire (run_link node_a node_b ex_link (replicate n (Push true))) = own node_a ops'.
Proof.
  destruct (pushed_stream_exact toy_op_id_inj node_a node_b 0 ltac:(lia) st1 true [op1] ex_acts) as (ops' & Hlog & Hpre & Hwire & Hdrain & _).
  - apply conn1_wf.
  - apply log1.
  - vm_compute. reflexivity.
  - apply ex_acts_ok.
  - exists ops'. split; [exact Hlog|]. split; [exact Hpre|]. split; [exact Hwire|]. apply Hdrain; [vm_decide|]. split; [reflexivity|exact I].
Defined.

Lemma acks_bounded_witness :
  Oplog.cursor_value (ss_conn st1) node_b node_a cc_last_acked_seq ≤
    Oplog.cursor_value (ss_conn (lk_store ex_link)) node_b node_a cc_last_acked_seq ≤
    Z.max (Oplog.cursor_value (ss_conn st1) node_b node_a cc_last_acked_seq) (0 + Z.of_nat (length (lk_wire ex_link))).
Proof.
  apply (acks_bounded toy_op_id_inj node_a node_b 0 ltac:(lia) st1 true [op1] ex_acts).
  - apply conn1_wf.
  - apply log1.
  - vm_compute. reflexivity.
  - apply ex_acts_ok.
  - by repeat constructor.
Defined.

(** The pushed frontier starts at the number the subscriber itself gave: a
    subscriber that claims to have received operations the node never made
    has its acknowledgement of them recorded, with nothing on the wire and a
    log of a single operation. *)
Lemma claimed_resume_inflates_ack :
  let l := run_link node_a node_b (start st1 false 100) [Absorb (Ok (Frame.OplogAck node_a 100))] in
  lk_ended l = None ∧ lk_wire l = [] ∧ ss_latest (lk_store l) = 1 ∧
  Oplog.cursor_value (ss_conn (lk_store l)) node_b node_a cc_last_acked_seq = 100.
Proof. vm_compute. done. Qed.

(** The frontier is published after the frame is written: the acknowledgement
    of an honest peer that is absorbed in between is refused and the link
    dropped. *)
Lemma early_ack_drops_link :
  let l := run_link node_a node_b (start st1 false 0) [Push true; Push true; Push true; Absorb (Ok (Frame.OplogAck node_a 1))] in
  lk_wire l = [op1] ∧ op_origin_seq op1 = 1 ∧ lk_ended l = Some (Err (NetError.Violation "ack beyond the pushed frontier")).
Proof. split; [vm_decide|]. vm_compute. done. Qed.

(** ** The subscriber *)

(** The peer has written "a/b", serves its snapshot, and then writes "c": the
    session brings the first file, the stream the second. *)
Definition sx1 : StoreState :=
  (store_step node_a st0 (AppendLocal (mkLocalChange "a/b" OpType.Write 420 3 (Some (blake3 ex_data)) None None))).1.
Definition sx_snap : JoinSnapshot :=
  match (store_step node_a sx1 SnapshotForJoin).2 with RSnapshot (Ok snap) => snap | _ => mkJoinSnapshot [] [] end.
Definition sx_answers : Reconcile.Answer := answers (MerkleTree.build (js_rows sx_snap)) (js_frontier sx_snap).

Definition rx_first : OpRecord := rx_op OpType.Write "a/b" None 3.
Definition rx_second : OpRecord :=
  mkOpRecord (Oplog.op_id node_a 2) node_a 2 OpType.Write "c" None None 420 3 (Some (blake3 ex_data)) None {[ node_a := 2 ]}.
Definition ex_hello : Incoming := Ok (Frame.HelloAck PROTO_VERSION node_a).
Definition ex_frames : list (Incoming * bool) := [(Ok (Frame.OplogPush rx_second), true)].
Definition ex_subscribed := Subscriber.subscribe ex_cfg sx_answers 3 node_a (true, true) ex_hello (rx_state empty_conn).

Definition ex_sent : list Frame := [Frame.Hello PROTO_VERSION node_b [(node_a, 0)]; Frame.SubscribeOps [(node_a, 1)]].

Definition after_session : EngineState :=
  match ex_subscribed with Some (s, _) => s | None => rx_state empty_conn end.
Definition after_stream : EngineState := (Subscriber.op_loop ex_cfg node_a ex_frames ex_sent after_session).1.1.

Lemma ex_subscribed_eq : ex_subscribed = Some (after_session, Done (ex_sent, 1)).
Proof.
  assert (Hr : snd <$> ex_subscribed = Some (Done (ex_sent, 1))) by (vm_compute; reflexivity).
  unfold after_session. destruct ex_subscribed as [[s r]|]; [|discriminate Hr]. injection Hr as ->. reflexivity.
Qed.

(** The indexed paths, the cursor, and the operations of the log marked as
    handled. *)
Definition paths_of (s : EngineState) : list string :=
  match State.all_files (es_conn s) with Ok rows => fr_path <$> rows | Err _ => [] end.

Example session_then_stream :
  paths_of after_session = ["a/b"] ∧ paths_of after_stream = ["a/b"; "c"] ∧
  Oplog.cursor_value (es_conn after_session) node_a node_a cc_recv_cursor = 1 ∧
  Oplog.cursor_value (es_conn after_stream) node_a node_a cc_recv_cursor = 2 ∧
  Oplog.has_applied (es_conn after_stream) (op_op_id rx_second) = true.
Proof. vm_compute. done. Qed.

