(* ===== verification/Ingest.v ===== *)
(** * Ingest of local changes (src/src/ingest.rs)

    Watcher and scanner events become operations: writes wait out a quiet
    window per path, are hashed, checked against the suppressor and appended;
    renames and deletes are handled at once. The task runs among the others:
    its awaits are those of the engine's monad. Absolute paths are the
    component lists of the file tree; the clock is an input, in milliseconds. *)

From S2P Require Import Prelude Vv Decide Metadata Conflict State Oplog Suppress Merkle Chunk Proto Fs Apply Peer Fetch Engine.

(** ** Path texts *)

(** [str::from_utf8] succeeds. *)
Fixpoint utf8 (l : list Z) : bool :=
  let within lo hi b := bool_decide (lo ≤ b ≤ hi) in
  let cont := within 128 191 in
  match l with
  | [] => true
  | a :: l1 =>
      if within 0 127 a then utf8 l1 else
      match l1 with
      | [] => false
      | b :: l2 =>
          if within 194 223 a then cont b && utf8 l2 else
          match l2 with
          | [] => false
          | c :: l3 =>
              if within 224 239 a
              then (if bool_decide (a = 224) then within 160 191 b else if bool_decide (a = 237) then within 128 159 b else cont b)
                   && cont c && utf8 l3
              else
                match l3 with
                | [] => false
                | d :: l4 =>
                    within 240 244 a
                    && (if bool_decide (a = 240) then within 144 191 b else if bool_decide (a = 244) then within 128 143 b else cont b)
                    && cont c && cont d && utf8 l4
                end
          end
      end
  end.

(** [Path::to_str] *)
Definition to_str (s : string) : option string :=
  if utf8 (byte_val <$> str_bytes s) then Some s else None.

(** [Path::strip_prefix] *)
Fixpoint strip_prefix (root p : FsPath) : option FsPath :=
  match root, p with
  | [], p => Some p
  | r :: root, c :: p => if bool_decide (r = c) then strip_prefix root p else None
  | _ :: _, [] => None
  end.

Definition path_text (comps : FsPath) : string := String.concat "/" comps.

(** ** Events and state *)

Module LocalEvent.
Inductive t : Type :=
| Write (abs : FsPath)
| Delete (rel : string)
| Rename (from : string) (to : FsPath).
End LocalEvent.
Abbreviation LocalEvent := LocalEvent.t.

Module Observed.
Inductive t : Type :=
| File (manifest : Manifest) (meta : Meta)
| Symlink (meta : Meta) (target : list byte)
| Special (meta : Meta)
| TooBig (len : Z).
End Observed.
Abbreviation Observed := Observed.t.

(** The parts of [Config] the task reads. *)
Record IngestCfg : Type := mkIngestCfg {
  ic_engine : EngineCfg;
  ic_params : ChunkParams;
  ic_quiesce_ms : Z;
  ic_scan_interval_secs : Z;
}.

(** What the kernel does to the chunking of one file: the read error that ends
    the stream, the outcomes of the inserts. *)
Record ChunkFaults : Type := mkChunkFaults { cf_cut : option nat; cf_puts : list (option (string * IoKind)) }.
Definition quiet_chunking : ChunkFaults := mkChunkFaults None [].

(** The pending writes with their deadlines, and the rest of the node. *)
Record IngestState : Type := mkIngestState {
  ig_pending : gmap string (FsPath * Z);
  ig_eng : EngineState;
}.

(** Iteration over the pending map, in an order of the hash table's own. *)
Class PendingIter := pending_iter : gmap string (FsPath * Z) → list (string * (FsPath * Z)).
Class PendingIterLaws `{!PendingIter} : Prop := pending_iter_perm m : pending_iter m ≡ₚ map_to_list m.

#[export] Instance store_store : ErrFrom StoreError StoreError := id.

Module Ingest.
Section with_externals.
Context `{!Blake3, !Bincode, !Hex, !Scan, !Cdc, !PendingIter}.
Context (cfg : IngestCfg).
Abbreviation ecfg := (ic_engine cfg).

Definition relativize (root abs : FsPath) : option string :=
  rel ← strip_prefix root abs;
  s ← to_str (path_text rel);
  if bool_decide (s = "") then None else Some s.

(** [symlink_metadata]: the node at the end of a path, itself not followed. *)
Definition symlink_metadata (p : FsPath) : Op Errno Node :=
  syscall;;
  q ← canon_parent p;
  n ← get_node q;
  match n with Some n => mret n | None => fail ENOENT end.

(** [chunk_file_into_cas] on the file as it was opened. *)
Definition chunked (cf : ChunkFaults) (file : result Errno (list byte)) : Op CasError Manifest := λ h,
  let file := match file with Ok data => Ok data | Err e => Err (io_kind e) end in
  let '(cas, r) := chunk_file_into_cas (h_cas h) (ic_params cfg) file (cf_cut cf) (cf_puts cf) in
  (set_cas cas h, match r with Ok manifest => Done manifest | Err e => Fail e end).

(** The blocking pass over one file: metadata, chunks and hash. *)
Definition observe (cf : ChunkFaults) (abs : FsPath) : Op CasError (option Observed) :=
  let io ctx := λ e, CasError.Io ctx (io_kind e) in
  p ← map_err (io "capture") (canon_parent abs);
  meta ← map_err (CasError.Io "capture") (MetaIo.capture p (ec_owner_policy ecfg));
  match meta with
  | None => mret None
  | Some meta =>
      match m_kind meta with
      | FileKind.Regular =>
          n ← map_err (io "stat") (symlink_metadata abs);
          let len := match n with Reg data _ => Z.of_nat (length data) | _ => 0 end in
          if bool_decide (ec_max_file_bytes ecfg < len) then mret (Some (Observed.TooBig len)) else
          file ← catch (sys_read_file abs);
          manifest ← chunked cf file;
          mret (Some (Observed.File manifest meta))
      | FileKind.Symlink =>
          match m_symlink_target meta with
          | Some target => mret (Some (Observed.Symlink meta target))
          | None => fail (CasError.Io "readlink" OtherIo)
          end
      | FileKind.Fifo | FileKind.CharDev | FileKind.BlockDev => mret (Some (Observed.Special meta))
      end
  end.

(** [spawn_blocking(...).await] *)
Definition observing (cf : ChunkFaults) (abs : FsPath) : Eng StoreError (result CasError (option Observed)) :=
  Engine.await ecfg (λ _ s, let '(h, r) := observe cf abs (es_host s) in
    (set_host h s, match r with Done a => Done (Ok a) | Fail e => Done (Err e) | Crashed => Crashed end)).

Definition check_write (rel : string) (hash : hash32) : Eng StoreError bool := λ s,
  let '(sup, hit) := Suppressor.check_write (h_suppress (es_host s)) rel hash in
  (set_host (set_suppress sup (es_host s)) s, Done hit).
Definition check_delete (rel : string) : Eng StoreError bool := λ s,
  let '(sup, hit) := Suppressor.check_delete (h_suppress (es_host s)) rel in
  (set_host (set_suppress sup (es_host s)) s, Done hit).

Definition append_local (change : LocalChange) : Eng StoreError (option OpRecord) :=
  Engine.ask ecfg (AppendLocal change) (λ r, match r with ROp x => Some x | _ => None end).
Definition append_local_rename (old_path new_path : string) : Eng StoreError (option OpRecord) :=
  Engine.ask ecfg (AppendLocalRename old_path new_path) (λ r, match r with ROp x => Some x | _ => None end).

(** Failures of the store are logged. *)
Definition logged {A} (m : Eng StoreError A) : Eng StoreError unit := r ← attempt (F := StoreError) m; mret ().

(** Hash, size and manifest of what was observed; [None]: not replicated. *)
Definition observed_version (o : Observed) : option (option hash32 * Z * option Manifest * Meta) :=
  match o with
  | Observed.TooBig _ => None
  | Observed.File manifest meta => Some (Some (mf_content_hash manifest), total_len manifest, Some manifest, meta)
  | Observed.Symlink meta target => Some (Some (blake3 target), Z.of_nat (length target), None, meta)
  | Observed.Special meta => Some (None, 0, None, meta)
  end.

Definition write_change (rel : string) (v : option hash32 * Z * option Manifest * Meta) : LocalChange :=
  let '(content_hash, size, manifest, meta) := v in
  mkLocalChange rel OpType.Write (m_mode meta) size content_hash (Some meta) manifest.
Definition delete_change (rel : string) : LocalChange := mkLocalChange rel OpType.Delete 0 0 None None None.

Definition handle_write (cf : ChunkFaults) (rel : string) (abs : FsPath) : Eng StoreError unit :=
  r ← observing cf abs;
  match r with
  | Err _ | Ok None => mret ()
  | Ok (Some o) =>
      match observed_version o with
      | None => mret ()
      | Some v =>
          hit ← check_write rel (default (zeros 32) v.1.1.1);
          if (hit : bool) then mret () else logged (append_local (write_change rel v))
      end
  end.

(** Run a computation of the engine on the task's state. *)
Definition engine_step (m : Eng StoreError unit) (s : IngestState) : IngestState * bool :=
  let '(e, r) := m (ig_eng s) in
  (mkIngestState (ig_pending s) e, match r with Crashed => false | _ => true end).
Definition forget (rel : string) (s : IngestState) : IngestState := mkIngestState (delete rel (ig_pending s)) (ig_eng s).

Definition handle_rename (from : string) (to_abs : FsPath) (s : IngestState) : IngestState * bool :=
  match relativize (h_root (es_host (ig_eng s))) to_abs with
  | None => (s, true)
  | Some to =>
      engine_step (hit ← check_delete from; if (hit : bool) then mret () else logged (append_local_rename from to)) (forget from s)
  end.

(** [tokio::fs::symlink_metadata(share_dir.join(rel)).await.is_ok()] *)
Definition still_there (rel : string) : Eng StoreError bool :=
  Engine.await ecfg (λ _ s, let '(h, r) := symlink_metadata (h_root (es_host s) ++ segments rel) (es_host s) in
    (set_host h s, match r with Done _ => Done true | Fail _ => Done false | Crashed => Crashed end)).

Definition handle_delete (rel : string) (s : IngestState) : IngestState * bool :=
  match still_there rel (ig_eng s) with
  | (e, Done true) => (mkIngestState (ig_pending s) e, true)
  | (e, Crashed) => (mkIngestState (ig_pending s) e, false)
  | (e, _) =>
      engine_step (hit ← check_delete rel; if (hit : bool) then mret () else logged (append_local (delete_change rel)))
        (forget rel (mkIngestState (ig_pending s) e))
  end.

(** The paths whose quiet window is over, and their handling in turn. *)
Definition ripe (now : Z) (pending : gmap string (FsPath * Z)) : list (string * FsPath) :=
  (λ e, (e.1, e.2.1)) <$> filter (λ e, e.2.2 ≤ now) (pending_iter pending).

Fixpoint flush (l : list (string * FsPath)) (io : list ChunkFaults) (s : IngestState) : IngestState * bool :=
  match l with
  | [] => (s, true)
  | (rel, abs) :: l =>
      match engine_step (handle_write (default quiet_chunking (head io)) rel abs) (forget rel s) with
      | (s, true) => flush l (tail io) s
      | r => r
      end
  end.

Definition flush_ripe (now : Z) (io : list ChunkFaults) (s : IngestState) : IngestState * bool :=
  flush (ripe now (ig_pending s)) io s.

(** What the loop of [run] waits for: an event, or the tick; with the clock
    at the instant it is read. *)
Inductive IngestStep : Type :=
| OnEvent (e : LocalEvent) (now : Z)
| OnTick (now : Z) (io : list ChunkFaults).

Definition quiesce : Z := Z.max (ic_quiesce_ms cfg) 1.
Definition sweep_ttl : Z := (Z.max (ic_scan_interval_secs cfg) 1 * 2 + 30) * 1000.

Definition sweep (now : Z) (s : IngestState) : IngestState :=
  let h := es_host (ig_eng s) in
  mkIngestState (ig_pending s) (set_host (set_suppress (Suppressor.sweep (h_suppress h) now sweep_ttl) h) (ig_eng s)).

(** One turn of the loop; [false]: the process was killed. *)
Definition ingest_step (s : IngestState) (a : IngestStep) : IngestState * bool :=
  match a with
  | OnEvent (LocalEvent.Write abs) now =>
      match relativize (h_root (es_host (ig_eng s))) abs with
      | Some rel => (mkIngestState (<[rel := (abs, now + quiesce)]> (ig_pending s)) (ig_eng s), true)
      | None => (s, true)
      end
  | OnEvent (LocalEvent.Delete rel) _ => handle_delete rel s
  | OnEvent (LocalEvent.Rename from to) _ => handle_rename from to s
  | OnTick now io =>
      match flush_ripe now io s with
      | (s, true) => (sweep now s, true)
      | r => r
      end
  end.

Fixpoint run (s : IngestState) (acts : list IngestStep) : IngestState * bool :=
  match acts with
  | [] => (s, true)
  | a :: acts => match ingest_step s a with (s, true) => run s acts | r => r end
  end.
End with_externals.
End Ingest.
