(* ===== verification/Scanner.v ===== *)
(** * The scanner (src/src/scanner.rs)

    The walk over the share and the diff against the index that make the
    periodic scan the authority on local changes, and the sweep of orphaned
    staging files at start-up. *)

From S2P Require Import Prelude Vv Decide Metadata Conflict State Oplog Suppress Merkle Chunk Proto Fs Apply Peer Fetch Engine Ingest.

Module ScanError.
Inductive t : Type :=
| Store (e : StoreError)
| Walk (path : FsPath) (k : IoKind)
| ChannelClosed
| Join.
End ScanError.
Abbreviation ScanError := ScanError.t.

#[export] Instance store_scan : ErrFrom StoreError ScanError := ScanError.Store.

(** The order in which a directory is listed. *)
Class DirOrder := dir_order : list (string * Node) → list (string * Node).
Class DirOrderLaws `{!DirOrder} : Prop := dir_order_perm l : dir_order l ≡ₚ l.

(** [n.contains(TMP_SUFFIX)] on names that are text. *)
Definition is_tmp (name : string) : bool :=
  match to_str name with
  | Some s => bool_decide (is_Some (String.index 0 TMP_SUFFIX s))
  | None => false
  end.

(** The entries of a directory. *)
Definition children (w : World) (dir : FsPath) : list (string * Node) :=
  omap (λ kn, match strip_prefix dir kn.1 with Some [name] => Some (name, kn.2) | _ => None end) (map_to_list w).

(** The kinds of node that are replicated. *)
Definition replicated (n : Node) : bool :=
  match n with Reg _ _ | Lnk _ _ | Dev _ _ _ => true | Dir | Sock => false end.

(** What [scan_once] reports. *)
Record ScanStats : Type := mkScanStats { files_seen : Z; deletes_emitted : Z }.

Module Scanner.
Section with_externals.
Context `{!Scan, !DirOrder}.

Definition walk_io {A} (path : FsPath) (m : Op Errno A) : Op ScanError A := map_err (λ e, ScanError.Walk path (io_kind e)) m.

Definition read_dir (dir : FsPath) : Op Errno (list (string * Node)) :=
  syscall;;
  n ← get_node dir;
  match n with
  | Some Dir => gets (λ h, dir_order (children (h_world h) dir))
  | Some _ => fail ENOTDIR
  | None => if bool_decide (dir = []) then gets (λ h, dir_order (children (h_world h) dir)) else fail ENOENT
  end.

Section traversal.
(** What is done with a node that is no directory. *)
Context {A : Type} (leaf : FsPath → Node → A → Op ScanError A).

(** The loop over one directory: subdirectories are pushed. *)
Fixpoint entries (dir : FsPath) (l : list (string * Node)) (stack : list FsPath) (acc : A) : Op ScanError (list FsPath * A) :=
  match l with
  | [] => mret (stack, acc)
  | (name, n) :: l =>
      let path := dir ++ [name] in
      walk_io dir syscall;;
      walk_io path syscall;;
      match n with
      | Dir => entries dir l (path :: stack) acc
      | n => acc ← leaf path n acc; entries dir l stack acc
      end
  end.

(** [while let Some(dir) = stack.pop()]; [fuel] bounds the directories. *)
Fixpoint traverse (fuel : nat) (stack : list FsPath) (acc : A) : Op ScanError A :=
  match stack with
  | [] => mret acc
  | dir :: stack =>
      match fuel with
      | O => fail ScanError.Join
      | S fuel =>
          l ← walk_io dir (read_dir dir);
          r ← entries dir l stack acc;
          traverse fuel r.1 r.2
      end
  end.
End traversal.

(** Every directory of the tree is visited at most once. *)
Definition fuel_for (h : Host) : nat := S (size (h_world h)).

Definition walk_leaf (path : FsPath) (n : Node) (out : list FsPath) : Op ScanError (list FsPath) :=
  mret (if negb (is_tmp (List.last path "")) && replicated n then out ++ [path] else out).

Definition walk (root : FsPath) : Op ScanError (list FsPath) :=
  fuel ← gets fuel_for; traverse walk_leaf fuel [root] [].

Definition sweep_leaf (path : FsPath) (n : Node) (removed : Z) : Op ScanError Z :=
  match n with
  | Reg _ _ =>
      if is_tmp (List.last path "") then
        r ← catch (sys_unlink path);
        mret (match r with Ok _ => removed + 1 | Err _ => removed end)
      else mret removed
  | _ => mret removed
  end.

Definition sweep_orphan_temps (root : FsPath) : Op ScanError Z :=
  fuel ← gets fuel_for; traverse sweep_leaf fuel [root] 0.

Section pass.
Context `{!Blake3, !Bincode, !Hex} (cfg : EngineCfg).

Definition live_files : Eng ScanError (list LiveFile) :=
  Engine.ask cfg LiveFiles (λ r, match r with RLive x => Some x | _ => None end).

(** [spawn_blocking(move || walk(&root)).await??] *)
Definition walking : Eng ScanError (list FsPath) :=
  Engine.await cfg (λ _ s, let '(h, r) := walk (h_root (es_host s)) (es_host s) in (set_host h s, r)).

(** A send on the channel; [room] says how many more succeed. *)
Definition send (e : LocalEvent) (q : list LocalEvent * nat) : result ScanError (list LocalEvent * nat) :=
  match q.2 with S room => Ok (q.1 ++ [e], room) | O => Err ScanError.ChannelClosed end.

Fixpoint send_all (l : list LocalEvent) (q : list LocalEvent * nat) : result ScanError (list LocalEvent * nat) :=
  match l with
  | [] => Ok q
  | e :: l => q ← send e q; send_all l q
  end.

Definition disk_rels (root : FsPath) (on_disk : list FsPath) : list string :=
  omap (λ abs, rel ← strip_prefix root abs; to_str (path_text rel)) on_disk.

(** The live rows that are not on disk, as events. *)
Definition gone (rels : list string) (rows : list LiveFile) : list LocalEvent :=
  (λ r, LocalEvent.Delete (lv_path r)) <$> filter (λ r, lv_path r ∉ rels) rows.

(** One diff pass: the events sent before the channel, which takes [room] of
    them, is closed. *)
Definition scan_once (room : nat) : Eng ScanError (list LocalEvent * ScanStats) :=
  on_disk ← walking;
  root ← (λ s, (s, Done (h_root (es_host s))));
  match send_all (LocalEvent.Write <$> on_disk) ([], room) with
  | Err e => raise e
  | Ok q =>
      rows ← live_files;
      let deletes := gone (disk_rels root on_disk) rows in
      match send_all deletes q with
      | Err e => raise e
      | Ok q => mret (q.1, mkScanStats (Z.of_nat (length on_disk)) (Z.of_nat (length deletes)))
      end
  end.
End pass.
End with_externals.
End Scanner.
