(* ===== verification/ScannerProofs.v ===== *)
(** * The scanner: what a traversal of the share visits

    Without I/O errors a traversal visits every node below the root that is no
    directory exactly once, whatever the listing order, within the fuel
    chosen. *)

From S2P Require Import Prelude Vv Decide Metadata Conflict ConflictProofs State Oplog Suppress Merkle Chunk Proto Fs Apply ApplyProofs Peer Fetch Engine Ingest Scanner.
Import Scanner.

(** ** Paths *)

Lemma strip_prefix_app root p rel : strip_prefix root p = Some rel ↔ p = root ++ rel.
Proof.
  revert p. induction root as [|r root IH]; intros p; simpl; [naive_solver|].
  destruct p as [|c p]; [done|]. case_bool_decide as Hrc; [subst; rewrite IH; naive_solver|naive_solver].
Qed.

(** Strictly below a directory. *)
Definition under (d p : FsPath) : Prop := d `prefix_of` p ∧ d ≠ p.

#[export] Instance under_dec d p : base.Decision (under d p).
Proof. unfold under. apply _. Defined.

Lemma under_child d c : under d (d ++ [c]).
Proof. split; [by apply prefix_app_r|]. intros Heq. apply (f_equal length) in Heq. rewrite length_app in Heq. simpl in Heq. lia. Qed.

Lemma under_trans a b c : a `prefix_of` b → under b c → under a c.
Proof.
  intros Hab [Hbc Hne]. split; [by etrans|]. intros ->. apply Hne.
  destruct Hab as [k ->], Hbc as [k' Hk]. apply (f_equal length) in Hk as Hl. rewrite !length_app in Hl.
  destruct k; [by rewrite app_nil_r|simpl in Hl; lia].
Qed.

(** A path below a directory is an entry of it or below one. *)
Lemma under_step d p : under d p → ∃ c, (d ++ [c]) `prefix_of` p.
Proof.
  intros [[k ->] Hne]. destruct k as [|c k]; [by rewrite app_nil_r in Hne|]. exists c, k. by rewrite <- (assoc_L (++)).
Qed.

Lemma prefix_snoc_inv (d q : FsPath) c : d `prefix_of` (q ++ [c]) → d = q ++ [c] ∨ d `prefix_of` q.
Proof.
  intros [k Hk]. destruct k as [|x k _] using rev_ind; [left; by rewrite app_nil_r in Hk|right].
  rewrite (assoc_L (++)) in Hk. apply app_inj_tail in Hk as [-> _]. by exists k.
Qed.

Lemma elem_of_rev {A} (l : list A) x : x ∈ rev l ↔ x ∈ l.
Proof. rewrite !list_elem_of_In. symmetry. apply in_rev. Qed.
Lemma NoDup_revd {A} (l : list A) : NoDup l → NoDup (rev l).
Proof. rewrite !NoDup_ListNoDup. apply List.NoDup_rev. Qed.

Section traversal.
Context `{!DirOrder, !DirOrderLaws}.

Lemma elem_of_children w d name n : (name, n) ∈ children w d ↔ w !! (d ++ [name]) = Some n.
Proof.
  unfold children. rewrite list_elem_of_omap. split.
  - intros ([k n'] & Hk%elem_of_map_to_list & He). simpl in He.
    destruct (strip_prefix d k) as [[|c [|]]|] eqn:Hs; try done. injection He as <- <-. apply strip_prefix_app in Hs as ->. done.
  - intros Hk. exists (d ++ [name], n). split; [by apply elem_of_map_to_list|]. simpl.
    by rewrite (proj2 (strip_prefix_app d (d ++ [name]) [name]) eq_refl).
Qed.

Lemma NoDup_children w d : NoDup (children w d).*1.
Proof.
  unfold children. pose proof (NoDup_fst_map_to_list w) as Hnd. revert Hnd.
  induction (map_to_list w) as [|[k n] l IH]; simpl; [constructor|]. intros [Hk Hnd]%NoDup_cons.
  destruct (strip_prefix d k) as [[|c [|]]|] eqn:Hs; try (by apply IH). simpl. apply strip_prefix_app in Hs as ->.
  constructor; [|by apply IH]. intros ([c' n'] & -> & ([k' n''] & Hin & He)%list_elem_of_omap)%list_elem_of_fmap.
  simpl in He. destruct (strip_prefix d k') as [[|c'' [|]]|] eqn:Hs'; try done. injection He as -> ->. apply strip_prefix_app in Hs' as ->.
  apply Hk. apply list_elem_of_fmap. by exists (d ++ [c'], n').
Qed.

(** ** One directory *)

(** The subdirectories and the other entries. *)
Definition subdirs (d : FsPath) (l : list (string * Node)) : list FsPath :=
  omap (λ e, if e.2 is Dir then Some (d ++ [e.1]) else None) l.
Definition leaves (d : FsPath) (l : list (string * Node)) : list (FsPath * Node) :=
  omap (λ e, if e.2 is Dir then None else Some (d ++ [e.1], e.2)) l.

Lemma elem_of_subdirs d l p : p ∈ subdirs d l ↔ ∃ c, p = d ++ [c] ∧ (c, Dir) ∈ l.
Proof.
  unfold subdirs. rewrite list_elem_of_omap. split.
  - intros ([c n] & Hin & He). destruct n; try done. injection He as <-. by exists c.
  - intros (c & -> & Hin). by exists (c, Dir).
Qed.

Lemma elem_of_leaves d l p n : (p, n) ∈ leaves d l ↔ ∃ c, p = d ++ [c] ∧ (c, n) ∈ l ∧ n ≠ Dir.
Proof.
  unfold leaves. rewrite list_elem_of_omap. split.
  - intros ([c n'] & Hin & He). destruct n'; try done; injection He as <- <-; by exists c.
  - intros (c & -> & Hin & Hn). exists (c, n). split; [done|]. by destruct n.
Qed.

Lemma NoDup_leaves d l : NoDup l.*1 → NoDup (leaves d l).*1.
Proof.
  induction l as [|[c n] l IH]; simpl; [constructor|]. intros [Hc Hnd]%NoDup_cons.
  assert (Hfresh : (d ++ [c]) ∉ (leaves d l).*1).
  { intros ([p n'] & Heq & (c' & -> & Hin & _)%elem_of_leaves)%list_elem_of_fmap. apply app_inj_tail in Heq as [_ <-].
    apply Hc. apply list_elem_of_fmap. by exists (c, n'). }
  unfold leaves. simpl. destruct n; simpl; try (by apply IH); (constructor; [exact Hfresh|by apply IH]).
Qed.

Lemma NoDup_subdirs d l : NoDup l.*1 → NoDup (subdirs d l).
Proof.
  induction l as [|[c n] l IH]; simpl; [constructor|]. intros [Hc Hnd]%NoDup_cons. unfold subdirs. simpl.
  destruct n; try (by apply IH). constructor; [|by apply IH].
  intros (c' & Hp & Hin)%elem_of_subdirs. apply app_inj_tail in Hp as [_ <-]. apply Hc. apply list_elem_of_fmap. by exists (c, Dir).
Qed.

Lemma walk_syscall p h : h_faults h = [] → walk_io p syscall h = (h, Done ()).
Proof. intros Hf. unfold walk_io, map_err, syscall. by rewrite Hf. Qed.

(** ** The whole tree *)

Section visits.
(** A visit folds its node into the accumulator and either keeps the node or
    removes it. *)
Context {A : Type} (leaf : FsPath → Node → A → Op ScanError A) (keep : FsPath → Node → bool) (f : FsPath → Node → A → A).
Context (Hleaf : ∀ p n acc h, h_faults h = [] → h_world h !! p = Some n → n ≠ Dir →
  leaf p n acc h = (set_world (if keep p n then h_world h else delete p (h_world h)) h, Done (f p n acc))).

Definition prune (l : list (FsPath * Node)) (w : World) : World :=
  foldl (λ w e, if keep e.1 e.2 then w else delete e.1 w) w l.
Definition gather (l : list (FsPath * Node)) (acc : A) : A := foldl (λ acc e, f e.1 e.2 acc) acc l.

Lemma prune_app l l' w : prune (l ++ l') w = prune l' (prune l w).
Proof. apply foldl_app. Qed.
Lemma gather_app l l' acc : gather (l ++ l') acc = gather l' (gather l acc).
Proof. apply foldl_app. Qed.

Lemma prune_other l w p : p ∉ l.*1 → prune l w !! p = w !! p.
Proof.
  revert w. induction l as [|[q n] l IH]; intros w; [done|]. simpl. intros [Hq Hl]%not_elem_of_cons.
  change (prune l (if keep q n then w else delete q w) !! p = w !! p). rewrite IH by done.
  destruct (keep q n); [done|]. by apply lookup_delete_ne.
Qed.

(** What a pruning leaves. *)
Lemma prune_lookup l w p :
  NoDup l.*1 → (∀ q n, (q, n) ∈ l → w !! q = Some n) →
  prune l w !! p = match w !! p with Some n => if decide ((p, n) ∈ l ∧ keep p n = false) then None else Some n | None => None end.
Proof.
  revert w. induction l as [|[q n] l IH]; intros w Hnd Hin.
  { cbn [prune foldl]. destruct (w !! p) as [m|]; [|done]. case_decide as Hd; [|done]. by destruct Hd as [[]%not_elem_of_nil _]. }
  simpl in Hnd. apply NoDup_cons in Hnd as [Hq Hnd]. change (prune ((q, n) :: l) w) with (prune l (if keep q n then w else delete q w)).
  assert (Hn : w !! q = Some n) by (apply Hin; left).
  assert (Hql : ∀ m, (q, m) ∉ l) by (intros m Hm; apply Hq, list_elem_of_fmap; by exists (q, m)).
  rewrite IH; [|done|].
  - destruct (decide (p = q)) as [->|Hne].
    + rewrite Hn. destruct (keep q n) eqn:Hk.
      * rewrite Hn, !decide_False; [done|naive_solver congruence|intros [? _]; by eapply Hql].
      * rewrite lookup_delete_eq, decide_True; [done|]. split; [left|done].
    + assert (Hw : (if keep q n then w else delete q w) !! p = w !! p) by (destruct (keep q n); [done|by apply lookup_delete_ne]).
      rewrite Hw. destruct (w !! p) as [m|]; [|done].
      destruct (decide ((p, m) ∈ l ∧ keep p m = false)) as [[Hl Hk]|Hno]; [by rewrite decide_True by (split; [by right|done])|].
      rewrite decide_False; [done|]. intros [[?|?]%elem_of_cons Hk]; [congruence|by apply Hno].
  - intros q' n' Hin'. assert (q' ≠ q) by (intros ->; by eapply Hql).
    destruct (keep q n); [apply Hin; by right|]. rewrite lookup_delete_ne by done. apply Hin. by right.
Qed.

Lemma prune_size l w :
  NoDup l.*1 → (∀ q n, (q, n) ∈ l → w !! q = Some n) →
  size w = (size (prune l w) + length (filter (λ e, keep e.1 e.2 = false) l))%nat.
Proof.
  revert w. induction l as [|[q n] l IH]; intros w Hnd Hin; [simpl; lia|].
  simpl in Hnd. apply NoDup_cons in Hnd as [Hq Hnd]. change (prune ((q, n) :: l) w) with (prune l (if keep q n then w else delete q w)).
  assert (Hn : w !! q = Some n) by (apply Hin; left).
  rewrite filter_cons. cbn [fst snd]. destruct (keep q n) eqn:Hk.
  - rewrite decide_False by done. apply IH; [done|]. intros. apply Hin. by right.
  - rewrite decide_True by done. cbn [length].
    assert (Hs : size w = S (size (delete q w))).
    { rewrite map_size_delete, Hn. assert (size w ≠ 0%nat); [|lia]. intros ->%map_size_empty_inv. by rewrite lookup_empty in Hn. }
    rewrite Hs. rewrite (IH (delete q w)); [lia|done|]. intros q' n' Hin'. rewrite lookup_delete_ne; [apply Hin; by right|].
    intros <-. apply Hq, list_elem_of_fmap. by exists (q, n').
Qed.

Lemma entries_visits d l stack acc h :
  h_faults h = [] → NoDup l.*1 → (∀ c n, (c, n) ∈ l → h_world h !! (d ++ [c]) = Some n) →
  entries leaf d l stack acc h =
    (set_world (prune (leaves d l) (h_world h)) h, Done (rev (subdirs d l) ++ stack, gather (leaves d l) acc)).
Proof.
  revert stack acc h. induction l as [|[c n] l IH]; intros stack acc h Hf Hnd Hin; cbn [entries].
  { by destruct h. }
  apply NoDup_cons in Hnd as [Hc Hnd]. unfold mbind, op_bind. rewrite !walk_syscall by done.
  assert (Hn : h_world h !! (d ++ [c]) = Some n) by (apply Hin; left).
  assert (Hrest : ∀ c' n', (c', n') ∈ l → h_world h !! (d ++ [c']) = Some n') by (intros; apply Hin; by right).
  destruct (decide (n = Dir)) as [->|Hdir].
  { rewrite IH by done. unfold subdirs, leaves. cbn [omap list_omap fst snd rev]. by rewrite <- (assoc_L (++)). }
  assert (Hstep : ∀ m : Op ScanError (list FsPath * A), match n with Dir => entries leaf d l ((d ++ [c]) :: stack) acc | _ => m end = m) by by destruct n.
  rewrite Hstep. rewrite (Hleaf _ _ acc h Hf Hn Hdir). cbn [fst snd].
  rewrite IH; [|done|done|].
  - unfold subdirs, leaves. destruct n; done.
  - intros c' n' Hin'. cbn [set_world h_world]. destruct (keep _ _); [by apply Hrest|]. rewrite lookup_delete_ne; [by apply Hrest|].
    intros Heq. apply app_inj_tail in Heq as [_ <-]. apply Hc. apply list_elem_of_fmap. by exists (c, n').
Qed.

Context (w : World) (root : FsPath).

(** A directory; the root of the file system needs no entry. *)
Definition is_dir (d : FsPath) : Prop := w !! d = Some Dir ∨ d = [] ∧ w !! [] = None.

(** A tree: what is below the root is an entry of a directory. *)
Definition tree_ok : Prop :=
  is_dir root ∧
  ∀ p c n, w !! (p ++ [c]) = Some n → root `prefix_of` p → p = root ∨ w !! p = Some Dir.

(** The nodes a traversal is for. *)
Definition leaf_of (p : FsPath) (n : Node) : Prop := w !! p = Some n ∧ n ≠ Dir ∧ under root p.

Context (Htree : tree_ok).

(** With directories [stack] to do and [seen] visited. *)
Record visiting (stack : list FsPath) (seen : list (FsPath * Node)) : Prop := {
  vi_dirs : ∀ d, d ∈ stack → root `prefix_of` d ∧ is_dir d;
  vi_apart : ∀ d d', d ∈ stack → d' ∈ stack → d `prefix_of` d' → d = d';
  vi_stack : NoDup stack;
  vi_seen : NoDup seen.*1;
  vi_sound : ∀ p n, (p, n) ∈ seen → leaf_of p n ∧ ∀ d, d ∈ stack → ¬ under d p;
  vi_complete : ∀ p n, leaf_of p n → (p, n) ∈ seen ∨ ∃ d, d ∈ stack ∧ under d p;
}.

(** Directories still to be found. *)
Definition ahead (stack : list FsPath) : gset FsPath :=
  filter (λ p, w !! p = Some Dir ∧ Exists (λ d, under d p) stack) (dom w).

Lemma elem_of_ahead stack p : p ∈ ahead stack ↔ w !! p = Some Dir ∧ ∃ d, d ∈ stack ∧ under d p.
Proof.
  unfold ahead. rewrite elem_of_filter, Exists_exists, elem_of_dom. naive_solver.
Qed.

(** The entries of [d] as the world shows them. *)
Definition lists (d : FsPath) (l : list (string * Node)) : Prop :=
  NoDup l.*1 ∧ ∀ c n, (c, n) ∈ l ↔ w !! (d ++ [c]) = Some n.

Lemma child_dir d l p : lists d l → p ∈ subdirs d l ↔ w !! p = Some Dir ∧ ∃ c, p = d ++ [c].
Proof.
  intros [_ Hl]. rewrite elem_of_subdirs. split; [intros (c & -> & Hin%Hl)|intros (Hw & c & ->)]; [by split; [|exists c]|].
  exists c. split; [done|by apply Hl].
Qed.

(** Below [d]: an entry that is no directory, or below a subdirectory. *)
Lemma below_child d p n :
  root `prefix_of` d → under d p → w !! p = Some n → n ≠ Dir →
  (∃ c, p = d ++ [c]) ∨ ∃ c, w !! (d ++ [c]) = Some Dir ∧ under (d ++ [c]) p.
Proof.
  intros Hroot Hu Hp Hn. destruct (under_step d p Hu) as (c & Hc). destruct (decide (d ++ [c] = p)) as [<-|Hne]; [left; by exists c|right].
  exists c. split; [|done]. destruct Hc as [k ->].
  assert (Hk : k ≠ []) by (intros ->; by rewrite app_nil_r in Hne). clear Hne Hu.
  assert (Hdir : ∀ k n, k ≠ [] → w !! ((d ++ [c]) ++ k) = Some n → w !! (d ++ [c]) = Some Dir).
  { clear Hk Hp Hn k n. intros k. induction k as [|x k IH] using rev_ind; [done|]. intros n _ Hw. rewrite (assoc_L (++)) in Hw.
    destruct Htree as [_ Ht]. destruct (Ht _ _ _ Hw) as [Heq|Hd].
    - rewrite <- (assoc_L (++)). etrans; [exact Hroot|]. by apply prefix_app_r.
    - exfalso. rewrite <- Heq in Hroot. destruct Hroot as [z Hz]. apply (f_equal length) in Hz. rewrite !length_app in Hz. simpl in Hz. lia.
    - destruct k as [|y k]; [by rewrite app_nil_r in Hd|]. by eapply IH. }
  by eapply Hdir.
Qed.

Lemma elem_of_next d l stack p : p ∈ rev (subdirs d l) ++ stack ↔ p ∈ subdirs d l ∨ p ∈ stack.
Proof. rewrite elem_of_app, elem_of_rev. done. Qed.

Lemma visiting_step d stack seen l :
  visiting (d :: stack) seen → lists d l → visiting (rev (subdirs d l) ++ stack) (seen ++ leaves d l).
Proof.
  intros [Hdirs Hapart Hst Hseen Hsound Hcomp] Hl. pose proof Hl as [Hnd Hin].
  assert (Hd : d ∈ d :: stack) by left. destruct (Hdirs d Hd) as [Hroot _]. apply NoDup_cons in Hst as [Hdst Hst].
  assert (Hchild : ∀ p, p ∈ subdirs d l → under d p ∧ w !! p = Some Dir).
  { intros p Hp. apply (child_dir d l p Hl) in Hp as (Hw & c & ->). split; [apply under_child|done]. }
  assert (Hfar : ∀ d' p, d' ∈ stack → under d p → ¬ d' `prefix_of` p).
  { intros d' p Hd' [Hp _] Hp'. destruct (prefix_weak_total d d' p Hp Hp') as [Hdd|Hdd].
    - rewrite (Hapart d d' Hd) in Hdst; [done|by right|done].
    - rewrite <- (Hapart d' d) in Hdst; [done|by right|done|done]. }
  split.
  - intros p [Hp|Hp]%elem_of_next; [|apply Hdirs; by right]. destruct (Hchild p Hp) as [[Hpre _] Hw]. split; [by etrans|by left].
  - intros p p' [Hp|Hp]%elem_of_next [Hp'|Hp']%elem_of_next Hpp.
    + apply (child_dir d l p Hl) in Hp as (_ & c & ->). apply (child_dir d l p' Hl) in Hp' as (_ & c' & ->).
      apply prefix_length_eq; [done|]. rewrite !length_app. done.
    + exfalso. destruct (Hchild p Hp) as [Hu _]. destruct (decide (p = p')) as [<-|Hne]; [by apply (Hfar p p)|].
      apply Hdst. rewrite (Hapart d p' Hd); [done|by right|]. etrans; [apply Hu|done].
    + exfalso. destruct (Hchild p' Hp') as [Hu _]. by apply (Hfar p p').
    + apply Hapart; [by right..|done].
  - apply NoDup_app. split; [by apply NoDup_revd, NoDup_subdirs|]. split; [|done].
    intros p Hp Hp'. rewrite elem_of_rev in Hp. destruct (Hchild p Hp) as [Hu _]. by apply (Hfar p p).
  - rewrite fmap_app. apply NoDup_app. split; [done|]. split; [|by apply NoDup_leaves].
    intros p ([q n] & -> & Hq)%list_elem_of_fmap ([q' n'] & Heq & (c & -> & _)%elem_of_leaves)%list_elem_of_fmap.
    simpl in *. subst q. destruct (Hsound _ _ Hq) as [_ Hno]. by apply (Hno d Hd), under_child.
  - intros p n [Hp|(c & -> & Hc & Hn)%elem_of_leaves]%elem_of_app.
    + destruct (Hsound p n Hp) as [Hlf Hno]. split; [done|]. intros d' [Hd'|Hd']%elem_of_next; [|apply Hno; by right].
      intros Hu. apply (Hno d Hd). destruct (Hchild d' Hd') as [[Hpre _] _]. by eapply under_trans.
    + apply Hin in Hc. split; [split_and!; [done|done|by eapply under_trans, under_child]|].
      intros d' [Hd'|Hd']%elem_of_next Hu.
      * apply (child_dir d l d' Hl) in Hd' as (_ & c' & ->). destruct Hu as [Hpre Hne]. apply Hne.
        apply prefix_length_eq; [done|]. by rewrite !length_app.
      * apply (Hfar d' (d ++ [c])); [done|apply under_child|apply Hu].
  - intros p n Hlf. destruct (Hcomp p n Hlf) as [Hs|(d' & Hd' & Hu)]; [left; apply elem_of_app; by left|].
    apply elem_of_cons in Hd' as [->|Hd']; [|right; exists d'; split; [apply elem_of_next; by right|done]].
    destruct Hlf as (Hw & Hn & _). destruct (below_child d p n Hroot Hu Hw Hn) as [[c ->]|(c & Hc & Hu')].
    + left. apply elem_of_app. right. apply elem_of_leaves. exists c. split; [done|]. split; [by apply Hin|done].
    + right. exists (d ++ [c]). split; [apply elem_of_next; left; apply (child_dir d l _ Hl); by eauto|done].
Qed.

Lemma ahead_step d stack seen l :
  visiting (d :: stack) seen → lists d l →
  (length (rev (subdirs d l) ++ stack) + size (ahead (rev (subdirs d l) ++ stack)) < length (d :: stack) + size (ahead (d :: stack)))%nat.
Proof.
  intros Hv Hl. pose proof (visiting_step _ _ _ _ Hv Hl) as Hv'.
  assert (Hsize : size (ahead (rev (subdirs d l) ++ stack) ∪ list_to_set (subdirs d l)) =
    (size (ahead (rev (subdirs d l) ++ stack)) + length (subdirs d l))%nat).
  { rewrite size_union; [|].
    - rewrite size_list_to_set; [done|]. apply NoDup_subdirs, Hl.
    - intros p (_ & d' & Hd' & Hpre & Hne)%elem_of_ahead Hp%elem_of_list_to_set. apply Hne.
      apply (vi_apart _ _ Hv'); [done|by apply elem_of_next; left|done]. }
  assert (Hsub : ahead (rev (subdirs d l) ++ stack) ∪ list_to_set (subdirs d l) ⊆ ahead (d :: stack)).
  { intros p [(Hw & d' & Hd' & Hu)%elem_of_ahead|Hp%elem_of_list_to_set]%elem_of_union; apply elem_of_ahead.
    - split; [done|]. apply elem_of_next in Hd' as [Hd'|Hd']; [|exists d'; split; [by right|done]].
      exists d. split; [left|]. apply (child_dir d l d' Hl) in Hd' as (_ & c & ->). eapply under_trans; [|exact Hu]. by apply prefix_app_r.
    - apply (child_dir d l p Hl) in Hp as (Hw & c & ->). split; [done|]. exists d. split; [left|apply under_child]. }
  apply subseteq_size in Hsub. rewrite Hsize in Hsub. rewrite length_app, length_rev. simpl. lia.
Qed.

Lemma not_seen stack seen d p : visiting stack seen → d ∈ stack → is_dir p ∨ under d p → p ∉ seen.*1.
Proof.
  intros Hv Hd Hp ([q n] & -> & Hq)%list_elem_of_fmap. simpl in *. destruct (vi_sound _ _ Hv _ _ Hq) as [(Hw & Hn & _) Hno].
  destruct Hp as [[Hp|[-> Hp]]|Hp]; [congruence..|by apply (Hno d)].
Qed.

Lemma read_dir_lists stack seen d h :
  visiting stack seen → d ∈ stack → h_faults h = [] → h_world h = prune seen w →
  ∃ l, walk_io d (read_dir d) h = (h, Done l) ∧ lists d l ∧ ∀ c n, (c, n) ∈ l → h_world h !! (d ++ [c]) = Some n.
Proof.
  intros Hv Hd Hf Hw. exists (dir_order (children (h_world h) d)).
  assert (Hkids : ∀ c, h_world h !! (d ++ [c]) = w !! (d ++ [c])).
  { intros c. rewrite Hw. apply prune_other. eapply not_seen; [done|done|right; apply under_child]. }
  assert (Hin : ∀ c n, (c, n) ∈ dir_order (children (h_world h) d) ↔ h_world h !! (d ++ [c]) = Some n).
  { intros c n. rewrite dir_order_perm. apply elem_of_children. }
  split_and!.
  - unfold walk_io, map_err, read_dir, mbind, op_bind, syscall. rewrite Hf. unfold get_node, gets.
    destruct (vi_dirs _ _ Hv d Hd) as [_ Hdir].
    assert (Hnode : h_world h !! d = w !! d) by (rewrite Hw; apply prune_other; eapply not_seen; eauto).
    rewrite Hnode. destruct Hdir as [->|[-> ->]]; done.
  - split; [|intros c n; by rewrite Hin, Hkids].
    apply (NoDup_Permutation_proper _ _ (fmap_Permutation fst _ _ (dir_order_perm (children (h_world h) d)))), NoDup_children.
  - intros c n. by rewrite Hin.
Qed.

Lemma traverse_visits fuel stack seen acc h :
  visiting stack seen → h_faults h = [] → h_world h = prune seen w → (length stack + size (ahead stack) ≤ fuel)%nat →
  ∃ all, traverse leaf fuel stack acc h = (set_world (prune (seen ++ all) w) h, Done (gather all acc)) ∧ visiting [] (seen ++ all).
Proof.
  revert stack seen acc h. induction fuel as [|fuel IH]; intros [|d stack] seen acc h Hv Hf Hw Hfuel.
  1, 3: exists []; rewrite app_nil_r; cbn [traverse gather foldl]; rewrite <- Hw; by destruct h.
  { simpl in Hfuel. lia. }
  destruct (read_dir_lists (d :: stack) seen d h) as (l & Hread & Hl & Hin); [done|left|done|done|].
  pose proof (ahead_step d stack seen l Hv Hl) as Hless. pose proof (visiting_step d stack seen l Hv Hl) as Hv'.
  cbn [traverse]. unfold mbind, op_bind. rewrite Hread. rewrite entries_visits; [|done|apply Hl|exact Hin]. cbn [fst snd].
  destruct (IH (rev (subdirs d l) ++ stack) (seen ++ leaves d l) (gather (leaves d l) acc)
    (set_world (prune (leaves d l) (h_world h)) h)) as (all & Htr & Hall); [done|done| |lia|].
  { cbn [h_world set_world]. by rewrite prune_app, Hw. }
  exists (leaves d l ++ all). rewrite Htr, gather_app, (assoc_L (++)). done.
Qed.

Lemma visiting_start : visiting [root] [].
Proof.
  split; simpl; try done.
  - intros d ->%list_elem_of_singleton. split; [done|apply Htree].
  - by intros d d' ->%list_elem_of_singleton ->%list_elem_of_singleton.
  - apply NoDup_singleton.
  - constructor.
  - intros p n []%not_elem_of_nil.
  - intros p n Hlf. right. exists root. split; [left|apply Hlf].
Qed.

Lemma visiting_end all : visiting [] all → NoDup all.*1 ∧ ∀ p n, (p, n) ∈ all ↔ leaf_of p n.
Proof.
  intros Hv. split; [apply Hv|]. intros p n. split; [apply (vi_sound _ _ Hv)|].
  intros Hlf. destruct (vi_complete _ _ Hv p n Hlf) as [?|(d & []%not_elem_of_nil & _)]. done.
Qed.

Lemma fuel_enough h : h_world h = w → (length [root] + size (ahead [root]) ≤ fuel_for h)%nat.
Proof.
  intros Hw. unfold fuel_for. simpl. rewrite Hw.
  assert (Hsub : ahead [root] ⊆ dom w) by (intros p (? & ?)%elem_of_ahead; by eapply elem_of_dom_2).
  apply subseteq_size in Hsub. rewrite size_dom in Hsub. lia.
Qed.

(** A whole traversal, within the fuel the code's model gives it. *)
Lemma traverse_all acc h :
  h_faults h = [] → h_world h = w →
  ∃ all, traverse leaf (fuel_for h) [root] acc h = (set_world (prune all w) h, Done (gather all acc)) ∧
    NoDup all.*1 ∧ ∀ p n, (p, n) ∈ all ↔ leaf_of p n.
Proof.
  intros Hf Hw. destruct (traverse_visits (fuel_for h) [root] [] acc h) as (all & Htr & Hv);
    [apply visiting_start|done|done|by apply fuel_enough|].
  exists all. split; [done|]. by apply visiting_end.
Qed.
End visits.
End traversal.

(** ** The walk and the sweep *)

Section passes.
Context `{!DirOrder, !DirOrderLaws}.

Definition walked (w : World) (root p : FsPath) : Prop :=
  under root p ∧ is_tmp (List.last p "") = false ∧ ∃ n, w !! p = Some n ∧ replicated n = true.

Lemma walk_visits p n out h :
  h_faults h = [] → h_world h !! p = Some n → n ≠ Dir →
  walk_leaf p n out h =
    (set_world (h_world h) h, Done (if negb (is_tmp (List.last p "")) && replicated n then out ++ [p] else out)).
Proof. intros _ _ _. by destruct h. Qed.

Lemma gather_walk l out :
  gather (λ p n out, if negb (is_tmp (List.last p "")) && replicated n then out ++ [p] else out) l out =
  out ++ (filter (λ e, negb (is_tmp (List.last e.1 "")) && replicated e.2 = true) l).*1.
Proof.
  revert out. induction l as [|[p n] l IH]; intros out; [by rewrite app_nil_r|].
  unfold gather in *. cbn [foldl fst snd]. rewrite IH. rewrite filter_cons. cbn [fst snd].
  destruct (negb _ && replicated n) eqn:Hb.
  - rewrite decide_True by done. rewrite <- (assoc_L (++)). done.
  - by rewrite decide_False by congruence.
Qed.

Lemma walk_spec h root :
  h_faults h = [] → tree_ok (h_world h) root →
  ∃ out, walk root h = (h, Done out) ∧ NoDup out ∧ ∀ p, p ∈ out ↔ walked (h_world h) root p.
Proof.
  intros Hf Ht. unfold walk, mbind, op_bind, gets.
  destruct (traverse_all walk_leaf (λ _ _, true) _ walk_visits (h_world h) root Ht [] h Hf eq_refl) as (all & Htr & Hnd & Hin).
  rewrite gather_walk in Htr. assert (Hw : prune (λ _ _, true) all (h_world h) = h_world h).
  { clear. unfold prune. by induction all as [|e l IH]. }
  rewrite Hw in Htr. eexists. split; [rewrite Htr; by destruct h|]. simpl. split.
  - eapply sublist_NoDup; [exact Hnd|]. apply fmap_sublist, sublist_filter.
  - intros p. rewrite list_elem_of_fmap. unfold walked. split.
    + intros ([q n] & -> & (Hb & (Hl & _ & Hu)%Hin)%list_elem_of_filter). simpl in *. apply andb_true_iff in Hb as [Hb1%negb_true_iff Hb2]. eauto.
    + intros (Hu & Htmp & n & Hl & Hr). exists (p, n). split; [done|]. apply list_elem_of_filter. simpl. rewrite Htmp, Hr. split; [done|].
      apply Hin. split_and!; [done| |done]. by intros ->.
Qed.

(** The walk ends and finds exactly the nodes below the share's root that are
    replicated and are not staging files, each once, in whatever order
    directories are listed; it changes nothing. *)
Theorem walk_exact h root :
  h_faults h = [] → tree_ok (h_world h) root →
  ∃ out, walk root h = (h, Done out) ∧ NoDup out ∧ ∀ p, p ∈ out ↔ walked (h_world h) root p.
Proof. apply walk_spec. Qed.

(** A node under a staging name. *)
Definition staged (root p : FsPath) (n : Node) : Prop := under root p ∧ is_tmp (List.last p "") = true ∧ n ≠ Dir.

#[export] Instance staged_dec root p n : base.Decision (staged root p n).
Proof. unfold staged. apply _. Defined.

(** A regular file under a staging name, which is what the sweep looks for. A
    symbolic link or a special node is staged under such a name too. *)
Definition staged_file (root p : FsPath) (n : Node) : Prop :=
  under root p ∧ is_tmp (List.last p "") = true ∧ ∃ d a, n = Reg d a.

#[local] Instance staged_file_dec root p n : base.Decision (staged_file root p n).
Proof.
  unfold staged_file. destruct n; try (right; naive_solver).
  destruct (decide (under root p ∧ is_tmp (List.last p "") = true)) as [[Hu Ht]|Hno]; [left|right; naive_solver]. by eauto.
Defined.

Definition is_reg (n : Node) : bool := if n is Reg _ _ then true else false.

Lemma sweep_visits p n removed h :
  h_faults h = [] → h_world h !! p = Some n → n ≠ Dir →
  sweep_leaf p n removed h =
    (set_world (if negb (is_reg n && is_tmp (List.last p "")) then h_world h else delete p (h_world h)) h,
     Done (if is_reg n && is_tmp (List.last p "") then removed + 1 else removed)).
Proof.
  intros Hf Hn _. unfold sweep_leaf. destruct n as [|d a| | |]; try (by destruct h). simpl.
  destruct (is_tmp _); [|by destruct h]. unfold mbind, op_bind, catch, sys_unlink, syscall, mbind, op_bind. rewrite Hf.
  unfold get_node, gets. by rewrite Hn.
Qed.

(** The start-up sweep ends and removes exactly the regular files below the
    root that carry a staging name; everything else stays as it is, and the
    number it returns is the number of files removed. *)
Theorem sweep_orphan_temps_exact h root :
  h_faults h = [] → tree_ok (h_world h) root →
  ∃ w' removed, sweep_orphan_temps root h = (set_world w' h, Done removed) ∧
    (∀ p, w' !! p = match h_world h !! p with Some n => if decide (staged_file root p n) then None else Some n | None => None end) ∧
    removed = Z.of_nat (size (h_world h)) - Z.of_nat (size w').
Proof.
  intros Hf Ht. unfold sweep_orphan_temps, mbind, op_bind, gets.
  destruct (traverse_all sweep_leaf _ _ sweep_visits (h_world h) root Ht 0 h Hf eq_refl) as (all & Htr & Hnd & Hin).
  set (keep := λ p n, negb (is_reg n && is_tmp (List.last p ""))) in *.
  assert (Hw : ∀ q n, (q, n) ∈ all → h_world h !! q = Some n) by (intros q n Hq; by apply Hin in Hq as [? _]).
  eexists _, _. split; [exact Htr|]. split.
  - intros p. rewrite (prune_lookup keep) by done. destruct (h_world h !! p) as [n|] eqn:Hn; [|done].
    assert (Hiff : (p, n) ∈ all ∧ keep p n = false ↔ staged_file root p n).
    { rewrite Hin. unfold leaf_of, staged_file, keep. rewrite negb_false_iff, andb_true_iff. split.
      - intros ((_ & _ & Hu) & Hr & Htmp). split_and!; [done..|]. destruct n; try done. eauto.
      - intros (Hu & Htmp & d & a & ->). done. }
    destruct (decide (staged_file root p n)) as [Ho|Ho]; [by rewrite decide_True by by apply Hiff|by rewrite decide_False by (by rewrite Hiff)].
  - rewrite (prune_size keep all (h_world h)) by done.
    assert (Hg : ∀ l z, gather (λ p n z, if is_reg n && is_tmp (List.last p "") then z + 1 else z) l z =
      z + Z.of_nat (length (filter (λ e, keep e.1 e.2 = false) l))).
    { clear. intros l. induction l as [|[p n] l IH]; intros z; [simpl; lia|]. unfold gather in *. cbn [foldl fst snd]. rewrite IH, filter_cons.
      cbn [fst snd]. assert (Hk : keep p n = negb (is_reg n && is_tmp (List.last p ""))) by done.
      destruct (is_reg n && is_tmp (List.last p "")); [rewrite decide_True by done|rewrite decide_False by (by rewrite Hk)]; simpl; lia. }
    rewrite Hg. lia.
Qed.
End passes.
