(* ===== verification/CasDisk.v ===== *)
(** * The chunk store on disk (src/src/chunk.rs)

    The operations of the store as system calls on the file tree: where a
    chunk lies, the staged insert, the verified read, the reader that serves
    it, the sweep of staged files and the count for the health endpoint. The
    module [Cas] of Chunk is the map these operations implement. *)

From stdpp Require Import pretty.
From S2P Require Import Prelude Vv Metadata Conflict State Suppress Chunk Fs Apply Ingest Scanner.

#[local] Open Scope Z_scope.

(** [fs::create_dir_all] on the segments of a path text, from [cur]: where the
    path leads. *)
Fixpoint create_all (cur segs : list string) : Op Errno FsPath :=
  match segs with
  | [] => mret cur
  | c :: rest =>
      if bool_decide (c = "" ∨ c = ".") then create_all cur rest
      else if bool_decide (c = "..") then create_all (removelast cur) rest
      else
        q ← map_err (λ e, if bool_decide (e = EEXIST ∧ rest ≠ []) then ENOTDIR else e) (create_dirs cur [c]);
        create_all q rest
  end.

Module CasDisk.

(** [Cas::open]: the canonical path of the store's directory. *)
Definition open (start segs : list string) : Op CasError FsPath := map_err (λ e, CasError.Io "mkdir" (io_kind e)) (create_all start segs).

Section with_externals.
Context `{!Blake3, !Hex, !Scan, !DirOrder}.

(** [root] is the canonical path of the store's directory; the size the
    kernel reports for a node that is neither a file nor a link is its own. *)
Context (root : FsPath) (other_len : Node → Z).

Definition io_err {A} (ctx : string) (m : Op Errno A) : Op CasError A := map_err (λ e, CasError.Io ctx (io_kind e)) m.

(** [<root>/ab/<full 64-hex>] *)
Definition fan (h : hash32) : string := String.substring 0 2 (hex_encode (ba_list h)).
Definition path_for (h : hash32) : FsPath := root ++ [fan h; hex_encode (ba_list h)].

(** [stat], links followed, and the two tests of a path built on it. *)
Definition stat (p : FsPath) : Op Errno Node :=
  syscall;;
  r ← gets (λ h, namei LINK_MAX (h_world h) [] p);
  q ← of_result r;
  n ← get_node q;
  match n with Some n => mret n | None => if bool_decide (q = []) then mret Dir else fail ENOENT end.
Definition is_file {E} (p : FsPath) : Op E bool := r ← catch (stat p); mret (match r with Ok (Reg _ _) => true | _ => false end).
Definition is_dir {E} (p : FsPath) : Op E bool := r ← catch (stat p); mret (match r with Ok Dir => true | _ => false end).

(** [remove_file] at a path whose directories are walked. *)
Definition remove_file (p : FsPath) : Op Errno unit := q ← canon_parent p; sys_unlink q.

Definition has (h : hash32) : Op CasError bool := is_file (path_for h).

(** [CAS_STAGE_SEQ.fetch_add(1)] *)
Definition next_stage {E} : Op E N := λ h, (set_seq (N.succ (h_seq h)) h, Done (h_seq h)).
Definition tmp_name (pid seq : N) : string := ".chunk" +:+ TMP_SUFFIX +:+ "." +:+ pretty pid +:+ "." +:+ pretty seq.

Definition stage (tmp dest : FsPath) (bytes : list byte) : Op CasError unit :=
  f ← io_err "create" (sys_create tmp);
  io_err "write" (sys_write f bytes);;
  io_err "fsync" (sys_fsync f);;
  io_err "rename" (sys_rename tmp dest);;
  sync_dir.

Definition put_verified (h : hash32) (bytes : list byte) : Op CasError unit :=
  if bool_decide (blake3 bytes ≠ h) then fail CasError.HashMismatch else
  there ← is_file (E := CasError) (path_for h);
  if (there : bool) then mret () else
  parent ← io_err "mkdir" (create_dirs root [fan h]);
  seq ← next_stage;
  pid ← gets h_pid;
  let tmp := parent ++ [tmp_name pid seq] in
  on_err (stage tmp (parent ++ [hex_encode (ba_list h)]) bytes) (ignore (sys_unlink tmp)).

(** A chunk that is not there, told apart from a failing read. *)
Definition missing_or (ctx : string) (h : hash32) (e : Errno) : CasError :=
  if bool_decide (io_kind e = NotFound) then CasError.Missing (hex_encode (ba_list h)) else CasError.Io ctx (io_kind e).

Definition read (h : hash32) : Op CasError (list byte) :=
  bytes ← map_err (missing_or "read" h) (sys_read_file (path_for h));
  if bool_decide (blake3 bytes ≠ h) then
    ignore (remove_file (path_for h));; fail CasError.HashMismatch
  else mret bytes.

Definition len_of (n : Node) : Z :=
  match n with
  | Reg data _ => Z.of_nat (length data)
  | Lnk t _ => Z.of_nat (length t)
  | n => other_len n
  end.

(** The file that is open, and its length. *)
Definition open_reader (h : hash32) : Op CasError (Node * Z) :=
  n ← map_err (missing_or "open" h) (stat (path_for h));
  io_err "stat" syscall;;
  mret (n, len_of n).

(** ** The store as a whole *)

(** [read_dir] at a path that may lead through links. *)
Definition list_dir (dir : FsPath) : Op Errno (list (string * Node)) :=
  syscall;;
  r ← gets (λ h, namei LINK_MAX (h_world h) [] dir);
  q ← of_result r;
  n ← get_node q;
  if bool_decide (n = Some Dir ∨ q = []) then gets (λ h, dir_order (children (h_world h) q)) else fail ENOTDIR.

(** The loop of the sweep over a directory: subdirectories, links to one
    included, are pushed; a staged name is removed. *)
Fixpoint sweep_entries (dir : FsPath) (l : list (string * Node)) (stack : list FsPath) (removed : Z) : Op CasError (list FsPath * Z) :=
  match l with
  | [] => mret (stack, removed)
  | (name, _) :: l =>
      let path := dir ++ [name] in
      io_err "readdir" syscall;;
      d ← is_dir path;
      if (d : bool) then sweep_entries dir l (path :: stack) removed
      else if is_tmp name then
        r ← catch (remove_file path);
        sweep_entries dir l stack (match r with Ok _ => removed + 1 | Err _ => removed end)
      else sweep_entries dir l stack removed
  end.

(** [while let Some(dir) = stack.pop()]; [fuel] bounds the directories. *)
Fixpoint sweep_dirs (fuel : nat) (stack : list FsPath) (removed : Z) : Op CasError Z :=
  match stack with
  | [] => mret removed
  | dir :: stack =>
      match fuel with
      | O => fail (CasError.Io "readdir" OtherIo)
      | S fuel =>
          l ← io_err "readdir" (list_dir dir);
          r ← sweep_entries dir l stack removed;
          sweep_dirs fuel r.1 r.2
      end
  end.
Definition sweep_orphan_temps (fuel : nat) : Op CasError Z := sweep_dirs fuel [root] 0.

(** [stats]: a directory or an entry that cannot be read is passed over. *)
Fixpoint stats_entries (dir : FsPath) (l : list (string * Node)) (stack : list FsPath) (acc : Z * Z) : Op CasError (list FsPath * (Z * Z)) :=
  match l with
  | [] => mret (stack, acc)
  | (name, n) :: l =>
      let path := dir ++ [name] in
      e ← catch syscall;
      match e with
      | Err _ => stats_entries dir l stack acc
      | Ok _ =>
          d ← is_dir path;
          if (d : bool) then stats_entries dir l (path :: stack) acc
          else
            m ← catch syscall;
            stats_entries dir l stack (match m with Ok _ => (u64_add acc.1 1, u64_add acc.2 (len_of n)) | Err _ => acc end)
      end
  end.
Fixpoint stats_dirs (fuel : nat) (stack : list FsPath) (acc : Z * Z) : Op CasError (Z * Z) :=
  match stack with
  | [] => mret acc
  | dir :: stack =>
      match fuel with
      | O => mret acc
      | S fuel =>
          l ← catch (list_dir dir);
          match l with
          | Err _ => stats_dirs fuel stack acc
          | Ok l => r ← stats_entries dir l stack acc; stats_dirs fuel r.1 r.2
          end
      end
  end.
Definition stats (fuel : nat) : Op CasError (Z * Z) := stats_dirs fuel [root] (0, 0).
End with_externals.
End CasDisk.
