(* ===== verification/CasDiskProofs.v ===== *)
(** * The chunk store on disk keeps what it has

    A small logic of runs whose system calls may fail or be killed, the
    invariant of the store's files under every operation and every loss of
    power, and the sweep and
    the self-healing read exactly. *)

From Stdlib Require Import Ascii.
From stdpp Require Import pretty.
From S2P Require Import Prelude Vv Metadata Conflict State Suppress Chunk Fs Apply ApplyProofs Ingest Scanner ScannerProofs CasDisk.
Import CasDisk.

#[local] Open Scope Z_scope.

(** ** Runs under failures and kills *)

(** No write is torn without an error. *)
Definition untorn (h : Host) : Prop := Forall (λ f, ∀ b, f ≠ Torn b) (h_faults h).

(** From the tree [w], whatever calls fail and wherever the process is
    killed, the run ends with a tree and an outcome that satisfy [Q]. *)
Definition hoare {E A : Type} (w : World) (m : Op E A) (Q : World → outcome E A → Prop) : Prop :=
  ∀ h, untorn h → h_world h = w → untorn (m h).1 ∧ Q (h_world (m h).1) (m h).2.

Lemma hoare_conseq {E A : Type} (w : World) (m : Op E A) (Q Q' : World → outcome E A → Prop) :
  hoare w m Q' → (∀ w' r, Q' w' r → Q w' r) → hoare w m Q.
Proof. intros Hm HQ h Hu Hw. destruct (Hm h Hu Hw). auto. Qed.

Lemma hoare_ret {E A : Type} (w : World) (a : A) (Q : World → outcome E A → Prop) : Q w (Done a) → hoare w (mret a) Q.
Proof. intros HQ h Hu <-. done. Qed.
Lemma hoare_fail {E A : Type} (w : World) (e : E) (Q : World → outcome E A → Prop) : Q w (Fail e) → hoare w (fail e) Q.
Proof. intros HQ h Hu <-. done. Qed.
Lemma hoare_gets {E A : Type} (w : World) (f : Host → A) (Q : World → outcome E A → Prop) : (∀ h, h_world h = w → Q w (Done (f h))) → hoare w (gets f) Q.
Proof. intros HQ h Hu Hw. split; [done|]. cbn. rewrite Hw. by apply HQ. Qed.

Lemma hoare_bind {E A B : Type} (w : World) (m : Op E A) (k : A → Op E B) (Q : World → outcome E B → Prop) :
  hoare w m (λ w' r, match r with Done a => hoare w' (k a) Q | Fail e => Q w' (Fail e) | Crashed => Q w' Crashed end) →
  hoare w (m ≫= k) Q.
Proof.
  intros Hm h Hu Hw. destruct (Hm h Hu Hw) as [Hu' HQ]. unfold mbind, op_bind. destruct (m h) as [h' [a|e|]]; simpl in *; [|done..].
  by apply HQ.
Qed.

Lemma hoare_map_err {E F A : Type} (w : World) (f : E → F) (m : Op E A) (Q : World → outcome F A → Prop) :
  hoare w m (λ w' r, match r with Done a => Q w' (Done a) | Fail e => Q w' (Fail (f e)) | Crashed => Q w' Crashed end) → hoare w (map_err f m) Q.
Proof. intros Hm h Hu Hw. destruct (Hm h Hu Hw). unfold map_err. by destruct (m h) as [h' [a|e|]]. Qed.

Lemma hoare_catch {E F A : Type} (w : World) (m : Op E A) (Q : World → outcome F (result E A) → Prop) :
  hoare w m (λ w' r, match r with Done a => Q w' (Done (Ok a)) | Fail e => Q w' (Done (Err e)) | Crashed => Q w' Crashed end) → hoare w (catch m) Q.
Proof. intros Hm h Hu Hw. destruct (Hm h Hu Hw). unfold catch. by destruct (m h) as [h' [a|e|]]. Qed.

Lemma hoare_ignore {E F A : Type} (w : World) (m : Op E A) (Q : World → outcome F unit → Prop) :
  hoare w m (λ w' r, match r with Crashed => Q w' Crashed | _ => Q w' (Done ()) end) → hoare w (ignore m) Q.
Proof. intros Hm h Hu Hw. destruct (Hm h Hu Hw). unfold ignore. by destruct (m h) as [h' [a|e|]]. Qed.

Lemma hoare_on_err {E A : Type} (w : World) (m : Op E A) (c : Op E unit) (Q : World → outcome E A → Prop) :
  hoare w m (λ w' r, match r with
    | Fail e => hoare w' c (λ w'' r', match r' with Crashed => Q w'' Crashed | _ => Q w'' (Fail e) end)
    | r => Q w' r end) →
  hoare w (on_err m c) Q.
Proof.
  intros Hm h Hu Hw. destruct (Hm h Hu Hw) as [Hu' HQ]. unfold on_err. destruct (m h) as [h' [a|e|]]; simpl in *; [done| |done].
  destruct (HQ h' Hu' eq_refl) as [Hu'' HQ']. by destruct (c h') as [h'' [a|e'|]].
Qed.

Lemma hoare_syscall (w : World) (Q : World → outcome Errno unit → Prop) : (∀ r, Q w r) → hoare w syscall Q.
Proof.
  intros HQ h Hu Hw. unfold syscall, untorn in *. destruct (h_faults h) as [|[|e|b|] fs] eqn:Hf; cbn; rewrite ?Hf, Hw;
    (split; [|apply HQ]); [done|by apply Forall_cons in Hu as [_ Hu]..].
Qed.

Lemma hoare_get_node (w : World) (p : FsPath) (Q : World → outcome Errno (option Node) → Prop) : Q w (Done (w !! p)) → hoare w (get_node p) Q.
Proof. intros HQ. apply hoare_gets. by intros h ->. Qed.
Lemma hoare_put_node (w : World) (p : FsPath) (n : Node) (Q : World → outcome Errno unit → Prop) : Q (<[p := n]> w) (Done ()) → hoare w (put_node p n) Q.
Proof. intros HQ h Hu <-. done. Qed.
Lemma hoare_of_result {E A : Type} (w : World) (r : result E A) (Q : World → outcome E A → Prop) :
  match r with Ok a => Q w (Done a) | Err e => Q w (Fail e) end → hoare w (of_result r) Q.
Proof. destruct r; [apply hoare_ret|apply hoare_fail]. Qed.

(** The calls of a staged write. *)
(** Nothing, a file or a directory. *)
Definition plain_node (n : option Node) : Prop := match n with None | Some Dir | Some (Reg _ _) => True | _ => False end.

Lemma hoare_create (w : World) (p : FsPath) (Q : World → outcome Errno FsPath → Prop) :
  plain_node (w !! p) → (∀ a, w !! p ≠ Some Dir → Q (<[p := Reg [] a]> w) (Done p)) → (∀ e, Q w (Fail e)) → Q w Crashed → hoare w (sys_create p) Q.
Proof.
  intros Hpl HQ HF HC. unfold sys_create. apply hoare_bind, hoare_syscall. intros [[]|e|]; [|done..].
  apply hoare_bind, hoare_get_node, hoare_bind, hoare_gets. intros h _.
  destruct (w !! p) as [[]|] eqn:Hp; try done; try (by apply hoare_fail); by apply hoare_bind, hoare_put_node, hoare_ret, HQ.
Qed.

Lemma hoare_write (w : World) (p : FsPath) (d : list byte) (a : Attr) (bytes : list byte) (Q : World → outcome Errno unit → Prop) :
  w !! p = Some (Reg d a) → Q (<[p := Reg bytes (set_synced false a)]> w) (Done ()) → (∀ e, Q w (Fail e)) → Q w Crashed → hoare w (sys_write p bytes) Q.
Proof.
  intros Hp HQ HF HC h Hu Hw. unfold sys_write, mbind, op_bind, gets.
  assert (Ht : torn_bytes h bytes = bytes).
  { unfold torn_bytes, untorn in *. destruct (h_faults h) as [|[|e|b|] fs]; try done. apply Forall_cons in Hu as [Hb _]. by destruct (Hb b). }
  rewrite Ht. refine (hoare_bind w syscall (λ _, update_node p _) Q _ h Hu Hw). apply hoare_syscall. intros [[]|e|]; [|done..].
  unfold update_node. apply hoare_bind, hoare_get_node. rewrite Hp. by apply hoare_put_node.
Qed.

Lemma hoare_fsync (w : World) (p : FsPath) (d : list byte) (a : Attr) (Q : World → outcome Errno unit → Prop) :
  w !! p = Some (Reg d a) → Q (<[p := Reg d (set_synced true a)]> w) (Done ()) → (∀ e, Q w (Fail e)) → Q w Crashed → hoare w (sys_fsync p) Q.
Proof.
  intros Hp HQ HF HC. unfold sys_fsync. apply hoare_bind, hoare_syscall. intros [[]|e|]; [|done..].
  unfold update_node. apply hoare_bind, hoare_get_node. rewrite Hp. by apply hoare_put_node.
Qed.

Lemma hoare_unlink (w : World) (p : FsPath) (Q : World → outcome Errno unit → Prop) :
  (w !! p ≠ Some Dir → Q (delete p w) (Done ())) → (∀ e, Q w (Fail e)) → Q w Crashed → hoare w (sys_unlink p) Q.
Proof.
  intros HQ HF HC. unfold sys_unlink. apply hoare_bind, hoare_syscall. intros [[]|e|]; [|done..].
  apply hoare_bind, hoare_get_node. destruct (w !! p) as [[]|] eqn:Hp; try (by apply hoare_fail); intros h Hu <-; (split; [done|]); by apply HQ.
Qed.

Lemma hoare_rename (w : World) (p q : FsPath) (n : Node) (Q : World → outcome Errno unit → Prop) :
  w !! p = Some n → n ≠ Dir → (w !! q ≠ Some Dir → Q (<[q := n]> (delete p w)) (Done ())) → (∀ e, Q w (Fail e)) → Q w Crashed →
  hoare w (sys_rename p q) Q.
Proof.
  intros Hp Hn HQ HF HC. unfold sys_rename. apply hoare_bind, hoare_syscall. intros [[]|e|]; [|done..].
  apply hoare_bind, hoare_get_node, hoare_bind, hoare_get_node. rewrite Hp.
  destruct (w !! q) as [[]|] eqn:Hq; destruct n; try done; try (by apply hoare_fail); intros h Hu <-; (split; [done|]); by apply HQ.
Qed.

Lemma hoare_sync_dir {E : Type} (w : World) (Q : World → outcome E unit → Prop) : Q w (Done ()) → Q w Crashed → hoare w sync_dir Q.
Proof.
  intros HQ HC. apply hoare_ignore, hoare_bind, hoare_syscall. intros [[]|e|]; [|done..]. apply hoare_syscall. by intros [[]|e|].
Qed.

(** A run that only looks. *)
Definition looks {E A : Type} (m : Op E A) : Prop := ∀ w, hoare w m (λ w' _, w' = w).

Lemma looks_bind {E A B} (m : Op E A) (k : A → Op E B) : looks m → (∀ a, looks (k a)) → looks (m ≫= k).
Proof. intros Hm Hk w. apply hoare_bind. eapply hoare_conseq; [apply Hm|]. intros w' [a|e|] ->; [apply Hk|done..]. Qed.
Lemma looks_syscall : looks syscall.
Proof. intros w. by apply hoare_syscall. Qed.
Lemma looks_ret {E A} (a : A) : looks (E := E) (mret a).
Proof. intros w. by apply hoare_ret. Qed.
Lemma looks_fail {E A} (e : E) : looks (A := A) (fail e).
Proof. intros w. by apply hoare_fail. Qed.
Lemma looks_gets {E A} (f : Host → A) : looks (E := E) (gets f).
Proof. intros w. by apply hoare_gets. Qed.
Lemma looks_of_result {E A} (r : result E A) : looks (of_result r).
Proof. destruct r; [apply looks_ret|apply looks_fail]. Qed.
Lemma looks_map_err {E F A} (f : E → F) (m : Op E A) : looks m → looks (map_err f m).
Proof. intros Hm w. apply hoare_map_err. eapply hoare_conseq; [apply Hm|]. by intros w' [a|e|] ->. Qed.
Lemma looks_catch {E F A} (m : Op E A) : looks m → looks (E := F) (catch m).
Proof. intros Hm w. apply hoare_catch. eapply hoare_conseq; [apply Hm|]. by intros w' [a|e|] ->. Qed.

Create HintDb looks.
#[export] Hint Resolve looks_bind looks_syscall looks_ret looks_fail looks_gets looks_of_result looks_map_err looks_catch : looks.

Lemma looks_stat p : looks (stat p).
Proof. unfold stat. repeat (apply looks_bind; [by auto with looks|intros ?]). case_match; [|case_match]; auto with looks. Qed.
Lemma looks_list_dir `{!DirOrder} p : looks (list_dir p).
Proof. unfold list_dir. repeat (apply looks_bind; [by auto with looks|intros ?]). case_match; auto with looks. Qed.
#[export] Hint Resolve looks_stat looks_list_dir : looks.
Lemma looks_is_file {E} p : looks (is_file (E := E) p).
Proof. unfold is_file. auto with looks. Qed.
Lemma looks_is_dir {E} p : looks (is_dir (E := E) p).
Proof. unfold is_dir. auto with looks. Qed.
#[export] Hint Resolve looks_is_file looks_is_dir : looks.

(** ** Hexadecimal names *)

Fixpoint string_Forall (P : ascii → Prop) (s : string) : Prop :=
  match s with EmptyString => True | String a s => P a ∧ string_Forall P s end.
Definition hex_char (a : ascii) : Prop := (48 ≤ nat_of_ascii a ≤ 57 ∨ 97 ≤ nat_of_ascii a ≤ 102)%nat.

(** What [hex::encode] documents: two lower-case digits for every byte. *)
Class HexLaws `{!Hex} : Prop := {
  hex_length l : String.length (hex_encode l) = (2 * length l)%nat;
  hex_chars l : string_Forall hex_char (hex_encode l);
  hex_inj l l' : hex_encode l = hex_encode l' → l = l';
}.

Lemma string_Forall_prefix P s t : String.prefix t s = true → string_Forall P s → string_Forall P t.
Proof.
  revert s. induction t as [|a t IH]; intros [|b s]; try done. cbn. destruct (ascii_dec a b) as [->|]; [|done].
  intros Hp [Hb Hs]. eauto.
Qed.

Lemma index_Forall P s t n m : String.index n t s = Some m → t ≠ "" → string_Forall P s → string_Forall P t.
Proof.
  revert n m. induction s as [|b s IH]; intros n m Hi Ht Hs.
  { destruct n; cbn in Hi; destruct t; done. }
  destruct n as [|n]; cbn [String.index] in Hi.
  - destruct (String.prefix t (String b s)) eqn:Hp.
    + eapply string_Forall_prefix; [exact Hp|done].
    + destruct (String.index 0 t s) eqn:Hi'; [|done]. eapply IH; [exact Hi'|done|apply Hs].
  - destruct (String.index n t s) eqn:Hi'; [|done]. eapply IH; [exact Hi'|done|apply Hs].
Qed.

Lemma string_Forall_substring P n m s : string_Forall P s → string_Forall P (String.substring n m s).
Proof.
  revert n m. induction s as [|a s IH]; intros n m; [by destruct n, m|]. intros [Ha Hs]. destruct n as [|n]; cbn; [|by apply IH].
  destruct m; [done|]. split; [done|]. by apply IH.
Qed.

Lemma hex_not_tmp s : string_Forall hex_char s → is_tmp s = false.
Proof.
  intros Hs. unfold is_tmp, to_str. destruct (utf8 _); [|done]. apply bool_decide_eq_false. intros [m Hi].
  apply (index_Forall hex_char) in Hi as [Hd _]; [|done..]. revert Hd. unfold hex_char. vm_compute. lia.
Qed.

Lemma hex_normal s : string_Forall hex_char s → s ≠ "" → normal_comp s.
Proof. intros Hs Hne. split_and!; [done|intros ->..]; destruct Hs as [Hd _]; revert Hd; unfold hex_char; vm_compute; lia. Qed.

Lemma stage_name_tmp pid seq : ¬ string_Forall hex_char (tmp_name pid seq).
Proof. intros [Hd _]. revert Hd. unfold hex_char. vm_compute. lia. Qed.

Section store.
Context `{!Blake3, !Hex, !HexLaws}.
Context (root : FsPath).

Lemma fan_chars h : string_Forall hex_char (fan h).
Proof. apply string_Forall_substring, hex_chars. Qed.
Lemma name_ne (h : hash32) : hex_encode (ba_list h) ≠ "".
Proof. intros He. pose proof (hex_length (ba_list h)) as Hl. rewrite He, ba_length in Hl. done. Qed.
Lemma fan_ne h : fan h ≠ "".
Proof.
  unfold fan. pose proof (hex_length (ba_list h)) as Hl. rewrite ba_length in Hl.
  by destruct (hex_encode (ba_list h)).
Qed.

Definition fan_path (h : hash32) : FsPath := root ++ [fan h].
Abbreviation chunk_path := (path_for root).

(** The chunk files: what lies at a chunk's path, when that is a file. *)
Definition chunk_data (w : World) (h : hash32) : option (list byte) :=
  match w !! chunk_path h with Some (Reg d _) => Some d | _ => None end.

(** The shape of a store: its directories are directories, nothing but flushed
    files lies where chunks do, and they hold files and directories only: no
    link, which the creation of a staged file would follow. *)
Record store_shape (w : World) : Prop := {
  sh_root : Forall normal_comp root ∧ dirs_below w [] root;
  sh_fan h : w !! fan_path h = None ∨ w !! fan_path h = Some Dir;
  sh_chunk h : w !! chunk_path h = None ∨ (w !! fan_path h = Some Dir ∧ ∃ d a, w !! chunk_path h = Some (Reg d a) ∧ at_synced a = true);
  sh_plain h c : plain_node (w !! (fan_path h ++ [c]));
}.
(** Every chunk file holds the bytes it is named after. *)
Definition verified (w : World) : Prop := ∀ h d, chunk_data w h = Some d → blake3 d = h.
Definition store_ok (w : World) : Prop := store_shape w ∧ verified w.

(** The chunks are the same, or one of them is new or written again. *)
Definition same_data (w w' : World) : Prop := ∀ h, chunk_data w' h = chunk_data w h.
Definition with_data (h : hash32) (bytes : list byte) (w w' : World) : Prop :=
  ∀ h', chunk_data w' h' = if decide (h' = h) then Some bytes else chunk_data w h'.
(** No chunk is lost. *)
Definition kept (w w' : World) : Prop := ∀ h, is_Some (chunk_data w h) → is_Some (chunk_data w' h).

Lemma same_data_refl w : same_data w w.
Proof. by intros ?. Qed.
Lemma same_data_trans w1 w2 w3 : same_data w1 w2 → same_data w2 w3 → same_data w1 w3.
Proof. intros Ha Hb h. by rewrite Hb, Ha. Qed.
Lemma same_with_data h bytes w1 w2 w3 : same_data w1 w2 → with_data h bytes w2 w3 → with_data h bytes w1 w3.
Proof. intros Ha Hb h'. rewrite Hb. by destruct (decide (h' = h)). Qed.
Hint Resolve same_data_refl : core.

Lemma same_data_ok w w' : same_data w w' → (verified w → verified w') ∧ kept w w'.
Proof. intros Hd. split; [intros Hv h d; rewrite Hd; apply Hv|intros h; by rewrite Hd]. Qed.
Lemma with_data_ok h bytes w w' : with_data h bytes w w' → blake3 bytes = h → (verified w → verified w') ∧ kept w w' ∧ is_Some (chunk_data w' h).
Proof.
  intros Hd Hh. split; [|split].
  - intros Hv h' d. rewrite Hd. destruct (decide (h' = h)) as [->|]; [by intros [= <-]|apply Hv].
  - intros h' Hp. rewrite Hd. by destruct (decide (h' = h)).
  - rewrite Hd. by rewrite decide_True by done.
Qed.

Lemma path_for_app h : chunk_path h = fan_path h ++ [hex_encode (ba_list h)].
Proof. unfold path_for, fan_path. by rewrite <-(assoc_L (++)). Qed.

Lemma chunk_path_inj h h' : chunk_path h = chunk_path h' → h = h'.
Proof. rewrite !path_for_app. intros [_ Heq]%app_inj_tail. by apply ba_eq, hex_inj. Qed.

Lemma fan_not_chunk h h' : fan_path h ≠ chunk_path h'.
Proof. rewrite path_for_app. unfold fan_path. intros Heq%(f_equal length). rewrite !length_app in Heq. simpl in Heq. lia. Qed.

Lemma store_ok_empty w : Forall normal_comp root → dirs_below w [] root → (∀ p, root `prefix_of` p → p ≠ root → w !! p = None) → store_ok w.
Proof.
  intros Hn Hd Hno. assert (Hc : ∀ h, w !! chunk_path h = None).
  { intros h. apply Hno; [by eexists|]. unfold path_for. intros Heq%(f_equal length). rewrite length_app in Heq. simpl in Heq. lia. }
  split; [|by intros h d; unfold chunk_data; rewrite Hc]. split; [done| |by left|].
  2: { intros h c. rewrite Hno; [done|unfold fan_path; rewrite <-(assoc_L (++)); by eexists|].
       unfold fan_path. intros Heq%(f_equal length). rewrite !length_app in Heq. simpl in Heq. lia. }
  intros h. left. apply Hno; [by eexists|]. unfold fan_path. intros Heq%(f_equal length). rewrite length_app in Heq. simpl in Heq. lia.
Qed.

(** Changes outside the directories and the chunks. *)
Definition elsewhere (w w' : World) : Prop :=
  ∀ p, w' !! p = w !! p ∨ ¬ string_Forall hex_char (List.last p "") ∧ w !! p ≠ Some Dir ∧
    (w' !! p = None ∨ ∃ d a, w' !! p = Some (Reg d a)).

Lemma elsewhere_refl w : elsewhere w w.
Proof. by left. Qed.
Lemma elsewhere_trans w1 w2 w3 : elsewhere w1 w2 → elsewhere w2 w3 → elsewhere w1 w3.
Proof.
  intros Ha Hb p. destruct (Ha p) as [Hp|(Ht & Hd1 & Hd2)], (Hb p) as [Hq|(Ht' & Hd1' & Hd2')];
    rewrite ?Hq, ?Hp in *; [by left|by right|by right|by right].
Qed.

Lemma elsewhere_keeps w w' : store_shape w → elsewhere w w' → store_shape w' ∧ same_data w w'.
Proof.
  intros Hs He.
  assert (Hdir : ∀ p, w !! p = Some Dir → w' !! p = Some Dir) by (intros p Hp; destruct (He p) as [->|(_ & Hno & _)]; done).
  assert (Hlast : ∀ p c, string_Forall hex_char c → w' !! (p ++ [c]) = w !! (p ++ [c])).
  { intros p c Hc. destruct (He (p ++ [c])) as [->|(Ht & _)]; [done|]. by rewrite last_last in Ht. }
  assert (Hchunk : ∀ h, w' !! chunk_path h = w !! chunk_path h) by (intros h; rewrite path_for_app; apply Hlast, hex_chars).
  assert (Hfan : ∀ h, w' !! fan_path h = w !! fan_path h) by (intros h; apply Hlast, fan_chars).
  split; [split|].
  - destruct (sh_root _ Hs) as [Hn Hb]. split; [done|]. intros k Hk. by apply Hdir, Hb.
  - intros h. rewrite Hfan. apply Hs.
  - intros h. rewrite Hfan, Hchunk. apply Hs.
  - intros h c. destruct (He (fan_path h ++ [c])) as [->|(_ & _ & [->|(d & a & ->)])]; [apply Hs|done..].
  - intros h. unfold chunk_data. by rewrite Hchunk.
Qed.

Lemma root_below_insert w p n : (length root < length p)%nat → dirs_below w [] root → dirs_below (<[p := n]> w) [] root.
Proof.
  intros Hl Hd k Hk. rewrite lookup_insert_ne; [by apply Hd|]. intros Heq%(f_equal length). cbn in Heq. rewrite length_take in Heq. lia.
Qed.

Lemma add_fan_ok w h : store_shape w → w !! fan_path h = None → store_shape (<[fan_path h := Dir]> w) ∧ same_data w (<[fan_path h := Dir]> w).
Proof.
  intros Hs Hno. assert (Hc : ∀ h', <[fan_path h := Dir]> w !! chunk_path h' = w !! chunk_path h').
  { intros h'. rewrite lookup_insert_ne by apply fan_not_chunk. done. }
  split; [split|].
  - destruct (sh_root _ Hs) as [Hn Hb]. split; [done|]. apply root_below_insert; [unfold fan_path; rewrite length_app; simpl; lia|done].
  - intros h'. destruct (decide (fan_path h' = fan_path h)) as [->|Hne]; [rewrite lookup_insert_eq; by right|].
    rewrite lookup_insert_ne by done. apply Hs.
  - intros h'. rewrite Hc. destruct (sh_chunk _ Hs h') as [?|[Hf Hd]]; [by left|right]. split; [|done].
    rewrite lookup_insert_ne; [done|]. congruence.
  - intros h' c. destruct (decide (fan_path h' ++ [c] = fan_path h)) as [->|Hne]; [by rewrite lookup_insert_eq|].
    rewrite lookup_insert_ne by done. apply Hs.
  - intros h'. unfold chunk_data. by rewrite Hc.
Qed.

Lemma add_chunk_ok w h d a :
  store_shape w → w !! fan_path h = Some Dir → at_synced a = true →
  store_shape (<[chunk_path h := Reg d a]> w) ∧ with_data h d w (<[chunk_path h := Reg d a]> w).
Proof.
  intros Hs Hf Ha.
  assert (Hfan : ∀ h', <[chunk_path h := Reg d a]> w !! fan_path h' = w !! fan_path h').
  { intros h'. rewrite lookup_insert_ne by (intros Heq; by eapply fan_not_chunk). done. }
  split; [split|].
  - destruct (sh_root _ Hs) as [Hn Hb]. split; [done|]. apply root_below_insert; [unfold path_for; rewrite length_app; simpl; lia|done].
  - intros h'. rewrite Hfan. apply Hs.
  - intros h'. rewrite Hfan. destruct (decide (h' = h)) as [->|Hne]; [rewrite lookup_insert_eq; by eauto 8|].
    rewrite lookup_insert_ne by (intros Heq; by apply Hne, chunk_path_inj). apply Hs.
  - intros h' c. destruct (decide (fan_path h' ++ [c] = chunk_path h)) as [->|Hne]; [by rewrite lookup_insert_eq|].
    rewrite lookup_insert_ne by done. apply Hs.
  - intros h'. unfold chunk_data. destruct (decide (h' = h)) as [->|Hne]; [by rewrite lookup_insert_eq|].
    rewrite lookup_insert_ne by (intros Heq; by apply Hne, chunk_path_inj). done.
Qed.

(** The staged insert of a chunk whose directory exists. *)
Lemma stage_hoare w h bytes pid seq :
  let tmp := fan_path h ++ [tmp_name pid seq] in
  let wrote := λ w', ∃ w1 a, elsewhere w w1 ∧ at_synced a = true ∧ w' = <[chunk_path h := Reg bytes a]> w1 in
  plain_node (w !! tmp) →
  hoare w (stage tmp (fan_path h ++ [hex_encode (ba_list h)]) bytes)
    (λ w' r, match r with Done _ => wrote w' | Fail e => elsewhere w w' ∧ ∃ ctx k, e = CasError.Io ctx k | Crashed => elsewhere w w' ∨ wrote w' end).
Proof.
  intros tmp wrote Hpl. rewrite <-path_for_app.
  assert (Hlast : List.last tmp "" = tmp_name pid seq) by apply last_last.
  assert (Htmp : ∀ d a, w !! tmp ≠ Some Dir → elsewhere w (<[tmp := Reg d a]> w)).
  { intros d a Hd p. destruct (decide (p = tmp)) as [->|Hp]; [|left; by rewrite lookup_insert_ne]. right.
    rewrite lookup_insert_eq, Hlast. split; [apply stage_name_tmp|]. split; [done|]. right. by eauto. }
  unfold stage. apply hoare_bind, hoare_map_err, hoare_create; [done| |split; [apply elsewhere_refl|by eauto]|left; apply elsewhere_refl].
  intros a Hd. apply hoare_bind, hoare_map_err. eapply hoare_write; [apply lookup_insert_eq| |split; [by apply Htmp|by eauto]|left; by apply Htmp].
  rewrite insert_insert_eq. apply hoare_bind, hoare_map_err.
  eapply hoare_fsync; [apply lookup_insert_eq| |split; [by apply Htmp|by eauto]|left; by apply Htmp]. rewrite insert_insert_eq.
  apply hoare_bind, hoare_map_err. eapply hoare_rename; [apply lookup_insert_eq|done| |split; [by apply Htmp|by eauto]|left; by apply Htmp].
  intros _. set (a' := set_synced true _). assert (Hwrote : wrote (<[chunk_path h := Reg bytes a']> (delete tmp (<[tmp := Reg bytes a']> w)))).
  { eexists _, a'. split; [|done]. rewrite delete_insert_eq. intros p. destruct (decide (p = tmp)) as [->|Hp]; [|left; by rewrite lookup_delete_ne].
    right. rewrite lookup_delete_eq, Hlast. split; [apply stage_name_tmp|]. split; [done|by left]. }
  apply hoare_sync_dir; [done|by right].
Qed.

(** ** What each operation does to the store *)

Lemma fan_below w h : store_shape w → w !! fan_path h = Some Dir → Forall normal_comp (fan_path h) ∧ dirs_below w [] (fan_path h).
Proof.
  intros Hs Hf. destruct (sh_root _ Hs) as [Hn Hb]. split.
  - apply Forall_app. split; [done|]. apply Forall_singleton, hex_normal; [apply fan_chars|apply fan_ne].
  - intros k Hk. unfold fan_path in *. rewrite length_app in Hk. simpl in Hk.
    destruct (decide (k ≤ length root)%nat) as [Hle|]; [rewrite take_app_le by done; apply Hb; lia|].
    by rewrite take_ge by (rewrite length_app; simpl; lia).
Qed.

(** A chunk's path leads to itself or nowhere. *)
Lemma resolve_chunk w h q : store_shape w → namei LINK_MAX w [] (chunk_path h) = Ok q → q = chunk_path h.
Proof.
  intros Hs. rewrite path_for_app. destruct (sh_fan _ Hs h) as [Hf|Hf].
  - destruct (sh_root _ Hs) as [Hn Hb]. unfold fan_path in *. rewrite <-(assoc_L (++)), namei_dirs by done. cbn [app].
    rewrite namei_cons by (apply hex_normal; [apply fan_chars|apply fan_ne]). by rewrite Hf.
  - destruct (fan_below w h Hs Hf) as [Hn Hb]. apply namei_stays; [done..|apply hex_normal; [apply hex_chars|apply name_ne]|].
    rewrite <-path_for_app. intros t a. destruct (sh_chunk _ Hs h) as [->|(_ & d & a' & -> & _)]; done.
Qed.

Lemma stat_chunk w h :
  store_shape w → hoare w (stat (chunk_path h)) (λ w' r, w' = w ∧ ∀ n, r = Done n → w !! chunk_path h = Some n).
Proof.
  intros Hs. unfold stat. apply hoare_bind, hoare_syscall. intros [[]|e|]; [|done..].
  apply hoare_bind, hoare_gets. intros ? ->. apply hoare_bind, hoare_of_result.
  destruct (namei _ _ _ _) as [q|e] eqn:Hq; [|done]. apply resolve_chunk in Hq as ->; [|done].
  apply hoare_bind, hoare_get_node. destruct (w !! chunk_path h) as [n|]; [apply hoare_ret; naive_solver|].
  case_bool_decide as Hnil; [|by apply hoare_fail]. exfalso. revert Hnil. unfold path_for. by destruct root.
Qed.

Lemma fan_created w h :
  store_shape w →
  hoare w (create_dirs root [fan h]) (λ w' r, store_shape w' ∧ same_data w w' ∧ ∀ q, r = Done q → q = fan_path h ∧ w' !! fan_path h = Some Dir).
Proof.
  intros Hs. cbn [create_dirs]. apply hoare_bind, hoare_get_node. destruct (sh_fan _ Hs h) as [Hf|Hf]; unfold fan_path in Hf; rewrite Hf.
  - apply hoare_bind, hoare_syscall. intros [[]|e|]; [|done..]. apply hoare_bind, hoare_put_node, hoare_ret.
    destruct (add_fan_ok w h Hs Hf) as [Hs' Hd]. split; [done|]. split; [done|]. intros q [= <-]. split; [done|apply lookup_insert_eq].
  - apply hoare_ret. split; [done|]. split; [done|]. intros q [= <-]. done.
Qed.

(** What an insert may leave behind, by its outcome. *)
Definition put_post (w : World) (h : hash32) (bytes : list byte) (w' : World) (r : outcome CasError unit) : Prop :=
  store_shape w' ∧
  match r with
  | Done _ => blake3 bytes = h ∧ (same_data w w' ∧ is_Some (chunk_data w h) ∨ with_data h bytes w w')
  | Fail e => same_data w w' ∧ (blake3 bytes ≠ h ∧ e = CasError.HashMismatch ∨ blake3 bytes = h ∧ ∃ ctx k, e = CasError.Io ctx k)
  | Crashed => same_data w w' ∨ blake3 bytes = h ∧ with_data h bytes w w'
  end.

Lemma wrote_shape w h bytes w1 a :
  store_shape w → w !! fan_path h = Some Dir → elsewhere w w1 → at_synced a = true →
  store_shape (<[chunk_path h := Reg bytes a]> w1) ∧ with_data h bytes w (<[chunk_path h := Reg bytes a]> w1).
Proof.
  intros Hs Hf He Ha. destruct (elsewhere_keeps w w1 Hs He) as [Hs1 Hd1].
  destruct (He (fan_path h)) as [Hf1|(_ & Hno & _)]; [|congruence]. rewrite Hf in Hf1.
  destruct (add_chunk_ok w1 h bytes a Hs1 Hf1 Ha) as [Hs2 Hd2]. split; [done|]. by eapply same_with_data.
Qed.

(** The part of the insert after the test for presence. *)
Lemma insert_hoare w h bytes :
  store_shape w → blake3 bytes = h →
  hoare w (parent ← io_err "mkdir" (create_dirs root [fan h]); seq ← next_stage; pid ← gets h_pid;
      on_err (stage (parent ++ [tmp_name pid seq]) (parent ++ [hex_encode (ba_list h)]) bytes) (ignore (sys_unlink (parent ++ [tmp_name pid seq]))))
    (put_post w h bytes).
Proof.
  intros Hs Hh. apply hoare_bind, hoare_map_err. eapply hoare_conseq; [by apply (fan_created w h)|]. intros w1 [q|e|] (Hs1 & Hd1 & Hq).
  2: split; [done|]; split; [done|]; by eauto.
  2: by split; [|left].
  destruct (Hq q eq_refl) as [-> Hf1]. apply hoare_bind. intros h1 Hu Hw1. split; [done|].
  change (h_world (next_stage (E := CasError) h1).1) with (h_world h1). rewrite Hw1. cbn [snd next_stage]. apply hoare_bind, hoare_gets. intros h2 _.
  assert (Hquiet : ∀ w3, elsewhere w1 w3 → store_shape w3 ∧ same_data w w3).
  { intros w3 He. destruct (elsewhere_keeps w1 w3 Hs1 He) as [? ?]. split; [done|]. by eapply same_data_trans. }
  assert (Hwrote : ∀ w3, (∃ w' a, elsewhere w1 w' ∧ at_synced a = true ∧ w3 = <[chunk_path h := Reg bytes a]> w') → store_shape w3 ∧ with_data h bytes w w3).
  { intros w3 (w' & a & He & Ha & ->). destruct (wrote_shape w1 h bytes w' a Hs1 Hf1 He Ha) as [? ?]. split; [done|]. by eapply same_with_data. }
  apply hoare_on_err. eapply hoare_conseq; [apply stage_hoare, Hs1|]. intros w2 [[]|e|].
  - intros [? ?]%Hwrote. split; [done|]. split; [done|]. by right.
  - intros [He He']. assert (Hfin : ∀ w3, elsewhere w2 w3 → put_post w h bytes w3 (Fail e) ∧ put_post w h bytes w3 Crashed).
    { intros w3 He3. destruct (Hquiet w3) as [? ?]; [by eapply elsewhere_trans|]. split; (split; [done|]); [|by left]. split; [done|]. by right. }
    apply hoare_ignore, hoare_unlink; [|intros; apply Hfin, elsewhere_refl|apply Hfin, elsewhere_refl]. intros Hd. apply Hfin.
    intros p. destruct (decide (p = fan_path h ++ [tmp_name (h_pid h2) (h_seq h1)])) as [->|Hp]; [|left; by rewrite lookup_delete_ne].
    right. rewrite lookup_delete_eq, last_last. split; [apply stage_name_tmp|]. split; [done|by left].
  - intros [[? ?]%Hquiet|[? ?]%Hwrote]; (split; [done|]); [by left|by right].
Qed.

Lemma put_hoare w h bytes : store_shape w → hoare w (put_verified root h bytes) (put_post w h bytes).
Proof.
  intros Hs. unfold put_verified. case_bool_decide as Hh; [apply hoare_fail; split; [done|]; split; [done|]; by left|].
  apply hoare_bind. unfold is_file. apply hoare_bind, hoare_catch.
  eapply hoare_conseq; [by apply stat_chunk|]. intros w0 r [-> Hn]. pose proof (insert_hoare w h bytes Hs Hh) as Hgo.
  destruct r as [n|e|]; [|by apply hoare_ret|by split; [|left]]. apply hoare_ret. destruct n as [|d a| | |]; try exact Hgo. apply hoare_ret.
  split; [done|]. split; [done|]. left. split; [done|]. unfold chunk_data. by rewrite (Hn (Reg d a) eq_refl).
Qed.

Lemma put_ok w h bytes w' r :
  store_ok w → put_post w h bytes w' r → store_ok w' ∧ kept w w' ∧ (r = Done () → is_Some (chunk_data w' h)).
Proof.
  intros [Hs Hv] [Hs' Hr]. destruct r as [[]|e|].
  - destruct Hr as [Hh [[Hd Hp]|Hd]].
    + destruct (same_data_ok w w' Hd) as [? ?]. split; [split; [done|by auto]|]. split; [done|]. intros _. by rewrite Hd.
    + destruct (with_data_ok h bytes w w' Hd Hh) as (? & ? & ?). split; [split; [done|by auto]|]. by split.
  - destruct Hr as [Hd _]. destruct (same_data_ok w w' Hd) as [? ?]. split; [split; [done|by auto]|]. by split.
  - destruct Hr as [Hd|[Hh Hd]].
    + destruct (same_data_ok w w' Hd) as [? ?]. split; [split; [done|by auto]|]. by split.
    + destruct (with_data_ok h bytes w w' Hd Hh) as (? & ? & ?). split; [split; [done|by auto]|]. by split.
Qed.

Lemma kept_trans w1 w2 w3 : kept w1 w2 → kept w2 w3 → kept w1 w3.
Proof. unfold kept. auto. Qed.

Lemma read_hoare w h :
  store_ok w → hoare w (read root h) (λ w' r, w' = w ∧ ∀ b, r = Done b → chunk_data w h = Some b).
Proof.
  intros [Hs Hv]. unfold read, sys_read_file. apply hoare_bind, hoare_map_err, hoare_bind, hoare_syscall. intros [[]|e|]; [|done..].
  apply hoare_bind, hoare_gets. intros ? ->. apply hoare_bind, hoare_of_result.
  destruct (namei _ _ _ _) as [q|e] eqn:Hq; [|done]. apply resolve_chunk in Hq as ->; [|done].
  apply hoare_bind, hoare_get_node. destruct (w !! chunk_path h) as [[|d a| | |]|] eqn:Hc; try (by apply hoare_fail).
  apply hoare_ret. assert (Hd : chunk_data w h = Some d) by (unfold chunk_data; by rewrite Hc).
  rewrite bool_decide_false by (intros Hne; by apply Hne, Hv). apply hoare_ret. naive_solver.
Qed.

Context `{!DirOrder}.

Lemma sweep_entries_hoare w dir l stack removed : hoare w (sweep_entries dir l stack removed) (λ w' _, elsewhere w w').
Proof.
  revert w stack removed. induction l as [|[name n] l IH]; intros w stack removed; cbn [sweep_entries]; [apply hoare_ret, elsewhere_refl|].
  apply hoare_bind, hoare_map_err, hoare_syscall. intros [[]|e|]; [|apply elsewhere_refl..].
  apply hoare_bind. eapply hoare_conseq; [apply looks_is_dir|]. intros w' [[|]|e|] ->; [apply IH| |apply elsewhere_refl..].
  destruct (is_tmp name) eqn:Ht; [|apply IH]. apply hoare_bind, hoare_catch. unfold remove_file, canon_parent.
  repeat (apply hoare_bind). apply hoare_gets. intros ? ->. apply hoare_bind, hoare_of_result.
  destruct (namei _ _ _ _) as [q|e]; [|apply IH]. apply hoare_bind, hoare_get_node.
  case_bool_decide; [|apply hoare_fail, IH]. apply hoare_ret, hoare_unlink; [|intros; apply IH|apply elsewhere_refl].
  intros Hd. eapply hoare_conseq; [apply IH|]. intros w'' r. apply elsewhere_trans. rewrite last_last in Hd |- *.
  intros p. destruct (decide (p = q ++ [name])) as [->|Hp]; [|left; by rewrite lookup_delete_ne].
  right. rewrite lookup_delete_eq, last_last. split; [intros Hx; by rewrite hex_not_tmp in Ht|]. split; [done|by left].
Qed.

Lemma sweep_hoare w fuel : hoare w (sweep_orphan_temps root fuel) (λ w' _, elsewhere w w').
Proof.
  unfold sweep_orphan_temps. generalize ([root] : list FsPath), 0. revert w. induction fuel as [|fuel IH]; intros w [|dir stack] removed; cbn [sweep_dirs].
  1, 3: apply hoare_ret, elsewhere_refl. { apply hoare_fail, elsewhere_refl. }
  apply hoare_bind, hoare_map_err. eapply hoare_conseq; [apply looks_list_dir|]. intros w' [l|e|] ->; [|apply elsewhere_refl..].
  apply hoare_bind. eapply hoare_conseq; [apply sweep_entries_hoare|]. intros w1 [r|e|] He; [|done..].
  eapply hoare_conseq; [apply IH|]. intros w2 r2. by apply elsewhere_trans.
Qed.

Context (other_len : Node → Z).

Lemma looks_stats fuel : looks (stats root other_len fuel).
Proof.
  unfold stats. generalize ([root] : list FsPath), ((0, 0) : Z * Z). induction fuel as [|fuel IH]; intros [|dir stack] acc; cbn [stats_dirs]; try (by auto with looks).
  apply looks_bind; [by auto with looks|]. intros [l|e]; [|apply IH]. apply looks_bind; [|intros [st acc']; apply IH].
  revert stack acc. induction l as [|[name n] l IHl]; intros stack acc; cbn [stats_entries]; [by auto with looks|].
  apply looks_bind; [by auto with looks|]. intros [[]|e]; [|apply IHl]. apply looks_bind; [by auto with looks|]. intros [|]; [apply IHl|].
  apply looks_bind; [by auto with looks|]. intros m. apply IHl.
Qed.

Lemma looks_open_reader h : looks (open_reader root other_len h).
Proof. unfold open_reader, io_err. apply looks_bind; [by auto with looks|]. intros n. apply looks_bind; auto with looks. Qed.

(** ** Histories *)

(** The operations of the store. *)
Inductive CasCmd : Type :=
| Put (h : hash32) (bytes : list byte)
| Read (h : hash32)
| Serve (h : hash32)
| Sweep (fuel : nat)
| Count (fuel : nat).

Definition tree_after (c : CasCmd) (s : Host) : World :=
  match c with
  | Put h bytes => h_world (put_verified root h bytes s).1
  | Read h => h_world (read root h s).1
  | Serve h => h_world (open_reader root other_len h s).1
  | Sweep fuel => h_world (sweep_orphan_temps root fuel s).1
  | Count fuel => h_world (stats root other_len fuel s).1
  end.

(** An operation by any process, started anew or not, with any calls that
    fail and killed anywhere; or a loss of power. *)
Inductive cas_step : World → World → Prop :=
| cas_step_run c s : untorn s → cas_step (h_world s) (tree_after c s)
| cas_step_power w w' : power_loss w w' → cas_step w w'.

(** A loss of power spares the directories and the chunks. *)
Lemma power_loss_ok w w' : power_loss w w' → store_ok w → store_ok w' ∧ kept w w'.
Proof.
  intros Hp [Hs Hv].
  assert (Hdir : ∀ p, w' !! p = Some Dir ↔ w !! p = Some Dir).
  { intros p. destruct (Hp p) as [->|(d & d' & a & -> & _ & ->)]; done. }
  assert (Hfan : ∀ h, w' !! fan_path h = w !! fan_path h).
  { intros h. apply (power_loss_flushed _ _ _ Hp). by destruct (sh_fan _ Hs h) as [->| ->]. }
  assert (Hchunk : ∀ h, w' !! chunk_path h = w !! chunk_path h).
  { intros h. apply (power_loss_flushed _ _ _ Hp). by destruct (sh_chunk _ Hs h) as [->|(_ & d & a & -> & ?)]. }
  assert (Hd : same_data w w') by (intros h; unfold chunk_data; by rewrite Hchunk).
  destruct (same_data_ok w w' Hd) as [Hv' Hk]. split; [split; [split|by apply Hv']|done].
  - destruct (sh_root _ Hs) as [Hn Hb]. split; [done|]. intros k Hk'. by apply Hdir, Hb.
  - intros h. rewrite Hfan. apply Hs.
  - intros h. rewrite Hfan, Hchunk. apply Hs.
  - intros h c. destruct (Hp (fan_path h ++ [c])) as [->|(d & d' & a & _ & _ & ->)]; [apply Hs|done].
Qed.

Lemma cas_step_ok w w' : cas_step w w' → store_ok w → store_ok w' ∧ kept w w'.
Proof.
  intros [c s Hu|w1 w2 Hp] Hok; [|by apply power_loss_ok]. assert (Hsame : kept (h_world s) (h_world s)) by by intros ?. destruct c as [h bytes|h|h|fuel|fuel]; cbn [tree_after].
  - destruct (put_hoare (h_world s) h bytes (proj1 Hok) s Hu eq_refl) as [_ Hp]. by destruct (put_ok _ _ _ _ _ Hok Hp) as (? & ? & _).
  - by destruct (read_hoare (h_world s) h Hok s Hu eq_refl) as (_ & -> & _).
  - by destruct (looks_open_reader h (h_world s) s Hu eq_refl) as (_ & ->).
  - destruct (sweep_hoare (h_world s) fuel s Hu eq_refl) as [_ He]. destruct Hok as [Hs Hv]. destruct (elsewhere_keeps _ _ Hs He) as [Hs' Hd].
    destruct (same_data_ok _ _ Hd) as [? ?]. split; [split; [done|by auto]|done].
  - by destruct (looks_stats fuel (h_world s) s Hu eq_refl) as (_ & ->).
Qed.

Lemma cas_steps_ok w w' : rtc cas_step w w' → store_ok w → store_ok w' ∧ kept w w'.
Proof.
  induction 1 as [w|w w1 w2 Hstep _ IH]; intros Hok; [split; [done|by intros ?]|].
  destruct (cas_step_ok _ _ Hstep Hok) as [Hok1 Hk1]. destruct (IH Hok1) as [Hok2 Hk2]. split; [done|]. by eapply kept_trans.
Qed.
End store.


(** A read never serves damage, and repairs it. When the bytes at a
    chunk's path have rotted, the read reports the mismatch and removes that
    file and nothing else; the chunk then counts as missing, so it is fetched
    and stored again. *)
Theorem cas_read_self_heals `{!Blake3, !Hex, !HexLaws} root (s : Host) h d a :
  store_shape root (h_world s) → h_faults s = [] → h_world s !! path_for root h = Some (Reg d a) → blake3 d ≠ h →
  let s' := set_world (delete (path_for root h) (h_world s)) s in
  read root h s = (s', Fail CasError.HashMismatch) ∧ has root h s' = (s', Done false) ∧
  read root h s' = (s', Fail (CasError.Missing (hex_encode (ba_list h)))).
Proof.
  cbv zeta. intros Hs Hf Hc Hh. destruct (sh_chunk _ _ Hs h) as [Hno|[Hfan _]]; [congruence|].
  destruct (fan_below root _ h Hs Hfan) as [Hn Hb]. pose proof (hex_normal _ (hex_chars (ba_list h)) (name_ne h)) as Hname.
  assert (Hgone : namei LINK_MAX (delete (path_for root h) (h_world s)) [] (path_for root h) = Err ENOENT).
  { rewrite path_for_app, namei_dirs; [|done|].
    - rewrite namei_cons by done. cbn [app]. by rewrite lookup_delete_eq.
    - intros k Hk. rewrite lookup_delete_ne; [by apply Hb|]. intros Heq%(f_equal length). cbn in Heq.
      rewrite length_app, length_take in Heq. simpl in Heq. lia. }
  assert (Hthere : namei LINK_MAX (h_world s) [] (path_for root h) = Ok (path_for root h)).
  { rewrite path_for_app in *. by eapply namei_file. }
  assert (Hparent : canon_parent (path_for root h) s = (s, Done (path_for root h))).
  { unfold canon_parent, mbind, op_bind, gets. rewrite path_for_app, removelast_last, last_last.
    rewrite <-(app_nil_r (fan_path root h)) at 1. rewrite namei_dirs by done. rewrite namei_nil. cbn. by rewrite Hfan, bool_decide_true by auto. }
  split; [|split].
  - unfold read, sys_read_file, remove_file, ignore, map_err, mbind, op_bind, gets, get_node, syscall. rewrite Hf, Hthere.
    cbn -[path_for canon_parent]. rewrite Hc. cbn -[path_for canon_parent]. rewrite bool_decide_true by done. rewrite Hparent.
    unfold sys_unlink, mbind, op_bind, get_node, gets, syscall. rewrite Hf. by rewrite Hc.
  - unfold has, is_file, stat, catch, mbind, op_bind, gets, syscall. cbn [h_faults set_world h_world]. rewrite Hf. cbn [h_world set_world]. by rewrite Hgone.
  - unfold read, sys_read_file, map_err, mbind, op_bind, gets, syscall. cbn [h_faults set_world h_world]. rewrite Hf. cbn [h_world set_world]. by rewrite Hgone.
Qed.

(** ** The map the files implement *)

Section refinement.
Context `{!Blake3, !Hex, !HexLaws} (root : FsPath).

Definition represents (w : World) (cas : Cas) : Prop := ∀ h, cas !! h = chunk_data root w h.

Lemma represents_same w w' cas : represents w cas → same_data root w w' → represents w' cas.
Proof. intros Hr Hd h. by rewrite Hd. Qed.
Lemma represents_with w w' cas h bytes : represents w cas → with_data root h bytes w w' → represents w' (<[h := bytes]> cas).
Proof.
  intros Hr Hd h'. rewrite Hd. destruct (decide (h' = h)) as [->|Hne]; [apply lookup_insert_eq|]. rewrite lookup_insert_ne by done. apply Hr.
Qed.

Lemma resolve_present w h d a : store_shape root w → w !! path_for root h = Some (Reg d a) → namei LINK_MAX w [] (path_for root h) = Ok (path_for root h).
Proof.
  intros Hs Hc. destruct (sh_chunk _ _ Hs h) as [Hno|[Hf _]]; [congruence|]. destruct (fan_below root w h Hs Hf) as [Hn Hb].
  rewrite path_for_app in *. eapply namei_file; [done..| |exact Hc|done]. apply hex_normal; [apply hex_chars|apply name_ne].
Qed.

(** With a test for presence that does not fail, what is there is not
    touched. *)
Lemma put_present s h bytes :
  store_shape root (h_world s) → is_Some (chunk_data root (h_world s) h) → blake3 bytes = h → (∀ e fs, h_faults s ≠ Fails e :: fs) →
  let '(s', r) := put_verified root h bytes s in h_world s' = h_world s ∧ (r = Done () ∨ r = Crashed).
Proof.
  intros Hs [d Hd] Hh Hf. unfold chunk_data in Hd. destruct (h_world s !! path_for root h) as [[|d' a| | |]|] eqn:Hc; try done.
  pose proof (resolve_present _ _ _ _ Hs Hc) as Hn.
  unfold put_verified. rewrite bool_decide_false by naive_solver. unfold is_file, stat, catch, mbind, op_bind, gets, syscall.
  destruct (h_faults s) as [|[|e|b|] fs] eqn:Hfs; try (by destruct (Hf e fs)); [| | |by split; [|right]].
  all: cbn [h_world set_faults]; rewrite Hn; cbn -[path_for]; rewrite Hc; cbn; by split; [|left].
Qed.
End refinement.

(** C36: The files implement the map. An insert whose test for presence does
    not fail does to the chunk files what the insert of the abstract store
    does to the map: on success the same chunk is there, on an error, of
    whichever of its system calls, the error is one the abstract store can
    report and no chunk has changed, and an insert killed midway has happened
    or not. (The store's directories hold files and directories
    only.) *)
Theorem cas_put_refines `{!Blake3, !Hex, !HexLaws} root (cas : Cas) (s : Host) h bytes :
  store_shape root (h_world s) → untorn s → (∀ e fs, h_faults s ≠ Fails e :: fs) → represents root (h_world s) cas →
  let '(s', r) := put_verified root h bytes s in
  store_shape root (h_world s') ∧
  match r with
  | Done _ => ∃ cas', Cas.put_verified cas h bytes None = (cas', Ok ()) ∧ represents root (h_world s') cas'
  | Fail e => ∃ fault, Cas.put_verified cas h bytes fault = (cas, Err e) ∧ represents root (h_world s') cas
  | Crashed => represents root (h_world s') cas ∨ represents root (h_world s') (Cas.put_verified cas h bytes None).1
  end.
Proof.
  intros Hs Hu Hf Hr. pose proof (put_hoare root (h_world s) h bytes Hs s Hu eq_refl) as [_ [Hs' Hpost]].
  pose proof (put_present root s h bytes Hs) as Hpres. destruct (put_verified root h bytes s) as [s' r]. cbn [fst snd] in *. split; [done|].
  unfold Cas.put_verified. destruct (decide (blake3 bytes = h)) as [Hh|Hh].
  2:{ rewrite bool_decide_true by done. destruct r as [u|e|]; [naive_solver| |].
      - destruct Hpost as [Hd [[_ ->]|[? _]]]; [|done]. exists None. split; [done|]. by eapply represents_same.
      - destruct Hpost as [Hd|[? _]]; [|done]. left. by eapply represents_same. }
  rewrite bool_decide_false by naive_solver. assert (Hhas : Cas.has cas h = bool_decide (is_Some (chunk_data root (h_world s) h))).
  { unfold Cas.has. by rewrite Hr. }
  destruct (decide (is_Some (chunk_data root (h_world s) h))) as [Hp|Hp].
  - rewrite Hhas, bool_decide_true by done. destruct (Hpres Hp Hh Hf) as [Hw [-> | ->]]; rewrite Hw; [by exists cas|by left].
  - rewrite Hhas, bool_decide_false by done. destruct r as [u|e|].
    + destruct Hpost as [_ [[_ ?]|Hd]]; [done|]. eexists. split; [done|]. by eapply represents_with.
    + destruct Hpost as [Hd [[? _]|(_ & ctx & k & ->)]]; [done|]. exists (Some (ctx, k)). split; [done|]. by eapply represents_same.
    + destruct Hpost as [Hd|[_ Hd]]; [left; by eapply represents_same|right; by eapply represents_with].
Qed.

(** ** The sweep exactly *)

Section sweep.
Context `{!DirOrder, !DirOrderLaws}.

(** Paths that lead to themselves. *)
Definition resolves (w : World) (d : FsPath) : Prop := Forall normal_comp d ∧ dirs_below w [] d.
Definition is_lnk (n : Node) : bool := match n with Lnk _ _ => true | _ => false end.

Lemma resolves_namei w d : resolves w d → namei LINK_MAX w [] d = Ok d.
Proof. intros [Hn Hb]. rewrite <-(app_nil_r d) at 1. by rewrite namei_dirs, namei_nil. Qed.
Lemma resolves_node w d : resolves w d → w !! d = Some Dir ∨ d = [].
Proof.
  intros [_ Hb]. destruct d as [|c d]; [by right|left]. pose proof (Hb (length (c :: d))) as Hk. rewrite take_ge in Hk by done. apply Hk. simpl. lia.
Qed.
Lemma resolves_child w d c : resolves w d → normal_comp c → w !! (d ++ [c]) = Some Dir → resolves w (d ++ [c]).
Proof.
  intros [Hn Hb] Hc Hw. split; [by apply Forall_app_2, Forall_singleton|]. intros k Hk. rewrite length_app in Hk. simpl in Hk.
  destruct (decide (k ≤ length d)%nat) as [Hle|]; [rewrite take_app_le by done; apply Hb; lia|].
  by rewrite take_ge by (rewrite length_app; simpl; lia).
Qed.
Lemma resolves_mono w w' d : (∀ p, w !! p = Some Dir → w' !! p = Some Dir) → resolves w d → resolves w' d.
Proof. intros Hd [Hn Hb]. split; [done|]. intros k Hk. by apply Hd, Hb. Qed.

Lemma is_dir_plain {E} s d c n :
  h_faults s = [] → resolves (h_world s) d → normal_comp c → h_world s !! (d ++ [c]) = Some n → is_lnk n = false →
  CasDisk.is_dir (E := E) (d ++ [c]) s = (s, Done (bool_decide (n = Dir))).
Proof.
  intros Hf [Hn Hb] Hc Hw Hl. unfold CasDisk.is_dir, stat, catch, mbind, op_bind, gets, get_node, syscall. rewrite Hf.
  rewrite (namei_file _ _ _ _ n) by (done || by intros ? ? ->). cbn. rewrite Hw. cbn. by destruct n.
Qed.

Lemma remove_plain s d c n :
  h_faults s = [] → resolves (h_world s) d → h_world s !! (d ++ [c]) = Some n → n ≠ Dir →
  remove_file (d ++ [c]) s = (set_world (delete (d ++ [c]) (h_world s)) s, Done ()).
Proof.
  intros Hf Hr Hw Hn. unfold remove_file, canon_parent, mbind, op_bind, gets. rewrite removelast_last, last_last, resolves_namei by done. cbn.
  rewrite bool_decide_true by (destruct (resolves_node _ _ Hr); auto). cbn. unfold sys_unlink, mbind, op_bind, get_node, gets, syscall. rewrite Hf, Hw. by destruct n.
Qed.

Definition cas_keep (p : FsPath) (n : Node) : bool := negb (is_tmp (List.last p "")).
Definition cas_count (p : FsPath) (n : Node) (removed : Z) : Z := if is_tmp (List.last p "") then removed + 1 else removed.

Lemma sweep_entries_visits d l stack removed s :
  h_faults s = [] → NoDup l.*1 → resolves (h_world s) d →
  (∀ c n, (c, n) ∈ l → h_world s !! (d ++ [c]) = Some n ∧ normal_comp c ∧ is_lnk n = false) →
  sweep_entries d l stack removed s =
    (set_world (prune cas_keep (leaves d l) (h_world s)) s, Done (rev (subdirs d l) ++ stack, gather cas_count (leaves d l) removed)).
Proof.
  revert stack removed s. induction l as [|[c n] l IH]; intros stack removed s Hf Hnd Hr Hin; cbn [sweep_entries].
  { by destruct s. }
  apply NoDup_cons in Hnd as [Hc Hnd]. destruct (Hin c n) as (Hn & Hnc & Hl); [left|].
  assert (Hrest : ∀ c' n', (c', n') ∈ l → h_world s !! (d ++ [c']) = Some n' ∧ normal_comp c' ∧ is_lnk n' = false) by (intros; apply Hin; by right).
  assert (Hsys : io_err "readdir" syscall s = (s, Done ())) by (unfold io_err, map_err, syscall; by rewrite Hf).
  unfold mbind, op_bind. rewrite Hsys. rewrite (is_dir_plain s d c n) by done. case_bool_decide as Hdir.
  { subst n. rewrite IH by done. unfold subdirs, leaves. cbn [omap list_omap fst snd rev]. by rewrite <- (assoc_L (++)). }
  assert (Hlv : leaves d ((c, n) :: l) = (d ++ [c], n) :: leaves d l) by (unfold leaves; destruct n; done).
  assert (Hsd : subdirs d ((c, n) :: l) = subdirs d l) by (unfold subdirs; destruct n; done).
  rewrite Hlv, Hsd. unfold prune, gather. cbn [foldl fst snd]. unfold cas_keep at 2. unfold cas_count at 2. rewrite last_last.
  destruct (is_tmp c) eqn:Ht; cbn [negb]; [|by apply IH].
  unfold catch. rewrite (remove_plain s d c n) by done. rewrite IH; [done|done|done| |].
  - eapply resolves_mono; [|exact Hr]. intros p Hp. cbn. rewrite lookup_delete_ne; [done|]. congruence.
  - intros c' n' Hin'. cbn [set_world h_world]. destruct (Hrest c' n' Hin') as (Hn' & Hrest'). split; [|done]. rewrite lookup_delete_ne; [done|].
    intros Heq. apply app_inj_tail in Heq as [_ <-]. apply Hc. apply list_elem_of_fmap. by exists (c, n').
Qed.

Context (w : World) (root : FsPath) (Htree : tree_ok w root) (Hroot : resolves w root).
(** The store holds plain names and no links. *)
Context (Hplain : ∀ p n, w !! p = Some n → under root p → Forall normal_comp p ∧ is_lnk n = false).

Lemma dir_resolves d : root `prefix_of` d → w !! d = Some Dir ∨ d = root → resolves w d.
Proof.
  intros [k ->]. induction k as [|x k IH] using rev_ind; [by rewrite app_nil_r|]. rewrite (assoc_L (++)). intros Hd.
  destruct Hd as [Hd|Hd]; [|exfalso; apply (f_equal length) in Hd; rewrite !length_app in Hd; simpl in Hd; lia].
  destruct Htree as [_ Ht]. destruct (Hplain _ _ Hd) as [Hn _].
  { split; [by apply prefix_app_r, prefix_app_r|]. intros Heq%(f_equal length). rewrite !length_app in Heq. simpl in Heq. lia. }
  apply Forall_app in Hn as [Hn [Hx _]%Forall_cons]. apply resolves_child; [|done|done]. apply IH.
  destruct (Ht _ _ _ Hd) as [Heq|Hw]; [by apply prefix_app_r|by right|by left].
Qed.

Lemma prune_dirs seen p : (∀ q n, (q, n) ∈ seen → w !! q = Some n ∧ n ≠ Dir) → w !! p = Some Dir → prune cas_keep seen w !! p = Some Dir.
Proof.
  intros Hs Hp. rewrite prune_other; [done|]. intros ([q n] & -> & Hq)%list_elem_of_fmap. destruct (Hs q n Hq) as [? ?]. cbn in Hp. congruence.
Qed.

Lemma sweep_dirs_visits fuel stack seen removed s :
  visiting w root stack seen → h_faults s = [] → h_world s = prune cas_keep seen w → (length stack + size (ahead w stack) ≤ fuel)%nat →
  ∃ all, sweep_dirs fuel stack removed s = (set_world (prune cas_keep (seen ++ all) w) s, Done (gather cas_count all removed)) ∧ visiting w root [] (seen ++ all).
Proof.
  revert stack seen removed s. induction fuel as [|fuel IH]; intros [|d stack] seen removed s Hv Hf Hw Hfuel.
  1, 3: exists []; rewrite app_nil_r; cbn [sweep_dirs gather foldl]; rewrite <- Hw; by destruct s.
  { simpl in Hfuel. lia. }
  destruct (read_dir_lists cas_keep w root (d :: stack) seen d s) as (l & Hread & Hl & Hin); [done|left|done|done|].
  pose proof (ahead_step w root Htree d stack seen l Hv Hl) as Hless. pose proof (visiting_step w root Htree d stack seen l Hv Hl) as Hv'.
  destruct (vi_dirs _ _ _ _ Hv d) as [Hpre Hdir]; [left|].
  assert (Hrd : resolves (h_world s) d).
  { rewrite Hw. eapply resolves_mono; [intros p; apply prune_dirs; intros q n Hq; by destruct (vi_sound _ _ _ _ Hv q n Hq) as [(? & ? & _) _]|].
    apply dir_resolves; [done|]. destruct Hdir as [?|[-> _]]; [by left|right]. by apply prefix_nil_inv in Hpre. }
  assert (Hlist : io_err "readdir" (list_dir d) s = (s, Done l)).
  { unfold Scanner.walk_io, map_err, Scanner.read_dir, mbind, op_bind, syscall in Hread. rewrite Hf in Hread. unfold get_node, gets in Hread.
    unfold io_err, map_err, list_dir, mbind, op_bind, gets, get_node, syscall. rewrite Hf, resolves_namei by done. cbn.
    destruct (resolves_node _ _ Hrd) as [Hnode|Hnil].
    - rewrite Hnode in *. rewrite bool_decide_true by auto. by injection Hread as ->.
    - rewrite bool_decide_true by auto. subst d. destruct (h_world s !! []) as [[]|]; cbn in Hread; try done; by injection Hread as ->. }
  cbn [sweep_dirs]. unfold mbind, op_bind. rewrite Hlist. rewrite sweep_entries_visits; [|done|apply Hl|done|].
  - destruct (IH (rev (subdirs d l) ++ stack) (seen ++ leaves d l) (gather cas_count (leaves d l) removed)
      (set_world (prune cas_keep (leaves d l) (h_world s)) s)) as (all & Htr & Hall); [done|done| |lia|].
    { cbn [h_world set_world]. by rewrite prune_app, Hw. }
    exists (leaves d l ++ all). cbn [fst snd]. rewrite Htr, gather_app, (assoc_L (++)). done.
  - intros c n Hcn. split; [by apply Hin|]. apply Hl in Hcn. destruct (Hplain _ _ Hcn) as [Hn Hlk]; [by eapply under_trans, under_child|].
    by apply Forall_app in Hn as [_ [Hn _]%Forall_cons].
Qed.

Lemma gather_count l z : gather cas_count l z = z + Z.of_nat (length (filter (λ e, cas_keep e.1 e.2 = false) l)).
Proof.
  revert z. induction l as [|[p n] l IH]; intros z; [simpl; lia|]. unfold gather in *. cbn [foldl fst snd]. rewrite IH, filter_cons. cbn [fst snd].
  unfold cas_count, cas_keep. destruct (is_tmp (List.last p "")); [rewrite decide_True by done|rewrite decide_False by done]; simpl; lia.
Qed.
End sweep.

(** A file left over from a killed insert. *)
Definition cas_orphan (root p : FsPath) (n : Node) : Prop := under root p ∧ is_tmp (List.last p "") = true ∧ n ≠ Dir.
#[export] Instance cas_orphan_dec root p n : base.Decision (cas_orphan root p n).
Proof. unfold cas_orphan. apply _. Defined.

(** The sweep at start-up removes exactly what killed inserts left. In a
    store of plain names without links it ends, within as many directories as
    there are, removes every file that carries a staging name and nothing
    else, in whatever order directories are listed, and returns how many it
    removed. *)
Theorem cas_sweep_exact `{!DirOrder, !DirOrderLaws} root (s : Host) :
  h_faults s = [] → tree_ok (h_world s) root → resolves (h_world s) root →
  (∀ p n, h_world s !! p = Some n → under root p → Forall normal_comp p ∧ is_lnk n = false) →
  ∃ w' removed, sweep_orphan_temps root (Scanner.fuel_for s) s = (set_world w' s, Done removed) ∧
    (∀ p, w' !! p = match h_world s !! p with Some n => if decide (cas_orphan root p n) then None else Some n | None => None end) ∧
    removed = Z.of_nat (size (h_world s)) - Z.of_nat (size w').
Proof.
  intros Hf Ht Hr Hplain. unfold sweep_orphan_temps.
  destruct (sweep_dirs_visits (h_world s) root Ht Hr Hplain (Scanner.fuel_for s) [root] [] 0 s) as (all & Hrun & Hv);
    [by apply visiting_start|done|done|by apply fuel_enough|].
  destruct (visiting_end (h_world s) root all Hv) as [Hnd Hin].
  assert (Hw : ∀ q n, (q, n) ∈ all → h_world s !! q = Some n) by (intros q n Hq; by apply Hin in Hq as [? _]).
  exists (prune cas_keep all (h_world s)), (gather cas_count all 0). split; [exact Hrun|]. split.
  - intros p. rewrite (prune_lookup cas_keep) by done. destruct (h_world s !! p) as [n|] eqn:Hn; [|done].
    assert (Hiff : (p, n) ∈ all ∧ cas_keep p n = false ↔ cas_orphan root p n).
    { rewrite Hin. unfold leaf_of, cas_orphan, cas_keep. rewrite negb_false_iff. naive_solver. }
    destruct (decide (cas_orphan root p n)) as [Ho|Ho]; [by rewrite decide_True by by apply Hiff|by rewrite decide_False by (by rewrite Hiff)].
  - rewrite (prune_size cas_keep all (h_world s)), gather_count by done. lia.
Qed.
