(* ===== verification/IngestProofs.v ===== *)
(** * Ingest: what becomes of a local change

    The effect of a local append on the index, and the handlers of the ingest
    task on a node where nothing else is happening. *)

From S2P Require Import Prelude Vv Decide Metadata Conflict ConflictProofs State Oplog OplogProofs StoreProps StreamProps.
From S2P Require Import Suppress Merkle Chunk Proto Fs Apply ApplyProofs ApplyLive Peer Fetch Engine Ingest.
Import VersionVector.

(** ** Appends and the index *)

Section appends.
Context `{!Blake3, !Bincode, !Hex, !BincodeLaws} (node : NodeId).

(** [n] more local changes fit every counter of the node. *)
Definition spare (n : Z) (c : Conn) : Prop :=
  n + 1 < u64_modulus ∧ ∀ p row, State.load_row c p = Ok (Some row) → get (fr_vv row) node + n < u64_modulus.

Lemma spare_room n c : 1 ≤ n → spare n c → room node c.
Proof. intros Hn [_ Hs] p row Hl. specialize (Hs p row Hl). lia. Qed.

(** The row shows the content and metadata of the change. *)
Definition shows (ch : LocalChange) (row : FileRow) : Prop :=
  fr_tombstone row = false ∧ fr_content_hash row = lc_content_hash ch ∧ Meta.hash_of (fr_meta row) = Meta.hash_of (lc_meta ch).
Definition live_at (c : Conn) (p : string) : Prop := ∃ row, State.load_row c p = Ok (Some row) ∧ fr_tombstone row = false.

(** A change that the store accepts. *)
Record change_ok (ch : LocalChange) : Prop := {
  ck_typed : change_typed ch;
  ck_type : lc_op_type ch ≠ OpType.Rename;
  ck_manifest : ∀ m, lc_manifest ch = Some m → lc_content_hash ch = Some (mf_content_hash m);
}.

(** What an append does to the index: one path, which then shows the change. *)
Lemma append_index c ch n :
  conn_wf c → change_ok ch → 1 ≤ n → spare (n + 1) c →
  let c' := (Oplog.append_local c node ch).1 in
  conn_wf c' ∧ spare n c' ∧ (∀ p, p ≠ lc_path ch → State.load_row c' p = State.load_row c p) ∧
  (if bool_decide (lc_op_type ch = OpType.Delete) then ¬ live_at c' (lc_path ch)
   else ∃ row, State.load_row c' (lc_path ch) = Ok (Some row) ∧ shows ch row).
Proof.
  intros Hc [Hty Hnr Hm] Hn Hsp. assert (Hroom : room node c) by (eapply spare_room; [|exact Hsp]; lia).
  assert (Hsp' : spare n c) by (destruct Hsp as [? Hsp]; split; [lia|]; intros p row Hl; specialize (Hsp p row Hl); lia).
  pose proof (append_local_effect c node ch) as Heff. pose proof (step_ok_append c node ch Hc Hty Hroom) as [Hc' _].
  destruct (Oplog.append_local c node ch) as [c' [[op|]|e]] eqn:Hap; simpl in *.
  - destruct (append_local_row c node ch c' op Hc Hty Hroom Hap) as (Hot & Hrow & Hpath & Htype & _ & local & Hl & Hop & _).
    destruct Heff as (_ & _ & _ & _ & Hce & _).
    assert (Hload : ∀ p, p ≠ lc_path ch → State.load_row c' p = State.load_row c p).
    { intros p Hp. rewrite Hce. rewrite (load_row_ext _ (put_row (row_of_op op) (ins_op op c))) by apply put_manifest_opt_files.
      rewrite load_put_row; [|by destruct Hot as (? & ? & ? & ?); split_and!|apply conn_wf_ins; done].
      simpl. rewrite decide_False by congruence. apply load_row_ext, ins_op_files. }
    split_and!; [done| |done|].
    + split; [apply Hsp'|]. intros p row Hlr.
      destruct (decide (p = lc_path ch)) as [->|Hne]; [|rewrite Hload in Hlr by done; by apply (proj2 Hsp' p)].
      rewrite Hrow in Hlr. injection Hlr as <-. simpl. rewrite Hop. simpl. destruct local as [l|]; simpl.
      * destruct Hsp as [_ Hsp]. specialize (Hsp _ _ Hl). assert (wf (fr_vv l)) by (by apply (load_row_typed c (lc_path ch) l); [apply Hc|]).
        rewrite get_increment, decide_True by (done || lia). lia.
      * rewrite get_increment, decide_True by (done || apply wf_empty || rewrite get_new; unfold u64_modulus; lia).
        rewrite get_new. destruct Hsp. lia.
    + case_bool_decide as Hdel.
      * intros (row & Hlr & Ht). rewrite Hrow in Hlr. injection Hlr as <-. simpl in Ht. rewrite Htype, Hdel in Ht. done.
      * exists (row_of_op op). split; [done|]. rewrite Hop. unfold shows. simpl. by rewrite bool_decide_false.
  - destruct Heff as [-> (local & Hl & Hno)]. split_and!; [done..|]. unfold Oplog.causal_noop in Hno.
    destruct (lc_op_type ch) eqn:Htype; [| |done]; destruct local as [l|]; try done; simpl.
    + injection Hno as [[Ht%negb_true_iff Hh%bool_decide_eq_true]%andb_true_iff Hmh%bool_decide_eq_true]%andb_true_iff. by exists l.
    + intros (row & Hlr & Ht). rewrite Hl in Hlr. injection Hlr as <-. congruence.
    + intros (row & Hlr & Ht). congruence.
  - exfalso. destruct (append_local_err c node ch e Hc) as [Hr|(m & Hm1 & Hm2)]; [by rewrite Hap|done|]. by apply Hm2, Hm.
Qed.
End appends.

(** ** Chunking without I/O errors *)

Section chunking.
Context `{!Blake3, !Hex, !Cdc, !CdcLaws}.

Lemma chunk_pieces_quiet pieces cas whole chunks :
  ∃ cas', chunk_pieces cas (Some <$> pieces) [] whole chunks = (cas', Ok (whole ++ concat pieces, chunks ++ (entry_of <$> pieces))).
Proof.
  revert cas whole chunks. induction pieces as [|p pieces IH]; intros cas whole chunks; simpl; [rewrite !app_nil_r; by eexists|].
  unfold Cas.put_verified. rewrite bool_decide_false by naive_solver.
  destruct (Cas.has _ _); (edestruct IH as [cas' ->]; exists cas'; by rewrite <- !(assoc_L (++))).
Qed.

Lemma total_len_entries pieces : 0 ≤ total_len (mkManifest (zeros 32) (entry_of <$> pieces)) ≤ Z.of_nat (length (concat pieces)).
Proof.
  unfold total_len. cbn [mf_chunks]. induction pieces as [|p pieces IH]; [done|]. rewrite fmap_cons. cbn [foldr concat ce_len entry_of]. rewrite length_app.
  assert (Hp : 0 ≤ as_u32 (Z.of_nat (length p)) ≤ Z.of_nat (length p)).
  { unfold as_u32. split; [by apply Z.mod_pos_bound|]. apply Z.mod_le; [lia|done]. }
  lia.
Qed.

Lemma chunk_file_quiet cas params data :
  ∃ cas' m, chunk_file_into_cas cas params (Ok data) None [] = (cas', Ok m) ∧ mf_content_hash m = blake3 data ∧
    0 ≤ total_len m ≤ Z.of_nat (length data).
Proof.
  unfold chunk_file_into_cas, stream_items. destruct (chunk_pieces_quiet (stream_cdc params data) cas [] []) as [cas' ->]. simpl.
  eexists _, _. split; [done|]. rewrite cdc_concat. split; [done|].
  pose proof (total_len_entries (stream_cdc params data)) as Ht. rewrite cdc_concat in Ht. exact Ht.
Qed.
End chunking.

(** ** The handlers on a quiet node *)

Section handlers.
Context `{!Blake3, !Bincode, !Hex, !Scan, !Cdc, !CdcLaws, !PendingIter, !BincodeLaws}.
Context (cfg : IngestCfg) (Hmax : in_u64 (ec_max_file_bytes (ic_engine cfg))).
Abbreviation policy := (ec_owner_policy (ic_engine cfg)).
Abbreviation node := (ec_node_id (ic_engine cfg)).

(** A path whose directories are plain directories. *)
Definition plain (w : World) (abs : FsPath) : Prop :=
  ∃ dir name, abs = dir ++ [name] ∧ Forall normal_comp dir ∧ dirs_below w [] dir ∧ normal_comp name.

(** What the inode's fields can hold. *)
Definition node_typed (n : Node) : Prop :=
  (∀ meta, meta_of policy n = Some meta → meta_typed meta) ∧
  match n with Dev k _ _ => k = FileKind.Fifo ∨ k = FileKind.CharDev ∨ k = FileKind.BlockDev | _ => True end.

(** The content hash and metadata a node is indexed under. *)
Definition seen_as (n : Node) : option (option hash32 * Meta) :=
  match meta_of policy n, n with
  | Some meta, Reg data _ =>
      if bool_decide (ec_max_file_bytes (ic_engine cfg) < Z.of_nat (length data)) then None else Some (Some (blake3 data), meta)
  | Some meta, Lnk target _ => Some (Some (blake3 target), meta)
  | Some meta, _ => Some (None, meta)
  | None, _ => None
  end.

Lemma stat_quiet h abs n :
  h_faults h = [] → plain (h_world h) abs → h_world h !! abs = Some n → Ingest.symlink_metadata abs h = (h, Done n).
Proof.
  intros Hf (dir & name & -> & Hn & Hd & _) Hw. unfold Ingest.symlink_metadata, mbind, op_bind, syscall. rewrite Hf.
  rewrite canon_parent_plain by done. unfold get_node, gets. by rewrite Hw.
Qed.

Lemma read_quiet h abs data a :
  h_faults h = [] → plain (h_world h) abs → h_world h !! abs = Some (Reg data a) → sys_read_file abs h = (h, Done data).
Proof.
  intros Hf (dir & name & -> & Hn & Hd & Hc) Hw. unfold sys_read_file, mbind, op_bind, syscall. rewrite Hf.
  unfold gets. erewrite namei_file by done. cbn. unfold get_node, gets. by rewrite Hw.
Qed.

Definition noticed (rel : string) (n : Node) (r : option Observed) : Prop :=
  match seen_as n with
  | None => r = None ∨ ∃ len, r = Some (Observed.TooBig len)
  | Some (hash, meta) => ∃ o v, r = Some o ∧ Ingest.observed_version o = Some v ∧ v.1.1.1 = hash ∧
      change_ok (Ingest.write_change rel v) ∧ lc_path (Ingest.write_change rel v) = rel ∧
      lc_content_hash (Ingest.write_change rel v) = hash ∧ lc_meta (Ingest.write_change rel v) = Some meta ∧
      lc_op_type (Ingest.write_change rel v) = OpType.Write
  end.

Lemma version_ok rel hash size m meta :
  meta_typed meta → in_u64 size → (∀ m', m = Some m' → hash = Some (mf_content_hash m')) →
  change_ok (Ingest.write_change rel (hash, size, m, meta)).
Proof. intros Hmeta Hs Hm. split; [|done|done]. split_and!; [apply Hmeta|done|done]. Qed.

Lemma observe_quiet rel h abs n :
  h_faults h = [] → plain (h_world h) abs → h_world h !! abs = Some n → node_typed n →
  (∀ t a, n = Lnk t a → in_u64 (Z.of_nat (length t))) →
  ∃ cas' r, Ingest.observe cfg quiet_chunking abs h = (set_cas cas' h, Done r) ∧ noticed rel n r.
Proof.
  intros Hf Hp Hw [Hmt Hk] Hlnk. unfold Ingest.observe. pose proof Hp as (dir & name & -> & Hn & Hd & _).
  rewrite (op_step _ _ h h (dir ++ [name])) by (unfold map_err; by rewrite canon_parent_plain).
  rewrite (op_step _ _ h h (meta_of policy n)) by (unfold map_err; by rewrite (capture_quiet _ _ _ n)).
  destruct (meta_of policy n) as [meta|] eqn:Hmeta.
  2:{ exists (h_cas h), None. split; [by destruct h|]. unfold noticed, seen_as. rewrite Hmeta. by left. }
  assert (Hty : meta_typed meta) by by apply Hmt.
  assert (Hkind : ∃ a, MetaIo.kind_of n = Some (m_kind meta, a) ∧ m_symlink_target meta = match n with Lnk t _ => Some t | _ => None end).
  { unfold meta_of in Hmeta. destruct (MetaIo.kind_of n) as [[k a]|]; [|done]. simpl in Hmeta. injection Hmeta as <-. by exists a. }
  destruct Hkind as (a & Hkind & Htarget). unfold noticed, seen_as. rewrite Hmeta. destruct n as [|data a'|t a'|k r a'|]; try done; simpl in Hkind.
  - injection Hkind as <- <-. rewrite (op_step _ _ h h (Reg data a')) by (unfold map_err; by rewrite (stat_quiet _ _ _ Hf Hp Hw)).
    cbv zeta. case_bool_decide as Hbig; [exists (h_cas h); eexists; split; [by destruct h|]; eauto|].
    rewrite (op_step _ _ h h (Ok data)) by (unfold catch; by rewrite (read_quiet _ _ _ _ Hf Hp Hw)).
    destruct (chunk_file_quiet (h_cas h) (ic_params cfg) data) as (cas' & m & Hch & Hmh & Htl).
    rewrite (op_step _ _ h (set_cas cas' h) m) by (unfold Ingest.chunked; cbn [cf_cut cf_puts quiet_chunking]; by rewrite Hch).
    exists cas'. eexists. split; [done|]. eexists _, _. split; [done|]. split; [done|]. rewrite Hmh. split; [done|].
    split; [|done]. apply version_ok; [done| |by intros m' [= <-]; rewrite Hmh]. unfold in_u64 in *. lia.
  - injection Hkind as <- <-. rewrite Htarget. exists (h_cas h). eexists. split; [by destruct h|]. eexists _, _. split; [done|].
    split; [done|]. split; [done|]. split; [|done]. apply version_ok; [done|by eapply Hlnk|done].
  - injection Hkind as <- <-. exists (h_cas h), (Some (Observed.Special meta)). split; [by destruct Hk as [->|[->| ->]]; destruct h|].
    eexists _, _. split; [done|]. split; [done|]. split; [done|]. split; [|done]. apply version_ok; [done| |done]. unfold in_u64, u64_modulus. lia.
Qed.

(** Nothing else is happening and nothing fails. *)
Definition calm (s : EngineState) : Prop := es_turns s = [] ∧ h_faults (es_host s) = [].

(** The disk is as it was. *)
Definition same_disk (s s' : EngineState) : Prop :=
  calm s' ∧ h_world (es_host s') = h_world (es_host s) ∧ h_root (es_host s') = h_root (es_host s).

Lemma ask_calm {E A} `{!ErrFrom StoreError E} cmd (proj : Reply → option (result StoreError A)) s :
  calm s → ∃ r, Engine.ask (ic_engine cfg) (E := E) cmd proj s = (set_store (store_step node (es_store s) cmd).1 s, r) ∧ r ≠ Crashed.
Proof.
  intros [Ht _]. unfold Engine.ask, Engine.await. rewrite Ht. simpl. destruct (store_step _ _ _) as [st r]. simpl.
  destruct (proj r) as [[a|e]|]; by eexists.
Qed.

Lemma logged_calm {A} `{!ErrFrom StoreError StoreError} cmd (proj : Reply → option (result StoreError A)) s :
  calm s → Ingest.logged (Engine.ask (ic_engine cfg) (E := StoreError) cmd proj) s = (set_store (store_step node (es_store s) cmd).1 s, Done ()).
Proof.
  intros Hs. unfold Ingest.logged, mbind, eng_bind, attempt. destruct (ask_calm (E := StoreError) cmd proj s Hs) as (r & -> & Hr).
  by destruct r.
Qed.

Lemma append_step c ch n latest :
  (store_step n (mkStoreState c latest) (AppendLocal ch)).1 =
  mkStoreState (Oplog.append_local c n ch).1 (publish latest (Oplog.append_local c n ch).2).
Proof. simpl. by destruct (Oplog.append_local c n ch). Qed.

(** The nodes a write event may find. *)
Definition readable (w : World) (abs : FsPath) (n : Node) : Prop :=
  plain w abs ∧ w !! abs = Some n ∧ node_typed n ∧ ∀ t a, n = Lnk t a → in_u64 (Z.of_nat (length t)).

Lemma handle_write_spec rel abs n s :
  calm s → readable (h_world (es_host s)) abs n →
  ∃ s', Ingest.handle_write cfg quiet_chunking rel abs s = (s', Done ()) ∧ same_disk s s' ∧
    match seen_as n with
    | None => es_store s' = es_store s ∧ h_suppress (es_host s') = h_suppress (es_host s)
    | Some (hash, meta) =>
        let '(sup, hit) := Suppressor.check_write (h_suppress (es_host s)) rel (default (zeros 32) hash) in
        h_suppress (es_host s') = sup ∧
        if hit then es_store s' = es_store s
        else ∃ ch, change_ok ch ∧ lc_path ch = rel ∧ lc_content_hash ch = hash ∧ lc_meta ch = Some meta ∧ lc_op_type ch = OpType.Write ∧
             es_conn s' = (Oplog.append_local (es_conn s) node ch).1
    end.
Proof.
  intros [Ht Hf] (Hp & Hw & Hty & Hl). destruct (observe_quiet rel (es_host s) abs n Hf Hp Hw Hty Hl) as (cas' & r & Hobs & Hr).
  unfold Ingest.handle_write, mbind at 1, eng_bind at 1, Ingest.observing, Engine.await. rewrite Ht, Hobs. cbn [set_host].
  set (s1 := set_host (set_cas cas' (es_host s)) s). assert (Hc1 : calm s1) by done. unfold noticed in Hr.
  destruct (seen_as n) as [[hash meta]|].
  2:{ exists s1. destruct Hr as [->|[len ->]]; done. }
  destruct Hr as (o & v & -> & Hv & Hhash & Hok & Hpath & Hch & Hm & Htype). rewrite Hv, Hhash.
  unfold mbind, eng_bind, Ingest.check_write. change (h_suppress (es_host s1)) with (h_suppress (es_host s)).
  destruct (Suppressor.check_write _ _ _) as [sup hit]. set (s2 := set_host (set_suppress sup (es_host s1)) s1).
  destruct hit; [by exists s2|]. unfold Ingest.append_local. rewrite logged_calm by done. eexists. split; [done|]. split; [done|]. split; [done|].
  exists (Ingest.write_change rel v). split_and!; [done..|]. unfold es_conn. destruct s as [[c lat] h co cf ae tu]. simpl. by destruct (Oplog.append_local _ _ _).
Qed.

(** C10: A local write on a quiet node ends up in the index: when the event for a
    path is handled and the file is of a kind and size that is replicated,
    either the suppressor announced exactly this content at this path, and
    then nothing is recorded and the announcement is used up, or the row of
    the path afterwards is live and shows the content hash and the metadata
    of the file; a file that is not replicated leaves the index alone. No
    other row changes, and neither does the disk. *)
Theorem local_write_indexed rel abs n s :
  calm s → readable (h_world (es_host s)) abs n → conn_wf (es_conn s) → spare node 2 (es_conn s) →
  ∃ s', Ingest.handle_write cfg quiet_chunking rel abs s = (s', Done ()) ∧ same_disk s s' ∧ conn_wf (es_conn s') ∧
    (∀ p, p ≠ rel → State.load_row (es_conn s') p = State.load_row (es_conn s) p) ∧
    match seen_as n with
    | None => es_store s' = es_store s
    | Some (hash, meta) =>
        if decide (en_kind <$> h_suppress (es_host s) !! rel = Some (SuppressKind.Write (default (zeros 32) hash)))
        then es_store s' = es_store s ∧ h_suppress (es_host s') !! rel = None
        else ∃ row, State.load_row (es_conn s') rel = Ok (Some row) ∧ fr_tombstone row = false ∧
             fr_content_hash row = hash ∧ Meta.hash_of (fr_meta row) = Meta.hash_of (Some meta)
    end.
Proof.
  intros Hs Hr Hc Hsp. destruct (handle_write_spec rel abs n s Hs Hr) as (s' & Hrun & Hd & Heff). exists s'. split; [done|]. split; [done|].
  destruct (seen_as n) as [[hash meta]|].
  2:{ destruct Heff as [Hst _]. unfold es_conn. by rewrite Hst. }
  unfold Suppressor.check_write in Heff.
  assert (Hcase : ∀ b, (if b : bool then es_store s' = es_store s else ∃ ch, change_ok ch ∧ lc_path ch = rel ∧ lc_content_hash ch = hash ∧
      lc_meta ch = Some meta ∧ lc_op_type ch = OpType.Write ∧ es_conn s' = (Oplog.append_local (es_conn s) node ch).1) →
    conn_wf (es_conn s') ∧ (∀ p, p ≠ rel → State.load_row (es_conn s') p = State.load_row (es_conn s) p) ∧
    (b = false → ∃ row, State.load_row (es_conn s') rel = Ok (Some row) ∧ fr_tombstone row = false ∧
       fr_content_hash row = hash ∧ Meta.hash_of (fr_meta row) = Meta.hash_of (Some meta))).
  { intros [|]; [intros Hst; unfold es_conn; by rewrite Hst|]. intros (ch & Hok & Hpath & Hch & Hm & Htype & ->).
    destruct (append_index node (es_conn s) ch 1 Hc Hok ltac:(lia) Hsp) as (Hc' & _ & Hfr & Hrow). rewrite Hpath in Hfr, Hrow.
    rewrite Htype in Hrow. split_and!; [done..|]. intros _. destruct Hrow as (row & Hl & Ht & Hh & Hmh). exists row. rewrite <- Hch, <- Hm. done. }
  destruct (h_suppress (es_host s) !! rel) as [[[h|] at_]|] eqn:Hsup; simpl.
  - case_bool_decide as Hh; destruct Heff as [Hs' Heff];
      [destruct (Hcase true Heff) as (Hc' & Hfr & Hrow)|destruct (Hcase false Heff) as (Hc' & Hfr & Hrow)]; (split; [done|]; split; [done|]).
    + subst h. rewrite decide_True by done. split; [done|]. rewrite Hs'. apply lookup_delete_eq.
    + rewrite decide_False by (intros [= He]; done). by apply Hrow.
  - destruct Heff as [_ Heff]. destruct (Hcase false Heff) as (Hc' & Hfr & Hrow). split; [done|]. split; [done|]. by apply Hrow.
  - destruct Heff as [_ Heff]. destruct (Hcase false Heff) as (Hc' & Hfr & Hrow). split; [done|]. split; [done|]. by apply Hrow.
Qed.

(** ** Deletes *)

Lemma namei_calm h p : ∃ r, canon_parent p h = (h, r) ∧ r ≠ Crashed.
Proof.
  unfold canon_parent, mbind, op_bind, gets, of_result. destruct (namei _ _ _ _) as [q|e]; [|by eexists].
  simpl. unfold get_node, gets. case_bool_decide; by eexists.
Qed.

Lemma stat_calm p h : h_faults h = [] → ∃ r, Ingest.symlink_metadata p h = (h, r) ∧ r ≠ Crashed.
Proof.
  intros Hf. unfold Ingest.symlink_metadata, mbind, op_bind, syscall. rewrite Hf.
  destruct (namei_calm h p) as (r & -> & Hr). destruct r as [q|e|]; [|by eexists|done]. unfold get_node, gets.
  destruct (h_world h !! q); by eexists.
Qed.

(** Something is at the path of a row, whatever it is. *)
Definition there (h : Host) (rel : string) : bool :=
  match (Ingest.symlink_metadata (h_root h ++ segments rel) h).2 with Done _ => true | _ => false end.

Lemma still_there_calm rel s : calm s → Ingest.still_there cfg rel s = (s, Done (there (es_host s) rel)).
Proof.
  intros [Ht Hf]. unfold Ingest.still_there, Engine.await, there. rewrite Ht.
  destruct (stat_calm (h_root (es_host s) ++ segments rel) (es_host s) Hf) as (r & -> & Hr).
  destruct s. by destruct r.
Qed.

Lemma delete_ok rel : change_ok (Ingest.delete_change rel).
Proof. split; [|done|done]. split_and!; [|unfold in_u64, u64_modulus; simpl; lia|done]. unfold in_u32, u32_modulus. simpl. lia. Qed.

Lemma handle_delete_spec rel s :
  calm (ig_eng s) →
  ∃ s', Ingest.handle_delete cfg rel s = (s', true) ∧ same_disk (ig_eng s) (ig_eng s') ∧
    if there (es_host (ig_eng s)) rel then s' = s
    else ig_pending s' = delete rel (ig_pending s) ∧
      let '(sup, hit) := Suppressor.check_delete (h_suppress (es_host (ig_eng s))) rel in
      h_suppress (es_host (ig_eng s')) = sup ∧
      if hit then es_store (ig_eng s') = es_store (ig_eng s)
      else es_conn (ig_eng s') = (Oplog.append_local (es_conn (ig_eng s)) node (Ingest.delete_change rel)).1.
Proof.
  intros Hs. unfold Ingest.handle_delete. rewrite still_there_calm by done. destruct (there _ _).
  { exists s. split; [by destruct s|]. by split. }
  destruct s as [pend e]. cbn [ig_eng ig_pending] in *. unfold Ingest.engine_step, Ingest.forget. cbn [ig_eng ig_pending].
  unfold mbind, eng_bind, Ingest.check_delete. destruct (Suppressor.check_delete _ _) as [sup hit].
  set (e2 := set_host (set_suppress sup (es_host e)) e). destruct hit; [by eexists|].
  unfold Ingest.append_local. rewrite logged_calm by done. eexists. split; [done|]. split; [done|]. split; [done|]. split; [done|].
  unfold es_conn. destruct e as [[c lat] h co cf ae tu]. simpl. by destruct (Oplog.append_local _ _ _).
Qed.

(** A delete observation is checked again before it becomes a tombstone: when
    something is at the path, nothing at all changes; when nothing is, the
    row of the path is afterwards not live, unless the suppressor announced
    the delete, and then nothing is recorded; no other row and no file
    changes. *)
Theorem local_delete_reverified rel s :
  calm (ig_eng s) → conn_wf (es_conn (ig_eng s)) → spare node 2 (es_conn (ig_eng s)) →
  ∃ s', Ingest.handle_delete cfg rel s = (s', true) ∧ same_disk (ig_eng s) (ig_eng s') ∧
    (there (es_host (ig_eng s)) rel = true → s' = s) ∧
    (∀ p, p ≠ rel → State.load_row (es_conn (ig_eng s')) p = State.load_row (es_conn (ig_eng s)) p) ∧
    (there (es_host (ig_eng s)) rel = false →
       ig_pending s' !! rel = None ∧
       if decide (en_kind <$> h_suppress (es_host (ig_eng s)) !! rel = Some SuppressKind.Delete)
       then es_store (ig_eng s') = es_store (ig_eng s)
       else ¬ live_at (es_conn (ig_eng s')) rel).
Proof.
  intros Hs Hc Hsp. destruct (handle_delete_spec rel s Hs) as (s' & Hrun & Hd & Heff). exists s'. split; [done|]. split; [done|].
  destruct (there _ _); [by subst s'|]. split; [done|]. destruct Heff as [Hpend Heff]. rewrite Hpend, lookup_delete_eq.
  pose proof (append_index node (es_conn (ig_eng s)) (Ingest.delete_change rel) 1 Hc (delete_ok rel) ltac:(lia) Hsp) as (_ & _ & Hfr & Hrow).
  simpl in Hfr, Hrow. unfold Suppressor.check_delete in Heff.
  destruct (h_suppress (es_host (ig_eng s)) !! rel) as [[[h|] at_]|] eqn:Hsup; simpl; destruct Heff as [_ Heff].
  2: { split; [intros p _; unfold es_conn; by rewrite Heff|]. done. }
  all: rewrite Heff; split; [done|]; intros _; split; [done|exact Hrow].
Qed.
End handlers.
