(* ===== verification/LocalProofs.v ===== *)
(** * The scan is authoritative

    Scanner and ingest together: after one pass over a quiet share and the
    handling of the events it sent, the index agrees with the disk. *)

From Stdlib Require Import Ascii.
From S2P Require Import Prelude Vv Decide Metadata Conflict ConflictProofs State Oplog OplogProofs StoreProps StreamProps.
From S2P Require Import Suppress Merkle Chunk Proto Fs Apply ApplyProofs ApplyLive Peer Fetch Engine Ingest Scanner ScannerProofs IngestProofs.

(** ** Path texts *)

Fixpoint noslash (s : string) : bool :=
  match s with EmptyString => true | String c s => bool_decide (c ≠ slash) && noslash s end.

Lemma segments_noslash c : noslash c = true → segments c = [c].
Proof.
  induction c as [|a c IH]; [done|]. cbn [noslash]. intros [Ha%bool_decide_eq_true Hc]%andb_true_iff. cbn [segments].
  rewrite bool_decide_false by done. by rewrite IH.
Qed.

Lemma segments_join c s : noslash c = true → segments (c +:+ "/" +:+ s) = c :: segments s.
Proof.
  induction c as [|a c IH]; [done|]. cbn [noslash]. intros [Ha%bool_decide_eq_true Hc]%andb_true_iff.
  change (String a c +:+ "/" +:+ s) with (String a (c +:+ "/" +:+ s)). cbn [segments]. rewrite bool_decide_false by done. by rewrite IH.
Qed.

Lemma segments_text comps : comps ≠ [] → Forall (λ c, noslash c = true) comps → segments (path_text comps) = comps.
Proof.
  intros Hne Hall. induction Hall as [|c comps Hc Hall IH]; [done|]. destruct comps as [|c' comps]; [by apply segments_noslash|].
  change (path_text (c :: c' :: comps)) with (c +:+ "/" +:+ path_text (c' :: comps)). rewrite segments_join by done. by rewrite IH.
Qed.

Section scan.
Context `{!Blake3, !Bincode, !Hex, !Scan, !ScanLaws, !Cdc, !CdcLaws, !PendingIter, !PendingIterLaws, !BincodeLaws, !DirOrder, !DirOrderLaws}.
Context (cfg : IngestCfg) (Hmax : in_u64 (ec_max_file_bytes (ic_engine cfg))).
Abbreviation node := (ec_node_id (ic_engine cfg)).
Context (w : World) (root : FsPath).

(** The share: a tree of ordinary names below a plain root, its nodes within
    the widths of the kernel's fields, its paths texts. *)
Record share_ok : Prop := {
  sh_tree : tree_ok w root;
  sh_root : Forall normal_comp root ∧ dirs_below w [] root;
  sh_names : ∀ comps n, w !! (root ++ comps) = Some n → Forall (λ c, normal_comp c ∧ noslash c = true) comps;
  sh_text : ∀ comps n, w !! (root ++ comps) = Some n → to_str (path_text comps) = Some (path_text comps);
  sh_typed : ∀ p n, w !! p = Some n → node_typed cfg n ∧ ∀ t a, n = Lnk t a → in_u64 (Z.of_nat (length t));
}.

Context (Hshare : share_ok).

Lemma dirs_to comps c n : w !! (root ++ comps ++ [c]) = Some n → dirs_below w [] (root ++ comps).
Proof.
  destruct Hshare as [[Hdir Ht] [_ Hr] _ _ _]. revert c n. induction comps as [|x comps IH] using rev_ind; intros c n Hw; [by rewrite app_nil_r|].
  intros k Hk. rewrite !(assoc_L (++)) in Hw. destruct (Ht _ _ _ Hw) as [Heq|Hd].
  - rewrite <- (assoc_L (++)). by apply prefix_app_r.
  - rewrite <- (assoc_L (++)) in Heq. apply (f_equal length) in Heq. rewrite !length_app in Heq. simpl in Heq. lia.
  - destruct (decide (k = length (root ++ comps ++ [x]))) as [->|Hne].
    + rewrite take_ge by done. change (w !! (root ++ comps ++ [x]) = Some Dir). by rewrite (assoc_L (++)).
    + rewrite (assoc_L (++)), length_app in Hk, Hne. simpl in *. rewrite (assoc_L (++)), take_app_le by lia.
      rewrite <- (assoc_L (++)) in Hd. apply (IH x Dir Hd k). lia.
Qed.

(** A walked node under its relative path. *)
Definition indexed_as (rel : string) (p : FsPath) : Prop := ∃ comps, p = root ++ comps ∧ comps ≠ [] ∧ rel = path_text comps.

Lemma walked_rel p : walked w root p → ∃ rel, Ingest.relativize root p = Some rel ∧ indexed_as rel p.
Proof.
  intros ([[comps ->] Hne] & _ & n & Hn & _). assert (Hc : comps ≠ []) by (intros ->; by rewrite app_nil_r in Hne).
  exists (path_text comps). split; [|by exists comps]. unfold Ingest.relativize.
  rewrite (proj2 (strip_prefix_app root (root ++ comps) comps) eq_refl). simpl. rewrite (sh_text Hshare _ _ Hn). simpl.
  rewrite bool_decide_false; [done|]. intros He. pose proof (segments_text comps Hc) as Hseg. rewrite He in Hseg.
  pose proof (sh_names Hshare _ _ Hn) as Hall. rewrite <- Hseg in Hall by (eapply Forall_impl; [exact Hall|naive_solver]).
  simpl in Hall. apply Forall_singleton in Hall as [[Hbad _] _]. done.
Qed.

Lemma indexed_inj rel p p' : indexed_as rel p → indexed_as rel p' → walked w root p → walked w root p' → p = p'.
Proof.
  intros (comps & -> & Hc & ->) (comps' & -> & Hc' & Heq) (_ & _ & n & Hn & _) (_ & _ & n' & Hn' & _). f_equal.
  rewrite <- (segments_text comps), <- (segments_text comps'); [by rewrite Heq|done| |done|];
    (eapply Forall_impl; [by eapply (sh_names Hshare)|naive_solver]).
Qed.

Lemma walked_readable p : walked w root p → ∃ n, readable cfg w p n.
Proof.
  intros ([[comps ->] Hne] & _ & n & Hn & _). exists n. destruct (sh_typed Hshare _ _ Hn) as [Hty Hl].
  split_and!; [|done..]. destruct comps as [|c comps _] using rev_ind; [by rewrite app_nil_r in Hne|].
  pose proof (sh_names Hshare _ _ Hn) as Hall. apply Forall_app in Hall as [Hall Hlast]. apply Forall_singleton in Hlast as [Hlast _].
  exists (root ++ comps), c. split; [by rewrite (assoc_L (++))|]. split; [apply Forall_app; split; [apply Hshare|eapply Forall_impl; [exact Hall|naive_solver]]|].
  split; [by eapply dirs_to|done].
Qed.

(** ** The handlers, one after the other *)

Record ready (k : Z) (s : EngineState) : Prop := {
  rd_calm : calm s;
  rd_world : h_world (es_host s) = w;
  rd_root : h_root (es_host s) = root;
  rd_suppress : h_suppress (es_host s) = ∅;
  rd_wf : conn_wf (es_conn s);
  rd_spare : spare node k (es_conn s);
}.

Lemma ready_less k k' s : k' ≤ k → ready k s → ready k' s.
Proof.
  intros Hk [? ? ? ? ? [? Hsp]]. split; try done. split; [lia|]. intros p row Hl. specialize (Hsp p row Hl). lia.
Qed.

(** Something is at the path of a row. *)
Definition present (rel : string) : bool :=
  let p := root ++ segments rel in
  match namei LINK_MAX w [] (removelast p) with
  | Ok q => bool_decide (q = [] ∨ w !! q = Some Dir) && bool_decide (is_Some (w !! (q ++ [List.last p ""])))
  | Err _ => false
  end.

Lemma there_present k s rel : ready k s → there (es_host s) rel = present rel.
Proof.
  intros [[_ Hf] Hw Hr _ _ _]. unfold there, present, Ingest.symlink_metadata, mbind, op_bind, syscall. rewrite Hf.
  unfold canon_parent, mbind, op_bind, gets. rewrite Hw, Hr. cbv zeta. destruct (namei _ _ _ _) as [q|e]; [|done]. cbn [of_result mret op_ret].
  unfold get_node, gets. rewrite Hw. case_bool_decide as Hd; [|done]. cbn [mret op_ret]. rewrite Hw.
  destruct (w !! (q ++ _)); done.
Qed.

Abbreviation row_of c p := (State.load_row c p).

(** One delete. *)
Lemma delete_one rel s k :
  ready (k + 1) (ig_eng s) → 1 ≤ k → ig_pending s !! rel = None →
  ∃ s', Ingest.handle_delete cfg rel s = (s', true) ∧ ig_pending s' = ig_pending s ∧ ready k (ig_eng s') ∧
    (∀ p, p ≠ rel → row_of (es_conn (ig_eng s')) p = row_of (es_conn (ig_eng s)) p) ∧
    (if present rel then row_of (es_conn (ig_eng s')) rel = row_of (es_conn (ig_eng s)) rel else ¬ live_at (es_conn (ig_eng s')) rel).
Proof.
  intros Hr Hk Hp. destruct (handle_delete_spec cfg rel s (rd_calm _ _ Hr)) as (s' & Hrun & (Hc & Hw & Hrt) & Heff).
  exists s'. split; [done|]. rewrite (there_present _ _ rel Hr) in Heff. destruct (present rel).
  { subst s'. split; [done|]. split; [by eapply ready_less; [|exact Hr]; lia|done]. }
  destruct Hr as [_ Hw0 Hr0 Hs0 Hwf Hsp]. destruct Heff as [Hpend Heff]. rewrite Hs0 in Heff. cbn in Heff. destruct Heff as [Hs1 Hconn].
  destruct (append_index node _ (Ingest.delete_change rel) k Hwf (delete_ok rel) Hk Hsp) as (Hwf' & Hsp' & Hfr & Hrow).
  rewrite <- Hconn in Hwf', Hsp', Hfr, Hrow. split; [rewrite Hpend; by apply delete_id|]. split; [|done]. split; try done; congruence.
Qed.

Lemma delete_phase t rels s k :
  ready (k + Z.of_nat (length rels)) (ig_eng s) → 1 ≤ k → NoDup rels → (∀ r, r ∈ rels → ig_pending s !! r = None) →
  ∃ s', Ingest.run cfg s ((λ r, Ingest.OnEvent (LocalEvent.Delete r) t) <$> rels) = (s', true) ∧ ig_pending s' = ig_pending s ∧
    ready k (ig_eng s') ∧
    (∀ p, p ∉ rels → row_of (es_conn (ig_eng s')) p = row_of (es_conn (ig_eng s)) p) ∧
    (∀ p, p ∈ rels → if present p then row_of (es_conn (ig_eng s')) p = row_of (es_conn (ig_eng s)) p else ¬ live_at (es_conn (ig_eng s')) p).
Proof.
  revert s. induction rels as [|r rels IH]; intros s Hr Hk Hnd Hp.
  { exists s. split; [done|]. split; [done|]. split; [by eapply ready_less; [|exact Hr]; simpl; lia|]. split; [done|]. intros p []%not_elem_of_nil. }
  apply NoDup_cons in Hnd as [Hrn Hnd]. cbn [length] in Hr.
  destruct (delete_one r s (k + Z.of_nat (length rels))) as (s1 & Hrun1 & Hp1 & Hr1 & Hfr1 & Hrow1);
    [by replace (k + Z.of_nat (length rels) + 1) with (k + Z.of_nat (S (length rels))) by lia|lia|apply Hp; left|].
  destruct (IH s1 Hr1 Hk Hnd) as (s2 & Hrun2 & Hp2 & Hr2 & Hfr2 & Hrow2); [intros r' Hr'; rewrite Hp1; apply Hp; by right|].
  exists s2. cbn [fmap list_fmap Ingest.run Ingest.ingest_step]. rewrite Hrun1. split; [done|]. split; [congruence|]. split; [done|]. split.
  - intros p [Hpr Hpl]%not_elem_of_cons. by rewrite Hfr2, Hfr1.
  - intros p [->|Hpl]%elem_of_cons.
    + destruct (present r); [by rewrite Hfr2|]. unfold live_at. by rewrite Hfr2.
    + specialize (Hrow2 p Hpl). destruct (present p); [|done]. rewrite Hrow2. apply Hfr1. by intros ->.
Qed.

(** The row of a file that is on disk. *)
Definition reflects (before after : Conn) (rel : string) (n : Node) : Prop :=
  match seen_as cfg n with
  | None => row_of after rel = row_of before rel
  | Some (hash, meta) => ∃ row, row_of after rel = Ok (Some row) ∧ fr_tombstone row = false ∧
      fr_content_hash row = hash ∧ Meta.hash_of (fr_meta row) = Meta.hash_of (Some meta)
  end.

Lemma write_one rel abs n s k :
  ready (k + 1) s → 1 ≤ k → readable cfg w abs n →
  ∃ s', Ingest.handle_write cfg quiet_chunking rel abs s = (s', Done ()) ∧ ready k s' ∧
    (∀ p, p ≠ rel → row_of (es_conn s') p = row_of (es_conn s) p) ∧ reflects (es_conn s) (es_conn s') rel n.
Proof.
  intros Hr Hk Hread. pose proof Hr as [Hc Hw Hrt Hs Hwf Hsp].
  destruct (handle_write_spec cfg Hmax rel abs n s Hc) as (s' & Hrun & (Hc' & Hw' & Hrt') & Heff); [by rewrite Hw|].
  exists s'. split; [done|]. unfold reflects. destruct (seen_as cfg n) as [[hash meta]|].
  2:{ destruct Heff as [Hst Hs']. unfold es_conn. rewrite Hst. split; [|done]. apply (ready_less (k + 1)); [lia|].
      split; try congruence; unfold es_conn; by rewrite Hst. }
  unfold Suppressor.check_write in Heff. rewrite Hs in Heff. cbn in Heff. destruct Heff as [Hs' (ch & Hok & Hpath & Hch & Hm & Htype & Hconn)].
  destruct (append_index node _ ch k Hwf Hok Hk Hsp) as (Hwf' & Hsp' & Hfr & Hrow). rewrite Htype in Hrow. simpl in Hrow.
  rewrite Hpath in Hfr, Hrow. rewrite <- Hconn in Hwf', Hsp', Hfr, Hrow. split; [split; try done; congruence|]. split; [done|].
  destruct Hrow as (row & Hl & Ht & Hh & Hmh). exists row. rewrite <- Hch, <- Hm. done.
Qed.

Lemma flush_phase l s k :
  ready (k + Z.of_nat (length l)) (ig_eng s) → 1 ≤ k → NoDup l.*1 → (∀ rel abs, (rel, abs) ∈ l → ∃ n, readable cfg w abs n) →
  ∃ s', Ingest.flush cfg l [] s = (s', true) ∧ ready k (ig_eng s') ∧
    (∀ r, ig_pending s' !! r = if decide (r ∈ l.*1) then None else ig_pending s !! r) ∧
    (∀ p, p ∉ l.*1 → row_of (es_conn (ig_eng s')) p = row_of (es_conn (ig_eng s)) p) ∧
    (∀ rel abs n, (rel, abs) ∈ l → w !! abs = Some n → reflects (es_conn (ig_eng s)) (es_conn (ig_eng s')) rel n).
Proof.
  revert s. induction l as [|[rel abs] l IH]; intros s Hr Hk Hnd Hread.
  { exists s. split; [done|]. split; [by eapply ready_less; [|exact Hr]; simpl; lia|]. split; [done|]. split; [done|]. intros ??? []%not_elem_of_nil. }
  cbn [fmap list_fmap fst] in Hnd. apply NoDup_cons in Hnd as [Hrel Hnd]. cbn [length] in Hr.
  destruct (Hread rel abs) as [n Hn]; [left|].
  destruct (write_one rel abs n (ig_eng s) (k + Z.of_nat (length l))) as (e1 & Hrun1 & Hr1 & Hfr1 & Hrf1);
    [by replace (k + Z.of_nat (length l) + 1) with (k + Z.of_nat (S (length l))) by lia|lia|done|].
  destruct (IH (mkIngestState (delete rel (ig_pending s)) e1)) as (s2 & Hrun2 & Hr2 & Hp2 & Hfr2 & Hrf2);
    [done|done|done|intros rel' abs' Hin; apply (Hread rel'); by right|].
  exists s2. cbn [Ingest.flush head tail default]. unfold Ingest.engine_step, Ingest.forget. cbn [ig_eng ig_pending]. rewrite Hrun1.
  split; [done|]. split; [done|]. cbn [ig_eng ig_pending fmap list_fmap fst] in *. split; [|split].
  - intros r. rewrite Hp2. destruct (decide (r = rel)) as [->|Hne].
    + rewrite (decide_True (P := rel ∈ rel :: l.*1)) by left. case_decide; [done|]. apply lookup_delete_eq.
    + rewrite lookup_delete_ne by done. destruct (decide (r ∈ l.*1)); [rewrite decide_True by by right|rewrite decide_False]; [done|done|].
      by intros [?|?]%elem_of_cons.
  - intros p [Hpr Hpl]%not_elem_of_cons. by rewrite Hfr2, Hfr1.
  - intros rel' abs' n' Hin Hw'. apply elem_of_cons in Hin as [[= -> ->]|Hin].
    + destruct Hn as (_ & Hwn & _). rewrite Hwn in Hw'. injection Hw' as <-. unfold reflects in *.
      destruct (seen_as cfg n) as [[hash meta]|]; by rewrite Hfr2.
    + specialize (Hrf2 rel' abs' n' Hin Hw'). unfold reflects in *. destruct (seen_as cfg n') as [[hash meta]|]; [done|].
      rewrite Hrf2. apply Hfr1. intros ->. apply Hrel. apply list_elem_of_fmap. by exists (rel, abs').
Qed.

(** ** The index *)

Lemma live_files_spec c rows :
  conn_wf c → State.live_files c = Ok rows → NoDup (lv_path <$> rows) ∧ ∀ p, p ∈ lv_path <$> rows ↔ live_at c p.
Proof.
  intros [Hf _ _ _]. unfold State.live_files. set (rs := filter _ _). intros Hrows%traverse_list_ok.
  assert (Hpaths : lv_path <$> rows = rs.*1).
  { clearbody rs. induction Hrows as [|[p r] lv rs rows Hx _ IH]; [done|]. rewrite !fmap_cons, IH. f_equal.
    apply bind_ok in Hx as (hsh & _ & [= <-]). done. }
  rewrite Hpaths. split.
  - eapply sublist_NoDup; [|apply fmap_sublist, sublist_filter]. rewrite (fmap_Permutation fst _ _ (scan_perm _)). apply NoDup_fst_map_to_list.
  - intros p. rewrite list_elem_of_fmap. unfold rs. split.
    + intros ([p' r] & -> & (Ht & Hin%elem_of_scan)%list_elem_of_filter). simpl in *. destruct (Hf _ _ Hin) as (row & Hty & Hpath & ->).
      exists row. split; [apply load_row_some; [done|]; by rewrite Hpath|]. simpl in Ht. by destruct (fr_tombstone row).
    + intros (row & Hl & Ht). apply load_row_some in Hl as (Hty & Hp & Hin); [|done]. exists (p, enc_row row). split; [done|].
      apply list_elem_of_filter. rewrite elem_of_scan. split; [|done]. simpl. by rewrite Ht.
Qed.

(** ** The events of a pass *)

Definition arm (t : Z) (out : list FsPath) (m : gmap string (FsPath * Z)) : gmap string (FsPath * Z) :=
  foldl (λ m p, match Ingest.relativize root p with Some rel => <[rel := (p, t + Ingest.quiesce cfg)]> m | None => m end) m out.

Lemma arm_phase t out s acts :
  h_root (es_host (ig_eng s)) = root →
  Ingest.run cfg s (((λ p, Ingest.OnEvent (LocalEvent.Write p) t) <$> out) ++ acts) =
  Ingest.run cfg (mkIngestState (arm t out (ig_pending s)) (ig_eng s)) acts.
Proof.
  revert s. induction out as [|p out IH]; intros s Hr; [by destruct s|]. cbn [fmap list_fmap app Ingest.run Ingest.ingest_step].
  rewrite Hr. unfold arm. cbn [foldl]. destruct (Ingest.relativize root p) as [rel|]; [by rewrite IH|]. by rewrite IH.
Qed.

Lemma arm_lookup t out m :
  (∀ p, p ∈ out → walked w root p) → NoDup out → (∀ rel, m !! rel = None) →
  ∀ rel v, arm t out m !! rel = Some v ↔ ∃ p, p ∈ out ∧ Ingest.relativize root p = Some rel ∧ v = (p, t + Ingest.quiesce cfg).
Proof.
  intros Hw Hnd Hm. induction out as [|p out IH] using rev_ind; intros rel v.
  { cbn. rewrite Hm. split; [done|]. by intros (p & []%not_elem_of_nil & _). }
  apply NoDup_app in Hnd as (Hnd & Hfresh & _). unfold arm. rewrite foldl_app. cbn [foldl].
  destruct (walked_rel p) as (rp & Hrp & Hip); [apply Hw, elem_of_app; right; left|]. rewrite Hrp.
  assert (IH' := IH (λ q Hq, Hw q (proj2 (elem_of_app _ _ _) (or_introl Hq))) Hnd rel v).
  destruct (decide (rp = rel)) as [->|Hne].
  - rewrite lookup_insert_eq. split.
    + intros [= <-]. exists p. split; [apply elem_of_app; right; left|done].
    + intros (q & Hq & Hrq & ->). apply elem_of_app in Hq as [Hq| ->%list_elem_of_singleton]; [exfalso|done].
      destruct (walked_rel q) as (rq & Hrq' & Hiq); [apply Hw, elem_of_app; by left|]. rewrite Hrq in Hrq'. injection Hrq' as <-.
      apply (Hfresh q Hq). apply list_elem_of_singleton.
      apply (indexed_inj rel); [done|done|apply Hw, elem_of_app; by left|apply Hw, elem_of_app; right; left].
  - rewrite lookup_insert_ne by done. fold (arm t out m). rewrite IH'. split.
    + intros (q & Hq & ?). exists q. split; [apply elem_of_app; by left|done].
    + intros (q & Hq & Hrq & ->). apply elem_of_app in Hq as [Hq| ->%list_elem_of_singleton]; [by exists q|]. congruence.
Qed.

Lemma run_app s s1 acts acts' :
  Ingest.run cfg s acts = (s1, true) → Ingest.run cfg s (acts ++ acts') = Ingest.run cfg s1 acts'.
Proof.
  revert s. induction acts as [|a acts IH]; intros s; cbn [Ingest.run app]; [by intros [= <-]|].
  destruct (Ingest.ingest_step cfg s a) as [s2 [|]]; [apply IH|done].
Qed.

Lemma length_omap_le {A B} (f : A → option B) (l : list A) : (length (omap f l) ≤ length l)%nat.
Proof. induction l as [|x l IH]; [done|]. cbn [omap list_omap length]. destruct (f x); cbn [length]; lia. Qed.

Lemma send_all_room l q : (length l ≤ q.2)%nat → Scanner.send_all l q = Ok (q.1 ++ l, (q.2 - length l)%nat).
Proof.
  revert q. induction l as [|e l IH]; intros [out room] Hl; simpl in *; [by rewrite app_nil_r, Nat.sub_0_r|].
  destruct room as [|room]; [lia|]. simpl. rewrite IH by (simpl; lia). simpl. by rewrite <- (assoc_L (++)).
Qed.

Lemma walking_calm k s :
  ready k s → ∃ out, Scanner.walking (ic_engine cfg) s = (s, Done out) ∧ NoDup out ∧ ∀ p, p ∈ out ↔ walked w root p.
Proof.
  intros [[Ht Hf] Hw Hr _ _ _]. destruct (walk_spec (es_host s) root Hf) as (out & Hout & Hnd & Hin); [rewrite Hw; apply Hshare|].
  exists out. unfold Scanner.walking, Engine.await. rewrite Ht, Hr, Hout. rewrite Hw in Hin. by destruct s.
Qed.

Lemma disk_rels_spec out rel :
  (∀ p, p ∈ out → walked w root p) → rel ∈ Scanner.disk_rels root out ↔ ∃ p, p ∈ out ∧ Ingest.relativize root p = Some rel.
Proof.
  intros Hw. unfold Scanner.disk_rels. rewrite list_elem_of_omap. split; intros (p & Hp & Hrel); exists p; (split; [done|]);
    destruct (walked_rel p (Hw p Hp)) as (rp & Hrp & comps & -> & Hc & ->); pose proof (Hw _ Hp) as (_ & _ & n & Hn & _);
    rewrite (proj2 (strip_prefix_app root (root ++ comps) comps) eq_refl) in *; cbn in *; rewrite (sh_text Hshare _ _ Hn) in *.
  - rewrite Hrp. done.
  - rewrite Hrp in Hrel. done.
Qed.

(** One pass: every file found, then every live row whose file was not. *)
Lemma scan_spec k s room :
  ready k s → (size w + size (t_files (es_conn s)) ≤ room)%nat →
  ∃ out dels, Scanner.scan_once (ic_engine cfg) room s =
      (s, Done ((LocalEvent.Write <$> out) ++ (LocalEvent.Delete <$> dels), mkScanStats (Z.of_nat (length out)) (Z.of_nat (length dels)))) ∧
    NoDup out ∧ (∀ p, p ∈ out ↔ walked w root p) ∧ (length out ≤ size w)%nat ∧
    NoDup dels ∧ (∀ r, r ∈ dels ↔ live_at (es_conn s) r ∧ r ∉ Scanner.disk_rels root out) ∧ (length dels ≤ size (t_files (es_conn s)))%nat.
Proof.
  intros Hr Hroom. destruct (walking_calm k s Hr) as (out & Hwalk & Hnd & Hin).
  assert (Hlen : (length out ≤ size w)%nat).
  { rewrite <- size_dom, <- (size_list_to_set (C := gset FsPath) out) by done. apply subseteq_size. intros p Hp%elem_of_list_to_set%Hin.
    destruct Hp as (_ & _ & n & Hn & _). by eapply elem_of_dom_2. }
  destruct (live_files_no_err (es_conn s) (rd_wf _ _ Hr)) as [rows Hrows].
  destruct (live_files_spec _ _ (rd_wf _ _ Hr) Hrows) as [Hndr Hinr].
  set (dels := lv_path <$> filter (λ r, lv_path r ∉ Scanner.disk_rels root out) rows).
  assert (Hgone : Scanner.gone (Scanner.disk_rels root out) rows = LocalEvent.Delete <$> dels) by (unfold Scanner.gone, dels; by rewrite <- list_fmap_compose).
  assert (Hsub : dels `sublist_of` (lv_path <$> rows)) by apply fmap_sublist, sublist_filter.
  assert (Hndd : NoDup dels) by by eapply sublist_NoDup.
  assert (Hind : ∀ r, r ∈ dels ↔ live_at (es_conn s) r ∧ r ∉ Scanner.disk_rels root out).
  { intros r. rewrite <- Hinr. unfold dels. rewrite !list_elem_of_fmap. setoid_rewrite list_elem_of_filter. naive_solver. }
  assert (Hlend : (length dels ≤ size (t_files (es_conn s)))%nat).
  { rewrite <- size_dom, <- (size_list_to_set (C := gset string) dels) by done. apply subseteq_size. intros r Hd%elem_of_list_to_set%Hind.
    destruct Hd as [(row & Hl & _) _]. apply load_row_some in Hl as (_ & _ & Hl); [by eapply elem_of_dom_2|apply Hr]. }
  exists out, dels. split; [|done]. unfold Scanner.scan_once, mbind, eng_bind. rewrite Hwalk. cbn [fst snd].
  rewrite send_all_room by (rewrite length_fmap; simpl; lia). unfold Scanner.live_files, Engine.ask, Engine.await.
  rewrite (proj1 (rd_calm _ _ Hr)). cbn [tu_fault quiet_turn store_step fst snd]. change (ss_conn (es_store s)) with (es_conn s). rewrite Hrows.
  cbn [fst snd]. rewrite (rd_root _ _ Hr), Hgone, send_all_room by (rewrite !length_fmap; simpl; lia). cbn [fst snd app mret eng_ret].
  rewrite length_fmap. by destruct s as [[] ? ? ? ? ?].
Qed.

(** The files of a pass, armed together, are ripe together. *)
Lemma ripe_armed t0 t1 out :
  NoDup out → (∀ p, p ∈ out → walked w root p) → t0 + Ingest.quiesce cfg ≤ t1 →
  let l := Ingest.ripe t1 (arm t0 out ∅) in
  (∀ rel p, (rel, p) ∈ l ↔ p ∈ out ∧ Ingest.relativize root p = Some rel) ∧ NoDup l.*1 ∧ (length l ≤ length out)%nat.
Proof.
  intros Hnd Hout Ht l. pose proof (arm_lookup t0 out ∅ Hout Hnd lookup_empty) as Hpend.
  assert (Hl : ∀ rel p, (rel, p) ∈ l ↔ p ∈ out ∧ Ingest.relativize root p = Some rel).
  { intros rel p. unfold l, Ingest.ripe. rewrite list_elem_of_fmap. setoid_rewrite list_elem_of_filter. setoid_rewrite pending_iter_perm. split.
    - intros ([rel' [p' d]] & [= -> ->] & _ & Hv%elem_of_map_to_list). apply Hpend in Hv as (q & Hq & Hrel & [= -> _]). done.
    - intros [Hp Hrel]. exists (rel, (p, t0 + Ingest.quiesce cfg)). split; [done|]. split; [done|]. apply elem_of_map_to_list, Hpend. by exists p. }
  assert (Hndl : NoDup l.*1).
  { unfold l, Ingest.ripe. rewrite <- list_fmap_compose. eapply sublist_NoDup; [|apply (fmap_sublist fst), sublist_filter].
    rewrite (fmap_Permutation fst _ _ (pending_iter_perm _)). apply NoDup_fst_map_to_list. }
  split_and!; [done|done|]. rewrite <- (length_fmap fst l).
  etrans; [|apply (length_omap_le (λ abs, rel ← strip_prefix root abs; to_str (path_text rel)))].
  apply submseteq_length, NoDup_submseteq; [done|]. intros r ([r' p] & -> & [Hp Hrel]%Hl)%list_elem_of_fmap.
  apply (disk_rels_spec out _ Hout). by exists p.
Qed.

(** C8: The rescan is authoritative: on a quiet node, one scanner pass and the
    handling of the events it sent (the files wait out their quiet window,
    the deletes are handled on arrival) leave nothing pending, and the index
    then agrees with the disk. The row of every file the walk is for shows
    that file's content hash and metadata, whatever it showed before, unless
    the file is too big to be replicated, and then it is left alone; every
    other path has no live row unless something is at it, and then its row is
    left alone. The disk is not touched. *)
Theorem rescan_is_authoritative s room t0 t1 :
  ready (Z.of_nat (size w + size (t_files (es_conn s))) + 1) s → (size w + size (t_files (es_conn s)) ≤ room)%nat →
  t0 + Ingest.quiesce cfg ≤ t1 →
  ∃ evs stats s', Scanner.scan_once (ic_engine cfg) room s = (s, Done (evs, stats)) ∧
    Ingest.run cfg (mkIngestState ∅ s) (((λ e, Ingest.OnEvent e t0) <$> evs) ++ [Ingest.OnTick t1 []]) = (s', true) ∧
    ig_pending s' = ∅ ∧ h_world (es_host (ig_eng s')) = w ∧
    (∀ comps n, walked w root (root ++ comps) → w !! (root ++ comps) = Some n →
       reflects (es_conn s) (es_conn (ig_eng s')) (path_text comps) n) ∧
    (∀ rel, (∀ comps, walked w root (root ++ comps) → rel ≠ path_text comps) →
       if present rel then row_of (es_conn (ig_eng s')) rel = row_of (es_conn s) rel else ¬ live_at (es_conn (ig_eng s')) rel).
Proof.
  intros Hr Hroom Ht. destruct (scan_spec _ s room Hr Hroom) as (out & dels & Hscan & Hnd & Hin & Hlen & Hndd & Hind & Hlend).
  eexists _, _. set (pend := arm t0 out ∅). assert (Hout : ∀ p, p ∈ out → walked w root p) by (intros p; apply Hin).
  pose proof (arm_lookup t0 out ∅ Hout Hnd lookup_empty) as Hpend. fold pend in Hpend.
  assert (Hrels : ∀ r, r ∈ Scanner.disk_rels root out ↔ is_Some (pend !! r)).
  { intros r. rewrite (disk_rels_spec out r Hout). split; [intros (p & Hp & Hrel)|intros [v (p & Hp & Hrel & _)%Hpend]; eauto].
    eexists. apply Hpend. eauto. }
  destruct (delete_phase t0 dels (mkIngestState pend s) (Z.of_nat (length out) + 1)) as (s1 & Hrun1 & Hp1 & Hr1 & Hfr1 & Hrow1).
  { eapply ready_less; [|exact Hr]. lia. }
  { lia. }
  { done. }
  { intros r [_ Hno]%Hind. rewrite Hrels in Hno. cbn. by apply eq_None_not_Some. }
  cbn [ig_pending ig_eng] in *. set (l := Ingest.ripe t1 (ig_pending s1)).
  destruct (ripe_armed t0 t1 out Hnd Hout Ht) as (Hl & Hndl & Hlenl). fold pend in Hl, Hndl, Hlenl. rewrite <- Hp1 in Hl, Hndl, Hlenl. fold l in Hl, Hndl, Hlenl.
  destruct (flush_phase l s1 1) as (s2 & Hrun2 & Hr2 & Hp2 & Hfr2 & Hrf2).
  { eapply ready_less; [|exact Hr1]. lia. }
  { lia. }
  { done. }
  { intros rel p [Hp _]%Hl. by apply walked_readable, Hout. }
  exists (Ingest.sweep cfg t1 s2). split; [exact Hscan|].
  assert (Hsame : es_conn (ig_eng (Ingest.sweep cfg t1 s2)) = es_conn (ig_eng s2)) by done. rewrite Hsame.
  split_and!.
  - rewrite fmap_app, <- !list_fmap_compose, <- (assoc_L (++)). rewrite (arm_phase t0 out (mkIngestState ∅ s)) by apply Hr.
    cbn [ig_pending ig_eng]. fold pend. rewrite (run_app _ _ _ _ Hrun1). cbn [Ingest.run Ingest.ingest_step]. unfold Ingest.flush_ripe. fold l.
    by rewrite Hrun2.
  - apply map_empty. intros r. cbn [ig_pending Ingest.sweep]. rewrite Hp2. case_decide as Hd; [done|].
    apply eq_None_not_Some. intros [v Hv]. rewrite Hp1 in Hv. apply Hpend in Hv as (p & Hp & Hrel & _). apply Hd.
    apply list_elem_of_fmap. exists (r, p). split; [done|]. by apply Hl.
  - apply Hr2.
  - intros comps n Hw Hn. destruct (walked_rel _ Hw) as (rel & Hrel & comps' & Heq & Hc & Hrt). apply app_inv_head in Heq as <-.
    specialize (Hrf2 rel (root ++ comps) n). rewrite Hl in Hrf2. specialize (Hrf2 (conj (proj2 (Hin _) Hw) Hrel) Hn).
    rewrite <- Hrt. unfold reflects in *. destruct (seen_as cfg n) as [[hash meta]|]; [done|]. rewrite Hrf2. apply Hfr1.
    intros [_ Hno]%Hind. apply Hno. apply (disk_rels_spec out _ Hout). exists (root ++ comps). split; [by apply Hin|done].
  - intros rel Hnot. assert (Hrell : rel ∉ l.*1).
    { intros ([r p] & -> & [Hp Hrel]%Hl)%list_elem_of_fmap. simpl in *. destruct (walked_rel p (Hout p Hp)) as (rel' & Hrel' & comps & -> & Hc & ->).
      rewrite Hrel in Hrel'. injection Hrel' as ->. by apply (Hnot comps); [apply Hin|]. }
    assert (Hdisk : rel ∉ Scanner.disk_rels root out).
    { rewrite (disk_rels_spec out rel Hout). intros (p & Hp & Hrel). apply Hrell, list_elem_of_fmap. exists (rel, p). split; [done|]. by apply Hl. }
    destruct (decide (rel ∈ dels)) as [Hd|Hd].
    + specialize (Hrow1 rel Hd). destruct (present rel); [by rewrite Hfr2|]. unfold live_at. by rewrite Hfr2.
    + rewrite Hfr2, Hfr1 by done. destruct (present rel); [done|]. unfold live_at. rewrite Hfr2, Hfr1 by done. intros Hlive.
      apply Hd, Hind. by split.
Qed.
End scan.
