(* ===== verification/LocalWitness.v ===== *)
(** * A share scanned

    The scanner's and the ingest task's properties on a share of a few nodes,
    and runs that show what a failing call or an early rename does. *)

From S2P Require Import Prelude Vv Decide Metadata Conflict ConflictProofs State Oplog OplogProofs StoreProps StoreWitness.
From S2P Require Import Suppress Merkle Chunk Proto Fs Apply ApplyProofs ApplyLive Peer Fetch Engine EngineWitness.
From S2P Require Import Ingest Scanner ScannerProofs IngestProofs LocalProofs.
Import Ex StateEx.

#[local] Existing Instance toy_cdc.
#[local] Existing Instance toy_cdc_laws.

#[local] Instance listed_as_is : DirOrder := id.
#[local] Instance listed_as_is_laws : DirOrderLaws.
Proof. intros l. reflexivity. Qed.
#[local] Instance pending_as_is : PendingIter := map_to_list.
#[local] Instance pending_as_is_laws : PendingIterLaws.
Proof. intros m. reflexivity. Qed.

(** ** Checkers *)

Section check.
Context (cfg : IngestCfg) (w : World) (root : FsPath).

Definition tree_entry (p : FsPath) : bool :=
  match p with
  | [] => true
  | _ => let d := removelast p in
         negb (bool_decide (root `prefix_of` d)) || bool_decide (d = root) || bool_decide (w !! d = Some Dir)
  end.

Lemma tree_checked : w !! root = Some Dir → map_Forall (λ p _, tree_entry p = true) w → tree_ok w root.
Proof.
  intros Hr Hall. split; [by left|]. intros p c n Hw Hpre. specialize (Hall _ _ Hw). unfold tree_entry in Hall.
  rewrite removelast_last in Hall. destruct (p ++ [c]) as [|x l] eqn:He; [by destruct p|].
  apply orb_true_iff in Hall as [Hall|Hall%bool_decide_eq_true]; [|by right].
  apply orb_true_iff in Hall as [Hall%negb_true_iff%bool_decide_eq_false|Hall%bool_decide_eq_true]; [done|by left].
Qed.

Definition name_ok (c : string) : bool := bool_decide (c ≠ "" ∧ c ≠ "." ∧ c ≠ "..") && noslash c.
Definition share_entry (p : FsPath) : bool :=
  match strip_prefix root p with
  | Some comps => forallb name_ok comps && bool_decide (to_str (path_text comps) = Some (path_text comps))
  | None => true
  end.

Lemma share_checked :
  w !! root = Some Dir → map_Forall (λ p _, tree_entry p = true) w → Forall normal_comp root → dirs_below w [] root →
  map_Forall (λ p _, share_entry p = true) w →
  (∀ p n, w !! p = Some n → node_typed cfg n ∧ ∀ t a, n = Lnk t a → in_u64 (Z.of_nat (length t))) → share_ok cfg w root.
Proof.
  intros Hr Ht Hn Hd Hall Hty.
  assert (Hentry : ∀ comps n, w !! (root ++ comps) = Some n →
    forallb name_ok comps = true ∧ to_str (path_text comps) = Some (path_text comps)).
  { intros comps n Hw. specialize (Hall _ _ Hw). unfold share_entry in Hall.
    rewrite (proj2 (strip_prefix_app root (root ++ comps) comps) eq_refl) in Hall.
    by apply andb_true_iff in Hall as [? ?%bool_decide_eq_true]. }
  split; [by apply tree_checked|done| |by intros comps n Hw; apply (Hentry comps n)|done].
  intros comps n Hw. destruct (Hentry comps n Hw) as [Hf _]. rewrite forallb_forall in Hf. apply Forall_forall. intros c Hc%list_elem_of_In%Hf.
  by apply andb_true_iff in Hc as [?%bool_decide_eq_true ?].
Qed.
End check.

(** ** A share with a file, a link, a staging file left over, and a row whose
    file is gone *)

Definition sc_cfg : IngestCfg := mkIngestCfg ex_cfg toy_params 30 5.
Definition sc_world : World :=
  <[["s"; "a"] := Dir]> (<[["s"; "a"; "f"] := Reg [x01; x02] ex_attr]> (<[["s"; "l"] := Lnk [x66] ex_attr]>
    (<[["s"; ".f.replicore-tmp.1.0"] := Reg [x09] ex_attr]> ex_world))).
Definition sc_host : Host := mkHost sc_world ["s"] ∅ ∅ 42 0 100 ex_attr 0 [].
Definition sc_conn : Conn := ss_conn (store_step node_b (mkStoreState empty_conn 0) (AppendLocal (write "gone" h1))).1.
Definition sc_state : EngineState := mkEngineState (mkStoreState sc_conn 1) sc_host ∅ 0 0 [].

Lemma sc_tree : tree_ok sc_world ["s"].
Proof. apply tree_checked; [reflexivity|]. vm_decide. Qed.

(** Nodes with the attributes of the example. *)
Definition sc_node (n : Node) : bool :=
  match n with
  | Dir => true
  | Reg _ a => bool_decide (a = ex_attr)
  | Lnk t a => bool_decide (a = ex_attr) && bool_decide (length t = 1%nat)
  | _ => false
  end.

Lemma sc_node_typed n : sc_node n = true → node_typed sc_cfg n ∧ ∀ t a, n = Lnk t a → in_u64 (Z.of_nat (length t)).
Proof.
  assert (Hmeta : ∀ n meta, meta_of OwnerPolicy.Skip n = Some meta → node_attr n = Some ex_attr → (∀ k r a, n ≠ Dev k r a) → meta_typed meta).
  { intros n0 meta Hm Ha Hd. unfold meta_of in Hm. destruct n0 as [|d a|t a|k r a|]; try done; [..|by destruct (Hd k r a)];
      injection Ha as ->; simpl in Hm; injection Hm as <-; split_and!; vm_compute; done. }
  destruct n as [|d a|t a| |]; try done; simpl.
  - intros ->%bool_decide_eq_true. split; [|done]. split; [|done]. intros meta Hm. by apply (Hmeta (Reg d ex_attr) meta Hm).
  - intros [->%bool_decide_eq_true Ht%bool_decide_eq_true]%andb_true_iff. split; [split; [|done]|].
    + intros meta Hm. by apply (Hmeta (Lnk t ex_attr) meta Hm).
    + intros t' a' [= <- <-]. rewrite Ht. vm_compute. done.
Qed.

Lemma sc_share : share_ok sc_cfg sc_world ["s"].
Proof.
  apply share_checked; [reflexivity|vm_decide|by repeat constructor|by apply ex_dirs|vm_decide|].
  assert (Hall : map_Forall (λ _ n, sc_node n = true) sc_world) by vm_decide.
  intros p n Hn. by apply sc_node_typed, (Hall p).
Qed.

Lemma sc_wf : conn_wf sc_conn.
Proof. apply (store_step_ok node_b (mkStoreState empty_conn 0) (AppendLocal (write "gone" h1))); [apply conn0_wf|apply write_typed|].
  apply room_checked; [apply conn0_wf|vm_compute; done].
Qed.

Definition spare_check (node : NodeId) (n : Z) (c : Conn) : bool :=
  bool_decide (n + 1 < u64_modulus) &&
  bool_decide (map_Forall (λ _ r, match de_vv (fc_vv r) with Some v => bool_decide (VersionVector.get v node + n < u64_modulus) | None => false end = true) (t_files c)).

Lemma spare_checked node n c : State.files_wf c → spare_check node n c = true → spare node n c.
Proof.
  intros Hc [Hn%bool_decide_eq_true Hb%bool_decide_eq_true]%andb_true_iff. split; [done|]. intros p row Hl.
  apply load_row_some in Hl as (Ht & _ & Hl); [|done]. apply Hb in Hl.
  assert (Hv : de_vv (fc_vv (enc_row row)) = Some (fr_vv row)) by apply de_ser_vv, Ht.
  rewrite Hv in Hl. by apply bool_decide_eq_true in Hl.
Qed.

Lemma sc_ready : ready sc_cfg sc_world ["s"] 8 sc_state.
Proof.
  split; [done|reflexivity|reflexivity|reflexivity|apply sc_wf|]. apply spare_checked; [apply sc_wf|]. vm_compute. done.
Qed.

Lemma sc_max : in_u64 (ec_max_file_bytes (ic_engine sc_cfg)).
Proof. vm_compute. done. Qed.

Lemma walk_exact_witness :
  ∃ out, Scanner.walk ["s"] sc_host = (sc_host, Done out) ∧ NoDup out ∧ ∀ p, p ∈ out ↔ walked sc_world ["s"] p.
Proof. apply (walk_exact sc_host ["s"]); [reflexivity|apply sc_tree]. Defined.

Lemma sweep_orphan_temps_exact_witness :
  ∃ w' removed, Scanner.sweep_orphan_temps ["s"] sc_host = (set_world w' sc_host, Done removed) ∧ w' !! ["s"; ".f.replicore-tmp.1.0"] = None.
Proof.
  destruct (sweep_orphan_temps_exact sc_host ["s"]) as (w' & removed & Hrun & Hw & _).
  - reflexivity.
  - apply sc_tree.
  - exists w', removed. split; [exact Hrun|]. rewrite Hw. vm_compute. reflexivity.
Defined.

(** A symbolic link is staged under a temporary name like a file. A kill
    between the staging and the rename leaves it there, and the sweep, which
    looks at regular files only, never removes it. *)
Definition link_meta : Meta := mkMeta FileKind.Symlink 511 0 0 7 0 (Some (str_bytes "f")) 0 [].
Definition link_killed : Host :=
  (Apply.apply_symlink "l" (blake3 (str_bytes "f")) link_meta OwnerPolicy.Skip
     (mkHost (h_world sc_host) (h_root sc_host) (h_suppress sc_host) (h_cas sc_host) 42 0 (h_now sc_host) (h_new sc_host) 0 [NoFault; NoFault; Kill])).1.

Lemma staged_link_survives_sweep :
  let '(h, r) := Scanner.sweep_orphan_temps ["s"] (set_faults [] link_killed) in
  r = Done 1 ∧ is_tmp ".l.replicore-tmp.42.0" = true ∧
  ∃ a, h_world h !! ["s"; ".l.replicore-tmp.42.0"] = Some (Lnk (str_bytes "f") a).
Proof. vm_compute. split; [reflexivity|]. split; [reflexivity|]. eexists. reflexivity. Qed.

Lemma sc_readable : readable sc_cfg sc_world ["s"; "a"; "f"] (Reg [x01; x02] ex_attr).
Proof.
  split; [|split; [reflexivity|by apply sc_node_typed]]. exists ["s"; "a"], "f". split; [done|]. split; [by repeat constructor|]. split; [|done].
  intros k Hk. assert (k = 1%nat ∨ k = 2%nat) as [->| ->] by (simpl in Hk; lia); reflexivity.
Qed.

Lemma sc_spare : spare node_b 2 sc_conn.
Proof. apply spare_checked; [apply sc_wf|]. vm_compute. done. Qed.

Lemma local_write_indexed_witness :
  ∃ s', Ingest.handle_write sc_cfg quiet_chunking "a/f" ["s"; "a"; "f"] sc_state = (s', Done ()) ∧
    ∃ row, State.load_row (es_conn s') "a/f" = Ok (Some row) ∧ fr_tombstone row = false ∧ fr_content_hash row = Some (blake3 [x01; x02]).
Proof.
  destruct (local_write_indexed sc_cfg sc_max "a/f" ["s"; "a"; "f"] (Reg [x01; x02] ex_attr) sc_state) as (s' & Hrun & _ & _ & _ & Hrow).
  - done.
  - exact sc_readable.
  - exact sc_wf.
  - exact sc_spare.
  - exists s'. split; [exact Hrun|]. destruct Hrow as (row & Hl & Ht & Hh & _). exists row. split; [exact Hl|]. split; [exact Ht|exact Hh].
Defined.

Lemma local_delete_reverified_witness :
  ∃ s', Ingest.handle_delete sc_cfg "gone" (mkIngestState ∅ sc_state) = (s', true) ∧ ¬ live_at (es_conn (ig_eng s')) "gone".
Proof.
  destruct (local_delete_reverified sc_cfg "gone" (mkIngestState ∅ sc_state)) as (s' & Hrun & _ & _ & _ & Hgone).
  - done.
  - exact sc_wf.
  - exact sc_spare.
  - exists s'. split; [exact Hrun|]. apply Hgone. vm_compute. reflexivity.
Defined.

Lemma rescan_is_authoritative_witness :
  ∃ evs stats s', Scanner.scan_once (ic_engine sc_cfg) 10 sc_state = (sc_state, Done (evs, stats)) ∧
    Ingest.run sc_cfg (mkIngestState ∅ sc_state) (((λ e, Ingest.OnEvent e 0) <$> evs) ++ [Ingest.OnTick 30 []]) = (s', true) ∧
    reflects sc_cfg sc_conn (es_conn (ig_eng s')) "a/f" (Reg [x01; x02] ex_attr) ∧ ¬ live_at (es_conn (ig_eng s')) "gone".
Proof.
  destruct (rescan_is_authoritative sc_cfg sc_max sc_world ["s"] sc_share sc_state 10 0 30) as (evs & stats & s' & Hscan & Hrun & _ & _ & Hfiles & Hrest).
  - exact sc_ready.
  - vm_compute. lia.
  - vm_compute. done.
  - exists evs, stats, s'. split; [exact Hscan|]. split; [exact Hrun|]. split.
    + apply (Hfiles ["a"; "f"]); [|vm_compute; reflexivity]. split; [split; [by apply prefix_cons, prefix_nil|done]|]. split; [vm_compute; reflexivity|].
      exists (Reg [x01; x02] ex_attr). split; [vm_compute; reflexivity|reflexivity].
    + apply (Hrest "gone"). intros comps (_ & _ & n & Hn & _) Heq.
      assert (Hseg := segments_text comps). rewrite <- Heq in Hseg. rewrite <- Hseg in Hn; [vm_compute in Hn; discriminate| |].
      * intros ->. discriminate.
      * eapply Forall_impl; [by eapply (sh_names _ _ _ sc_share)|naive_solver].
Defined.

(** ** What a failing call does *)

(** The last look before a delete takes any failure of [lstat] for absence:
    a file that is there, whose row is live, gets a tombstone when the call
    fails with a permission or I/O error. *)
Definition stat_fails : EngineState :=
  mkEngineState (mkStoreState sc_conn 1) (mkHost (<[["s"; "gone"] := Reg [x01] ex_attr]> sc_world) ["s"] ∅ ∅ 42 0 100 ex_attr 0 [Fails EIO]) ∅ 0 0 [].

Lemma stat_error_tombstones_file :
  let '(s', _) := Ingest.handle_delete sc_cfg "gone" (mkIngestState ∅ stat_fails) in
  h_world (es_host (ig_eng s')) !! ["s"; "gone"] = Some (Reg [x01] ex_attr) ∧
  (fr_tombstone <$> (match State.load_row (es_conn (ig_eng s')) "gone" with Ok r => r | Err _ => None end)) = Some true.
Proof. vm_compute. done. Qed.

(** A file written and then renamed before its quiet window is over: the
    pending write of the old name is dropped, the store knows no row to move,
    and nothing is queued for the new name. *)
Definition renamed_early : EngineState :=
  mkEngineState (mkStoreState empty_conn 0) (mkHost (<[["s"; "new"] := Reg [x01] ex_attr]> ex_world) ["s"] ∅ ∅ 42 0 100 ex_attr 0 []) ∅ 0 0 [].

Lemma early_rename_goes_unseen :
  let '(s', alive) := Ingest.run sc_cfg (mkIngestState ∅ renamed_early)
    [Ingest.OnEvent (LocalEvent.Write ["s"; "tmp"]) 0; Ingest.OnEvent (LocalEvent.Rename "tmp" ["s"; "new"]) 1; Ingest.OnTick 100 []] in
  alive = true ∧ ig_pending s' = ∅ ∧ h_world (es_host (ig_eng s')) !! ["s"; "new"] = Some (Reg [x01] ex_attr) ∧
  State.load_row (es_conn (ig_eng s')) "new" = Ok None.
Proof. vm_compute. done. Qed.
