(* ===== verification/CasDiskWitness.v ===== *)
(** * A chunk store of two chunks

    Hexadecimal as a concrete function that satisfies its laws, and the
    store's properties on a small tree: an insert, a rotten chunk, a staged
    file left by a kill. *)

From Stdlib Require Import Ascii.
From stdpp Require Import pretty.
From S2P Require Import Prelude Vv Metadata Conflict State Admin Membership MembershipProofs Suppress Chunk Fs Apply ApplyProofs Ingest Scanner ScannerProofs.
From S2P Require Import LocalWitness CasDisk CasDiskProofs.
Import RosterEx CasDisk.

#[local] Open Scope Z_scope.

(** ** Hexadecimal that can be read back *)

Definition undigit (a : ascii) : option Z :=
  let n := Z.of_nat (nat_of_ascii a) in
  if bool_decide (48 ≤ n ≤ 57) then Some (n - 48) else if bool_decide (97 ≤ n ≤ 102) then Some (n - 87) else None.
Fixpoint unhex (s : string) : option (list byte) :=
  match s with
  | EmptyString => Some []
  | String a (String b s) => h ← undigit a; l ← undigit b; r ← unhex s; Some (byte_of_Z (h * 16 + l) :: r)
  | _ => None
  end.

Lemma unhex_byte b s : unhex (toy_hex [b] +:+ s) = cons b <$> unhex s.
Proof. destruct b; reflexivity. Qed.
Lemma unhex_hex l : unhex (toy_hex l) = Some l.
Proof.
  induction l as [|b l IH]; [done|]. change (toy_hex (b :: l)) with (toy_hex [b] +:+ toy_hex l). by rewrite unhex_byte, IH.
Qed.

#[local] Instance lower_hex : Hex := toy_hex.
#[local] Instance lower_hex_laws : HexLaws.
Proof.
  split.
  - intros l. induction l as [|b l IH]; [done|]. change (hex_encode (b :: l)) with (toy_hex (b :: l)). cbn [toy_hex String.length length].
    unfold hex_encode, lower_hex in IH. rewrite IH. lia.
  - intros l. induction l as [|b l IH]; [done|]. destruct b; (split; [vm_compute; lia|]); (split; [vm_compute; lia|]); exact IH.
  - intros l l' Heq. apply (inj Some). rewrite <-!unhex_hex. unfold hex_encode, lower_hex in Heq. by rewrite Heq.
Qed.

(** ** The store *)

Definition chunk1 : list byte := [x68; x69].
Definition chunk2 : list byte := [x6f; x6b].
Definition hash1 : hash32 := blake3 chunk1.
Definition hash2 : hash32 := blake3 chunk2.
Definition store0 : World := {[ ["c"] := Dir ]}.
Definition cas_host (w : World) (faults : list Fault) : Host := mkHost w [] ∅ ∅ 7 0 0 ex_attr 0 faults.

#[local] Instance in_order : DirOrder := id.
#[local] Instance in_order_laws : DirOrderLaws.
Proof. intros l. reflexivity. Qed.

Lemma store0_ok : store_ok ["c"] store0.
Proof.
  apply store_ok_empty.
  - repeat constructor; done.
  - intros k Hk. simpl in Hk. assert (k = 1%nat) as -> by lia. reflexivity.
  - intros p _ Hp. unfold store0. by rewrite lookup_singleton_ne.
Qed.

Definition no_len : Node → Z := λ _, 0.
Definition put1 : Host * outcome CasError unit := put_verified ["c"] hash1 chunk1 (cas_host store0 []).
(** A second insert, killed before its flush; and the same tree after a loss
    of power. *)
Definition killed : World := tree_after ["c"] no_len (Put hash2 chunk2) (cas_host (h_world put1.1) [NoFault; NoFault; NoFault; Kill]).
Definition staged2 : FsPath := ["c"; fan hash2; ".chunk.replicore-tmp.7.0"].
Definition lost : World := <[staged2 := Reg [x00] ex_attr]> killed.

(** The killed insert left its staged file, whose bytes the power then took. *)
Example killed_left_staged : killed !! staged2 = Some (Reg chunk2 (set_synced false ex_attr)).
Proof. vm_compute. reflexivity. Qed.

Lemma killed_lost : power_loss killed lost.
Proof.
  intros p. destruct (decide (p = staged2)) as [->|Hp]; [right|left; by apply lookup_insert_ne].
  exists chunk2, [x00], (set_synced false ex_attr). split; [apply killed_left_staged|]. split; [reflexivity|apply lookup_insert_eq].
Qed.

Lemma cas_host_untorn w faults : Forall (λ f, match f with Torn _ => False | _ => True end) faults → untorn (cas_host w faults).
Proof. intros Hf. eapply Forall_impl; [exact Hf|]. by intros [] ? b. Qed.


Definition rotten : World := <[path_for ["c"] hash1 := Reg [x00] ex_attr]> (<[fan_path ["c"] hash1 := Dir]> store0).

Lemma rotten_shape : store_shape ["c"] rotten.
Proof.
  apply add_chunk_ok; [|apply lookup_insert_eq|reflexivity]. apply add_fan_ok; [apply store0_ok|]. vm_compute. reflexivity.
Qed.

Lemma cas_read_self_heals_witness :
  read ["c"] hash1 (cas_host rotten []) =
    (set_world (delete (path_for ["c"] hash1) rotten) (cas_host rotten []), Fail CasError.HashMismatch).
Proof.
  refine (proj1 (cas_read_self_heals ["c"] (cas_host rotten []) hash1 [x00] ex_attr _ _ _ _)).
  - exact rotten_shape.
  - reflexivity.
  - apply lookup_insert_eq.
  - vm_decide.
Defined.

Lemma cas_put_refines_witness :
  let r := put_verified ["c"] hash1 chunk1 (cas_host store0 [NoFault; NoFault; NoFault; Fails EIO]) in
  r.2 = Fail (CasError.Io "write" OtherIo) ∧ store_shape ["c"] (h_world r.1).
Proof.
  cbv zeta. split; [vm_compute; reflexivity|].
  pose proof (cas_put_refines ["c"] ∅ (cas_host store0 [NoFault; NoFault; NoFault; Fails EIO]) hash1 chunk1) as Href.
  destruct (put_verified ["c"] hash1 chunk1 (cas_host store0 [NoFault; NoFault; NoFault; Fails EIO])) as [s' r].
  apply Href.
  - apply store0_ok.
  - apply cas_host_untorn. repeat constructor.
  - intros e fs Heq. discriminate Heq.
  - intros h. rewrite lookup_empty. unfold chunk_data. cbn [h_world cas_host]. unfold store0. rewrite lookup_singleton_ne; [reflexivity|].
    intros Heq. discriminate Heq.
Defined.

Definition swept0 : World :=
  <[["c"; "ab"; ".chunk.replicore-tmp.7.0"] := Reg [x00] ex_attr]> (<[["c"; "ab"; "abcd"] := Reg [x01] ex_attr]> (<[["c"; "ab"] := Dir]> store0)).
Definition plain_entry (e : FsPath * Node) : bool := bool_decide (Forall (λ c, c ≠ "" ∧ c ≠ "." ∧ c ≠ "..") e.1) && negb (is_lnk e.2).

Lemma cas_sweep_exact_witness :
  ∃ w' removed, sweep_orphan_temps ["c"] (Scanner.fuel_for (cas_host swept0 [])) (cas_host swept0 []) = (set_world w' (cas_host swept0 []), Done removed) ∧
    w' !! ["c"; "ab"; ".chunk.replicore-tmp.7.0"] = None ∧ w' !! ["c"; "ab"; "abcd"] = Some (Reg [x01] ex_attr).
Proof.
  destruct (cas_sweep_exact ["c"] (cas_host swept0 [])) as (w' & removed & Hrun & Hw & _).
  - reflexivity.
  - apply tree_checked; [reflexivity|vm_decide].
  - split; [repeat constructor; discriminate|]. intros k Hk. simpl in Hk. assert (k = 1%nat) as -> by lia. reflexivity.
  - intros p n Hp _. assert (Hall : map_Forall (λ p n, plain_entry (p, n) = true) swept0) by vm_decide.
    specialize (Hall p n Hp). unfold plain_entry in Hall. apply andb_true_iff in Hall as [Hn%bool_decide_eq_true Hl%negb_true_iff]. split; [exact Hn|exact Hl].
  - exists w', removed. split; [exact Hrun|]. rewrite !Hw. split; vm_compute; reflexivity.
Defined.

(** ** Limits *)

(** The count of chunks counts a staged file too. *)
Theorem stats_counts_staged : (stats ["c"] no_len 9 (cas_host swept0 [])).2 = Done (2, 2).
Proof. vm_compute. reflexivity. Qed.
