(* ===== verification/Float.v ===== *)
(** * Double-precision numbers

    The [f64] arithmetic the bandwidth limiter and the free-space guard use:
    the Standard Library's executable specification of IEEE 754 at the
    parameters of binary64, and Rust's conversions from and to [u64]. *)

From Stdlib Require SpecFloat.
From S2P Require Import Prelude.

Abbreviation f64 := SpecFloat.spec_float.

#[export] Instance f64_eq_dec : EqDecision f64.
Proof. unfold EqDecision, base.Decision. repeat decide equality. Defined.

Module F64.
Definition of_int (n : Z) : f64 := SpecFloat.binary_normalize 53 1024 n 0 false.
Definition zero : f64 := SpecFloat.S754_zero false.
Definition add : f64 → f64 → f64 := SpecFloat.SFadd 53 1024.
Definition sub : f64 → f64 → f64 := SpecFloat.SFsub 53 1024.
Definition mul : f64 → f64 → f64 := SpecFloat.SFmul 53 1024.
Definition div : f64 → f64 → f64 := SpecFloat.SFdiv 53 1024.
Definition opp : f64 → f64 := SpecFloat.SFopp.
Definition leb : f64 → f64 → bool := SpecFloat.SFleb.
Definition ltb : f64 → f64 → bool := SpecFloat.SFltb.

(** [f64::min]: the other operand when one is not a number. *)
Definition min (x y : f64) : f64 :=
  match x, y with
  | SpecFloat.S754_nan, _ => y
  | _, SpecFloat.S754_nan => x
  | _, _ => if ltb x y then x else y
  end.

(** [as u64]: truncation, saturating at both ends, zero for not-a-number. *)
Definition to_u64 (x : f64) : Z :=
  match x with
  | SpecFloat.S754_finite false m e =>
      Z.min (u64_modulus - 1) (if bool_decide (0 ≤ e) then Z.pos m * 2 ^ e else Z.pos m / 2 ^ (- e))
  | SpecFloat.S754_infinity false => u64_modulus - 1
  | _ => 0
  end.
End F64.

(** ** Facts *)

Lemma to_u64_range x : in_u64 (F64.to_u64 x).
Proof.
  unfold in_u64, u64_modulus. destruct x as [s|[]| |[] m e]; unfold F64.to_u64, u64_modulus; try lia. case_bool_decide as He.
  - assert (0 ≤ Z.pos m * 2 ^ e) by (apply Z.mul_nonneg_nonneg; [lia|apply Z.pow_nonneg; lia]). lia.
  - assert (0 ≤ Z.pos m / 2 ^ (- e)) by (apply Z.div_pos; [lia|apply Z.pow_pos_nonneg; lia]). lia.
Qed.

Lemma compare_opp x y : SpecFloat.SFcompare y x = CompOpp <$> SpecFloat.SFcompare x y.
Proof.
  destruct x as [[]|[]| |[] m e], y as [[]|[]| |[] m' e']; try done; cbn; f_equal;
    rewrite (Z.compare_antisym e e'); destruct (Z.compare e e'); cbn; try done;
    change (Pos.compare_cont Eq) with Pos.compare; rewrite (Pos.compare_antisym m m'); by destruct (Pos.compare m m').
Qed.

Lemma leb_refl x : x ≠ SpecFloat.S754_nan → F64.leb x x = true.
Proof.
  intros Hx. pose proof (compare_opp x x) as Hc. unfold F64.leb, SpecFloat.SFleb.
  destruct (SpecFloat.SFcompare x x) as [[]|] eqn:E; try done. by destruct x.
Qed.

Lemma min_le x y : y ≠ SpecFloat.S754_nan → F64.leb (F64.min x y) y = true.
Proof.
  intros Hy. destruct (decide (x = SpecFloat.S754_nan)) as [->|Hx]; [by apply leb_refl|].
  assert (Hmin : F64.min x y = if F64.ltb x y then x else y) by (destruct x, y; done).
  rewrite Hmin. destruct (F64.ltb x y) eqn:Hlt; [|by apply leb_refl].
  unfold F64.ltb, F64.leb, SpecFloat.SFltb, SpecFloat.SFleb in *. by destruct (SpecFloat.SFcompare x y) as [[]|].
Qed.

Lemma iter_pos_nonneg p mrs : 0 ≤ SpecFloat.shr_m mrs → 0 ≤ SpecFloat.shr_m (SpecFloat.iter_pos SpecFloat.shr_1 p mrs).
Proof.
  assert (H1 : ∀ mrs, 0 ≤ SpecFloat.shr_m mrs → 0 ≤ SpecFloat.shr_m (SpecFloat.shr_1 mrs)) by (intros [[|[]|] ? ?]; cbn; lia).
  revert mrs. induction p as [p IH|p IH|]; intros mrs Hm; cbn [SpecFloat.iter_pos]; auto.
Qed.

Lemma shr_fexp_nonneg m e l : 0 ≤ m → 0 ≤ SpecFloat.shr_m (SpecFloat.shr_fexp 53 1024 m e l).1.
Proof.
  intros Hm. assert (Hr : 0 ≤ SpecFloat.shr_m (SpecFloat.shr_record_of_loc m l)) by (by destruct l as [|[]]).
  unfold SpecFloat.shr_fexp, SpecFloat.shr. case_match; cbn [fst]; [done|by apply iter_pos_nonneg|done].
Qed.

Lemma of_int_number n : F64.of_int n ≠ SpecFloat.S754_nan.
Proof.
  assert (H : ∀ s m e, SpecFloat.binary_round_aux 53 1024 s (Z.pos m) e SpecFloat.loc_Exact ≠ SpecFloat.S754_nan).
  { intros s m e. unfold SpecFloat.binary_round_aux.
    pose proof (shr_fexp_nonneg (Z.pos m) e SpecFloat.loc_Exact ltac:(lia)) as H1.
    destruct (SpecFloat.shr_fexp 53 1024 (Z.pos m) e SpecFloat.loc_Exact) as [mrs e1]. cbn [fst] in H1.
    assert (H2 : 0 ≤ SpecFloat.round_nearest_even (SpecFloat.shr_m mrs) (SpecFloat.loc_of_shr_record mrs)).
    { unfold SpecFloat.round_nearest_even. repeat case_match; lia. }
    pose proof (shr_fexp_nonneg _ e1 SpecFloat.loc_Exact H2) as H3.
    destruct (SpecFloat.shr_fexp 53 1024 (SpecFloat.round_nearest_even _ _) e1 SpecFloat.loc_Exact) as [mrs2 e2]. cbn [fst] in H3.
    destruct (SpecFloat.shr_m mrs2); [done|by case_match|lia]. }
  unfold F64.of_int, SpecFloat.binary_normalize. destruct n as [|p|p]; [done| |];
    unfold SpecFloat.binary_round; destruct (SpecFloat.shl_align _ _ _) as [m e]; apply H.
Qed.

Example float_tenth : F64.add (F64.div (F64.of_int 1) (F64.of_int 10)) (F64.div (F64.of_int 2) (F64.of_int 10))
  ≠ F64.div (F64.of_int 3) (F64.of_int 10).
Proof. vm_decide. Qed.
