(* ===== verification/Qos.v ===== *)
(** * Bandwidth limiting (src/src/qos.rs)

    Token buckets over double-precision balances, the limiter with its two
    lanes, and the time-of-day rules that select the rates in force. The
    tasks that acquire bandwidth run in atomic steps, in any order; the clock
    is an argument, in nanoseconds. *)

From S2P Require Import Prelude Vv Float.

(** ** Token buckets *)

Record BucketState : Type := mkBucketState { bk_rate : Z; bk_tokens : f64; bk_last : Z }.

Definition NANOS_PER_SEC : Z := 1000000000.
(** [Duration::as_secs_f64] *)
Definition as_secs_f64 (ns : Z) : f64 :=
  F64.add (F64.of_int (ns / NANOS_PER_SEC)) (F64.div (F64.of_int (ns mod NANOS_PER_SEC)) (F64.of_int NANOS_PER_SEC)).

Module TokenBucket.
Definition new (rate now : Z) : BucketState := mkBucketState rate F64.zero now.

Definition refill (now : Z) (s : BucketState) : BucketState :=
  let dt := as_secs_f64 (Z.max 0 (now - bk_last s)) in
  if bool_decide (bk_rate s = 0) then mkBucketState 0 F64.zero now
  else mkBucketState (bk_rate s)
         (F64.min (F64.add (bk_tokens s) (F64.mul dt (F64.of_int (bk_rate s)))) (F64.of_int (bk_rate s))) now.

Definition set_rate (rate now : Z) (s : BucketState) : BucketState :=
  let s := refill now s in
  mkBucketState rate (if bool_decide (rate = 0) then F64.zero else bk_tokens s) (bk_last s).

(** The debit of [acquire] and the seconds it sleeps, if any. *)
Definition acquire (n now : Z) (s : BucketState) : BucketState * option f64 :=
  let s := refill now s in
  if bool_decide (bk_rate s = 0) then (s, None)
  else
    let tokens := F64.sub (bk_tokens s) (F64.of_int n) in
    let s := mkBucketState (bk_rate s) tokens (bk_last s) in
    (s, if F64.leb F64.zero tokens then None else Some (F64.div (F64.opp tokens) (F64.of_int (bk_rate s)))).
End TokenBucket.

(** ** The limiter *)

Module Lane.
Inductive t : Type :=
| Priority
| Bulk.
End Lane.
Abbreviation Lane := Lane.t.

#[export] Instance lane_eq_dec : EqDecision Lane.
Proof. solve_decision. Defined.

(** [lm_notified] counts the calls of [notify_waiters]. *)
Record Limiter : Type := mkLimiter {
  lm_global : BucketState;
  lm_per_peer_rate : Z;
  lm_peers : gmap NodeId BucketState;
  lm_priority_waiting : Z;
  lm_notified : nat;
}.

(** Where a call of [acquire] is: at its gate, about to look its bucket up,
    to debit the global and the peer's bucket, asleep after either debit,
    or past its last await. *)
Inductive AcquirePc : Type :=
| AEnter
| AGate (w : WaitPc)
| ABucket
| AGlobal
| AGlobalSleep (secs : f64)
| APeer
| APeerSleep (secs : f64)
| ALeave
| ANotify
| ADone.

Record Acquire : Type := mkAcquire { aq_lane : Lane; aq_peer : NodeId; aq_bytes : Z; aq_pc : AcquirePc; aq_dropped : bool }.

Module Limiter.
Definition new (global_bps per_peer_bps now : Z) : Limiter :=
  mkLimiter (TokenBucket.new global_bps now) per_peer_bps ∅ 0 0.

Definition set_rates (global_bps per_peer_bps now : Z) (l : Limiter) : Limiter :=
  mkLimiter (TokenBucket.set_rate global_bps now (lm_global l)) per_peer_bps
    (TokenBucket.set_rate per_peer_bps now <$> lm_peers l) (lm_priority_waiting l) (lm_notified l).

Definition rates (l : Limiter) : Z * Z := (bk_rate (lm_global l), lm_per_peer_rate l).

Definition set_global (b : BucketState) (l : Limiter) : Limiter :=
  mkLimiter b (lm_per_peer_rate l) (lm_peers l) (lm_priority_waiting l) (lm_notified l).
Definition set_peers (m : gmap NodeId BucketState) (l : Limiter) : Limiter :=
  mkLimiter (lm_global l) (lm_per_peer_rate l) m (lm_priority_waiting l) (lm_notified l).
Definition set_waiting (n : Z) (l : Limiter) : Limiter :=
  mkLimiter (lm_global l) (lm_per_peer_rate l) (lm_peers l) n (lm_notified l).
Definition notify_waiters (l : Limiter) : Limiter :=
  mkLimiter (lm_global l) (lm_per_peer_rate l) (lm_peers l) (lm_priority_waiting l) (S (lm_notified l)).

(** The bucket of a peer, created on its first use. *)
Definition peer_bucket (peer : NodeId) (now : Z) (l : Limiter) : BucketState * Limiter :=
  match lm_peers l !! peer with
  | Some b => (b, l)
  | None => let b := TokenBucket.new (lm_per_peer_rate l) now in (b, set_peers (<[peer := b]> (lm_peers l)) l)
  end.

Definition pause_for (wait : option f64) (sleep : f64 → AcquirePc) (next : AcquirePc) : AcquirePc :=
  match wait with Some secs => sleep secs | None => next end.
Definition after_peer (lane : Lane) : AcquirePc := match lane with Lane.Priority => ALeave | Lane.Bulk => ADone end.

(** One atomic step of a call of [acquire]; a sleep ends when the schedule
    says so. The counter has 64 bits. *)
Definition acquire_step (now : Z) (a : Acquire) (l : Limiter) : AcquirePc * Limiter :=
  match aq_pc a with
  | AEnter =>
      match aq_lane a with
      | Lane.Priority => (ABucket, set_waiting (u64_add (lm_priority_waiting l) 1) l)
      | Lane.Bulk => (AGate WCheck, l)
      end
  | AGate w =>
      match wait_step (bool_decide (0 < lm_priority_waiting l)) (lm_notified l) w with
      | Some w => (AGate w, l)
      | None => (ABucket, l)
      end
  | ABucket => (AGlobal, (peer_bucket (aq_peer a) now l).2)
  | AGlobal =>
      let '(b, wait) := TokenBucket.acquire (aq_bytes a) now (lm_global l) in
      (pause_for wait AGlobalSleep APeer, set_global b l)
  | AGlobalSleep _ => (APeer, l)
  | APeer =>
      let '(b, l) := peer_bucket (aq_peer a) now l in
      let '(b, wait) := TokenBucket.acquire (aq_bytes a) now b in
      (pause_for wait APeerSleep (after_peer (aq_lane a)), set_peers (<[aq_peer a := b]> (lm_peers l)) l)
  | APeerSleep _ => (after_peer (aq_lane a), l)
  | ALeave => (ANotify, set_waiting ((lm_priority_waiting l - 1) `mod` u64_modulus) l)
  | ANotify => (ADone, notify_waiters l)
  | ADone => (ADone, l)
  end.

(** A future can be dropped before its first step and where it awaits. *)
Definition at_await (pc : AcquirePc) : bool :=
  match pc with AEnter | AGate (WParked _) | AGlobalSleep _ | APeerSleep _ => true | _ => false end.

Inductive Event : Type :=
| Spawn (lane : Lane) (peer : NodeId) (bytes : Z)
| Run (i : nat)
| Drop (i : nat)
| SetRates (global_bps per_peer_bps : Z).

Definition set_pc (pc : AcquirePc) (a : Acquire) : Acquire := mkAcquire (aq_lane a) (aq_peer a) (aq_bytes a) pc (aq_dropped a).
Definition drop_task (a : Acquire) : Acquire :=
  if at_await (aq_pc a) then mkAcquire (aq_lane a) (aq_peer a) (aq_bytes a) (aq_pc a) true else a.

Definition event (s : Limiter * list Acquire) (e : Event * Z) : Limiter * list Acquire :=
  let '(l, ts) := s in
  let now := e.2 in
  match e.1 with
  | Spawn lane peer bytes => (l, ts ++ [mkAcquire lane peer bytes AEnter false])
  | Run i =>
      match ts !! i with
      | Some a =>
          if aq_dropped a then s
          else let '(pc, l) := acquire_step now a l in (l, <[i := set_pc pc a]> ts)
      | None => s
      end
  | Drop i => match ts !! i with Some a => (l, <[i := drop_task a]> ts) | None => s end
  | SetRates g p => (set_rates g p now l, ts)
  end.

Definition run (s : Limiter * list Acquire) (es : list (Event * Z)) : Limiter * list Acquire := foldl event s es.
End Limiter.

(** ** Schedule *)

Record ScheduleRule : Type := mkScheduleRule {
  sr_days : list string;
  sr_start_min : Z;
  sr_end_min : Z;
  sr_global_bps : Z;
  sr_per_peer_bps : Z;
}.

#[export] Instance schedule_rule_eq_dec : EqDecision ScheduleRule.
Proof. solve_decision. Defined.

Definition NAMES : list string := ["sun"; "mon"; "tue"; "wed"; "thu"; "fri"; "sat"].

Definition day_matches (r : ScheduleRule) (weekday : Z) : bool :=
  existsb (λ d,
    if bool_decide (d = "all") then true
    else if bool_decide (d = "weekday") then bool_decide (1 ≤ weekday ≤ 5)
    else if bool_decide (d = "weekend") then bool_decide (weekday = 0) || bool_decide (weekday = 6)
    else bool_decide (NAMES !! Z.to_nat weekday = Some d)) (sr_days r).

Definition time_matches (r : ScheduleRule) (minute_of_day : Z) : bool :=
  if bool_decide (sr_start_min r ≤ sr_end_min r)
  then bool_decide (sr_start_min r ≤ minute_of_day < sr_end_min r)
  else bool_decide (sr_start_min r ≤ minute_of_day) || bool_decide (minute_of_day < sr_end_min r).

Fixpoint active_rates (rules : list ScheduleRule) (base : Z * Z) (weekday minute_of_day : Z) : Z * Z :=
  match rules with
  | [] => base
  | r :: rules =>
      if day_matches r weekday && time_matches r minute_of_day then (sr_global_bps r, sr_per_peer_bps r)
      else active_rates rules base weekday minute_of_day
  end.

(** ** What a rule means *)

Definition DAY : Z := 1440.

(** The minute lies on the arc of the clock that begins at the rule's start and
    ends before its end. *)
Definition on_arc (r : ScheduleRule) (minute : Z) : Prop :=
  (minute - sr_start_min r) mod DAY < (sr_end_min r - sr_start_min r) mod DAY.

Lemma mod_day z : - DAY < z < DAY → z mod DAY = if decide (0 ≤ z) then z else z + DAY.
Proof.
  unfold DAY. intros Hz. case_decide; [by apply Z.mod_small; lia|].
  rewrite <- (Z.mod_add z 1) by lia. rewrite Z.mod_small by lia. lia.
Qed.

Lemma time_matches_arc r minute :
  0 ≤ sr_start_min r < DAY → 0 ≤ sr_end_min r < DAY → 0 ≤ minute < DAY → time_matches r minute = true ↔ on_arc r minute.
Proof.
  intros Hs He Hm. unfold time_matches, on_arc. rewrite !mod_day by lia. unfold DAY in *.
  repeat case_decide; repeat case_bool_decide; simpl; rewrite ?orb_true_iff, ?bool_decide_eq_true; (split; [try done|try done]); try lia; intros; lia.
Qed.
