(* ===== verification/QosProofs.v ===== *)
(** * Bandwidth limiting: buckets and lanes

    The burst a bucket admits, the count of priority acquisitions under every
    interleaving, what bulk acquisitions wait for, and the schedules under
    which they wait for ever. *)

From S2P Require Import Prelude Vv Float Qos.
Import Limiter.

#[local] Open Scope Z_scope.

(** ** Buckets *)

Lemma refill_capped now s : bk_rate s ≠ 0 → F64.leb (bk_tokens (TokenBucket.refill now s)) (F64.of_int (bk_rate s)) = true.
Proof. intros Hr. unfold TokenBucket.refill. rewrite bool_decide_false by done. cbn [bk_tokens]. apply min_le, of_int_number. Qed.

(** ** The count of priority acquisitions *)

(** Between its increment and its decrement of the counter; a dropped one
    stays there. *)
Definition in_flight (a : Acquire) : bool :=
  match aq_lane a, aq_pc a with
  | Lane.Bulk, _ | _, (AEnter | ANotify | ADone) => false
  | _, _ => true
  end.
Fixpoint flying (ts : list Acquire) : Z :=
  match ts with [] => 0 | a :: ts => Z.b2z (in_flight a) + flying ts end.

Lemma flying_app ts a : flying (ts ++ [a]) = flying ts + Z.b2z (in_flight a).
Proof. induction ts as [|b ts IH]; cbn [flying app]; lia. Qed.

Lemma flying_insert ts i a a' :
  ts !! i = Some a → flying (<[i := a']> ts) = flying ts + (Z.b2z (in_flight a') - Z.b2z (in_flight a)).
Proof.
  revert i. induction ts as [|b ts IH]; intros [|i] Hi; try done.
  - injection Hi as ->. change (<[0%nat := a']> (a :: ts)) with (a' :: ts). cbn [flying]. lia.
  - change (<[S i := a']> (b :: ts)) with (b :: <[i := a']> ts). cbn [flying]. rewrite (IH i Hi). lia.
Qed.

Lemma flying_range ts : 0 ≤ flying ts ≤ Z.of_nat (length ts).
Proof. induction ts as [|b ts IH]; cbn [flying length]; [lia|]. destruct (in_flight b); cbn [Z.b2z]; lia. Qed.

Lemma flying_pos ts i a : ts !! i = Some a → in_flight a = true → 0 < flying ts.
Proof.
  revert i. induction ts as [|b ts IH]; intros [|i] Hi Hf; try done; cbn [flying]; pose proof (flying_range ts).
  - injection Hi as ->. rewrite Hf. cbn [Z.b2z]. lia.
  - specialize (IH i Hi Hf). destruct (in_flight b); cbn [Z.b2z]; lia.
Qed.

Lemma flying_none ts : flying ts = 0 → Forall (λ a, in_flight a = false) ts.
Proof.
  intros H. apply Forall_lookup. intros i a Hi. destruct (in_flight a) eqn:Hf; [|done].
  pose proof (flying_pos ts i a Hi Hf). lia.
Qed.

(** The lane of a call goes with where it can be. *)
Definition lane_ok (a : Acquire) : Prop :=
  match aq_lane a, aq_pc a with
  | Lane.Priority, AGate _ | Lane.Bulk, (ALeave | ANotify) => False
  | _, _ => True
  end.

Definition counted (s : Limiter * list Acquire) : Prop :=
  lm_priority_waiting s.1 = flying s.2 mod u64_modulus ∧ Forall lane_ok s.2.

Lemma peer_bucket_waiting peer now l : lm_priority_waiting (peer_bucket peer now l).2 = lm_priority_waiting l.
Proof. unfold peer_bucket. by destruct (lm_peers l !! peer). Qed.

(** What one step of a call does to the counter. *)
Lemma acquire_step_count now a l pc l' :
  acquire_step now a l = (pc, l') → lane_ok a → lane_ok (set_pc pc a) ∧
  lm_priority_waiting l' =
    (lm_priority_waiting l + (Z.b2z (in_flight (set_pc pc a)) - Z.b2z (in_flight a))) mod u64_modulus ∨
  lm_priority_waiting l' = lm_priority_waiting l ∧ in_flight (set_pc pc a) = in_flight a ∧ lane_ok (set_pc pc a).
Proof.
  destruct a as [lane peer n p d]. unfold acquire_step, lane_ok, in_flight, set_pc. cbn [aq_lane aq_pc aq_peer aq_bytes aq_dropped].
  destruct p, lane; intros Hs Hok; try done; try (injection Hs as <- <-; by right).
  - injection Hs as <- <-. left. by split.
  - destruct (wait_step _ _ _); injection Hs as <- <-; by right.
  - injection Hs as <- <-. right. by rewrite peer_bucket_waiting.
  - injection Hs as <- <-. right. by rewrite peer_bucket_waiting.
  - destruct (TokenBucket.acquire _ _ _) as [b [w|]]; injection Hs as <- <-; by right.
  - destruct (TokenBucket.acquire _ _ _) as [b [w|]]; injection Hs as <- <-; by right.
  - pose proof (peer_bucket_waiting peer now l) as Hw. destruct (peer_bucket peer now l) as [b l1].
    destruct (TokenBucket.acquire _ _ _) as [b' [w|]]; injection Hs as <- <-; by right.
  - pose proof (peer_bucket_waiting peer now l) as Hw. destruct (peer_bucket peer now l) as [b l1].
    destruct (TokenBucket.acquire _ _ _) as [b' [w|]]; injection Hs as <- <-; by right.
  - injection Hs as <- <-. left. by split.
Qed.

Lemma event_counted s e : counted s → counted (event s e).
Proof.
  destruct s as [l ts], e as [[lane peer n|i|i|g p] now]; intros [Hc Hok]; cbn [fst snd event] in *.
  - split; cbn [fst snd]; [rewrite flying_app; unfold in_flight; cbn; destruct lane; by rewrite Z.add_0_r|].
    apply Forall_app. split; [done|]. constructor; [by destruct lane|constructor].
  - destruct (ts !! i) as [a|] eqn:Hi; [|done]. destruct (aq_dropped a); [done|].
    destruct (acquire_step now a l) as [pc l'] eqn:Hs. pose proof (Forall_lookup_1 _ _ _ _ Hok Hi) as Ha.
    split; cbn [fst snd]; [rewrite (flying_insert _ _ _ _ Hi)|apply Forall_insert; [done|]].
    + destruct (acquire_step_count _ _ _ _ _ Hs Ha) as [[_ ->]|(-> & -> & _)].
      * by rewrite Hc, Zplus_mod_idemp_l.
      * rewrite Hc. f_equal. lia.
    + destruct (acquire_step_count _ _ _ _ _ Hs Ha) as [[? _]|(_ & _ & ?)]; done.
  - assert (Hd : ∀ a, in_flight (drop_task a) = in_flight a ∧ (lane_ok a → lane_ok (drop_task a))).
    { intros a. unfold drop_task. by destruct (at_await (aq_pc a)). }
    destruct (ts !! i) as [a|] eqn:Hi; [|done]. split; cbn [fst snd]; [rewrite (flying_insert _ _ _ _ Hi)|].
    + destruct (Hd a) as [-> _]. rewrite Hc. f_equal. lia.
    + apply Forall_insert; [done|]. apply Hd. by eapply Forall_lookup_1.
  - done.
Qed.

Lemma run_counted s es : counted s → counted (run s es).
Proof. revert s. induction es as [|e es IH]; intros s Hs; [done|]. by apply IH, event_counted. Qed.

Lemma new_counted g p t : counted (new g p t, []).
Proof. by split. Qed.

Lemma counted_exact s : counted s → Z.of_nat (length s.2) < u64_modulus → lm_priority_waiting s.1 = flying s.2.
Proof. intros [-> _] Hl. apply Z.mod_small. pose proof (flying_range s.2). lia. Qed.

(** ** Yielding *)

(** A bulk call that has not left its gate. *)
Definition waiting_bulk (a : Acquire) : bool :=
  match aq_lane a, aq_pc a with Lane.Bulk, (AEnter | AGate _) => true | _, _ => false end.

Lemma event_length s e : (length s.2 ≤ length (event s e).2)%nat.
Proof.
  destruct s as [l ts], e as [[lane peer n|i|i|g p] now]; cbn [fst snd event].
  - rewrite length_app. lia.
  - destruct (ts !! i) as [a|]; [|done]. destruct (aq_dropped a); [done|]. destruct (acquire_step now a l) as [pc l'].
    cbn [fst snd]. by rewrite length_insert.
  - destruct (ts !! i) as [a|]; [|done]. cbn [snd]. by rewrite length_insert.
  - done.
Qed.

Lemma run_length s es : (length s.2 ≤ length (run s es).2)%nat.
Proof.
  revert s. induction es as [|e es IH]; intros s; [done|]. change (run s (e :: es)) with (run (event s e) es).
  specialize (IH (event s e)). pose proof (event_length s e). lia.
Qed.

(** A waiting bulk call leaves its gate only when the counter is zero. *)
Lemma event_gate s e i a a' :
  s.2 !! i = Some a → (event s e).2 !! i = Some a' → waiting_bulk a = true → waiting_bulk a' = false → lm_priority_waiting s.1 ≤ 0.
Proof.
  destruct s as [l ts], e as [[lane peer n|j|j|g p] now]; cbn [fst snd event]; intros Hi Hi' Hw Hw'.
  - rewrite lookup_app_l in Hi' by (by eapply lookup_lt_Some). congruence.
  - destruct (ts !! j) as [b|] eqn:Hj; [|cbn in Hi'; congruence]. destruct (aq_dropped b); [cbn in Hi'; congruence|].
    destruct (acquire_step now b l) as [pc l'] eqn:Hs. cbn [snd] in Hi'.
    destruct (decide (i = j)) as [<-|Hne]; [|rewrite list_lookup_insert_ne in Hi' by done; congruence].
    rewrite list_lookup_insert_eq in Hi' by (by eapply lookup_lt_Some). replace b with a in * by congruence.
    injection Hi' as <-. unfold acquire_step in Hs. destruct a as [lane peer n p d].
    unfold waiting_bulk in Hw, Hw'. cbn [aq_lane aq_pc set_pc] in *. destruct lane; [done|].
    destruct p as [|w| | | | | | | |]; try done.
    + injection Hs as <- <-. done.
    + destruct (wait_step _ _ w) as [w'|] eqn:Hws; injection Hs as <- <-; [done|]. unfold wait_step in Hws.
      destruct w; try done; [|by case_bool_decide]. case_bool_decide; [done|lia].
  - destruct (ts !! j) as [b|] eqn:Hj; [|cbn in Hi'; congruence]. cbn [snd] in Hi'.
    destruct (decide (i = j)) as [<-|Hne]; [|rewrite list_lookup_insert_ne in Hi' by done; congruence].
    rewrite list_lookup_insert_eq in Hi' by (by eapply lookup_lt_Some). injection Hi' as <-. replace b with a in * by congruence.
    exfalso. revert Hw Hw'. unfold drop_task, waiting_bulk. destruct (at_await (aq_pc a)); cbn [aq_lane aq_pc]; congruence.
  - congruence.
Qed.

(** What an event leaves of a call, and how a call appears. *)
Lemma event_keeps s e i a : s.2 !! i = Some a →
  ∃ a', (event s e).2 !! i = Some a' ∧ aq_lane a' = aq_lane a ∧ (aq_dropped a = true → a' = a).
Proof.
  destruct s as [l ts], e as [[lane peer n|j|j|g p] now]; cbn [fst snd event]; intros Hi.
  - exists a. by rewrite lookup_app_l by (by eapply lookup_lt_Some).
  - destruct (ts !! j) as [b|] eqn:Hj; [|by exists a]. destruct (aq_dropped b) eqn:Hd; [by exists a|].
    destruct (acquire_step now b l) as [pc l']. cbn [snd]. destruct (decide (i = j)) as [<-|Hne].
    + rewrite list_lookup_insert_eq by (by eapply lookup_lt_Some). replace b with a in * by congruence.
      exists (set_pc pc a). split; [done|]. split; [done|]. congruence.
    + rewrite list_lookup_insert_ne by done. by exists a.
  - destruct (ts !! j) as [b|] eqn:Hj; [|by exists a]. cbn [snd]. destruct (decide (i = j)) as [<-|Hne].
    + rewrite list_lookup_insert_eq by (by eapply lookup_lt_Some). replace b with a in * by congruence.
      exists (drop_task a). split; [done|]. unfold drop_task. destruct (at_await (aq_pc a)); [|done]. split; [done|].
      destruct a. cbn. by intros ->.
    + rewrite list_lookup_insert_ne by done. by exists a.
  - by exists a.
Qed.

Lemma event_new s e i a : s.2 !! i = None → (event s e).2 !! i = Some a → aq_pc a = AEnter.
Proof.
  destruct s as [l ts], e as [[lane peer n|j|j|g p] now]; cbn [fst snd event]; intros Hi Ha.
  - apply lookup_app_Some in Ha as [Ha|[_ Ha]]; [congruence|]. by apply list_lookup_singleton_Some in Ha as [_ <-].
  - exfalso. destruct (ts !! j) as [b|] eqn:Hj; [|cbn in Ha; congruence]. destruct (aq_dropped b); [cbn in Ha; congruence|].
    destruct (acquire_step now b l) as [pc l']. cbn [snd] in Ha. apply lookup_lt_Some in Ha. rewrite length_insert in Ha.
    apply lookup_ge_None in Hi. lia.
  - exfalso. destruct (ts !! j) as [b|] eqn:Hj; [|cbn in Ha; congruence]. cbn [snd] in Ha. apply lookup_lt_Some in Ha.
    rewrite length_insert in Ha. apply lookup_ge_None in Hi. lia.
  - congruence.
Qed.

Lemma run_keeps s es i a : s.2 !! i = Some a →
  ∃ a', (run s es).2 !! i = Some a' ∧ aq_lane a' = aq_lane a ∧ (aq_dropped a = true → a' = a).
Proof.
  revert s a. induction es as [|e es IH]; intros s a Hi; [by exists a|]. change (run s (e :: es)) with (run (event s e) es).
  destruct (event_keeps s e i a Hi) as (a1 & H1 & Hl1 & Hd1). destruct (IH _ _ H1) as (a2 & H2 & Hl2 & Hd2).
  exists a2. split; [done|]. split; [congruence|]. intros Hd. rewrite <- (Hd1 Hd). apply Hd2. by rewrite (Hd1 Hd).
Qed.

Definition quiet_moment (s : Limiter * list Acquire) (i : nat) : Prop :=
  Forall (λ b, in_flight b = false) s.2 ∧ ∃ b, s.2 !! i = Some b ∧ waiting_bulk b = true.

Lemma passed_gate s es i a :
  counted s → Z.of_nat (length (run s es).2) < u64_modulus →
  (∀ b, s.2 !! i = Some b → aq_lane b = Lane.Bulk → waiting_bulk b = true) →
  (run s es).2 !! i = Some a → aq_lane a = Lane.Bulk → waiting_bulk a = false →
  ∃ es1 es2, es = es1 ++ es2 ∧ quiet_moment (run s es1) i.
Proof.
  revert s. induction es as [|e es IH]; intros s Hc Hl Hs Ha Hbulk Hpast; [by rewrite (Hs _ Ha Hbulk) in Hpast|].
  pose proof (run_length s (e :: es)) as Hlen. change (run s (e :: es)) with (run (event s e) es) in *.
  assert (Hcut : (∀ b, (event s e).2 !! i = Some b → aq_lane b = Lane.Bulk → waiting_bulk b = true) ∨
    ∃ b, (event s e).2 !! i = Some b ∧ aq_lane b = Lane.Bulk ∧ waiting_bulk b = false).
  { destruct ((event s e).2 !! i) as [b|]; [|by left]. destruct (waiting_bulk b) eqn:E; [left; by intros ? [= <-]|].
    destruct (aq_lane b) eqn:El; [left; intros ? [= <-]; congruence|]. right. by exists b. }
  destruct Hcut as [Hcut|(b & Hb & Hlb & Hwb)].
  - destruct (IH (event s e)) as (es1 & es2 & -> & Hq); [by apply event_counted|done..|]. by exists (e :: es1), es2.
  - exists [], (e :: es). split; [done|]. change (run s []) with s. destruct (s.2 !! i) as [b0|] eqn:Hi.
    + destruct (event_keeps s e i b0 Hi) as (b1 & Hb1 & Hl1 & _). assert (Hw0 : waiting_bulk b0 = true) by (apply Hs; [done|congruence]).
      pose proof (event_gate s e i b0 b Hi Hb Hw0 Hwb) as Hz. rewrite (counted_exact s Hc) in Hz by lia.
      split; [|by exists b0]. apply flying_none. pose proof (flying_range s.2). lia.
    + apply (event_new s e i b Hi) in Hb. unfold waiting_bulk in Hwb. by rewrite Hlb, Hb in Hwb.
Qed.

(** A waiting bulk call that has not missed a notification: it is not between
    its test of the counter and its listener, and not parked since the last
    notification. *)
Definition alert (l : Limiter) (a : Acquire) : Prop :=
  match aq_pc a with AGate WSeen => False | AGate (WParked since) => since ≠ lm_notified l | _ => True end.

Lemma run_own_step l ts i a now pc :
  ts !! i = Some a → aq_dropped a = false → acquire_step now a l = (pc, l) →
  event (l, ts) (Run i, now) = (l, <[i := set_pc pc a]> ts) ∧ <[i := set_pc pc a]> ts !! i = Some (set_pc pc a).
Proof.
  intros Hi Hd Hs. cbn [event fst snd]. rewrite Hi, Hd, Hs. split; [done|]. apply list_lookup_insert_eq. by eapply lookup_lt_Some.
Qed.

(** With the counter at zero, an alert bulk call is past its gate after two
    steps of its own. *)
Lemma gate_opens l ts i a now :
  lm_priority_waiting l = 0 → ts !! i = Some a → aq_dropped a = false → waiting_bulk a = true → alert l a →
  ∃ n a', (n ≤ 2)%nat ∧ (run (l, ts) (replicate n (Run i, now))).2 !! i = Some a' ∧ waiting_bulk a' = false.
Proof.
  intros Hz. assert (Hcheck : ∀ ts a, ts !! i = Some a → aq_dropped a = false → aq_lane a = Lane.Bulk → aq_pc a = AGate WCheck →
    ∃ a', (event (l, ts) (Run i, now)).2 !! i = Some a' ∧ waiting_bulk a' = false).
  { clear ts a. intros ts a Hi Hd Hl Hp. destruct (run_own_step l ts i a now ABucket Hi Hd) as [-> Hn].
    - unfold acquire_step, wait_step. rewrite Hp, Hz. done.
    - eexists. split; [exact Hn|]. unfold waiting_bulk. cbn. by rewrite Hl. }
  intros Hi Hd Hw Ha. unfold waiting_bulk, alert in *. destruct (aq_lane a) eqn:Hl; [done|].
  destruct (aq_pc a) as [|w| | | | | | | |] eqn:Hp; try done.
  - exists 2%nat. destruct (run_own_step l ts i a now (AGate WCheck) Hi Hd) as [He Hn]; [unfold acquire_step; by rewrite Hp, Hl|].
    destruct (Hcheck _ _ Hn) as (a' & Ha' & Hb); [done..|]. exists a'. split; [done|]. split; [|done].
    cbn [replicate run foldl]. by rewrite He.
  - destruct w as [| |since]; [|done|].
    + exists 1%nat. destruct (Hcheck ts a Hi Hd Hl Hp) as (a' & Ha' & Hb). exists a'. split; [lia|by split].
    + exists 2%nat. destruct (run_own_step l ts i a now (AGate WCheck) Hi Hd) as [He Hn].
      { unfold acquire_step, wait_step. rewrite Hp. by rewrite bool_decide_false. }
      destruct (Hcheck _ _ Hn) as (a' & Ha' & Hb); [done..|]. exists a'. split; [done|]. split; [|done].
      cbn [replicate run foldl]. by rewrite He.
Qed.

(** The priority acquisitions that are under way: counted and not dropped. *)
Definition under_way (ts : list Acquire) : list Acquire := filter (λ a, in_flight a = true ∧ aq_dropped a = false) ts.

Lemma flying_under_way ts :
  Forall (λ a, aq_lane a = Lane.Priority → aq_dropped a = false) ts → flying ts = Z.of_nat (length (under_way ts)).
Proof.
  induction 1 as [|a ts Ha _ IH]; [done|]. cbn [flying]. unfold under_way in *. rewrite filter_cons.
  destruct (in_flight a) eqn:Hf.
  - rewrite decide_True; [cbn [length Z.b2z]; lia|]. split; [done|]. apply Ha. unfold in_flight in Hf. by destruct (aq_lane a).
  - rewrite decide_False by naive_solver. cbn [Z.b2z]. lia.
Qed.

(** C29: Bulk yields to priority traffic and to nothing else. Under any
    interleaving of acquisitions, retunings and drops of bulk calls, in which
    no priority call is dropped midway: the counter is the number of priority acquisitions
    in flight, without wrapping; every bulk call that is past its gate left
    it after a moment at which none was in flight; and once the priority
    queue has drained, a waiting bulk call is past its gate after at most two
    steps of its own, unless it has missed the last notification
    ([bulk_misses_notification]). (Dropped priority calls are excluded
    because the code never uncounts them: [dropped_priority_starves_bulk].) *)
Theorem bulk_yields_to_priority g p t es l ts :
  run (new g p t, []) es = (l, ts) → Z.of_nat (length ts) < u64_modulus →
  Forall (λ a, aq_lane a = Lane.Priority → aq_dropped a = false) ts →
  lm_priority_waiting l = Z.of_nat (length (under_way ts)) ∧
  (∀ i a, ts !! i = Some a → aq_lane a = Lane.Bulk → waiting_bulk a = false →
    ∃ es1 es2, es = es1 ++ es2 ∧ quiet_moment (run (new g p t, []) es1) i) ∧
  (under_way ts = [] → ∀ i a now, ts !! i = Some a → aq_dropped a = false → waiting_bulk a = true → alert l a →
    ∃ n a', (n ≤ 2)%nat ∧ (run (l, ts) (replicate n (Run i, now))).2 !! i = Some a' ∧ waiting_bulk a' = false).
Proof.
  intros Hr Hl Hnd. pose proof (run_counted _ es (new_counted g p t)) as Hc.
  assert (Hn : lm_priority_waiting l = Z.of_nat (length (under_way ts))).
  { rewrite <- flying_under_way by done. rewrite Hr in Hc. by apply (counted_exact (l, ts)). }
  split_and!; [done| |].
  - intros i a Hi Hb Hw. apply (passed_gate _ es i a (new_counted g p t)); rewrite ?Hr; try done.
  - intros Hz i a now Hi Hd Hw Ha. apply (gate_opens l ts i a now); [by rewrite Hn, Hz|done..].
Qed.

(** A priority acquisition dropped while it sleeps off its debt is counted
    for ever: no bulk acquisition that waits then is ever admitted, whatever
    happens later. *)
Theorem dropped_priority_starves_bulk g p t es es' i j a b :
  let s := run (new g p t, []) es in
  s.2 !! i = Some a → in_flight a = true → aq_dropped a = true → s.2 !! j = Some b → waiting_bulk b = true →
  Z.of_nat (length (run s es').2) < u64_modulus →
  ∃ b', (run s es').2 !! j = Some b' ∧ waiting_bulk b' = true.
Proof.
  cbv zeta. pose proof (run_counted _ es (new_counted g p t)) as Hc. set (s := run (new g p t, []) es) in *. clearbody s.
  intros Hi Hf Hd Hj Hw Hl. destruct (run_keeps s es' j b Hj) as (b' & Hb' & Hlb & _). exists b'. split; [done|].
  destruct (waiting_bulk b') eqn:Hw'; [done|]. exfalso.
  destruct (passed_gate s es' j b' Hc Hl) as (es1 & es2 & -> & Hq & _); [congruence|done| |done|].
  - rewrite Hlb. unfold waiting_bulk in Hw. by destruct (aq_lane b).
  - destruct (run_keeps s es1 i a Hi) as (a' & Ha' & _ & Hsame). rewrite (Hsame Hd) in Ha'.
    pose proof (Forall_lookup_1 _ _ _ _ Hq Ha') as Hn. cbn in Hn. congruence.
Qed.

(** ** Runs *)

Definition peer0 : NodeId := fill 16 x0a.
Definition steps (i n : nat) : list (Event * Z) := replicate n (Run i, 0).

(** A priority and a bulk call of which the first is done before the second
    starts. *)
Definition one_after_other : list (Event * Z) :=
  [(Spawn Lane.Priority peer0 10, 0); (Spawn Lane.Bulk peer0 10, 0)] ++ steps 0 6 ++ steps 1 6.

Lemma bulk_yields_to_priority_witness :
  lm_priority_waiting (run (new 0 0 0, []) one_after_other).1 = 0 ∧
  ∃ es1 es2, one_after_other = es1 ++ es2 ∧ quiet_moment (run (new 0 0 0, []) es1) 1.
Proof.
  destruct (bulk_yields_to_priority 0 0 0 one_after_other (run (new 0 0 0, []) one_after_other).1
    (run (new 0 0 0, []) one_after_other).2 (surjective_pairing _)) as (Hn & Hg & _);
    [vm_compute; reflexivity|vm_decide|]. split.
  - rewrite Hn. vm_compute. reflexivity.
  - apply (Hg 1%nat (mkAcquire Lane.Bulk peer0 10 ADone false)); [vm_compute; reflexivity|done|done].
Defined.

(** At 100 bytes per second a call for 500 sleeps; it is dropped there, as
    the fetches of a removed member are. *)
Definition dropped_asleep : list (Event * Z) :=
  [(Spawn Lane.Priority peer0 500, 0); (Spawn Lane.Bulk peer0 10, 0)] ++ steps 0 3 ++ [(Drop 0, 0)].

Lemma dropped_priority_starves_bulk_witness :
  ∃ b', (run (run (new 100 0 0, []) dropped_asleep) (steps 1 50)).2 !! 1%nat = Some b' ∧ waiting_bulk b' = true.
Proof.
  eapply (dropped_priority_starves_bulk 100 0 0 dropped_asleep (steps 1 50) 0 1); [vm_compute; reflexivity..|].
  vm_compute. reflexivity.
Defined.

(** A bulk call that has tested the counter but does not listen yet misses
    the notification of the last priority call: nothing is in flight, and it
    waits until some later priority call ends. *)
Definition missed : list (Event * Z) :=
  [(Spawn Lane.Priority peer0 10, 0); (Spawn Lane.Bulk peer0 10, 0)] ++ steps 0 1 ++ steps 1 2 ++ steps 0 5 ++ steps 1 1.

Theorem bulk_misses_notification :
  let s := run (new 0 0 0, []) missed in
  lm_priority_waiting s.1 = 0 ∧ Forall (λ a, in_flight a = false) s.2 ∧
  ∀ n, (run s (steps 1 n)).2 !! 1%nat = Some (mkAcquire Lane.Bulk peer0 10 (AGate (WParked 1)) false).
Proof.
  cbv zeta. split; [vm_compute; reflexivity|]. split; [vm_decide|]. intros n.
  assert (Hfix : ∀ s, s = run (new 0 0 0, []) missed → run s (steps 1 n) = s).
  { induction n as [|n IH]; intros s Hs; [done|]. cbn [steps replicate]. change (run s ((Run 1, 0) :: replicate n (Run 1, 0))) with (run (event s (Run 1, 0)) (steps 1 n)).
    assert (He : event s (Run 1, 0) = s) by (subst s; vm_compute; reflexivity). rewrite He. by apply IH. }
  rewrite (Hfix _ eq_refl). vm_compute. reflexivity.
Qed.
