(* ===== verification/Config.v ===== *)
(** * Node configuration (src/src/config.rs)

    Semantic validation of the parsed document, the checks against the file
    system, the classified difference of two configurations and the reload
    that applies its hot part. TOML, hexadecimal decoding and the texts of an
    address and of a number are parameters. *)

From Stdlib Require Import Ascii.
From stdpp Require Import pretty.
From S2P Require Import Prelude Vv Metadata Conflict State Admin Membership Suppress Chunk Fs Apply Ingest Float Qos.

(** ** The document *)

Record RawPeer : Type := mkRawPeer { rp_node_id : string; rp_addr : SocketAddr; rp_fingerprint : string }.
Record RawScheduleRule : Type := mkRawScheduleRule {
  rs_days : list string;
  rs_start : string;
  rs_end : string;
  rs_global_bps : Z;
  rs_per_peer_bps : Z;
}.
Record RawBandwidth : Type := mkRawBandwidth {
  rb_global_bps : Z;
  rb_per_peer_bps : Z;
  rb_small_asset_bytes : Z;
  rb_schedule : list RawScheduleRule;
}.

(** Paths are texts; [None] is an absent key without a default. *)
Record RawConfig : Type := mkRawConfig {
  raw_node_id : string;
  raw_listen : SocketAddr;
  raw_share_dir : string;
  raw_db_path : string;
  raw_cas_dir : option string;
  raw_cert_path : string;
  raw_key_path : string;
  raw_health_listen : option SocketAddr;
  raw_trust : option string;
  raw_roster_path : option string;
  raw_control_socket : option string;
  raw_peers : option (list RawPeer);
  raw_seed_peers : option (list RawPeer);
  raw_quiesce_ms : Z;
  raw_scan_interval_secs : Z;
  raw_reconcile_interval_secs : Z;
  raw_max_file_bytes : Z;
  raw_chunk_min_bytes : Z;
  raw_chunk_avg_bytes : Z;
  raw_chunk_max_bytes : Z;
  raw_per_file_chunk_concurrency : Z;
  raw_max_concurrent_transfers : Z;
  raw_serve_concurrency : Z;
  raw_owner_policy : string;
  raw_bandwidth : RawBandwidth;
  raw_reserve_bytes : Z;
  raw_reserve_percent : f64;
}.

Record BandwidthCfg : Type := mkBandwidthCfg {
  bw_global_bps : Z;
  bw_per_peer_bps : Z;
  bw_small_asset_bytes : Z;
  bw_schedule : list ScheduleRule;
}.

Record Config : Type := mkConfig {
  c_node_id : NodeId;
  c_listen : SocketAddr;
  c_share_dir : string;
  c_db_path : string;
  c_cas_dir : string;
  c_cert_path : string;
  c_key_path : string;
  c_health_listen : option SocketAddr;
  c_admin_pubkey : option AdminPubKey;
  c_roster_path : string;
  c_control_socket : string;
  c_peers : list Peer;
  c_quiesce_ms : Z;
  c_scan_interval_secs : Z;
  c_reconcile_interval_secs : Z;
  c_max_file_bytes : Z;
  c_chunk_min_bytes : Z;
  c_chunk_avg_bytes : Z;
  c_chunk_max_bytes : Z;
  c_per_file_chunk_concurrency : Z;
  c_max_concurrent_transfers : Z;
  c_serve_concurrency : Z;
  c_owner_policy : OwnerPolicy;
  c_bandwidth : BandwidthCfg;
  c_reserve_bytes : Z;
  c_reserve_percent : f64;
}.

#[export] Instance bandwidth_eq_dec : EqDecision BandwidthCfg.
Proof. solve_decision. Defined.
#[export] Instance config_eq_dec : EqDecision Config.
Proof. solve_decision. Defined.

Module ConfigError.
Inductive t : Type :=
| Io (path : string) (k : IoKind)
| Toml
| BadNodeId (got : string)
| BadFingerprint (peer got : string)
| DuplicateNode (node : string)
| BadShareDir (path : string)
| PathInsideShare (what path : string)
| BadChunkSizes (min avg max : Z)
| BadAdminPubkey (got : string)
| PeersAndSeedPeers
| Invalid (what : string).
End ConfigError.
Abbreviation ConfigError := ConfigError.t.

(** [toml::from_str] on the document, [hex::decode], and the texts of an
    address and of a number. *)
Class Toml := toml_from_str : string → option RawConfig.
Class HexDecode := hex_decode : string → option (list byte).
Class Texts := { addr_text : SocketAddr → string; f64_text : f64 → string }.

(** ** Defaults *)

Definition default_quiesce_ms : Z := 300.
Definition default_scan_interval_secs : Z := 5.
Definition default_reconcile_interval_secs : Z := 300.
Definition default_max_file_bytes : Z := 64 * 1024 * 1024.
Definition default_chunk_min_bytes : Z := 256 * 1024.
Definition default_chunk_avg_bytes : Z := 1024 * 1024.
Definition default_chunk_max_bytes : Z := 4 * 1024 * 1024.
Definition default_per_file_chunk_concurrency : Z := 6.
Definition default_max_concurrent_transfers : Z := 8.
Definition default_serve_concurrency : Z := 16.
Definition default_owner_policy : string := "numeric".
Definition default_reserve_bytes : Z := 256 * 1024 * 1024.
Definition default_small_asset_bytes : Z := 256 * 1024.
Definition default_bandwidth : RawBandwidth := mkRawBandwidth 0 0 default_small_asset_bytes [].

(** ** Parsing of fields *)

(** The text before and after the first [c]. *)
Fixpoint split_once (c : ascii) (s : string) : option (string * string) :=
  match s with
  | EmptyString => None
  | String a s =>
      if bool_decide (a = c) then Some (EmptyString, s)
      else '(l, r) ← split_once c s; Some (String a l, r)
  end.

(** [str::parse::<u16>]: an optional plus sign, digits, no overflow. *)
Fixpoint digits (s : string) (acc : Z) : option Z :=
  match s with
  | EmptyString => Some acc
  | String a s =>
      let d := Z.of_nat (nat_of_ascii a) - 48 in
      if bool_decide (0 ≤ d ≤ 9 ∧ acc * 10 + d < 65536) then digits s (acc * 10 + d) else None
  end.
Definition parse_u16 (s : string) : option Z :=
  match s with
  | EmptyString => None
  | String a rest =>
      if bool_decide (a = "+"%char) then (if bool_decide (rest = "") then None else digits rest 0) else digits s 0
  end.

Definition parse_hhmm (s : string) : option Z :=
  '(h, m) ← split_once ":"%char s;
  h ← parse_u16 h;
  m ← parse_u16 m;
  if bool_decide (h < 24 ∧ m < 60) then Some (h * 60 + m) else None.

Definition known_day (d : string) : bool :=
  bool_decide (d ∈ ["all"; "weekday"; "weekend"; "sun"; "mon"; "tue"; "wed"; "thu"; "fri"; "sat"]).

Definition validate_rule (r : RawScheduleRule) : result ConfigError ScheduleRule :=
  if forallb known_day (rs_days r) then
    match parse_hhmm (rs_start r) with
    | None => Err (ConfigError.Invalid "bandwidth.schedule: bad start")
    | Some start_min =>
        match parse_hhmm (rs_end r) with
        | None => Err (ConfigError.Invalid "bandwidth.schedule: bad end")
        | Some end_min => Ok (mkScheduleRule (rs_days r) start_min end_min (rs_global_bps r) (rs_per_peer_bps r))
        end
    end
  else Err (ConfigError.Invalid "bandwidth.schedule: unknown day").

Definition validate_schedule (raw : list RawScheduleRule) : result ConfigError (list ScheduleRule) :=
  traverse_list validate_rule raw.

(** [Path::with_extension]: the last component, its suffix after the last dot
    replaced; names that start with their only dot have no suffix. *)
Fixpoint rsplit_dot (s : string) : option string :=
  match s with
  | EmptyString => None
  | String a s =>
      match rsplit_dot s with
      | Some l => Some (String a l)
      | None => if bool_decide (a = "."%char) then Some EmptyString else None
      end
  end.
Definition file_stem (name : string) : string :=
  match rsplit_dot name with Some EmptyString | None => name | Some stem => stem end.
Definition strip_trailing (segs : list string) : list string :=
  reverse ((fix go l := match l with "" :: l | "." :: l => go l | l => l end) (reverse segs)).
Definition with_extension (path ext : string) : string :=
  match last (strip_trailing (segments path)) with
  | None | Some "" | Some ".." => path
  | Some name => path_text (removelast (strip_trailing (segments path)) ++ [file_stem name +:+ "." +:+ ext])
  end.

Module ConfigCheck.
Section with_externals.
Context `{!Toml, !HexDecode}.

Definition parse_node_id (s : string) : result ConfigError NodeId :=
  match hex_decode s ≫= array_of_list 16 with Some id => Ok id | None => Err (ConfigError.BadNodeId s) end.
Definition parse_fingerprint (peer s : string) : result ConfigError hash32 :=
  match hex_decode s ≫= array_of_list 32 with Some fp => Ok fp | None => Err (ConfigError.BadFingerprint peer s) end.
Definition pubkey_from_hex (s : string) : option AdminPubKey := hex_decode s ≫= array_of_list 32.

(** The loop over the peers, with the node ids seen. *)
Fixpoint parse_peers (seen : list NodeId) (raw : list RawPeer) : result ConfigError (list Peer) :=
  match raw with
  | [] => Ok []
  | rp :: raw =>
      pid ← parse_node_id (rp_node_id rp);
      if bool_decide (pid ∈ seen) then Err (ConfigError.DuplicateNode (rp_node_id rp)) else
      fp ← parse_fingerprint (rp_node_id rp) (rp_fingerprint rp);
      rest ← parse_peers (seen ++ [pid]) raw;
      Ok (mkPeer pid (rp_addr rp) fp :: rest)
  end.

Definition percent_ok (p : f64) : bool := F64.leb F64.zero p && F64.leb p (F64.of_int 95).

Definition parse_owner_policy (s : string) : result ConfigError OwnerPolicy :=
  if bool_decide (s = "numeric") then Ok OwnerPolicy.Numeric
  else if bool_decide (s = "skip") then Ok OwnerPolicy.Skip
  else Err (ConfigError.Invalid "owner_policy must be numeric or skip").

(** [from_toml_str] after the parse of the document. *)
Definition validate (raw : RawConfig) : result ConfigError Config :=
  node_id ← parse_node_id (raw_node_id raw);
  raw_peers ← match raw_peers raw, raw_seed_peers raw with
    | Some _, Some _ => Err ConfigError.PeersAndSeedPeers
    | Some p, None | None, Some p => Ok p
    | None, None => Ok []
    end;
  peers ← parse_peers [node_id] raw_peers;
  let min := raw_chunk_min_bytes raw in
  let avg := raw_chunk_avg_bytes raw in
  let max := raw_chunk_max_bytes raw in
  if bool_decide (min < 4096 ∨ avg < min ∨ max < avg ∨ 64 * 1024 * 1024 < max) then Err (ConfigError.BadChunkSizes min avg max) else
  let cas_dir := default (with_extension (raw_db_path raw) "cas") (raw_cas_dir raw) in
  let roster_path := default (with_extension (raw_db_path raw) "roster.json") (raw_roster_path raw) in
  let control_socket := default (with_extension (raw_db_path raw) "sock") (raw_control_socket raw) in
  admin_pubkey ← match raw_trust raw with
    | Some t => match pubkey_from_hex t with Some k => Ok (Some k) | None => Err (ConfigError.BadAdminPubkey t) end
    | None => Ok None
    end;
  let b := raw_bandwidth raw in
  schedule ← validate_schedule (rb_schedule b);
  if negb (percent_ok (raw_reserve_percent raw)) then Err (ConfigError.Invalid "reserve_percent must be within 0..=95") else
  owner_policy ← parse_owner_policy (raw_owner_policy raw);
  Ok (mkConfig node_id (raw_listen raw) (raw_share_dir raw) (raw_db_path raw) cas_dir (raw_cert_path raw) (raw_key_path raw)
        (raw_health_listen raw) admin_pubkey roster_path control_socket peers
        (raw_quiesce_ms raw) (raw_scan_interval_secs raw) (raw_reconcile_interval_secs raw) (raw_max_file_bytes raw)
        min avg max (raw_per_file_chunk_concurrency raw) (raw_max_concurrent_transfers raw) (raw_serve_concurrency raw) owner_policy
        (mkBandwidthCfg (rb_global_bps b) (rb_per_peer_bps b) (rb_small_asset_bytes b) schedule)
        (raw_reserve_bytes raw) (raw_reserve_percent raw)).

Definition from_toml_str (text : string) : result ConfigError Config :=
  match toml_from_str text with Some raw => validate raw | None => Err ConfigError.Toml end.
End with_externals.
End ConfigCheck.

(** ** The file system *)

(** The parts of a path text: absolute or not, and its components. *)
Definition components (path : string) : bool * list string :=
  (is_absolute path, filter (λ c, c ≠ "" ∧ c ≠ ".") (segments path)).

(** [Path::starts_with] *)
Definition starts_with (p base : bool * list string) : bool :=
  bool_decide (p.1 = base.1) && bool_decide (base.2 `prefix_of` p.2).

Section files.
Context (w : World) (cwd : FsPath).

(** [Path::canonicalize] *)
Definition canonicalize (path : string) : result Errno FsPath :=
  namei LINK_MAX w (if is_absolute path then [] else cwd) (segments path).
Definition is_dir_path (path : string) : bool :=
  match canonicalize path with Ok q => bool_decide (q = [] ∨ w !! q = Some Dir) | Err _ => false end.

(** The canonical form where there is one, the text as it is otherwise. *)
Definition effective_components (path : string) : bool * list string :=
  match canonicalize path with Ok q => (true, q) | Err _ => components path end.

Definition guarded_paths (cfg : Config) : list (string * string) :=
  [("db_path", c_db_path cfg); ("cas_dir", c_cas_dir cfg); ("cert_path", c_cert_path cfg); ("key_path", c_key_path cfg);
   ("roster_path", c_roster_path cfg); ("control_socket", c_control_socket cfg)].

(** The first path that lies in the share. *)
Fixpoint inside_share (share : FsPath) (l : list (string * string)) : option (string * string) :=
  match l with
  | [] => None
  | (what, path) :: l =>
      if starts_with (effective_components path) (true, share) then Some (what, path) else inside_share share l
  end.

Definition set_share_dir (share : string) (c : Config) : Config :=
  mkConfig (c_node_id c) (c_listen c) share (c_db_path c) (c_cas_dir c) (c_cert_path c) (c_key_path c) (c_health_listen c)
    (c_admin_pubkey c) (c_roster_path c) (c_control_socket c) (c_peers c) (c_quiesce_ms c) (c_scan_interval_secs c)
    (c_reconcile_interval_secs c) (c_max_file_bytes c) (c_chunk_min_bytes c) (c_chunk_avg_bytes c) (c_chunk_max_bytes c)
    (c_per_file_chunk_concurrency c) (c_max_concurrent_transfers c) (c_serve_concurrency c) (c_owner_policy c) (c_bandwidth c)
    (c_reserve_bytes c) (c_reserve_percent c).

(** [load]; [text] is what reading the file gives. *)
Definition load `{!Toml, !HexDecode} (path : string) (text : result IoKind string) : result ConfigError Config :=
  match text with
  | Err k => Err (ConfigError.Io path k)
  | Ok text =>
      cfg ← ConfigCheck.from_toml_str text;
      if negb (is_dir_path (c_share_dir cfg)) then Err (ConfigError.BadShareDir (c_share_dir cfg)) else
      match canonicalize (c_share_dir cfg) with
      | Err e => Err (ConfigError.Io (c_share_dir cfg) (io_kind e))
      | Ok share =>
          let cfg := set_share_dir ("/" +:+ path_text share) cfg in
          match inside_share share (guarded_paths cfg) with
          | Some (what, path) => Err (ConfigError.PathInsideShare what path)
          | None => Ok cfg
          end
      end
  end.
End files.

Definition pinned_fingerprints (cfg : Config) : list hash32 := p_fingerprint <$> c_peers cfg.
Definition peer_by_fingerprint (cfg : Config) (fp : hash32) : option Peer := head (filter (λ p, p_fingerprint p = fp) (c_peers cfg)).
Definition peer_by_node_id (cfg : Config) (id : NodeId) : option Peer := head (filter (λ p, p_node_id p = id) (c_peers cfg)).

(** ** Differences *)

Record ConfigChange : Type := mkConfigChange { ch_field : string; ch_hot : bool; ch_old : string; ch_new : string }.

Definition quoted (s : string) : string := String (ascii_of_nat 34) (s +:+ String (ascii_of_nat 34) "").

(** The derived debug text; the names of days have nothing to escape. *)
Definition rule_text (r : ScheduleRule) : string :=
  "ScheduleRule { days: [" +:+ String.concat ", " (quoted <$> sr_days r) +:+ "], start_min: " +:+ pretty (sr_start_min r) +:+
  ", end_min: " +:+ pretty (sr_end_min r) +:+ ", global_bps: " +:+ pretty (sr_global_bps r) +:+ ", per_peer_bps: " +:+
  pretty (sr_per_peer_bps r) +:+ " }".
Definition bandwidth_text (b : BandwidthCfg) : string :=
  "BandwidthCfg { global_bps: " +:+ pretty (bw_global_bps b) +:+ ", per_peer_bps: " +:+ pretty (bw_per_peer_bps b) +:+
  ", small_asset_bytes: " +:+ pretty (bw_small_asset_bytes b) +:+ ", schedule: [" +:+
  String.concat ", " (rule_text <$> bw_schedule b) +:+ "] }".

Section diff.
Context `{!Hex, !Texts}.

Definition peer_text (p : Peer) : string :=
  hex_encode (ba_list (p_node_id p)) +:+ "@" +:+ addr_text (p_addr p) +:+ "#" +:+ hex_encode (ba_list (p_fingerprint p)).
Definition fmt_peers (peers : list Peer) : string := String.concat "," (sort_by ord_leb (peer_text <$> peers)).
Definition reserve_text (c : Config) : string := pretty (c_reserve_bytes c) +:+ "B/" +:+ f64_text (c_reserve_percent c) +:+ "%".

Definition note (field : string) (hot : bool) (old new : string) : list ConfigChange :=
  if bool_decide (old ≠ new) then [mkConfigChange field hot old new] else [].

Definition diff (c d : Config) : list ConfigChange :=
  let key k := default "" ((λ k, hex_encode (ba_list k)) <$> k) in
  note "admin_pubkey" true (key (c_admin_pubkey c)) (key (c_admin_pubkey d))
  ++ note "peers" true (fmt_peers (c_peers c)) (fmt_peers (c_peers d))
  ++ note "bandwidth" true (bandwidth_text (c_bandwidth c)) (bandwidth_text (c_bandwidth d))
  ++ note "reserve" true (reserve_text c) (reserve_text d)
  ++ note "node_id" false (hex_encode (ba_list (c_node_id c))) (hex_encode (ba_list (c_node_id d)))
  ++ note "listen" false (addr_text (c_listen c)) (addr_text (c_listen d))
  ++ note "share_dir" false (c_share_dir c) (c_share_dir d)
  ++ note "db_path" false (c_db_path c) (c_db_path d)
  ++ note "cas_dir" false (c_cas_dir c) (c_cas_dir d)
  ++ note "cert_path" false (c_cert_path c) (c_cert_path d)
  ++ note "key_path" false (c_key_path c) (c_key_path d)
  ++ note "roster_path" false (c_roster_path c) (c_roster_path d)
  ++ note "control_socket" false (c_control_socket c) (c_control_socket d)
  ++ note "health_listen" false (default "" (addr_text <$> c_health_listen c)) (default "" (addr_text <$> c_health_listen d)).

(** ** Reload (src/src/net.rs) *)

Context `{!Blake3, !Ed25519}.

(** What a reload writes: the membership, the bandwidth policy, the rates in
    force and the reserve. The percentage is stored in hundredths. *)
Record LiveSettings : Type := mkLiveSettings {
  ls_membership : Inner;
  ls_policy : BandwidthCfg;
  ls_rates : Z * Z;
  ls_reserve_bytes : Z;
  ls_reserve_pct_bp : Z;
}.

Definition intent_of (c : Config) : IntentConfig :=
  mkIntentConfig (c_node_id c) (c_admin_pubkey c) (c_roster_path c) (c_peers c).

(** [(percent * 100.0) as u64] *)
Definition hundredths (percent : f64) : Z := F64.to_u64 (F64.mul percent (F64.of_int 100)).

(** [boot] is the configuration the engine was started with. *)
Definition reload (disk : Disk) (fault : ReadFault) (boot candidate : Config) (s : LiveSettings)
  : LiveSettings * result MembershipError (list ConfigChange) :=
  let changes := diff boot candidate in
  match Membership.apply_reload disk fault (ls_membership s) (intent_of candidate) with
  | (m, Err e) => (mkLiveSettings m (ls_policy s) (ls_rates s) (ls_reserve_bytes s) (ls_reserve_pct_bp s), Err e)
  | (m, Ok _) =>
      (mkLiveSettings m (c_bandwidth candidate) (bw_global_bps (c_bandwidth candidate), bw_per_peer_bps (c_bandwidth candidate))
         (c_reserve_bytes candidate) (hundredths (c_reserve_percent candidate)), Ok changes)
  end.
End diff.
