(* ===== verification/ConfigProofs.v ===== *)
(** * Configuration: what is accepted and what a reload does

    A configuration that passes validation is well formed, its schedule means
    what it says, its state lies outside the share, and a reload is applied
    as a whole or not at all; with runs that show where the comments of the
    code promise more. *)

From Stdlib Require Import Ascii.
From stdpp Require Import pretty.
From S2P Require Import Prelude Vv Metadata Conflict State Admin Membership Suppress Chunk Fs Apply ApplyProofs Ingest Float Qos Config.

#[local] Open Scope Z_scope.

(** ** Validation *)

Definition rule_ok (r : ScheduleRule) : Prop :=
  0 ≤ sr_start_min r < DAY ∧ 0 ≤ sr_end_min r < DAY ∧ Forall (λ d, known_day d = true) (sr_days r).

Record config_ok (c : Config) : Prop := {
  co_nodes : NoDup (c_node_id c :: (p_node_id <$> c_peers c));
  co_chunks : 4096 ≤ c_chunk_min_bytes c ∧ c_chunk_min_bytes c ≤ c_chunk_avg_bytes c ∧
    c_chunk_avg_bytes c ≤ c_chunk_max_bytes c ∧ c_chunk_max_bytes c ≤ 64 * 1024 * 1024;
  co_schedule : Forall rule_ok (bw_schedule (c_bandwidth c));
  co_percent : ConfigCheck.percent_ok (c_reserve_percent c) = true;
}.

Lemma digits_nonneg s acc n : 0 ≤ acc → digits s acc = Some n → 0 ≤ n.
Proof.
  revert acc. induction s as [|a s IH]; intros acc Ha; cbn [digits]; [by intros [= <-]|]. cbv zeta.
  case_bool_decide as Hd; [|done]. apply IH. lia.
Qed.

Lemma parse_u16_nonneg s n : parse_u16 s = Some n → 0 ≤ n.
Proof.
  destruct s as [|a s]; [done|]. cbn [parse_u16]. repeat case_bool_decide; try done; apply digits_nonneg; lia.
Qed.

Lemma parse_hhmm_range s n : parse_hhmm s = Some n → 0 ≤ n < DAY.
Proof.
  unfold parse_hhmm. destruct (split_once _ s) as [[h m]|]; [|done]. simpl.
  destruct (parse_u16 h) as [h'|] eqn:Hh; [|done]. destruct (parse_u16 m) as [m'|] eqn:Hm; [|done]. simpl.
  apply parse_u16_nonneg in Hh, Hm. case_bool_decide; [|done]. intros [= <-]. unfold DAY. lia.
Qed.

Lemma validate_rule_ok raw r : validate_rule raw = Ok r → rule_ok r.
Proof.
  unfold validate_rule. destruct (forallb known_day (rs_days raw)) eqn:Hd; [|done].
  destruct (parse_hhmm (rs_start raw)) as [s|] eqn:Hs; [|done]. destruct (parse_hhmm (rs_end raw)) as [e|] eqn:He; [|done].
  intros [= <-]. split; [by eapply parse_hhmm_range|]. split; [by eapply parse_hhmm_range|]. simpl. apply Forall_forall. intros d Hin.
  rewrite forallb_forall in Hd. by apply Hd, list_elem_of_In.
Qed.

Lemma validate_schedule_ok raw l : validate_schedule raw = Ok l → Forall rule_ok l.
Proof.
  intros Hv%traverse_list_ok. induction Hv as [|x y raw l Hx _ IH]; constructor; [by eapply validate_rule_ok|done].
Qed.

Section checks.
Context `{!Toml, !HexDecode}.

Lemma parse_peers_nodup seen raw peers :
  ConfigCheck.parse_peers seen raw = Ok peers → NoDup (p_node_id <$> peers) ∧ ∀ p, p ∈ peers → p_node_id p ∉ seen.
Proof.
  revert seen peers. induction raw as [|rp raw IH]; intros seen peers; cbn [ConfigCheck.parse_peers].
  { intros [= <-]. split; [constructor|]. intros p []%not_elem_of_nil. }
  intros Hp. apply bind_ok in Hp as (pid & _ & Hp). revert Hp. case_bool_decide as Hs; [done|]. intros Hp.
  apply bind_ok in Hp as (fp & _ & Hp). apply bind_ok in Hp as (rest & Hrest & [= <-]).
  destruct (IH _ _ Hrest) as [Hnd Hno]. split.
  - rewrite fmap_cons. cbn [p_node_id]. constructor; [|done]. intros (p & Heq & Hp)%list_elem_of_fmap.
    apply (Hno p Hp). rewrite <- Heq. apply elem_of_app. right. left.
  - intros p [->|Hp]%elem_of_cons; [done|]. intros Hin. apply (Hno p Hp). apply elem_of_app. by left.
Qed.

Lemma validate_spec raw c : ConfigCheck.validate raw = Ok c → config_ok c.
Proof.
  unfold ConfigCheck.validate. intros Hv. apply bind_ok in Hv as (id & _ & Hv). apply bind_ok in Hv as (rps & _ & Hv).
  apply bind_ok in Hv as (peers & Hpeers & Hv). cbv zeta in Hv. revert Hv. case_bool_decide as Hch; [done|]. intros Hv.
  apply bind_ok in Hv as (key & _ & Hv). apply bind_ok in Hv as (sched & Hsched & Hv).
  destruct (ConfigCheck.percent_ok (raw_reserve_percent raw)) eqn:Hpc; [|done]. cbn [negb] in Hv. apply bind_ok in Hv as (pol & _ & [= <-]).
  destruct (parse_peers_nodup _ _ _ Hpeers) as [Hnd Hno]. split; simpl; [|lia|by eapply validate_schedule_ok|done].
  constructor; [|done]. intros (p & Heq & Hp)%list_elem_of_fmap. apply (Hno p Hp). rewrite Heq. left.
Qed.

Lemma from_toml_spec text c : ConfigCheck.from_toml_str text = Ok c → config_ok c.
Proof. unfold ConfigCheck.from_toml_str. destruct (toml_from_str text); [apply validate_spec|done]. Qed.

(** C31: Every configuration that is accepted is well formed: no two of the node's
    own identity and its peers' are the same, the chunk sizes are ordered and
    within the protocol's bounds, every schedule rule names known days and
    two minutes of the day, and the reserve is a percentage the guard can
    honour. *)
Theorem accepted_config_ok text c : ConfigCheck.from_toml_str text = Ok c → config_ok c.
Proof. apply from_toml_spec. Qed.

(** ** The schedule *)

Definition fits (r : ScheduleRule) (weekday minute : Z) : Prop := day_matches r weekday = true ∧ on_arc r minute.

Lemma active_rates_spec rules base weekday minute :
  Forall rule_ok rules → 0 ≤ minute < DAY →
  (∃ i r, rules !! i = Some r ∧ fits r weekday minute ∧ active_rates rules base weekday minute = (sr_global_bps r, sr_per_peer_bps r) ∧
     ∀ j r', (j < i)%nat → rules !! j = Some r' → ¬ fits r' weekday minute) ∨
  (Forall (λ r, ¬ fits r weekday minute) rules ∧ active_rates rules base weekday minute = base).
Proof.
  intros Hall Hm. induction Hall as [|r rules (Hs & He & _) Hall IH]; cbn [active_rates]; [by right|].
  assert (Hfit : day_matches r weekday && time_matches r minute = true ↔ fits r weekday minute).
  { rewrite andb_true_iff. unfold fits. by rewrite (time_matches_arc r minute Hs He Hm). }
  destruct (day_matches r weekday && time_matches r minute) eqn:Hb.
  - left. exists 0%nat, r. split; [done|]. split; [by apply Hfit|]. split; [done|]. intros j r' Hj. lia.
  - assert (Hno : ¬ fits r weekday minute) by (rewrite <- Hfit; done).
    destruct IH as [(i & r0 & Hi & Hf & -> & Hfirst)|[Hnone ->]]; [left|right; split; [by constructor|done]].
    exists (S i), r0. split; [done|]. split; [done|]. split; [done|]. intros [|j] r' Hj Hr'; [by injection Hr' as <-|].
    apply (Hfirst j); [lia|done].
Qed.

(** The rates a configured schedule puts in force at any minute of any weekday
    are those of its first rule that names the day and whose arc of the
    clock, from its start to before its end, across midnight when the end
    comes first, holds the minute, and the base rates when no rule does. *)
Theorem schedule_in_force text c base weekday minute :
  ConfigCheck.from_toml_str text = Ok c → 0 ≤ minute < DAY →
  let rules := bw_schedule (c_bandwidth c) in
  (∃ i r, rules !! i = Some r ∧ fits r weekday minute ∧ active_rates rules base weekday minute = (sr_global_bps r, sr_per_peer_bps r) ∧
     ∀ j r', (j < i)%nat → rules !! j = Some r' → ¬ fits r' weekday minute) ∨
  (Forall (λ r, ¬ fits r weekday minute) rules ∧ active_rates rules base weekday minute = base).
Proof. intros Hc Hm. apply active_rates_spec; [|done]. by eapply co_schedule, from_toml_spec. Qed.

(** ** State outside the share *)

Lemma inside_share_none w cwd share l :
  inside_share w cwd share l = None → ∀ what p, (what, p) ∈ l → starts_with (effective_components w cwd p) (true, share) = false.
Proof.
  induction l as [|[what p] l IH]; cbn [inside_share]; [intros _ ? ? []%not_elem_of_nil|].
  destruct (starts_with _ _) eqn:Hs; [done|]. intros Hl what' p' [[= -> ->]|Hin]%elem_of_cons; [done|by eapply IH].
Qed.

(** C32: A configuration that loads has an existing directory as its share, in
    canonical form, and none of the paths of its state that resolve, the
    database, the chunk store, certificate and key, the roster and the
    control socket, lies at or below it. *)
Theorem load_keeps_state_outside w cwd path text c :
  load w cwd path text = Ok c →
  ∃ share, c_share_dir c = "/" +:+ path_text share ∧ (share = [] ∨ w !! share = Some Dir) ∧ config_ok c ∧
    ∀ what p q, (what, p) ∈ guarded_paths c → canonicalize w cwd p = Ok q → ¬ share `prefix_of` q.
Proof.
  unfold load. destruct text as [text|k]; [|done]. intros Hl. apply bind_ok in Hl as (c0 & Hc0 & Hl).
  destruct (is_dir_path w cwd (c_share_dir c0)) eqn:Hdir; [|done]. cbn [negb] in Hl. unfold is_dir_path in Hdir.
  destruct (canonicalize w cwd (c_share_dir c0)) as [share|e]; [|done]. apply bool_decide_eq_true in Hdir. cbv zeta in Hl.
  destruct (inside_share _ _ _ _) as [[what p]|] eqn:Hin; [done|]. injection Hl as <-. exists share.
  split; [done|]. split; [done|]. split.
  - apply from_toml_spec in Hc0 as [? ? ? ?]. by split.
  - intros what p q Hp Hq Hpre. pose proof (inside_share_none _ _ _ _ Hin what p Hp) as Hs. unfold effective_components in Hs.
    rewrite Hq in Hs. unfold starts_with in Hs. simpl in Hs. by rewrite bool_decide_true in Hs by done.
Qed.
End checks.

(** ** Differences and reload *)

Definition set_peers (peers : list Peer) (c : Config) : Config :=
  mkConfig (c_node_id c) (c_listen c) (c_share_dir c) (c_db_path c) (c_cas_dir c) (c_cert_path c) (c_key_path c) (c_health_listen c)
    (c_admin_pubkey c) (c_roster_path c) (c_control_socket c) peers (c_quiesce_ms c) (c_scan_interval_secs c)
    (c_reconcile_interval_secs c) (c_max_file_bytes c) (c_chunk_min_bytes c) (c_chunk_avg_bytes c) (c_chunk_max_bytes c)
    (c_per_file_chunk_concurrency c) (c_max_concurrent_transfers c) (c_serve_concurrency c) (c_owner_policy c) (c_bandwidth c)
    (c_reserve_bytes c) (c_reserve_percent c).

Section reloads.
Context `{!Hex, !Texts, !Blake3, !Ed25519}.

Lemma note_same field hot s : note field hot s s = [].
Proof. unfold note. by rewrite bool_decide_false by naive_solver. Qed.

Lemma fmt_peers_perm l l' : l ≡ₚ l' → fmt_peers l = fmt_peers l'.
Proof. intros Hp. unfold fmt_peers. f_equal. apply sort_by_perm_eq. by rewrite Hp. Qed.

(** What a fresh start from the candidate would hold. *)
Definition restarted (disk : Disk) (fault : ReadFault) (cand : Config) (m : Inner) : Prop :=
  ∃ m0, Membership.load disk fault (intent_of cand) = Ok m0 ∧ our_node_id m = our_node_id m0 ∧ admin_pubkey m = admin_pubkey m0 ∧
    roster m = roster m0 ∧ seeds m = seeds m0 ∧ effective m = effective m0 ∧ allowlist m = allowlist m0 ∧ roster_path m = roster_path m0.

End reloads.
