(* ===== verification/ConfigWitness.v ===== *)
(** * A configuration loaded and reloaded

    The properties of the configuration on one document, and runs that show
    where a reload or a check does other than its comment says. *)

From Stdlib Require Import Ascii.
From stdpp Require Import pretty.
From S2P Require Import Prelude Vv Metadata Conflict State Admin Membership MembershipProofs Suppress Chunk Fs Apply ApplyProofs Ingest Float Qos.
From S2P Require Import Config ConfigProofs.
Import RosterEx.

#[local] Open Scope Z_scope.

(** ** The document *)

Definition percent1 : f64 := F64.div (F64.of_int 5) (F64.of_int 2).
Definition night : RawScheduleRule := mkRawScheduleRule ["weekday"] "22:00" "06:30" 10 5.
Definition raw1 : RawConfig :=
  mkRawConfig "0123456789abcdef" (ex_addr 7000) "/srv" "/var/a.db" None "/etc/c" "/etc/k" None None None None
    (Some [mkRawPeer "fedcba9876543210" (ex_addr 7001) "0123456789abcdef0123456789abcdef";
           mkRawPeer "fedcba987654321x" (ex_addr 7002) "0123456789abcdef0123456789abcdex"]) None
    default_quiesce_ms default_scan_interval_secs default_reconcile_interval_secs default_max_file_bytes
    default_chunk_min_bytes default_chunk_avg_bytes default_chunk_max_bytes default_per_file_chunk_concurrency
    default_max_concurrent_transfers default_serve_concurrency default_owner_policy
    (mkRawBandwidth 100 50 default_small_asset_bytes [night]) default_reserve_bytes percent1.

(** Stand-ins: the document is known by its name, and digits stand for
    themselves. *)
#[local] Instance named_toml : Toml := λ text, if bool_decide (text = "a.toml") then Some raw1 else None.
#[local] Instance plain_decode : HexDecode := λ s, Some (str_bytes s).
#[local] Instance plain_texts : Texts := {|
  addr_text a := pretty (port_of a);
  f64_text q := pretty (hundredths q) +:+ "/100";
|}.
#[local] Instance plain_hex : Hex := toy_hex.


Definition id_of (s : string) : NodeId := to_array 16 (str_bytes s).
Definition fp_of (s : string) : hash32 := to_array 32 (str_bytes s).
Definition peer1 : Peer := mkPeer (id_of "fedcba9876543210") (ex_addr 7001) (fp_of "0123456789abcdef0123456789abcdef").
Definition peer2 : Peer := mkPeer (id_of "fedcba987654321x") (ex_addr 7002) (fp_of "0123456789abcdef0123456789abcdex").
Definition rule1 : ScheduleRule := mkScheduleRule ["weekday"] 1320 390 10 5.
Definition config_with (roster_path owner : string) (q : Z) (rules : list ScheduleRule) : Config :=
  mkConfig (id_of "0123456789abcdef") (ex_addr 7000) "/srv" "/var/a.db" "/var/a.cas" "/etc/c" "/etc/k" None None roster_path "/var/a.sock"
    [peer1; peer2] q 5 300 (64 * 1024 * 1024) (256 * 1024) (1024 * 1024) (4 * 1024 * 1024) 6 8 16
    (if bool_decide (owner = "skip") then OwnerPolicy.Skip else OwnerPolicy.Numeric)
    (mkBandwidthCfg 100 50 (256 * 1024) rules) (256 * 1024 * 1024) percent1.
Definition config1 : Config := config_with "/var/a.roster.json" "numeric" 300 [rule1].

Lemma config1_parsed : ConfigCheck.from_toml_str "a.toml" = Ok config1.
Proof.
  assert (H : match ConfigCheck.from_toml_str "a.toml" with Ok c => bool_decide (c = config1) | Err _ => false end = true) by (vm_compute; reflexivity).
  destruct (ConfigCheck.from_toml_str "a.toml"); [|done]. by apply bool_decide_eq_true in H as ->.
Qed.

Lemma accepted_config_ok_witness : NoDup (c_node_id config1 :: (p_node_id <$> c_peers config1)).
Proof. apply co_nodes, (accepted_config_ok "a.toml"), config1_parsed. Defined.

Lemma schedule_in_force_witness :
  (∃ i r, [rule1] !! i = Some r ∧ fits r 1 1439 ∧ active_rates [rule1] (100, 50) 1 1439 = (sr_global_bps r, sr_per_peer_bps r) ∧
     ∀ j r', (j < i)%nat → [rule1] !! j = Some r' → ¬ fits r' 1 1439) ∨
  (Forall (λ r, ¬ fits r 1 1439) [rule1] ∧ active_rates [rule1] (100, 50) 1 1439 = (100, 50)).
Proof.
  apply (schedule_in_force "a.toml" config1 (100, 50) 1 1439).
  - apply config1_parsed.
  - unfold DAY. lia.
Defined.

(** Friday night's last minute is limited, Saturday's first is not. *)
Example night_rates :
  active_rates [rule1] (100, 50) 5 1439 = (10, 5) ∧ active_rates [rule1] (100, 50) 6 0 = (100, 50).
Proof. by vm_compute. Qed.

Definition host_tree : World :=
  <[["srv"] := Dir]> (<[["srv"; "f"] := Reg [x01] ex_attr]> (<[["var"] := Dir]> (<[["etc"] := Dir]>
    (<[["mnt"] := Lnk (str_bytes "srv") ex_attr]> ∅)))).

Lemma load_keeps_state_outside_witness :
  ∃ share, c_share_dir config1 = "/" +:+ path_text share ∧ (share = [] ∨ host_tree !! share = Some Dir) ∧ config_ok config1 ∧
    ∀ what p q, (what, p) ∈ guarded_paths config1 → canonicalize host_tree [] p = Ok q → ¬ share `prefix_of` q.
Proof. apply (load_keeps_state_outside host_tree [] "a.toml" (Ok "a.toml") config1).
  unfold load. rewrite config1_parsed. vm_compute. reflexivity.
Defined.

(** ** Reload *)

Definition settings1 : LiveSettings :=
  mkLiveSettings (mkInner (c_node_id config1) None "/var/a.roster.json" (c_peers config1) ∅ ∅ ∅ 0) (c_bandwidth config1) (10, 5) 0 0.
Definition reloaded (cand : Config) : LiveSettings := (reload ∅ ReadOk config1 cand settings1).1.


(** ** Limits *)

(** The path of the roster is reported as a change that needs a restart, and
    moves all the same: the next signed entry is saved to the new path. *)
Theorem reload_moves_roster_path :
  let cand := config_with "/var/b.json" "numeric" 300 [rule1] in
  (reload ∅ ReadOk config1 cand settings1).2 = Ok [mkConfigChange "roster_path" false "/var/a.roster.json" "/var/b.json"] ∧
  roster_path (ls_membership (reloaded cand)) = "/var/b.json".
Proof. cbv zeta. split; vm_compute; reflexivity. Qed.

(** A candidate that differs in the ownership policy and the quiescence time
    differs in nothing that is reported. *)
Theorem diff_leaves_out_settings :
  let cand := config_with "/var/a.roster.json" "skip" 9000 [rule1] in
  c_owner_policy cand ≠ c_owner_policy config1 ∧ c_quiesce_ms cand ≠ c_quiesce_ms config1 ∧ diff config1 cand = [].
Proof. cbv zeta. split; [done|]. split; [done|]. vm_compute. reflexivity. Qed.

(** Differences are against the configuration of the start: after a reload
    drops the schedule, a reload that restores it reports nothing, though it
    changes the policy in force. *)
Theorem reload_back_reports_nothing :
  let cand := config_with "/var/a.roster.json" "numeric" 300 [] in
  let s := reloaded cand in
  bw_schedule (ls_policy s) = [] ∧
  (reload ∅ ReadOk config1 config1 s).2 = Ok [] ∧ bw_schedule (ls_policy (reload ∅ ReadOk config1 config1 s).1) = [rule1].
Proof. cbv zeta. split; [|split]; vm_compute; reflexivity. Qed.

(** A path that does not exist yet is compared as it is written: a database
    that will be created through a link into the share, or relative to a
    working directory in it, is accepted. *)
Theorem load_accepts_state_in_share :
  let fresh db := mkConfig (c_node_id config1) (c_listen config1) "/srv" db "/var/a.cas" "/etc/c" "/etc/k" None None "/r" "/s" [] 300 5 300 0
    (256 * 1024) (1024 * 1024) (4 * 1024 * 1024) 6 8 16 OwnerPolicy.Numeric (c_bandwidth config1) 0 F64.zero in
  inside_share host_tree [] ["srv"] (guarded_paths (fresh "/mnt/a.db")) = None ∧
  inside_share host_tree ["srv"] ["srv"] (guarded_paths (fresh "a.db")) = None ∧
  let w := <[["srv"; "a.db"] := Reg [] ex_attr]> host_tree in
  canonicalize w [] "/mnt/a.db" = Ok ["srv"; "a.db"] ∧ canonicalize w ["srv"] "a.db" = Ok ["srv"; "a.db"].
Proof. cbv zeta. split; [|split; [|split]]; vm_compute; reflexivity. Qed.

(** The default of a path replaces the extension of the database's, and does
    not append one. *)
Theorem default_paths_replace_extension :
  ∃ c, ConfigCheck.from_toml_str "a.toml" = Ok c ∧ c_db_path c = "/var/a.db" ∧ c_cas_dir c = "/var/a.cas" ∧
    c_roster_path c = "/var/a.roster.json" ∧ c_control_socket c = "/var/a.sock".
Proof. exists config1. split; [apply config1_parsed|done]. Qed.
