(* ===== verification/Policy.v ===== *)
(** * Pausing, the free-space guard and the bandwidth policy (src/src/net.rs)

    The pause gate transfers wait at, the guard that trips it when a transfer
    would breach the reserve, the prober that lifts it, and the schedule
    tick. The flags are atomics shared by tasks; each task runs in atomic
    steps, in any order. What [statvfs] answers is an input of the step. *)

From S2P Require Import Prelude Vv Metadata Conflict State Admin Membership Suppress Chunk Fs Apply Ingest Float Qos Config.

(** ** Free space (src/src/qos.rs) *)

Record StatVfs : Type := mkStatVfs { f_bsize : Z; f_frsize : Z; f_blocks : Z; f_bavail : Z }.

(** Products wrap at 64 bits. *)
Definition available_above_reserve (sv : StatVfs) (reserve_bytes : Z) (reserve_percent : f64) : Z :=
  let frsize := if bool_decide (0 < f_frsize sv) then f_frsize sv else f_bsize sv in
  let avail := as_u64 (f_bavail sv * frsize) in
  let total := as_u64 (f_blocks sv * frsize) in
  let reserve := Z.max reserve_bytes (F64.to_u64 (F64.mul (F64.of_int total) (F64.div reserve_percent (F64.of_int 100)))) in
  Z.max 0 (avail - reserve).

(** The answers for the chunk store's and the share's file systems; [None]
    is an error. *)
Record Space : Type := mkSpace { sp_cas : option StatVfs; sp_share : option StatVfs }.

(** ** State *)

(** [ps_notified] counts the calls of [notify_waiters]. *)
Record PolicyState : Type := mkPolicyState {
  ps_paused : bool;
  ps_guard_paused : bool;
  ps_notified : nat;
  ps_trips : Z;
  ps_reserve_bytes : Z;
  ps_reserve_pct_bp : Z;
  ps_bandwidth : BandwidthCfg;
  ps_limiter : Limiter;
}.

(** A call of [guard_free_space]: about to check the space, to swap the
    guard's flag, to test the pause, to pause, at the gate, or returned. *)
Inductive GuardPc : Type :=
| GSpace
| GSwap
| GTest
| GPause
| GWait (w : WaitPc)
| GPassed.

(** The prober's tick: the guard's flag, the space, then the two stores and
    the notification of a resume. *)
Inductive ProbePc : Type :=
| PTest
| PSpace
| PClear
| PStore
| PNotify.

Inductive Task : Type :=
| Push (w : WaitPc)
| Pushed
| Guard (incoming : Z) (pc : GuardPc)
| Prober (pc : ProbePc)
| ResumeStore
| ResumeNotify
| Resumed.

Module Policy.
Definition set_flags (paused guard : bool) (s : PolicyState) : PolicyState :=
  mkPolicyState paused guard (ps_notified s) (ps_trips s) (ps_reserve_bytes s) (ps_reserve_pct_bp s) (ps_bandwidth s) (ps_limiter s).
Definition notify_waiters (s : PolicyState) : PolicyState :=
  mkPolicyState (ps_paused s) (ps_guard_paused s) (S (ps_notified s)) (ps_trips s) (ps_reserve_bytes s) (ps_reserve_pct_bp s)
    (ps_bandwidth s) (ps_limiter s).
Definition count_trip (s : PolicyState) : PolicyState :=
  mkPolicyState (ps_paused s) (ps_guard_paused s) (ps_notified s) (u64_add (ps_trips s) 1) (ps_reserve_bytes s) (ps_reserve_pct_bp s)
    (ps_bandwidth s) (ps_limiter s).
Definition set_limiter (l : Limiter) (s : PolicyState) : PolicyState :=
  mkPolicyState (ps_paused s) (ps_guard_paused s) (ps_notified s) (ps_trips s) (ps_reserve_bytes s) (ps_reserve_pct_bp s)
    (ps_bandwidth s) l.

Definition pause (s : PolicyState) : PolicyState := set_flags true (ps_guard_paused s) s.
Definition unpause (s : PolicyState) : PolicyState := set_flags false (ps_guard_paused s) s.
Definition is_paused (s : PolicyState) : bool := ps_paused s.

(** One step of [await_unpaused]; [None] when it returns. *)
Definition await_unpaused (w : WaitPc) (s : PolicyState) : option WaitPc := wait_step (ps_paused s) (ps_notified s) w.

Definition fits_fs (s : PolicyState) (incoming : Z) (sv : option StatVfs) : bool :=
  match sv with
  | Some sv =>
      bool_decide (incoming ≤ available_above_reserve sv (ps_reserve_bytes s)
        (F64.div (F64.of_int (ps_reserve_pct_bp s)) (F64.of_int 100)))
  | None => false
  end.
Definition free_space_ok (sp : Space) (incoming : Z) (s : PolicyState) : bool :=
  fits_fs s incoming (sp_cas sp) && fits_fs s incoming (sp_share sp).

Definition guard_step (sp : Space) (incoming : Z) (pc : GuardPc) (s : PolicyState) : GuardPc * PolicyState :=
  match pc with
  | GSpace => (if free_space_ok sp incoming s then GPassed else GSwap, s)
  | GSwap => (if ps_guard_paused s then GWait WCheck else GTest, set_flags (ps_paused s) true s)
  | GTest => (if is_paused s then GWait WCheck else GPause, s)
  | GPause => (GWait WCheck, pause (count_trip s))
  | GWait w => (match await_unpaused w s with Some w => GWait w | None => GSpace end, s)
  | GPassed => (GPassed, s)
  end.

Definition MARGIN : Z := 1048576.

Definition probe_step (sp : Space) (pc : ProbePc) (s : PolicyState) : ProbePc * PolicyState :=
  match pc with
  | PTest => (if ps_guard_paused s then PSpace else PTest, s)
  | PSpace => (if free_space_ok sp MARGIN s then PClear else PTest, s)
  | PClear => (PStore, set_flags (ps_paused s) false s)
  | PStore => (PNotify, unpause s)
  | PNotify => (PTest, notify_waiters s)
  end.

Definition task_step (sp : Space) (t : Task) (s : PolicyState) : Task * PolicyState :=
  match t with
  | Push w => (match await_unpaused w s with Some w => Push w | None => Pushed end, s)
  | Guard incoming pc => let '(pc, s) := guard_step sp incoming pc s in (Guard incoming pc, s)
  | Prober pc => let '(pc, s) := probe_step sp pc s in (Prober pc, s)
  | ResumeStore => (ResumeNotify, unpause s)
  | ResumeNotify => (Resumed, notify_waiters s)
  | Pushed | Resumed => (t, s)
  end.

(** The schedule's part of the tick, given the local clock. *)
Definition schedule_tick (weekday minute now : Z) (s : PolicyState) : PolicyState :=
  let policy := ps_bandwidth s in
  if bool_decide (bw_schedule policy = []) then s
  else
    let '(g, p) := active_rates (bw_schedule policy) (bw_global_bps policy, bw_per_peer_bps policy) weekday minute in
    if bool_decide ((g, p) ≠ Limiter.rates (ps_limiter s)) then set_limiter (Limiter.set_rates g p now (ps_limiter s)) s else s.

Definition bandwidth_rates (s : PolicyState) : Z * Z := Limiter.rates (ps_limiter s).
Definition set_bandwidth (global_bps per_peer_bps now : Z) (s : PolicyState) : PolicyState :=
  set_limiter (Limiter.set_rates global_bps per_peer_bps now (ps_limiter s)) s.

(** What starts a task: a transfer at the pause gate, a guarded transfer, the
    prober, an operator's resume. *)
Inductive Start : Type :=
| StartPush
| StartGuard (incoming : Z)
| StartProber
| StartResume.
Definition started (k : Start) : Task :=
  match k with
  | StartPush => Push WCheck
  | StartGuard incoming => Guard incoming GSpace
  | StartProber => Prober PTest
  | StartResume => ResumeStore
  end.

Inductive Event : Type :=
| Spawn (k : Start)
| Run (i : nat) (sp : Space)
| PauseCommand
| ScheduleTick (weekday minute now : Z)
| SetBandwidth (global_bps per_peer_bps now : Z).

Definition event (st : PolicyState * list Task) (e : Event) : PolicyState * list Task :=
  let '(s, ts) := st in
  match e with
  | Spawn k => (s, ts ++ [started k])
  | Run i sp => match ts !! i with Some t => let '(t, s) := task_step sp t s in (s, <[i := t]> ts) | None => st end
  | PauseCommand => (pause s, ts)
  | ScheduleTick weekday minute now => (schedule_tick weekday minute now s, ts)
  | SetBandwidth g p now => (set_bandwidth g p now s, ts)
  end.

Definition run (st : PolicyState * list Task) (es : list Event) : PolicyState * list Task := foldl event st es.
End Policy.
