(* ===== verification/PolicyProofs.v ===== *)
(** * Pausing and the free-space guard: properties

    A guarded transfer starts only above the reserve, a resume releases the
    tasks that wait for it, and a pause of the guard ends when space is back;
    with the interleavings under which each of the comments fails. *)

From S2P Require Import Prelude Vv Metadata Conflict State Admin Membership Suppress Chunk Fs Apply Ingest Float Qos Config Policy.
Import Policy.

#[local] Open Scope Z_scope.

(** ** Steps *)

Lemma run_snoc st es e : run st (es ++ [e]) = event (run st es) e.
Proof. unfold run. by rewrite foldl_app. Qed.
Lemma policy_run_app st es es' : run st (es ++ es') = run (run st es) es'.
Proof. unfold run. by rewrite foldl_app. Qed.

(** What an event leaves of the tasks. *)
Lemma event_tasks st e i t : (event st e).2 !! i = Some t →
  (∃ k, st.2 !! i = None ∧ t = started k) ∨ st.2 !! i = Some t ∨
  (∃ sp t0, e = Run i sp ∧ st.2 !! i = Some t0 ∧ t = (task_step sp t0 st.1).1).
Proof.
  destruct st as [s ts], e as [k|j sp| |wd m now|g p now]; cbn [fst snd event]; intros Hi; try (right; left; done).
  - apply lookup_app_Some in Hi as [Hi|[Hge Hi]]; [by right; left|]. left. exists k.
    apply list_lookup_singleton_Some in Hi as [_ <-]. split; [by apply lookup_ge_None|done].
  - destruct (ts !! j) as [t0|] eqn:Hj; [|by right; left]. destruct (task_step sp t0 s) as [t1 s1] eqn:Hs. cbn [snd] in Hi.
    destruct (decide (i = j)) as [<-|Hne]; [|rewrite list_lookup_insert_ne in Hi by done; by right; left].
    rewrite list_lookup_insert_eq in Hi by (by eapply lookup_lt_Some). injection Hi as <-. right. right.
    exists sp, t0. by rewrite Hs.
Qed.

Lemma event_kept st e i t : st.2 !! i = Some t →
  (event st e).2 !! i = Some t ∨ ∃ sp, e = Run i sp ∧ event st e = ((task_step sp t st.1).2, <[i := (task_step sp t st.1).1]> st.2).
Proof.
  destruct st as [s ts], e as [k|j sp| |wd m now|g p now]; cbn [fst snd event]; intros Hi; try (left; done).
  - left. by rewrite lookup_app_l by (by eapply lookup_lt_Some).
  - destruct (decide (i = j)) as [<-|Hne].
    + right. exists sp. split; [done|]. rewrite Hi. by destruct (task_step sp t s).
    + left. destruct (ts !! j) as [t0|]; [|done]. destruct (task_step sp t0 s). cbn [snd]. by rewrite list_lookup_insert_ne.
Qed.

(** ** The reserve *)

Definition fragment (sv : StatVfs) : Z := if bool_decide (0 < f_frsize sv) then f_frsize sv else f_bsize sv.
Definition available (sv : StatVfs) : Z := as_u64 (f_bavail sv * fragment sv).
Definition share_of_total (s : PolicyState) (sv : StatVfs) : Z :=
  F64.to_u64 (F64.mul (F64.of_int (as_u64 (f_blocks sv * fragment sv)))
    (F64.div (F64.div (F64.of_int (ps_reserve_pct_bp s)) (F64.of_int 100)) (F64.of_int 100))).

(** [incoming] bytes leave both the bytes and the percentage of the reserve. *)
Definition above_reserve (s : PolicyState) (incoming : Z) (osv : option StatVfs) : Prop :=
  ∃ sv, osv = Some sv ∧ (0 < incoming → ps_reserve_bytes s + incoming ≤ available sv ∧ share_of_total s sv + incoming ≤ available sv).

Lemma fits_above s incoming osv : fits_fs s incoming osv = true → above_reserve s incoming osv.
Proof.
  unfold fits_fs. destruct osv as [sv|]; [|done]. intros Hf%bool_decide_eq_true. exists sv. split; [done|]. intros Hpos.
  unfold available_above_reserve in Hf. cbv zeta in Hf. fold (fragment sv) in Hf. fold (available sv) in Hf.
  fold (share_of_total s sv) in Hf. lia.
Qed.

Lemma passes_by_space sp t0 s incoming : (task_step sp t0 s).1 = Guard incoming GPassed →
  t0 = Guard incoming GPassed ∨ free_space_ok sp incoming s = true.
Proof.
  destruct t0 as [w| |n pc|pc| | |]; cbn; try done.
  - by destruct (await_unpaused w s).
  - destruct pc; cbn; try done.
    + destruct (free_space_ok sp n s) eqn:Hf; [|done]. intros [= <-]. by right.
    + by destruct (ps_guard_paused s).
    + by destruct (is_paused s).
    + by destruct (await_unpaused w s).
    + intros [= <-]. by left.
  - destruct pc; cbn; by repeat case_match.
Qed.

(** A guarded transfer starts only above the reserve. Under any interleaving
    of transfers, guards, prober, commands and schedule, a call of the guard
    has returned only after a step of its own at which both file systems
    answered and held the incoming bytes above the reserve in bytes and in
    percent as configured then; an error of the probe never lets one
    through. *)
Theorem guard_admits_above_reserve s0 es s ts i incoming :
  run (s0, []) es = (s, ts) → ts !! i = Some (Guard incoming GPassed) →
  ∃ es1 sp es2, es = es1 ++ Run i sp :: es2 ∧
    above_reserve (run (s0, []) es1).1 incoming (sp_cas sp) ∧ above_reserve (run (s0, []) es1).1 incoming (sp_share sp).
Proof.
  revert s ts. induction es as [|e es IH] using rev_ind; intros s ts Hr Hi; [by injection Hr as <- <-|].
  rewrite run_snoc in Hr. assert (Hi' : (event (run (s0, []) es) e).2 !! i = Some (Guard incoming GPassed)) by by rewrite Hr.
  destruct (event_tasks _ _ _ _ Hi') as [(k & _ & Hk)|[Hkept|(sp & t0 & -> & Ht0 & Hstep)]]; [by destruct k| |].
  - destruct (run (s0, []) es) as [s1 ts1]. destruct (IH s1 ts1 eq_refl Hkept) as (es1 & sp & es2 & -> & H).
    exists es1, sp, (es2 ++ [e]). by rewrite <- app_assoc.
  - symmetry in Hstep. destruct (passes_by_space _ _ _ _ Hstep) as [->|Hf].
    + destruct (run (s0, []) es) as [s1 ts1]. destruct (IH s1 ts1 eq_refl Ht0) as (es1 & sp1 & es2 & -> & H).
      exists es1, sp1, (es2 ++ [Run i sp]). by rewrite <- app_assoc.
    + exists es, sp, []. split; [done|]. unfold free_space_ok in Hf. apply andb_true_iff in Hf as [Hc Hs].
      split; by apply fits_above.
Qed.

(** ** Resuming *)

(** How many steps of its own an unpaused transfer is from passing. *)
Definition rank (s : PolicyState) (t : Task) : option nat :=
  match t with
  | Pushed => Some 0%nat
  | Push WCheck => Some 1%nat
  | Push (WParked since) => if bool_decide (since < ps_notified s)%nat then Some 2%nat else None
  | _ => None
  end.

Lemma notified_grows sp t s : (ps_notified s ≤ ps_notified (task_step sp t s).2)%nat.
Proof.
  destruct t as [w| |n pc|pc| | |]; cbn; try lia.
  - destruct pc; cbn; lia.
  - destruct pc; cbn; lia.
Qed.

Lemma event_notified st e : (ps_notified st.1 ≤ ps_notified (event st e).1)%nat.
Proof.
  destruct st as [s ts], e as [k|j sp| |wd m now|g p now]; cbn [fst snd event]; try done.
  - destruct (ts !! j) as [t|]; [|done]. pose proof (notified_grows sp t s). by destruct (task_step sp t s).
  - unfold schedule_tick. case_bool_decide; [done|]. destruct (active_rates _ _ _ _). by case_bool_decide.
Qed.

Definition is_step (i : nat) (e : Event) : nat := match e with Run j _ => if bool_decide (i = j) then 1%nat else 0%nat | _ => 0%nat end.
Fixpoint steps_of (i : nat) (es : list Event) : nat :=
  match es with [] => 0%nat | e :: es => (is_step i e + steps_of i es)%nat end.

Lemma rank_mono s s' t r : (ps_notified s ≤ ps_notified s')%nat → rank s t = Some r → rank s' t = Some r.
Proof. intros Hn. destruct t as [[]| | | | | |]; cbn; try done. repeat case_bool_decide; try done. lia. Qed.

Lemma event_rank st e i t r :
  st.2 !! i = Some t → rank st.1 t = Some r → ps_paused st.1 = false →
  ∃ t' r', (event st e).2 !! i = Some t' ∧ rank (event st e).1 t' = Some r' ∧ (r' ≤ r - is_step i e)%nat.
Proof.
  intros Hi Hr Hp. pose proof (event_notified st e) as Hn.
  destruct (decide (is_step i e = 0%nat)) as [Hz|Hz].
  - exists t, r. destruct (event_kept st e i t Hi) as [Hk|(sp & -> & _)].
    + split; [done|]. split; [by eapply rank_mono|lia].
    + exfalso. cbn in Hz. by rewrite bool_decide_true in Hz.
  - destruct e as [|j sp| | |]; try done. cbn in Hz. case_bool_decide as Hij; [|done]. subst j. cbn [is_step].
    rewrite bool_decide_true by done. destruct st as [s ts]. cbn [fst snd] in *. cbn [event]. rewrite Hi.
    destruct t as [w| | | | | |]; try done.
    + cbn. unfold await_unpaused, wait_step. destruct w as [| |since]; try done.
      * rewrite Hp. exists Pushed, 0%nat. cbn. rewrite list_lookup_insert_eq by (by eapply lookup_lt_Some). split; [done|]. split; [done|lia].
      * cbn in Hr. case_bool_decide; [|done]. injection Hr as <-. rewrite bool_decide_false by lia.
        exists (Push WCheck), 1%nat. cbn. rewrite list_lookup_insert_eq by (by eapply lookup_lt_Some). split; [done|]. split; [done|lia].
    + cbn in Hr. injection Hr as <-. exists Pushed, 0%nat. cbn. rewrite list_lookup_insert_eq by (by eapply lookup_lt_Some).
      split; [done|]. split; [done|lia].
Qed.

Lemma rank_runs_down es st i t r :
  st.2 !! i = Some t → rank st.1 t = Some r → (∀ es1, es1 `prefix_of` es → ps_paused (run st es1).1 = false) → (r ≤ steps_of i es)%nat →
  (run st es).2 !! i = Some Pushed.
Proof.
  revert st t r. induction es as [|e es IH]; intros st t r Hi Hr Hp Hle.
  - cbn in Hle. assert (r = 0%nat) by lia. subst r. destruct t as [[]| | | | | |]; cbn in Hr; try done. by case_bool_decide.
  - destruct (event_rank st e i t r Hi Hr) as (t' & r' & Hi' & Hr' & Hle'); [by apply (Hp []), prefix_nil|].
    apply (IH (event st e) t' r' Hi' Hr').
    + intros es1 Hes1. by apply (Hp (e :: es1)), prefix_cons.
    + cbn [steps_of] in Hle. lia.
Qed.

(** Waiters were parked at a count of notifications of the past. *)
Definition parked_ok (s : PolicyState) (t : Task) : Prop :=
  match t with Push (WParked since) | Guard _ (GWait (WParked since)) => (since ≤ ps_notified s)%nat | _ => True end.

Lemma parked_ok_mono s s' t : (ps_notified s ≤ ps_notified s')%nat → parked_ok s t → parked_ok s' t.
Proof. intros Hn. destruct t as [[]| |n []| | | |]; cbn; try done; try lia. destruct w; lia. Qed.

Lemma event_parked st e : Forall (parked_ok st.1) st.2 → Forall (parked_ok (event st e).1) (event st e).2.
Proof.
  intros Hok. apply Forall_lookup. intros i t Hi. pose proof (event_notified st e) as Hn.
  destruct (event_tasks _ _ _ _ Hi) as [(k & _ & ->)|[Hk|(sp & t0 & -> & Ht0 & ->)]].
  - by destruct k.
  - eapply parked_ok_mono; [done|]. by eapply Forall_lookup_1.
  - pose proof (Forall_lookup_1 _ _ _ _ Hok Ht0) as H0. eapply parked_ok_mono; [done|]. destruct st as [s ts]. cbn [fst] in *.
    destruct t0 as [w| |n pc|pc| | |]; cbn; try done.
    + unfold await_unpaused, wait_step. destruct w; cbn; repeat case_match; cbn in *; simplify_eq; try done; lia.
    + destruct pc as [| | | |w|]; cbn; try (repeat case_match; cbn; done).
      unfold await_unpaused, wait_step. destruct w; cbn; repeat case_match; cbn in *; simplify_eq; try done; lia.
    + destruct pc; cbn; by repeat case_match.
Qed.

Lemma run_parked s0 es : Forall (parked_ok (run (s0, []) es).1) (run (s0, []) es).2.
Proof. induction es as [|e es IH] using rev_ind; [constructor|]. rewrite run_snoc. by apply event_parked. Qed.

Definition resume_now (st : PolicyState * list Task) : list Event :=
  let k := length st.2 in [Spawn StartResume; Run k (mkSpace None None); Run k (mkSpace None None)].

Lemma resume_effect s ts :
  ps_notified (run (s, ts) (resume_now (s, ts))).1 = S (ps_notified s) ∧ (run (s, ts) (resume_now (s, ts))).2 = ts ++ [Resumed].
Proof.
  unfold resume_now, run. cbn [snd foldl event started]. rewrite lookup_app_r, Nat.sub_diag by lia. cbn [lookup list_lookup].
  cbn [task_step]. rewrite insert_app_r_alt, Nat.sub_diag by lia. cbn [event]. rewrite lookup_app_r, Nat.sub_diag by lia.
  cbn. by rewrite insert_app_r_alt, Nat.sub_diag by lia.
Qed.

(** A resume releases the transfers that wait for it. In any reachable state
    and whatever runs afterwards, as long as nothing pauses again, a
    transfer that was parked or had yet to test the gate when the operator
    resumed has passed it after two steps of its own. *)
Theorem resume_releases s0 es0 es i w :
  let st := run (s0, []) es0 in
  let st1 := run st (resume_now st) in
  st.2 !! i = Some (Push w) → w ≠ WSeen →
  (∀ es1, es1 `prefix_of` es → ps_paused (run st1 es1).1 = false) → (2 ≤ steps_of i es)%nat →
  (run st1 es).2 !! i = Some Pushed.
Proof.
  cbv zeta. pose proof (run_parked s0 es0) as Hok. set (st := run (s0, []) es0) in *. clearbody st. destruct st as [s ts].
  intros Hi Hw Hp Hle. cbn [snd] in Hi. pose proof (Forall_lookup_1 _ _ _ _ Hok Hi) as Hwok.
  destruct (resume_effect s ts) as (Hn & Hts). set (st1 := run (s, ts) (resume_now (s, ts))) in *. clearbody st1.
  assert (Hi1 : st1.2 !! i = Some (Push w)) by (rewrite Hts; by apply lookup_app_l_Some).
  destruct w as [| |since]; [|done|].
  - by apply (rank_runs_down es st1 i (Push WCheck) 1); [| | |lia].
  - apply (rank_runs_down es st1 i (Push (WParked since)) 2); [done| |done|done]. cbn in *. by rewrite bool_decide_true by lia.
Qed.

(** ** Recovery *)

Fixpoint task_steps (n : nat) (sp : Space) (t : Task) (s : PolicyState) : Task * PolicyState :=
  match n with O => (t, s) | S n => let '(t, s) := task_step sp t s in task_steps n sp t s end.

Lemma run_task n sp i t s ts :
  ts !! i = Some t → run (s, ts) (replicate n (Run i sp)) = ((task_steps n sp t s).2, <[i := (task_steps n sp t s).1]> ts).
Proof.
  revert t s ts. induction n as [|n IH]; intros t s ts Hi; [by cbn; rewrite list_insert_id|].
  change (run (s, ts) (replicate (S n) (Run i sp))) with (run (event (s, ts) (Run i sp)) (replicate n (Run i sp))).
  cbn [event task_steps]. rewrite Hi. destruct (task_step sp t s) as [t' s'].
  rewrite (IH t' s') by (apply list_lookup_insert_eq; by eapply lookup_lt_Some). by rewrite list_insert_insert_eq.
Qed.

(** A pause of the guard ends when space is back: with the margin free again,
    one tick of the prober lifts the pause, and a guarded transfer that was
    parked passes in three steps when its bytes fit. *)
Theorem space_recovery_resumes s ts p i incoming since sp :
  ts !! p = Some (Prober PTest) → ts !! i = Some (Guard incoming (GWait (WParked since))) → (since ≤ ps_notified s)%nat →
  ps_guard_paused s = true → free_space_ok sp MARGIN s = true → free_space_ok sp incoming s = true →
  let st := run (s, ts) (replicate 5 (Run p sp) ++ replicate 3 (Run i sp)) in
  st.2 !! i = Some (Guard incoming GPassed) ∧ ps_paused st.1 = false ∧ ps_guard_paused st.1 = false.
Proof.
  intros Hp Hi Hsince Hg Hm Hf. cbv zeta. rewrite policy_run_app, (run_task 5 sp p _ _ _ Hp).
  assert (Hstep : task_steps 5 sp (Prober PTest) s = (Prober PTest, notify_waiters (unpause (set_flags (ps_paused s) false s)))).
  { cbn -[free_space_ok]. rewrite Hg. cbn -[free_space_ok]. by rewrite Hm. }
  rewrite Hstep. cbn [fst snd]. set (s1 := notify_waiters _).
  assert (Hi1 : <[p := Prober PTest]> ts !! i = Some (Guard incoming (GWait (WParked since)))) by by rewrite list_insert_id.
  rewrite (run_task 3 sp i _ s1 _ Hi1).
  assert (Hlast : task_steps 3 sp (Guard incoming (GWait (WParked since))) s1 = (Guard incoming GPassed, s1)).
  { cbn [task_steps task_step guard_step await_unpaused wait_step]. rewrite bool_decide_false by (cbn; lia).
    cbn -[free_space_ok]. change (free_space_ok sp incoming s1) with (free_space_ok sp incoming s). by rewrite Hf. }
  rewrite Hlast. cbn [fst snd]. split; [|done]. apply list_lookup_insert_eq. by eapply lookup_lt_Some.
Qed.
