(* ===== verification/PolicyWitness.v ===== *)
(** * The pause gate at work

    The properties of the gate, the guard and the prober on small runs, and
    the interleavings that break what their comments promise. *)

From S2P Require Import Prelude Vv Metadata Conflict State Admin Membership Suppress Chunk Fs Apply Ingest Float Qos Config.
From S2P Require Import Policy PolicyProofs.
Import Policy.

#[local] Open Scope Z_scope.

Definition plenty : Space := let sv := mkStatVfs 4096 4096 1000000 500000 in mkSpace (Some sv) (Some sv).
Definition full : Space := let sv := mkStatVfs 4096 4096 1000000 10 in mkSpace (Some sv) (Some sv).
Definition no_answer : Space := mkSpace None None.

Definition policy0 : PolicyState :=
  mkPolicyState false false 0 0 1048576 500 (mkBandwidthCfg 0 0 0 []) (Limiter.new 0 0 0).
Definition go (i n : nat) (sp : Space) : list Event := replicate n (Run i sp).

(** ** Witnesses *)

Lemma guard_admits_above_reserve_witness :
  let es := Spawn (StartGuard 4096) :: go 0 1 plenty in
  ∃ es1 sp es2, es = es1 ++ Run 0 sp :: es2 ∧
    above_reserve (run (policy0, []) es1).1 4096 (sp_cas sp) ∧ above_reserve (run (policy0, []) es1).1 4096 (sp_share sp).
Proof.
  cbv zeta. eapply (guard_admits_above_reserve policy0 _ (run (policy0, []) (Spawn (StartGuard 4096) :: go 0 1 plenty)).1
    (run (policy0, []) (Spawn (StartGuard 4096) :: go 0 1 plenty)).2 0 4096); [apply surjective_pairing|vm_compute; reflexivity].
Defined.

(** A transfer parks, the operator resumes, and it passes. *)
Definition parks : list Event := [PauseCommand; Spawn StartPush] ++ go 0 2 no_answer.

Lemma resume_releases_witness :
  (run (run (run (policy0, []) parks) (resume_now (run (policy0, []) parks))) (go 0 2 no_answer)).2 !! 0%nat = Some Pushed.
Proof.
  apply (resume_releases policy0 parks (go 0 2 no_answer) 0 (WParked 0)).
  - vm_compute. reflexivity.
  - done.
  - intros es1 [k Hk]. destruct es1 as [|e1 [|e2 [|e3 es1]]]; [|injection Hk as <- _|injection Hk as <- <- _|done]; vm_compute; reflexivity.
  - vm_compute. lia.
Defined.

Definition tripped : PolicyState * list Task := run (policy0, []) ([Spawn StartProber; Spawn (StartGuard 4096)] ++ go 1 6 full).

Lemma space_recovery_resumes_witness :
  let st := run tripped (replicate 5 (Run 0 plenty) ++ replicate 3 (Run 1 plenty)) in
  st.2 !! 1%nat = Some (Guard 4096 GPassed) ∧ ps_paused st.1 = false ∧ ps_guard_paused st.1 = false.
Proof.
  cbv zeta. rewrite (surjective_pairing tripped).
  apply (space_recovery_resumes tripped.1 tripped.2 0 1 4096 0 plenty); vm_compute; reflexivity.
Defined.

(** ** Limits *)

Lemma stuck st k i sp n : run st (go i k sp) = st → run st (go i (k * n) sp) = st.
Proof.
  intros Hk. induction n as [|n IH]; [by rewrite Nat.mul_0_r|]. unfold go in *. rewrite Nat.mul_succ_r, Nat.add_comm.
  by rewrite replicate_add, policy_run_app, Hk.
Qed.

(** An operator's pause is lifted by the prober: given while the guard holds
    its own pause, or before a guarded transfer meets a shortage, which
    raises the guard's flag also when the gate is closed already. *)
Theorem operator_pause_auto_resumed :
  let during := run tripped ([PauseCommand] ++ go 0 5 plenty) in
  let before := run (policy0, []) ([Spawn StartProber; Spawn (StartGuard 4096)] ++ go 1 1 full ++ [PauseCommand] ++ go 1 4 full) in
  ps_paused tripped.1 = true ∧ ps_paused during.1 = false ∧
  ps_paused before.1 = true ∧ ps_trips before.1 = 0 ∧ ps_paused (run before (go 0 5 plenty)).1 = false.
Proof. cbv zeta. repeat split; vm_compute; reflexivity. Qed.

(** A resume by the operator while the guard's flag is up and space is still
    short leaves a guarded transfer in a loop that never waits: it tests the
    space, finds the flag up, finds the gate open, and starts again. *)
Theorem resumed_guard_spins :
  let st := run tripped (Spawn StartResume :: go 2 2 full ++ go 1 2 full) in
  st.2 !! 1%nat = Some (Guard 4096 GSpace) ∧ ps_paused st.1 = false ∧
  (∀ k, (k < 3)%nat → ∃ pc, (run st (go 1 k full)).2 !! 1%nat = Some (Guard 4096 pc) ∧ pc ∈ [GSpace; GSwap; GWait WCheck]) ∧
  ∀ n, run st (go 1 (3 * n) full) = st.
Proof.
  cbv zeta. set (st := run tripped _). assert (H3 : run st (go 1 3 full) = st) by (vm_compute; reflexivity).
  split; [vm_compute; reflexivity|]. split; [vm_compute; reflexivity|]. split.
  - intros k Hk. destruct k as [|[|[|k]]]; [exists GSpace|exists GSwap|exists (GWait WCheck)|lia];
      (split; [vm_compute; reflexivity|rewrite !elem_of_cons; auto]).
  - intros n. by apply stuck.
Qed.

(** The prober runs between the guard's flag and its pause: the pause comes
    last, the flag is down, and no tick lifts it again. *)
Theorem guard_pause_sticks :
  let st := run (policy0, []) ([Spawn StartProber; Spawn (StartGuard 4096)] ++ go 1 3 full ++ go 0 5 plenty ++ go 1 3 plenty) in
  ps_paused st.1 = true ∧ st.2 !! 1%nat = Some (Guard 4096 (GWait (WParked 1))) ∧ ∀ n, run st (go 0 n plenty) = st.
Proof.
  cbv zeta. set (st := run (policy0, []) _). assert (H1 : run st (go 0 1 plenty) = st) by (vm_compute; reflexivity).
  split; [vm_compute; reflexivity|]. split; [vm_compute; reflexivity|]. intros n. rewrite <- (Nat.mul_1_l n). by apply stuck.
Qed.

(** A transfer that has tested the gate but does not listen yet misses the
    resume, and stays parked with the gate open. *)
Theorem push_misses_resume :
  let st := run (policy0, []) ([PauseCommand; Spawn StartPush; Spawn StartResume] ++ go 0 1 no_answer ++ go 1 2 no_answer ++ go 0 1 no_answer) in
  ps_paused st.1 = false ∧ st.2 !! 0%nat = Some (Push (WParked 1)) ∧ ∀ n, run st (go 0 n no_answer) = st.
Proof.
  cbv zeta. set (st := run (policy0, []) _). assert (H1 : run st (go 0 1 no_answer) = st) by (vm_compute; reflexivity).
  split; [vm_compute; reflexivity|]. split; [vm_compute; reflexivity|]. intros n. rewrite <- (Nat.mul_1_l n). by apply stuck.
Qed.

(** A percentage of 0.29 is kept as 28 hundredths. *)
Theorem reserve_percent_truncated : hundredths (F64.div (F64.of_int 29) (F64.of_int 100)) = 28.
Proof. vm_compute. reflexivity. Qed.
