(* ===== verification/Links.v ===== *)
(** * Links to the members of the mesh (src/src/net.rs)

    The admission of connections by pinned fingerprint, their registration
    with its re-check, the dial loops and the supervisor that matches both to
    the effective membership. Connections, dial loops, the supervisor and
    the membership's swaps run as interleaved steps; [close] is recorded by
    the stable id of the connection. *)

From S2P Require Import Prelude Vv Metadata Conflict State Admin Membership Peer.

(** Where the handling of a connection is: in the TLS handshake, at the
    binding to a peer, before the insertion into the registry, before the
    re-check, in the session, over, or dropped with its aborted dial loop. *)
Inductive LinkPc : Type :=
| LConnect
| LIdentify
| LInsert (peer : NodeId)
| LCheck (peer : NodeId)
| LRun (peer : NodeId)
| LEnd
| LAborted.

(** [ml_dial]: the dial loop the connection belongs to, none for an inbound
    one. [ml_fp]: the fingerprint of the certificate the far end presents. *)
Record MeshLink : Type := mkMeshLink { ml_conn : PeerConn; ml_fp : hash32; ml_dial : option nat; ml_pc : LinkPc }.

Record DialLoop : Type := mkDialLoop { dl_peer : Peer; dl_alive : bool }.

(** The supervisor: about to read the membership, starting the dial loops of
    the members it read, tearing down the rest, telling the join tracker,
    waiting for a change. *)
Inductive SupervisorPc : Type :=
| SCompute
| SSpawn (todo : list (NodeId * Peer)) (desired : gmap NodeId Peer)
| STear (todo : list NodeId) (desired : gmap NodeId Peer)
| SJoin
| SWait.

(** A change of the membership: the effective set is swapped, then the
    allowlist, then the subscribers are notified. *)
Inductive ChangePc : Type :=
| Stable
| Swapped
| Allowed.

Record Mesh : Type := mkMesh {
  me_effective : gmap NodeId Peer;
  me_allow : gset hash32;
  me_version : nat;
  me_change : ChangePc;
  me_sup : SupervisorPc;
  me_seen : nat;
  me_tasks : gmap NodeId nat;
  me_dials : list DialLoop;
  me_conns : ConnRegistry;
  me_closed : gset Z;
  me_links : list MeshLink;
}.

Module Mesh.
Section with_order.
Context `{!HashIter}.

Definition set_links (l : list MeshLink) (m : Mesh) : Mesh :=
  mkMesh (me_effective m) (me_allow m) (me_version m) (me_change m) (me_sup m) (me_seen m) (me_tasks m) (me_dials m) (me_conns m)
    (me_closed m) l.
Definition set_conns (c : ConnRegistry) (m : Mesh) : Mesh :=
  mkMesh (me_effective m) (me_allow m) (me_version m) (me_change m) (me_sup m) (me_seen m) (me_tasks m) (me_dials m) c
    (me_closed m) (me_links m).
Definition close (ids : list Z) (m : Mesh) : Mesh :=
  mkMesh (me_effective m) (me_allow m) (me_version m) (me_change m) (me_sup m) (me_seen m) (me_tasks m) (me_dials m) (me_conns m)
    (list_to_set ids ∪ me_closed m) (me_links m).
Definition set_sup (pc : SupervisorPc) (m : Mesh) : Mesh :=
  mkMesh (me_effective m) (me_allow m) (me_version m) (me_change m) pc (me_seen m) (me_tasks m) (me_dials m) (me_conns m)
    (me_closed m) (me_links m).
Definition set_seen (seen : nat) (m : Mesh) : Mesh :=
  mkMesh (me_effective m) (me_allow m) (me_version m) (me_change m) (me_sup m) seen (me_tasks m) (me_dials m) (me_conns m)
    (me_closed m) (me_links m).
Definition set_tasks (t : gmap NodeId nat) (m : Mesh) : Mesh :=
  mkMesh (me_effective m) (me_allow m) (me_version m) (me_change m) (me_sup m) (me_seen m) t (me_dials m) (me_conns m)
    (me_closed m) (me_links m).
Definition set_dials (d : list DialLoop) (m : Mesh) : Mesh :=
  mkMesh (me_effective m) (me_allow m) (me_version m) (me_change m) (me_sup m) (me_seen m) (me_tasks m) d (me_conns m)
    (me_closed m) (me_links m).

(** ** Admission *)

Definition pin_ok (allow : gset hash32) (fp : hash32) : bool := bool_decide (fp ∈ allow).

(** [HashMap::values().find(..)] over the effective peers. *)
Definition identify (effective : gmap NodeId Peer) (fp : hash32) : option NodeId :=
  (λ p, p_node_id p.2) <$> head (filter (λ p, p_fingerprint p.2 = fp) (hash_iter effective)).

(** The peer a connection is bound to: by its certificate when inbound, by
    the dialled peer's pin when outbound. *)
Definition bound_peer (m : Mesh) (l : MeshLink) : option NodeId :=
  match ml_dial l with
  | None => identify (me_effective m) (ml_fp l)
  | Some d =>
      p ← dl_peer <$> me_dials m !! d;
      if bool_decide (ml_fp l = p_fingerprint p) then Some (p_node_id p) else None
  end.

Definition set_pc (pc : LinkPc) (l : MeshLink) : MeshLink := mkMeshLink (ml_conn l) (ml_fp l) (ml_dial l) pc.

(** [register_authenticated] is the two steps at [LInsert] and [LCheck]. *)
Definition link_step (l : MeshLink) (m : Mesh) : LinkPc * Mesh :=
  match ml_pc l with
  | LConnect => (if pin_ok (me_allow m) (ml_fp l) then LIdentify else LEnd, m)
  | LIdentify => (match bound_peer m l with Some peer => LInsert peer | None => LEnd end, m)
  | LInsert peer => (LCheck peer, set_conns (ConnRegistry.insert (me_conns m) peer (ml_conn l)) m)
  | LCheck peer =>
      if bool_decide (peer ∈ p_node_id ∘ snd <$> hash_iter (me_effective m)) then (LRun peer, m)
      else (LEnd, close [pc_stable_id (ml_conn l)] (set_conns (ConnRegistry.remove_if_same (me_conns m) peer (ml_conn l)) m))
  | LRun peer => (LEnd, set_conns (ConnRegistry.remove_if_same (me_conns m) peer (ml_conn l)) m)
  | LEnd | LAborted => (ml_pc l, m)
  end.

(** ** Supervision *)

(** Aborting a dial loop drops the connection it awaits on; nothing after
    that await runs. *)
Definition abort_link (d : nat) (l : MeshLink) : MeshLink :=
  if bool_decide (ml_dial l = Some d)
  then match ml_pc l with LConnect | LRun _ => set_pc LAborted l | _ => l end
  else l.
Definition abort (d : nat) (m : Mesh) : Mesh :=
  let m := match me_dials m !! d with Some t => set_dials (<[d := mkDialLoop (dl_peer t) false]> (me_dials m)) m | None => m end in
  set_links (abort_link d <$> me_links m) m.

Definition needs_spawn (m : Mesh) (id : NodeId) (peer : Peer) : bool :=
  match me_tasks m !! id ≫= (me_dials m !!.) with
  | Some t => negb (dl_alive t) || bool_decide (p_addr (dl_peer t) ≠ p_addr peer) || bool_decide (p_fingerprint (dl_peer t) ≠ p_fingerprint peer)
  | None => true
  end.

Definition spawn (id : NodeId) (peer : Peer) (m : Mesh) : Mesh :=
  let m := match me_tasks m !! id with Some d => abort d m | None => m end in
  set_tasks (<[id := length (me_dials m)]> (me_tasks m)) (set_dials (me_dials m ++ [mkDialLoop peer true]) m).

Definition tear_down (id : NodeId) (m : Mesh) : Mesh :=
  let m := match me_tasks m !! id with Some d => set_tasks (delete id (me_tasks m)) (abort d m) | None => m end in
  let '(conns, closed) := ConnRegistry.close_all (me_conns m) id in
  close (pc_stable_id <$> closed) (set_conns conns m).

(** One step of [supervise]. *)
Definition sup_step (m : Mesh) : Mesh :=
  match me_sup m with
  | SCompute =>
      let desired := list_to_map ((λ p, (p_node_id p.2, p.2)) <$> hash_iter (me_effective m)) in
      set_sup (SSpawn (hash_iter desired) desired) m
  | SSpawn [] desired =>
      set_sup (STear (filter (λ id, desired !! id = None) ((hash_iter (me_tasks m)).*1)) desired) m
  | SSpawn ((id, peer) :: todo) desired =>
      set_sup (SSpawn todo desired) (if needs_spawn m id peer then spawn id peer m else m)
  | STear [] desired => set_sup SJoin m
  | STear (id :: todo) desired => set_sup (STear todo desired) (tear_down id m)
  | SJoin => set_sup SWait m
  | SWait => if bool_decide (me_seen m = me_version m) then m else set_sup SCompute (set_seen (me_version m) m)
  end.

(** ** Membership *)

Definition set_change (eff : gmap NodeId Peer) (allow : gset hash32) (version : nat) (pc : ChangePc) (m : Mesh) : Mesh :=
  mkMesh eff allow version pc (me_sup m) (me_seen m) (me_tasks m) (me_dials m) (me_conns m) (me_closed m) (me_links m).

Definition fingerprints (eff : gmap NodeId Peer) : gset hash32 := list_to_set (p_fingerprint ∘ snd <$> map_to_list eff).

(** A change begins with a new effective set and goes on until its
    notification. *)
Definition change_step (m : Mesh) : Mesh :=
  match me_change m with
  | Stable => m
  | Swapped => set_change (me_effective m) (fingerprints (me_effective m)) (me_version m) Allowed m
  | Allowed => set_change (me_effective m) (me_allow m) (S (me_version m)) Stable m
  end.

Inductive Event : Type :=
| Inbound (conn : PeerConn) (fp : hash32)
| Dial (d : nat) (conn : PeerConn) (fp : hash32)
| Step (i : nat)
| Supervise
| Change (eff : gmap NodeId Peer)
| Settle.

Definition busy (d : nat) (l : MeshLink) : bool :=
  bool_decide (ml_dial l = Some d) && match ml_pc l with LEnd | LAborted => false | _ => true end.

(** A dial loop connects when it is alive and its last session is over. *)
Definition event (m : Mesh) (e : Event) : Mesh :=
  match e with
  | Inbound conn fp => set_links (me_links m ++ [mkMeshLink conn fp None LConnect]) m
  | Dial d conn fp =>
      match me_dials m !! d with
      | Some t =>
          if dl_alive t && negb (existsb (busy d) (me_links m))
          then set_links (me_links m ++ [mkMeshLink conn fp (Some d) LConnect]) m else m
      | None => m
      end
  | Step i =>
      match me_links m !! i with
      | Some l => let '(pc, m) := link_step l m in set_links (<[i := set_pc pc l]> (me_links m)) m
      | None => m
      end
  | Supervise => sup_step m
  | Change eff => match me_change m with Stable => set_change eff (me_allow m) (me_version m) Swapped m | _ => m end
  | Settle => change_step m
  end.

Definition run (m : Mesh) (es : list Event) : Mesh := foldl event m es.

Definition start (eff : gmap NodeId Peer) : Mesh := mkMesh eff (fingerprints eff) 0 Stable SCompute 0 ∅ [] ∅ ∅ [].
End with_order.
End Mesh.
