(* ===== verification/LinksProofs.v ===== *)
(** * Removal from the mesh severs every link

    Registration and supervision together: once the supervisor has caught up
    with the membership, every registered connection belongs to a member or
    is about to be re-checked, provided the membership changes no faster
    than the supervisor follows; with runs that show what happens when it
    does, and what an aborted dial loop leaves behind. *)

From S2P Require Import Prelude Vv Metadata Conflict State Admin Membership MembershipProofs Peer Links.
Import Mesh.

Section links.
Context `{!HashIter, !HashIterLaws}.

Definition by_id (eff : gmap NodeId Peer) : Prop := map_Forall (λ n p, p_node_id p = n) eff.

(** The supervisor has followed every change. *)
Definition caught_up (m : Mesh) : Prop := me_sup m = SWait ∧ me_seen m = me_version m ∧ me_change m = Stable.

(** Each change begins when the supervisor has caught up, and files every
    peer under its own id. *)
Definition paced (m : Mesh) (es : list Event) : Prop :=
  ∀ es1 eff es2, es = es1 ++ Change eff :: es2 → caught_up (run m es1) ∧ by_id eff.

(** ** Iteration *)

Lemma elem_of_iter {V} (m : gmap NodeId V) n v : (n, v) ∈ hash_iter m ↔ m !! n = Some v.
Proof. rewrite (hash_iter_perm V m). apply elem_of_map_to_list. Qed.

Lemma ids_of_effective eff n : by_id eff → n ∈ p_node_id ∘ snd <$> hash_iter eff ↔ n ∈ dom eff.
Proof.
  intros Hid. rewrite list_elem_of_fmap, elem_of_dom. split.
  - intros ([k p] & -> & Hin%elem_of_iter). simpl. rewrite (map_Forall_lookup_1 _ _ _ _ Hid Hin). by eexists.
  - intros [p Hp]. exists (n, p). split; [simpl; by rewrite (map_Forall_lookup_1 _ _ _ _ Hid Hp)|by apply elem_of_iter].
Qed.

Definition desired_of (eff : gmap NodeId Peer) : gmap NodeId Peer := list_to_map ((λ p, (p_node_id p.2, p.2)) <$> hash_iter eff).

Lemma desired_exact eff : by_id eff → desired_of eff = eff.
Proof.
  intros Hid. unfold desired_of.
  assert (Heq : (λ p : NodeId * Peer, (p_node_id p.2, p.2)) <$> hash_iter eff = hash_iter eff).
  { rewrite <- (list_fmap_id (hash_iter eff)) at 2. apply list_fmap_ext. intros i [k p] Hi. simpl.
    apply list_elem_of_lookup_2 in Hi. rewrite elem_of_iter in Hi. by rewrite (map_Forall_lookup_1 _ _ _ _ Hid Hi). }
  rewrite Heq. apply map_eq. intros n. destruct (eff !! n) as [p|] eqn:Hp.
  - apply elem_of_list_to_map_1; [rewrite (hash_iter_perm _ eff); apply NoDup_fst_map_to_list|by apply elem_of_iter].
  - apply not_elem_of_list_to_map_1. intros ([k p] & -> & Hin%elem_of_iter)%list_elem_of_fmap. simpl in Hp. congruence.
Qed.

(** ** The invariant *)

(** A connection is registered for a peer. *)
Definition registered (m : Mesh) (n : NodeId) (c : PeerConn) : Prop := ∃ cs, me_conns m !! n = Some cs ∧ c ∈ cs.
Definition unchecked (m : Mesh) (n : NodeId) (c : PeerConn) : Prop :=
  ∃ i l, me_links m !! i = Some l ∧ ml_conn l = c ∧ ml_pc l = LCheck n.

(** What the supervisor still has to do covers what differs. *)
Definition sup_ok (m : Mesh) : Prop :=
  match me_sup m with
  | SCompute => me_change m = Stable
  | SSpawn todo desired => me_change m = Stable ∧ desired = me_effective m ∧ (∀ id p, (id, p) ∈ todo → desired !! id = Some p) ∧
      ∀ n, n ∈ dom desired → n ∈ dom (me_tasks m) ∨ n ∈ todo.*1
  | STear todo desired => me_change m = Stable ∧ desired = me_effective m ∧ (∀ n, n ∈ todo → n ∉ dom (me_effective m)) ∧ NoDup todo ∧
      ∀ n, n ∈ dom (me_tasks m) ↔ n ∈ dom (me_effective m) ∨ n ∈ todo
  | SJoin => me_change m = Stable ∧ dom (me_tasks m) = dom (me_effective m)
  | SWait => (caught_up m → dom (me_tasks m) = dom (me_effective m)) ∧ (me_change m ≠ Stable → me_seen m = me_version m)
  end.

Record mesh_inv (m : Mesh) : Prop := {
  mi_ids : by_id (me_effective m);
  mi_sup : sup_ok m;
  mi_conns : ∀ n c, registered m n c → n ∈ dom (me_effective m) ∨ unchecked m n c ∨ n ∈ dom (me_tasks m);
}.

(** ** Registry *)

Lemma registered_insert conns n' c' n c cs :
  ConnRegistry.insert conns n' c' !! n = Some cs → c ∈ cs → (n = n' ∧ c = c') ∨ ∃ cs0, conns !! n = Some cs0 ∧ c ∈ cs0.
Proof.
  unfold ConnRegistry.insert. destruct (decide (n = n')) as [->|Hne]; [|rewrite lookup_insert_ne by done; eauto].
  rewrite lookup_insert_eq. intros [= <-]. assert (Hold : c ∈ default [] (conns !! n') → ∃ cs0, conns !! n' = Some cs0 ∧ c ∈ cs0).
  { destruct (conns !! n') as [cs0|]; [by eauto|]. intros []%not_elem_of_nil. }
  case_bool_decide; [by auto|]. rewrite elem_of_app, list_elem_of_singleton. intros [?| ->]; auto.
Qed.

Lemma registered_remove conns n' c' n c cs :
  ConnRegistry.remove_if_same conns n' c' !! n = Some cs → c ∈ cs →
  (∃ cs0, conns !! n = Some cs0 ∧ c ∈ cs0) ∧ (n = n' → pc_stable_id c ≠ pc_stable_id c').
Proof.
  unfold ConnRegistry.remove_if_same. destruct (conns !! n') as [cs0|] eqn:Hn.
  - destruct (filter _ cs0) as [|x xs] eqn:Hf; destruct (decide (n = n')) as [->|Hne].
    + by rewrite lookup_delete_eq.
    + rewrite lookup_delete_ne by done. naive_solver.
    + rewrite lookup_insert_eq. intros [= <-] Hc. rewrite <- Hf in Hc. apply list_elem_of_filter in Hc as [Hid Hc]. naive_solver.
    + rewrite lookup_insert_ne by done. naive_solver.
  - intros Hcs Hc. split; [by eauto|]. intros ->. congruence.
Qed.

(** ** Preservation *)

Lemma unchecked_links m m' n c :
  (∀ i l, me_links m !! i = Some l → ml_pc l = LCheck n → me_links m' !! i = Some l) → unchecked m n c → unchecked m' n c.
Proof. intros Hl (i & l & Hi & Hc & Hpc). exists i, l. eauto. Qed.

Lemma abort_links d m : me_links (abort d m) = abort_link d <$> me_links m.
Proof. unfold abort. by destruct (me_dials m !! d). Qed.
Lemma abort_same d m :
  me_conns (abort d m) = me_conns m ∧ me_tasks (abort d m) = me_tasks m ∧ me_effective (abort d m) = me_effective m ∧
  me_change (abort d m) = me_change m.
Proof. unfold abort. by destruct (me_dials m !! d). Qed.

Lemma unchecked_abort d m n c : unchecked m n c → unchecked (abort d m) n c.
Proof.
  apply unchecked_links. intros i l Hi Hpc. rewrite abort_links, list_lookup_fmap, Hi. simpl. f_equal. unfold abort_link.
  rewrite Hpc. by case_bool_decide.
Qed.

Lemma append_link_inv m l : mesh_inv m → mesh_inv (set_links (me_links m ++ [l]) m).
Proof.
  intros [Hid Hs Hc]. split; [done|done|]. intros n c Hr. destruct (Hc n c Hr) as [?|[Hu|?]]; auto. right. left.
  revert Hu. apply unchecked_links. intros i l' Hi _. cbn. by apply lookup_app_l_Some.
Qed.

Lemma step_inv m i : mesh_inv m → mesh_inv (event m (Step i)).
Proof.
  intros Hm. cbn [event]. destruct (me_links m !! i) as [l|] eqn:Hi; [|done].
  pose proof (lookup_lt_Some _ _ _ Hi) as Hlt. destruct Hm as [Hid Hs Hc].
  assert (Hkeep : ∀ pc n c, ml_pc l ≠ LCheck n → unchecked m n c → unchecked (set_links (<[i := set_pc pc l]> (me_links m)) m) n c).
  { intros pc n c Hne. apply unchecked_links. intros j l' Hj Hpc. cbn. rewrite list_lookup_insert_ne; [done|].
    intros ->. congruence. }
  unfold link_step. destruct (ml_pc l) as [| |peer|peer|peer| |] eqn:Hpc; try (split; [done|done|]; intros n c Hr;
    destruct (Hc n c Hr) as [?|[Hu|?]]; auto; right; left; by apply Hkeep).
  - split; [done|done|]. intros n c (cs & Hcs & Hin). cbn in Hcs |- *.
    destruct (registered_insert _ _ _ _ _ _ Hcs Hin) as [[-> ->]|Hold].
    + right. left. exists i, (set_pc (LCheck peer) l). split; [cbn; by rewrite list_lookup_insert_eq|done].
    + destruct (Hc n c Hold) as [?|[Hu|?]]; auto. right. left. apply (Hkeep (LCheck peer)) in Hu; [done|congruence].
  - case_bool_decide as Hin.
    + split; [done|done|]. intros n c Hr. destruct (decide (n = peer)) as [->|Hne].
      * left. by apply (ids_of_effective _ _ Hid) in Hin.
      * destruct (Hc n c Hr) as [?|[Hu|?]]; auto. right. left. apply (Hkeep (LRun peer)) in Hu; [done|congruence].
    + split; [done|done|]. intros n c (cs & Hcs & Hc'). cbn in Hcs |- *.
      destruct (registered_remove _ _ _ _ _ _ Hcs Hc') as [Hold Hdiff].
      destruct (Hc n c Hold) as [?|[(j & lj & Hj & Hcj & Hpcj)|?]]; auto. right. left. exists j, lj. cbn.
      rewrite list_lookup_insert_ne; [done|]. intros ->. assert (lj = l) by congruence. subst lj.
      apply Hdiff; [congruence|]. by rewrite Hcj.
  - split; [done|done|]. intros n c (cs & Hcs & Hc'). cbn in Hcs |- *.
    destruct (registered_remove _ _ _ _ _ _ Hcs Hc') as [Hold _].
    destruct (Hc n c Hold) as [?|[Hu|?]]; auto. right. left. apply (Hkeep LEnd) in Hu; [done|congruence].
Qed.

(** What starting and tearing down leave. *)
Lemma spawn_effect id peer m :
  me_conns (spawn id peer m) = me_conns m ∧ me_effective (spawn id peer m) = me_effective m ∧
  me_change (spawn id peer m) = me_change m ∧ dom (me_tasks (spawn id peer m)) = {[id]} ∪ dom (me_tasks m) ∧
  ∀ n c, unchecked m n c → unchecked (spawn id peer m) n c.
Proof.
  unfold spawn. destruct (me_tasks m !! id) as [d|].
  - destruct (abort_same d m) as (H1 & H2 & H3 & H4). cbn -[abort]. rewrite H1, H2, H3, H4, dom_insert_L. split_and!; try done.
    intros n c Hu. by apply unchecked_abort.
  - cbn. rewrite dom_insert_L. split_and!; done.
Qed.

Lemma tear_down_effect id m :
  me_conns (tear_down id m) = delete id (me_conns m) ∧ me_effective (tear_down id m) = me_effective m ∧
  me_change (tear_down id m) = me_change m ∧ me_tasks (tear_down id m) = delete id (me_tasks m) ∧
  ∀ n c, unchecked m n c → unchecked (tear_down id m) n c.
Proof.
  unfold tear_down. destruct (me_tasks m !! id) as [d|] eqn:Hd.
  - destruct (abort_same d m) as (H1 & H2 & H3 & H4). cbn -[abort]. rewrite H1, H3, H4. split_and!; try done.
    intros n c Hu. by apply (unchecked_abort d).
  - cbn. rewrite (delete_id (me_tasks m)) by done. done.
Qed.

Lemma spawn_inv m id peer todo desired :
  mesh_inv m → me_sup m = SSpawn ((id, peer) :: todo) desired →
  mesh_inv (set_sup (SSpawn todo desired) (if needs_spawn m id peer then spawn id peer m else m)).
Proof.
  intros [Hid Hs Hc] Hsup. unfold sup_ok in Hs. rewrite Hsup in Hs. destruct Hs as (Hst & Hd & Hin & Hcov).
  assert (Hneed : needs_spawn m id peer = false → id ∈ dom (me_tasks m)).
  { unfold needs_spawn. destruct (me_tasks m !! id) as [d|] eqn:Ht; [|done]. intros _. by apply elem_of_dom_2 in Ht. }
  destruct (needs_spawn m id peer).
  - destruct (spawn_effect id peer m) as (H1 & H2 & H3 & H4 & H5). split; cbn -[spawn tear_down].
    + by rewrite H2.
    + unfold sup_ok. cbn -[spawn tear_down]. rewrite H2, H3, H4. split; [done|]. split; [done|]. split; [intros; apply Hin; by right|].
      intros n Hn. destruct (Hcov n Hn) as [?|Hn']; [set_solver|]. rewrite fmap_cons, elem_of_cons in Hn'. set_solver.
    + intros n c (cs & Hcs & Hcc). cbn -[spawn tear_down] in Hcs. rewrite H1 in Hcs. cbn -[spawn tear_down]. rewrite H2, H4.
      destruct (Hc n c) as [?|[Hu|?]]; [by exists cs|auto| |set_solver]. right. left. by apply H5.
  - split; cbn; [done| |].
    + unfold sup_ok. cbn -[spawn tear_down]. split; [done|]. split; [done|]. split; [intros; apply Hin; by right|].
      intros n Hn. destruct (Hcov n Hn) as [?|Hn']; [by left|]. rewrite fmap_cons, elem_of_cons in Hn'.
      destruct Hn' as [->|?]; [left; by apply Hneed|by right].
    + intros n c Hr. destruct (Hc n c Hr) as [?|[Hu|?]]; auto.
Qed.

Lemma tear_inv m id todo desired :
  mesh_inv m → me_sup m = STear (id :: todo) desired → mesh_inv (set_sup (STear todo desired) (tear_down id m)).
Proof.
  intros [Hid Hs Hc] Hsup. unfold sup_ok in Hs. rewrite Hsup in Hs. destruct Hs as (Hst & Hd & Hout & Hnd & Hcov).
  apply NoDup_cons in Hnd as [Hni Hnd]. destruct (tear_down_effect id m) as (H1 & H2 & H3 & H4 & H5). split; cbn -[spawn tear_down].
  - by rewrite H2.
  - unfold sup_ok. cbn -[spawn tear_down]. rewrite H2, H3, H4. split; [done|]. split; [done|]. split; [intros; apply Hout; by right|]. split; [done|].
    intros n. rewrite dom_delete_L, elem_of_difference, Hcov, elem_of_singleton, elem_of_cons.
    pose proof (Hout id ltac:(by left)) as Hne. destruct (decide (n = id)) as [->|Hn]; [tauto|]. split; [tauto|]. intros [?|?]; auto.
  - intros n c (cs & Hcs & Hcc). cbn -[spawn tear_down] in Hcs. rewrite H1 in Hcs. cbn -[spawn tear_down]. rewrite H2, H4.
    apply lookup_delete_Some in Hcs as [Hne Hcs]. destruct (Hc n c) as [?|[Hu|Ht]]; [by exists cs|auto| |].
    + right. left. by apply H5.
    + right. right. rewrite dom_delete_L. set_solver.
Qed.

(** One step of the supervisor. *)
Lemma supervise_inv m : mesh_inv m → mesh_inv (sup_step m).
Proof.
  intros Hm. pose proof Hm as [Hid Hs Hc]. unfold sup_ok in Hs.
  unfold sup_step. destruct (me_sup m) as [|[|[id peer] todo] desired|[|id todo] desired| |] eqn:Hsup.
  - fold (desired_of (me_effective m)). rewrite (desired_exact _ Hid). split; [done| |done]. unfold sup_ok. cbn.
    split; [done|]. split; [done|]. split; [intros id p; apply elem_of_iter|]. intros n [p Hp]%elem_of_dom. right.
    apply list_elem_of_fmap. exists (n, p). split; [done|]. by apply elem_of_iter.
  - destruct Hs as (Hst & Hd & _ & Hcov). split; [done| |done]. unfold sup_ok. cbn. split; [done|]. split; [done|].
    subst desired. assert (Hiff : ∀ n, n ∈ filter (λ id, me_effective m !! id = None) (hash_iter (me_tasks m)).*1 ↔
      n ∈ dom (me_tasks m) ∧ n ∉ dom (me_effective m)).
    { intros n. rewrite list_elem_of_filter, not_elem_of_dom, elem_of_dom, list_elem_of_fmap. split.
      - intros [Hn ([k v] & -> & Hk%elem_of_iter)]. by eauto.
      - intros [[v Hv] Hn]. split; [done|]. exists (n, v). split; [done|]. by apply elem_of_iter. }
    split; [intros n Hn; by apply Hiff in Hn as [_ ?]|]. split.
    { apply NoDup_filter. rewrite (hash_iter_perm _ (me_tasks m)). apply NoDup_fst_map_to_list. }
    intros n. rewrite Hiff. split.
    + intros Hn. destruct (decide (n ∈ dom (me_effective m))); auto.
    + intros [Hn|[Hn _]]; [|done]. destruct (Hcov n Hn) as [?|[]%not_elem_of_nil]; done.
  - by apply (spawn_inv m id peer todo desired).
  - destruct Hs as (Hst & Hd & _ & _ & Hcov). split; [done| |done]. unfold sup_ok. cbn. split; [done|]. apply set_eq. intros n.
    rewrite Hcov. split; [intros [?|[]%not_elem_of_nil]; done|by left].
  - by apply (tear_inv m id todo desired).
  - destruct Hs as [Hst Hd]. split; [done| |done]. unfold sup_ok. cbn. split; [done|]. intros Hne. by destruct Hne.
  - case_bool_decide as Hsv; [done|]. destruct Hs as [_ Hst]. split; [done| |done]. unfold sup_ok. cbn.
    destruct (me_change m); [done| |]; exfalso; by apply Hsv, Hst.
Qed.

Lemma change_inv m eff : caught_up m → by_id eff → mesh_inv m → mesh_inv (event m (Change eff)).
Proof.
  intros Hup He [Hid Hs Hc]. destruct Hup as (Hsup & Hseen & Hst). cbn. rewrite Hst.
  unfold sup_ok in Hs. rewrite Hsup in Hs. destruct Hs as [Hdom _]. specialize (Hdom ltac:(by split_and!)).
  split; [done| |].
  - unfold sup_ok. cbn. rewrite Hsup. split; [by intros (_ & _ & ?)|done].
  - intros n c Hr. destruct (Hc n c Hr) as [Hn|[Hu|Hn]]; auto. right. right. cbn. by rewrite Hdom.
Qed.

Lemma settle_inv m : mesh_inv m → mesh_inv (change_step m).
Proof.
  intros Hm. pose proof Hm as [Hid Hs Hc]. assert (Hcase : me_sup m = SWait ∨ me_sup m ≠ SWait) by (destruct (me_sup m); auto).
  destruct Hcase as [Hsup|Hsup].
  - unfold sup_ok in Hs. rewrite Hsup in Hs. destruct Hs as [_ Hsv]. unfold change_step.
    destruct (me_change m) eqn:Hst; [done| |]; (split; [done| |done]); unfold sup_ok; cbn; rewrite Hsup.
    + split; [by intros (_ & _ & ?)|]. intros _. by apply Hsv.
    + split; [|done]. intros (_ & Hv & _). cbn in Hv. rewrite (Hsv ltac:(done)) in Hv. lia.
  - assert (Hst : me_change m = Stable) by (unfold sup_ok in Hs; by destruct (me_sup m) as [| | | |]; destruct_and?).
    unfold change_step. by rewrite Hst.
Qed.

Lemma run_inv eff es : by_id eff → paced (start eff) es → mesh_inv (run (start eff) es).
Proof.
  intros He. induction es as [|e es IH] using rev_ind; intros Hp.
  { split; [done|done|]. intros n c (cs & Hcs & _). cbn in Hcs. by rewrite lookup_empty in Hcs. }
  assert (Hes : paced (start eff) es).
  { intros es1 eff' es2 ->. apply (Hp es1 eff' (es2 ++ [e])). by rewrite <- app_assoc. }
  specialize (IH Hes). unfold run. rewrite foldl_app. fold (run (start eff) es). cbn [foldl]. destruct e as [c fp|d c fp|i| |eff'|].
  - by apply append_link_inv.
  - cbn. destruct (me_dials _ !! d) as [t|]; [|done]. destruct (dl_alive t && _); [by apply append_link_inv|done].
  - by apply step_inv.
  - by apply supervise_inv.
  - destruct (Hp es eff' [] eq_refl) as [Hup Hid]. by apply change_inv.
  - by apply settle_inv.
Qed.

(** C16: A removed member is severed. Under any interleaving of inbound and
    outbound connections, dial loops and supervisor, as long as the
    membership changes no faster than the supervisor follows: whenever the
    supervisor has caught up, every connection in the registry belongs to an
    effective member, or is one whose registration is about to re-check its
    peer and close it; and a dial loop is kept for exactly the effective
    members. *)
Theorem removed_member_severed eff es :
  by_id eff → paced (start eff) es → caught_up (run (start eff) es) →
  let m := run (start eff) es in
  (∀ n c, registered m n c → n ∈ dom (me_effective m) ∨ unchecked m n c) ∧ dom (me_tasks m) = dom (me_effective m).
Proof.
  intros He Hp Hup. cbv zeta. destruct (run_inv eff es He Hp) as [_ Hs Hc]. unfold sup_ok in Hs. destruct Hup as (Hsup & Hsv & Hst).
  rewrite Hsup in Hs. destruct Hs as [Hdom _]. specialize (Hdom ltac:(by split_and!)). split; [|done].
  intros n c Hr. destruct (Hc n c Hr) as [?|[?|Hn]]; auto. left. by rewrite <- Hdom.
Qed.
End links.

(** The membership's own recomputation files every peer under its id. *)
Lemma recompute_by_id `{!Blake3, !Ed25519} m : by_id (effective (Membership.recompute m)).
Proof.
  cbn. assert (Hstep : ∀ l eff, by_id eff → by_id (foldl (Membership.effective_step (our_node_id m)) eff l)).
  { intros l. induction l as [|e l IH]; intros eff He; [done|]. cbn. apply IH. unfold Membership.effective_step. case_bool_decide; [done|].
    destruct (se_kind e); [by apply map_Forall_insert_2|by apply map_Forall_delete]. }
  apply Hstep. unfold Membership.seed_map. generalize (seeds m). intros l.
  assert (Hseed : ∀ eff, by_id eff → by_id (foldl (λ eff seed, <[p_node_id seed := seed]> eff) eff l)).
  { induction l as [|p l IH]; intros eff He; [done|]. cbn. apply IH. by apply map_Forall_insert_2. }
  apply Hseed. apply map_Forall_empty.
Qed.
