(* ===== verification/LinksWitness.v ===== *)
(** * Links of a small mesh

    Removal on a mesh of one member, and two runs in which a connection
    outlives its admission: a member added and removed while the supervisor
    is busy, and a member whose certificate is replaced. *)

From S2P Require Import Prelude Vv Metadata Conflict State Admin Membership MembershipProofs Peer Links LinksProofs.
Import Mesh.

#[local] Instance iter_as_is : HashIter := λ V m, map_to_list m.
#[local] Instance iter_as_is_laws : HashIterLaws.
Proof. intros V m. reflexivity. Qed.

Definition is_wait (pc : SupervisorPc) : bool := match pc with SWait => true | _ => false end.
Definition is_stable (pc : ChangePc) : bool := match pc with Stable => true | _ => false end.
Definition caught_up_b (m : Mesh) : bool := is_wait (me_sup m) && bool_decide (me_seen m = me_version m) && is_stable (me_change m).

Fixpoint paced_b (m : Mesh) (es : list Event) : bool :=
  match es with
  | [] => true
  | e :: es => match e with Change eff => caught_up_b m && bool_decide (by_id eff) | _ => true end && paced_b (event m e) es
  end.

Lemma caught_up_sound m : caught_up_b m = true → caught_up m.
Proof.
  unfold caught_up_b. intros [[Hw Hv%bool_decide_eq_true]%andb_true_iff Hs]%andb_true_iff.
  split; [by destruct (me_sup m)|]. split; [done|]. by destruct (me_change m).
Qed.

Lemma paced_sound m es : paced_b m es = true → paced m es.
Proof.
  revert m. induction es as [|e es IH]; intros m Hb es1 eff es2 Heq; [by destruct es1|]. cbn in Hb.
  apply andb_true_iff in Hb as [He Hb]. destruct es1 as [|e1 es1]; injection Heq as -> ->.
  - apply andb_true_iff in He as [Hup%caught_up_sound Hid%bool_decide_eq_true]. done.
  - change (run m (e1 :: es1)) with (run (event m e1) es1). by apply (IH (event m e1) Hb es1 eff es2).
Qed.

(** ** A member, its connections *)

Definition node_n : NodeId := fill 16 x0a.
Definition old_fp : hash32 := fill 32 x01.
Definition new_fp : hash32 := fill 32 x02.
Definition link_addr : SocketAddr := V4 (to_array 4 [x0a; x00; x00; x01]) 7000.
Definition with_fp (fp : hash32) : gmap NodeId Peer := {[ node_n := mkPeer node_n link_addr fp ]}.
Definition wire (id : Z) : PeerConn := mkPeerConn id (λ _ _, None) (λ _ _, None).
Definition times (n : nat) (e : Event) : list Event := replicate n e.

(** A member connects, is removed, and its connection is gone. *)
Definition removal : list Event :=
  times 5 Supervise ++ [Inbound (wire 1) old_fp] ++ times 4 (Step 0) ++ [Change ∅] ++ times 2 Settle ++ times 7 Supervise.

Lemma removed_member_severed_witness :
  let m := run (start (with_fp old_fp)) removal in
  (∀ n c, registered m n c → n ∈ dom (me_effective m) ∨ unchecked m n c) ∧ dom (me_tasks m) = dom (me_effective m).
Proof.
  apply (removed_member_severed (with_fp old_fp) removal).
  - vm_decide.
  - apply paced_sound. vm_compute. reflexivity.
  - apply caught_up_sound. vm_compute. reflexivity.
Defined.

Example removal_closes :
  let m := run (start (with_fp old_fp)) removal in
  me_conns (run (start (with_fp old_fp)) (take 10 removal)) !! node_n ≠ None ∧ me_conns m !! node_n = None ∧ 1 ∈ me_closed m.
Proof. cbv zeta. split; [vm_compute; discriminate|]. split; [vm_compute; reflexivity|vm_decide]. Qed.

(** ** Limits *)

(** A member that is added, connects and is removed while the supervisor is
    still busy with an earlier pass was never among its tasks: nothing
    closes the connection, and the removed node's session goes on with the
    supervisor caught up. *)
Definition fleeting : list Event :=
  times 3 Supervise ++ [Change (with_fp old_fp)] ++ times 2 Settle ++ [Inbound (wire 1) old_fp] ++ times 4 (Step 0) ++
  [Change ∅] ++ times 2 Settle ++ times 6 Supervise.

Theorem fleeting_member_keeps_connection :
  let m := run (start ∅) fleeting in
  caught_up m ∧ me_effective m !! node_n = None ∧ old_fp ∉ me_allow m ∧
  (∃ cs, me_conns m !! node_n = Some cs ∧ (pc_stable_id <$> cs) = [1]) ∧ 1 ∉ me_closed m ∧
  (ml_pc <$> me_links m !! 0%nat) = Some (LRun node_n).
Proof.
  cbv zeta. split; [apply caught_up_sound; vm_compute; reflexivity|]. split; [vm_compute; reflexivity|]. split; [vm_decide|].
  split; [eexists; split; vm_compute; reflexivity|]. split; [vm_decide|vm_compute; reflexivity].
Qed.

(** A member re-added with another certificate has its dial loop restarted;
    the connection of the old loop is neither closed nor deregistered, and
    its certificate is no longer admitted. *)
Definition rotation : list Event :=
  times 5 Supervise ++ [Dial 0 (wire 1) old_fp] ++ times 4 (Step 0) ++ [Change (with_fp new_fp)] ++ times 2 Settle ++ times 7 Supervise.

Theorem rotated_member_keeps_connection :
  let m := run (start (with_fp old_fp)) rotation in
  paced (start (with_fp old_fp)) rotation ∧ caught_up m ∧ old_fp ∉ me_allow m ∧
  (∃ cs, me_conns m !! node_n = Some cs ∧ (pc_stable_id <$> cs) = [1]) ∧ 1 ∉ me_closed m ∧
  (ml_pc <$> me_links m !! 0%nat) = Some LAborted.
Proof.
  cbv zeta. split; [apply paced_sound; vm_compute; reflexivity|]. split; [apply caught_up_sound; vm_compute; reflexivity|].
  split; [vm_decide|]. split; [eexists; split; vm_compute; reflexivity|]. split; [vm_decide|vm_compute; reflexivity].
Qed.
