(* ===== verification/Watch.v ===== *)
(** * The file-system watcher (src/src/watch.rs)

    The parsing of the kernel's event buffers and their translation into
    local events. A buffer is what one read returned; [None] stands for an
    access outside it, an underflow or a loop that does not end. Opening a
    directory by its handle, and the path behind a descriptor, are what the
    kernel answers. *)

From S2P Require Import Prelude Vv Decide Metadata Conflict State Oplog Suppress Merkle Chunk Proto Fs Apply Peer Fetch Engine Ingest Scanner.

(** ** Constants of the interface *)

Definition FAN_ATTRIB : Z := 4.
Definition FAN_CLOSE_WRITE : Z := 8.
Definition FAN_MOVED_FROM : Z := 64.
Definition FAN_MOVED_TO : Z := 128.
Definition FAN_CREATE : Z := 256.
Definition FAN_DELETE : Z := 512.
Definition FAN_Q_OVERFLOW : Z := 16384.
Definition FAN_RENAME : Z := 268435456.
Definition INFO_DFID_NAME : Z := 2.
Definition INFO_OLD_DFID_NAME : Z := 10.
Definition INFO_NEW_DFID_NAME : Z := 12.

(** Sizes of [fanotify_event_metadata], of an info header, of the header with
    the file-system id, and of the fixed head of a file handle. *)
Definition META_SZ : nat := 24.
Definition HDR_SZ : nat := 4.
Definition FID_SZ : nat := 12.
Definition FH_FIXED : nat := 8.

Definition slice (off len : nat) (buf : list byte) : option (list byte) :=
  if bool_decide (off + len ≤ length buf)%nat then Some (take len (drop off buf)) else None.

(** [n - off] on unsigned integers. *)
Definition remaining (buf : list byte) (off : nat) : option nat :=
  if bool_decide (off ≤ length buf)%nat then Some (length buf - off)%nat else None.

Definition position0 (l : list byte) : option nat :=
  (fix go l i := match l with [] => None | b :: l => if bool_decide (b = x00) then Some i else go l (S i) end) l O.

Record EventPaths : Type := mkEventPaths { ep_path : option FsPath; ep_old : option FsPath; ep_new : option FsPath }.
Definition no_paths : EventPaths := mkEventPaths None None None.

Definition has (mask bits : Z) : bool := bool_decide (Z.land mask bits ≠ 0).

Section watch.
Context (dir_of_handle : list byte → option FsPath) (path_of_fd : Z → option FsPath).

(** A directory entry's name has no separator. *)
Definition resolve_dfid_name (rec : list byte) : option (option FsPath) :=
  if bool_decide (length rec < FID_SZ + FH_FIXED)%nat then Some None else
  hb ← slice FID_SZ 4 rec;
  let handle_bytes := le_val hb in
  if bool_decide (Z.of_nat (length rec) ≤ Z.of_nat (FID_SZ + FH_FIXED) + handle_bytes) then Some None else
  let name_off := (FID_SZ + FH_FIXED + Z.to_nat handle_bytes)%nat in
  name_bytes ← slice name_off (length rec - name_off) rec;
  match position0 name_bytes with
  | None => Some None
  | Some name_end =>
      let name := String.string_of_list_byte (take name_end name_bytes) in
      handle ← slice FID_SZ (FH_FIXED + Z.to_nat handle_bytes) rec;
      Some (dir ← dir_of_handle handle; Some (if bool_decide (name = ".") then dir else dir ++ [name]))
  end.

Definition set_paths (info_type : Z) (p : option FsPath) (out : EventPaths) : EventPaths :=
  if bool_decide (info_type = INFO_DFID_NAME) then mkEventPaths p (ep_old out) (ep_new out)
  else if bool_decide (info_type = INFO_OLD_DFID_NAME) then mkEventPaths (ep_path out) p (ep_new out)
  else if bool_decide (info_type = INFO_NEW_DFID_NAME) then mkEventPaths (ep_path out) (ep_old out) p
  else out.
Definition named (info_type : Z) : bool := bool_decide (info_type ∈ [INFO_DFID_NAME; INFO_OLD_DFID_NAME; INFO_NEW_DFID_NAME]).

Fixpoint parse_records (fuel : nat) (event : list byte) (off : nat) (out : EventPaths) : option EventPaths :=
  match fuel with
  | O => None
  | S fuel =>
      left ← remaining event off;
      if bool_decide (left < HDR_SZ)%nat then Some out else
      hdr ← slice off HDR_SZ event;
      let info_type := le_val (take 1 hdr) in
      let len := Z.to_nat (le_val (drop 2 hdr)) in
      if bool_decide (len < HDR_SZ ∨ length event < off + len)%nat then Some out else
      out ← (if named info_type then
               rec ← slice off len event;
               p ← resolve_dfid_name rec;
               Some (set_paths info_type p out)
             else Some out);
      parse_records fuel event (off + len) out
  end.
Definition parse_event (event : list byte) : option EventPaths := parse_records (S (length event)) event META_SZ no_paths.

(** ** Dispatch *)

Definition file_name_tmp (p : FsPath) : bool := match last p with Some name => is_tmp name | None => false end.
Definition inside (share p : FsPath) : bool := bool_decide (share `prefix_of` p) && negb (file_name_tmp p).
Definition rel (share p : FsPath) : option string := comps ← strip_prefix share p; to_str (path_text comps).
Definition kept (share : FsPath) (p : option FsPath) : option FsPath := p ← p; if inside share p then Some p else None.

Definition dispatch (share : FsPath) (mask : Z) (ev : EventPaths) : list LocalEvent :=
  if has mask FAN_RENAME then
    match kept share (ep_old ev), kept share (ep_new ev) with
    | Some old, Some new =>
        if file_name_tmp old then [LocalEvent.Write new]
        else match rel share old with Some from => [LocalEvent.Rename from new] | None => [] end
    | Some old, None => match rel share old with Some from => [LocalEvent.Delete from] | None => [] end
    | None, Some new => [LocalEvent.Write new]
    | None, None => []
    end
  else
    (if has mask (Z.lor FAN_DELETE FAN_MOVED_FROM)
     then match kept share (ep_path ev) ≫= rel share with Some gone => [LocalEvent.Delete gone] | None => [] end else [])
    ++ (if has mask (Z.lor (Z.lor (Z.lor FAN_CREATE FAN_CLOSE_WRITE) FAN_ATTRIB) FAN_MOVED_TO)
        then match kept share (ep_path ev) with Some p => [LocalEvent.Write p] | None => [] end else []).

(** ** The buffer *)

Definition as_i32 (z : Z) : Z := if bool_decide (z < 2 ^ 31) then z else z - 2 ^ 32.
(** [event_len], [mask] and [fd] of the metadata. *)
Definition meta_at (buf : list byte) (off : nat) : option (nat * Z * Z) :=
  m ← slice off META_SZ buf;
  Some (Z.to_nat (le_val (take 4 m)), le_val (take 8 (drop 8 m)), as_i32 (le_val (take 4 (drop 16 m)))).

(** The events of one buffer in order, and the rescans it asks for. *)
Fixpoint scan_events (fuel : nat) (share : FsPath) (buf : list byte) (off : nat) (sent : list LocalEvent) (rescans : nat)
  : option (list LocalEvent * nat) :=
  match fuel with
  | O => None
  | S fuel =>
      left ← remaining buf off;
      if bool_decide (left < META_SZ)%nat then Some (sent, rescans) else
      '(ev_len, mask, _) ← meta_at buf off;
      if bool_decide (ev_len < META_SZ ∨ length buf < off + ev_len)%nat then Some (sent, rescans) else
      let rescans := if has mask FAN_Q_OVERFLOW then S rescans else rescans in
      event ← slice off ev_len buf;
      ev ← parse_event event;
      scan_events fuel share buf (off + ev_len) (sent ++ dispatch share mask ev) rescans
  end.
Definition scan_buffer (share : FsPath) (buf : list byte) : option (list LocalEvent * nat) :=
  scan_events (S (length buf)) share buf 0 [] 0.

(** The legacy tier: events with descriptors. Offsets are signed there; the
    last component is the descriptors closed. *)
Fixpoint legacy_events (fuel : nat) (share : FsPath) (buf : list byte) (off : nat) (sent : list LocalEvent) (rescans : nat) (closed : list Z)
  : option (list LocalEvent * nat * list Z) :=
  match fuel with
  | O => None
  | S fuel =>
      if bool_decide (Z.of_nat (length buf) - Z.of_nat off < Z.of_nat META_SZ) then Some (sent, rescans, closed) else
      '(ev_len, mask, fd) ← meta_at buf off;
      if bool_decide (ev_len < META_SZ)%nat then Some (sent, rescans, closed) else
      let rescans := if has mask FAN_Q_OVERFLOW then S rescans else rescans in
      let '(sent, closed) :=
        if bool_decide (0 ≤ fd) then
          (match path_of_fd fd with
           | Some p => if inside share p then sent ++ [LocalEvent.Write p] else sent
           | None => sent
           end, closed ++ [fd])
        else (sent, closed) in
      legacy_events fuel share buf (off + ev_len) sent rescans closed
  end.
Definition legacy_buffer (share : FsPath) (buf : list byte) : option (list LocalEvent * nat * list Z) :=
  legacy_events (S (length buf)) share buf 0 [] 0 [].
End watch.
