(* ===== verification/WatchProofs.v ===== *)
(** * The watcher: bounds, completeness and scope

    Parsing stays inside the buffer whatever bytes it holds, hands on every
    event the kernel wrote exactly once and in order, and names only paths
    of the share that are not staging files. *)

From S2P Require Import Prelude Vv Decide Metadata Conflict State Oplog Suppress Merkle Chunk Proto Fs Apply Peer Fetch Engine Ingest Scanner Watch.

#[local] Open Scope Z_scope.

Section watch.
Context (dir_of_handle : list byte → option FsPath) (path_of_fd : Z → option FsPath).
#[local] Abbreviation resolve := (resolve_dfid_name dir_of_handle).
#[local] Abbreviation records := (parse_records dir_of_handle).
#[local] Abbreviation parse := (parse_event dir_of_handle).
#[local] Abbreviation scan := (scan_events dir_of_handle).

(** ** Bounds *)

Lemma slice_ok off len buf : (off + len ≤ length buf)%nat → slice off len buf = Some (take len (drop off buf)).
Proof. intros H. unfold slice. by rewrite bool_decide_true. Qed.

Lemma slice_length off len buf l : slice off len buf = Some l → length l = len.
Proof. unfold slice. case_bool_decide; [|done]. intros [= <-]. rewrite length_take, length_drop. lia. Qed.

Lemma le_val_range l : 0 ≤ le_val l < 256 ^ Z.of_nat (length l).
Proof.
  induction l as [|b l IH]; [done|]. cbn [le_val length]. rewrite Nat2Z.inj_succ, Z.pow_succ_r by lia.
  pose proof (byte_val_bound b). lia.
Qed.

Lemma resolve_in_bounds rec : is_Some (resolve rec).
Proof.
  unfold resolve_dfid_name. case_bool_decide as Hlen; [by eexists|]. unfold FID_SZ, FH_FIXED in *.
  rewrite (slice_ok 12 4) by lia. cbn [mbind option_bind]. cbv zeta. set (hb := take 4 (drop 12 rec)).
  pose proof (le_val_range hb) as Hr. case_bool_decide as Hn; [by eexists|].
  rewrite !slice_ok by lia. cbn [mbind option_bind]. destruct (position0 _); by eexists.
Qed.

Lemma records_in_bounds fuel event off out :
  (off ≤ length event)%nat → (length event - off < fuel)%nat → is_Some (records fuel event off out).
Proof.
  revert off out. induction fuel as [|fuel IH]; intros off out Hoff Hfuel; [lia|]. cbn [parse_records].
  unfold remaining. rewrite bool_decide_true by done. cbn [mbind option_bind]. case_bool_decide as Hleft; [by eexists|].
  unfold HDR_SZ in *. rewrite slice_ok by lia. cbn [mbind option_bind]. cbv zeta.
  case_bool_decide as Hlen; [by eexists|]. apply Decidable.not_or in Hlen as [Hl1 Hl2].
  destruct (named _).
  - rewrite slice_ok by lia. cbn [mbind option_bind]. destruct (resolve_in_bounds (take (Z.to_nat (le_val (drop 2 (take 4 (drop off event))))) (drop off event))) as [p ->].
    cbn [mbind option_bind]. apply IH; lia.
  - cbn [mbind option_bind]. apply IH; lia.
Qed.

Lemma parse_in_bounds event : (META_SZ ≤ length event)%nat → is_Some (parse event).
Proof. intros H. unfold parse_event. apply records_in_bounds; [done|]. unfold META_SZ in *. lia. Qed.

Lemma meta_in_bounds buf off : (off + META_SZ ≤ length buf)%nat → is_Some (meta_at buf off).
Proof. intros H. unfold meta_at. rewrite slice_ok by done. by eexists. Qed.

Lemma scan_in_bounds fuel share buf off sent rescans :
  (off ≤ length buf)%nat → (length buf - off < fuel)%nat → is_Some (scan fuel share buf off sent rescans).
Proof.
  revert off sent rescans. induction fuel as [|fuel IH]; intros off sent rescans Hoff Hfuel; [lia|]. cbn [scan_events].
  unfold remaining. rewrite bool_decide_true by done. cbn [mbind option_bind]. case_bool_decide as Hleft; [by eexists|].
  destruct (meta_in_bounds buf off) as [[[ev_len mask] fd] Hm]; [lia|]. rewrite Hm. cbn [mbind option_bind].
  case_bool_decide as Hlen; [by eexists|]. apply Decidable.not_or in Hlen as [Hl1 Hl2].
  rewrite slice_ok by lia. cbn [mbind option_bind].
  destruct (parse_in_bounds (take ev_len (drop off buf))) as [ev ->]; [rewrite length_take, length_drop; lia|].
  cbn [mbind option_bind]. apply IH; unfold META_SZ in *; lia.
Qed.

Lemma legacy_in_bounds fuel share buf off sent rescans closed :
  (length buf - off < fuel)%nat → is_Some (legacy_events path_of_fd fuel share buf off sent rescans closed).
Proof.
  revert off sent rescans closed. induction fuel as [|fuel IH]; intros off sent rescans closed Hfuel; [lia|]. cbn [legacy_events].
  case_bool_decide as Hleft; [by eexists|]. unfold META_SZ in *.
  destruct (meta_in_bounds buf off) as [[[ev_len mask] fd] Hm]; [unfold META_SZ; lia|]. rewrite Hm. cbn [mbind option_bind].
  case_bool_decide as Hlen; [by eexists|]. case_bool_decide; apply IH; lia.
Qed.

Lemma watch_bounds share buf :
  is_Some (scan_buffer dir_of_handle share buf) ∧ is_Some (legacy_buffer path_of_fd share buf).
Proof. split; [apply scan_in_bounds; lia|apply legacy_in_bounds; lia]. Qed.

(** The watcher's parsing is memory safe and ends: on any buffer whatever
    the bytes it holds, with and without file handles, no read leaves the
    buffer, no length underflows and the loops finish. *)
Theorem watch_parsing_in_bounds share buf :
  is_Some (scan_buffer dir_of_handle share buf) ∧ is_Some (legacy_buffer path_of_fd share buf).
Proof. apply watch_bounds. Qed.

(** ** Scope *)

Definition in_scope (share : FsPath) (e : LocalEvent) : Prop :=
  match e with
  | LocalEvent.Write p => inside share p = true
  | LocalEvent.Delete from => ∃ p, inside share p = true ∧ rel share p = Some from
  | LocalEvent.Rename from p => inside share p = true ∧ ∃ p0, inside share p0 = true ∧ rel share p0 = Some from
  end.

Lemma kept_inside share p q : kept share p = Some q → inside share q = true.
Proof. unfold kept. destruct p as [p|]; [|done]. cbn. destruct (inside share p) eqn:Hi; [|done]. by intros [= <-]. Qed.

Lemma dispatch_in_scope share mask ev : Forall (in_scope share) (dispatch share mask ev).
Proof.
  unfold dispatch. destruct (has mask FAN_RENAME).
  - destruct (kept share (ep_old ev)) as [old|] eqn:Ho, (kept share (ep_new ev)) as [new|] eqn:Hn;
      try apply kept_inside in Ho; try apply kept_inside in Hn.
    + destruct (file_name_tmp old); [by repeat constructor|]. destruct (rel share old) as [from|] eqn:Hr; [|constructor].
      repeat constructor; [done|]. by exists old.
    + destruct (rel share old) as [from|] eqn:Hr; repeat constructor. by exists old.
    + by repeat constructor.
    + constructor.
  - apply Forall_app. split.
    + destruct (has mask _); [|constructor]. destruct (kept share (ep_path ev)) as [p|] eqn:Hp; [|constructor]. cbn.
      destruct (rel share p) as [gone|] eqn:Hr; repeat constructor. exists p. split; [by eapply kept_inside|done].
    + destruct (has mask _); [|constructor]. destruct (kept share (ep_path ev)) as [p|] eqn:Hp; repeat constructor. by eapply kept_inside.
Qed.

Lemma scan_in_scope fuel share buf off sent rescans out k :
  scan fuel share buf off sent rescans = Some (out, k) → Forall (in_scope share) sent → Forall (in_scope share) out.
Proof.
  revert off sent rescans. induction fuel as [|fuel IH]; intros off sent rescans Hs Hall; [done|]. cbn [scan_events] in Hs.
  apply bind_Some in Hs as (left & _ & Hs). case_bool_decide; [by injection Hs as <- <-|].
  apply bind_Some in Hs as ([[ev_len mask] fd] & _ & Hs). case_bool_decide; [by injection Hs as <- <-|].
  apply bind_Some in Hs as (event & _ & Hs). apply bind_Some in Hs as (ev & _ & Hs).
  eapply IH; [exact Hs|]. apply Forall_app. split; [done|apply dispatch_in_scope].
Qed.

(** ** Completeness *)

(** An info record and an event as the kernel lays them out. *)
Record KRecord : Type := mkKRecord {
  kr_type : Z; kr_fsid : list byte; kr_handle_type : list byte; kr_handle : list byte; kr_name : list byte; kr_pad : list byte }.
Record KEvent : Type := mkKEvent { ke_mask : Z; ke_vers : list byte; ke_fd_pid : list byte; ke_records : list KRecord }.

Definition file_handle (r : KRecord) : list byte := le_bytes 4 (Z.of_nat (length (kr_handle r))) ++ kr_handle_type r ++ kr_handle r.
Definition record_body (r : KRecord) : list byte := kr_fsid r ++ file_handle r ++ kr_name r ++ x00 :: kr_pad r.
Definition enc_record (r : KRecord) : list byte :=
  ([byte_of_Z (kr_type r); x00] ++ le_bytes 2 (Z.of_nat (HDR_SZ + length (record_body r)))) ++ record_body r.
Definition event_body (e : KEvent) : list byte := concat (enc_record <$> ke_records e).
Definition enc_event (e : KEvent) : list byte :=
  (le_bytes 4 (Z.of_nat (META_SZ + length (event_body e))) ++ ke_vers e ++ le_bytes 8 (ke_mask e) ++ ke_fd_pid e) ++ event_body e.

Record record_ok (r : KRecord) : Prop := {
  ro_type : 0 ≤ kr_type r < 256;
  ro_fsid : length (kr_fsid r) = 8%nat;
  ro_htype : length (kr_handle_type r) = 4%nat;
  ro_name : x00 ∉ kr_name r;
  ro_len : Z.of_nat (HDR_SZ + length (record_body r)) < 65536;
}.
Record event_ok (e : KEvent) : Prop := {
  eo_mask : 0 ≤ ke_mask e < 2 ^ 64;
  eo_vers : length (ke_vers e) = 4%nat;
  eo_rest : length (ke_fd_pid e) = 8%nat;
  eo_len : Z.of_nat (META_SZ + length (event_body e)) < 2 ^ 32;
  eo_records : Forall record_ok (ke_records e);
}.

(** What the kernel means by them. *)
Definition record_path (r : KRecord) : option FsPath :=
  dir ← dir_of_handle (file_handle r);
  let name := String.string_of_list_byte (kr_name r) in Some (if bool_decide (name = ".") then dir else dir ++ [name]).
Definition event_paths (e : KEvent) : EventPaths := foldl (λ out r, set_paths (kr_type r) (record_path r) out) no_paths (ke_records e).

Lemma slice_mid a b c off len : off = length a → len = length b → slice off len (a ++ b ++ c) = Some b.
Proof.
  intros -> ->. rewrite slice_ok by (rewrite !length_app; lia). by rewrite drop_app_length, take_app_length.
Qed.

Lemma position0_name name rest : x00 ∉ name → position0 (name ++ x00 :: rest) = Some (length name).
Proof.
  intros Hn. unfold position0. assert (Hgen : ∀ i, (fix go (l : list byte) (i : nat) : option nat :=
    match l with [] => None | b :: l => if bool_decide (b = x00) then Some i else go l (S i) end) (name ++ x00 :: rest) i = Some (i + length name)%nat).
  { induction name as [|b name IH]; intros i; cbn [app length].
    - rewrite bool_decide_true by done. f_equal. lia.
    - apply not_elem_of_cons in Hn as [Hb Hn]. rewrite bool_decide_false by done. rewrite (IH Hn). f_equal. lia. }
  apply Hgen.
Qed.

Lemma resolve_enc r : record_ok r → resolve (enc_record r) = Some (record_path r).
Proof.
  intros [Ht Hf Hh Hn Hl]. unfold resolve_dfid_name. unfold FID_SZ, FH_FIXED, HDR_SZ in *.
  set (head := [byte_of_Z (kr_type r); x00] ++ le_bytes 2 (Z.of_nat (4 + length (record_body r)))).
  assert (Hhead : length head = 4%nat) by (unfold head; by rewrite length_app, length_le_bytes).
  assert (Henc : enc_record r = (head ++ kr_fsid r) ++ le_bytes 4 (Z.of_nat (length (kr_handle r))) ++
    (kr_handle_type r ++ kr_handle r) ++ kr_name r ++ x00 :: kr_pad r).
  { unfold head, enc_record. change HDR_SZ with 4%nat. unfold record_body at 2. unfold file_handle. by rewrite <- !app_assoc. }
  assert (Hpre : length (head ++ kr_fsid r) = 12%nat) by (rewrite length_app; lia).
  assert (Hlen : length (enc_record r) = (20 + length (kr_handle r) + (length (kr_name r) + S (length (kr_pad r))))%nat).
  { rewrite Henc, !length_app, length_le_bytes, Hh. cbn [length]. lia. }
  rewrite bool_decide_false by lia. rewrite Henc at 1. rewrite (slice_mid _ (le_bytes 4 _)) by (rewrite ?length_le_bytes; lia).
  assert (Hsz : 0 ≤ Z.of_nat (length (kr_handle r)) < 256 ^ Z.of_nat 4).
  { revert Hl. unfold record_body, file_handle. rewrite !length_app. change (256 ^ Z.of_nat 4) with 4294967296. lia. }
  cbn [mbind option_bind]. cbv zeta. rewrite (le_val_bytes 4) by done. rewrite Nat2Z.id, bool_decide_false by lia.
  assert (Hname : slice (12 + 8 + length (kr_handle r)) (length (enc_record r) - (12 + 8 + length (kr_handle r))) (enc_record r)
    = Some (kr_name r ++ x00 :: kr_pad r)).
  { rewrite Henc at 2. rewrite !app_assoc. rewrite <- (app_assoc _ (kr_name r)). rewrite <- (app_nil_r (kr_name r ++ x00 :: kr_pad r)) at 1.
    apply slice_mid; [|rewrite Hlen, length_app; cbn [length]; lia]. rewrite !length_app, length_le_bytes, Hhead, Hf, Hh. lia. }
  rewrite Hname. cbn [mbind option_bind]. rewrite (position0_name _ _ Hn), take_app_length.
  assert (Hfh : slice 12 (8 + length (kr_handle r)) (enc_record r) = Some (file_handle r)).
  { rewrite Henc. rewrite (app_assoc (le_bytes 4 _)). apply slice_mid; [done|]. unfold file_handle.
    rewrite !length_app, length_le_bytes, Hh. lia. }
  by rewrite Hfh.
Qed.

Lemma records_enc rs fuel pre out :
  Forall record_ok rs → (length rs < fuel)%nat →
  records fuel (pre ++ concat (enc_record <$> rs)) (length pre) out
  = Some (foldl (λ out r, set_paths (kr_type r) (record_path r) out) out rs).
Proof.
  revert fuel pre out. induction rs as [|r rs IH]; intros [|fuel] pre out Hok Hfuel; cbn [length] in Hfuel; try lia; cbn [parse_records].
  - unfold remaining. rewrite app_nil_r, bool_decide_true, Nat.sub_diag by done. cbn [mbind option_bind]. by rewrite bool_decide_true by (unfold HDR_SZ; lia).
  - apply Forall_cons in Hok as [Hr Hok]. rewrite fmap_cons. cbn [concat].
    assert (Hlen : length (enc_record r) = (4 + length (record_body r))%nat).
    { unfold enc_record. rewrite !length_app, length_le_bytes. cbn [length]. lia. }
    unfold remaining. rewrite bool_decide_true by (rewrite length_app; lia). cbn [mbind option_bind].
    rewrite bool_decide_false by (rewrite !length_app, Hlen; unfold HDR_SZ; lia). cbv zeta.
    assert (Hhdr : slice (length pre) HDR_SZ (pre ++ enc_record r ++ concat (enc_record <$> rs)) =
      Some ([byte_of_Z (kr_type r); x00] ++ le_bytes 2 (Z.of_nat (HDR_SZ + length (record_body r))))).
    { unfold enc_record at 1. rewrite <- !(app_assoc ([_; _] ++ _)). apply slice_mid; [done|]. by rewrite length_app, length_le_bytes. }
    rewrite Hhdr. cbn [mbind option_bind]. cbv zeta.
    change (take 1 ([byte_of_Z (kr_type r); x00] ++ ?l)) with [byte_of_Z (kr_type r)].
    change (drop 2 ([byte_of_Z (kr_type r); x00] ++ ?l)) with l.
    assert (Hty : le_val [byte_of_Z (kr_type r)] = kr_type r).
    { cbn [le_val]. rewrite byte_val_of_Z, Z.mod_small; [lia|apply Hr]. }
    rewrite Hty, (le_val_bytes 2) by (change (256 ^ Z.of_nat 2) with 65536; pose proof (ro_len r Hr); lia).
    rewrite Nat2Z.id, bool_decide_false by (rewrite !length_app, Hlen; unfold HDR_SZ; lia).
    assert (Hrec : slice (length pre) (HDR_SZ + length (record_body r)) (pre ++ enc_record r ++ concat (enc_record <$> rs)) = Some (enc_record r)).
    { apply slice_mid; [done|]. by rewrite Hlen. }
    assert (Hout : (if named (kr_type r) then rec ← slice (length pre) (HDR_SZ + length (record_body r)) (pre ++ enc_record r ++ concat (enc_record <$> rs));
                     p ← resolve rec; Some (set_paths (kr_type r) p out) else Some out) = Some (set_paths (kr_type r) (record_path r) out)).
    { destruct (named (kr_type r)) eqn:Hn.
      - rewrite Hrec. cbn [mbind option_bind]. by rewrite (resolve_enc r Hr).
      - unfold named in Hn. apply bool_decide_eq_false in Hn. rewrite !not_elem_of_cons in Hn. destruct Hn as (H1 & H2 & H3 & _).
        unfold set_paths. by rewrite !bool_decide_false. }
    rewrite Hout. cbn [mbind option_bind foldl].
    rewrite app_assoc. replace (length pre + (HDR_SZ + length (record_body r)))%nat with (length (pre ++ enc_record r)) by (rewrite length_app, Hlen; done).
    apply IH; [done|lia].
Qed.

Lemma enc_event_length e : event_ok e → length (enc_event e) = (24 + length (event_body e))%nat.
Proof. intros [_ Hv Hr _ _]. unfold enc_event. rewrite !length_app, !length_le_bytes, Hv, Hr. lia. Qed.

Lemma records_fit rs : (length rs ≤ length (concat (enc_record <$> rs)))%nat.
Proof.
  induction rs as [|r rs IH]; [done|]. rewrite fmap_cons. cbn [concat length]. rewrite length_app. unfold enc_record at 1.
  rewrite !length_app, length_le_bytes. cbn [length]. lia.
Qed.

Lemma parse_enc e : event_ok e → parse (enc_event e) = Some (event_paths e).
Proof.
  intros He. unfold parse_event. pose proof (enc_event_length e He) as Hlen. destruct He as [Hm Hv Hr Hl Hok].
  unfold enc_event in *. set (pre := le_bytes 4 _ ++ _) in *.
  replace META_SZ with (length pre) by (unfold pre; by rewrite !length_app, !length_le_bytes, Hv, Hr).
  apply records_enc; [done|]. pose proof (records_fit (ke_records e)). unfold event_body in Hlen |- *. lia.
Qed.

Lemma meta_enc e pre post : event_ok e →
  ∃ fd, meta_at (pre ++ enc_event e ++ post) (length pre) = Some (length (enc_event e), ke_mask e, fd).
Proof.
  intros He. rewrite (enc_event_length e He). destruct He as [Hm Hv Hr Hl Hok]. eexists. unfold meta_at, enc_event.
  set (len4 := le_bytes 4 _). set (mask8 := le_bytes 8 _). rewrite <- (app_assoc (len4 ++ _)).
  rewrite (slice_mid pre (len4 ++ ke_vers e ++ mask8 ++ ke_fd_pid e)) by
    (try done; unfold len4, mask8; by rewrite !length_app, !length_le_bytes, Hv, Hr).
  cbn [mbind option_bind].
  assert (Hl4 : length len4 = 4%nat) by apply length_le_bytes. assert (Hm8 : length mask8 = 8%nat) by apply length_le_bytes.
  rewrite (take_app_length' len4) by done. rewrite (app_assoc len4), drop_app_length' by (rewrite length_app; lia).
  rewrite (take_app_length' mask8) by done. unfold len4, mask8. rewrite (le_val_bytes 4) by (change (256 ^ Z.of_nat 4) with (2 ^ 32); lia).
  rewrite (le_val_bytes 8) by (by change (256 ^ Z.of_nat 8) with (2 ^ 64)). by rewrite Nat2Z.id.
Qed.

Definition overflows (es : list KEvent) : nat := length (filter (λ e, has (ke_mask e) FAN_Q_OVERFLOW = true) es).

Lemma scan_enc share es fuel pre sent rescans :
  Forall event_ok es → (length es < fuel)%nat →
  scan fuel share (pre ++ concat (enc_event <$> es)) (length pre) sent rescans
  = Some (sent ++ (es ≫= λ e, dispatch share (ke_mask e) (event_paths e)), (rescans + overflows es)%nat).
Proof.
  revert fuel pre sent rescans. induction es as [|e es IH]; intros [|fuel] pre sent rescans Hok Hfuel; cbn [length] in Hfuel; try lia;
    cbn [scan_events].
  - unfold remaining. rewrite app_nil_r, bool_decide_true, Nat.sub_diag by done. cbn [mbind option_bind].
    rewrite bool_decide_true by (unfold META_SZ; lia). cbn. by rewrite app_nil_r, Nat.add_0_r.
  - apply Forall_cons in Hok as [He Hok]. rewrite fmap_cons. cbn [concat]. pose proof (enc_event_length e He) as Hlen.
    unfold remaining. rewrite bool_decide_true by (rewrite length_app; lia). cbn [mbind option_bind].
    rewrite bool_decide_false by (rewrite !length_app, Hlen; unfold META_SZ; lia).
    destruct (meta_enc e pre (concat (enc_event <$> es)) He) as [fd Hmeta]. rewrite Hmeta. cbn [mbind option_bind].
    rewrite bool_decide_false by (rewrite !length_app, Hlen; unfold META_SZ; lia). cbv zeta.
    rewrite (slice_mid pre (enc_event e)) by done. cbn [mbind option_bind]. rewrite (parse_enc e He). cbn [mbind option_bind].
    rewrite app_assoc. replace (length pre + length (enc_event e))%nat with (length (pre ++ enc_event e)) by by rewrite length_app.
    rewrite (IH fuel) by (done || lia). rewrite bind_cons, <- app_assoc. f_equal. f_equal. unfold overflows. rewrite filter_cons.
    destruct (has (ke_mask e) FAN_Q_OVERFLOW); case_decide; cbn [length]; try done; lia.
Qed.

(** C22: Every event the kernel wrote into a buffer is handed on, once and in
    order: for any sequence of well-formed events the local events of the
    buffer are, event by event, those of its mask and of the paths its
    records name, with one rescan for each overflow; and all of them lie in
    the share and are not staging files. *)
Theorem watch_dispatches_all share es :
  Forall event_ok es →
  ∃ out, scan_buffer dir_of_handle share (concat (enc_event <$> es)) = Some (out, overflows es) ∧
    out = es ≫= (λ e, dispatch share (ke_mask e) (event_paths e)) ∧ Forall (in_scope share) out.
Proof.
  intros Hok. unfold scan_buffer.
  assert (Hfuel : (length es ≤ length (concat (enc_event <$> es)))%nat).
  { clear -Hok. induction Hok as [|e es He _ IH]; [done|]. rewrite fmap_cons. cbn [concat length].
    rewrite length_app, (enc_event_length e He). lia. }
  pose proof (scan_enc share es (S (length (concat (enc_event <$> es)))) [] [] 0 Hok ltac:(lia)) as Hs. cbn [app length] in Hs.
  eexists. split; [exact Hs|]. split; [done|]. eapply scan_in_scope; [exact Hs|constructor].
Qed.
End watch.

(** ** A buffer *)

(** Handles that stand for the share and a directory in it. *)
Definition ex_handles (h : list byte) : option FsPath :=
  if bool_decide (drop FH_FIXED h = [x01]) then Some ["s"] else if bool_decide (drop FH_FIXED h = [x02]) then Some ["s"; "d"] else None.
Definition ex_record (ty : Z) (h : byte) (name : string) : KRecord :=
  mkKRecord ty (replicate 8 x00) (replicate 4 x00) [h] (str_bytes name) [].
Definition ex_events : list KEvent :=
  [mkKEvent FAN_RENAME (replicate 4 x00) (replicate 8 xff) [ex_record INFO_OLD_DFID_NAME x01 "a"; ex_record INFO_NEW_DFID_NAME x02 "b"];
   mkKEvent FAN_Q_OVERFLOW (replicate 4 x00) (replicate 8 xff) [];
   mkKEvent FAN_RENAME (replicate 4 x00) (replicate 8 xff)
     [ex_record INFO_OLD_DFID_NAME x01 ".c.replicore-tmp.1.0"; ex_record INFO_NEW_DFID_NAME x01 "c"];
   mkKEvent (Z.lor FAN_DELETE FAN_CREATE) (replicate 4 x00) (replicate 8 xff) [ex_record INFO_DFID_NAME x02 "e"]].

Lemma ex_record_ok ty h name :
  0 ≤ ty < 256 → bool_decide (x00 ∉ str_bytes name) = true → (length (str_bytes name) < 100)%nat → record_ok (ex_record ty h name).
Proof.
  intros Ht Hn%bool_decide_eq_true Hl. split; try done. unfold record_body, file_handle, ex_record, HDR_SZ. cbn [kr_fsid kr_handle_type kr_handle kr_name kr_pad].
  rewrite !length_app, !length_replicate, length_le_bytes. cbn [length]. lia.
Qed.

Lemma watch_dispatches_all_witness :
  ∃ out, scan_buffer ex_handles ["s"] (concat (enc_event <$> ex_events)) = Some (out, overflows ex_events) ∧
    out = ex_events ≫= (λ e, dispatch ["s"] (ke_mask e) (event_paths ex_handles e)) ∧ Forall (in_scope ["s"]) out.
Proof.
  apply (watch_dispatches_all ex_handles ["s"] ex_events). unfold ex_events. repeat constructor; try done;
    try (apply ex_record_ok; [done|vm_compute; reflexivity|vm_compute; lia]).
Defined.

Example ex_buffer :
  scan_buffer ex_handles ["s"] (concat (enc_event <$> ex_events))
  = Some ([LocalEvent.Rename "a" ["s"; "d"; "b"]; LocalEvent.Write ["s"; "c"]; LocalEvent.Delete "d/e"; LocalEvent.Write ["s"; "d"; "e"]], 1%nat).
Proof. vm_compute. reflexivity. Qed.
