(* ===== verification/WatchStart.v ===== *)
(** * Arming the watcher (src/src/watch.rs)

    The probing of the three tiers at start-up, the masks they are armed
    with, the read loops around the parsers of the watcher, and the
    descriptors they open and close. What the kernel answers to each call
    and to each read is an input; the end of the receiving side is not
    modelled. *)

From S2P Require Import Prelude Vv Decide Metadata Conflict State Oplog Suppress Merkle Chunk Proto Fs Apply Peer Fetch Engine Ingest Scanner Watch WatchProofs.

#[local] Open Scope Z_scope.

Definition FAN_CLASS_NOTIF : Z := 0.
Definition FAN_CLOEXEC : Z := 1.
Definition FAN_REPORT_DFID_NAME : Z := 3072.
Definition FAN_MARK_ADD : Z := 1.
Definition FAN_MARK_MOUNT : Z := 16.
Definition FAN_MARK_FILESYSTEM : Z := 256.

(** The kernel's answers: to [fanotify_init] by its flags, to the opening of
    the share, to [fanotify_mark] by flags and mask ([None] when the mark is
    accepted), and the reads from the descriptor, in order. *)
Inductive ReadAnswer : Type :=
| GotBytes (buf : list byte)
| ReadInterrupted
| ReadFailed (k : IoKind).
Record Kernel : Type := mkKernel {
  kn_init : Z → result IoKind Z;
  kn_open : result IoKind Z;
  kn_mark : Z → Z → option IoKind;
  kn_reads : list ReadAnswer;
}.

Inductive WatchError : Type :=
| WIo (context : string) (k : IoKind)
| WNul (context : string).

Record Fid : Type := mkFid { fid_fan : Z; fid_mount_fd : Z; fid_rename_events : bool }.

(** What the watcher did: the events sent, the rescans asked for, the
    descriptors it still has open, and how it ended ([None] while it
    waits for the next read). *)
Record Watched : Type := mkWatched {
  wd_sent : list LocalEvent;
  wd_rescans : nat;
  wd_open : list Z;
  wd_end : option (result WatchError unit);
}.

Module WatchStart.
Section with_kernel.
Context (dir_of_handle : list byte → option FsPath) (path_of_fd : Z → option FsPath).
(** [nul]: the share's path has an interior NUL. *)
Context (kernel : Kernel) (nul : bool).

Definition BASE : Z := Z.lor (Z.lor FAN_CLOSE_WRITE FAN_ATTRIB) (Z.lor FAN_CREATE FAN_DELETE).
Definition TIER1 : Z := Z.lor BASE FAN_RENAME.
Definition TIER2 : Z := Z.lor BASE (Z.lor FAN_MOVED_FROM FAN_MOVED_TO).

(** The descriptors that stay open, and the watcher. *)
Definition init : list Z * result WatchError Fid :=
  match kn_init kernel (Z.lor (Z.lor FAN_CLASS_NOTIF FAN_REPORT_DFID_NAME) FAN_CLOEXEC) with
  | Err k => ([], Err (WIo "fanotify_init(FAN_REPORT_DFID_NAME)" k))
  | Ok fan =>
      if nul then ([fan], Err (WNul "path has interior NUL")) else
      match kn_open kernel with
      | Err k => ([], Err (WIo "open(share dir)" k))
      | Ok mount_fd =>
          let mark := kn_mark kernel (Z.lor FAN_MARK_ADD FAN_MARK_FILESYSTEM) in
          match mark TIER1 with
          | None => ([fan; mount_fd], Ok (mkFid fan mount_fd true))
          | Some _ =>
              match mark TIER2 with
              | None => ([fan; mount_fd], Ok (mkFid fan mount_fd false))
              | Some k => ([], Err (WIo "fanotify_mark(FILESYSTEM, dirent events)" k))
              end
          end
      end
  end.

(** The read loop of the two better tiers; both descriptors close when the
    watcher is dropped. [None] when a buffer is read out of its bounds. *)
Fixpoint fid_run (fid : Fid) (share : FsPath) (reads : list ReadAnswer) (sent : list LocalEvent) (rescans : nat) : option Watched :=
  match reads with
  | [] => Some (mkWatched sent rescans [fid_fan fid; fid_mount_fd fid] None)
  | ReadInterrupted :: reads => fid_run fid share reads sent rescans
  | ReadFailed k :: _ => Some (mkWatched sent rescans [] (Some (Err (WIo "read(fanotify)" k))))
  | GotBytes buf :: reads =>
      '(out, n) ← scan_buffer dir_of_handle share buf;
      fid_run fid share reads (sent ++ out) (rescans + n)
  end.

Fixpoint legacy_loop (fan : Z) (share : FsPath) (reads : list ReadAnswer) (sent : list LocalEvent) (rescans : nat) : option Watched :=
  match reads with
  | [] => Some (mkWatched sent rescans [fan] None)
  | ReadInterrupted :: reads => legacy_loop fan share reads sent rescans
  | ReadFailed k :: _ => Some (mkWatched sent rescans [] (Some (Err (WIo "read(fanotify) failed" k))))
  | GotBytes [] :: reads => legacy_loop fan share reads sent rescans
  | GotBytes buf :: reads =>
      '(out, n, _) ← legacy_buffer path_of_fd share buf;
      legacy_loop fan share reads (sent ++ out) (rescans + n)
  end.

(** [kept_open]: the descriptors an earlier attempt left open. *)
Definition run_legacy (share : FsPath) (kept_open : list Z) : option Watched :=
  match kn_init kernel (Z.lor FAN_CLASS_NOTIF FAN_CLOEXEC) with
  | Err k => Some (mkWatched [] 0 kept_open (Some (Err (WIo "fanotify_init failed (needs CAP_SYS_ADMIN / privileged container)" k))))
  | Ok fan =>
      if nul then Some (mkWatched [] 0 (kept_open ++ [fan]) (Some (Err (WNul "path has interior NUL")))) else
      match kn_mark kernel (Z.lor FAN_MARK_ADD FAN_MARK_MOUNT) FAN_CLOSE_WRITE with
      | Some k => Some (mkWatched [] 0 kept_open (Some (Err (WIo "fanotify_mark failed" k))))
      | None =>
          w ← legacy_loop fan share (kn_reads kernel) [] 0;
          Some (mkWatched (wd_sent w) (wd_rescans w) (kept_open ++ wd_open w) (wd_end w))
      end
  end.

Definition run (share : FsPath) : option Watched :=
  match init with
  | (_, Ok fid) => fid_run fid share (kn_reads kernel) [] 0
  | (kept_open, Err _) => run_legacy share kept_open
  end.
End with_kernel.
End WatchStart.

Section starts.
Context (dir_of_handle : list byte → option FsPath) (path_of_fd : Z → option FsPath) (kernel : Kernel).
Import WatchStart.

(** The buffers a read loop gets before a read fails for good. *)
Fixpoint buffers (reads : list ReadAnswer) : list (list byte) :=
  match reads with
  | [] | ReadFailed _ :: _ => []
  | ReadInterrupted :: reads => buffers reads
  | GotBytes buf :: reads => buf :: buffers reads
  end.
Fixpoint failed (reads : list ReadAnswer) : bool :=
  match reads with [] => false | ReadFailed _ :: _ => true | _ :: reads => failed reads end.

Definition fid_events (share : FsPath) (buf : list byte) : list LocalEvent := default [] (fst <$> scan_buffer dir_of_handle share buf).
Definition legacy_writes (share : FsPath) (buf : list byte) : list LocalEvent := default [] ((λ r, r.1.1) <$> legacy_buffer path_of_fd share buf).

Lemma fid_run_all fid share reads sent n :
  ∃ w, fid_run dir_of_handle fid share reads sent n = Some w ∧ wd_sent w = sent ++ (buffers reads ≫= fid_events share) ∧
    wd_open w = (if failed reads then [] else [fid_fan fid; fid_mount_fd fid]) ∧ (wd_end w = None ↔ failed reads = false).
Proof.
  revert sent n. induction reads as [|[buf| |k] reads IH]; intros sent n; cbn [fid_run buffers failed].
  - eexists. split; [reflexivity|]. cbn. by rewrite app_nil_r.
  - destruct (proj1 (watch_bounds dir_of_handle path_of_fd share buf)) as [[out m] Hout]. assert (Hl : fid_events share buf = out) by (unfold fid_events; by rewrite Hout). rewrite Hout. cbn [mbind option_bind].
    destruct (IH (sent ++ out) (n + m)%nat) as (w & Hw & Hs & Ho). exists w. split; [done|]. split; [|done].
    rewrite Hs, <- (assoc_L (++)). f_equal. cbn [mbind list_bind]. by rewrite Hl.
  - apply IH.
  - eexists. split; [reflexivity|]. cbn. by rewrite app_nil_r.
Qed.

Lemma legacy_loop_all fan share reads sent n :
  ∃ w, legacy_loop path_of_fd fan share reads sent n = Some w ∧ wd_sent w = sent ++ (buffers reads ≫= legacy_writes share) ∧
    wd_open w = (if failed reads then [] else [fan]) ∧ (wd_end w = None ↔ failed reads = false).
Proof.
  revert sent n. induction reads as [|[buf| |k] reads IH]; intros sent n; cbn [legacy_loop buffers failed].
  - eexists. split; [reflexivity|]. cbn. by rewrite app_nil_r.
  - destruct (proj2 (watch_bounds dir_of_handle path_of_fd share buf)) as [[[out m] closed] Hout].
    assert (Hl : legacy_writes share buf = out) by (unfold legacy_writes; by rewrite Hout).
    destruct buf as [|b buf]; [|rewrite Hout; cbn [mbind option_bind]].
    + destruct (IH sent n) as (w & Hw & Hs & Ho). exists w. split; [done|]. split; [|done]. rewrite Hs. f_equal.
    + destruct (IH (sent ++ out) (n + m)%nat) as (w & Hw & Hs & Ho). exists w. split; [done|]. split; [|done].
      rewrite Hs, <- (assoc_L (++)). f_equal. cbn [mbind list_bind]. by rewrite Hl.
  - apply IH.
  - eexists. split; [reflexivity|]. cbn. by rewrite app_nil_r.
Qed.

(** The mask the kernel took for the better tiers, if any. *)
Definition armed : option Z :=
  match kn_init kernel (Z.lor (Z.lor FAN_CLASS_NOTIF FAN_REPORT_DFID_NAME) FAN_CLOEXEC), kn_open kernel with
  | Ok _, Ok _ =>
      let mark := kn_mark kernel (Z.lor FAN_MARK_ADD FAN_MARK_FILESYSTEM) in
      if bool_decide (mark TIER1 = None) then Some TIER1 else if bool_decide (mark TIER2 = None) then Some TIER2 else None
  | _, _ => None
  end.

Lemma init_armed :
  match armed with
  | Some mask => ∃ fid, init kernel false = ([fid_fan fid; fid_mount_fd fid], Ok fid) ∧ fid_rename_events fid = bool_decide (mask = TIER1)
  | None => ∃ e, init kernel false = ([], Err e)
  end.
Proof.
  unfold armed, init. destruct (kn_init _ _) as [fan|]; [|by eexists]. destruct (kn_open kernel) as [mnt|]; [|by eexists]. cbv zeta.
  destruct (kn_mark kernel _ TIER1); [rewrite bool_decide_false by done|rewrite bool_decide_true by done; by eexists (mkFid fan mnt true)].
  destruct (kn_mark kernel _ TIER2); [rewrite bool_decide_false by done; by eexists|rewrite bool_decide_true by done; by eexists (mkFid fan mnt false)].
Qed.

(** What a bit of the mask becomes for an object inside the share. *)
Definition reported (share p : FsPath) (r : string) (bit : Z) : list LocalEvent :=
  if bool_decide (bit ∈ [FAN_DELETE; FAN_MOVED_FROM]) then [LocalEvent.Delete r] else [LocalEvent.Write p].

(** The bits with one object. *)
Definition single_bits : list Z := [FAN_CLOSE_WRITE; FAN_ATTRIB; FAN_CREATE; FAN_DELETE; FAN_MOVED_FROM; FAN_MOVED_TO].

Lemma mask_bits mask k : mask = TIER1 ∨ mask = TIER2 → Z.testbit mask k = true → 2 ^ k = FAN_RENAME ∨ 2 ^ k ∈ single_bits.
Proof.
  intros Hm Hk. assert (Hrange : 0 ≤ k < 29).
  { destruct (decide (k < 0)); [by rewrite Z.testbit_neg_r in Hk|]. destruct (decide (29 ≤ k)); [|lia].
    rewrite Z.bits_above_log2 in Hk; [done|by destruct Hm as [->| ->]|]. destruct Hm as [->| ->].
    - replace (Z.log2 TIER1) with 28 by (vm_compute; reflexivity). lia.
    - replace (Z.log2 TIER2) with 9 by (vm_compute; reflexivity). lia. }
  assert (Hall : Forall (λ k, Z.testbit TIER1 k || Z.testbit TIER2 k = true → 2 ^ k = FAN_RENAME ∨ 2 ^ k ∈ single_bits) (seqZ 0 29)) by vm_decide.
  rewrite Forall_forall in Hall. apply Hall; [apply elem_of_seqZ; lia|]. destruct Hm as [->| ->]; rewrite Hk; [done|apply orb_true_r].
Qed.

Lemma tier_rename_reported share old new r :
  inside share old = true → inside share new = true → rel share old = Some r →
  dispatch share FAN_RENAME (mkEventPaths None (Some old) (Some new)) = [LocalEvent.Rename r new].
Proof.
  intros Ho Hn Hr. unfold dispatch, kept. cbn. rewrite Ho, Hn. cbn. unfold inside in Ho. apply andb_true_iff in Ho as [_ Ho].
  apply negb_true_iff in Ho. rewrite ?Ho, Hr. reflexivity.
Qed.

Lemma tier_bits_reported share p r bit :
  inside share p = true → rel share p = Some r → bit ∈ single_bits →
  dispatch share bit (mkEventPaths (Some p) None None) = reported share p r bit.
Proof.
  intros Hi Hr Hb. unfold single_bits in Hb. rewrite !elem_of_cons in Hb.
  destruct Hb as [->|[->|[->|[->|[->|[->|Hb]]]]]]; [unfold dispatch, kept, reported; cbn; rewrite Hi; cbn; rewrite ?Hr; reflexivity..|by apply elem_of_nil in Hb].
Qed.
Definition legacy_armed : bool :=
  match kn_init kernel (Z.lor FAN_CLASS_NOTIF FAN_CLOEXEC) with
  | Ok _ => bool_decide (kn_mark kernel (Z.lor FAN_MARK_ADD FAN_MARK_MOUNT) FAN_CLOSE_WRITE = None)
  | Err _ => false
  end.

Lemma run_legacy_all share :
  ∃ w, run_legacy path_of_fd kernel false share [] = Some w ∧
    wd_sent w = (if legacy_armed then buffers (kn_reads kernel) ≫= legacy_writes share else []) ∧
    (is_Some (wd_end w) → wd_open w = []) ∧ (wd_end w = None ↔ legacy_armed = true ∧ failed (kn_reads kernel) = false).
Proof.
  unfold run_legacy, legacy_armed. destruct (kn_init _ _) as [fan|k]; [|eexists; split; [reflexivity|]; naive_solver].
  destruct (kn_mark _ _ _) as [k|]; [eexists; split; [reflexivity|]; rewrite bool_decide_false by done; naive_solver|]. rewrite bool_decide_true by done.
  destruct (legacy_loop_all fan share (kn_reads kernel) [] 0) as (w & -> & Hs & Ho & He). cbn [mbind option_bind app]. eexists. split; [reflexivity|].
  cbn. split; [done|]. rewrite Ho. split; [|rewrite He; naive_solver]. intros [x Hx]. destruct (failed _); [done|]. by rewrite (proj2 He eq_refl) in Hx.
Qed.

(** The watcher arms the best tier the kernel takes - a mask with
    renames, one with the two halves of a move, or close-write on the mount -
    and sends the events of every buffer it reads, in order and once,
    whatever reads are interrupted in between; it ends only when no tier can
    be armed or a read fails, and then every descriptor it opened is closed.
    Every bit it arms is one the dispatch reports for an object of the
    share. *)
Theorem watch_tiers_probed (share : FsPath) :
  ∃ w, run dir_of_handle path_of_fd kernel false share = Some w ∧
    wd_sent w = match armed with
                | Some _ => buffers (kn_reads kernel) ≫= fid_events share
                | None => if legacy_armed then buffers (kn_reads kernel) ≫= legacy_writes share else []
                end ∧
    (is_Some (wd_end w) → wd_open w = []) ∧
    (wd_end w = None ↔ (is_Some armed ∨ legacy_armed = true) ∧ failed (kn_reads kernel) = false) ∧
    (∀ mask k, armed = Some mask → Z.testbit mask k = true → 2 ^ k = FAN_RENAME ∨ 2 ^ k ∈ single_bits) ∧
    (∀ p r bit, inside share p = true → rel share p = Some r → bit ∈ single_bits →
       dispatch share bit (mkEventPaths (Some p) None None) = reported share p r bit) ∧
    (∀ old new r, inside share old = true → inside share new = true → rel share old = Some r →
       dispatch share FAN_RENAME (mkEventPaths None (Some old) (Some new)) = [LocalEvent.Rename r new]).
Proof.
  assert (Hmask : ∀ mask k, armed = Some mask → Z.testbit mask k = true → 2 ^ k = FAN_RENAME ∨ 2 ^ k ∈ single_bits).
  { intros mask k Ha. apply mask_bits. revert Ha. unfold armed. destruct (kn_init _ _), (kn_open kernel); try done. cbv zeta.
    repeat case_bool_decide; intros [= <-]; auto. }
  assert (Hbits := tier_bits_reported share). assert (Hren := tier_rename_reported share). pose proof init_armed as Hinit. unfold run. destruct armed as [mask|].
  - destruct Hinit as (fid & -> & _). destruct (fid_run_all fid share (kn_reads kernel) [] 0) as (w & Hw & Hs & Ho & He). exists w. split_and!; try done.
    + intros [x Hx]. rewrite Ho. destruct (failed _); [done|]. by rewrite (proj2 He eq_refl) in Hx.
    + rewrite He. split; [intros Hf; split; [left; by eexists|done]|by intros [_ ?]].
  - destruct Hinit as [e ->]. destruct (run_legacy_all share) as (w & Hw & Hs & Ho & He). exists w. split_and!; try done.
    + rewrite He. split; [naive_solver|]. intros [[[x Hx]|Hl] Hf]; done.
Qed.
End starts.

(** ** A kernel without rename events *)

Definition kernel2 : Kernel :=
  mkKernel (λ _, Ok 3) (Ok 4) (λ _ mask, if bool_decide (mask = WatchStart.TIER1) then Some InvalidInput else None)
    [ReadInterrupted; GotBytes (concat (enc_event <$> ex_events)); ReadFailed OtherIo; GotBytes [x00]].

Lemma watch_tiers_probed_witness :
  ∃ w, WatchStart.run ex_handles (λ _, None) kernel2 false ["s"] = Some w ∧ length (wd_sent w) = 4%nat ∧
    dispatch ["s"] FAN_MOVED_TO (mkEventPaths (Some ["s"; "d"]) None None) = [LocalEvent.Write ["s"; "d"]].
Proof.
  destruct (watch_tiers_probed ex_handles (λ _, None) kernel2 ["s"]) as (w & Hw & Hs & _ & _ & _ & Hbits & _).
  exists w. split; [exact Hw|]. split; [rewrite Hs; vm_compute; reflexivity|].
  rewrite (Hbits ["s"; "d"] "d" FAN_MOVED_TO); [reflexivity|vm_compute; reflexivity|vm_compute; reflexivity|vm_decide].
Defined.
