(* ===== verification/Stats.v ===== *)
(** * Counters (src/src/stats.rs)

    The atomic counters the engine, the status views and the health endpoint
    share, at their widths: [fetch_add] and [fetch_sub] wrap around. *)

From S2P Require Import Prelude.

Record Stats : Type := mkStats {
  sc_chunks_fetched : Z;
  sc_chunks_served : Z;
  sc_bytes_in : Z;
  sc_bytes_out : Z;
  sc_manifests_fetched : Z;
  sc_reconcile_runs : Z;
  sc_inflight_transfers : Z;
  sc_conflicts : Z;
  sc_chunks_cache_hits : Z;
  sc_freespace_trips : Z;
  sc_apply_errors : Z;
}.

Module Counter.
Definition inc (counter : Z) : Z := u64_add counter 1.
Definition add (counter n : Z) : Z := u64_add counter n.
Definition gauge_inc (gauge : Z) : Z := i64_add gauge 1.
Definition gauge_dec (gauge : Z) : Z := i64_add gauge (-1).
End Counter.

(** [Stats::default()]. *)
Definition no_stats : Stats := mkStats 0 0 0 0 0 0 0 0 0 0 0.

(** A chunk was served. *)
Definition count_served (len : Z) (s : Stats) : Stats :=
  mkStats (sc_chunks_fetched s) (Counter.inc (sc_chunks_served s)) (sc_bytes_in s) (Counter.add (sc_bytes_out s) len)
    (sc_manifests_fetched s) (sc_reconcile_runs s) (sc_inflight_transfers s) (sc_conflicts s) (sc_chunks_cache_hits s)
    (sc_freespace_trips s) (sc_apply_errors s).
