(* ===== verification/Control.v ===== *)
(** * The control plane (src/src/control.rs and its views in src/src/net.rs)

    The commands of [replicorectl] as a function from the daemon's state to
    its state and the reply, the views they show, and the creation of the
    socket. Who may connect is a check of user ids; the contents of files and
    what peers answer, to queries and in reconcile sessions, are inputs. *)

From stdpp Require Import pretty.
From S2P Require Import Prelude Vv Decide Metadata Conflict State Oplog Admin Membership Suppress Join Merkle Chunk Proto Fs Apply Peer Fetch Engine.
From S2P Require Import Reconcile Ingest Float Qos Config Policy Stats.

(** ** Requests and replies *)

Module CtlRequest.
Inductive t : Type :=
| Status (all : bool)
| Members
| Peers
| Lag
| Conflicts
| Transfers
| Version
| ConfigValidate (path : string)
| ConfigDiff (path : string)
| ConfigReload (path : string)
| PrepareEntry (node : NodeId)
| MemberAdd (entry : SignedEntry)
| MemberRemove (entry : SignedEntry)
| Resync (node : option NodeId)
| Pause
| Resume
| Bandwidth (set : option (Z * Z)).
End CtlRequest.
Abbreviation CtlRequest := CtlRequest.t.

Record NodeStatus : Type := mkNodeStatus {
  ns_node_id : string;
  ns_lifecycle : string;
  ns_effective_members : Z;
  ns_live_peers : Z;
  ns_conflicts : Z;
  ns_inflight_transfers : Z;
  ns_paused : bool;
  ns_roster_digest : string;
  ns_proto_version : Z;
}.
Record PeerStatusEntry : Type := mkPeerStatusEntry { pe_node_id : string; pe_reachable : bool; pe_status : option NodeStatus }.
Record StatusReport : Type := mkStatusReport { sr_local : NodeStatus; sr_peers : list PeerStatusEntry }.
Record MemberView : Type := mkMemberView { mv_node_id : string; mv_addr : string; mv_fingerprint : string; mv_epoch : Z; mv_kind : string }.
Record PeerView : Type := mkPeerView { pv_node_id : string; pv_state : string; pv_connected : bool }.
Record LagView : Type := mkLagView { lv_node_id : string; lv_recv_cursor : Z; lv_last_acked : Z; lv_our_latest : Z }.
Record TransfersView : Type := mkTransfersView { tv_inflight : Z; tv_chunks_fetched : Z; tv_chunks_served : Z; tv_bytes_in : Z; tv_bytes_out : Z }.
Record VersionView : Type := mkVersionView { vv_node_id : string; vv_proto_version : Z; vv_pkg_version : string }.

Module CtlResponse.
Inductive t : Type :=
| Status (r : StatusReport)
| Members (l : list MemberView)
| Peers (l : list PeerView)
| Lag (l : list LagView)
| Conflicts (n : Z)
| Transfers (v : TransfersView)
| Version (v : VersionView)
| Diff (l : list ConfigChange)
| Prepared (epoch : Z) (addr fingerprint : option string)
| Ok (text : string)
| Error (text : string)
| Bandwidth (global_bps per_peer_bps : Z).
End CtlResponse.
Abbreviation CtlResponse := CtlResponse.t.

(** The texts of errors. *)
Class ErrorTexts := { config_error_text : ConfigError → string; membership_error_text : MembershipError → string }.

(** ** The daemon's state the commands see *)

Record Daemon : Type := mkDaemon {
  dm_boot : Config;
  dm_disk : Disk;
  dm_membership : Inner;
  dm_policy : PolicyState;
  dm_join : JoinTracker;
  dm_conns : ConnRegistry;
  dm_peers : PeerRegistry;
  dm_stats : Stats;
  dm_store : StoreState;
  dm_host : Host;
}.

(** What a reconcile session meets: the peer's answers, a bound on its
    listings, what other tasks do at its awaits, and what its transfers do to
    the transfer counters. *)
Record SessionInput : Type := mkSessionInput {
  sn_answer : Reconcile.Answer;
  sn_fuel : nat;
  sn_turns : list Turn;
  sn_transfers : Stats → Stats;
}.

(** What the world answers while a command runs: the text of a file, the
    failure of the roster's read and of its save, a peer's status (none when
    it does not answer in time), what a reconcile session with a peer meets,
    the clock. *)
Record Answers : Type := mkAnswers {
  an_file : string → result IoKind string;
  an_world : World;
  an_cwd : FsPath;
  an_read_fault : ReadFault;
  an_save_fault : SaveFault;
  an_query : NodeId → option NodeStatus;
  an_reconcile : NodeId → SessionInput;
  an_now : Z;
}.

Definition PKG_VERSION : string := "1.0.0".

Module Control.
Section with_externals.
Context `{!Blake3, !Bincode, !Hex, !Scan, !Ed25519, !Toml, !HexDecode, !Texts, !ErrorTexts, !HashIter}.

Definition set_membership (disk : Disk) (m : Inner) (d : Daemon) : Daemon :=
  mkDaemon (dm_boot d) disk m (dm_policy d) (dm_join d) (dm_conns d) (dm_peers d) (dm_stats d) (dm_store d) (dm_host d).
Definition set_policy (p : PolicyState) (d : Daemon) : Daemon :=
  mkDaemon (dm_boot d) (dm_disk d) (dm_membership d) p (dm_join d) (dm_conns d) (dm_peers d) (dm_stats d) (dm_store d) (dm_host d).

(** [Engine::new]: the daemon before its first task runs; [now] is the clock
    the buckets start from. *)
Definition new_engine (cfg : Config) (disk : Disk) (m : Inner) (st : StoreState) (host : Host) (now : Z) : Daemon :=
  let b := c_bandwidth cfg in
  mkDaemon cfg disk m
    (mkPolicyState false false 0 0 (c_reserve_bytes cfg) (hundredths (c_reserve_percent cfg)) b
       (Limiter.new (bw_global_bps b) (bw_per_peer_bps b) now))
    (JoinTracker.new (p_node_id <$> Membership.effective_peers m)) ∅ ∅ no_stats st host.

Definition id_text (id : NodeId) : string := hex_encode (ba_list id).
Definition hash_text (h : hash32) : string := hex_encode (ba_list h).

(** ** Views *)

Definition local_status (d : Daemon) : NodeStatus :=
  mkNodeStatus (id_text (c_node_id (dm_boot d))) (Lifecycle.as_str (jt_state (dm_join d)))
    (Z.of_nat (length (Membership.effective_peers (dm_membership d)))) (Z.of_nat (ConnRegistry.len (dm_conns d)))
    (sc_conflicts (dm_stats d)) (sc_inflight_transfers (dm_stats d)) (Policy.is_paused (dm_policy d))
    (hash_text (Membership.roster_digest (dm_membership d))) PROTO_VERSION.

Definition status_report (a : Answers) (all : bool) (d : Daemon) : StatusReport :=
  mkStatusReport (local_status d)
    (if all then
       (λ p, let st := an_query a p.1 in mkPeerStatusEntry (id_text p.1) (bool_decide (is_Some st)) st) <$> ConnRegistry.all (dm_conns d)
     else []).

Definition kind_text (k : EntryKind) : string := match k with EntryKind.Add => "add" | EntryKind.Remove => "remove" end.
Definition member_views (d : Daemon) : list MemberView :=
  (λ e, mkMemberView (id_text (se_node_id e)) (addr_text (se_addr e)) (hash_text (se_fingerprint e)) (se_epoch e) (kind_text (se_kind e)))
    <$> Membership.roster_snapshot (dm_membership d).

Definition member_addr_fp (node : NodeId) (d : Daemon) : option string * option string :=
  match head (filter (λ p, p_node_id p = node) (Membership.effective_peers (dm_membership d))) with
  | Some p => (Some (addr_text (p_addr p)), Some (hash_text (p_fingerprint p)))
  | None => (None, None)
  end.

Definition peer_views (d : Daemon) : list PeerView :=
  let connected := (ConnRegistry.all (dm_conns d)).*1 in
  (λ p, mkPeerView (id_text p.1) (PeerState.as_str (ps_state p.2)) (bool_decide (p.1 ∈ connected))) <$> PeerRegistry.snapshot (dm_peers d).

(** The cursors are read by commands of the store; an error counts as 0. *)
Definition cursor (cmd : StoreCmd) (d : Daemon) : Z :=
  match (store_step (c_node_id (dm_boot d)) (dm_store d) cmd).2 with RInt (Ok n) => n | _ => 0 end.
Definition lag_views (d : Daemon) : list LagView :=
  (λ p, mkLagView (id_text (p_node_id p)) (cursor (RecvCursor (p_node_id p)) d) (cursor (LastAcked (p_node_id p)) d) (ss_latest (dm_store d)))
    <$> Membership.effective_peers (dm_membership d).

Definition transfers_view (d : Daemon) : TransfersView :=
  let s := dm_stats d in
  mkTransfersView (sc_inflight_transfers s) (sc_chunks_fetched s) (sc_chunks_served s) (sc_bytes_in s) (sc_bytes_out s).
Definition version_view (d : Daemon) : VersionView := mkVersionView (id_text (c_node_id (dm_boot d))) PROTO_VERSION PKG_VERSION.

(** ** Anti-entropy on demand *)

(** The parts of the configuration the engine reads. *)
Definition engine_cfg (c : Config) : EngineCfg :=
  mkEngineCfg (c_node_id c) (c_max_file_bytes c) (c_chunk_max_bytes c) (c_per_file_chunk_concurrency c) (c_owner_policy c).

(** The engine's view of the daemon during a session, and what the session
    leaves of it; [completed] sessions are counted. *)
Definition engine_view (i : SessionInput) (d : Daemon) : EngineState :=
  mkEngineState (dm_store d) (dm_host d) (dm_conns d) (sc_conflicts (dm_stats d)) (sc_apply_errors (dm_stats d)) (sn_turns i).
Definition session_stats (i : SessionInput) (completed : bool) (s : EngineState) (c : Stats) : Stats :=
  let t := sn_transfers i c in
  mkStats (sc_chunks_fetched t) (sc_chunks_served t) (sc_bytes_in t) (sc_bytes_out t) (sc_manifests_fetched t)
    (if completed then Counter.inc (sc_reconcile_runs c) else sc_reconcile_runs c) (sc_inflight_transfers t) (es_conflicts s)
    (sc_chunks_cache_hits t) (sc_freespace_trips t) (es_apply_errors s).
Definition after_session (i : SessionInput) (completed : bool) (s : EngineState) (d : Daemon) : Daemon :=
  mkDaemon (dm_boot d) (dm_disk d) (dm_membership d) (dm_policy d) (dm_join d) (es_conns s) (dm_peers d)
    (session_stats i completed s (dm_stats d)) (es_store s) (es_host s).

(** [reconcile_with(..).await.is_ok()]; [None]: the session did not come back,
    because the process was killed in it or the fuel ran out. *)
Definition reconcile_session (a : Answers) (peer : NodeId) (d : Daemon) : Daemon * option bool :=
  let i := an_reconcile a peer in
  match Reconcile.reconcile_with (engine_cfg (dm_boot d)) (sn_answer i) (sn_fuel i) peer (engine_view i d) with
  | Some (Ok (s, _, _)) => (after_session i true s d, Some true)
  | Some (Err (s, Some _)) => (after_session i false s d, Some false)
  | Some (Err (s, None)) => (after_session i false s d, None)
  | None => (d, None)
  end.

(** [resync] over the links that were live when it began: the daemon and how
    many links were reconciled. A session that does not come back ends it;
    the count is then of no consequence, the reply is not received. *)
Fixpoint resync_links (a : Answers) (node : option NodeId) (eff : list NodeId) (links : list (NodeId * PeerConn)) (count : Z) (d : Daemon)
  : Daemon * Z :=
  match links with
  | [] => (d, count)
  | (id, _) :: links =>
      if match node with Some n => bool_decide (n ≠ id) | None => false end then resync_links a node eff links count d
      else if bool_decide (id ∈ eff) then
        match reconcile_session a id d with
        | (d, Some true) => resync_links a node eff links (count + 1) d
        | (d, Some false) => resync_links a node eff links count d
        | (d, None) => (d, count)
        end
      else resync_links a node eff links count d
  end.
Definition resync (a : Answers) (node : option NodeId) (d : Daemon) : Daemon * Z :=
  resync_links a node (p_node_id <$> Membership.effective_peers (dm_membership d)) (ConnRegistry.all (dm_conns d)) 0 d.

(** ** Reload *)

Definition live_settings (d : Daemon) : LiveSettings :=
  let p := dm_policy d in
  mkLiveSettings (dm_membership d) (ps_bandwidth p) (Limiter.rates (ps_limiter p)) (ps_reserve_bytes p) (ps_reserve_pct_bp p).
Definition put_settings (now : Z) (s : LiveSettings) (d : Daemon) : Daemon :=
  let p := dm_policy d in
  set_policy (mkPolicyState (ps_paused p) (ps_guard_paused p) (ps_notified p) (ps_trips p) (ls_reserve_bytes s) (ls_reserve_pct_bp s)
    (ls_policy s) (Limiter.set_rates (ls_rates s).1 (ls_rates s).2 now (ps_limiter p)))
    (set_membership (dm_disk d) (ls_membership s) d).

Definition fields (l : list ConfigChange) (hot : bool) : string := String.concat ", " (ch_field <$> filter (λ c, ch_hot c = hot) l).

Definition load_at (a : Answers) (path : string) : result ConfigError Config := Config.load (an_world a) (an_cwd a) path (an_file a path).

Definition config_reload (a : Answers) (path : string) (d : Daemon) : Daemon * CtlResponse :=
  match load_at a path with
  | Err e => (d, CtlResponse.Error (path +:+ ": " +:+ config_error_text e +:+ " (running config untouched)"))
  | Ok cand =>
      match reload (dm_disk d) (an_read_fault a) (dm_boot d) cand (live_settings d) with
      | (_, Err e) => (d, CtlResponse.Error ("reload failed: " +:+ membership_error_text e +:+ " (running config untouched)"))
      | (s, Ok changes) =>
          (put_settings (an_now a) s d,
           CtlResponse.Ok ("reloaded; applied hot: [" +:+ fields changes true +:+ "]; restart-required (ignored): [" +:+ fields changes false +:+ "]"))
      end
  end.

(** ** Membership *)

Definition member_change (a : Answers) (entry : SignedEntry) (d : Daemon) : Daemon * CtlResponse :=
  let '(disk, m, res) := Membership.merge_signed (dm_disk d) (dm_membership d) entry (an_save_fault a) in
  (set_membership disk m d,
   match res with
   | Ok MergeOutcome.Applied => CtlResponse.Ok "membership change applied and gossiped"
   | Ok MergeOutcome.Superseded => CtlResponse.Ok "no change (entry superseded by a newer one)"
   | Ok MergeOutcome.Rejected => CtlResponse.Error "signature rejected: not signed by the admin key"
   | Err MembershipError.NoAdminKey => CtlResponse.Error "this node has no [trust] admin_pubkey configured"
   | Err e => CtlResponse.Error ("membership change failed: " +:+ membership_error_text e)
   end).

(** ** Dispatch *)

Definition dispatch (a : Answers) (req : CtlRequest) (d : Daemon) : Daemon * CtlResponse :=
  match req with
  | CtlRequest.Status all => (d, CtlResponse.Status (status_report a all d))
  | CtlRequest.Members => (d, CtlResponse.Members (member_views d))
  | CtlRequest.Peers => (d, CtlResponse.Peers (peer_views d))
  | CtlRequest.Lag => (d, CtlResponse.Lag (lag_views d))
  | CtlRequest.Conflicts => (d, CtlResponse.Conflicts (sc_conflicts (dm_stats d)))
  | CtlRequest.Transfers => (d, CtlResponse.Transfers (transfers_view d))
  | CtlRequest.Version => (d, CtlResponse.Version (version_view d))
  | CtlRequest.ConfigValidate path =>
      (d, match load_at a path with
          | Ok _ => CtlResponse.Ok (path +:+ ": valid")
          | Err e => CtlResponse.Error (path +:+ ": " +:+ config_error_text e)
          end)
  | CtlRequest.ConfigDiff path =>
      (d, match load_at a path with
          | Ok cand => CtlResponse.Diff (diff (dm_boot d) cand)
          | Err e => CtlResponse.Error (path +:+ ": " +:+ config_error_text e)
          end)
  | CtlRequest.ConfigReload path => config_reload a path d
  | CtlRequest.PrepareEntry node =>
      let '(addr, fingerprint) := member_addr_fp node d in
      (d, CtlResponse.Prepared (Membership.next_epoch_for (dm_membership d) node) addr fingerprint)
  | CtlRequest.MemberAdd entry | CtlRequest.MemberRemove entry => member_change a entry d
  | CtlRequest.Resync node =>
      let '(d, n) := resync a node d in
      (d, CtlResponse.Ok ("resync triggered on " +:+ pretty n +:+ " link(s)"))
  | CtlRequest.Pause => (set_policy (Policy.pause (dm_policy d)) d, CtlResponse.Ok "replication paused (in-flight transfers finish)")
  | CtlRequest.Resume => (set_policy (Policy.notify_waiters (Policy.unpause (dm_policy d))) d, CtlResponse.Ok "replication resumed")
  | CtlRequest.Bandwidth set =>
      let d := match set with Some (g, p) => set_policy (Policy.set_bandwidth g p (an_now a) (dm_policy d)) d | None => d end in
      let '(g, p) := Policy.bandwidth_rates (dm_policy d) in
      (d, CtlResponse.Bandwidth g p)
  end.

(** ** Connections *)

(** [peer_uid]: what the socket's credentials say, if they can be read. *)
Definition admitted (our_uid : Z) (peer_uid : option Z) : bool :=
  match peer_uid with Some uid => bool_decide (uid = our_uid) || bool_decide (uid = 0) | None => false end.

(** A connection: the credentials, the request that is read, whether the
    reply can be written; the reply written, if any. *)
Definition handle_conn (a : Answers) (our_uid : Z) (peer_uid : option Z) (req : option CtlRequest) (d : Daemon) : Daemon * option CtlResponse :=
  if admitted our_uid peer_uid then
    match req with
    | Some req => let '(d, resp) := dispatch a req d in (d, Some resp)
    | None => (d, None)
    end
  else (d, None).
End with_externals.

(** What is left of the path of the socket before it is bound: the removal of
    whatever file is there, its outcome ignored. *)
Definition clear_socket (path : FsPath) (w : World) : World := match w !! path with Some Dir | None => w | Some _ => delete path w end.
Definition bind_socket (path : FsPath) (w : World) : option World :=
  match w !! path with Some _ => None | None => Some (<[path := Sock]> w) end.
End Control.
