(* ===== verification/ControlProofs.v ===== *)
(** * The control plane: what a command can change

    Only signed entries and accepted configuration files move the
    membership, only a resync moves the replicated state, an entry signed for
    the prepared epoch is applied, and runs that show where the comments say
    otherwise. *)

From stdpp Require Import pretty.
From S2P Require Import Prelude Vv Decide Metadata Conflict ConflictProofs State Oplog Admin Membership MembershipProofs Suppress Join Merkle Chunk.
From S2P Require Import Proto Fs Apply ApplyProofs Peer Fetch Engine EngineProofs Reconcile SubscriberProofs Ingest Float Qos Config Policy Stats Control.
Import Control.

#[local] Open Scope Z_scope.

Section control.
Context `{!Blake3, !Bincode, !Hex, !Scan, !Ed25519, !Toml, !HexDecode, !Texts, !ErrorTexts, !HashIter}.

Definition member_entry (req : CtlRequest) : option SignedEntry :=
  match req with CtlRequest.MemberAdd e | CtlRequest.MemberRemove e => Some e | _ => None end.

Lemma merge_needs_signature disk m e fault disk' m' res :
  Membership.merge_signed disk m e fault = (disk', m', res) →
  (disk' = disk ∧ m' = m) ∨ ∃ pk, admin_pubkey m = Some pk ∧ Roster.verify e pk = true.
Proof.
  unfold Membership.merge_signed, Membership.stage. destruct (admin_pubkey m) as [pk|]; [|by intros [= <- <- <-]; left].
  destruct (Roster.verify e pk) eqn:Hv; [by right; exists pk|]. unfold Roster.merge_entry. rewrite Hv. cbn.
  intros [= <- <- <-]. by left.
Qed.

Lemma reload_needs_file a path d d' resp :
  config_reload a path d = (d', resp) →
  dm_store d' = dm_store d ∧ dm_disk d' = dm_disk d ∧ (dm_membership d' = dm_membership d ∨ ∃ cand, load_at a path = Ok cand).
Proof.
  unfold config_reload. destruct (load_at a path) as [cand|e]; [|by intros [<- _]%pair_equal_spec; eauto].
  destruct (reload _ _ _ _ _) as [s [changes|e]]; intros [<- _]%pair_equal_spec; eauto.
Qed.

(** *** Resync *)

(** The parts of the daemon a reconcile session has no hand in. *)
Record beside (d d' : Daemon) : Prop := {
  bs_boot : dm_boot d' = dm_boot d;
  bs_disk : dm_disk d' = dm_disk d;
  bs_membership : dm_membership d' = dm_membership d;
  bs_policy : dm_policy d' = dm_policy d;
  bs_join : dm_join d' = dm_join d;
  bs_peers : dm_peers d' = dm_peers d;
}.

#[local] Instance beside_preorder : PreOrder beside.
Proof. split; [by split|]. intros d1 d2 d3 [] []. split; congruence. Qed.

(** A command to the store that a reconcile session issues, or that another
    task issues during one. *)
Definition session_cmd (a : Answers) (cmd : StoreCmd) : Prop :=
  harmless cmd ∨ cmd = AllFiles ∨ (∃ row, cmd = ReconcileUpsert row) ∨ (∃ path v staged, cmd = ResolveRows path v staged) ∨
  ∃ peer t, t ∈ sn_turns (an_reconcile a peer) ∧ cmd ∈ tu_cmds t.

(** The store moves by such commands only. *)
Definition store_moved (a : Answers) (d d' : Daemon) : Prop :=
  ∃ cmds, dm_store d' = run_store (c_node_id (dm_boot d)) (dm_store d) cmds ∧ Forall (session_cmd a) cmds.

Lemma store_moved_trans a d1 d2 d3 :
  dm_boot d2 = dm_boot d1 → store_moved a d1 d2 → store_moved a d2 d3 → store_moved a d1 d3.
Proof.
  intros Hb (cmds & Hst & Hall) (cmds' & Hst' & Hall'). exists (cmds ++ cmds'). split; [|by apply Forall_app].
  rewrite Hst', Hst, Hb. unfold run_store. by rewrite foldl_app.
Qed.

Lemma session_moves a peer d :
  let '(d', _) := reconcile_session a peer d in beside d d' ∧ store_moved a d d'.
Proof.
  unfold reconcile_session. set (i := an_reconcile a peer). set (s := engine_view i d). set (cfg := engine_cfg (dm_boot d)).
  assert (Hturns : turns_meet (session_cmd a) s).
  { apply Forall_forall. intros t Ht. apply Forall_forall. intros cmd Hc. do 4 right. by exists peer, t. }
  assert (Hm : ∀ r, Reconcile.reconcile_with cfg (sn_answer i) (sn_fuel i) peer s = Some r →
    moved_by cfg (session_cmd a) s match r with Ok (s', _, _) => s' | Err (s', _) => s' end).
  { intros r. apply reconcile_moved; intros; [by left|by right; left|do 2 right; left; by eexists|do 3 right; left; by do 3 eexists]. }
  destruct (Reconcile.reconcile_with _ _ _ _ _) as [r|]; [|split; [done|by exists []]]. destruct (Hm r eq_refl Hturns) as (_ & Hmoved).
  destruct r as [[[s' report] frontier]|[s' [e|]]]; (split; [by split|exact Hmoved]).
Qed.

Lemma resync_moves a node eff links count d :
  let '(d', _) := resync_links a node eff links count d in beside d d' ∧ store_moved a d d'.
Proof.
  revert count d. induction links as [|[id c] links IH]; intros count d; cbn [resync_links]; [split; [done|by exists []]|].
  destruct (match node with Some n => _ | None => false end); [apply IH|]. case_bool_decide; [|apply IH].
  pose proof (session_moves a id d) as Hs. destruct (reconcile_session a id d) as [d1 [ok|]]; [|done]. destruct Hs as [Hb Hst].
  assert (Hgo : ∀ n, let '(d', _) := resync_links a node eff links n d1 in beside d d' ∧ store_moved a d d').
  { intros n. specialize (IH n d1). destruct (resync_links _ _ _ _ _ _) as [d2 n2]. destruct IH as [Hb2 Hst2].
    split; [by etrans|]. eapply store_moved_trans; [apply Hb|done..]. }
  destruct ok; apply Hgo.
Qed.

(** The replicated state: the index with its log and cursors, the share with
    the chunk store, the links and the counters. *)
Definition same_replica (d d' : Daemon) : Prop :=
  dm_store d' = dm_store d ∧ dm_host d' = dm_host d ∧ dm_conns d' = dm_conns d ∧ dm_stats d' = dm_stats d.

Definition may_command (our_uid : Z) (uid : option Z) : Prop := uid = Some our_uid ∨ uid = Some 0.

Lemma dispatch_replica a req d :
  (∀ node, req ≠ CtlRequest.Resync node) → same_replica d (dispatch a req d).1.
Proof.
  intros Hn. destruct req as [all| | | | | | |path|path|path|node|e|e|node| | |[[g p]|]]; cbn [dispatch]; try done.
  - unfold config_reload. destruct (load_at a path) as [cand|e]; [|done]. by destruct (reload _ _ _ _ _) as [s [changes|e]].
  - by destruct (member_addr_fp node d).
  - unfold member_change. by destruct (Membership.merge_signed _ _ _ _) as [[disk m] res].
  - unfold member_change. by destruct (Membership.merge_signed _ _ _ _) as [[disk m] res].
  - by destruct (Hn node).
Qed.

(** C20: Only the administrator and the configuration file move the membership,
    and only a resync touches the replicated state. A
    connection of the control socket leaves the roster's file, the peers
    and the fingerprints that are admitted as they are unless it comes from
    the daemon's user or root and its request is a reload of a file that
    loads, or an entry signed by the configured key. The index, the share, the
    links and the counters stay as they are unless it comes from one of them
    and asks for a resync; and a resync, whatever the peers answer in it and
    however its sessions end, moves the index only by the commands of
    anti-entropy sessions (reads, manifests, upserts of decided rows, resolutions of
    conflicts) and of the tasks that run beside it, and leaves membership,
    configuration, policy and join state alone. *)
Theorem control_membership_authorised a our_uid uid req d d' resp :
  handle_conn a our_uid uid req d = (d', resp) →
  ((dm_disk d' = dm_disk d ∧ dm_membership d' = dm_membership d) ∨
   may_command our_uid uid ∧
   ((∃ path cand, req = Some (CtlRequest.ConfigReload path) ∧ load_at a path = Ok cand ∧ dm_disk d' = dm_disk d) ∨
    (∃ r e pk, req = Some r ∧ member_entry r = Some e ∧ admin_pubkey (dm_membership d) = Some pk ∧ Roster.verify e pk = true))) ∧
  (same_replica d d' ∨
   may_command our_uid uid ∧ (∃ node, req = Some (CtlRequest.Resync node)) ∧ beside d d' ∧ store_moved a d d').
Proof.
  unfold handle_conn. destruct (admitted our_uid uid) eqn:Had; [|intros [= <- _]; split; by left].
  assert (Huid : may_command our_uid uid).
  { unfold admitted in Had. destruct uid as [u|]; [|done].
    apply orb_true_iff in Had as [ ->%bool_decide_eq_true| ->%bool_decide_eq_true]; [by left|by right]. }
  destruct req as [req|]; [|intros [= <- _]; split; by left]. pose proof (dispatch_replica a req d) as Hrep.
  destruct (dispatch a req d) as [d1 r1] eqn:Hd. intros [= <- _]. cbn [fst] in Hrep.
  assert (Hmember : ∀ e, member_change a e d = (d1, r1) → member_entry req = Some e →
    (dm_disk d1 = dm_disk d ∧ dm_membership d1 = dm_membership d) ∨
    ∃ r e pk, Some req = Some r ∧ member_entry r = Some e ∧ admin_pubkey (dm_membership d) = Some pk ∧ Roster.verify e pk = true).
  { intros e Hc He. unfold member_change in Hc. destruct (Membership.merge_signed _ _ _ _) as [[disk m] res] eqn:Hm.
    injection Hc as <- _. destruct (merge_needs_signature _ _ _ _ _ _ _ Hm) as [[-> ->]|(pk & Hpk & Hv)]; [by left|].
    right. by exists req, e, pk. }
  destruct req as [all| | | | | | |path|path|path|node|e|e|node| | |[[g p]|]];
    try (split; [|left; by apply Hrep]); cbn [dispatch] in Hd; try (injection Hd as <- _; by left).
  - destruct (reload_needs_file _ _ _ _ _ Hd) as (_ & Hdisk & [Hm|(cand & Hc)]); [by left|]. right. split; [done|].
    left. by exists path, cand.
  - destruct (member_addr_fp node d) as [ad fp]. injection Hd as <- _. by left.
  - destruct (Hmember e Hd eq_refl) as [Hno|Hyes]; [by left|right; auto].
  - destruct (Hmember e Hd eq_refl) as [Hno|Hyes]; [by left|right; auto].
  - unfold resync in Hd. pose proof (resync_moves a node (p_node_id <$> Membership.effective_peers (dm_membership d))
      (ConnRegistry.all (dm_conns d)) 0 d) as Hm.
    destruct (resync_links _ _ _ _ _ _) as [d2 n]. injection Hd as <- _. destruct Hm as [Hb Hst].
    split; [left; split; apply Hb|]. right. split_and!; [done|by exists node|done|done].
Qed.

(** ** Preparing and applying an entry *)

Context `{!Ed25519Laws}.

Definition signed_by (sk : AdminSecret) (node : NodeId) (addr : SocketAddr) (fp : hash32) (epoch : Z) (kind : EntryKind) : SignedEntry :=
  mkSignedEntry node addr fp epoch kind (Admin.sign_entry sk node addr fp epoch kind).

(** The effect of a submitted entry that is signed with the configured key for
    the next epoch. *)
Lemma next_epoch_change_applies a sk node addr fp kind d :
  let m := dm_membership d in
  let e := signed_by sk node addr fp (Membership.next_epoch_for m node) kind in
  trusted m → admin_pubkey m = Some (public_key sk) → an_save_fault a = Membership.NoFault → node ≠ our_node_id m →
  (∀ cur, roster m !! node = Some cur → in_u64 (se_epoch cur) ∧ se_epoch cur + 1 < u64_modulus) →
  ∃ d', member_change a e d = (d', CtlResponse.Ok "membership change applied and gossiped") ∧
    effective (dm_membership d') !! node = match kind with EntryKind.Add => Some (mkPeer node addr fp) | EntryKind.Remove => None end ∧
    dm_disk d' !! roster_path m = Some (ValidJson (Membership.roster_snapshot (dm_membership d'))).
Proof.
  cbv zeta. intros Ht Hpk Hsave Hnode Hroom. set (e := signed_by sk node addr fp _ kind).
  assert (Hv : Roster.verify e (public_key sk) = true).
  { unfold Roster.verify, Admin.verify_entry, e, signed_by, Admin.sign_entry. cbn. apply ed_verify_sign. }
  pose proof (next_epoch_entry_wins (public_key sk) (roster (dm_membership d)) e Hroom Hv eq_refl) as Hm.
  unfold member_change, Membership.merge_signed, Membership.stage. rewrite Hpk, Hm, Hsave.
  rewrite bool_decide_true by done. unfold Roster.save. eexists. split; [done|]. cbn [dm_membership dm_disk set_membership].
  split; [|by rewrite lookup_insert_eq].
  set (m' := Membership.set_roster (<[node := e]> (roster (dm_membership d))) (dm_membership d)).
  change (effective (Membership.recompute m') !! node = match kind with EntryKind.Add => Some (mkPeer node addr fp) | EntryKind.Remove => None end).
  rewrite recompute_effective.
  - unfold target_of. cbn. rewrite decide_False by done. rewrite lookup_insert_eq. by destruct kind.
  - apply map_Forall_insert_2; [done|]. by apply trusted_keyed.
Qed.

(** An entry the administrator signs for the epoch the daemon prepared is
    applied: the reply says so, the roster's file holds the new roster, and
    the node is dialled and admitted under the entry's address and
    fingerprint, or no longer, as the entry says; provided the node is not
    the daemon itself and its epoch counter is not exhausted. *)
Theorem prepared_entry_applies a sk node addr fp kind d :
  let m := dm_membership d in
  trusted m → admin_pubkey m = Some (public_key sk) → an_save_fault a = Membership.NoFault → node ≠ our_node_id m →
  (∀ cur, roster m !! node = Some cur → in_u64 (se_epoch cur) ∧ se_epoch cur + 1 < u64_modulus) →
  ∃ epoch ad f d', dispatch a (CtlRequest.PrepareEntry node) d = (d, CtlResponse.Prepared epoch ad f) ∧
    dispatch a (CtlRequest.MemberAdd (signed_by sk node addr fp epoch kind)) d =
      (d', CtlResponse.Ok "membership change applied and gossiped") ∧
    effective (dm_membership d') !! node = match kind with EntryKind.Add => Some (mkPeer node addr fp) | EntryKind.Remove => None end ∧
    dm_disk d' !! roster_path m = Some (ValidJson (Membership.roster_snapshot (dm_membership d'))).
Proof.
  cbv zeta. intros Ht Hpk Hsave Hnode Hroom. cbn [dispatch]. destruct (member_addr_fp node d) as [ad f].
  destruct (next_epoch_change_applies a sk node addr fp kind d Ht Hpk Hsave Hnode Hroom) as (d' & Hd & Heff).
  by exists (Membership.next_epoch_for (dm_membership d) node), ad, f, d'.
Qed.
(** What a reload leaves in force is what [Engine::new] would start with on
    the candidate: policy, rates and reserve, and the roster it loads. *)
Theorem reloaded_like_new_engine a path cand d d' msg st host now :
  load_at a path = Ok cand → config_reload a path d = (d', CtlResponse.Ok msg) →
  ∃ m0, Membership.load (dm_disk d) (an_read_fault a) (intent_of cand) = Ok m0 ∧
    let fresh := live_settings (new_engine cand (dm_disk d) m0 st host now) in
    ls_policy (live_settings d') = ls_policy fresh ∧ ls_rates (live_settings d') = ls_rates fresh ∧
    ls_reserve_bytes (live_settings d') = ls_reserve_bytes fresh ∧ ls_reserve_pct_bp (live_settings d') = ls_reserve_pct_bp fresh ∧
    roster (ls_membership (live_settings d')) = roster (ls_membership fresh) ∧ seeds (ls_membership (live_settings d')) = seeds (ls_membership fresh).
Proof.
  intros Hl. unfold config_reload. rewrite Hl. unfold reload, Membership.apply_reload, Membership.load.
  destruct (Membership.load_roster (dm_disk d) (an_read_fault a) (intent_of cand)) as [r|e]; [|done].
  intros [<- _]%pair_equal_spec. eexists. split; [reflexivity|]. done.
Qed.
End control.
