(* ===== verification/ControlWitness.v ===== *)
(** * Commands on a small daemon

    The control plane's properties on a node with one signed entry, and runs
    that show two differences between its comments and the code. *)

From stdpp Require Import pretty.
From S2P Require Import Prelude Vv Decide Metadata Conflict ConflictProofs State Oplog Admin Membership MembershipProofs Suppress Join Merkle Chunk.
From S2P Require Import StoreProps StoreWitness Proto Fs Apply ApplyProofs Peer Fetch Engine EngineProofs EngineWitness Reconcile ReconcileWire.
From S2P Require Import Ingest Float Qos Config ConfigWitness Policy PolicyWitness Stats Control ControlProofs.
Import Ex StateEx RosterEx Control.

#[local] Open Scope Z_scope.
#[local] Existing Instance named_toml.
#[local] Existing Instance plain_decode.
#[local] Existing Instance plain_texts.
#[local] Existing Instance plain_hex.
#[local] Instance plain_errors : ErrorTexts := {| config_error_text _ := "configuration"; membership_error_text _ := "membership" |}.
#[local] Instance ctl_iter : HashIter := λ V m, map_to_list m.

(** The daemon trusts the administrator's key and has merged one entry; it has
    a link to the node the entry adds. *)
Definition share1 : Host := mkHost {[ ["srv"] := Dir ]} ["srv"] ∅ ∅ 42 0 100 ex_attr 0 [].
Definition daemon1 : Daemon :=
  mkDaemon config1 disk1 inner1 policy0 (JoinTracker.new []) ∅ ∅ no_stats (mkStoreState empty_conn 0) share1.
Definition linked : Daemon :=
  mkDaemon config1 disk1 inner1 policy0 (JoinTracker.new []) ex_conns ∅ no_stats (mkStoreState empty_conn 0) share1.

(** The peer holds the tombstone of a file it wrote and deleted. *)
Definition gone : StoreState :=
  (store_step node_a st1 (AppendLocal (mkLocalChange "x" OpType.Delete 420 0 None None None))).1.
Definition gone_snap : JoinSnapshot :=
  match (store_step node_a gone SnapshotForJoin).2 with RSnapshot (Ok snap) => snap | _ => mkJoinSnapshot [] [] end.
Definition session1 : SessionInput :=
  mkSessionInput (answers (MerkleTree.build (js_rows gone_snap)) (js_frontier gone_snap)) 3 [] id.
Definition answers1 : Answers :=
  mkAnswers (λ _, Ok "a.toml") host_tree [] ReadOk Membership.NoFault (λ _, None) (λ _, session1) 0.

Definition resynced : Daemon * option CtlResponse :=
  handle_conn answers1 1000 (Some 1000) (Some (CtlRequest.Resync None)) linked.

Definition indexed (d : Daemon) : list (string * bool) :=
  match State.all_files (ss_conn (dm_store d)) with Ok rows => (λ r, (fr_path r, fr_tombstone r)) <$> rows | Err _ => [] end.

(** A resync brings the peer's row over and counts the session. *)
Example resync_moves_the_index :
  resynced.2 = Some (CtlResponse.Ok "resync triggered on 1 link(s)") ∧ sc_reconcile_runs (dm_stats resynced.1) = 1 ∧
  indexed resynced.1 = [("x", true)].
Proof. vm_compute. done. Qed.

Lemma control_membership_authorised_witness :
  let r := handle_conn answers1 1000 (Some 1000) (Some (CtlRequest.MemberAdd forged)) daemon1 in
  same_replica daemon1 r.1 ∧ dm_membership resynced.1 = dm_membership linked ∧ store_moved answers1 linked resynced.1.
Proof.
  cbv zeta. split.
  - destruct (handle_conn answers1 1000 (Some 1000) (Some (CtlRequest.MemberAdd forged)) daemon1) as [d' resp] eqn:Hd.
    destruct (control_membership_authorised answers1 1000 (Some 1000) (Some (CtlRequest.MemberAdd forged)) daemon1 d' resp Hd)
      as (_ & [Hs|(_ & [node Hn] & _)]); [exact Hs|discriminate Hn].
  - destruct (control_membership_authorised answers1 1000 (Some 1000) (Some (CtlRequest.Resync None)) linked resynced.1 resynced.2
      (surjective_pairing _)) as (_ & [(_ & _ & _ & Hs)|(_ & _ & Hb & Hm)]).
    + exfalso. destruct resync_moves_the_index as (_ & Hr & _). rewrite Hs in Hr. discriminate Hr.
    + split; [apply Hb|exact Hm].
Defined.

Lemma prepared_entry_applies_witness :
  ∃ epoch ad f d', dispatch answers1 (CtlRequest.PrepareEntry node_a) daemon1 = (daemon1, CtlResponse.Prepared epoch ad f) ∧
    dispatch answers1 (CtlRequest.MemberAdd (signed_by (key1 : @AdminSecret toy_ed25519) node_a (ex_addr 7000) (fill 32 x05) epoch EntryKind.Remove)) daemon1 =
      (d', CtlResponse.Ok "membership change applied and gossiped") ∧
    effective (dm_membership d') !! node_a = None ∧
    dm_disk d' !! roster_path inner1 = Some (ValidJson (Membership.roster_snapshot (dm_membership d'))).
Proof.
  apply (prepared_entry_applies answers1 (key1 : @AdminSecret toy_ed25519) node_a (ex_addr 7000) (fill 32 x05) EntryKind.Remove daemon1).
  - apply one_merge_trusted.
  - vm_compute. reflexivity.
  - reflexivity.
  - vm_decide.
  - intros cur Hc. assert (Hadd : roster inner1 !! node_a = Some add_a) by vm_decide.
    replace cur with add_a; [vm_decide|]. apply (inj Some). rewrite <- Hadd. exact Hc.
Defined.

(** ** Limits *)

(** A report on the whole mesh lists the peers that are connected only: an
    effective member that cannot be reached is missing, not unreachable. *)
Theorem status_all_omits_unconnected :
  node_a ∈ p_node_id <$> Membership.effective_peers (dm_membership daemon1) ∧ sr_peers (status_report answers1 true daemon1) = [].
Proof. split; [vm_decide|vm_compute; reflexivity]. Qed.

(** Whatever file is at the socket's path is removed before the bind. *)
Theorem socket_path_file_removed w path data attr :
  w !! path = Some (Reg data attr) →
  bind_socket path w = None ∧ bind_socket path (clear_socket path w) = Some (<[path := Sock]> (delete path w)).
Proof. intros Hw. unfold bind_socket, clear_socket. by rewrite Hw, lookup_delete_eq. Qed.
