(* ===== verification/Serve.v ===== *)
(** * Admitting a connection and serving its streams (src/src/net.rs)

    The certificate pins on both sides of the TLS handshake, the peer a
    connection is bound to, the accept loop of a connection's streams with
    its slots, and the dispatch of one stream by its tag over the daemon's
    state. SHA-256 and the handshake's signature check are parameters; the
    frames that arrive and the writes that fail are inputs. *)

From S2P Require Import Prelude Vv Decide Metadata Conflict State Oplog Admin Membership Suppress Join Merkle Chunk Proto Fs Apply Peer Fetch Engine.
From S2P Require Import Reconcile Ingest Float Qos Config Policy Links Stats Control.

#[local] Open Scope Z_scope.

(** ** Identity and pins *)

Class Sha256 : Type := sha256 : list byte → hash32.

Abbreviation Der := (list byte).

Module Tls.
Section with_digest.
Context `{!Sha256}.

Definition cert_fingerprint (der : Der) : hash32 := sha256 der.

Definition pin_ok (allow : gset hash32) (end_entity : Der) : result string unit :=
  if Mesh.pin_ok allow (cert_fingerprint end_entity) then Ok () else Err "peer certificate fingerprint not in allowlist".

(** The two verifiers' answers; intermediates, names and times are not
    looked at. *)
Definition verify_server_cert (allow : gset hash32) (end_entity : Der) : result string unit := _ ← pin_ok allow end_entity; Ok ().
Definition verify_client_cert (allow : gset hash32) (end_entity : Der) : result string unit := _ ← pin_ok allow end_entity; Ok ().
Definition offer_client_auth : bool := true.
Definition client_auth_mandatory : bool := true.

(** What the two configurations make of a handshake: the far end presents a
    chain, possibly empty, and [signed] says that it holds the key of the
    chain's first certificate. The identity of the connection, or a failed
    handshake. *)
Definition server_handshake (allow : gset hash32) (chain : list Der) (signed : bool) : result NetError (option (list Der)) :=
  match chain with
  | [] => if offer_client_auth && client_auth_mandatory then Err NetError.Transport else Ok None
  | end_entity :: _ =>
      match verify_client_cert allow end_entity with
      | Ok _ => if signed then Ok (Some chain) else Err NetError.Transport
      | Err _ => Err NetError.Transport
      end
  end.
Definition client_handshake (allow : gset hash32) (chain : list Der) (signed : bool) : result NetError (option (list Der)) :=
  match chain with
  | [] => Err NetError.Transport
  | end_entity :: _ =>
      match verify_server_cert allow end_entity with
      | Ok _ => if signed then Ok (Some chain) else Err NetError.Transport
      | Err _ => Err NetError.Transport
      end
  end.

(** ** The peer of a connection *)

Definition peer_fingerprint (identity : option (list Der)) : result NetError hash32 :=
  match identity with
  | None => Err NetError.NoPeerCert
  | Some certs => match head certs with Some first => Ok (cert_fingerprint first) | None => Err NetError.NoPeerCert end
  end.

Definition identify (m : Inner) (identity : option (list Der)) : result NetError Peer :=
  fp ← peer_fingerprint identity;
  match Membership.peer_by_fingerprint m fp with Some p => Ok p | None => Err NetError.UnknownPeer end.

(** [handle_inbound] and [subscribe_once] up to the registration. *)
Definition accept_inbound (m : Inner) (chain : list Der) (signed : bool) : result NetError Peer :=
  identity ← server_handshake (allowlist m) chain signed;
  identify m identity.
Definition accept_outbound (m : Inner) (peer : Peer) (chain : list Der) (signed : bool) : result NetError unit :=
  identity ← client_handshake (allowlist m) chain signed;
  fp ← peer_fingerprint identity;
  if bool_decide (fp ≠ p_fingerprint peer) then Err NetError.PeerIdentityMismatch else Ok ().
End with_digest.

(** [peer_of]: the peer a connection is registered under. *)
Definition peer_of `{!HashIter} (conns : ConnRegistry) (conn : PeerConn) : NodeId :=
  match head (filter (λ p, pc_stable_id p.2 = pc_stable_id conn) (ConnRegistry.all conns)) with
  | Some (id, _) => id
  | None => fill 16 x00
  end.
End Tls.

(** ** The streams of a connection

    The far end opens streams; a call of [serve_streams] accepts one at a
    time, waits for one of its slots and hands the stream to a task of its
    own. An inbound connection is served by two calls, one until the peer
    subscribes and one after, each with its own slots; the tasks of the first
    go on beside the second. *)

Record Serving : Type := mkServing {
  sv_calls : nat;
  sv_queue : list nat;
  sv_hold : option nat;
  sv_running : list (nat * nat);
  sv_served : list nat;
  sv_lost : list nat;
}.

Inductive ServeEvent : Type :=
| Opened (s : nat)
| Accept
| Permit
| Ended (i : nat)
| Handover.

Module Serving.
Section with_slots.
Context (serve_concurrency : nat).

Definition slots : nat := Nat.max serve_concurrency 1.
(** The slots of the current call that are taken. *)
Definition taken (c : nat) (sv : Serving) : nat := length (filter (λ p, p.1 = c) (sv_running sv)).

Definition event (sv : Serving) (e : ServeEvent) : Serving :=
  match e with
  | Opened s => mkServing (sv_calls sv) (sv_queue sv ++ [s]) (sv_hold sv) (sv_running sv) (sv_served sv) (sv_lost sv)
  | Accept =>
      match sv_hold sv, sv_queue sv with
      | None, s :: queue => mkServing (sv_calls sv) queue (Some s) (sv_running sv) (sv_served sv) (sv_lost sv)
      | _, _ => sv
      end
  | Permit =>
      match sv_hold sv with
      | Some s =>
          if bool_decide (taken (sv_calls sv) sv < slots)%nat
          then mkServing (sv_calls sv) (sv_queue sv) None (sv_running sv ++ [(sv_calls sv, s)]) (sv_served sv) (sv_lost sv)
          else sv
      | None => sv
      end
  | Ended i =>
      match sv_running sv !! i with
      | Some (_, s) => mkServing (sv_calls sv) (sv_queue sv) (sv_hold sv) (delete i (sv_running sv)) (sv_served sv ++ [s]) (sv_lost sv)
      | None => sv
      end
  | Handover =>
      match sv_calls sv with
      | O => mkServing 1 (sv_queue sv) None (sv_running sv) (sv_served sv) (sv_lost sv ++ match sv_hold sv with Some s => [s] | None => [] end)
      | S _ => sv
      end
  end.
Definition start : Serving := mkServing 0 [] None [] [] [].
Definition run (sv : Serving) (es : list ServeEvent) : Serving := foldl event sv es.
End with_slots.
End Serving.

(** ** One stream *)

(** What the far end sends after the tag, as the handler of that tag reads
    it, the outcomes of the files involved, and how many of our writes go
    through before the stream breaks. *)
Record StreamIn : Type := mkStreamIn {
  si_tag : option Z;
  si_chunk : result ProtoError hash32;
  si_manifest : result ProtoError ManifestReq;
  si_reconcile : list (result ProtoError ReconcileFrame);
  si_gossip : result ProtoError GossipFrame;
  si_gossip2 : result ProtoError GossipFrame;
  si_open : option (string * IoKind);
  si_saves : list SaveFault;
  si_writes : nat;
}.

(** What a handler does to the stream, in order; [OShaped] is the wait for
    the bandwidth limiter. *)
Inductive StreamOut : Type :=
| OChunk (resp : ChunkResp)
| OShaped (lane : Lane) (peer : NodeId) (bytes : Z)
| OBody (bytes : list byte)
| OManifest (resp : ManifestResp)
| OReconcile (f : ReconcileFrame)
| ORoster (f : GossipFrame)
| OStatus (st : NodeStatus).

Definition STREAM_TAG_CHUNK : Z := 1.
Definition STREAM_TAG_MANIFEST : Z := 2.
Definition STREAM_TAG_RECONCILE : Z := 3.
Definition STREAM_TAG_ROSTER : Z := 4.
Definition STREAM_TAG_CTLQUERY : Z := 5.

(** The daemon afterwards, what went over the stream, and how the handler
    ended; [None] when it still waits for a frame. *)
Abbreviation ServeResult := (Daemon * list StreamOut * option (result NetError unit))%type.

Module Streams.
Section with_externals.
Context `{!Blake3, !Bincode, !Hex, !Scan, !Ed25519}.

Definition set_stats (s : Stats) (d : Daemon) : Daemon :=
  mkDaemon (dm_boot d) (dm_disk d) (dm_membership d) (dm_policy d) (dm_join d) (dm_conns d) (dm_peers d) s (dm_store d) (dm_host d).

(** The lane of a served chunk. *)
Definition lane_of (d : Daemon) (len : Z) : Lane :=
  if bool_decide (len ≤ bw_small_asset_bytes (ps_bandwidth (dm_policy d))) then Lane.Priority else Lane.Bulk.

Definition broken : option (result NetError unit) := Some (Err NetError.Transport).

Definition serve_chunk (cas : Cas) (peer : NodeId) (i : StreamIn) (d : Daemon) : ServeResult :=
  match si_chunk i with
  | Err e => (d, [], Some (Err (NetError.Proto e)))
  | Ok hash =>
      let '(resp, bytes) := Fetch.serve_chunk cas (c_chunk_max_bytes (dm_boot d)) hash (si_open i) in
      if cr_found resp then
        let len := Z.of_nat (length bytes) in
        match si_writes i with
        | O => (d, [], broken)
        | S O => (d, [OChunk resp; OShaped (lane_of d len) peer len], broken)
        | S (S _) => (set_stats (count_served len (dm_stats d)) d, [OChunk resp; OShaped (lane_of d len) peer len; OBody bytes], Some (Ok ()))
        end
      else
        match si_writes i with
        | O => (d, [], broken)
        | S _ => (d, [OChunk resp], Some (Ok ()))
        end
  end.

Definition serve_manifest (i : StreamIn) (d : Daemon) : ServeResult :=
  match si_manifest i with
  | Err e => (d, [], Some (Err (NetError.Proto e)))
  | Ok req =>
      match Fetch.serve_manifest (ss_conn (dm_store d)) req with
      | Err e => (d, [], Some (Err (NetError.Store e)))
      | Ok resp => match si_writes i with O => (d, [], broken) | S _ => (d, [OManifest resp], Some (Ok ())) end
      end
  end.

Definition serve_reconcile (i : StreamIn) (d : Daemon) : ServeResult :=
  let '(replies, res) := Reconcile.serve_reconcile (c_node_id (dm_boot d)) (dm_store d) (si_reconcile i) in
  if bool_decide (length replies ≤ si_writes i)%nat then (d, OReconcile <$> replies, res)
  else (d, OReconcile <$> take (si_writes i) replies, broken).

Definition noise : option (result NetError unit) := Some (Err (NetError.Violation "roster gossip")).

Definition serve_roster (i : StreamIn) (d : Daemon) : ServeResult :=
  let g := mkGossipNode (dm_disk d) (dm_membership d) in
  match si_gossip i with
  | Err _ => (d, [], noise)
  | Ok f =>
      match Gossip.serve_first g f with
      | None => (d, [], Some (Ok ()))
      | Some reply =>
          match si_writes i, reply with
          | O, _ => (d, [], noise)
          | S _, GossipFrame.Entries _ =>
              match si_gossip2 i with
              | Err _ => (d, [ORoster reply], noise)
              | Ok f2 =>
                  let g := Gossip.serve_second g f2 (si_saves i) in
                  (Control.set_membership (gn_disk g) (gn_inner g) d, [ORoster reply], Some (Ok ()))
              end
          | S _, _ => (d, [ORoster reply], Some (Ok ()))
          end
      end
  end.

Definition serve_ctlquery `{!Texts} (i : StreamIn) (d : Daemon) : ServeResult :=
  match si_writes i with O => (d, [], broken) | S _ => (d, [OStatus (Control.local_status d)], Some (Ok ())) end.

Definition serve_one_stream `{!Texts} (cas : Cas) (peer : NodeId) (i : StreamIn) (d : Daemon) : ServeResult :=
  match si_tag i with
  | None => (d, [], broken)
  | Some tag =>
      if bool_decide (tag = STREAM_TAG_CHUNK) then serve_chunk cas peer i d
      else if bool_decide (tag = STREAM_TAG_MANIFEST) then serve_manifest i d
      else if bool_decide (tag = STREAM_TAG_RECONCILE) then serve_reconcile i d
      else if bool_decide (tag = STREAM_TAG_ROSTER) then serve_roster i d
      else if bool_decide (tag = STREAM_TAG_CTLQUERY) then serve_ctlquery i d
      else (d, [], Some (Err (NetError.Violation "unknown stream tag")))
  end.
End with_externals.
End Streams.
