(* ===== verification/ServeProofs.v ===== *)
(** * What admission and serving guarantee (src/src/net.rs)

    The pins admit exactly the members; the slots of a connection bound its
    streams and none is forgotten; serving reads the daemon's state, but for
    the roster, which only signed entries move. At the end, concrete
    connections, and runs that show where the code and its comments differ. *)

From S2P Require Import Prelude Vv Decide Metadata Conflict ConflictProofs State Oplog Admin Membership MembershipProofs GossipMesh Suppress Join Merkle.
From S2P Require Import Chunk Proto Fs Apply ApplyProofs Peer Fetch Engine Reconcile Ingest Float Qos Config ConfigWitness Policy PolicyWitness Links.
From S2P Require Import Stats Control ControlProofs ControlWitness Serve.

#[local] Open Scope Z_scope.

Section tls.
Context `{!Sha256}.
Import Tls.

Lemma by_fingerprint_some m fp p : Membership.peer_by_fingerprint m fp = Some p → p ∈ Membership.effective_peers m ∧ p_fingerprint p = fp.
Proof. intros Hp. apply head_Some_elem_of in Hp. apply list_elem_of_filter in Hp as [??]. done. Qed.

Lemma by_fingerprint_is_some m fp p :
  p ∈ Membership.effective_peers m → p_fingerprint p = fp → is_Some (Membership.peer_by_fingerprint m fp).
Proof.
  intros Hin Hfp. unfold Membership.peer_by_fingerprint.
  assert (Hf : p ∈ filter (λ p, p_fingerprint p = fp) (Membership.effective_peers m)) by (by apply list_elem_of_filter).
  destruct (filter _ _); [by apply elem_of_nil in Hf|by eexists].
Qed.

Lemma effective_peers_elem m p : p ∈ Membership.effective_peers m ↔ ∃ n, effective m !! n = Some p.
Proof.
  unfold Membership.effective_peers. rewrite list_elem_of_fmap. split.
  - intros ([n q] & -> & Hin%elem_of_map_to_list). by exists n.
  - intros [n Hn]. exists (n, p). split; [done|]. by apply elem_of_map_to_list.
Qed.

Lemma pin_ok_true allow der : pin_ok allow der = Ok () ↔ cert_fingerprint der ∈ allow.
Proof. unfold pin_ok, Mesh.pin_ok. case_bool_decide; naive_solver. Qed.

Lemma server_handshake_ok allow chain signed id :
  server_handshake allow chain signed = Ok id ↔ ∃ der rest, chain = der :: rest ∧ id = Some chain ∧ cert_fingerprint der ∈ allow ∧ signed = true.
Proof.
  unfold server_handshake, verify_client_cert. destruct chain as [|der rest]; [naive_solver|].
  pose proof (pin_ok_true allow der) as Hpin. destruct (pin_ok allow der) as [[]|]; cbn; destruct signed; naive_solver.
Qed.

Lemma client_handshake_ok allow chain signed id :
  client_handshake allow chain signed = Ok id ↔ ∃ der rest, chain = der :: rest ∧ id = Some chain ∧ cert_fingerprint der ∈ allow ∧ signed = true.
Proof.
  unfold client_handshake, verify_server_cert. destruct chain as [|der rest]; [naive_solver|].
  pose proof (pin_ok_true allow der) as Hpin. destruct (pin_ok allow der) as [[]|]; cbn; destruct signed; naive_solver.
Qed.

(** C18: With the views of the membership in step, an inbound connection is
    bound to a peer exactly when it proves the key of its first certificate
    and that certificate hashes to the pin of an effective member; it is then
    bound to a member with that pin. A dialled connection is kept exactly when
    the certificate hashes to the pin of the very peer that was dialled and
    the pin is still allowed. Nothing presents itself without a certificate. *)
Theorem tls_admits_exactly_members (m0 : Inner) (chain : list Der) (signed : bool) :
  let m := Membership.recompute m0 in
  (∀ p, accept_inbound m chain signed = Ok p →
     signed = true ∧ ∃ der rest, chain = der :: rest ∧ p ∈ Membership.effective_peers m ∧ p_fingerprint p = cert_fingerprint der) ∧
  (∀ der rest q, chain = der :: rest → signed = true → q ∈ Membership.effective_peers m → p_fingerprint q = cert_fingerprint der →
     ∃ p, accept_inbound m chain signed = Ok p) ∧
  (∀ peer, accept_outbound m peer chain signed = Ok () ↔
     signed = true ∧ ∃ der rest, chain = der :: rest ∧ cert_fingerprint der = p_fingerprint peer ∧ p_fingerprint peer ∈ allowlist m).
Proof.
  intros m. unfold accept_inbound, accept_outbound. split_and!.
  - intros p. destruct (server_handshake _ _ _) as [id|] eqn:Hs; [|done]. cbn.
    apply server_handshake_ok in Hs as (der & rest & -> & -> & _ & ->). cbn. destruct (Membership.peer_by_fingerprint _ _) eqn:Hp; [|done].
    intros [= ->]. apply by_fingerprint_some in Hp as [Hin Hfp]. split; [done|]. by exists der, rest.
  - intros der rest q -> -> Hin Hfp. assert (Hs : server_handshake (allowlist m) (der :: rest) true = Ok (Some (der :: rest))).
    { apply server_handshake_ok. exists der, rest. split_and!; [done..| |done]. apply recompute_allowlist. apply effective_peers_elem in Hin as [n Hn]. by exists n, q. }
    rewrite Hs. cbn. destruct (by_fingerprint_is_some m (cert_fingerprint der) q Hin Hfp) as [p ->]. by exists p.
  - intros peer. destruct (client_handshake _ _ _) as [id|] eqn:Hs; cbn.
    + apply client_handshake_ok in Hs as (der & rest & -> & -> & Hin & ->). cbn. case_bool_decide as Hfp; [naive_solver|].
      split; [|done]. intros _. split; [done|]. exists der, rest. by rewrite <- Hfp.
    + split; [done|]. intros (-> & der & rest & -> & Hfp & Hin).
      assert (Hok : client_handshake (allowlist m) (der :: rest) true = Ok (Some (der :: rest))) by (apply client_handshake_ok; exists der, rest; by rewrite Hfp).
      congruence.
Qed.
End tls.

(** ** The peer traffic is accounted to *)

Section attribution.
Context `{!HashIter, !HashIterLaws}.

Lemma all_elem (conns : ConnRegistry) id conn : (id, conn) ∈ ConnRegistry.all conns ↔ ∃ rest, conns !! id = Some (conn :: rest).
Proof.
  unfold ConnRegistry.all. rewrite list_elem_of_omap. split.
  - intros ([k v] & Hin & Hv). rewrite hash_iter_perm in Hin. apply elem_of_map_to_list in Hin.
    destruct v as [|c v]; [done|]. injection Hv as -> ->. by exists v.
  - intros [rest Hr]. exists (id, conn :: rest). split; [|done]. rewrite hash_iter_perm. by apply elem_of_map_to_list.
Qed.

(** A connection is accounted to the peer it is registered under exactly when
    it is that peer's first one; every other goes to the zero id. *)
Lemma peer_of_first (conns : ConnRegistry) conn :
  (∀ id c rest, conns !! id = Some (c :: rest) → pc_stable_id c ≠ pc_stable_id conn) ∧ Tls.peer_of conns conn = fill 16 x00 ∨
  (∃ c rest, conns !! Tls.peer_of conns conn = Some (c :: rest) ∧ pc_stable_id c = pc_stable_id conn).
Proof.
  unfold Tls.peer_of. destruct (head _) as [[id c]|] eqn:Hh.
  - right. apply head_Some_elem_of, list_elem_of_filter in Hh as [Hs Hin]. apply all_elem in Hin as [rest Hr]. by exists c, rest.
  - left. split; [|done]. intros id c rest Hr Hs. assert (Hin : (id, c) ∈ filter (λ p, pc_stable_id p.2 = pc_stable_id conn) (ConnRegistry.all conns)).
    { apply list_elem_of_filter. split; [done|]. apply all_elem. by exists rest. }
    destruct (filter _ _); [by apply elem_of_nil in Hin|done].
Qed.
End attribution.

(** ** Slots *)

Section slots.
Context (serve_concurrency : nat).
Import Serving.

(** The streams the far end opened. *)
Definition opened (es : list ServeEvent) : list nat := omap (λ e, match e with Opened s => Some s | _ => None end) es.
Definition held (sv : Serving) : list nat := match sv_hold sv with Some s => [s] | None => [] end.
(** What there is left to do. *)
Definition backlog (sv : Serving) : nat := 3 * length (sv_queue sv) + 2 * length (held sv) + length (sv_running sv).
(** Nothing the node does on its own would change the state. *)
Definition quiescent (sv : Serving) : Prop :=
  event serve_concurrency sv Accept = sv ∧ event serve_concurrency sv Permit = sv ∧ ∀ i, event serve_concurrency sv (Ended i) = sv.

Record sound (es : list ServeEvent) (sv : Serving) : Prop := {
  so_calls : (sv_calls sv ≤ 1)%nat;
  so_of : Forall (λ p, p.1 ≤ sv_calls sv)%nat (sv_running sv);
  so_slots : ∀ c, (taken c sv ≤ slots serve_concurrency)%nat;
  so_all : opened es ≡ₚ sv_served sv ++ (sv_running sv).*2 ++ held sv ++ sv_queue sv ++ sv_lost sv;
  so_lost : (length (sv_lost sv) ≤ sv_calls sv)%nat;
}.

Lemma opened_snoc es e : opened (es ++ [e]) = opened es ++ match e with Opened s => [s] | _ => [] end.
Proof. unfold opened. rewrite omap_app. by destruct e. Qed.

Lemma taken_delete c sv i p :
  sv_running sv !! i = Some p →
  (length (filter (λ p, p.1 = c) (delete i (sv_running sv))) ≤ taken c sv)%nat.
Proof.
  intros Hi. unfold taken. rewrite <- (take_drop_middle (sv_running sv) i p Hi) at 2. rewrite delete_take_drop, !filter_app, !length_app, filter_cons.
  case_decide; cbn; lia.
Qed.

Lemma event_sound es sv e : sound es sv → sound (es ++ [e]) (event serve_concurrency sv e).
Proof.
  intros [Hc Hof Hs Ha Hl]. destruct sv as [calls queue hold running served lost]. cbn in *.
  destruct e as [s| | |i|]; unfold event; cbn [sv_calls sv_queue sv_hold sv_running sv_served sv_lost].
  - split; cbn; [done..| |done]. rewrite opened_snoc, Ha. unfold held. cbn. solve_Permutation.
  - assert (Hsame : opened (es ++ [Accept]) = opened es) by (rewrite opened_snoc; apply app_nil_r).
    destruct hold as [h|]; [|destruct queue as [|s queue]]; split; cbn; rewrite ?Hsame; done.
  - assert (Hsame : opened (es ++ [Permit]) = opened es) by (rewrite opened_snoc; apply app_nil_r).
    destruct hold as [h|]; [case_bool_decide as Hfree|]; split; cbn; rewrite ?Hsame; try done.
    + apply Forall_app. split; [done|]. by constructor.
    + intros c. unfold taken in *. cbn in *. rewrite filter_app, length_app, filter_cons. cbn. specialize (Hs c). case_decide as Hcc; [subst c|]; cbn; lia.
    + rewrite Ha, fmap_app. unfold held. cbn. solve_Permutation.
  - assert (Hsame : opened (es ++ [Ended i]) = opened es) by (rewrite opened_snoc; apply app_nil_r).
    destruct (running !! i) as [[c s]|] eqn:Hi; [|split; cbn; rewrite ?Hsame; done]. split; cbn; rewrite ?Hsame; try done.
    + by apply Forall_delete.
    + intros c'. pose proof (taken_delete c' (mkServing calls queue hold running served lost) i _ Hi) as Hd. cbn in Hd. specialize (Hs c'). unfold taken in *. cbn in *. lia.
    + rewrite Ha. rewrite (delete_Permutation running i (c, s) Hi) at 1. cbn. solve_Permutation.
  - assert (Hsame : opened (es ++ [Handover]) = opened es) by (rewrite opened_snoc; apply app_nil_r).
    destruct calls as [|calls]; split; cbn; rewrite ?Hsame; try done; try lia.
    + eapply Forall_impl; [done|]. cbn. lia.
    + rewrite Ha. unfold held. cbn. destruct hold; cbn; solve_Permutation.
    + rewrite length_app. destruct hold; cbn; lia.
Qed.

Lemma run_sound es : sound es (run serve_concurrency start es).
Proof.
  induction es as [|e es IH] using rev_ind.
  - split; cbn; [lia|done|intros c; unfold taken; cbn; lia|done|lia].
  - unfold run. rewrite foldl_snoc. by apply event_sound.
Qed.

Lemma running_split calls (l : list (nat * nat)) :
  (calls ≤ 1)%nat → Forall (λ p, p.1 ≤ calls)%nat l →
  (length l ≤ length (filter (λ p, p.1 = 0%nat) l) + match calls with O => 0 | S _ => length (filter (λ p, p.1 = 1%nat) l) end)%nat.
Proof.
  intros Hc. induction 1 as [|[c s] l Hp _ IH]; [cbn; lia|]. rewrite !filter_cons. cbn in *.
  destruct calls; repeat case_decide; cbn in *; lia.
Qed.

Lemma event_decreases sv e :
  match e with Opened _ | Handover => True | _ => event serve_concurrency sv e = sv ∨ (backlog (event serve_concurrency sv e) < backlog sv)%nat end.
Proof.
  destruct sv as [calls queue hold running served lost]. destruct e as [s| | |i|]; try done; unfold event, backlog, held; cbn.
  - destruct hold; [by left|]. destruct queue; [by left|right; cbn; lia].
  - destruct hold; [|by left]. case_bool_decide; [right; cbn; rewrite length_app; cbn; lia|by left].
  - destruct (running !! i) as [[c s]|] eqn:Hi; [right|by left]. cbn. rewrite length_delete by done. apply lookup_lt_Some in Hi. lia.
Qed.

Lemma quiescent_empty sv : quiescent sv → sv_queue sv = [] ∧ held sv = [] ∧ sv_running sv = [].
Proof.
  destruct sv as [calls queue hold running served lost]. intros (Ha & Hp & He). unfold held. cbn in *.
  assert (Hr : running = []).
  { destruct running as [|[c s] l]; [done|]. specialize (He 0%nat). cbn in He. injection He as Hl _. apply (f_equal length) in Hl. cbn in Hl. lia. }
  subst running. destruct hold as [h|].
  - unfold slots, taken in Hp. cbn in Hp. rewrite bool_decide_true in Hp by lia. done.
  - destruct queue; [done|]. cbn in Ha. by injection Ha.
Qed.

(** C12: Whatever the far end opens and whenever tasks end, each call of
    [serve_streams] runs at most [max(1, serve_concurrency)] streams at once,
    so a connection runs at most that many, twice as many after the hand-over
    of an inbound one; every opened stream is served, running, accepted,
    queued, or the one that waited for a slot at the hand-over; what the node
    does on its own shrinks the backlog, and it stops only when every stream
    but that one was served. *)
Theorem served_streams_accounted (es : list ServeEvent) :
  let sv := run serve_concurrency start es in
  (∀ c, taken c sv ≤ slots serve_concurrency)%nat ∧
  (length (sv_running sv) ≤ S (sv_calls sv) * slots serve_concurrency)%nat ∧ (sv_calls sv ≤ 1)%nat ∧
  opened es ≡ₚ sv_served sv ++ (sv_running sv).*2 ++ held sv ++ sv_queue sv ++ sv_lost sv ∧
  (length (sv_lost sv) ≤ sv_calls sv)%nat ∧
  (∀ e, match e with Opened _ | Handover => True | _ => event serve_concurrency sv e = sv ∨ (backlog (event serve_concurrency sv e) < backlog sv)%nat end) ∧
  (quiescent sv → opened es ≡ₚ sv_served sv ++ sv_lost sv).
Proof.
  intros sv. destruct (run_sound es) as [Hc Hof Hs Ha Hl]. fold sv in Hc, Hof, Hs, Ha, Hl. split_and!; try done.
  - pose proof (running_split _ _ Hc Hof) as Hr. pose proof (Hs 0%nat). pose proof (Hs 1%nat). unfold taken in *. destruct (sv_calls sv); lia.
  - intros e. apply event_decreases.
  - intros (Hq & Hh & Hr)%quiescent_empty. by rewrite Ha, Hq, Hh, Hr.
Qed.
End slots.

(** ** One stream *)

Section streams.
Context `{!Blake3, !Bincode, !Hex, !Scan, !Ed25519, !Texts}.
Import Streams.

Definition node_of (d : Daemon) : GossipNode := mkGossipNode (dm_disk d) (dm_membership d).
(** What decoding guarantees of the entries a stream carries. *)
Definition frames_typed (i : StreamIn) : Prop :=
  match si_gossip2 i with Ok (GossipFrame.Entries es) => Forall entry_typed es | _ => True end.

(** What one stream may do to the daemon: count a chunk it sent whole, or
    merge entries into the roster. *)
Record served_from (cas : Cas) (peer : NodeId) (d d' : Daemon) (out : list StreamOut) : Prop := {
  sf_boot : dm_boot d' = dm_boot d;
  sf_policy : dm_policy d' = dm_policy d;
  sf_join : dm_join d' = dm_join d;
  sf_conns : dm_conns d' = dm_conns d;
  sf_peers : dm_peers d' = dm_peers d;
  sf_store : dm_store d' = dm_store d;
  sf_host : dm_host d' = dm_host d;
  sf_roster : ∀ pk, good pk (node_of d) → good pk (node_of d') ∧ newer (node_of d) (node_of d');
  sf_stats : dm_stats d' = dm_stats d ∨
    ∃ hash bytes, let len := Z.of_nat (length bytes) in
      cas !! hash = Some bytes ∧ len ≤ c_chunk_max_bytes (dm_boot d) ∧ dm_stats d' = count_served len (dm_stats d) ∧
      out = [OChunk (mkChunkResp true (as_u32 len)); OShaped (lane_of d len) peer len; OBody bytes];
}.

Lemma served_same cas peer d out : served_from cas peer d d out.
Proof. split; try done; [|by left]. intros pk Hg. split; [done|apply newer_refl]. Qed.
Hint Resolve served_same : core.

Lemma serve_chunk_from cas peer i d : let '(d', out, _) := serve_chunk cas peer i d in served_from cas peer d d' out.
Proof.
  unfold serve_chunk, Fetch.serve_chunk, Cas.open_reader. destruct (si_chunk i) as [hash|]; [|done].
  destruct (cas !! hash) as [bytes|] eqn:Hh; [|cbn; by destruct (si_writes i)].
  destruct (si_open i) as [[ctx k]|]; [cbn; by destruct (si_writes i)|]. case_bool_decide as Hle; [|cbn; by destruct (si_writes i)].
  cbn [cr_found]. destruct (si_writes i) as [|[|n]]; try done. split; try done.
  - intros pk Hg. split; [done|apply newer_refl].
  - right. by exists hash, bytes.
Qed.

Lemma serve_roster_from cas peer i d : frames_typed i → let '(d', out, _) := serve_roster i d in served_from cas peer d d' out.
Proof.
  intros Hty. unfold serve_roster, frames_typed in *. destruct (si_gossip i) as [f|]; [|done]. destruct (Gossip.serve_first _ f) as [reply|]; [|done].
  destruct (si_writes i); [by destruct reply|]. destruct reply; [done..|]. destruct (si_gossip2 i) as [f2|]; [|done]. split; try done; [|by left].
  intros pk Hg. unfold Gossip.serve_second. destruct f2 as [| |es]; [split; [done|apply newer_refl]..|].
  pose proof (batch_good pk (mkGossipNode (dm_disk d) (dm_membership d)) es (si_saves i) 0 Hg Hty) as Hb.
  by destruct (Gossip.merge_batch _ _ _ _) as [[disk m] k].
Qed.

(** The manifest, reconcile and status handlers change nothing. *)
Lemma serve_rest_same i d :
  (serve_manifest i d).1.1 = d ∧ (serve_reconcile i d).1.1 = d ∧ (serve_ctlquery i d).1.1 = d.
Proof.
  unfold serve_manifest, serve_reconcile, serve_ctlquery. split_and!.
  - destruct (si_manifest i); [|done]. destruct (Fetch.serve_manifest _ _); [|done]. by destruct (si_writes i).
  - destruct (Reconcile.serve_reconcile _ _ _). by case_bool_decide.
  - by destruct (si_writes i).
Qed.

Lemma serve_chunk_node cas peer i d : node_of (serve_chunk cas peer i d).1.1 = node_of d.
Proof.
  unfold serve_chunk. destruct (si_chunk i); [|done]. destruct (Fetch.serve_chunk _ _ _ _) as [resp bytes].
  destruct (cr_found resp), (si_writes i) as [|[|n]]; done.
Qed.

Lemma serve_roster_stats i d : dm_stats (serve_roster i d).1.1 = dm_stats d.
Proof.
  unfold serve_roster. destruct (si_gossip i) as [f|]; [|done]. destruct (Gossip.serve_first _ f) as [reply|]; [|done].
  destruct (si_writes i), reply; try done. by destruct (si_gossip2 i).
Qed.

(** C19: A stream of any tag and any content leaves the configuration, the
    bandwidth policy, the join state, the registries, the store and the share of the
    serving node as they are. Only a roster stream moves the membership, and
    it keeps every entry verified and every member's entry at least as new;
    only a chunk sent whole is counted, after the limiter was asked for its
    length under the peer's name, and it is no longer than the configured
    maximum. A tag the node does not know does nothing at all. *)
Theorem serving_moves_only_roster (cas : Cas) (peer : NodeId) (i : StreamIn) (d : Daemon) :
  frames_typed i →
  let '(d', out, res) := serve_one_stream cas peer i d in
  served_from cas peer d d' out ∧
  (si_tag i ≠ Some STREAM_TAG_ROSTER → node_of d' = node_of d) ∧
  (si_tag i ≠ Some STREAM_TAG_CHUNK → dm_stats d' = dm_stats d) ∧
  (∀ tag, si_tag i = Some tag → tag ∉ [STREAM_TAG_CHUNK; STREAM_TAG_MANIFEST; STREAM_TAG_RECONCILE; STREAM_TAG_ROSTER; STREAM_TAG_CTLQUERY] →
     d' = d ∧ out = [] ∧ res = Some (Err (NetError.Violation "unknown stream tag"))).
Proof.
  intros Hty. unfold serve_one_stream. destruct (si_tag i) as [tag|]; [|done].
  pose proof (serve_chunk_from cas peer i d) as Hchunk. pose proof (serve_roster_from cas peer i d Hty) as Hroster.
  pose proof (serve_chunk_node cas peer i d) as Hnode. pose proof (serve_roster_stats i d) as Hstats.
  destruct (serve_rest_same i d) as (Hm & Hr & Hq).
  assert (Hold : ∀ r : ServeResult, r.1.1 = d → tag ∈ [STREAM_TAG_MANIFEST; STREAM_TAG_RECONCILE; STREAM_TAG_CTLQUERY] →
    let '(d', out, res) := r in served_from cas peer d d' out ∧ (Some tag ≠ Some STREAM_TAG_ROSTER → node_of d' = node_of d) ∧
      (Some tag ≠ Some STREAM_TAG_CHUNK → dm_stats d' = dm_stats d) ∧
      (∀ t, Some tag = Some t → t ∉ [STREAM_TAG_CHUNK; STREAM_TAG_MANIFEST; STREAM_TAG_RECONCILE; STREAM_TAG_ROSTER; STREAM_TAG_CTLQUERY] →
         d' = d ∧ out = [] ∧ res = Some (Err (NetError.Violation "unknown stream tag")))).
  { intros [[d' out] res] Hd Hin. cbn in Hd. subst d'. split_and!; [done..|]. intros t [= <-] Hnot. destruct Hnot. set_solver. }
  repeat case_bool_decide; subst.
  - destruct (serve_chunk cas peer i d) as [[d' out] res]. split_and!; [done|by intros _|done|]. intros t [= <-] Hnot. destruct Hnot. set_solver.
  - apply Hold; [done|set_solver].
  - apply Hold; [done|set_solver].
  - destruct (serve_roster i d) as [[d' out] res]. split_and!; [done|done|by intros _|]. intros t [= <-] Hnot. destruct Hnot. set_solver.
  - apply Hold; [done|set_solver].
  - done.
Qed.
End streams.

(** ** A small daemon *)

Import StateEx RosterEx Serving Streams.

#[local] Existing Instance plain_texts.
#[local] Existing Instance plain_hex.
(** A digest that keeps the first byte. *)
#[local] Instance first_byte : Sha256 := λ der, fill 32 (default x00 (head der)).

(** The member's certificate starts with the byte of its pin. *)
Lemma tls_admits_exactly_members_witness :
  ∃ p, Tls.accept_inbound (Membership.recompute inner1) [[x05; x01]; [x09]] true = Ok p ∧ p_fingerprint p = fill 32 x05.
Proof.
  destruct (tls_admits_exactly_members inner1 [[x05; x01]; [x09]] true) as (Hin & Hout & _).
  destruct (Hout [x05; x01] [[x09]] (mkPeer node_a (ex_addr 7000) (fill 32 x05))) as [p Hp]; [reflexivity|reflexivity|vm_decide|vm_decide|].
  exists p. split; [exact Hp|]. destruct (Hin p Hp) as (_ & der & rest & Hc & _ & Hfp). injection Hc as <- _. rewrite Hfp. reflexivity.
Defined.

(** Three streams over one slot, one after the other. *)
Definition one_by_one : list ServeEvent :=
  [Opened 1; Opened 2; Accept; Permit; Accept; Permit; Ended 0; Permit; Opened 3; Ended 0; Accept; Permit; Ended 0].
Lemma served_streams_accounted_witness : opened one_by_one ≡ₚ [1; 2; 3]%nat ∧ sv_served (run 0 start one_by_one) = [1; 2; 3]%nat.
Proof.
  destruct (served_streams_accounted 0 one_by_one) as (_ & _ & _ & Hall & _).
  split; [etransitivity; [exact Hall|]|]; vm_compute; reflexivity.
Defined.

Definition asked : StreamIn :=
  mkStreamIn (Some STREAM_TAG_ROSTER) (Err ProtoError.Closed) (Err ProtoError.Closed) [] (Ok (GossipFrame.Digest (fill 32 x00)))
    (Ok (GossipFrame.Entries [forged])) None [] 4.
Lemma serving_moves_only_roster_witness :
  good key1 (node_of (serve_one_stream ∅ node_b asked daemon1).1.1) ∧ dm_store (serve_one_stream ∅ node_b asked daemon1).1.1 = dm_store daemon1.
Proof.
  pose proof (serving_moves_only_roster ∅ node_b asked daemon1) as Hs. destruct (serve_one_stream ∅ node_b asked daemon1) as [[d' out] res].
  destruct Hs as ([_ _ _ _ _ Hstore _ Hroster _] & _); [unfold frames_typed; cbn; vm_decide|]. split; [|exact Hstore].
  apply Hroster. split; [vm_compute; reflexivity|unfold roster_wf, counts; vm_decide|vm_decide].
Defined.

(** ** Limits *)

(** The streams of the first call go on while the second grants slots of its
    own: with one slot, two streams run. *)
Theorem handover_doubles_slots :
  sv_running (run 1 start [Opened 1; Accept; Permit; Opened 2; Handover; Accept; Permit]) = [(0, 1); (1, 2)]%nat.
Proof. reflexivity. Qed.

(** A stream that waits for a slot when the peer subscribes is dropped. *)
Theorem handover_drops_stream :
  let sv := run 1 start [Opened 1; Accept; Permit; Opened 2; Accept; Handover; Ended 0] in sv_lost sv = [2]%nat ∧ quiescent 1 sv.
Proof.
  split; [reflexivity|]. split; [reflexivity|]. split; [reflexivity|]. intros i. by destruct i.
Qed.

(** The second connection to a peer is accounted to nobody: its traffic has a
    bucket of its own, which it shares with the other peers' second ones. *)
Theorem second_connection_unattributed (c1 c2 : PeerConn) :
  pc_stable_id c1 ≠ pc_stable_id c2 →
  let conns := ConnRegistry.insert (ConnRegistry.insert ∅ node_b c1) node_b c2 in
  Tls.peer_of conns c1 = node_b ∧ Tls.peer_of conns c2 = fill 16 x00 ∧ fill 16 x00 ≠ node_b.
Proof.
  intros Hne conns.
  assert (Hc : conns = {[node_b := [c1; c2]]}).
  { unfold conns, ConnRegistry.insert. rewrite lookup_insert_eq. cbn. rewrite lookup_empty. cbn.
    rewrite bool_decide_false by set_solver. by rewrite insert_insert_eq. }
  rewrite Hc. unfold Tls.peer_of, ConnRegistry.all, hash_iter, toy_hash_iter. rewrite map_to_list_singleton.
  cbn [omap list_omap head fmap option_fmap option_map]. rewrite !filter_cons, filter_nil. cbn [snd]. rewrite decide_True by done. rewrite decide_False by done. cbn. split_and!; [done..|vm_decide].
Qed.
