(* ===== verification/Cli.v ===== *)
(** * The operator's command line (src/src/bin/replicorectl.rs)

    The arguments, the request each command makes, the two connections of a
    membership change with the signature made in between, and what is
    printed. A command is a value that asks the daemon and continues with its
    reply, so what the daemon does between two connections stays open. PKCS#8,
    JSON and debug texts are parameters. *)

From Stdlib Require Import Ascii.
From stdpp Require Import pretty.
From S2P Require Import Prelude Vv Decide Metadata Conflict State Oplog Admin Membership Suppress Join Merkle Chunk Proto Fs Apply Peer Fetch.
From S2P Require Import Ingest Float Qos Config Policy Control.

#[local] Open Scope Z_scope.

(** ** The administrator's key file (src/src/admin.rs) *)

Module AdminKeyError.
Inductive t : Type :=
| Io (ctx : string) (k : IoKind)
| BadKey (what : string).
End AdminKeyError.
Abbreviation AdminKeyError := AdminKeyError.t.

(** [ring]'s reading of a PKCS#8 document, and the texts of an I/O error. *)
Class Pkcs8 `{!Ed25519} := from_pkcs8 : list byte → option AdminSecret.
Class IoTexts := io_text : IoKind → string.

Module AdminKey.
Section with_externals.
Context `{!Ed25519, !Pkcs8, !Hex, !IoTexts}.

(** [AdminSecret::load]; the argument is what reading the file gives. *)
Definition load (bytes : result IoKind (list byte)) : result AdminKeyError AdminSecret :=
  match bytes with
  | Err k => Err (AdminKeyError.Io "read admin key" k)
  | Ok doc =>
      match from_pkcs8 doc with
      | Some kp => Ok kp
      | None => Err (AdminKeyError.BadKey "not a valid Ed25519 PKCS#8 document")
      end
  end.

Definition to_hex (pk : AdminPubKey) : string := hex_encode (ba_list pk).

(** [generate_admin_key]; the argument is the document [ring] generates. *)
Definition generate_admin_key (doc : option (list byte)) : result AdminKeyError (list byte * AdminPubKey) :=
  match doc with
  | None => Err (AdminKeyError.BadKey "keypair generation failed")
  | Some doc =>
      match from_pkcs8 doc with
      | None => Err (AdminKeyError.BadKey "generated document failed to parse")
      | Some kp => Ok (doc, public_key kp)
      end
  end.

Definition error_text (e : AdminKeyError) : string :=
  match e with
  | AdminKeyError.Io ctx k => ctx +:+ ": " +:+ io_text k
  | AdminKeyError.BadKey what => "admin key material rejected: " +:+ what
  end.
End with_externals.
End AdminKey.

(** ** Arguments *)

(** [str::parse::<u64>]: an optional plus sign, digits, no overflow. *)
Fixpoint digits64 (s : string) (acc : Z) : option Z :=
  match s with
  | EmptyString => Some acc
  | String a s =>
      let d := Z.of_nat (nat_of_ascii a) - 48 in
      if bool_decide (0 ≤ d ≤ 9 ∧ acc * 10 + d < u64_modulus) then digits64 s (acc * 10 + d) else None
  end.
Definition parse_u64 (s : string) : option Z :=
  match s with
  | EmptyString => None
  | String a rest =>
      if bool_decide (a = "+"%char) then (if bool_decide (rest = "") then None else digits64 rest 0) else digits64 s 0
  end.

(** [str::to_ascii_lowercase] *)
Definition lower (a : ascii) : ascii :=
  let n := nat_of_ascii a in if bool_decide (65 ≤ n ≤ 90)%nat then ascii_of_nat (n + 32) else a.
Fixpoint to_ascii_lowercase (s : string) : string :=
  match s with EmptyString => EmptyString | String a s => String (lower a) (to_ascii_lowercase s) end.

(** The text before a final character, if it ends the text. *)
Fixpoint strip_last (c : ascii) (s : string) : option string :=
  match s with
  | EmptyString => None
  | String a EmptyString => if bool_decide (a = c) then Some EmptyString else None
  | String a s => String a <$> strip_last c s
  end.

Module Cli.

(** A flag, and the value after a name, are taken out of the arguments. *)
Definition take_flag (args : list string) (name : string) : bool * list string :=
  match list_find (λ a, a = name) args with
  | Some (i, _) => (true, delete i args)
  | None => (false, args)
  end.
Definition take_value (args : list string) (name : string) : option string * list string :=
  match list_find (λ a, a = name) args with
  | None => (None, args)
  | Some (i, _) =>
      match args !! S i with
      | None => (None, args)
      | Some val => (Some val, delete i (delete (S i) args))
      end
  end.

(** Bytes per second with an optional decimal suffix; the product wraps. *)
Definition parse_bps (s : string) : result string Z :=
  let v := to_ascii_lowercase s in
  let '(num, mult) :=
    match strip_last "k"%char v, strip_last "m"%char v, strip_last "g"%char v with
    | Some n, _, _ => (n, 1000)
    | None, Some n, _ => (n, 1000000)
    | None, None, Some n => (n, 1000000000)
    | None, None, None => (v, 1)
    end in
  match parse_u64 num with
  | Some n => Ok ((n * mult) `mod` u64_modulus)
  | None => Err ("not a rate: " +:+ s +:+ " (use bytes/sec, k/m/g suffixes, 0 = unlimited)")
  end.

Definition config_request (r : list string) : result string CtlRequest :=
  match r with
  | [] => Err "config needs validate|diff|reload <file>"
  | [_] => Err "config needs a file path"
  | sub :: file :: _ =>
      if bool_decide (sub = "validate") then Ok (CtlRequest.ConfigValidate file)
      else if bool_decide (sub = "diff") then Ok (CtlRequest.ConfigDiff file)
      else if bool_decide (sub = "reload") then Ok (CtlRequest.ConfigReload file)
      else Err ("unknown config subcommand: " +:+ sub)
  end.

Definition newline : string := String (ascii_of_nat 10) EmptyString.
Definition usage : string :=
  "usage: replicorectl [--socket PATH | --config FILE] <command> [--json]" +:+ newline +:+
  "  status [--all] | members | peers | lag | conflicts | transfers | version" +:+ newline +:+
  "  config validate|diff|reload <file>" +:+ newline +:+
  "  member add <node_id> <addr> <fingerprint> --admin-key <path>" +:+ newline +:+
  "  member remove <node_id> --admin-key <path>" +:+ newline +:+
  "  resync [<node_id>] | pause | resume" +:+ newline +:+
  "  bandwidth [set <global_bps> <per_peer_bps>]   (0 = unlimited)".

(** ** What is printed *)

Inductive Line : Type :=
| Stdout (s : string)
| Stderr (s : string).
Inductive ExitCode : Type :=
| SUCCESS
| FAILURE.

(** [{:<n}] *)
Fixpoint spaces (n : nat) : string := match n with O => "" | S n => String " " (spaces n) end.
Definition pad (n : nat) (s : string) : string := s +:+ spaces (n - String.length s).

Definition short (hex : string) : string := String.substring 0 8 hex.
Definition bool_text (b : bool) : string := if b then "true" else "false".

Definition exit_code (resp : CtlResponse) : ExitCode := match resp with CtlResponse.Error _ => FAILURE | _ => SUCCESS end.

Definition print_status (s : NodeStatus) (indent : string) : Line :=
  Stdout (indent +:+ "node=" +:+ short (ns_node_id s) +:+ " lifecycle=" +:+ ns_lifecycle s
    +:+ " members=" +:+ pretty (ns_effective_members s) +:+ " live_peers=" +:+ pretty (ns_live_peers s)
    +:+ " conflicts=" +:+ pretty (ns_conflicts s) +:+ " inflight=" +:+ pretty (ns_inflight_transfers s)
    +:+ " paused=" +:+ bool_text (ns_paused s) +:+ " proto=v" +:+ pretty (ns_proto_version s) +:+ " roster=" +:+ short (ns_roster_digest s)).

Definition show_bps (v : Z) : string := if bool_decide (v = 0) then "unlimited" else pretty v +:+ " B/s".

Definition peer_line (p : PeerStatusEntry) : Line :=
  match pe_status p with Some st => print_status st "  " | None => Stdout ("  peer " +:+ short (pe_node_id p) +:+ "  UNREACHABLE") end.
Definition member_line (m : MemberView) : Line :=
  Stdout (pad 12 (short (mv_node_id m)) +:+ " " +:+ pad 22 (mv_addr m) +:+ " " +:+ pad 8 (pretty (mv_epoch m)) +:+ " " +:+ mv_kind m).
Definition peer_view_line (p : PeerView) : Line :=
  Stdout (pad 12 (short (pv_node_id p)) +:+ " " +:+ pad 14 (pv_state p) +:+ " " +:+ bool_text (pv_connected p)).
Definition lag_line (l : LagView) : Line :=
  Stdout (pad 12 (short (lv_node_id l)) +:+ " " +:+ pad 12 (pretty (lv_recv_cursor l)) +:+ " " +:+ pad 12 (pretty (lv_last_acked l))
    +:+ " " +:+ pretty (lv_our_latest l)).

(** The texts the program leaves to libraries and derived code: the reply as
    JSON, the debug form of a reply and of a string. *)
Class Rendering := {
  json_pretty : CtlResponse → result string string;
  debug_response : CtlResponse → string;
  debug_string : string → string;
}.

Section rendering.
Context `{!Rendering}.

Definition change_line (c : ConfigChange) : Line :=
  Stdout ("[" +:+ (if ch_hot c then "HOT" else "RESTART") +:+ "] " +:+ ch_field c +:+ ": " +:+ debug_string (ch_old c) +:+ " -> " +:+ debug_string (ch_new c)).

Definition lines (resp : CtlResponse) : list Line :=
  match resp with
  | CtlResponse.Status s => print_status (sr_local s) "" :: (peer_line <$> sr_peers s)
  | CtlResponse.Members ms =>
      Stdout (pad 12 "NODE" +:+ " " +:+ pad 22 "ADDR" +:+ " " +:+ pad 8 "EPOCH" +:+ " " +:+ pad 6 "KIND") :: (member_line <$> ms)
  | CtlResponse.Peers ps => Stdout (pad 12 "NODE" +:+ " " +:+ pad 14 "STATE" +:+ " " +:+ pad 9 "CONNECTED") :: (peer_view_line <$> ps)
  | CtlResponse.Lag ls =>
      Stdout (pad 12 "NODE" +:+ " " +:+ pad 12 "RECV_CUR" +:+ " " +:+ pad 12 "THEY_ACK" +:+ " " +:+ pad 8 "OUR_SEQ") :: (lag_line <$> ls)
  | CtlResponse.Conflicts n => [Stdout ("conflicts: " +:+ pretty n)]
  | CtlResponse.Bandwidth g p => [Stdout ("global=" +:+ show_bps g +:+ " per_peer=" +:+ show_bps p)]
  | CtlResponse.Transfers t =>
      [Stdout ("inflight=" +:+ pretty (tv_inflight t) +:+ " chunks_fetched=" +:+ pretty (tv_chunks_fetched t)
        +:+ " chunks_served=" +:+ pretty (tv_chunks_served t) +:+ " bytes_in=" +:+ pretty (tv_bytes_in t) +:+ " bytes_out=" +:+ pretty (tv_bytes_out t))]
  | CtlResponse.Version v =>
      [Stdout ("node=" +:+ short (vv_node_id v) +:+ " proto=v" +:+ pretty (vv_proto_version v) +:+ " replicore " +:+ vv_pkg_version v)]
  | CtlResponse.Diff changes => (if bool_decide (changes = []) then [Stdout "no differences"] else []) ++ (change_line <$> changes)
  | CtlResponse.Prepared _ _ _ => [Stdout (debug_response resp)]
  | CtlResponse.Ok m => [Stdout m]
  | CtlResponse.Error m => [Stderr ("error: " +:+ m)]
  end.

Definition render (resp : CtlResponse) (json : bool) : list Line * ExitCode :=
  if json then
    match json_pretty resp with
    | Ok s => ([Stdout s], exit_code resp)
    | Err e => ([Stderr ("json: " +:+ e)], FAILURE)
    end
  else (lines resp, exit_code resp).
End rendering.

(** ** Commands *)

(** What a command does with the daemon: it ends, or sends a request and goes
    on with the reply; a connection that fails ends it. *)
Inductive Prog : Type :=
| Done (r : result string CtlResponse)
| Ask (req : CtlRequest) (k : CtlResponse → Prog).

(** The operator's machine: files as bytes and as text, and the tree the
    configuration is checked against. *)
Record Operator : Type := mkOperator {
  op_bytes : string → result IoKind (list byte);
  op_text : string → result IoKind string;
  op_world : World;
  op_cwd : FsPath;
}.

(** [str::parse::<SocketAddr>] *)
Class AddrParse := addr_parse : string → option SocketAddr.

Section commands.
Context `{!Ed25519, !Pkcs8, !IoTexts, !Toml, !HexDecode, !AddrParse, !ErrorTexts, !Rendering}.
Context (op : Operator).

Definition parse_node_id (s : string) : result string NodeId :=
  match hex_decode s with
  | None => Err ("bad node_id (not hex): " +:+ s)
  | Some b => match array_of_list 16 b with Some id => Ok id | None => Err ("node_id must be 16 bytes: " +:+ s) end
  end.
Definition parse_fingerprint (s : string) : result string hash32 :=
  match hex_decode s with
  | None => Err ("bad fingerprint (not hex): " +:+ s)
  | Some b => match array_of_list 32 b with Some fp => Ok fp | None => Err ("fingerprint must be 32 bytes: " +:+ s) end
  end.

Definition resolve_socket (args : list string) : result string string * list string :=
  match take_value args "--socket" with
  | (Some s, args) => (Ok s, args)
  | (None, args) =>
      match take_value args "--config" with
      | (Some c, args) =>
          (match Config.load (op_world op) (op_cwd op) c (op_text op c) with
           | Ok cfg => Ok (c_control_socket cfg)
           | Err e => Err ("load config: " +:+ config_error_text e)
           end, args)
      | (None, args) => (Err "need --socket PATH or --config FILE to locate the control socket", args)
      end
  end.

Definition ok_or {A} (o : option A) (e : string) : result string A := match o with Some a => Ok a | None => Err e end.

(** The request of a command that makes a single one. *)
Definition single_request (cmd : string) (r : list string) : result string (option CtlRequest) :=
  let named s := bool_decide (cmd = s) in
  if named "status" then Ok (Some (CtlRequest.Status (bool_decide ("--all" ∈ r))))
  else if named "members" then Ok (Some CtlRequest.Members)
  else if named "peers" then Ok (Some CtlRequest.Peers)
  else if named "lag" then Ok (Some CtlRequest.Lag)
  else if named "conflicts" then Ok (Some CtlRequest.Conflicts)
  else if named "transfers" then Ok (Some CtlRequest.Transfers)
  else if named "version" then Ok (Some CtlRequest.Version)
  else if named "pause" then Ok (Some CtlRequest.Pause)
  else if named "resume" then Ok (Some CtlRequest.Resume)
  else if named "bandwidth" then
    match r with
    | [] => Ok (Some (CtlRequest.Bandwidth None))
    | [w; g; p] =>
        if bool_decide (w = "set") then
          g ← parse_bps g; p ← parse_bps p; Ok (Some (CtlRequest.Bandwidth (Some (g, p))))
        else Ok None
    | _ => Ok None
    end
  else if named "resync" then
    match r with
    | [] => Ok (Some (CtlRequest.Resync None))
    | s :: _ => n ← parse_node_id s; Ok (Some (CtlRequest.Resync (Some n)))
    end
  else if named "config" then req ← config_request r; Ok (Some req)
  else Ok None.

(** What is signed: for an addition what the operator names, for a removal
    what the daemon said of the member. *)
Definition subject (sub : string) (rest : list string) (addr fingerprint : option string) : result string (SocketAddr * hash32 * EntryKind) :=
  if bool_decide (sub = "add") then
    s ← ok_or (rest !! 1%nat) "member add needs <addr>";
    addr ← ok_or (addr_parse s) "bad addr";
    f ← ok_or (rest !! 2%nat) "member add needs <fingerprint>";
    fp ← parse_fingerprint f;
    Ok (addr, fp, EntryKind.Add)
  else if bool_decide (sub = "remove") then
    s ← ok_or addr "unknown member (nothing to remove)";
    addr ← ok_or (addr_parse s) "daemon returned bad addr";
    f ← ok_or fingerprint "unknown member (nothing to remove)";
    fp ← parse_fingerprint f;
    Ok (addr, fp, EntryKind.Remove)
  else Err ("unknown member subcommand: " +:+ sub).

Definition entry_request (sk : AdminSecret) (node : NodeId) (epoch : Z) (s : SocketAddr * hash32 * EntryKind) : CtlRequest :=
  let '(addr, fp, kind) := s in
  let entry := mkSignedEntry node addr fp epoch kind (Admin.sign_entry sk node addr fp epoch kind) in
  match kind with EntryKind.Add => CtlRequest.MemberAdd entry | EntryKind.Remove => CtlRequest.MemberRemove entry end.

(** The reply to [PrepareEntry] is signed over and submitted. *)
Definition sign_and_submit (sk : AdminSecret) (sub : string) (rest : list string) (node : NodeId) (prepared : CtlResponse) : Prog :=
  match prepared with
  | CtlResponse.Prepared epoch addr fingerprint =>
      match subject sub rest addr fingerprint with
      | Err e => Done (Err e)
      | Ok s => Ask (entry_request sk node epoch s) (λ resp, Done (Ok resp))
      end
  | _ => Done (Err ("unexpected reply to PrepareEntry: " +:+ debug_response prepared))
  end.

Definition member_command (rest : list string) : Prog :=
  match rest with
  | [] => Done (Err "member needs add|remove")
  | sub :: rest =>
      match take_value rest "--admin-key" with
      | (None, _) => Done (Err "member add/remove needs --admin-key <path>")
      | (Some admin_key, rest) =>
          match AdminKey.load (op_bytes op admin_key) with
          | Err e => Done (Err ("load admin key: " +:+ AdminKey.error_text e))
          | Ok sk =>
              match ok_or (head rest) "member needs <node_id>" ≫= parse_node_id with
              | Err e => Done (Err e)
              | Ok node => Ask (CtlRequest.PrepareEntry node) (sign_and_submit sk sub rest node)
              end
          end
      end
  end.

(** [run] up to the connections: the socket, whether the reply is printed as
    JSON, and what is asked. *)
Definition plan (args : list string) : result string (string * bool * Prog) :=
  let '(json, args) := take_flag args "--json" in
  let '(socket, args) := resolve_socket args in
  match socket with
  | Err e => Err e
  | Ok socket =>
      match args with
      | [] => Err usage
      | cmd :: rest =>
          match single_request cmd rest with
          | Err e => Err e
          | Ok (Some req) => Ok (socket, json, Ask req (λ resp, Done (Ok resp)))
          | Ok None => if bool_decide (cmd = "member") then Ok (socket, json, member_command rest) else Err usage
          end
      end
  end.
End commands.

(** ** The daemon at the other end *)

(** One connection: what the daemon did since the last one, what it reads
    while it answers, and the error of each step of the exchange. *)
Record Exchange : Type := mkExchange {
  ex_meanwhile : Daemon → Daemon;
  ex_answers : Answers;
  ex_connect : option string;
  ex_send : option string;
  ex_recv : option string;
}.

Section exchange.
Context `{!Blake3, !Bincode, !Hex, !Scan, !Ed25519, !Toml, !HexDecode, !Texts, !ErrorTexts, !HashIter}.
(** The ids of the daemon's user and of the operator, and the error of a read
    from a connection that the daemon closed. *)
Context (our_uid uid : Z) (closed : string).

Definition roundtrip (socket : string) (x : Exchange) (req : CtlRequest) (d : Daemon) : Daemon * result string CtlResponse :=
  let d := ex_meanwhile x d in
  match ex_connect x, ex_send x with
  | Some e, _ => (d, Err ("connect " +:+ socket +:+ ": " +:+ e))
  | None, Some e => (d, Err ("send: " +:+ e))
  | None, None =>
      let '(d, resp) := Control.handle_conn (ex_answers x) our_uid (Some uid) (Some req) d in
      (d, match ex_recv x, resp with
          | Some e, _ => Err ("recv: " +:+ e)
          | None, Some resp => Ok resp
          | None, None => Err ("recv: " +:+ closed)
          end)
  end.

(** The connections of a command, the [n]-th with the exchange [xs n]. *)
Fixpoint converse (socket : string) (xs : nat → Exchange) (p : Prog) (d : Daemon) : Daemon * result string CtlResponse :=
  match p with
  | Done r => (d, r)
  | Ask req k =>
      match roundtrip socket (xs 0%nat) req d with
      | (d, Err e) => (d, Err e)
      | (d, Ok resp) => converse socket (λ n, xs (S n)) (k resp) d
      end
  end.
End exchange.

(** [main] *)
Definition main `{!Blake3, !Bincode, !Hex, !Scan, !Ed25519, !Pkcs8, !IoTexts, !Toml, !HexDecode, !AddrParse, !Texts, !ErrorTexts, !HashIter, !Rendering}
    (op : Operator) (our_uid uid : Z) (closed : string) (xs : nat → Exchange) (args : list string) (d : Daemon) : Daemon * (list Line * ExitCode) :=
  match plan op args with
  | Err e => (d, ([Stderr ("error: " +:+ e)], FAILURE))
  | Ok (socket, json, p) =>
      match converse our_uid uid closed socket xs p d with
      | (d, Ok resp) => (d, render resp json)
      | (d, Err e) => (d, ([Stderr ("error: " +:+ e)], FAILURE))
      end
  end.
End Cli.
