(* ===== verification/CliProofs.v ===== *)
(** * The operator's command line: what a command achieves

    A membership command takes effect at the daemon although two connections
    and a signature lie in between, a command that exits with failure has
    changed nothing but the roster's file, and rates are read as they are
    written unless their product overflows. *)

From Stdlib Require Import Ascii.
From stdpp Require Import pretty.
From S2P Require Import Prelude Vv Decide Metadata Conflict ConflictProofs State Oplog Admin Membership MembershipProofs Suppress Join Merkle Chunk.
From S2P Require Import Proto Fs Apply ApplyProofs Peer Fetch Ingest Float Qos Config Policy Control ControlProofs Cli.
Import Control Cli.

#[local] Open Scope Z_scope.

(** ** Arguments *)

Lemma list_find_first {A} (P : A → Prop) `{!∀ x, base.Decision (P x)} (l : list A) x r :
  Forall (λ y, ¬ P y) l → P x → list_find P (l ++ x :: r) = Some (length l, x).
Proof.
  intros Hl Hx. apply list_find_Some. split; [by rewrite list_lookup_middle|]. split; [done|].
  intros j y Hj Hlt. rewrite lookup_app_l in Hj by done. by eapply Forall_lookup_1 in Hl.
Qed.

(** A value is found at whatever place the operator wrote it. *)
Lemma take_value_anywhere name v l r :
  name ∉ l → take_value (l ++ name :: v :: r) name = (Some v, l ++ r).
Proof.
  intros Hl. unfold take_value. rewrite list_find_first; [|apply Forall_forall; set_solver|done].
  assert (Hv : (l ++ name :: v :: r) !! S (length l) = Some v).
  { rewrite (lookup_app_r l) by lia. by replace (S (length l) - length l)%nat with 1%nat by lia. }
  rewrite Hv. f_equal.
  replace (l ++ name :: v :: r) with ((l ++ [name]) ++ v :: r) by by rewrite <-(assoc_L (++)).
  replace (S (length l)) with (length (l ++ [name])) by (rewrite length_app; simpl; lia).
  rewrite delete_middle, <-(assoc_L (++)). apply (delete_middle l r name).
Qed.

Lemma take_value_absent name l : name ∉ l → take_value l name = (None, l).
Proof.
  intros Hl. unfold take_value. destruct (list_find (λ a, a = name) l) as [[i a]|] eqn:Hf; [|done].
  apply list_find_Some in Hf as (Hi & -> & _). by apply list_elem_of_lookup_2 in Hi.
Qed.

Lemma take_flag_absent name l : name ∉ l → take_flag l name = (false, l).
Proof.
  intros Hl. unfold take_flag. destruct (list_find (λ a, a = name) l) as [[i a]|] eqn:Hf; [|done].
  apply list_find_Some in Hf as (Hi & -> & _). by apply list_elem_of_lookup_2 in Hi.
Qed.

(** ** Rates *)

Fixpoint all_digits (s : string) : Prop :=
  match s with EmptyString => True | String a s => (48 ≤ nat_of_ascii a ≤ 57)%nat ∧ all_digits s end.

Lemma pretty_N_char_digit (x : N) : (x < 10)%N → Z.of_nat (nat_of_ascii (pretty_N_char x)) - 48 = Z.of_N x.
Proof.
  intros Hx. assert (x = 0 ∨ x = 1 ∨ x = 2 ∨ x = 3 ∨ x = 4 ∨ x = 5 ∨ x = 6 ∨ x = 7 ∨ x = 8 ∨ x = 9)%N by lia.
  naive_solver.
Qed.

Lemma digits64_pretty_go (x : N) s : Z.of_N x < u64_modulus → digits64 (pretty_N_go x s) 0 = digits64 s (Z.of_N x).
Proof.
  revert s. induction (N.lt_wf_0 x) as [x _ IH]; intros s Hx.
  assert (x = 0 ∨ 0 < x)%N as [->|Hpos] by lia; [by rewrite pretty_N_go_0|].
  pose proof (N.div_lt x 10 Hpos eq_refl) as Hlt. pose proof (N.div_mod x 10 ltac:(done)) as Hdm.
  pose proof (N.mod_lt x 10 ltac:(done)) as Hm.
  rewrite pretty_N_go_step, IH by (done || lia). cbn [digits64]. rewrite pretty_N_char_digit by done.
  assert (Hz : Z.of_N (x `div` 10) * 10 + Z.of_N (x `mod` 10) = Z.of_N x) by lia.
  rewrite Hz, bool_decide_true; [done|]. split; [|done]. clear -Hm. revert Hm. generalize (x `mod` 10)%N. lia.
Qed.

Lemma all_digits_pretty_go (x : N) s : all_digits s → all_digits (pretty_N_go x s).
Proof.
  revert s. induction (N.lt_wf_0 x) as [x _ IH]; intros s Hs.
  assert (x = 0 ∨ 0 < x)%N as [->|Hpos] by lia; [by rewrite pretty_N_go_0|].
  rewrite pretty_N_go_step by done. apply IH; [by apply N.div_lt|]. split; [|done].
  pose proof (N.mod_lt x 10 ltac:(done)) as Hm. pose proof (pretty_N_char_digit _ Hm) as Hd. revert Hm Hd.
  generalize (x `mod` 10)%N. intros m. generalize (nat_of_ascii (pretty_N_char m)). lia.
Qed.

Lemma all_digits_parse s n : all_digits s → s ≠ "" → digits64 s 0 = Some n → parse_u64 s = Some n.
Proof.
  destruct s as [|a s]; [done|]. intros [Ha _] _ Hd. unfold parse_u64. rewrite bool_decide_false; [done|].
  intros ->. revert Ha. vm_compute. lia.
Qed.

Lemma pretty_parse n : 0 ≤ n < u64_modulus → all_digits (pretty n) ∧ parse_u64 (pretty n) = Some n.
Proof.
  intros Hn. destruct n as [|p|p]; [by split; [vm_compute; lia|]| |lia].
  change (pretty (Z.pos p)) with (pretty_N_go (N.pos p) "").
  assert (Ha : all_digits (pretty_N_go (N.pos p) "")) by by apply all_digits_pretty_go. split; [done|].
  apply all_digits_parse; [done| |by rewrite digits64_pretty_go by (simpl; lia)].
  intros He. pose proof (digits64_pretty_go (N.pos p) "" ltac:(simpl; lia)) as Hd. by rewrite He in Hd.
Qed.

Lemma lowercase_digits s t : all_digits s → to_ascii_lowercase (s +:+ t) = s +:+ to_ascii_lowercase t.
Proof.
  induction s as [|a s IH]; [done|]. intros [Ha Hs].
  change (String (lower a) (to_ascii_lowercase (s +:+ t)) = String a (s +:+ to_ascii_lowercase t)). rewrite IH by done. f_equal.
  unfold lower. by rewrite bool_decide_false by lia.
Qed.

Lemma strip_last_snoc c s a : strip_last c (s +:+ String a "") = if bool_decide (a = c) then Some s else None.
Proof.
  induction s as [|b s IH]; [done|]. change (String b s +:+ String a "") with (String b (s +:+ String a "")). cbn [strip_last].
  rewrite IH. destruct (s +:+ String a "") eqn:Hs; [by destruct s|]. by destruct (bool_decide (a = c)).
Qed.

Lemma strip_last_digits c s : all_digits s → (57 < nat_of_ascii c)%nat → strip_last c s = None.
Proof.
  intros Hs Hc. induction s as [|a s IH]; [done|]. destruct Hs as [Ha Hs]. cbn. rewrite (IH Hs).
  destruct s; [|done]. rewrite bool_decide_false; [done|]. intros ->. lia.
Qed.

Inductive rate_suffix : string → Z → Prop :=
| no_suffix : rate_suffix "" 1
| suffix_k : rate_suffix "k" 1000
| suffix_K : rate_suffix "K" 1000
| suffix_m : rate_suffix "m" 1000000
| suffix_M : rate_suffix "M" 1000000
| suffix_g : rate_suffix "g" 1000000000
| suffix_G : rate_suffix "G" 1000000000.

(** A rate is read as it is written. A decimal number with a suffix in
    either case gives the number times the suffix's factor, as long as that
    product is a 64-bit number. *)
Theorem parse_bps_exact n suffix mult :
  rate_suffix suffix mult → 0 ≤ n → n * mult < u64_modulus → parse_bps (pretty n +:+ suffix) = Ok (n * mult).
Proof.
  intros Hs Hn Hlt. assert (Hmult : 1 ≤ mult) by (destruct Hs; lia).
  destruct (pretty_parse n ltac:(nia)) as [Hd Hp]. unfold parse_bps. rewrite lowercase_digits by done.
  assert (Hnone : ∀ c, (57 < nat_of_ascii c)%nat → strip_last c (pretty n) = None) by (intros; by apply strip_last_digits).
  destruct Hs;
    (rewrite str_app_nil_r, !Hnone, Hp by (vm_compute; lia)) ||
    (match goal with |- context [to_ascii_lowercase ?u] => let v := eval vm_compute in (to_ascii_lowercase u) in change (to_ascii_lowercase u) with v end;
     rewrite !strip_last_snoc; cbn [bool_decide]; rewrite ?Hp);
    simpl; rewrite ?Hp, Z.mod_small by (unfold u64_modulus in *; lia); done.
Qed.

(** ** Failures *)

Section cli.
Context `{!Blake3, !Bincode, !Hex, !Scan, !Ed25519, !Pkcs8, !IoTexts, !Toml, !HexDecode, !AddrParse, !Texts, !ErrorTexts, !HashIter, !Rendering}.

(** All but the roster's file and its temporary sibling. *)
Definition same_but_disk (d d' : Daemon) : Prop := d' = set_membership (dm_disk d') (dm_membership d) d.

Lemma same_but_disk_refl d : same_but_disk d d.
Proof. by destruct d. Qed.
Lemma same_but_disk_trans d1 d2 d3 : same_but_disk d1 d2 → same_but_disk d2 d3 → same_but_disk d1 d3.
Proof. unfold same_but_disk. intros Ha Hb. rewrite Hb, Ha. by destruct d1. Qed.
Hint Resolve same_but_disk_refl : core.

Lemma member_change_failure a e d d' text :
  member_change a e d = (d', CtlResponse.Error text) → same_but_disk d d'.
Proof.
  unfold member_change. destruct (Membership.merge_signed _ _ _ _) as [[disk m] res] eqn:Hm. unfold Membership.merge_signed in Hm.
  destruct (Membership.stage _ _) as [[staged outcome]|er]; [|by injection Hm as <- <- <-; intros [= <- _]; destruct d].
  destruct (bool_decide _) eqn:Ho; [|by injection Hm as <- <- <-; intros [= <- _]; destruct d].
  apply bool_decide_eq_true in Ho as ->. destruct (Roster.save _ _ _ _) as [disk' [[]|er]]; injection Hm as <- <- <-; [done|].
  by intros [= <- _].
Qed.

(** A reply that is an error comes from a command that did nothing. *)
Lemma dispatch_failure a req d d' text :
  dispatch a req d = (d', CtlResponse.Error text) → same_but_disk d d'.
Proof.
  destruct req as [all| | | | | | |path|path|path|node|e|e|node| | |[[g p]|]]; cbn [dispatch]; try (by intros [= <- _]); try (by intros [= _]).
  - unfold config_reload. destruct (load_at a path) as [cand|er]; [|by intros [= <- _]].
    by destruct (reload _ _ _ _ _) as [s [changes|er]]; intros [= <- _].
  - by destruct (member_addr_fp node d) as [ad fp].
  - apply member_change_failure.
  - apply member_change_failure.
  - by destruct (resync a node d).
Qed.

(** What asks only and changes nothing. *)
Definition read_only (req : CtlRequest) : bool :=
  match req with
  | CtlRequest.ConfigReload _ | CtlRequest.MemberAdd _ | CtlRequest.MemberRemove _ | CtlRequest.Resync _ | CtlRequest.Pause | CtlRequest.Resume | CtlRequest.Bandwidth (Some _) => false
  | _ => true
  end.

Lemma dispatch_read_only a req d : read_only req = true → (dispatch a req d).1 = d.
Proof. destruct req as [all| | | | | | |path|path|path|node|e|e|node| | |[[g p]|]]; try done. intros _. cbn. by destruct (member_addr_fp node d). Qed.

(** A program whose requests only ask, but for its last. *)
Inductive commits_last : Prog → Prop :=
| last_done r : commits_last (Done r)
| last_ask req : commits_last (Ask req (λ resp, Done (Ok resp)))
| then_ask req k : read_only req = true → (∀ resp, commits_last (k resp)) → commits_last (Ask req k).

Lemma plan_commits_last op args socket json p : plan op args = Ok (socket, json, p) → commits_last p.
Proof.
  unfold plan. destruct (take_flag args "--json") as [j args1]. destruct (resolve_socket op args1) as [[s|e] [|cmd rest]]; [done| |done..].
  destruct (single_request cmd rest) as [[req|]|e]; [intros [= _ _ <-]; constructor| |done].
  destruct (bool_decide _); [intros [= _ _ <-]|done]. unfold member_command. destruct rest as [|sub rest]; [constructor|].
  destruct (take_value rest "--admin-key") as [[key|] rest']; [|constructor].
  destruct (AdminKey.load _) as [sk|er]; [|constructor]. destruct (ok_or _ _ ≫= parse_node_id) as [node|er]; [|constructor].
  apply then_ask; [done|]. intros resp. unfold sign_and_submit. destruct resp; try constructor.
  destruct (subject _ _ _ _); constructor.
Qed.

Context (our_uid uid : Z) (closed socket : string).

Lemma roundtrip_ask x req d d' r :
  ex_meanwhile x = id → ex_recv x = None → roundtrip our_uid uid closed socket x req d = (d', r) →
  (∃ e, r = Err e ∧ d' = d) ∨ ∃ resp, r = Ok resp ∧ dispatch (ex_answers x) req d = (d', resp).
Proof.
  intros Hm Hr. unfold roundtrip. rewrite Hm, Hr. unfold id.
  destruct (ex_connect x); [intros [= <- <-]; eauto|]. destruct (ex_send x); [intros [= <- <-]; eauto|].
  unfold handle_conn. destruct (admitted our_uid (Some uid)); [|intros [= <- <-]; eauto].
  destruct (dispatch (ex_answers x) req d) as [d1 resp]. intros [= <- <-]. eauto.
Qed.

Definition failed (r : result string CtlResponse) : Prop := match r with Ok resp => exit_code resp = FAILURE | Err _ => True end.

Lemma converse_failure xs p d d' r :
  (∀ n, ex_meanwhile (xs n) = id ∧ ex_recv (xs n) = None) → commits_last p →
  converse our_uid uid closed socket xs p d = (d', r) → failed r → same_but_disk d d'.
Proof.
  intros Hxs Hp. revert xs d Hxs. induction Hp as [r0|req|req k Hro _ IH]; intros xs d Hxs; cbn [converse].
  - by intros [= <- <-].
  - destruct (roundtrip _ _ _ _ _ _ _) as [d1 r1] eqn:Hrt. destruct (Hxs 0%nat) as [Hm Hr].
    destruct (roundtrip_ask _ _ _ _ _ Hm Hr Hrt) as [(e & -> & ->)|(resp & -> & Hd)]; intros [= <- <-]; [done|].
    destruct resp; try done. intros _. by eapply dispatch_failure.
  - destruct (roundtrip _ _ _ _ _ _ _) as [d1 r1] eqn:Hrt. destruct (Hxs 0%nat) as [Hm Hr].
    destruct (roundtrip_ask _ _ _ _ _ Hm Hr Hrt) as [(e & -> & ->)|(resp & -> & Hd)]; [by intros [= <- <-]|].
    pose proof (dispatch_read_only (ex_answers (xs 0%nat)) req d Hro) as Hsame. rewrite Hd in Hsame. cbn in Hsame. subst d1.
    intros Hc Hf. eapply IH; [|exact Hc|exact Hf]. intros n. apply Hxs.
Qed.
End cli.

(** C38: A command that exits with failure has not been carried out. Whatever
    the arguments, the key file and the faults of connecting and sending are,
    when [replicorectl] exits with failure although no reply was lost, the
    daemon is as before, its membership, its rates, its pause and its
    replicated state included; only the roster's file may have been rewritten
    by a save that failed. *)
Theorem cli_failure_changes_nothing
    `{!Blake3, !Bincode, !Hex, !Scan, !Ed25519, !Pkcs8, !IoTexts, !Toml, !HexDecode, !AddrParse, !Texts, !ErrorTexts, !HashIter, !Rendering}
    op our_uid uid closed xs args d d' out :
  (∀ n, ex_meanwhile (xs n) = id ∧ ex_recv (xs n) = None) → (∀ resp, ∃ s, json_pretty resp = Ok s) →
  Cli.main op our_uid uid closed xs args d = (d', (out, FAILURE)) →
  d' = set_membership (dm_disk d') (dm_membership d) d.
Proof.
  intros Hxs Hjson. unfold Cli.main. destruct (plan op args) as [[[socket json] p]|e] eqn:Hp; [|by intros [= <- _]; apply same_but_disk_refl].
  destruct (converse our_uid uid closed socket xs p d) as [d1 r] eqn:Hc. intros Hout.
  eapply (converse_failure our_uid uid closed socket xs p d d' r Hxs); [by eapply plan_commits_last|..].
  - destruct r; congruence.
  - destruct r as [resp|e]; [|done]. injection Hout as _ Hr. cbn. unfold render in Hr. destruct json; [|by injection Hr].
    destruct (Hjson resp) as [s Hs]. rewrite Hs in Hr. by injection Hr.
Qed.

(** ** Membership changes *)

(** The laws of the texts a reply carries: hexadecimal decodes to what was
    encoded, and the text of an address parses to that address, up to the
    flow label, which it leaves out. *)
Class TextLaws `{!Hex, !HexDecode, !Texts, !AddrParse} : Prop := {
  hex_round_trip l : hex_decode (hex_encode l) = Some l;
  addr_round_trip a : Admin.addr_typed a → ∃ b, addr_parse (addr_text a) = Some b ∧ Admin.addr_view b = Admin.addr_view a;
}.

Section member.
Context `{!Blake3, !Bincode, !Hex, !Scan, !Ed25519, !Pkcs8, !IoTexts, !Toml, !HexDecode, !AddrParse, !Texts, !ErrorTexts, !HashIter, !Rendering}.
Context `{!Ed25519Laws, !TextLaws}.

(** What the daemon says of an effective member can be parsed. *)
Lemma member_addr_fp_effective d node :
  node ∈ p_node_id <$> Membership.effective_peers (dm_membership d) →
  Forall (λ p, Admin.addr_typed (p_addr p)) (Membership.effective_peers (dm_membership d)) →
  ∃ ad fp, member_addr_fp node d = (Some ad, Some fp) ∧ ∃ addr f, addr_parse ad = Some addr ∧ parse_fingerprint fp = Ok f.
Proof.
  intros (p & -> & Hp)%list_elem_of_fmap Hty. unfold member_addr_fp.
  destruct (head (filter (λ q, p_node_id q = p_node_id p) (Membership.effective_peers (dm_membership d)))) as [q|] eqn:Hh.
  - assert (Hq : Admin.addr_typed (p_addr q)).
    { apply head_Some_elem_of, list_elem_of_filter in Hh as [_ Hh]. by eapply Forall_forall in Hty. }
    eexists _, _. split; [done|]. destruct (addr_round_trip (p_addr q) Hq) as (b & Hb & _). exists b, (p_fingerprint q). split; [done|].
    unfold parse_fingerprint, hash_text. by rewrite hex_round_trip, array_of_list_ba.
  - exfalso. assert (Hin : p ∈ filter (λ q, p_node_id q = p_node_id p) (Membership.effective_peers (dm_membership d))).
    { by apply list_elem_of_filter. }
    destruct (filter _ _); [by apply not_elem_of_nil in Hin|done].
Qed.

(** What a membership command asks for: the peer an addition names, or that a
    member be gone. *)
Inductive wants (d : Daemon) (node : NodeId) : list string → option Peer → Prop :=
| wants_add id sa sf more addr fp :
    addr_parse sa = Some addr → parse_fingerprint sf = Ok fp →
    wants d node ("add" :: id :: sa :: sf :: more) (Some (mkPeer node addr fp))
| wants_remove id more :
    node ∈ p_node_id <$> Membership.effective_peers (dm_membership d) →
    Forall (λ p, Admin.addr_typed (p_addr p)) (Membership.effective_peers (dm_membership d)) →
    wants d node ("remove" :: id :: more) None.

Lemma wants_subject d node sub rest want :
  wants d node (sub :: rest) want →
  ∃ addr fp kind, (let '(ad, f) := member_addr_fp node d in subject sub rest ad f) = Ok (addr, fp, kind) ∧
    want = match kind with EntryKind.Add => Some (mkPeer node addr fp) | EntryKind.Remove => None end.
Proof.
  intros Hw. inversion Hw as [id sa sf more addr fp Ha Hf|id more Hin Hty]; subst.
  - destruct (member_addr_fp node d) as [ad f]. exists addr, fp, EntryKind.Add. split; [|done].
    unfold subject. rewrite bool_decide_true by done. cbn. rewrite Ha. cbn. by rewrite Hf.
  - destruct (member_addr_fp_effective d node Hin Hty) as (ad & f & -> & addr & fp & Ha & Hf). exists addr, fp, EntryKind.Remove. split; [|done].
    unfold subject. rewrite bool_decide_false, (bool_decide_true ("remove" = "remove")) by done. cbn. rewrite Ha. cbn. by rewrite Hf.
Qed.

(** An exchange without faults from a user the daemon admits. *)
Definition intact (x : Exchange) : Prop := ex_connect x = None ∧ ex_send x = None ∧ ex_recv x = None.

Lemma roundtrip_intact our_uid uid closed socket x req d d' resp :
  intact x → uid = our_uid ∨ uid = 0 → dispatch (ex_answers x) req (ex_meanwhile x d) = (d', resp) →
  roundtrip our_uid uid closed socket x req d = (d', Ok resp).
Proof.
  intros (Hc & Hs & Hr) Huid Hd. unfold roundtrip, handle_conn. rewrite Hc, Hs, Hr.
  assert (Had : admitted our_uid (Some uid) = true).
  { unfold admitted. destruct Huid as [-> | ->]; [by rewrite bool_decide_true by done|]. by rewrite (bool_decide_true (0 = 0)), orb_true_r by done. }
  by rewrite Had, Hd.
Qed.
End member.

(** C21: A membership command takes effect. When the operator's key file holds
    the key the daemon trusts, [member add] and [member remove] print that the
    change was applied and exit with success, the daemon dials and admits the
    added node under the address and fingerprint of the command line, or no
    longer the removed one, and the roster's file holds the new roster;
    whatever else the daemon did between the two connections, as long as it
    left this node's entry alone. *)
Theorem member_command_takes_effect
    `{!Blake3, !Bincode, !Hex, !Scan, !Ed25519, !Pkcs8, !IoTexts, !Toml, !HexDecode, !AddrParse, !Texts, !ErrorTexts, !HashIter, !Rendering}
    `{!Ed25519Laws, !TextLaws} op our_uid uid closed xs args args1 socket sub more key id rest sk node want d :
  let d0 := ex_meanwhile (xs 0%nat) d in
  let d1 := ex_meanwhile (xs 1%nat) d0 in
  let m := dm_membership d1 in
  take_flag args "--json" = (false, args1) → resolve_socket op args1 = (Ok socket, "member" :: sub :: more) →
  take_value more "--admin-key" = (Some key, id :: rest) →
  AdminKey.load (op_bytes op key) = Ok sk → parse_node_id id = Ok node → wants d0 node (sub :: id :: rest) want →
  intact (xs 0%nat) → intact (xs 1%nat) → uid = our_uid ∨ uid = 0 → an_save_fault (ex_answers (xs 1%nat)) = Membership.NoFault →
  trusted m → admin_pubkey m = Some (public_key sk) → node ≠ our_node_id m → roster m !! node = roster (dm_membership d0) !! node →
  (∀ cur, roster m !! node = Some cur → in_u64 (se_epoch cur) ∧ se_epoch cur + 1 < u64_modulus) →
  ∃ d', Cli.main op our_uid uid closed xs args d = (d', ([Stdout "membership change applied and gossiped"], SUCCESS)) ∧
    effective (dm_membership d') !! node = want ∧
    dm_disk d' !! roster_path m = Some (ValidJson (Membership.roster_snapshot (dm_membership d'))).
Proof.
  cbv zeta. intros Hflag Hsock Hval Hkey Hid Hwant Hx0 Hx1 Huid Hsave Ht Hpk Hnode Hroster Hroom.
  destruct (wants_subject _ _ _ _ _ Hwant) as (addr & fp & kind & Hsub & ->). clear Hwant.
  destruct (next_epoch_change_applies (ex_answers (xs 1%nat)) sk node addr fp kind _ Ht Hpk Hsave Hnode Hroom) as (d' & Hch & Heff).
  exists d'. split; [|done]. unfold Cli.main, plan. rewrite Hflag, Hsock. cbn [single_request].
  assert (Hnone : single_request "member" (sub :: more) = Ok None) by reflexivity. rewrite Hnone, bool_decide_true by done.
  unfold member_command. rewrite Hval, Hkey. cbn [head ok_or mbind result_bind]. cbn. rewrite Hid. cbn [converse].
  destruct (member_addr_fp node (ex_meanwhile (xs 0%nat) d)) as [ad f] eqn:Haf.
  rewrite (roundtrip_intact our_uid uid closed socket (xs 0%nat) (CtlRequest.PrepareEntry node) d (ex_meanwhile (xs 0%nat) d)
    (CtlResponse.Prepared (Membership.next_epoch_for (dm_membership (ex_meanwhile (xs 0%nat) d)) node) ad f)); [|done..|by cbn [dispatch]; rewrite Haf].
  unfold sign_and_submit. rewrite Hsub. cbn [converse].
  rewrite (roundtrip_intact our_uid uid closed socket (xs 1%nat) _ _ d' (CtlResponse.Ok "membership change applied and gossiped")); [done..|].
  assert (Hep : Membership.next_epoch_for (dm_membership (ex_meanwhile (xs 0%nat) d)) node
    = Membership.next_epoch_for (dm_membership (ex_meanwhile (xs 1%nat) (ex_meanwhile (xs 0%nat) d))) node).
  { unfold Membership.next_epoch_for, Roster.next_epoch_for. by rewrite Hroster. }
  unfold entry_request. rewrite Hep. destruct kind; exact Hch.
Qed.
