(* ===== verification/CliWitness.v ===== *)
(** * Commands of an operator on a small daemon

    Hexadecimal and the texts of addresses as concrete functions that satisfy
    their laws, a key file, and the two membership commands run against the
    daemon of the control plane's examples. *)

From Stdlib Require Import Ascii.
From stdpp Require Import pretty.
From S2P Require Import Prelude Vv Decide Metadata Conflict ConflictProofs State Oplog Admin Membership MembershipProofs Suppress Join Merkle Chunk.
From S2P Require Import Proto Fs Apply ApplyProofs Peer Fetch Ingest CasDiskWitness Float Qos Config ConfigWitness Policy PolicyWitness Control ControlProofs ControlWitness Cli CliProofs.
Import StateEx RosterEx Control Cli.

#[local] Open Scope Z_scope.

(** ** Texts that can be read back *)

#[local] Instance real_hex : Hex := toy_hex.
#[local] Instance real_decode : HexDecode := unhex.

Definition read_addr (l : list byte) : option SocketAddr :=
  match l with
  | [] => None
  | b :: l =>
      if bool_decide (b = byte_of_Z 4) then ip ← array_of_list 4 (take 4 l); Some (V4 ip (be_val (drop 4 l)))
      else ip ← array_of_list 16 (take 16 l); Some (V6 ip (be_val (drop 16 l)) 0 0)
  end.
#[local] Instance read_texts : Texts := {| addr_text a := toy_hex (Admin.addr_bytes a); f64_text _ := "" |}.
#[local] Instance read_parse : AddrParse := λ s, unhex s ≫= read_addr.

#[local] Instance read_laws : TextLaws.
Proof.
  split; [apply unhex_hex|]. intros a Ha. unfold addr_parse, read_parse, addr_text, read_texts. rewrite unhex_hex. cbn [mbind option_bind].
  unfold Admin.addr_typed, Admin.in_u16 in Ha. unfold Admin.addr_bytes. destruct a as [ip p|ip p fl sc]; cbn [port_of app read_addr] in *.
  - rewrite bool_decide_true by done. rewrite take_app_length', drop_app_length' by by rewrite ba_length.
    rewrite array_of_list_ba. eexists. split; [done|]. unfold Admin.addr_view. by rewrite be_val_bytes by (simpl; lia).
  - rewrite bool_decide_false by done. rewrite take_app_length', drop_app_length' by by rewrite ba_length.
    rewrite array_of_list_ba. eexists. split; [done|]. unfold Admin.addr_view. by rewrite be_val_bytes by (simpl; lia).
Qed.

(** ** The operator *)

#[local] Existing Instance named_toml.
#[local] Instance short_errors : ErrorTexts := {| config_error_text _ := "configuration"; membership_error_text _ := "membership" |}.
#[local] Instance list_iter : HashIter := λ V m, map_to_list m.
#[local] Instance raw_pkcs8 : Pkcs8 := array_of_list 32.
#[local] Instance short_io : IoTexts := λ _, "i/o error".
#[local] Instance plain_rendering : Rendering := {| json_pretty _ := Ok "{}"; debug_response _ := "reply"; debug_string s := s |}.

Definition operator1 : Operator :=
  mkOperator (λ p, if bool_decide (p = "/admin.key") then Ok (ba_list key1) else if bool_decide (p = "/other.key") then Ok (ba_list key2) else Err NotFound)
    (λ _, Err NotFound) ∅ [].
Definition quiet : nat → Exchange := λ _, mkExchange id answers1 None None None.

Definition add_line : list string :=
  ["--socket"; "/run/r.sock"; "member"; "add"; "--admin-key"; "/admin.key"; id_text node_b; addr_text (ex_addr 7002); hash_text (fill 32 x06)].
Definition remove_line (key : string) : list string := ["member"; "remove"; id_text node_a; "--admin-key"; key; "--socket"; "/run/r.sock"].

(** ** Runs *)

Lemma key1_loads : AdminKey.load (op_bytes operator1 "/admin.key") = Ok (key1 : @AdminSecret toy_ed25519).
Proof.
  change (AdminKey.load (Ok (ba_list key1)) = Ok (key1 : @AdminSecret toy_ed25519)). unfold AdminKey.load, from_pkcs8, raw_pkcs8.
  by rewrite array_of_list_ba.
Qed.
Lemma node_text_parses (n : NodeId) : Cli.parse_node_id (id_text n) = Ok n.
Proof. unfold Cli.parse_node_id, id_text, hex_decode, real_decode, hex_encode, real_hex. by rewrite unhex_hex, array_of_list_ba. Qed.

Lemma member_command_takes_effect_witness :
  ∃ d', Cli.main operator1 1000 1000 "closed" quiet (remove_line "/admin.key") daemon1 = (d', ([Stdout "membership change applied and gossiped"], SUCCESS)) ∧
    effective (dm_membership d') !! node_a = None ∧
    dm_disk d' !! roster_path inner1 = Some (ValidJson (Membership.roster_snapshot (dm_membership d'))).
Proof.
  apply (member_command_takes_effect operator1 1000 1000 "closed" quiet (remove_line "/admin.key") (remove_line "/admin.key") "/run/r.sock" "remove"
    [id_text node_a; "--admin-key"; "/admin.key"] "/admin.key" (id_text node_a) [] (key1 : @AdminSecret toy_ed25519) node_a None daemon1).
  - vm_compute. reflexivity.
  - vm_compute. reflexivity.
  - vm_compute. reflexivity.
  - exact key1_loads.
  - exact (node_text_parses node_a).
  - apply wants_remove; [vm_decide|]. apply Forall_forall. intros p Hp.
    assert (Hall : p ∈ [mkPeer node_a (ex_addr 7000) (fill 32 x05)]) by exact Hp.
    apply list_elem_of_singleton in Hall as ->. unfold Admin.addr_typed, Admin.in_u16. simpl. lia.
  - split; [reflexivity|split; reflexivity].
  - split; [reflexivity|split; reflexivity].
  - left. reflexivity.
  - reflexivity.
  - apply one_merge_trusted.
  - vm_compute. reflexivity.
  - vm_decide.
  - reflexivity.
  - intros cur Hc. assert (Hadd : roster inner1 !! node_a = Some add_a) by vm_decide.
    replace cur with add_a; [vm_decide|]. apply (inj Some). rewrite <- Hadd. exact Hc.
Defined.

(** A key the daemon does not trust: refused, and nothing changed. *)
Definition refused : Daemon * (list Line * ExitCode) := Cli.main operator1 1000 1000 "closed" quiet (remove_line "/other.key") daemon1.

Lemma cli_failure_changes_nothing_witness :
  refused.2 = ([Stderr "error: signature rejected: not signed by the admin key"], FAILURE) ∧
  refused.1 = set_membership (dm_disk refused.1) (dm_membership daemon1) daemon1.
Proof.
  assert (Hout : refused.2 = ([Stderr "error: signature rejected: not signed by the admin key"], FAILURE)) by (vm_compute; reflexivity).
  split; [exact Hout|]. unfold refused in *.
  destruct (Cli.main operator1 1000 1000 "closed" quiet (remove_line "/other.key") daemon1) as [d' out] eqn:Hm.
  cbn [fst snd] in *. subst out.
  apply (cli_failure_changes_nothing operator1 1000 1000 "closed" quiet (remove_line "/other.key") daemon1 d'
    [Stderr "error: signature rejected: not signed by the admin key"]).
  - intros n. split; reflexivity.
  - intros resp. exists "{}". reflexivity.
  - exact Hm.
Defined.

(** An addition, with the key's path in the middle of the line. *)
Example member_add_run :
  (Cli.main operator1 1000 0 "closed" quiet add_line daemon1).2 = ([Stdout "membership change applied and gossiped"], SUCCESS).
Proof. vm_compute. reflexivity. Qed.

Lemma parse_bps_exact_witness : parse_bps "25M" = Ok 25000000.
Proof. apply (parse_bps_exact 25 "M" 1000000 suffix_M); vm_compute; congruence. Defined.

(** ** Limits *)

(** The product with the suffix's factor wraps: what is written as more than
    all of 64 bits becomes 384 bytes per second, or no limit at all. *)
Theorem parse_bps_wraps : parse_bps "18446744073709552k" = Ok 384 ∧ parse_bps "2305843009213693952k" = Ok 0.
Proof. split; vm_compute; reflexivity. Qed.
