(* ===== verification/Boot.v ===== *)
(** * The daemon's entry point (src/src/main.rs)

    The commands of [replicored]: the start of the daemon as a sequence of
    steps with the log of what was swept and started, and the generation of a
    node's identity and of the administrator's key. What other components do
    at start-up (configuration, sweeps, the chunk store, the roster) are their
    own definitions; SQLite, the operating system's thread, certificates and
    randomness are inputs. *)

From stdpp Require Import pretty.
From S2P Require Import Prelude Vv Metadata Conflict State Admin Membership Suppress Chunk Proto Fs Apply Ingest Scanner CasDisk Float Qos Config Control Cli.

#[local] Open Scope Z_scope.

(** ** Steps and their log *)

Inductive Task : Type :=
| Watcher
| ScannerTask
| IngestTask
| HealthEndpoint
| ControlPlane
| Transport.

#[export] Instance task_eq_dec : EqDecision Task.
Proof. solve_decision. Defined.

Inductive Event : Type :=
| ProbedChown
| OpenedStore
| SweptShare (root : FsPath) (removed : Z)
| SweptCas (root : FsPath) (removed : Z)
| Started (t : Task).

#[export] Instance event_eq_dec : EqDecision Event.
Proof. solve_decision. Defined.

Module BootError.
Inductive t : Type :=
| Text (what : string)
| Config (e : ConfigError)
| Probe (k : IoKind)
| NoChown
| Io (ctx : string) (k : IoKind)
| Store
| Sweep (e : ScanError)
| Cas (e : CasError)
| Roster (e : MembershipError)
| AdminKey (e : AdminKeyError).
End BootError.
Abbreviation BootError := BootError.t.

(** A host and the log. *)
Definition Boot (A : Type) : Type := Host * list Event → (Host * list Event) * outcome BootError A.

#[export] Instance boot_ret : MRet Boot := λ A a s, (s, Done a).
#[export] Instance boot_bind : MBind Boot := λ A B f m s,
  match m s with
  | (s, Done a) => f a s
  | (s, Fail e) => (s, Fail e)
  | (s, Crashed) => (s, Crashed)
  end.

Definition lift {E A} (f : E → BootError) (m : Op E A) : Boot A := λ s,
  match m s.1 with
  | (h, Done a) => ((h, s.2), Done a)
  | (h, Fail e) => ((h, s.2), Fail (f e))
  | (h, Crashed) => ((h, s.2), Crashed)
  end.
Definition refuse {A} (e : BootError) : Boot A := λ s, (s, Fail e).
Definition of_res {E A} (f : E → BootError) (r : result E A) : Boot A := match r with Ok a => mret a | Err e => refuse (f e) end.
Definition emit (e : Event) : Boot unit := λ s, ((s.1, s.2 ++ [e]), Done ()).

(** ** Paths and files *)

(** Where a path text starts, and its parent's segments ([Path::parent]). *)
Definition start_of (cwd : FsPath) (path : string) : FsPath := if is_absolute path then [] else cwd.
Definition parent_segs (path : string) : option (list string) :=
  match strip_trailing (segments path) with
  | [] => None
  | segs => Some (removelast segs)
  end.

Definition write_at (mode : Z → Z) (cwd : FsPath) (path : string) (bytes : list byte) : Op Errno unit :=
  syscall;;
  q ← open_trunc LINK_MAX mode (start_of cwd path) (segments path);
  sys_write q bytes.

(** [fs::write], and [write_private]: owner-only when the file is created. *)
Definition fs_write : FsPath → string → list byte → Op Errno unit := write_at (λ m, m).
Definition write_private : FsPath → string → list byte → Op Errno unit := write_at (λ m, Z.land 384 m).

(** [Path::exists] *)
Definition path_exists (cwd : FsPath) (path : string) (h : Host) : bool :=
  match namei LINK_MAX (h_world h) (start_of cwd path) (segments path) with
  | Ok q => bool_decide (q = [] ∨ is_Some (h_world h !! q))
  | Err _ => false
  end.

(** [metadata::can_chown] in a directory given by its segments. *)
Definition can_chown (euid : Z) (start segs : list string) : Op Errno bool :=
  if bool_decide (euid = 0) then mret true else
  dir ← create_all start segs;
  pid ← gets h_pid;
  let probe := dir ++ [".replicore-chown-probe." +:+ pretty pid] in
  syscall;;
  open_trunc LINK_MAX (λ m, m) [] probe;;
  r ← catch (sys_lchown probe 0 0);
  ignore (sys_unlink probe);;
  match r with
  | Ok _ => mret true
  | Err e => if bool_decide (e = EPERM) then mret false else fail e
  end.

(** ** Arguments *)

(** One flag with a value; the last one counts. *)
Fixpoint one_flag (flag : string) (args : list string) (acc : option string) : result BootError (option string) :=
  match args with
  | [] => Ok acc
  | f :: args =>
      if bool_decide (f = flag) then
        match args with
        | [] => Err (BootError.Text (flag +:+ " needs a value"))
        | v :: args => one_flag flag args (Some v)
        end
      else Err (BootError.Text ("unknown argument: " +:+ f))
  end.
Fixpoint cert_flags (args : list string) (out_dir name : option string) : result BootError (option string * option string) :=
  match args with
  | [] => Ok (out_dir, name)
  | f :: args =>
      if bool_decide (f = "--out-dir") then
        match args with [] => Err (BootError.Text "--out-dir needs a value") | v :: args => cert_flags args (Some v) name end
      else if bool_decide (f = "--name") then
        match args with [] => Err (BootError.Text "--name needs a value") | v :: args => cert_flags args out_dir (Some v) end
      else Err (BootError.Text ("unknown argument: " +:+ f))
  end.

(** ** The daemon *)

(** What the system gives a start: the effective user, the working directory,
    the texts of files, whether SQLite opens the database, whether the
    watcher's thread can be created, and the roster's file. *)
Record System : Type := mkSystem {
  sy_euid : Z;
  sy_cwd : FsPath;
  sy_text : string → result IoKind string;
  sy_store : result unit unit;
  sy_thread : result IoKind unit;
  sy_disk : Disk;
  sy_read : ReadFault;
}.

Section run.
Context `{!Blake3, !Ed25519, !Toml, !HexDecode, !Scan, !DirOrder}.
Context (sys : System).

(** The canonical share of a loaded configuration. *)
Definition share_of (cfg : Config) : FsPath := filter (λ c, c ≠ "") (segments (c_share_dir cfg)).

Definition load_config (path : string) : Boot Config := λ s,
  of_res BootError.Config (Config.load (h_world s.1) (sy_cwd sys) path (sy_text sys path)) s.

Definition check_owner (cfg : Config) : Boot unit :=
  if bool_decide (c_owner_policy cfg = OwnerPolicy.Numeric) then
    ok ← lift (λ e, BootError.Probe (io_kind e))
      (can_chown (sy_euid sys) (start_of (sy_cwd sys) (c_db_path cfg)) (default ["."] (parent_segs (c_db_path cfg))));
    if (ok : bool) then emit ProbedChown else refuse BootError.NoChown
  else mret ().

Definition create_db_dir (cfg : Config) : Boot unit :=
  match parent_segs (c_db_path cfg) with
  | None => mret ()
  | Some segs => lift (λ e, BootError.Io "create db dir" (io_kind e)) (create_all (start_of (sy_cwd sys) (c_db_path cfg)) segs);; mret ()
  end.

(** Both sweeps, before anything that stages is running. *)
Definition sweep_both (cfg : Config) : Boot unit :=
  n ← lift BootError.Sweep (Scanner.sweep_orphan_temps (share_of cfg));
  emit (SweptShare (share_of cfg) n);;
  root ← lift BootError.Cas (CasDisk.open (start_of (sy_cwd sys) (c_cas_dir cfg)) (segments (c_cas_dir cfg)));
  fuel ← lift BootError.Cas (gets Scanner.fuel_for);
  n ← lift BootError.Cas (CasDisk.sweep_orphan_temps root fuel);
  emit (SweptCas root n).

Definition start_tasks (cfg : Config) : Boot unit :=
  of_res (BootError.Io "spawn watcher thread") (sy_thread sys);;
  emit (Started Watcher);;
  emit (Started ScannerTask);;
  emit (Started IngestTask);;
  of_res BootError.Roster (Membership.load (sy_disk sys) (sy_read sys) (intent_of cfg));;
  (if bool_decide (is_Some (c_health_listen cfg)) then emit (Started HealthEndpoint) else mret ());;
  emit (Started ControlPlane);;
  emit (Started Transport).

Definition run (args : list string) : Boot unit :=
  path ← of_res id (one_flag "--config" args None);
  path ← of_res BootError.Text (Cli.ok_or path "run needs --config FILE");
  cfg ← load_config path;
  check_owner cfg;;
  create_db_dir cfg;;
  of_res (λ _, BootError.Store) (sy_store sys);;
  emit OpenedStore;;
  sweep_both cfg;;
  start_tasks cfg.
End run.

(** ** Keys *)

Definition usage : list string :=
  ["usage:"; "  replicored gen-cert --out-dir DIR --name NAME"; "  replicored gen-admin-key --out FILE";
   "  replicored run --config FILE"; "  replicored version"].

(** A node's identity, as [rcgen] makes it. *)
Record Identity : Type := mkIdentity { id_cert_pem : list byte; id_key_pem : list byte; id_fingerprint : hash32 }.

Section keys.
Context `{!Hex, !Ed25519, !Pkcs8}.
Context (cwd : FsPath).

Definition join_text (dir name : string) : string :=
  if is_absolute name then name else if bool_decide (dir = "") then name
  else if bool_decide (List.last (segments dir) "" = "") then dir +:+ name else dir +:+ "/" +:+ name.

(** [gen-cert]: the lines printed. *)
Definition gen_cert (args : list string) (ident : option Identity) : Boot (list string) :=
  '(out_dir, name) ← of_res id (cert_flags args None None);
  out_dir ← of_res BootError.Text (Cli.ok_or out_dir "gen-cert needs --out-dir DIR");
  name ← of_res BootError.Text (Cli.ok_or name "gen-cert needs --name NAME");
  lift (λ e, BootError.Io "create" (io_kind e)) (create_all (start_of cwd out_dir) (segments out_dir));;
  ident ← of_res BootError.Text (Cli.ok_or ident "generate identity");
  let cert_path := join_text out_dir (name +:+ ".cert.pem") in
  let key_path := join_text out_dir (name +:+ ".key.pem") in
  lift (λ e, BootError.Io "write" (io_kind e)) (fs_write cwd cert_path (id_cert_pem ident));;
  lift (λ e, BootError.Io "write" (io_kind e)) (write_private cwd key_path (id_key_pem ident));;
  mret ["cert:        " +:+ cert_path; "key:         " +:+ key_path +:+ " (mode 0600)";
        "fingerprint: " +:+ hex_encode (ba_list (id_fingerprint ident)); "";
        "Pin this fingerprint in each peer's [[peers]] entry."].

Definition quote : string := String (Ascii.ascii_of_nat 34) EmptyString.
Definition quoted (s : string) : string := quote +:+ s +:+ quote.

(** [gen-admin-key]; [doc] is the PKCS#8 document the random source gives. *)
Definition gen_admin_key (args : list string) (doc : option (list byte)) : Boot (list string) :=
  out ← of_res id (one_flag "--out" args None);
  out ← of_res BootError.Text (Cli.ok_or out "gen-admin-key needs --out FILE");
  there ← lift id (gets (path_exists cwd out));
  if (there : bool) then refuse (BootError.Text (out +:+ " already exists; refusing to overwrite an admin key")) else
  (match parent_segs out with
   | None | Some [] => mret ()
   | Some segs => lift (λ e, BootError.Io "create" (io_kind e)) (create_all (start_of cwd out) segs);; mret ()
   end);;
  r ← of_res BootError.AdminKey (AdminKey.generate_admin_key doc);
  lift (λ e, BootError.Io "write" (io_kind e)) (write_private cwd out r.1);;
  mret ["admin secret: " +:+ out +:+ " (mode 0600 — keep offline)"; "admin pubkey: " +:+ AdminKey.to_hex r.2; "";
        "Put this in every node's intent file:"; "  [trust]"; "  admin_pubkey = " +:+ quoted (AdminKey.to_hex r.2)].
End keys.

(** [main]: the lines printed. *)
Definition main `{!Blake3, !Hex, !Ed25519, !Pkcs8, !Toml, !HexDecode, !Scan, !DirOrder}
    (sys : System) (ident : option Identity) (doc : option (list byte)) (args : list string) : Boot (list string) :=
  match args with
  | cmd :: rest =>
      if bool_decide (cmd = "gen-cert") then gen_cert (sy_cwd sys) rest ident
      else if bool_decide (cmd = "gen-admin-key") then gen_admin_key (sy_cwd sys) rest doc
      else if bool_decide (cmd = "run") then run sys rest;; mret []
      else if bool_decide (cmd ∈ ["version"; "--version"; "-V"]) then
        mret ["replicored " +:+ PKG_VERSION +:+ " (protocol v" +:+ pretty PROTO_VERSION +:+ ")"]
      else mret usage
  | [] => mret usage
  end.
