(* ===== verification/BootProofs.v ===== *)
(** * The start of the daemon

    Nothing that could stage a file runs before both sweeps, the daemon does
    not run under a policy it cannot honour, and a start after a kill leaves
    no staged regular file and everything else. *)

From stdpp Require Import pretty.
From S2P Require Import Prelude Vv Metadata Conflict State Admin Membership Suppress Chunk Proto Fs Apply ApplyProofs Ingest Scanner ScannerProofs.
From S2P Require Import CasDisk CasDiskProofs Float Qos Config Control Cli Boot.

#[local] Open Scope Z_scope.

(** ** The order of a start *)

(** The log of a whole start. *)
Definition boot_log (cfg : Config) (n : Z) (root : FsPath) (m : Z) : list Event :=
  (if bool_decide (c_owner_policy cfg = OwnerPolicy.Numeric) then [ProbedChown] else []) ++
  [OpenedStore; SweptShare (share_of cfg) n; SweptCas root m; Started Watcher; Started ScannerTask; Started IngestTask] ++
  (if bool_decide (is_Some (c_health_listen cfg)) then [Started HealthEndpoint] else []) ++ [Started ControlPlane; Started Transport].

Lemma lift_cases {E A : Type} (f : E → BootError) (m : Op E A) s :
  ∃ h, (∃ a, m s.1 = (h, Done a) ∧ lift f m s = ((h, s.2), Done a)) ∨ lift f m s = ((h, s.2), Crashed) ∨ ∃ e, lift f m s = ((h, s.2), Fail e).
Proof. unfold lift. destruct (m s.1) as [h [a|e|]]; exists h; eauto. Qed.

Section order.
Context `{!Blake3, !Ed25519, !Toml, !HexDecode, !Scan, !DirOrder} (sys : System).

Definition grows {A : Type} (m : Boot A) (full : list Event → Prop) : Prop :=
  ∀ s s' r, m s = (s', r) → ∃ l, s'.2 = s.2 ++ l ∧ (match r with Done _ => full l | _ => ∃ all, full all ∧ l `prefix_of` all end).

Lemma start_tasks_log cfg :
  grows (start_tasks sys cfg) (λ l, l = [Started Watcher; Started ScannerTask; Started IngestTask] ++
    (if bool_decide (is_Some (c_health_listen cfg)) then [Started HealthEndpoint] else []) ++ [Started ControlPlane; Started Transport]).
Proof.
  intros [h l0] s' r. unfold start_tasks, mbind, boot_bind, of_res. destruct (sy_thread sys) as [[]|k].
  - cbn. destruct (Membership.load _ _ _) as [m|e]; cbn.
    + destruct (bool_decide _); cbn; intros [= <- <-]; cbn; rewrite <-!(assoc_L (++)); eexists; (split; [reflexivity|done]).
    + intros [= <- <-]. cbn. rewrite <-!(assoc_L (++)). eexists. split; [reflexivity|]. eexists. split; [reflexivity|]. by eexists.
  - cbn. intros [= <- <-]. exists []. cbn. rewrite app_nil_r. split; [done|]. eexists. split; [reflexivity|]. by eexists.
Qed.

Lemma sweep_both_log cfg : grows (sweep_both sys cfg) (λ l, ∃ n root m, l = [SweptShare (share_of cfg) n; SweptCas root m]).
Proof.
  intros [h l0] s' r. unfold sweep_both, mbind, boot_bind.
  assert (Hnone : ∃ l, l0 = l0 ++ l ∧ ∃ all, (∃ n root m, all = [SweptShare (share_of cfg) n; SweptCas root m]) ∧ l `prefix_of` all).
  { exists []. rewrite app_nil_r. split; [done|]. exists [SweptShare (share_of cfg) 0; SweptCas [] 0]. split; [by eauto|]. by eexists. }
  destruct (lift_cases BootError.Sweep (Scanner.sweep_orphan_temps (share_of cfg)) (h, l0)) as (h1 & [(n & _ & ->)|[->|[e ->]]]);
    [|by intros [= <- <-]..].
  cbn [emit fst snd].
  assert (Hone : ∃ l, l0 ++ [SweptShare (share_of cfg) n] = l0 ++ l ∧ ∃ all, (∃ n root m, all = [SweptShare (share_of cfg) n; SweptCas root m]) ∧ l `prefix_of` all).
  { eexists. split; [reflexivity|]. exists [SweptShare (share_of cfg) n; SweptCas [] 0]. split; [by eauto|]. by eexists. }
  destruct (lift_cases BootError.Cas (CasDisk.open (start_of (sy_cwd sys) (c_cas_dir cfg)) (segments (c_cas_dir cfg))) (h1, l0 ++ [SweptShare (share_of cfg) n]))
    as (h2 & [(root & _ & ->)|[->|[e ->]]]); [|by intros [= <- <-]..].
  cbn [lift gets fst snd].
  destruct (lift_cases BootError.Cas (CasDisk.sweep_orphan_temps root (Scanner.fuel_for h2)) (h2, l0 ++ [SweptShare (share_of cfg) n]))
    as (h3 & [(m & _ & ->)|[->|[e ->]]]); [|by intros [= <- <-]..].
  intros [= <- <-]. cbn. rewrite <-(assoc_L (++)). eexists. split; [reflexivity|]. by exists n, root, m.
Qed.

Lemma check_owner_log cfg :
  grows (check_owner sys cfg) (λ l, l = if bool_decide (c_owner_policy cfg = OwnerPolicy.Numeric) then [ProbedChown] else []).
Proof.
  intros [h l0] s' r. unfold check_owner. destruct (bool_decide _); [|intros [= <- <-]; exists []; by rewrite app_nil_r].
  unfold mbind, boot_bind. match goal with |- context [lift ?f ?m] => destruct (lift_cases f m (h, l0)) as (h1 & [([] & _ & ->)|[->|[e ->]]]) end.
  1: intros [= <- <-]; by eexists.
  all: intros [= <- <-]; exists []; cbn; rewrite app_nil_r; (split; [done|]); eexists; (split; [reflexivity|by eexists]).
Qed.

Lemma create_db_dir_log cfg : grows (create_db_dir sys cfg) (λ l, l = []).
Proof.
  intros [h l0] s' r. unfold create_db_dir. destruct (parent_segs _) as [segs|]; [|intros [= <- <-]; exists []; by rewrite app_nil_r].
  unfold mbind, boot_bind. match goal with |- context [lift ?f ?m] => destruct (lift_cases f m (h, l0)) as (h1 & [(q & _ & ->)|[->|[e ->]]]) end.
  all: intros [= <- <-]; exists []; cbn; rewrite app_nil_r; (split; [done|]); try done; eexists; (split; [reflexivity|by eexists]).
Qed.

Lemma grows_bind {A B : Type} (m : Boot A) (k : A → Boot B) (F G FG : list Event → Prop) :
  grows m F → (∀ a, grows (k a) G) → (∃ g, G g) → (∀ f g, F f → G g → FG (f ++ g)) → grows (m ≫= k) FG.
Proof.
  intros Hm Hk [g0 Hg0] HH s s' r. unfold mbind, boot_bind. destruct (m s) as [s1 [a|e|]] eqn:Hs; intros Hr.
  - destruct (Hm s s1 (Done a) Hs) as (l1 & Hl1 & Hf). destruct (Hk a s1 s' r Hr) as (l2 & Hl2 & Hg). exists (l1 ++ l2).
    rewrite Hl2, Hl1, (assoc_L (++)). split; [done|]. destruct r as [b|e|]; [by eauto|..]; destruct Hg as (all & Hall & Hp); exists (l1 ++ all);
      (split; [by eauto|by apply prefix_app]).
  - destruct (Hm s s1 (Fail e) Hs) as (l1 & Hl1 & all & Hall & Hp). injection Hr as <- <-. exists l1. split; [done|]. exists (all ++ g0).
    split; [by eauto|]. by apply prefix_app_r.
  - destruct (Hm s s1 Crashed Hs) as (l1 & Hl1 & all & Hall & Hp). injection Hr as <- <-. exists l1. split; [done|]. exists (all ++ g0).
    split; [by eauto|]. by apply prefix_app_r.
Qed.

Lemma grows_res {E A : Type} (f : E → BootError) (r : result E A) : grows (of_res f r) (λ l, l = []).
Proof. intros [h l0] s' r'. destruct r; intros [= <- <-]; exists []; rewrite app_nil_r; (split; [done|]); try done; eexists; (split; [reflexivity|by eexists]). Qed.
Lemma grows_emit e : grows (emit e) (λ l, l = [e]).
Proof. intros [h l0] s' r. intros [= <- <-]. by eexists. Qed.

(** Everything after the configuration is loaded. *)
Definition run_loaded (cfg : Config) : Boot unit :=
  check_owner sys cfg;;
  create_db_dir sys cfg;;
  of_res (λ _, BootError.Store) (sy_store sys);;
  emit OpenedStore;;
  sweep_both sys cfg;;
  start_tasks sys cfg.

Lemma run_loaded_log cfg : grows (run_loaded cfg) (λ l, ∃ n root m, l = boot_log cfg n root m).
Proof.
  unfold run_loaded. set (tasks := [Started Watcher; Started ScannerTask; Started IngestTask] ++
    (if bool_decide (is_Some (c_health_listen cfg)) then [Started HealthEndpoint] else []) ++ [Started ControlPlane; Started Transport]).
  set (tail0 := λ l, ∃ n root m, l = [SweptShare (share_of cfg) n; SweptCas root m] ++ tasks).
  assert (Htail : ∃ l, tail0 l) by (by exists ([SweptShare (share_of cfg) 0; SweptCas [] 0] ++ tasks), 0, [], 0).
  set (opened := λ l, ∃ g, tail0 g ∧ l = OpenedStore :: g).
  assert (Hopen : ∃ l, opened l) by (destruct Htail as [g Hg]; by exists (OpenedStore :: g), g).
  eapply (grows_bind _ _ _ opened); [apply check_owner_log|intros _|exact Hopen|].
  - eapply (grows_bind _ _ _ opened opened); [apply create_db_dir_log|intros _|exact Hopen|by intros ? g ->].
    eapply (grows_bind _ _ _ opened opened); [apply grows_res|intros _|exact Hopen|by intros ? g ->].
    eapply (grows_bind _ _ _ tail0 opened); [apply grows_emit|intros _|exact Htail|intros ? g -> Hg; by exists g].
    eapply (grows_bind _ _ _ _ tail0); [apply sweep_both_log|intros _; apply start_tasks_log|by eexists|].
    intros f g (n & root & m & ->) ->. by exists n, root, m.
  - intros ? g -> (g' & (n & root & m & ->) & ->). by exists n, root, m.
Qed.
End order.

(** Nothing runs before the sweeps, or under a policy the daemon cannot
    honour. Whatever fails and wherever a start is killed, what it did is a
    prefix of one order: the probe for the right to change owners, if the
    policy needs it, the database, the sweep of the share's staged files, the
    sweep of the chunk store's, and only then the watcher, the scanner, the
    ingest, the health endpoint if there is one, the control plane and the
    transport. *)
Theorem boot_order `{!Blake3, !Ed25519, !Toml, !HexDecode, !Scan, !DirOrder} sys args h h' log r :
  run sys args (h, []) = ((h', log), r) →
  (log = [] ∧ r ≠ Done ()) ∨
  ∃ path cfg n root m, Config.load (h_world h) (sy_cwd sys) path (sy_text sys path) = Ok cfg ∧
    log `prefix_of` boot_log cfg n root m ∧ (r = Done () → log = boot_log cfg n root m).
Proof.
  unfold run, mbind, boot_bind, of_res. destruct (one_flag "--config" args None) as [[path|]|e]; cbn; [|by intros [= <- <- <-]; left..].
  unfold load_config, of_res. cbn. destruct (Config.load (h_world h) (sy_cwd sys) path (sy_text sys path)) as [cfg|e] eqn:Hc; cbn; [|by intros [= <- <- <-]; left].
  intros Hrun. right. destruct (run_loaded_log sys cfg (h, []) (h', log) r Hrun) as (l & Hl & Hr). cbn in Hl. subst l. destruct r as [[]|e|].
  - destruct Hr as (n & root & m & ->). by exists path, cfg, n, root, m.
  - destruct Hr as (all & (n & root & m & ->) & Hp). by exists path, cfg, n, root, m.
  - destruct Hr as (all & (n & root & m & ->) & Hp). by exists path, cfg, n, root, m.
Qed.

(** ** A start after a kill *)

Lemma create_all_there cur segs h :
  Forall normal_comp segs → dirs_below (h_world h) cur segs → create_all cur segs h = (h, Done (cur ++ segs)).
Proof.
  intros Hn. revert cur. induction Hn as [|c segs (Hc1 & Hc2 & Hc3) Hn IH]; intros cur Hd; cbn [create_all]; [by rewrite app_nil_r|].
  rewrite !bool_decide_false by naive_solver. apply dirs_below_cons in Hd as [Hc Hd].
  unfold mbind, op_bind, map_err. cbn [create_dirs]. unfold mbind, op_bind, get_node, gets. rewrite Hc. cbn. rewrite IH by done. by rewrite <-(assoc_L (++)).
Qed.

Lemma create_all_text cwd path segs comps h :
  is_absolute path = true → segs = "" :: comps → resolves (h_world h) comps → create_all (start_of cwd path) segs h = (h, Done comps).
Proof.
  intros Ha -> [Hn Hd]. unfold start_of. rewrite Ha. cbn [create_all]. rewrite bool_decide_true by auto.
  rewrite create_all_there by done. done.
Qed.

(** A machine on which the daemon has run before: its directories exist and
    lie in plain trees, the user may change owners if that is needed, and the
    database, the thread and the roster can be opened. *)
Record installed `{!Blake3, !Ed25519} (sys : System) (cfg : Config) (w : World) (db cas : FsPath) : Prop := {
  in_db : is_absolute (c_db_path cfg) = true ∧ parent_segs (c_db_path cfg) = Some ("" :: db) ∧ resolves w db;
  in_cas : is_absolute (c_cas_dir cfg) = true ∧ segments (c_cas_dir cfg) = "" :: cas ∧ resolves w cas;
  in_share_tree : tree_ok w (share_of cfg);
  in_cas_tree : tree_ok w cas;
  in_cas_plain : ∀ p n, w !! p = Some n → under cas p → Forall normal_comp p ∧ is_lnk n = false;
  in_owner : sy_euid sys = 0 ∨ c_owner_policy cfg = OwnerPolicy.Skip;
  in_store : sy_store sys = Ok ();
  in_thread : sy_thread sys = Ok ();
  in_roster : ∃ m, Membership.load (sy_disk sys) (sy_read sys) (intent_of cfg) = Ok m;
}.

Lemma tree_ok_fewer w w' root :
  tree_ok w root → (∀ p, w !! p = Some Dir → w' !! p = Some Dir) → (∀ p n, w' !! p = Some n → w !! p = Some n) → tree_ok w' root.
Proof.
  intros [Hr Ht] Hdir Hsub. split.
  - destruct Hr as [Hr|[-> Hr]]; [left; by apply Hdir|right]. split; [done|]. destruct (w' !! []) as [n|] eqn:Hn; [|done]. apply Hsub in Hn. congruence.
  - intros p c n Hp Hpre. destruct (Ht p c n (Hsub _ _ Hp) Hpre) as [->|Hd]; [by left|right; by apply Hdir].
Qed.

#[export] Instance staged_file_decision root p n : base.Decision (staged_file root p n).
Proof.
  unfold staged_file. destruct n; try (right; naive_solver).
  destruct (decide (under root p ∧ is_tmp (List.last p "") = true)) as [[Hu Ht]|Hno]; [left|right; naive_solver]. by eauto.
Defined.

Section restart.
Context `{!Blake3, !Ed25519, !Toml, !HexDecode, !Scan, !DirOrder, !DirOrderLaws}.
Context (sys : System) (cfg : Config) (h : Host) (db cas : FsPath) (Hin : installed sys cfg (h_world h) db cas) (Hf : h_faults h = []).

Lemma sweep_both_clears log :
  ∃ w' n m, sweep_both sys cfg (h, log) = ((set_world w' h, log ++ [SweptShare (share_of cfg) n; SweptCas cas m]), Done ()) ∧
    ∀ p, w' !! p = match h_world h !! p with
      | Some x => if decide (staged_file (share_of cfg) p x ∨ cas_orphan cas p x) then None else Some x
      | None => None end.
Proof.
  destruct Hin as [_ (Ha & Hsegs & Hres) Hst Hct Hcp _ _ _ _].
  destruct (sweep_orphan_temps_exact h (share_of cfg) Hf Hst) as (w1 & n & Hrun & Hw1 & _).
  assert (Hdir : ∀ p, h_world h !! p = Some Dir → w1 !! p = Some Dir).
  { intros p Hp. rewrite Hw1, Hp, decide_False; [done|]. intros (_ & _ & d & a & ?). done. }
  assert (Hsub : ∀ p x, w1 !! p = Some x → h_world h !! p = Some x).
  { intros p x. rewrite Hw1. destruct (h_world h !! p) as [y|]; [|done]. by destruct (decide _). }
  destruct (cas_sweep_exact cas (set_world w1 h)) as (w2 & m & Hrun2 & Hw2 & _).
  - done.
  - by eapply tree_ok_fewer.
  - by eapply resolves_mono.
  - intros p x Hp. apply Hcp. by apply Hsub.
  - exists w2, n, m. split.
    + unfold sweep_both, mbind, boot_bind, lift. cbn [fst snd]. rewrite Hrun. cbn [emit fst snd]. unfold CasDisk.open, map_err.
      rewrite (create_all_text (sy_cwd sys) (c_cas_dir cfg) _ cas) by (done || by eapply resolves_mono). cbn [gets fst snd].
      rewrite Hrun2. unfold emit. cbn [fst snd]. by rewrite <-(assoc_L (++)).
    + intros p. rewrite Hw2. cbn [h_world set_world]. rewrite Hw1. destruct (h_world h !! p) as [x|]; [|done].
      destruct (decide (staged_file _ p x)) as [Ho|Ho]; [by rewrite decide_True by auto|].
      destruct (decide (cas_orphan cas p x)) as [Hc|Hc]; [by rewrite decide_True by auto|by rewrite decide_False by naive_solver].
Qed.
End restart.

(** C24: A start clears the files a kill left staged, and nothing else. On a
    machine where the daemon has run before and where everything under a
    staging name in the share is a regular file (or a directory), a start in
    which no call fails loads the configuration, runs every task, and has by
    then removed everything staged in the share and in the chunk store; all
    other files are as they were. (A symbolic link or a special node that a
    kill left staged is not covered: the sweep passes over it,
    [staged_link_survives_sweep].) *)
Theorem restart_clears_staging `{!Blake3, !Ed25519, !Toml, !HexDecode, !Scan, !DirOrder, !DirOrderLaws} sys path cfg h db cas :
  h_faults h = [] → Config.load (h_world h) (sy_cwd sys) path (sy_text sys path) = Ok cfg → installed sys cfg (h_world h) db cas →
  (∀ p x, h_world h !! p = Some x → staged (share_of cfg) p x → ∃ d a, x = Reg d a) →
  ∃ w' n m, run sys ["--config"; path] (h, []) = ((set_world w' h, boot_log cfg n cas m), Done ()) ∧
    ∀ p, w' !! p = match h_world h !! p with
      | Some x => if decide (staged (share_of cfg) p x ∨ cas_orphan cas p x) then None else Some x
      | None => None end.
Proof.
  intros Hf Hload Hin Hplain.
  set (log0 := (if bool_decide (c_owner_policy cfg = OwnerPolicy.Numeric) then [ProbedChown] else []) ++ [OpenedStore]).
  destruct (sweep_both_clears sys cfg h db cas Hin Hf log0) as (w' & n & m & Hsweep & Hw'). exists w', n, m. split.
  2: { intros p. rewrite Hw'. destruct (h_world h !! p) as [x|] eqn:Hx; [|done].
       assert (Hiff : staged_file (share_of cfg) p x ↔ staged (share_of cfg) p x).
       { split; [intros (Hu & Ht & d & a & ->); by split_and!|]. intros Hs. destruct (Hplain p x Hx Hs) as (d & a & ->).
         destruct Hs as (Hu & Ht & _). split_and!; [done..|]. by exists d, a. }
       by rewrite (decide_ext _ _ _ _ (or_iff_compat_r (cas_orphan cas p x) Hiff)). }
  destruct Hin as [(Ha & Hsegs & Hres) _ _ _ _ Hown Hstore Hthread [mem Hroster]].
  assert (Howner : check_owner sys cfg (h, []) = ((h, if bool_decide (c_owner_policy cfg = OwnerPolicy.Numeric) then [ProbedChown] else []), Done ())).
  { unfold check_owner. case_bool_decide as Hnum; [|done]. destruct Hown as [He|?]; [|congruence].
    unfold mbind, boot_bind, lift, can_chown. by rewrite bool_decide_true by done. }
  unfold run, mbind, boot_bind, of_res. cbn [one_flag]. rewrite bool_decide_true by done. cbn. unfold load_config, of_res. cbn. rewrite Hload. cbn.
  rewrite Howner. unfold create_db_dir, mbind, boot_bind, lift. rewrite Hsegs. cbn [fst snd].
  rewrite (create_all_text (sy_cwd sys) (c_db_path cfg) _ db) by done. cbn [mret boot_ret]. rewrite Hstore. cbn [emit fst snd mret boot_ret].
  fold log0. rewrite Hsweep. unfold start_tasks, mbind, boot_bind, of_res. rewrite Hthread, Hroster. unfold emit, log0, boot_log. cbn [fst snd mret boot_ret].
  destruct (bool_decide (is_Some (c_health_listen cfg))); cbn [fst snd mret boot_ret]; rewrite <-!(assoc_L (++)); done.
Qed.

(** ** Keys *)

Lemma strip_trailing_name l c : normal_comp c → strip_trailing (l ++ [c]) = l ++ [c].
Proof.
  intros (Hc1 & Hc2 & _). unfold strip_trailing. rewrite reverse_app. change (reverse [c] ++ reverse l) with (c :: reverse l).
  assert (Hgo : (fix go l := match l with "" :: l | "." :: l => go l | l => l end) (c :: reverse l) = c :: reverse l).
  { destruct c as [|[[] [] [] [] [] [] [] []] [|]]; done. }
  transitivity (reverse (c :: reverse l)); [exact (f_equal reverse Hgo)|]. by rewrite reverse_cons, reverse_involutive.
Qed.

Lemma parent_segs_plain path dir name : segments path = "" :: dir ++ [name] → normal_comp name → parent_segs path = Some ("" :: dir).
Proof.
  intros Hs Hn. unfold parent_segs. rewrite Hs. change ("" :: dir ++ [name]) with (("" :: dir) ++ [name]).
  rewrite strip_trailing_name by done. rewrite <-app_comm_cons. change ("" :: dir ++ [name]) with (("" :: dir) ++ [name]). by rewrite removelast_last.
Qed.

Lemma namei_skip links w cur segs : namei links w cur ("" :: segs) = namei links w cur segs.
Proof. by destruct links. Qed.

(** A file created at a plain path. *)
Lemma open_trunc_fresh links mode h dir name :
  resolves (h_world h) dir → normal_comp name → h_world h !! (dir ++ [name]) = None →
  open_trunc links mode [] ("" :: dir ++ [name]) h =
    (set_world (<[dir ++ [name] := Reg [] (set_synced false (set_mode (mode (at_mode (h_new h))) (h_new h)))]> (h_world h)) h, Done (dir ++ [name])).
Proof.
  intros Hr (Hn1 & Hn2 & Hn3) Hno. change ("" :: dir ++ [name]) with (("" :: dir) ++ [name]).
  destruct links; cbn [open_trunc]; unfold mbind, op_bind, gets; rewrite removelast_last, last_last, namei_skip, resolves_namei by done; cbn;
    (rewrite bool_decide_false by (intros Hin; set_solver)); cbn; rewrite Hno; done.
Qed.

(** The administrator's key is never overwritten, and is the owner's
    alone. At a plain path [gen-admin-key] refuses when something is there and
    leaves it as it is; otherwise it creates the file with the secret and no
    permission for anyone but its owner, touches nothing else, and prints the
    public half of that secret. *)
Theorem gen_admin_key_private `{!Hex, !Ed25519, !Pkcs8} cwd out dir name h log doc kp :
  let q := dir ++ [name] in
  h_faults h = [] → is_absolute out = true → segments out = "" :: dir ++ [name] → normal_comp name → resolves (h_world h) dir →
  (∀ t a, h_world h !! q ≠ Some (Lnk t a)) → from_pkcs8 doc = Some kp →
  match h_world h !! q with
  | Some _ => gen_admin_key cwd ["--out"; out] (Some doc) (h, log) =
      ((h, log), Fail (BootError.Text (out +:+ " already exists; refusing to overwrite an admin key")))
  | None => ∃ lines a, gen_admin_key cwd ["--out"; out] (Some doc) (h, log) = ((set_world (<[q := Reg doc a]> (h_world h)) h, log), Done lines) ∧
      Z.land (at_mode a) 63 = 0 ∧ ("admin pubkey: " +:+ AdminKey.to_hex (public_key kp)) ∈ lines
  end.
Proof.
  cbv zeta. intros Hf Ha Hsegs Hn Hr Hl Hkp.
  assert (Hthere : path_exists cwd out h = bool_decide (is_Some (h_world h !! (dir ++ [name])))).
  { unfold path_exists, start_of. rewrite Ha, Hsegs, namei_skip. destruct Hr as [Hnd Hb]. destruct (h_world h !! (dir ++ [name])) as [n|] eqn:Hq.
    - rewrite (namei_file _ _ _ _ n) by (done || by intros t a ->; destruct (Hl t a)). rewrite Hq. rewrite !bool_decide_true by eauto. done.
    - rewrite namei_dirs by done. rewrite namei_cons by done. cbn [app]. rewrite Hq. done. }
  destruct (h_world h !! (dir ++ [name])) as [n|] eqn:Hq; [|eexists _, _; split; [|split]].
  - unfold gen_admin_key, mbind, boot_bind, of_res. cbn [one_flag]. rewrite bool_decide_true by done. cbn [Cli.ok_or mret boot_ret].
    unfold lift at 1. cbn [gets fst snd]. rewrite Hthere. by rewrite bool_decide_true by done.
  - unfold gen_admin_key, mbind, boot_bind, of_res. cbn [one_flag]. rewrite bool_decide_true by done. cbn [Cli.ok_or mret boot_ret].
    unfold lift at 1. cbn [gets fst snd]. rewrite Hthere, bool_decide_false by (intros [? ?]; done).
    rewrite (parent_segs_plain out dir name) by done. cbn [mbind boot_bind]. unfold lift at 1. cbn [fst snd].
    rewrite (create_all_text cwd out _ dir) by done. unfold AdminKey.generate_admin_key. rewrite Hkp. cbn [mret boot_ret fst snd].
    unfold lift, write_private, write_at, mbind, op_bind, syscall. cbn [fst snd]. rewrite Hf. unfold start_of. rewrite Ha, Hsegs.
    rewrite open_trunc_fresh by done. unfold sys_write, update_node, mbind, op_bind, gets, get_node, torn_bytes, syscall.
    cbn [h_faults set_world h_world]. rewrite Hf. unfold gets. cbn [h_world set_world]. rewrite lookup_insert_eq. unfold put_node, modify. cbn [h_world set_world].
    rewrite insert_insert_eq. reflexivity.
  - cbn. rewrite <-Z.land_assoc, (Z.land_comm _ 63), Z.land_assoc. done.
  - set_solver.
Qed.
