(* ===== verification/BootWitness.v ===== *)
(** * Starts and keys on a small machine

    A start over a share and a chunk store that a kill left with staged
    files, the generation of a key, and a run in which a private key keeps
    the permissions of the file it replaces. *)

From stdpp Require Import pretty.
From S2P Require Import Prelude Vv Metadata Conflict State Admin Membership MembershipProofs Suppress Chunk Proto Fs Apply ApplyProofs Ingest Scanner ScannerProofs.
From S2P Require Import LocalWitness CasDisk CasDiskProofs CasDiskWitness Float Qos Config ConfigWitness Control Cli Boot BootProofs.
Import RosterEx StateEx.

#[local] Open Scope Z_scope.

#[local] Existing Instance named_toml.
#[local] Existing Instance plain_decode.
#[local] Existing Instance plain_hex.
#[local] Existing Instance in_order.
#[local] Existing Instance in_order_laws.
#[local] Instance doc_pkcs8 : Pkcs8 := array_of_list 32.

Definition staged_name : string := ".f.replicore-tmp.7.0".
Definition machine : World :=
  <[["srv"; staged_name] := Reg [x01] ex_attr]> (<[["var"; "a.cas"; "ab"; ".chunk.replicore-tmp.7.0"] := Reg [x02] ex_attr]>
    (<[["var"; "a.cas"; "ab"] := Dir]> (<[["var"; "a.cas"] := Dir]> host_tree))).
Definition system1 : System := mkSystem 0 [] (λ _, Ok "a.toml") (Ok ()) (Ok ()) ∅ ReadOk.

Lemma machine_loads : Config.load machine [] "r.toml" (Ok "a.toml") = Ok config1.
Proof.
  assert (H : match Config.load machine [] "r.toml" (Ok "a.toml") with Ok c => bool_decide (c = config1) | Err _ => false end = true) by (vm_compute; reflexivity).
  destruct (Config.load machine [] "r.toml" (Ok "a.toml")); [|done]. by apply bool_decide_eq_true in H as ->.
Qed.

Lemma machine_resolves p :
  p ∈ [["var"]; ["var"; "a.cas"]] → resolves machine p.
Proof.
  intros Hp. assert (Hall : Forall (λ p, Forall (λ c, c ≠ "" ∧ c ≠ "." ∧ c ≠ "..") p ∧ Forall (λ k, machine !! take k p = Some Dir) (seq 1 (length p)))
    [["var"]; ["var"; "a.cas"]]) by vm_decide.
  eapply Forall_forall in Hall as [Hn Hd]; [|exact Hp]. split; [exact Hn|]. intros k Hk. eapply Forall_forall in Hd; [exact Hd|].
  apply elem_of_seq. lia.
Qed.

Lemma machine_installed : installed system1 config1 machine ["var"] ["var"; "a.cas"].
Proof.
  split.
  - split; [reflexivity|]. split; [reflexivity|]. apply machine_resolves. left.
  - split; [reflexivity|]. split; [reflexivity|]. apply machine_resolves. right. left.
  - apply tree_checked; [reflexivity|vm_decide].
  - apply tree_checked; [reflexivity|vm_decide].
  - intros p n Hp Hu. assert (Hall : map_Forall (λ p n, plain_entry (p, n) = true ∨ ¬ ["var"; "a.cas"] `prefix_of` p) machine) by vm_decide.
    destruct (Hall p n Hp) as [Hpl|Hno]; [|by destruct Hno; apply Hu]. unfold plain_entry in Hpl.
    apply andb_true_iff in Hpl as [Hn%bool_decide_eq_true Hl%negb_true_iff]. split; [exact Hn|exact Hl].
  - left. reflexivity.
  - reflexivity.
  - reflexivity.
  - eexists. reflexivity.
Qed.

Definition boot_host : Host := cas_host machine [].

Lemma restart_clears_staging_witness :
  ∃ w' n m, run system1 ["--config"; "r.toml"] (boot_host, []) = ((set_world w' boot_host, boot_log config1 n ["var"; "a.cas"] m), Done ()) ∧
    w' !! ["srv"; staged_name] = None ∧ w' !! ["srv"; "f"] = Some (Reg [x01] ex_attr).
Proof.
  destruct (restart_clears_staging system1 "r.toml" config1 boot_host ["var"] ["var"; "a.cas"]) as (w' & n & m & Hrun & Hw).
  - reflexivity.
  - exact machine_loads.
  - exact machine_installed.
  - assert (Hall : map_Forall (λ p x, staged (share_of config1) p x → is_reg x = true) machine) by vm_decide.
    intros p x Hx Hs. specialize (Hall p x Hx Hs). destruct x as [|d a| | |]; try discriminate Hall. by exists d, a.
  - exists w', n, m. split; [exact Hrun|]. rewrite !Hw. split; vm_compute; reflexivity.
Defined.

(** A start whose database does not open has swept and started nothing. *)
Definition system2 : System := mkSystem 0 [] (λ _, Ok "a.toml") (Err ()) (Ok ()) ∅ ReadOk.

Lemma boot_order_witness :
  let r := run system2 ["--config"; "r.toml"] (boot_host, []) in
  r.1.2 = [ProbedChown] ∧ ∃ cfg n root m, r.1.2 `prefix_of` boot_log cfg n root m.
Proof.
  cbv zeta. assert (Hlog : (run system2 ["--config"; "r.toml"] (boot_host, [])).1.2 = [ProbedChown]) by (vm_compute; reflexivity).
  split; [exact Hlog|]. destruct (run system2 ["--config"; "r.toml"] (boot_host, [])) as [[h' log] r] eqn:Hrun. cbn [fst snd] in *.
  destruct (boot_order system2 ["--config"; "r.toml"] boot_host h' log r Hrun) as [[Hnil _]|(path & cfg & n & root & m & _ & Hp & _)].
  - rewrite Hlog in Hnil. discriminate Hnil.
  - exists cfg, n, root, m. exact Hp.
Defined.

Lemma gen_admin_key_private_witness :
  ∃ lines a, gen_admin_key [] ["--out"; "/var/admin.key"] (Some (ba_list key1)) (boot_host, []) =
    ((set_world (<[["var"; "admin.key"] := Reg (ba_list key1) a]> machine) boot_host, []), Done lines) ∧ Z.land (at_mode a) 63 = 0.
Proof.
  pose proof (gen_admin_key_private [] "/var/admin.key" ["var"] "admin.key" boot_host [] (ba_list key1) (key1 : @AdminSecret toy_ed25519)) as Hgen.
  cbv zeta in Hgen. change (h_world boot_host) with machine in Hgen. assert (Hno : machine !! (["var"] ++ ["admin.key"]) = None) by (vm_compute; reflexivity).
  rewrite Hno in Hgen. destruct Hgen as (lines & a & Hrun & Hm & _).
  - reflexivity.
  - reflexivity.
  - reflexivity.
  - split; [discriminate|split; discriminate].
  - apply machine_resolves. left.
  - intros t a Hx. discriminate Hx.
  - exact (array_of_list_ba key1).
  - exists lines, a. split; [exact Hrun|exact Hm].
Defined.

(** ** Limits *)

(** A key that replaces a file anyone may read stays readable for everyone,
    although owner-only is what is printed: the mode of [open] counts only
    for a file that is created. *)
Definition old_key : World := <[["etc"; "n.key.pem"] := Reg [x00] (mkAttr 420 0 0 0 0 ∅ true)]> machine.
Definition ident1 : Identity := mkIdentity [x63] [x6b] (fill 32 x09).
Definition regenerated : (Host * list Event) * outcome BootError (list string) :=
  gen_cert [] ["--out-dir"; "/etc"; "--name"; "n"] (Some ident1) (cas_host old_key [], []).

Theorem gen_cert_keeps_old_mode :
  h_world regenerated.1.1 !! ["etc"; "n.key.pem"] = Some (Reg [x6b] (mkAttr 420 0 0 0 0 ∅ false)) ∧
  ∃ lines, regenerated.2 = Done lines ∧ "key:         /etc/n.key.pem (mode 0600)" ∈ lines.
Proof. split; [vm_compute; reflexivity|]. eexists. split; [vm_compute; reflexivity|]. vm_decide. Qed.
