(* ===== verification/Health.v ===== *)
(** * The health endpoint (src/src/health.rs)

    The bounded read of one request, its routing and the framing of the
    response; then the two documents: the status, built by filling a template,
    and the metrics, each registered by name before they are printed. The
    socket delivers the request in segments of any size. The texts of
    identifiers come from the hexadecimal encoder, the size of the content
    store from its walk ([None] when that task panicked); the printing of the
    metrics is the library's. *)

From Stdlib Require Import Ascii.
From stdpp Require Import pretty.
From S2P Require Import Prelude Vv Decide Metadata Conflict State Oplog Admin Membership Suppress Join Merkle Chunk Proto Fs Apply Peer Fetch.
From S2P Require Import Ingest Float Qos Config Policy Stats Control.


Definition MAX_REQUEST : nat := 8 * 1024.

Module Health.

(** [sock.read(&mut buf[n..])] with [room] bytes left: what it got, and the
    segments still to come; nothing at the end of the stream. *)
Definition read (room : nat) (segs : list (list byte)) : list byte * list (list byte) :=
  match segs with
  | [] => ([], [])
  | seg :: segs => (take room seg, match drop room seg with [] => segs | rest => rest :: segs end)
  end.

Definition CRLF2 : list byte := [x0d; x0a; x0d; x0a].

(** [windows(4).any(|w| w == b"\r\n\r\n")] *)
Fixpoint has_end (l : list byte) : bool :=
  match l with
  | [] => false
  | _ :: t => bool_decide (take 4 l = CRLF2) || has_end t
  end.

Inductive Request : Type :=
| TooLarge
| WentAway
| Head (buf : list byte).

Fixpoint read_head (fuel : nat) (buf : list byte) (segs : list (list byte)) : option Request :=
  match fuel with
  | O => None
  | S fuel =>
      if bool_decide (length buf = MAX_REQUEST) then Some TooLarge
      else
        let '(got, segs) := read (MAX_REQUEST - length buf) segs in
        if bool_decide (got = []) then Some WentAway
        else if has_end (buf ++ got) then Some (Head (buf ++ got))
        else read_head fuel (buf ++ got) segs
  end.

(** [head.lines().next()], on bytes: a line feed is never part of a longer
    character. *)
Fixpoint upto_lf (l : list byte) : list byte :=
  match l with
  | [] => []
  | b :: l => if bool_decide (b = x0a) then [] else b :: upto_lf l
  end.
Definition first_line (l : list byte) : list byte :=
  let line := upto_lf l in
  if bool_decide (line = l) then line
  else match last line with Some x0d => removelast line | _ => line end.

(** The length of the white-space character at the head of the text, in
    UTF-8; 0 when there is none. *)
Definition white (l : list byte) : nat :=
  match l with
  | (x09 | x0a | x0b | x0c | x0d | x20) :: _ => 1
  | xc2 :: (x85 | xa0) :: _ => 2
  | xe1 :: x9a :: x80 :: _ => 3
  | xe2 :: x80 :: (x80 | x81 | x82 | x83 | x84 | x85 | x86 | x87 | x88 | x89 | x8a | xa8 | xa9 | xaf) :: _ => 3
  | xe2 :: x81 :: x9f :: _ => 3
  | xe3 :: x80 :: x80 :: _ => 3
  | _ => 0
  end%nat.

(** [split_whitespace]: the words after [word], which is being read. *)
Fixpoint words (fuel : nat) (word l : list byte) : list (list byte) :=
  let flush rest := match word with [] => rest | _ => word :: rest end in
  match fuel, l with
  | S fuel, b :: t =>
      match white l with
      | O => words fuel (word ++ [b]) t
      | n => flush (words fuel [] (drop n l))
      end
  | _, _ => flush []
  end.
Definition split_whitespace (l : list byte) : list (list byte) := words (length l) [] l.

Record Response : Type := mkResponse { rs_status : string; rs_content_type : string; rs_body : string }.

Definition JSON : string := "application/json".
Definition too_large : Response := mkResponse "431 Request Header Fields Too Large" JSON "{}".
Definition quote : string := String (Ascii.ascii_of_nat 34) "".
Definition not_found : Response := mkResponse "404 Not Found" JSON ("{" +:+ quote +:+ "error" +:+ quote +:+ ":" +:+ quote +:+ "not found" +:+ quote +:+ "}").

Definition route (health metrics : string) (buf : list byte) : Response :=
  let request_line := first_line buf in
  let path := default [] (split_whitespace request_line !! 1%nat) in
  if bool_decide (take 4 request_line = str_bytes "GET ") then
    if bool_decide (path = str_bytes "/healthz") then mkResponse "200 OK" JSON health
    else if bool_decide (path = str_bytes "/metrics") then mkResponse "200 OK" "text/plain; version=0.0.4; charset=utf-8" metrics
    else not_found
  else not_found.

(** [respond]: what is written to the socket. *)
Definition crlf : string := String (Ascii.ascii_of_nat 13) (String (Ascii.ascii_of_nat 10) "").
Definition respond (r : Response) : list byte :=
  str_bytes ("HTTP/1.1 " +:+ rs_status r +:+ crlf +:+ "Content-Type: " +:+ rs_content_type r +:+ crlf +:+ "Content-Length: "
    +:+ pretty (String.length (rs_body r)) +:+ crlf +:+ "Connection: close" +:+ crlf +:+ crlf) ++ str_bytes (rs_body r).

(** The bytes one connection gets. *)
Definition handle (health metrics : string) (segs : list (list byte)) : option (list byte) :=
  match read_head (S MAX_REQUEST) [] segs with
  | None => None
  | Some TooLarge => Some (respond too_large)
  | Some WentAway => Some []
  | Some (Head buf) => Some (respond (route health metrics buf))
  end.
End Health.

(** ** Segmentation does not matter *)

Section requests.
Import Health.

Lemma has_end_app b k : has_end b = true → has_end (b ++ k) = true.
Proof.
  induction b as [|x b IH]; [done|]. cbn [has_end app]. intros [Ht|Ht]%orb_true_iff; [|by rewrite (IH Ht), orb_true_r].
  apply bool_decide_eq_true in Ht. apply orb_true_iff. left. apply bool_decide_eq_true.
  change (x :: b ++ k) with ((x :: b) ++ k). rewrite take_app_le; [done|].
  apply (f_equal length) in Ht. rewrite length_take in Ht. change (length CRLF2) with 4%nat in Ht. lia.
Qed.

Lemma has_end_lf b : has_end b = true → x0a ∈ b.
Proof.
  induction b as [|x b IH]; [done|]. cbn [has_end]. intros [Ht|Ht]%orb_true_iff; [|right; by apply IH].
  apply bool_decide_eq_true in Ht. assert (Hin : x0a ∈ take 4 (x :: b)) by (rewrite Ht; unfold CRLF2; set_solver).
  apply elem_of_take in Hin as (i & Hi & _). by eapply list_elem_of_lookup_2.
Qed.

Lemma upto_lf_app b k : x0a ∈ b → upto_lf (b ++ k) = upto_lf b ∧ upto_lf b ≠ b.
Proof.
  induction b as [|x b IH]; [by intros ?%elem_of_nil|]. intros Hin. cbn [upto_lf app]. case_bool_decide as Hx; [done|].
  destruct IH as [-> Hne]; [set_solver|]. split; [done|]. congruence.
Qed.

Lemma first_line_app b k : has_end b = true → first_line (b ++ k) = first_line b.
Proof.
  intros Hlf%has_end_lf. destruct (upto_lf_app b k Hlf) as [Heq Hne].
  assert (Hlf' : x0a ∈ b ++ k) by (apply elem_of_app; by left).
  destruct (upto_lf_app (b ++ k) [] Hlf') as [_ Hne']. unfold first_line.
  by rewrite Heq in *; rewrite !bool_decide_false.
Qed.

(** What reading ends with, from a buffer in progress. *)
Lemma read_head_spec fuel buf segs :
  Forall (λ s, s ≠ []) segs → has_end buf = false → (length buf ≤ MAX_REQUEST)%nat → (MAX_REQUEST - length buf < fuel)%nat →
  let whole := buf ++ concat segs in
  ∃ r, read_head fuel buf segs = Some r ∧
    match r with
    | TooLarge => has_end (take MAX_REQUEST whole) = false ∧ (MAX_REQUEST ≤ length whole)%nat
    | WentAway => has_end whole = false ∧ (length whole < MAX_REQUEST)%nat
    | Head b => has_end b = true ∧ ∃ k, take MAX_REQUEST whole = b ++ k
    end.
Proof.
  revert buf segs. induction fuel as [|fuel IH]; intros buf segs Hsegs Hend Hlen Hfuel whole; [lia|].
  cbn [read_head]. case_bool_decide as Hfull.
  { exists TooLarge. split; [done|]. unfold whole. rewrite <- Hfull, take_app_length, length_app. split; [done|lia]. }
  destruct segs as [|seg segs].
  { exists WentAway. split; [done|]. unfold whole. simpl. rewrite app_nil_r. split; [done|lia]. }
  apply Forall_cons in Hsegs as [Hseg Hsegs]. cbn [read]. set (room := (MAX_REQUEST - length buf)%nat).
  set (got := take room seg). set (segs' := match drop room seg with [] => segs | rest => rest :: segs end).
  assert (Hwhole : whole = (buf ++ got) ++ concat segs').
  { unfold whole, got, segs'. simpl. rewrite <- (take_drop room seg) at 1.
    destruct (drop room seg); simpl; by rewrite ?app_nil_r, <- ?(assoc_L (++)). }
  assert (Hsegs' : Forall (λ s, s ≠ []) segs').
  { unfold segs'. destruct (drop room seg) eqn:Hd; [done|]. by constructor. }
  assert (Hgot : (1 ≤ length got ≤ room)%nat).
  { unfold got. rewrite length_take. destruct seg; [done|]. simpl length. unfold room. lia. }
  rewrite bool_decide_false by (intros Hn; rewrite Hn in Hgot; simpl in Hgot; lia).
  assert (Hfit : (length (buf ++ got) ≤ MAX_REQUEST)%nat) by (rewrite length_app; unfold room in *; lia).
  destruct (has_end (buf ++ got)) eqn:Hend'.
  - exists (Head (buf ++ got)). split; [done|]. split; [done|]. exists (take (MAX_REQUEST - length (buf ++ got)) (concat segs')).
    rewrite Hwhole. by rewrite take_app_ge.
  - destruct (IH (buf ++ got) segs' Hsegs' Hend' Hfit) as (r & Hr & Hspec).
    { rewrite length_app. unfold room in *. lia. }
    exists r. split; [done|]. rewrite Hwhole. exact Hspec.
Qed.

(** A health request is answered by its bytes alone. However the network
    cuts it into segments, the reading ends, with a response that depends
    only on the first 8 KiB of the stream: the routed document when they hold
    a complete head - the same as if the request had arrived at once -, a
    431 when they do not and the buffer is full, and nothing when the client
    went away before. *)
Theorem health_segmentation_irrelevant (health metrics : string) (segs : list (list byte)) :
  Forall (λ s, s ≠ []) segs →
  let request := take MAX_REQUEST (concat segs) in
  handle health metrics segs =
    Some (if has_end request then respond (route health metrics request)
          else if bool_decide (MAX_REQUEST ≤ length (concat segs))%nat then respond too_large else []).
Proof.
  intros Hsegs request. destruct (read_head_spec (S MAX_REQUEST) [] segs Hsegs) as (r & Hr & Hspec); [done|cbn [length]; lia|cbn [length]; lia|].
  cbn [app] in Hspec. unfold handle. rewrite Hr. destruct r as [| |b].
  - destruct Hspec as [Hend Hlen]. fold request in Hend. by rewrite Hend, bool_decide_true.
  - destruct Hspec as [Hend Hlen]. unfold request. rewrite take_ge by lia. by rewrite Hend, bool_decide_false by lia.
  - destruct Hspec as [Hend [k Heq]]. fold request in Heq. rewrite Heq, (has_end_app _ _ Hend).
    unfold route. by rewrite (first_line_app _ _ Hend).
Qed.
End requests.

Definition health_request : list (list byte) := [str_bytes "GET /hea"; str_bytes ("lthz HTTP/1.1" +:+ Health.crlf); str_bytes (Health.crlf +:+ "x")].

Lemma health_segmentation_irrelevant_witness :
  Health.handle "{}" "" health_request = Some (Health.respond (Health.mkResponse "200 OK" Health.JSON "{}")).
Proof.
  rewrite (health_segmentation_irrelevant "{}" "" health_request).
  - vm_compute. reflexivity.
  - repeat constructor; discriminate.
Defined.

(** ** The documents *)

#[local] Open Scope Z_scope.

Record HealthCtx : Type := mkHealthCtx {
  hc_daemon : Daemon;
  hc_configured_peers : list NodeId;
  hc_cas : option (Z * Z);
  hc_max_capacity : Z;
  hc_capacity : Z;
  hc_owner_skips : Z;
}.

(** A template's text: its double quotes are written as single ones. *)
Fixpoint dq (s : string) : string :=
  match s with
  | EmptyString => EmptyString
  | String c s => String (if bool_decide (c = "'"%char) then ascii_of_nat 34 else c) (dq s)
  end.

Definition bool_text (b : bool) : string := if b then "true" else "false".

Module HealthDoc.
Section with_externals.
Context `{!Hex, !Blake3, !Bincode, !Scan}.

Definition cas_stats (ctx : HealthCtx) : Z * Z := default (0, 0) (hc_cas ctx).
(** [saturating_sub] on [usize]. *)
Definition events_queued (ctx : HealthCtx) : Z := Z.max 0 (hc_max_capacity ctx - hc_capacity ctx).
Definition read_int (cmd : StoreCmd) (other : Z) (ctx : HealthCtx) : Z :=
  let d := hc_daemon ctx in
  match (store_step (c_node_id (dm_boot d)) (dm_store d) cmd).2 with RInt (Ok n) => n | _ => other end.
Definition recv_cursor (ctx : HealthCtx) (peer : NodeId) : Z := read_int (RecvCursor peer) 0 ctx.
Definition last_acked (ctx : HealthCtx) (peer : NodeId) : Z := read_int (LastAcked peer) 0 ctx.
Definition op_count (ctx : HealthCtx) : Z := read_int OpCount (-1) ctx.

Definition connected (ctx : HealthCtx) (peer : NodeId) : bool :=
  match ConnRegistry.get (dm_conns (hc_daemon ctx)) peer with Some _ => true | None => false end.
Definition live_conns (ctx : HealthCtx) : Z := Z.of_nat (ConnRegistry.len (dm_conns (hc_daemon ctx))).

Definition peer_json (ctx : HealthCtx) (peer : NodeId) : string :=
  let status := PeerRegistry.get (dm_peers (hc_daemon ctx)) peer in
  dq "{'node_id':'" +:+ hex_encode (ba_list peer) +:+ dq "','state':'" +:+ PeerState.as_str (ps_state status) +:+
  dq "','connected':" +:+ bool_text (connected ctx peer) +:+ dq ",'last_reconcile_unix':" +:+ pretty (ps_last_reconcile_unix status) +:+
  dq ",'last_reconcile_ok':" +:+ bool_text (ps_last_reconcile_ok status) +:+ dq ",'recv_cursor':" +:+ pretty (recv_cursor ctx peer) +:+
  dq ",'last_acked_seq':" +:+ pretty (last_acked ctx peer) +:+ "}".

Definition render (ctx : HealthCtx) : string :=
  let d := hc_daemon ctx in
  let s := dm_stats d in
  dq "{'node_id':'" +:+ hex_encode (ba_list (c_node_id (dm_boot d))) +:+
  dq "','peers':[" +:+ String.concat "," (peer_json ctx <$> hc_configured_peers ctx) +:+
  dq "],'counters':{'chunks_fetched':" +:+ pretty (sc_chunks_fetched s) +:+ dq ",'chunks_served':" +:+ pretty (sc_chunks_served s) +:+
  dq ",'bytes_in':" +:+ pretty (sc_bytes_in s) +:+ dq ",'bytes_out':" +:+ pretty (sc_bytes_out s) +:+
  dq ",'manifests_fetched':" +:+ pretty (sc_manifests_fetched s) +:+ dq ",'reconcile_runs':" +:+ pretty (sc_reconcile_runs s) +:+
  dq ",'inflight_transfers':" +:+ pretty (sc_inflight_transfers s) +:+
  dq "},'cas':{'chunks':" +:+ pretty (cas_stats ctx).1 +:+ dq ",'bytes':" +:+ pretty (cas_stats ctx).2 +:+
  dq "},'queues':{'events_queued':" +:+ pretty (events_queued ctx) +:+ dq ",'live_conns':" +:+ pretty (live_conns ctx) +:+
  dq "},'oplog_rows':" +:+ pretty (op_count ctx) +:+ "}".

(** ** Metrics *)

(** A metric: a counter, a gauge, or a gauge with a value per label. *)
Inductive MetricValue : Type :=
| MCounter (v : Z)
| MGauge (v : Z)
| MPerPeer (v : list (string * Z)).
Record Metric : Type := mkMetric { mx_name : string; mx_help : string; mx_value : MetricValue }.

(** A metric is made when its name is one ([A-Za-z_:] first, digits after
    that), and its help is not empty. *)
Definition name_start (c : ascii) : bool :=
  let n := nat_of_ascii c in
  ((65 <=? n) && (n <=? 90) || (97 <=? n) && (n <=? 122) || (n =? 95) || (n =? 58))%nat.
Definition name_char (c : ascii) : bool := (name_start c || (48 <=? nat_of_ascii c) && (nat_of_ascii c <=? 57))%nat.
Fixpoint all_chars (f : ascii → bool) (s : string) : bool :=
  match s with EmptyString => true | String c s => f c && all_chars f s end.
Definition valid_metric (m : Metric) : bool :=
  match mx_name m with EmptyString => false | String c s => name_start c && all_chars name_char s end && negb (bool_decide (mx_help m = "")).

(** [register]: refused when the name is taken; the refusal is ignored. *)
Definition register (r : list Metric) (m : Metric) : list Metric :=
  if valid_metric m && negb (bool_decide (mx_name m ∈ mx_name <$> r)) then r ++ [m] else r.

Definition counter (name help : string) (v : Z) : Metric := mkMetric ("replicore_" +:+ name) help (MCounter v).
Definition gauge (name help : string) (v : Z) : Metric := mkMetric ("replicore_" +:+ name) help (MGauge v).

Definition metrics (ctx : HealthCtx) : list Metric :=
  let s := dm_stats (hc_daemon ctx) in
  let per_peer (f : NodeId → Z) := MPerPeer ((λ p, (hex_encode (ba_list p), f p)) <$> hc_configured_peers ctx) in
  [ counter "chunks_fetched_total" "Chunks fetched from peers (CAS misses)" (sc_chunks_fetched s);
    counter "chunks_cache_hits_total" "Chunks a fetch skipped because the CAS held them (FR-1101 cache hit rate)" (sc_chunks_cache_hits s);
    counter "chunks_served_total" "Chunks served to peers" (sc_chunks_served s);
    counter "bytes_in_total" "Chunk payload bytes received" (sc_bytes_in s);
    counter "bytes_out_total" "Chunk payload bytes served" (sc_bytes_out s);
    counter "manifests_fetched_total" "Manifests fetched from peers" (sc_manifests_fetched s);
    counter "reconcile_runs_total" "Anti-entropy sessions completed" (sc_reconcile_runs s);
    counter "conflicts_total" "Concurrent-version detections (FR-303/305)" (sc_conflicts s);
    counter "freespace_guard_trips_total" "Transfer pauses to protect the free-space reserve (FR-1107)" (sc_freespace_trips s);
    counter "apply_errors_total" "Op materializations quarantined permanently" (sc_apply_errors s);
    counter "meta_owner_skips_total" "Ownership applies skipped (policy or missing CAP_CHOWN, FR-106)" (hc_owner_skips ctx);
    gauge "inflight_transfers" "Files in the fetch+assemble pipeline" (sc_inflight_transfers s);
    gauge "events_queued" "Watcher/scanner events waiting for ingest" (as_i64 (events_queued ctx));
    gauge "live_connections" "Connected peers" (as_i64 (live_conns ctx));
    gauge "oplog_rows" "Total op-log rows" (op_count ctx);
    mkMetric "replicore_peer_recv_cursor" "Highest origin_seq of this peer's ops durably handled here" (per_peer (recv_cursor ctx));
    mkMetric "replicore_peer_acked_seq" "Highest of our origin_seq this peer has durably acked" (per_peer (last_acked ctx)) ].

(** What the encoder is given. *)
Definition render_metrics (ctx : HealthCtx) : list Metric := foldl register [] (metrics ctx).
End with_externals.
End HealthDoc.
