(* ===== verification/HealthDocProofs.v ===== *)
(** * The health documents are what they say (src/src/health.rs)

    A reader of JSON gets back the status of the node; every metric is
    registered. *)

From Stdlib Require Import Ascii.
From stdpp Require Import pretty.
From S2P Require Import Prelude Vv Decide Metadata Conflict ConflictProofs State Oplog Admin Membership MembershipProofs Suppress Join Merkle Chunk.
From S2P Require Import Proto Fs Apply ApplyProofs Peer Fetch Ingest CasDiskProofs Float Qos Config ConfigWitness Policy PolicyWitness Stats Control.
From S2P Require Import ControlProofs ControlWitness CasDiskWitness Cli CliProofs Health.

#[local] Open Scope Z_scope.

(** ** JSON *)

Inductive Json : Type :=
| JStr (s : string)
| JInt (z : Z)
| JBool (b : bool)
| JArr (l : list Json)
| JObj (l : list (string * Json)).

Definition quote : ascii := ascii_of_nat 34.
Definition digit (c : ascii) : bool := (48 <=? nat_of_ascii c)%nat && (nat_of_ascii c <=? 57)%nat.
(** A character that stands for itself in a string. *)
Definition plain_char (c : ascii) : bool :=
  (32 <=? nat_of_ascii c)%nat && negb (bool_decide (nat_of_ascii c = 34%nat)) && negb (bool_decide (nat_of_ascii c = 92%nat)).
Fixpoint plain (s : string) : bool := match s with EmptyString => true | String c s => plain_char c && plain s end.

(** The text of a string up to its closing quote, and the rest. *)
Fixpoint read_string (s : string) : option (string * string) :=
  match s with
  | EmptyString => None
  | String c s =>
      if bool_decide (c = quote) then Some (EmptyString, s)
      else if plain_char c then '(a, rest) ← read_string s; Some (String c a, rest) else None
  end.
Fixpoint read_digits (s : string) (acc : Z) : Z * string :=
  match s with
  | String c t => if digit c then read_digits t (acc * 10 + (Z.of_nat (nat_of_ascii c) - 48)) else (acc, s)
  | EmptyString => (acc, EmptyString)
  end.
Definition starts_digit (s : string) : bool := match s with String c _ => digit c | EmptyString => false end.
Definition read_int (s : string) : option (Z * string) :=
  match s with
  | String "-" t => if starts_digit t then let '(n, rest) := read_digits t 0 in Some (- n, rest) else None
  | _ => if starts_digit s then Some (read_digits s 0) else None
  end.
Fixpoint strip (p s : string) : option string :=
  match p, s with
  | EmptyString, _ => Some s
  | String a p, String b s => if bool_decide (a = b) then strip p s else None
  | _, _ => None
  end.

(** One value at the head of the text, without white space. *)
Fixpoint value (fuel : nat) (s : string) : option (Json * string) :=
  match fuel with
  | O => None
  | S fuel =>
      match s with
      | EmptyString => None
      | String c t =>
          if bool_decide (c = quote) then '(a, rest) ← read_string t; Some (JStr a, rest)
          else if bool_decide (c = "["%char) then
            match strip "]" t with Some rest => Some (JArr [], rest) | None => '(l, rest) ← elems fuel t; Some (JArr l, rest) end
          else if bool_decide (c = "{"%char) then
            match strip "}" t with Some rest => Some (JObj [], rest) | None => '(l, rest) ← members fuel t; Some (JObj l, rest) end
          else if bool_decide (c = "t"%char) then rest ← strip "rue" t; Some (JBool true, rest)
          else if bool_decide (c = "f"%char) then rest ← strip "alse" t; Some (JBool false, rest)
          else '(n, rest) ← read_int s; Some (JInt n, rest)
      end
  end
with elems (fuel : nat) (s : string) : option (list Json * string) :=
  match fuel with
  | O => None
  | S fuel =>
      '(v, t) ← value fuel s;
      match strip "," t with
      | Some t => '(l, rest) ← elems fuel t; Some (v :: l, rest)
      | None => rest ← strip "]" t; Some ([v], rest)
      end
  end
with members (fuel : nat) (s : string) : option (list (string * Json) * string) :=
  match fuel with
  | O => None
  | S fuel =>
      t ← strip (String quote EmptyString) s;
      '(k, t) ← read_string t;
      t ← strip ":" t;
      '(v, t) ← value fuel t;
      match strip "," t with
      | Some t => '(l, rest) ← members fuel t; Some ((k, v) :: l, rest)
      | None => rest ← strip "}" t; Some ([(k, v)], rest)
      end
  end.
Definition parse_json (s : string) : option Json :=
  match value (String.length s) s with Some (j, EmptyString) => Some j | _ => None end.

(** The compact text of a value. *)
Definition quoted (s : string) : string := String quote s +:+ String quote EmptyString.
Fixpoint print (j : Json) : string :=
  match j with
  | JStr s => quoted s
  | JInt z => pretty z
  | JBool b => bool_text b
  | JArr l => "[" +:+ String.concat "," (map print l) +:+ "]"
  | JObj l => "{" +:+ String.concat "," (map (λ p, quoted p.1 +:+ ":" +:+ print p.2) l) +:+ "}"
  end.

Fixpoint writable (j : Json) : bool :=
  match j with
  | JStr s => plain s
  | JInt _ | JBool _ => true
  | JArr l => forallb writable l
  | JObj l => forallb (λ p, plain p.1 && writable p.2) l
  end.
Fixpoint weight (j : Json) : nat :=
  match j with
  | JStr _ | JInt _ | JBool _ => 1
  | JArr l => S (sum_list_with (λ j, S (weight j)) l)
  | JObj l => S (sum_list_with (λ p, S (weight p.2)) l)
  end.

Lemma str_app_cons c s t : String c s +:+ t = String c (s +:+ t).
Proof. done. Qed.

Lemma str_app_nil t : "" +:+ t = t.
Proof. done. Qed.

Lemma read_string_quoted s rest : plain s = true → read_string (s +:+ String quote rest) = Some (s, rest).
Proof.
  induction s as [|c s IH]; cbn [plain read_string String.append]; [done|].
  intros [Hc Hs]%andb_true_iff. rewrite str_app_cons. cbn [read_string]. rewrite bool_decide_false by (intros ->; done). rewrite Hc, IH by done. done.
Qed.

Lemma read_digits_pretty (x : N) s : read_digits (pretty_N_go x s) 0 = read_digits s (Z.of_N x) ∧ (starts_digit s = true → starts_digit (pretty_N_go x s) = true) ∧
  ((0 < x)%N → starts_digit (pretty_N_go x s) = true).
Proof.
  revert s. induction (N.lt_wf_0 x) as [x _ IH]; intros s.
  assert (x = 0 ∨ 0 < x)%N as [->|Hpos] by lia; [by rewrite pretty_N_go_0|].
  pose proof (N.div_lt x 10 Hpos eq_refl) as Hlt. pose proof (N.div_mod x 10 ltac:(done)) as Hdm. pose proof (N.mod_lt x 10 ltac:(done)) as Hm.
  pose proof (pretty_N_char_digit _ Hm) as Hd. rewrite pretty_N_go_step by done.
  assert (Hdig : digit (pretty_N_char (x `mod` 10)) = true).
  { unfold digit. apply andb_true_iff. revert Hm Hd. generalize (x `mod` 10)%N. intros m. generalize (nat_of_ascii (pretty_N_char m)). intros k ??. split; apply Nat.leb_le; lia. }
  destruct (IH (x `div` 10)%N Hlt (String (pretty_N_char (x `mod` 10)) s)) as (Hr & Hs & _). split_and!.
  - rewrite Hr. cbn [read_digits]. rewrite Hdig, Hd. f_equal. lia.
  - intros _. by apply Hs.
  - intros _. by apply Hs.
Qed.

Lemma pretty_go_app (x : N) s t : pretty_N_go x s +:+ t = pretty_N_go x (s +:+ t).
Proof.
  revert s. induction (N.lt_wf_0 x) as [x _ IH]; intros s.
  assert (x = 0 ∨ 0 < x)%N as [->|Hpos] by lia; [by rewrite !pretty_N_go_0|].
  rewrite !(pretty_N_go_step x) by done. by rewrite IH by (by apply N.div_lt).
Qed.

Lemma read_digits_stop rest n : starts_digit rest = false → read_digits rest n = (n, rest).
Proof. destruct rest as [|c rest]; [done|]. cbn. by intros ->. Qed.

Lemma digit_dash c : digit c = true → c ≠ "-"%char.
Proof. intros Hd ->. done. Qed.

Lemma read_int_pretty z rest : starts_digit rest = false → read_int (pretty z +:+ rest) = Some (z, rest) ∧
  ∃ c t, pretty z +:+ rest = String c t ∧ (c = "-"%char ∨ digit c = true).
Proof.
  intros Hrest. destruct z as [|p|p].
  - change (pretty 0) with "0". rewrite str_app_cons. split; [|by exists "0"%char, rest; split; [|right]].
    unfold read_int. cbn [starts_digit]. change (digit "0") with true. cbn [read_digits]. change (digit "0") with true. cbv iota.
    rewrite str_app_nil. by rewrite read_digits_stop.
  - change (pretty (Z.pos p)) with (pretty_N_go (N.pos p) ""). rewrite pretty_go_app, str_app_nil.
    destruct (read_digits_pretty (N.pos p) rest) as (Hr & _ & Hs). specialize (Hs ltac:(done)). rewrite (read_digits_stop rest) in Hr by done.
    destruct (pretty_N_go (N.pos p) rest) as [|c t] eqn:Hp; [done|]. split; [|by exists c, t; split; [|right]].
    unfold read_int. rewrite Hs, Hr. cbn in Hs. pose proof (digit_dash _ Hs) as Hne. destruct c as [[] [] [] [] [] [] [] []]; first [reflexivity|by destruct Hne].
  - change (pretty (Z.neg p)) with ("-" +:+ pretty_N_go (N.pos p) ""). rewrite str_app_assoc, pretty_go_app, str_app_nil, str_app_cons, str_app_nil.
    destruct (read_digits_pretty (N.pos p) rest) as (Hr & _ & Hs). rewrite (read_digits_stop rest) in Hr by done.
    cbn [read_int]. rewrite (Hs ltac:(done)), Hr. split; [done|]. eexists _, _. split; [done|by left].
Qed.

Lemma strip_app p rest : strip p (p +:+ rest) = Some rest.
Proof. induction p as [|c p IH]; [done|]. rewrite str_app_cons. cbn [strip]. by rewrite bool_decide_true. Qed.

Lemma quoted_app s rest : quoted s +:+ rest = String quote (s +:+ String quote rest).
Proof. unfold quoted. by rewrite str_app_assoc. Qed.

Lemma strip_quote s : strip (String quote EmptyString) (String quote s) = Some s.
Proof. apply (strip_app (String quote EmptyString)). Qed.

(** A value is read back from its text, whatever follows it. *)
Definition reads_back (j : Json) : Prop :=
  ∀ fuel rest, (weight j ≤ fuel)%nat → starts_digit rest = false → value fuel (print j +:+ rest) = Some (j, rest).

(** No text of a value starts like the end of a list. *)
Lemma print_head j rest : writable j = true → ∃ c t, print j +:+ rest = String c t ∧ c ≠ "]"%char ∧ c ≠ "}"%char.
Proof.
  destruct j as [s|z|b|l|l]; intros Hw; cbn [print].
  - rewrite quoted_app. by eexists _, _.
  - assert (∃ c t, pretty z = String c t ∧ (c = "-"%char ∨ digit c = true)) as (c & t & Hz & Hc).
    { destruct (read_int_pretty z "" eq_refl) as (_ & c & t & Hz & Hc). rewrite str_app_nil_r in Hz. by exists c, t. }
    rewrite Hz. exists c, (t +:+ rest). split; [done|]. by destruct Hc as [->|Hc]; [|split; intros ->].
  - destruct b; by eexists _, _.
  - by eexists _, _.
  - by eexists _, _.
Qed.

Lemma elems_read l : (∀ j, j ∈ l → reads_back j) → l ≠ [] →
  ∀ fuel rest, (sum_list_with (λ j, S (weight j)) l ≤ fuel)%nat →
  elems fuel (String.concat "," (map print l) +:+ "]" +:+ rest) = Some (l, rest).
Proof.
  induction l as [|j l IH]; [done|]. intros Hl _ fuel rest Hf. cbn [sum_list_with] in Hf. destruct fuel as [|fuel]; [lia|].
  destruct l as [|j' l].
  - cbn [map String.concat]. cbn [elems]. rewrite (Hl j) by (left || lia || done). done.
  - change (String.concat "," (map print (j :: j' :: l))) with (print j +:+ "," +:+ String.concat "," (map print (j' :: l))).
    rewrite !str_app_assoc. cbn [elems]. rewrite (Hl j) by (left || lia || done). cbn [mbind option_bind].
    rewrite strip_app. rewrite IH; [done| |done|lia]. intros j'' Hin. apply Hl. by right.
Qed.

Lemma members_read l : (∀ p, p ∈ l → plain p.1 = true ∧ reads_back p.2) → l ≠ [] →
  ∀ fuel rest, (sum_list_with (λ p, S (weight p.2)) l ≤ fuel)%nat →
  members fuel (String.concat "," (map (λ p, quoted p.1 +:+ ":" +:+ print p.2) l) +:+ "}" +:+ rest) = Some (l, rest).
Proof.
  induction l as [|[k j] l IH]; [done|]. intros Hl _ fuel rest Hf. cbn [sum_list_with snd] in Hf. destruct fuel as [|fuel]; [lia|].
  destruct (Hl (k, j)) as [Hk Hj]; [left|]. cbn in Hk, Hj.
  assert (Hhead : ∀ tail, starts_digit tail = false → members (S fuel) (quoted k +:+ ":" +:+ print j +:+ tail) =
    match strip "," tail with
    | Some t => '(l, rest) ← members fuel t; Some ((k, j) :: l, rest)
    | None => rest ← strip "}" tail; Some ([(k, j)], rest)
    end).
  { intros tail Ht. cbn [members]. rewrite quoted_app. rewrite strip_quote. cbn [mbind option_bind].
    rewrite read_string_quoted by done. cbn [mbind option_bind]. rewrite strip_app. cbn [mbind option_bind]. rewrite Hj by (done || lia). done. }
  destruct l as [|p l].
  - cbn [map String.concat fst snd]. rewrite !str_app_assoc, Hhead by done. done.
  - change (String.concat "," (map _ ((k, j) :: p :: l))) with
      ((quoted k +:+ ":" +:+ print j) +:+ "," +:+ String.concat "," (map (λ p, quoted p.1 +:+ ":" +:+ print p.2) (p :: l))).
    rewrite !str_app_assoc, Hhead by done. rewrite strip_app. rewrite IH; [done| |done|lia]. intros q Hin. apply Hl. by right.
Qed.

Lemma forallb_elem {A : Type} (f : A → bool) l x : forallb f l = true → x ∈ l → f x = true.
Proof. intros Hl Hx. by apply (proj1 (List.forallb_forall f l) Hl), list_elem_of_In. Qed.

Lemma concat_comma (l : list string) s t : l ≠ [] → l !! 0%nat = Some s → ∃ u, String.concat "," l +:+ t = s +:+ u.
Proof. destruct l as [|a [|b l]]; [done|..]; intros _ [= ->]; cbn [String.concat]; [by eexists|]. rewrite !str_app_assoc. by eexists. Qed.

Lemma value_reads j : writable j = true → reads_back j.
Proof.
  assert (Hall : ∀ n j, (weight j ≤ n)%nat → writable j = true → reads_back j); [|by intros; eapply Hall].
  clear j. induction n as [|n IH]; intros j Hn Hw; [by destruct j; cbn in Hn; lia|]. intros fuel rest Hf Hrest.
  destruct j as [s|z|b|l|l]; cbn [weight] in Hn, Hf; (destruct fuel as [|fuel]; [lia|]); cbn [print writable] in *.
  - rewrite quoted_app. cbn [value]. rewrite bool_decide_true by done. by rewrite read_string_quoted.
  - destruct (read_int_pretty z rest Hrest) as (Hr & c & t & Ht & Hc). rewrite Ht in Hr |- *. cbn [value].
    assert (Hne : c ≠ quote ∧ c ≠ "["%char ∧ c ≠ "{"%char ∧ c ≠ "t"%char ∧ c ≠ "f"%char) by (destruct Hc as [->|Hc]; [done|split_and!; intros ->; done]).
    destruct Hne as (?&?&?&?&?). rewrite !bool_decide_false by done. by rewrite Hr.
  - by destruct b.
  - rewrite str_app_assoc, str_app_assoc, str_app_cons. cbn [value]. rewrite bool_decide_false, bool_decide_true by done. rewrite str_app_nil.
    destruct l as [|j l]; [by rewrite str_app_nil, strip_app|].
    assert (Hs : strip "]" (String.concat "," (map print (j :: l)) +:+ "]" +:+ rest) = None).
    { destruct (concat_comma (map print (j :: l)) (print j) ("]" +:+ rest)) as [u ->]; [done..|]. cbn in Hw. apply andb_true_iff in Hw as [Hj _].
      destruct (print_head j u Hj) as (c & t & -> & Hc & _). cbn [strip]. by rewrite bool_decide_false. }
    rewrite Hs, elems_read; [done| |done|lia]. intros j' Hin. apply IH.
    + apply (sum_list_with_in _ (λ j, S (weight j))) in Hin. cbn beta in Hin. lia.
    + by eapply forallb_elem.
  - rewrite str_app_assoc, str_app_assoc, str_app_cons. cbn [value]. rewrite !bool_decide_false, bool_decide_true by done. rewrite str_app_nil.
    destruct l as [|[k j] l]; [by rewrite str_app_nil, strip_app|].
    assert (Hs : strip "}" (String.concat "," (map (λ p, quoted p.1 +:+ ":" +:+ print p.2) ((k, j) :: l)) +:+ "}" +:+ rest) = None).
    { destruct (concat_comma (map (λ p, quoted p.1 +:+ ":" +:+ print p.2) ((k, j) :: l)) (quoted k +:+ ":" +:+ print j) ("}" +:+ rest)) as [u ->]; [done..|].
      rewrite str_app_assoc, quoted_app. cbn [strip]. by rewrite bool_decide_false. }
    rewrite Hs, members_read; [done| |done|lia]. intros p Hin.
    assert (Hp : plain p.1 && writable p.2 = true) by (by apply (forallb_elem _ _ p Hw)).
    apply andb_true_iff in Hp as [Hk Hj]. split; [done|]. apply IH; [|done].
    apply (sum_list_with_in _ (λ p, S (weight p.2))) in Hin. cbn beta in Hin. lia.
Qed.

Lemma concat_length {A : Type} (f : A → string) (g : A → nat) (l : list A) :
  (∀ x, x ∈ l → g x ≤ String.length (f x))%nat → l ≠ [] →
  (sum_list_with (λ x, S (g x)) l ≤ S (String.length (String.concat "," (map f l))))%nat.
Proof.
  induction l as [|x l IH]; [done|]. intros Hl _. cbn [sum_list_with]. pose proof (Hl x ltac:(left)) as Hx. destruct l as [|y l]; [cbn; lia|].
  change (String.concat "," (map f (x :: y :: l))) with (f x +:+ "," +:+ String.concat "," (map f (y :: l))).
  rewrite !string_length_app. assert (Hrest : ∀ z, z ∈ y :: l → (g z ≤ String.length (f z))%nat) by (intros z Hz; apply Hl; by right).
  specialize (IH Hrest ltac:(done)). change (String.length ",") with 1%nat. lia.
Qed.

Lemma weight_length j : (weight j ≤ String.length (print j))%nat.
Proof.
  assert (Hall : ∀ n j, (weight j ≤ n)%nat → (weight j ≤ String.length (print j))%nat); [|by eapply Hall].
  clear j. induction n as [|n IH]; intros j Hn; [by destruct j; cbn in Hn; lia|].
  destruct j as [s|z|b|l|l]; cbn [weight print] in *.
  - unfold quoted. rewrite string_length_app. cbn. lia.
  - destruct (read_int_pretty z "" eq_refl) as (_ & c & t & Hz & _). rewrite str_app_nil_r in Hz. rewrite Hz. cbn. lia.
  - destruct b; cbn; lia.
  - rewrite !string_length_app. change (String.length "[") with 1%nat. change (String.length "]") with 1%nat.
    destruct l as [|j l]; [cbn; lia|]. enough (Hx : ∀ x, x ∈ j :: l → (weight x ≤ String.length (print x))%nat) by (pose proof (concat_length print weight (j :: l) Hx ltac:(done)); lia).
    intros x Hx. apply IH. apply (sum_list_with_in _ (λ j, S (weight j))) in Hx. cbn beta in Hx. lia.
  - rewrite !string_length_app. change (String.length "{") with 1%nat. change (String.length "}") with 1%nat.
    destruct l as [|p l]; [cbn; lia|].
    enough (Hx : ∀ x, x ∈ p :: l → (weight x.2 ≤ String.length (quoted x.1 +:+ ":" +:+ print x.2))%nat)
      by (pose proof (concat_length (λ p, quoted p.1 +:+ ":" +:+ print p.2) (λ p, weight p.2) (p :: l) Hx ltac:(done)); lia).
    intros x Hx. rewrite !string_length_app. enough (weight x.2 ≤ String.length (print x.2))%nat by lia.
    apply IH. apply (sum_list_with_in _ (λ p, S (weight p.2))) in Hx. cbn beta in Hx. lia.
Qed.

Lemma parse_print j : writable j = true → parse_json (print j) = Some j.
Proof.
  intros Hw. unfold parse_json. pose proof (value_reads j Hw (String.length (print j)) "" (weight_length j) eq_refl) as Hv.
  rewrite str_app_nil_r in Hv. by rewrite Hv.
Qed.

(** ** The status document *)

Section documents.
Context `{!Hex, !HexLaws, !Blake3, !Bincode, !Scan}.
Import HealthDoc.

(** What the status of a node says. *)
Definition peer_doc (ctx : HealthCtx) (peer : NodeId) : Json :=
  let status := PeerRegistry.get (dm_peers (hc_daemon ctx)) peer in
  JObj [("node_id", JStr (hex_encode (ba_list peer))); ("state", JStr (PeerState.as_str (ps_state status)));
    ("connected", JBool (connected ctx peer)); ("last_reconcile_unix", JInt (ps_last_reconcile_unix status));
    ("last_reconcile_ok", JBool (ps_last_reconcile_ok status)); ("recv_cursor", JInt (recv_cursor ctx peer));
    ("last_acked_seq", JInt (last_acked ctx peer))].
Definition document (ctx : HealthCtx) : Json :=
  let s := dm_stats (hc_daemon ctx) in
  JObj [("node_id", JStr (hex_encode (ba_list (c_node_id (dm_boot (hc_daemon ctx))))));
    ("peers", JArr (peer_doc ctx <$> hc_configured_peers ctx));
    ("counters", JObj [("chunks_fetched", JInt (sc_chunks_fetched s)); ("chunks_served", JInt (sc_chunks_served s));
       ("bytes_in", JInt (sc_bytes_in s)); ("bytes_out", JInt (sc_bytes_out s)); ("manifests_fetched", JInt (sc_manifests_fetched s));
       ("reconcile_runs", JInt (sc_reconcile_runs s)); ("inflight_transfers", JInt (sc_inflight_transfers s))]);
    ("cas", JObj [("chunks", JInt (cas_stats ctx).1); ("bytes", JInt (cas_stats ctx).2)]);
    ("queues", JObj [("events_queued", JInt (events_queued ctx)); ("live_conns", JInt (live_conns ctx))]);
    ("oplog_rows", JInt (op_count ctx))].

Lemma hex_plain l : plain (hex_encode l) = true.
Proof.
  pose proof (hex_chars l) as Hc. induction (hex_encode l) as [|c s IH]; [done|]. destruct Hc as [Hc Hs]. cbn [plain]. rewrite IH by done.
  unfold plain_char. rewrite !bool_decide_false by (destruct Hc; lia). replace (32 <=? nat_of_ascii c)%nat with true; [done|]. symmetry. apply Nat.leb_le. destruct Hc; lia.
Qed.

Lemma document_writable ctx : writable (document ctx) = true.
Proof.
  assert (Hp : writable (JArr (peer_doc ctx <$> hc_configured_peers ctx)) = true).
  { cbn [writable]. apply List.forallb_forall. intros j Hj. apply list_elem_of_In in Hj. apply list_elem_of_fmap in Hj as (p & -> & _).
    unfold peer_doc. cbn -[plain_char]. rewrite hex_plain. by destruct (ps_state _). }
  unfold document. revert Hp. generalize (JArr (peer_doc ctx <$> hc_configured_peers ctx)). intros a Ha. cbn -[plain_char]. by rewrite hex_plain, Ha.
Qed.

Lemma peer_json_print ctx p : peer_json ctx p = print (peer_doc ctx p).
Proof. unfold peer_json, peer_doc. cbn [print map String.concat fst snd]. by rewrite !str_app_assoc, !quoted_app, ?str_app_assoc. Qed.

Lemma render_print ctx : render ctx = print (document ctx).
Proof.
  unfold render, document. cbn [print map String.concat fst snd].
  replace (map print (peer_doc ctx <$> hc_configured_peers ctx)) with (peer_json ctx <$> hc_configured_peers ctx).
  - rewrite !str_app_assoc, !quoted_app, ?str_app_assoc. reflexivity.
  - unfold fmap. change (list_fmap _ _ ?f ?l) with (map f l). rewrite List.map_map. apply List.map_ext. intros p. apply peer_json_print.
Qed.

(** C37: The status document the endpoint fills in by hand is JSON text: a
    reader gets back exactly the node's identity, one entry per configured
    peer with its state, connection, last session and cursors, the counters,
    the sizes of content store and queues, and the length of the log,
    negative numbers included. *)
Theorem health_document_reads_back (ctx : HealthCtx) : parse_json (render ctx) = Some (document ctx).
Proof. rewrite render_print. apply parse_print, document_writable. Qed.

Lemma register_all l r :
  Forall (λ m, valid_metric m = true) l → NoDup (mx_name <$> r ++ l) → foldl register r l = r ++ l.
Proof.
  revert r. induction l as [|m l IH]; intros r Hv Hd; [by rewrite app_nil_r|]. apply Forall_cons in Hv as [Hm Hv].
  cbn [foldl]. assert (Hreg : register r m = r ++ [m]).
  { unfold register. rewrite Hm, bool_decide_false; [done|]. rewrite fmap_app in Hd. apply NoDup_app in Hd as (_ & Hd & _).
    intros Hin. apply (Hd _ Hin). by left. }
  rewrite Hreg, IH, <- (assoc_L (++)); [done..|]. by rewrite <- (assoc_L (++)).
Qed.

Definition metric_names : list string :=
  ["replicore_chunks_fetched_total"; "replicore_chunks_cache_hits_total"; "replicore_chunks_served_total"; "replicore_bytes_in_total";
   "replicore_bytes_out_total"; "replicore_manifests_fetched_total"; "replicore_reconcile_runs_total"; "replicore_conflicts_total";
   "replicore_freespace_guard_trips_total"; "replicore_apply_errors_total"; "replicore_meta_owner_skips_total"; "replicore_inflight_transfers";
   "replicore_events_queued"; "replicore_live_connections"; "replicore_oplog_rows"; "replicore_peer_recv_cursor"; "replicore_peer_acked_seq"].

(** Every metric is made and registered, none twice. *)
Theorem metrics_all_registered (ctx : HealthCtx) : render_metrics ctx = metrics ctx ∧ mx_name <$> render_metrics ctx = metric_names.
Proof.
  assert (Hnames : mx_name <$> metrics ctx = metric_names).
  { unfold metrics, counter, gauge. cbv zeta. unfold fmap, list_fmap, mx_name. reflexivity. }
  assert (Hr : render_metrics ctx = metrics ctx); [|rewrite Hr; split; [reflexivity|exact Hnames]]. apply (register_all (metrics ctx) []).
  - unfold metrics. repeat (apply Forall_cons; split; [reflexivity|]). apply Forall_nil_2.
  - cbn [app]. rewrite Hnames. vm_decide.
Qed.
End documents.

(** ** A small node *)

Import StateEx RosterEx.
#[local] Existing Instance lower_hex.
#[local] Existing Instance lower_hex_laws.

Definition ctx1 : HealthCtx := mkHealthCtx daemon1 [c_node_id config1] None 1024 1000 3.

Lemma health_document_reads_back_witness :
  ∃ doc, parse_json (HealthDoc.render ctx1) = Some (JObj doc) ∧ ("oplog_rows", JInt 0) ∈ doc ∧
    ("queues", JObj [("events_queued", JInt 24); ("live_conns", JInt 0)]) ∈ doc.
Proof.
  eexists. split; [exact (health_document_reads_back ctx1)|]. split.
  - do 5 right. left.
  - do 4 right. left.
Defined.
